(* ===== verification/_CoqProject ===== *)
-Q . S2P
Prelude.v
Record.v
Index.v
LogFile.v
ValueStore.v
Recover.v
NsLog.v
NsRepr.v
NsSpec.v
Reclaim.v
NsBatch.v
NsSim.v
NsOk.v
NsContract.v
NsJournal.v
NsRecover.v
Ascii.v
Command.v
Glob.v
Cache.v
Watch.v
Stream.v
Store.v
StoreInv.v
StoreSpec.v
StoreMany.v
StoreRefine.v
StoreNames.v
StoreRun.v
StoreEach.v
Routing.v
Wakeup.v
Messages.v
CrossShard.v
Dispatch.v
DispatchRefine.v
DispatchMap.v
Keys.v
Resp.v
HttpMsg.v
Http.v
HttpConn.v
HttpRefine.v
HttpBatch.v
Handoff.v
Worker.v
Restart.v
Js.v
Flags.v
FlagsSnapshot.v
FlagsSync.v
Clients.v
Lock.v
RateLimit.v
Bench.v
