(* ===== verification/Prelude.v ===== *)
(** * A verification library for the [kv] key-value store

    [kv] is a key-value server in Rust ([crates/]) with clients in TypeScript
    ([sdk/ts/]).  A server runs one worker thread per shard.  A shard has a store
    ([ShardStore]) with one append-only log per namespace ([NamespaceLog]), a cache in
    front of the logs and a registry of subscribers.  Clients speak RESP or HTTP.  A
    connection is given to the shard that the first key it names hashes to; commands on
    several keys send requests from shard to shard.  A process can hand its data over to
    its successor.  The SDK builds locks, feature flags and rate limits on the server.

    The library translates this code into definitions that evaluate, and proves what the
    parts promise and that they keep the promises together.  Stateful code is explicit
    state passing, most of it in the monad [ST] below, in which a method that returns
    early keeps the state that it has reached; errors are values of [result]; integers
    are [Z] with their widths written out ([is_u64], [sat_add_u64] and the like).

    ** The parts and their files

    - [Prelude]: bytes, machine integers, [result], the monad [ST] with [wp], sorted
      lists, the tactics and the database [sizes] of lengths.
    - The engine, [crates/engine/src].  [Record]: [log/record.rs], the record codec.
      [Index]: [log/index.rs], [NsIndex].  [LogFile]: [log/file.rs], [LogFile] and the
      footers.  [ValueStore]: [value_store.rs], the blobs with their reference counts.
      [Recover]: [log/recover.rs], [open_namespace].  [NsLog]: [log/mod.rs],
      [NamespaceLog] and its writes, reads, rotation, seal, reopening and flush.
      [Reclaim]: [log/reclaim.rs] and [NamespaceLog::reclaim].  [Stream]: [scan_since] and
      [current_entries] of [log/mod.rs].  [Cache]: [cache.rs], [MemCache].  [Watch]:
      [watch.rs], [WatchRegistry].  [Glob]: [glob_match] of [store.rs].  [Store]:
      [store.rs], every method of [ShardStore].
    - The protocol, [crates/proto/src].  [Ascii]: text and decimal numbers.  [Command]:
      [command.rs], [Command::parse].  [Messages]: the texts of both error types.
    - The server, [crates/server/src].  [Routing]: [routing.rs] and the accept loop of
      [main.rs].  [Wakeup]: the inboxes of a worker in [cross_shard.rs], [handoff.rs] and
      [lib.rs].  [CrossShard]: [cross_shard.rs].  [Dispatch]: [dispatch.rs].  [Resp]:
      [resp.rs].  [HttpMsg], [Http], [HttpConn]: [http.rs], its messages, handlers and
      connections.  [Handoff]: [handoff.rs].  [Worker]: the worker thread of [main.rs], its
      start, its three tasks and its end.
    - The SDK, [sdk/ts].  [Js]: what it uses of JavaScript.  [Flags]: [flags/src/eval.ts]
      and [hash.ts].  [FlagsSnapshot]: [flags/src/snapshot.ts].  [Clients]: programs of
      many clients on one server.  [Lock]: [tryLock], [lock] and [release] of
      [kv/src/client.ts].  [RateLimit]: the algorithms of [rate-limit/src].
    - [Bench]: the load generator, [crates/bench/src].

    A state is a [Record] with the fields of the struct, an operation a [Definition] with
    the name of the method.  The clock, the failures of the file system, the answers of
    channels and sockets and the choices of a scheduler are arguments, so the theorems
    are about all of them.

    ** The theorems

    - The log.  [NsRepr] defines when a log represents a map from keys to value, metadata,
      expiry and revision; [NsSpec] and [NsBatch] show that every method keeps it, whatever
      fails; [NsOk] that methods succeed when nothing fails.  [NsSim] and [NsContract]:
      every sequence of calls on a fresh log is a run of a machine whose state is one map
      ([log_refines_map]); compare-and-swap, reference counts, compaction.  [NsJournal] and
      [NsRecover]: what a directory says about the log it was written by; restarts and
      crashes lose nothing as long as sealed files hold puts only and every footer could
      be synced ([crash_recovery], [clean_restart]).
    - The store.  [StoreInv], [StoreSpec], [StoreMany], [StoreRefine], [StoreRun]: every
      sequence of operations returns, changes and announces what the specification of
      each operation ([spec_op]) says of a map of maps ([store_refines_map]).
      [StoreNames]: the open namespaces, also when several are being opened at once.  [StoreEach]: the methods that go through all
      open namespaces.  What is known of the logs besides their contents is an instance
      of [Provenance], which the theorems of the store carry along.
    - The server.  [DispatchRefine], [DispatchMap]: commands over several shards act on
      the union of the maps of the shards, when every key is on the shard it hashes to
      ([fan_out_refines_map]).  [Keys]: the loops of
      [KEYS] and [SCAN] end and are complete.  [HttpRefine], [HttpBatch]: requests over
      HTTP do the operation that the description of the API ([asks]) gives for their
      method, headers and query, single or in batches.  [Resp], [HttpConn]: one reply per
      request, in order.  [Wakeup]: requests between threads reach their handlers in order
      and none is lost.  [Handoff]: drain, seal and
      resume.  [Worker]: requests between rounds of the sweep, the sync and the compaction
      are answered as if there were no rounds ([worker_refines_map]), a sync that succeeds
      leaves nothing unsynced, and [/readyz] counts the failed ones ([readyz_exact]).
      [Restart]: the next process has what the requests to the last one made
      ([worker_restart]).
    - The clients.  [FlagsSync] feeds a snapshot of flags with the replay of a log.
      [Lock] and [RateLimit] run any number of programs side by side on the map that the
      store implements ([spec_op]): mutual exclusion, exact windows, buckets without lost
      tokens.
    - The load generator.  [Bench]: the server is filled completely, and workers use the
      keys of their shard ([bench_populates]).
    - The parts alone: round trips of the codecs, bounds and coherence of the cache, the
      safety of the blob store under interleaving, exactness of notifications and
      snapshots, the matcher of patterns, rollouts and their hash.

    The theorems about the store and the server assume that no I/O of the requests fails,
    those about the log alone do not.  Concrete runs next to the theorems show behaviours
    that their conditions exclude.

    ** Bounds and fuel

    Loops that are not structural have fuel.  [dec_loop] has 20 steps for the at most 19
    digits of a signed and 20 of an unsigned 64-bit number.  [parse_entries] has the
    length of the body, and an entry takes more than one byte.  [rebuild_loop],
    [replay_loop] and [scan_loop] have more steps than the file has bytes, and a record
    takes at least 37.  [evict_main] has the length of its queue and the number
    of entries, [evict_loop] one more than the entries; both are shown to stop before.  [glob_fuel] is shown to
    be enough for every pattern and key, [cascade] for every set of runs, [all_keys_loop]
    for every namespace ([keys_complete]).  The loops of connections have one round per
    arrival and one more; that this is enough is a part of [replies_in_order] and
    [http_responses_in_order].  A token bucket has the 11 attempts of the source.

    Integers have the width of the source where it matters.  The reference counts of blobs
    are unbounded in the log; [ValueStore] has the operations at their 32 bits, which are
    the same below 2^32 - 1 references ([put32_put], [refcounts_exact]).

    ** Code that is not in the repository

    Interfaces are classes with the laws that their documentation gives: [CrcFast]
    (crc_fast), [Blake3] (blake3), [SerdeJson] (serde_json), [Mpsc] (futures_channel),
    [Memchr] (memchr), [FxHash] (rustc_hash), [Messages] (texts of io and json errors),
    [Framed] (monoio_codec with beyond_resp), [HttpLib] and [HttpWire] (http, base64,
    monoio_http), [JsText] (TextDecoder and JSON of JavaScript), [BucketJson] (JSON of the
    state of a bucket), [Rand] and [Histogram] (rand, hdrhistogram).  Each but the last has a concrete instance in the witnesses.

    ** Not modelled

    - The arguments of the process (clap), threads, sockets, signals and timers; TLS
      (rustls); the text of the metrics (prometheus); spans and durations.
    - Writes of one log that wait for each other on its striped locks run one after the
      other here, so the drain before a seal has nothing to wait for.  The rounds of the
      tasks of a worker run between requests.
    - Appends tear at any byte, and fsyncs and the opening of a new active file fail; what
      a power failure leaves of bytes that were written and not synced, and the order in
      which the file system persists files, are not modelled.  The unlinks and the opening
      of a flush, reads within a file and the truncation of a file do not fail.
    - The load generator around its keys, operations and counts: arguments, timing,
      connections and reports.
    - The SDK around the parts above: the transports of the key-value client (fetch,
      ioredis) and the middleware for web frameworks. *)

From stdpp Require Import base tactics list gmap sorting strings.
From Stdlib Require Import ZArith Lia.

Open Scope Z_scope.

(** ** Bytes and machine integers *)

(** A byte string.  Every byte is a [Z]; [is_bytes] says that the bytes are in
    the range of [u8], which only the theorems that need it assume. *)
Notation bytes := (list Z).

Definition u8_max : Z := 2 ^ 8 - 1.
Definition u32_max : Z := 2 ^ 32 - 1.
Definition u64_max : Z := 2 ^ 64 - 1.
Definition i64_min : Z := - 2 ^ 63.
Definition i64_max : Z := 2 ^ 63 - 1.

Definition is_u8 (x : Z) : Prop := 0 <= x <= u8_max.
Definition is_u32 (x : Z) : Prop := 0 <= x <= u32_max.
Definition is_u64 (x : Z) : Prop := 0 <= x <= u64_max.
Definition is_i64 (x : Z) : Prop := i64_min <= x <= i64_max.
Definition is_bytes (b : bytes) : Prop := Forall is_u8 b.

#[export] Instance is_u8_dec x : Decision (is_u8 x) := _.
#[export] Instance is_u32_dec x : Decision (is_u32 x) := _.
#[export] Instance is_u64_dec x : Decision (is_u64 x) := _.
#[export] Instance is_i64_dec x : Decision (is_i64 x) := _.

(** [usize::checked_add] and [i64::checked_add]: [None] on overflow. *)
Definition checked_add_u64 (a b : Z) : option Z :=
  if decide (a + b <= u64_max) then Some (a + b) else None.

Definition checked_add_i64 (a b : Z) : option Z :=
  if decide (is_i64 (a + b)) then Some (a + b) else None.

(** [u64::saturating_add], [u64::saturating_sub]. *)
Definition sat_add_u64 (a b : Z) : Z := Z.min (a + b) u64_max.
Definition sat_sub (a b : Z) : Z := Z.max 0 (a - b).

(** The length of a slice as a machine integer. *)
Definition zlen {A} (l : list A) : Z := Z.of_nat (length l).

Ltac unfold_ints :=
  unfold is_u8, is_u32, is_u64, is_i64, u8_max, u32_max, u64_max, i64_min, i64_max in *.

(** Arithmetic on lengths and machine ranges. *)
Ltac zlia := unfold zlen, sat_add_u64, sat_sub in *; cbn [length] in *; unfold_ints; lia.

(** ** Results *)

(** [std::io::ErrorKind], as far as the engine distinguishes it. *)
Inductive IoKind :=
| UnexpectedEof
| OtherIo (reason : string).

(** [crates/engine/src/error.rs]: [EngineError]. *)
Inductive EngineError :=
| Io (source : IoKind)
| CrcMismatch (offset : Z)
| BadRecord (offset : Z) (reason : string)
| InvalidNamespace (name : bytes)
| MetadataJson
| ReclamationBusy
| CapacityExceeded (reason : string)
| InvalidInput (reason : string)
| Conflict (reason : string)
| Frozen
| TestSealFailure.

#[export] Instance IoKind_eq_dec : EqDecision IoKind.
Proof. solve_decision. Defined.
#[export] Instance EngineError_eq_dec : EqDecision EngineError.
Proof. solve_decision. Defined.

(** [std::result::Result]. *)
Inductive result (E A : Type) :=
| Ok (a : A)
| Err (e : E).
Arguments Ok {E A} a.
Arguments Err {E A} e.

#[export] Instance result_eq_dec {E A} `{EqDecision E, EqDecision A} :
  EqDecision (result E A).
Proof. solve_decision. Defined.

#[export] Instance result_ret {E} : MRet (result E) := fun A a => Ok a.
#[export] Instance result_bind {E} : MBind (result E) := fun A B f m =>
  match m with Ok a => f a | Err e => Err e end.
#[export] Instance result_fmap {E} : FMap (result E) := fun A B f m =>
  match m with Ok a => Ok (f a) | Err e => Err e end.

(** [Option::ok_or]. *)
Definition ok_or {E A} (o : option A) (e : E) : result E A :=
  match o with Some a => Ok a | None => Err e end.

Definition is_ok {E A} (r : result E A) : bool :=
  match r with Ok _ => true | Err _ => false end.

(** The engine's [Result]. *)
Notation eresult := (result EngineError).

(** Inverts the binds of a computation that is known to succeed. *)
Lemma bind_Ok_inv {E A B} (m : result E A) (f : A -> result E B) b :
  (m ≫= f) = Ok b -> exists a, m = Ok a /\ f a = Ok b.
Proof. destruct m; simpl; [eauto | discriminate]. Qed.

Ltac inv_binds :=
  repeat match goal with
  | H : (_ ≫= _) = Ok _ |- _ =>
      let a := fresh "a" in let Ha := fresh "Ha" in
      apply bind_Ok_inv in H as (a & Ha & H)
  | H : Ok _ = Ok _ |- _ => injection H as H; subst
  | H : mret _ = Ok _ |- _ => injection H as H; subst
  | H : Err _ = Ok _ |- _ => discriminate H
  end.

(** State passing with errors: the state reached is kept when the computation
    fails, as it is when a Rust method returns early with [?]. *)
Definition ST (S E A : Type) : Type := S -> result E A * S.

Definition st_ret {S E A} (a : A) : ST S E A := fun s => (Ok a, s).
Definition st_bind {S E A B} (m : ST S E A) (f : A -> ST S E B) : ST S E B := fun s =>
  match m s with
  | (Ok a, s) => f a s
  | (Err e, s) => (Err e, s)
  end.
Definition st_get {S E} : ST S E S := fun s => (Ok s, s).
Definition st_modify {S E} (f : S -> S) : ST S E unit := fun s => (Ok tt, f s).
Definition st_lift {S E A} (r : result E A) : ST S E A := fun s => (r, s).
Definition st_err {S E A} (e : E) : ST S E A := fun s => (Err e, s).

#[export] Instance st_mret {S E} : MRet (ST S E) := fun A a => st_ret a.
#[export] Instance st_mbind {S E} : MBind (ST S E) := fun A B f m => st_bind m f.
#[export] Instance st_fmap {S E} : FMap (ST S E) := fun A B f m => st_bind m (fun a => st_ret (f a)).

(** Running a bind whose first part is known. *)
Lemma st_bind_ok {S E A B} (m : ST S E A) (f : A -> ST S E B) s a s1 :
  m s = (Ok a, s1) -> (m ≫= f) s = f a s1.
Proof. intros Hm. unfold mbind, st_mbind, st_bind. by rewrite Hm. Qed.

Lemma st_bind_err {S E A B} (m : ST S E A) (f : A -> ST S E B) s e s1 :
  m s = (Err e, s1) -> (m ≫= f) s = (Err e, s1).
Proof. intros Hm. unfold mbind, st_mbind, st_bind. by rewrite Hm. Qed.

(** The weakest precondition of a run: what it returns and leaves satisfies [Q]. *)
Definition wp {S E A} (m : ST S E A) (s : S) (Q : result E A -> S -> Prop) : Prop := Q (m s).1 (m s).2.

Lemma wp_bind {S E A B} (m : ST S E A) (f : A -> ST S E B) s Q :
  wp m s (fun r s' => match r with Ok a => wp (f a) s' Q | Err e => Q (Err e) s' end) -> wp (m ≫= f) s Q.
Proof. unfold wp, mbind, st_mbind, st_bind. by destruct (m s) as [[a|e] s']. Qed.

Lemma wp_mono {S E A} (m : ST S E A) s (Q Q' : result E A -> S -> Prop) :
  wp m s Q -> (forall r s', Q r s' -> Q' r s') -> wp m s Q'.
Proof. unfold wp. auto. Qed.

Lemma wp_eq {S E A} (m : ST S E A) s r s' (Q : result E A -> S -> Prop) :
  m s = (r, s') -> Q r s' -> wp m s Q.
Proof. unfold wp. by intros ->. Qed.

Lemma st_bind_inv {S E A B} (m : ST S E A) (f : A -> ST S E B) s r s' :
  (m ≫= f) s = (r, s') ->
  (exists a s1, m s = (Ok a, s1) /\ f a s1 = (r, s')) \/
  (exists e, m s = (Err e, s') /\ r = Err e).
Proof.
  unfold mbind, st_mbind, st_bind. destruct (m s) as [[a|e] s1]; intros; simplify_eq; eauto 10.
Qed.

(** Inverts a run of the monad one bind at a time. *)
Ltac st_step H x ns1 Hm :=
  apply st_bind_inv in H as [(x & ns1 & Hm & H)|(? & Hm & ->)].

(** Case analysis on the scrutinee of a match or the condition of an if. *)
Ltac case_match_eqn :=
  match goal with
  | |- context [match ?x with _ => _ end] => destruct x eqn:?
  | H : context [match ?x with _ => _ end] |- _ => destruct x eqn:?
  end.

(** Moves every boolean comparison of the context to [Prop]. *)
Ltac bool_to_prop :=
  repeat match goal with
  | H : (_ && _)%bool = true |- _ => apply andb_true_iff in H as [? ?]
  | H : (_ || _)%bool = false |- _ => apply orb_false_iff in H as [? ?]
  | H : negb _ = true |- _ => apply negb_true_iff in H
  | H : negb _ = false |- _ => apply negb_false_iff in H
  | H : (_ <? _) = true |- _ => apply Z.ltb_lt in H
  | H : (_ <? _) = false |- _ => apply Z.ltb_ge in H
  | H : (_ <=? _) = true |- _ => apply Z.leb_le in H
  | H : (_ <=? _) = false |- _ => apply Z.leb_gt in H
  | H : (_ =? _) = true |- _ => apply Z.eqb_eq in H
  | H : (_ =? _) = false |- _ => apply Z.eqb_neq in H
  | H : bool_decide _ = true |- _ => apply bool_decide_eq_true in H
  | H : bool_decide _ = false |- _ => apply bool_decide_eq_false in H
  end.

(** ** Slices *)

(** [slice.get(off..off + n)]: [None] when the range leaves the slice. *)
Definition sub {A} (l : list A) (off n : Z) : option (list A) :=
  if decide (0 <= off /\ 0 <= n /\ off + n <= zlen l)
  then Some (take (Z.to_nat n) (drop (Z.to_nat off) l)) else None.

(** [buf[off..off + n].copy_from_slice(bs)] for a range inside [buf]. *)
Definition patch {A} (l : list A) (off : Z) (bs : list A) : list A :=
  take (Z.to_nat off) l ++ bs ++ drop (Z.to_nat off + length bs) l.

Lemma zlen_app {A} (a b : list A) : zlen (a ++ b) = zlen a + zlen b.
Proof. unfold zlen. rewrite length_app. lia. Qed.

Lemma zlen_cons {A} (x : A) l : zlen (x :: l) = 1 + zlen l.
Proof. unfold zlen. simpl. lia. Qed.

Lemma zlen_nil {A} : zlen (@nil A) = 0.
Proof. reflexivity. Qed.

Lemma zlen_nonneg {A} (l : list A) : 0 <= zlen l.
Proof. unfold zlen. lia. Qed.

Lemma zlen_replicate {A} n (x : A) : zlen (replicate n x) = Z.of_nat n.
Proof. unfold zlen. by rewrite length_replicate. Qed.

Lemma sub_skip {A} (a b : list A) off n :
  zlen a <= off -> sub (a ++ b) off n = sub b (off - zlen a) n.
Proof.
  intros Hle. unfold sub. rewrite zlen_app.
  repeat case_decide; try zlia; try reflexivity.
  f_equal. f_equal. rewrite drop_app_ge by zlia. f_equal. zlia.
Qed.

Lemma sub_head {A} (a b : list A) n : n = zlen a -> sub (a ++ b) 0 n = Some a.
Proof.
  intros ->. unfold sub. rewrite zlen_app, decide_True by zlia.
  f_equal. rewrite drop_0, take_app_le by zlia.
  apply take_ge. zlia.
Qed.

Lemma sub_here {A} (a b : list A) off n :
  off = 0 -> n = zlen a -> sub (a ++ b) off n = Some a.
Proof. intros ->. apply sub_head. Qed.

Lemma sub_all {A} (a : list A) off n : off = 0 -> n = zlen a -> sub a off n = Some a.
Proof. intros -> ->. rewrite <- (app_nil_r a) at 1. by apply sub_head. Qed.

Lemma sub_mid {A} (a b c : list A) off n :
  off = zlen a -> n = zlen b -> sub (a ++ b ++ c) off n = Some b.
Proof.
  intros -> ->. rewrite sub_skip by lia. rewrite Z.sub_diag. by apply sub_head.
Qed.

Lemma sub_length {A} (l s : list A) off n : sub l off n = Some s -> zlen s = n.
Proof.
  unfold sub. case_decide as H; [|discriminate]. intros [= <-].
  unfold zlen in *. rewrite length_take, length_drop. lia.
Qed.

Lemma sub_is_Some {A} (l : list A) off n :
  0 <= off -> 0 <= n -> off + n <= zlen l -> is_Some (sub l off n).
Proof. intros. unfold sub. rewrite decide_True by lia. eauto. Qed.

Lemma sub_None {A} (l : list A) off n :
  0 <= off -> 0 <= n -> sub l off n = None <-> zlen l < off + n.
Proof. intros. unfold sub. case_decide; split; try done; lia. Qed.

Lemma sub_drop {A} (l s : list A) off n :
  sub l off n = Some s ->
  drop (Z.to_nat off) l = s ++ drop (Z.to_nat (off + n)) l.
Proof.
  unfold sub. case_decide as H; [|discriminate]. intros [= <-].
  rewrite Z2Nat.inj_add, <- drop_drop by lia. by rewrite take_drop.
Qed.

Lemma sub_Forall {A} (P : A -> Prop) l s off n :
  Forall P l -> sub l off n = Some s -> Forall P s.
Proof.
  unfold sub. case_decide; [|discriminate]. intros HP [= <-].
  by apply Forall_take, Forall_drop.
Qed.

Lemma sub_app_inv {A} (a b s : list A) n :
  sub (a ++ b) (zlen a) n = Some s -> exists rest, b = s ++ rest.
Proof.
  rewrite sub_skip, Z.sub_diag by lia. intros Hs%sub_drop.
  rewrite drop_0 in Hs. eauto.
Qed.

(** A list cut at two lengths. *)
Lemma split3 {A} (l : list A) a b c :
  0 <= a -> 0 <= b -> 0 <= c -> zlen l = a + b + c ->
  exists x y z, l = x ++ y ++ z /\ zlen x = a /\ zlen y = b /\ zlen z = c.
Proof.
  intros. exists (take (Z.to_nat a) l), (take (Z.to_nat b) (drop (Z.to_nat a) l)),
    (drop (Z.to_nat b) (drop (Z.to_nat a) l)).
  rewrite !take_drop. unfold zlen in *.
  rewrite !length_take, !length_drop. repeat split; lia.
Qed.

Lemma drop_nth {A} (l : list A) n d :
  (n < length l)%nat -> drop n l = nth n l d :: drop (S n) l.
Proof.
  revert n. induction l as [|x l IH]; intros [|n] H; simpl in *; try lia; [done|].
  apply IH. lia.
Qed.

(** A range inside a prefix does not see what follows the prefix. *)
Lemma sub_prefix {A} (a b : list A) off n :
  0 <= off -> 0 <= n -> off + n <= zlen a -> sub (a ++ b) off n = sub a off n.
Proof.
  intros. unfold sub. rewrite zlen_app, !decide_True by zlia. f_equal.
  rewrite drop_app_le by zlia. rewrite take_app_le; [done|].
  rewrite length_drop. zlia.
Qed.

Lemma patch_mid {A} (a b b' c : list A) off :
  off = zlen a -> length b = length b' -> patch (a ++ b ++ c) off b' = a ++ b' ++ c.
Proof.
  intros -> Hlen. unfold patch.
  rewrite take_app_le by zlia. rewrite take_ge by zlia.
  f_equal. f_equal. rewrite drop_app_ge by zlia.
  replace (_ + _ - _)%nat with (length b') by zlia.
  rewrite <- Hlen. by rewrite drop_app_length.
Qed.

(** ** Little-endian integers *)

(** [to_le_bytes] of an [n]-byte unsigned integer. *)
Fixpoint le_bytes (n : nat) (v : Z) : bytes :=
  match n with
  | O => []
  | S n => v mod 256 :: le_bytes n (v / 256)
  end.

(** [from_le_bytes]. *)
Fixpoint le_val (b : bytes) : Z :=
  match b with
  | [] => 0
  | x :: b => x + 256 * le_val b
  end.

Lemma le_bytes_length n v : length (le_bytes n v) = n.
Proof. revert v. induction n; intros; simpl; auto. Qed.

Lemma le_bytes_zlen n v : zlen (le_bytes n v) = Z.of_nat n.
Proof. unfold zlen. by rewrite le_bytes_length. Qed.

Lemma le_bytes_is_bytes n v : is_bytes (le_bytes n v).
Proof.
  revert v. induction n as [|n IH]; intros v; simpl; constructor; [|apply IH].
  pose proof (Z.mod_pos_bound v 256). unfold_ints. lia.
Qed.

(** Decoding what was encoded gives the integer back when it fits. *)
Lemma le_val_le_bytes n v : 0 <= v < 256 ^ Z.of_nat n -> le_val (le_bytes n v) = v.
Proof.
  revert v. induction n as [|n IH]; intros v Hv.
  - simpl in *. lia.
  - replace (Z.of_nat (S n)) with (Z.succ (Z.of_nat n)) in Hv by lia.
    rewrite Z.pow_succ_r in Hv by lia. cbn [le_bytes le_val].
    rewrite IH; [pose proof (Z.div_mod v 256); lia |].
    split; [apply Z.div_pos; lia |]. apply Z.div_lt_upper_bound; lia.
Qed.

Lemma le_val_le_bytes_u64 v : is_u64 v -> le_val (le_bytes 8 v) = v.
Proof. intros. apply le_val_le_bytes. zlia. Qed.

Lemma le_val_le_bytes_u32 v : is_u32 v -> le_val (le_bytes 4 v) = v.
Proof. intros. apply le_val_le_bytes. zlia. Qed.

Lemma le_val_range b : is_bytes b -> 0 <= le_val b < 256 ^ zlen b.
Proof.
  induction 1 as [|x b Hx Hb IH]; [by vm_compute|].
  rewrite zlen_cons, Z.pow_add_r by zlia. cbn [le_val].
  change (256 ^ 1) with 256. unfold_ints. lia.
Qed.

(** Encoding what was decoded gives the bytes back. *)
Lemma le_bytes_le_val b : is_bytes b -> le_bytes (length b) (le_val b) = b.
Proof.
  induction 1 as [|x b Hx Hb IH]; [done|]. cbn [length le_val le_bytes].
  rewrite (Z.mul_comm 256), Z.mod_add, Z.mod_small, Z.div_add, Z.div_small
    by (unfold_ints; lia).
  by rewrite Z.add_0_l, IH.
Qed.

Lemma le_bytes_le_val' n b : length b = n -> is_bytes b -> le_bytes n (le_val b) = b.
Proof. intros <-. apply le_bytes_le_val. Qed.

(** [locate_field] finds the field of a concatenation that a [sub] selects. *)
Create HintDb sizes discriminated.
#[export] Hint Rewrite @zlen_app le_bytes_zlen @zlen_cons @zlen_nil @zlen_replicate : sizes.

Ltac size_lia := autorewrite with sizes in *; zlia.
Ltac locate_field :=
  rewrite <- ?app_assoc;
  repeat first
    [ rewrite sub_here by size_lia
    | rewrite sub_skip by size_lia ].

(** Evaluates literal offsets. *)
Ltac eval_offsets :=
  repeat match goal with
  | H : context [Z.to_nat ?z] |- _ =>
      let n := eval vm_compute in (Z.to_nat z) in
      progress change (Z.to_nat z) with n in H
  | |- context [Z.to_nat ?z] =>
      let n := eval vm_compute in (Z.to_nat z) in
      progress change (Z.to_nat z) with n
  end.

(** ** The order on byte strings *)

(** [Ord for [u8]]: lexicographic, a proper prefix is smaller. *)
Fixpoint bytes_cmp (a b : bytes) : comparison :=
  match a, b with
  | [], [] => Eq
  | [], _ :: _ => Lt
  | _ :: _, [] => Gt
  | x :: a, y :: b => match x ?= y with Eq => bytes_cmp a b | c => c end
  end.

Definition bytes_ltb (a b : bytes) : bool :=
  match bytes_cmp a b with Lt => true | _ => false end.
Definition bytes_leb (a b : bytes) : bool :=
  match bytes_cmp a b with Gt => false | _ => true end.

Definition bytes_lt (a b : bytes) : Prop := bytes_cmp a b = Lt.
Definition bytes_le (a b : bytes) : Prop := bytes_cmp a b <> Gt.

Lemma bytes_cmp_refl a : bytes_cmp a a = Eq.
Proof. induction a; simpl; [done|]. by rewrite Z.compare_refl. Qed.

Lemma bytes_cmp_eq a b : bytes_cmp a b = Eq -> a = b.
Proof.
  revert b. induction a as [|x a IH]; intros [|y b]; simpl; try done.
  destruct (Z.compare_spec x y); try done. intros H1%IH. congruence.
Qed.

Lemma bytes_cmp_antisym a b : bytes_cmp b a = CompOpp (bytes_cmp a b).
Proof.
  revert b. induction a as [|x a IH]; intros [|y b]; simpl; try done.
  rewrite Z.compare_antisym. destruct (x ?= y); simpl; auto.
Qed.

Lemma bytes_lt_trans a b c : bytes_lt a b -> bytes_lt b c -> bytes_lt a c.
Proof.
  unfold bytes_lt. revert b c.
  induction a as [|x a IH]; intros [|y b] [|z c]; simpl; try done.
  destruct (Z.compare_spec x y), (Z.compare_spec y z); intros; try done;
    destruct (Z.compare_spec x z); try done; try lia; eauto.
Qed.

Lemma bytes_lt_irrefl a : ~ bytes_lt a a.
Proof. unfold bytes_lt. by rewrite bytes_cmp_refl. Qed.

#[export] Instance bytes_lt_strict : StrictOrder bytes_lt.
Proof. split; [exact bytes_lt_irrefl | exact bytes_lt_trans]. Qed.

Lemma bytes_le_lteq a b : bytes_le a b <-> bytes_lt a b \/ a = b.
Proof.
  unfold bytes_le, bytes_lt. destruct (bytes_cmp a b) eqn:E.
  - apply bytes_cmp_eq in E. naive_solver.
  - naive_solver.
  - split; [done|]. intros [?| ->]; [done|]. by rewrite bytes_cmp_refl in E.
Qed.

Lemma bytes_not_lt a b : ~ bytes_lt a b <-> bytes_le b a.
Proof.
  unfold bytes_lt, bytes_le. rewrite (bytes_cmp_antisym a b).
  destruct (bytes_cmp a b); simpl; naive_solver.
Qed.

Lemma bytes_lt_total a b : bytes_lt a b \/ a = b \/ bytes_lt b a.
Proof.
  unfold bytes_lt. rewrite (bytes_cmp_antisym a b).
  destruct (bytes_cmp a b) eqn:E; simpl; auto using bytes_cmp_eq.
Qed.

#[export] Instance bytes_le_trans : Transitive bytes_le.
Proof.
  intros a b c. rewrite !bytes_le_lteq.
  intros [?| ->] [?| ->]; eauto using bytes_lt_trans.
Qed.

#[export] Instance bytes_le_total : Total bytes_le.
Proof.
  intros a b. rewrite !bytes_le_lteq.
  destruct (bytes_lt_total a b) as [|[|]]; auto.
Qed.

#[export] Instance bytes_lt_dec a b : Decision (bytes_lt a b).
Proof. unfold bytes_lt. apply _. Defined.

#[export] Instance bytes_le_dec a b : Decision (bytes_le a b).
Proof. unfold bytes_le. apply _. Defined.

Lemma bytes_ltb_spec a b : bytes_ltb a b = true <-> bytes_lt a b.
Proof. unfold bytes_ltb, bytes_lt. destruct (bytes_cmp a b); naive_solver. Qed.

(** ** Ordered maps

    A [BTreeMap<Bytes, V>] is a [gmap] whose iteration, [btree_iter], is in key
    order; a range that excludes its start is [btree_after]. *)

Definition key_le {V} (x y : bytes * V) : Prop := bytes_le x.1 y.1.
Definition key_lt {V} (x y : bytes * V) : Prop := bytes_lt x.1 y.1.

#[export] Instance key_le_dec {V} (x y : bytes * V) : Decision (key_le x y).
Proof. unfold key_le. apply _. Defined.

#[export] Instance key_le_trans {V} : Transitive (@key_le V).
Proof. intros x y z. apply bytes_le_trans. Qed.

#[export] Instance key_le_total {V} : Total (@key_le V).
Proof. intros x y. apply bytes_le_total. Qed.

Definition btree_iter {V} (m : gmap bytes V) : list (bytes * V) :=
  merge_sort key_le (map_to_list m).

Definition btree_after {V} (start : option bytes) (m : gmap bytes V) : list (bytes * V) :=
  match start with
  | None => btree_iter m
  | Some k => filter (fun e => bytes_lt k e.1) (btree_iter m)
  end.

Lemma btree_iter_elem {V} (m : gmap bytes V) k v :
  (k, v) ∈ btree_iter m <-> m !! k = Some v.
Proof.
  unfold btree_iter. rewrite (merge_sort_Permutation key_le).
  apply elem_of_map_to_list.
Qed.

Lemma btree_iter_NoDup {V} (m : gmap bytes V) : NoDup (btree_iter m).*1.
Proof.
  unfold btree_iter. rewrite (merge_sort_Permutation key_le).
  apply NoDup_fst_map_to_list.
Qed.

Lemma StronglySorted_key_lt {V} (l : list (bytes * V)) :
  NoDup l.*1 -> StronglySorted key_le l -> StronglySorted key_lt l.
Proof.
  intros Hnd Hs. induction Hs as [|x l Hs IH Hx]; [constructor|].
  apply NoDup_cons in Hnd as [Hni Hnd]. constructor; [auto|].
  apply Forall_forall. intros y Hy. eapply Forall_forall in Hx; [|done].
  unfold key_le in Hx. apply bytes_le_lteq in Hx as [|Heq]; [done|].
  destruct Hni. rewrite Heq. by apply list_elem_of_fmap_2.
Qed.

(** Iteration visits the keys in strictly increasing order. *)
Lemma NoDup_filter_fst {A B} (P : A * B -> Prop) `{!forall x, Decision (P x)} (l : list (A * B)) :
  NoDup l.*1 -> NoDup (filter P l).*1.
Proof.
  intros Hl. eapply sublist_NoDup; [exact Hl|]. clear Hl.
  induction (sublist_filter P l); csimpl; by constructor.
Qed.

Lemma btree_iter_sorted {V} (m : gmap bytes V) : StronglySorted key_lt (btree_iter m).
Proof.
  apply StronglySorted_key_lt; [apply btree_iter_NoDup|].
  apply (StronglySorted_merge_sort key_le).
Qed.

Lemma btree_iter_length {V} (m : gmap bytes V) : length (btree_iter m) = size m.
Proof.
  unfold btree_iter. rewrite (merge_sort_Permutation key_le).
  apply length_map_to_list.
Qed.

Lemma btree_after_elem {V} (start : option bytes) (m : gmap bytes V) k v :
  (k, v) ∈ btree_after start m <->
  m !! k = Some v /\ (forall s, start = Some s -> bytes_lt s k).
Proof.
  destruct start as [s|]; simpl.
  - rewrite list_elem_of_filter, btree_iter_elem. naive_solver.
  - rewrite btree_iter_elem. naive_solver.
Qed.

Lemma StronglySorted_filter' {A} (R : relation A) (P : A -> Prop)
    `{!forall x, Decision (P x)} l :
  StronglySorted R l -> StronglySorted R (filter P l).
Proof.
  induction 1 as [|x l Hs IH Hx]; [constructor|].
  rewrite filter_cons. case_decide; [|done]. constructor; [done|].
  apply Forall_forall. intros y [_ Hy]%list_elem_of_filter.
  by eapply Forall_forall in Hx.
Qed.

Lemma btree_after_sorted {V} (start : option bytes) (m : gmap bytes V) :
  StronglySorted key_lt (btree_after start m).
Proof.
  destruct start; simpl; [apply StronglySorted_filter'|]; apply btree_iter_sorted.
Qed.

Lemma NoDup_fst_filter {K V : Type} (P : K * V -> Prop) `{!forall x, Decision (P x)}
    (l : list (K * V)) :
  NoDup l.*1 -> NoDup (filter P l).*1.
Proof.
  induction l as [|x l IH]; csimpl; [done|]. intros [Hx Hnd]%NoDup_cons.
  rewrite filter_cons. case_decide; csimpl; [|by apply IH].
  constructor; [|by apply IH].
  intros (y & Hy & [_ Hin]%list_elem_of_filter)%list_elem_of_fmap.
  apply Hx, list_elem_of_fmap. eauto.
Qed.

Lemma StronglySorted_lt_NoDup (l : list Z) : StronglySorted Z.lt l -> NoDup l.
Proof.
  induction 1 as [|i ids Hs IH Hf]; constructor; [|done].
  rewrite Forall_forall in Hf. intros Hi. specialize (Hf i Hi). lia.
Qed.

(** ** Sorting by a key *)

(** The order of [sort_by_key]; [merge_sort] is stable as that function is. *)
Definition by_key {A} (f : A -> Z) (x y : A) : Prop := f x <= f y.
#[export] Instance by_key_dec {A} (f : A -> Z) x y : Decision (by_key f x y).
Proof. unfold by_key. apply _. Defined.
#[export] Instance by_key_total {A} (f : A -> Z) : Total (by_key f).
Proof. intros x y. unfold by_key. lia. Qed.
#[export] Instance by_key_trans {A} (f : A -> Z) : Transitive (by_key f).
Proof. intros x y z. unfold by_key. lia. Qed.

Lemma StronglySorted_fmap_inj {A} (f : A -> Z) (l : list A) x y :
  StronglySorted Z.lt (f <$> l) -> x ∈ l -> y ∈ l -> f x = f y -> x = y.
Proof.
  induction l as [|z l IH]; csimpl; intros Hs Hx Hy Hf; [by apply not_elem_of_nil in Hx|].
  apply StronglySorted_inv in Hs as [Hs Hz]. rewrite Forall_forall in Hz.
  apply elem_of_cons in Hx as [->|Hx], Hy as [->|Hy]; [done|..|by apply IH].
  - specialize (Hz (f y) (list_elem_of_fmap_2 _ _ _ Hy)). lia.
  - specialize (Hz (f x) (list_elem_of_fmap_2 _ _ _ Hx)). lia.
Qed.

(** Sorting gives the order of distinct keys. *)
Lemma merge_sort_by_key {A} (f : A -> Z) (l l' : list A) :
  StronglySorted Z.lt (f <$> l) -> l' ≡ₚ l -> merge_sort (by_key f) l' = l.
Proof.
  intros Hs Hp. apply (StronglySorted_unique_strong (by_key f)).
  - intros x y Hx Hy Hle Hge. rewrite merge_sort_Permutation, Hp in Hx.
    eapply StronglySorted_fmap_inj; [exact Hs|done..|]. unfold by_key in *. lia.
  - apply (StronglySorted_merge_sort (by_key f)).
  - clear Hp. induction l as [|x l IH]; [constructor|]. apply StronglySorted_inv in Hs as [Hs Hf].
    constructor; [by apply IH|]. apply Forall_forall. intros y Hy. rewrite Forall_forall in Hf.
    specialize (Hf (f y) (list_elem_of_fmap_2 _ _ _ Hy)). unfold by_key. lia.
  - by rewrite merge_sort_Permutation.
Qed.
