(* ===== verification/Record.v ===== *)
(** * The record codec, [crates/engine/src/log/record.rs]

    Every write of the engine is one record: a 37-byte header followed by the
    key, the value and the metadata.  [encode_into] fills the header in place,
    as the source does, [parse_header] and [verify_crc] read it back.  The CRC
    itself is computed by the crate [crc_fast] and is the interface [CrcFast]. *)

From stdpp Require Import base tactics list sorting strings.
From Stdlib Require Import ZArith Lia.
From S2P Require Import Prelude.

Open Scope Z_scope.

(** What the engine uses of the crate [crc_fast]: the one-shot [checksum] and
    the streaming [Digest].  The laws are the crate's documentation: the
    checksum is a [u64], and feeding chunks to a digest checksums their
    concatenation. *)
Class CrcFast := {
  checksum : bytes -> Z;
  Digest : Type;
  digest_new : Digest;
  digest_update : Digest -> bytes -> Digest;
  digest_finalize : Digest -> Z;
  checksum_u64 : forall b, is_u64 (checksum b);
  digest_checksum : forall a b,
    digest_finalize (digest_update (digest_update digest_new a) b) = checksum (a ++ b);
}.

Module flags.
Definition TOMBSTONE : Z := 1.
Definition NO_EXPIRY : Z := 2.
Definition TTL_UPDATE : Z := 4.
Definition VALUE_SEP : Z := 8.
End flags.

(** [header.flags & f != 0]. *)
Definition has_flag (fl f : Z) : bool := negb (Z.land fl f =? 0).

Definition HEADER_LEN : Z := 37.

Record RecordHeader := mkRecordHeader {
  crc : Z;
  tstamp_ms : Z;
  rflags : Z;
  expires_at_ms : Z;
  key_size : Z;
  val_size : Z;
  meta_size : Z;
}.

Definition body_len (h : RecordHeader) : Z := key_size h + val_size h + meta_size h.
Definition record_len (h : RecordHeader) : Z := HEADER_LEN + body_len h.

Definition u64_le (buf : bytes) (off at_ : Z) : eresult Z :=
  ok_or (le_val <$> sub buf off 8) (BadRecord at_ "truncated u64 field").

Definition u32_le (buf : bytes) (off at_ : Z) : eresult Z :=
  ok_or (le_val <$> sub buf off 4) (BadRecord at_ "truncated u32 field").

Definition parse_header (buf : bytes) (offset : Z) : eresult RecordHeader :=
  if decide (zlen buf < HEADER_LEN) then Err (BadRecord offset "short header") else
  crc ← u64_le buf 0 offset;
  tstamp_ms ← u64_le buf 8 offset;
  let fl := nth 16 buf 0 in
  expires_at_ms ← u64_le buf 17 offset;
  key_size ← u32_le buf 25 offset;
  val_size ← u32_le buf 29 offset;
  meta_size ← u32_le buf 33 offset;
  Ok (mkRecordHeader crc tstamp_ms fl expires_at_ms key_size val_size meta_size).

Section Codec.
Context {crc_impl : CrcFast}.

Definition verify_crc (header : RecordHeader) (header_bytes body : bytes) (offset : Z)
    : eresult unit :=
  let digest := digest_update digest_new (drop 8 header_bytes) in
  let digest := digest_update digest body in
  let actual := digest_finalize digest in
  if decide (actual <> crc header) then Err (CrcMismatch offset) else Ok tt.

(** The buffer is the state: the result is the buffer after the call, and an
    error leaves it as it was. *)
Definition encode_into (buf : bytes) (tstamp_ms fl expires_at_ms : Z)
    (key value metadata : bytes) : eresult bytes :=
  _ ← ok_or
        (n ← checked_add_u64 HEADER_LEN (zlen key);
         n ← checked_add_u64 n (zlen value);
         n ← checked_add_u64 n (zlen metadata);
         if decide (n <= u32_max) then Some n else None)
        (BadRecord 0 "record exceeds 4 GiB limit");
  let key_size := zlen key mod 2 ^ 32 in
  let val_size := zlen value mod 2 ^ 32 in
  let meta_size := zlen metadata mod 2 ^ 32 in
  let start := zlen buf in
  let buf := buf ++ replicate 37 0 in
  let buf := patch buf (start + 8) (le_bytes 8 tstamp_ms) in
  let buf := patch buf (start + 16) [fl] in
  let buf := patch buf (start + 17) (le_bytes 8 expires_at_ms) in
  let buf := patch buf (start + 25) (le_bytes 4 key_size) in
  let buf := patch buf (start + 29) (le_bytes 4 val_size) in
  let buf := patch buf (start + 33) (le_bytes 4 meta_size) in
  let buf := buf ++ key in
  let buf := buf ++ value in
  let buf := buf ++ metadata in
  let crc := checksum (drop (Z.to_nat (start + 8)) buf) in
  Ok (patch buf start (le_bytes 8 crc)).

Definition encode (tstamp_ms fl expires_at_ms : Z) (key value metadata : bytes)
    : eresult bytes :=
  encode_into [] tstamp_ms fl expires_at_ms key value metadata.

(** ** The layout of an encoded record *)

(** The bytes the CRC covers. *)
Definition record_tail (ts fl exp : Z) (key value meta : bytes) : bytes :=
  le_bytes 8 ts ++ [fl] ++ le_bytes 8 exp ++
  le_bytes 4 (zlen key) ++ le_bytes 4 (zlen value) ++ le_bytes 4 (zlen meta) ++
  key ++ value ++ meta.

Definition record_bytes (ts fl exp : Z) (key value meta : bytes) : bytes :=
  let tail := record_tail ts fl exp key value meta in
  le_bytes 8 (checksum tail) ++ tail.

(** The header a reader finds at the front of such a record. *)
Definition record_header (ts fl exp : Z) (key value meta : bytes) : RecordHeader :=
  mkRecordHeader (checksum (record_tail ts fl exp key value meta)) ts fl exp
    (zlen key) (zlen value) (zlen meta).

Definition fits (key value meta : bytes) : Prop :=
  HEADER_LEN + zlen key + zlen value + zlen meta <= u32_max.

#[global] Instance fits_dec key value meta : Decision (fits key value meta).
Proof. unfold fits. apply _. Defined.

Lemma record_bytes_length ts fl exp key value meta :
  zlen (record_bytes ts fl exp key value meta)
  = HEADER_LEN + zlen key + zlen value + zlen meta.
Proof.
  unfold record_bytes, record_tail.
  rewrite !zlen_app, !le_bytes_zlen, zlen_cons, zlen_nil. unfold HEADER_LEN. lia.
Qed.

(** Writing inside the tail of a buffer leaves the front alone. *)
Lemma patch_app {A} (a h bs : list A) k :
  0 <= k -> patch (a ++ h) (zlen a + k) bs = a ++ patch h k bs.
Proof.
  intros. unfold patch.
  replace (Z.to_nat (zlen a + k)) with (length a + Z.to_nat k)%nat by zlia.
  rewrite take_app_add, <- app_assoc, <- Nat.add_assoc, drop_app_add. done.
Qed.

(** The size check of [encode_into] succeeds exactly on records that fit. *)
Lemma size_check key value meta :
  (n ← checked_add_u64 HEADER_LEN (zlen key);
   n ← checked_add_u64 n (zlen value);
   n ← checked_add_u64 n (zlen meta);
   if decide (n <= u32_max) then Some n else None) =
  if decide (fits key value meta)
  then Some (HEADER_LEN + zlen key + zlen value + zlen meta) else None.
Proof.
  pose proof (zlen_nonneg key). pose proof (zlen_nonneg value).
  pose proof (zlen_nonneg meta). unfold checked_add_u64, fits, HEADER_LEN.
  repeat (case_decide; cbn); try done; unfold_ints; lia.
Qed.

(** The six writes into the zeroed header. *)
Lemma header_patches ts fl exp k v m :
  patch (patch (patch (patch (patch (patch (replicate 37 0)
    8 (le_bytes 8 ts)) 16 [fl]) 17 (le_bytes 8 exp)) 25 (le_bytes 4 k))
    29 (le_bytes 4 v)) 33 (le_bytes 4 m)
  = replicate 8 0 ++ le_bytes 8 ts ++ [fl] ++ le_bytes 8 exp ++
    le_bytes 4 k ++ le_bytes 4 v ++ le_bytes 4 m.
Proof. reflexivity. Qed.

(** The in-place construction builds the record of the layout after the
    bytes that were there, or reports that it does not fit. *)
Lemma encode_into_eq buf ts fl exp key value meta :
  encode_into buf ts fl exp key value meta =
  if decide (fits key value meta) then Ok (buf ++ record_bytes ts fl exp key value meta)
  else Err (BadRecord 0 "record exceeds 4 GiB limit").
Proof.
  unfold encode_into. rewrite size_check.
  case_decide as Hfit; cbn [ok_or mbind result_bind]; [|done]. f_equal.
  rewrite !Z.mod_small by (unfold fits, HEADER_LEN in Hfit; zlia).
  rewrite !patch_app by lia. rewrite header_patches.
  rewrite <- !app_assoc.
  rewrite <- (Z.add_0_r (zlen buf)) at 1. rewrite patch_app by lia.
  replace (Z.to_nat (zlen buf + 8)) with (length buf + 8)%nat by zlia.
  rewrite drop_app_add. done.
Qed.

(** ** Parsing what was encoded *)

Lemma parse_header_record ts fl exp key value meta rest offset :
  is_u64 ts -> is_u64 exp -> fits key value meta ->
  parse_header (record_bytes ts fl exp key value meta ++ rest) offset
  = Ok (record_header ts fl exp key value meta).
Proof.
  intros Hts Hexp Hfit. unfold parse_header.
  rewrite decide_False by
    (rewrite zlen_app, record_bytes_length; unfold HEADER_LEN; zlia).
  unfold u64_le, u32_le, record_bytes, record_tail.
  locate_field. cbn [fmap option_fmap option_map ok_or mbind result_bind].
  unfold fits, HEADER_LEN in Hfit.
  rewrite !le_val_le_bytes_u64, !le_val_le_bytes_u32 by (apply checksum_u64 || zlia).
  done.
Qed.

Lemma record_header_len ts fl exp key value meta :
  record_len (record_header ts fl exp key value meta)
  = zlen (record_bytes ts fl exp key value meta).
Proof. rewrite record_bytes_length. unfold record_len, body_len. simpl. lia. Qed.

(** The header bytes and the body of an encoded record. *)
Lemma record_bytes_split ts fl exp key value meta :
  exists hd, record_bytes ts fl exp key value meta = hd ++ key ++ value ++ meta /\
    zlen hd = HEADER_LEN /\
    drop 8 hd ++ key ++ value ++ meta = record_tail ts fl exp key value meta.
Proof.
  set (t := record_tail ts fl exp key value meta).
  exists (le_bytes 8 (checksum t) ++ le_bytes 8 ts ++ [fl] ++ le_bytes 8 exp ++
    le_bytes 4 (zlen key) ++ le_bytes 4 (zlen value) ++ le_bytes 4 (zlen meta)).
  by repeat split.
Qed.

Lemma verify_crc_record ts fl exp key value meta hd offset :
  record_bytes ts fl exp key value meta = hd ++ key ++ value ++ meta ->
  zlen hd = HEADER_LEN ->
  verify_crc (record_header ts fl exp key value meta) hd (key ++ value ++ meta) offset
  = Ok tt.
Proof.
  intros Heq Hhd.
  destruct (record_bytes_split ts fl exp key value meta) as (hd' & Heq' & Hhd' & Ht).
  rewrite Heq in Heq'. apply app_inj_1 in Heq' as [-> _]; [|unfold zlen in *; lia].
  unfold verify_crc. rewrite digest_checksum, Ht. simpl. by rewrite decide_False by auto.
Qed.

(** ** What the parser accepts *)

(** The parser looks at the first 37 bytes only. *)
Lemma parse_header_prefix hd a b offset :
  HEADER_LEN <= zlen hd -> parse_header (hd ++ a) offset = parse_header (hd ++ b) offset.
Proof.
  intros Hhd. unfold parse_header, u64_le, u32_le. unfold HEADER_LEN in *.
  rewrite !decide_False by (rewrite zlen_app; zlia).
  rewrite !(sub_prefix hd) by lia. rewrite !app_nth1 by zlia. done.
Qed.

(** The header is readable exactly when there are 37 bytes. *)
Lemma parse_header_total buf offset :
  HEADER_LEN <= zlen buf ->
  exists h, parse_header buf offset = Ok h.
Proof.
  intros Hlen. unfold parse_header. rewrite decide_False by lia.
  unfold HEADER_LEN in Hlen. unfold u64_le, u32_le.
  repeat match goal with
  | |- context [sub buf ?o ?n] =>
      let Hs := fresh in
      destruct (sub_is_Some buf o n) as [? Hs]; [lia..|];
      rewrite Hs; clear Hs; cbn [fmap option_fmap option_map ok_or mbind result_bind]
  end. eauto.
Qed.

(** A field that was read is the next bytes of the buffer. *)
Lemma u64_le_inv buf off at_ v :
  is_bytes buf -> u64_le buf off at_ = Ok v ->
  drop (Z.to_nat off) buf = le_bytes 8 v ++ drop (Z.to_nat (off + 8)) buf.
Proof.
  unfold u64_le. destruct (sub buf off 8) as [s|] eqn:Hs; [|discriminate].
  intros Hb [= <-]. rewrite le_bytes_le_val'; [by apply sub_drop| |].
  - apply sub_length in Hs. zlia.
  - by eapply sub_Forall.
Qed.

Lemma u32_le_inv buf off at_ v :
  is_bytes buf -> u32_le buf off at_ = Ok v ->
  drop (Z.to_nat off) buf = le_bytes 4 v ++ drop (Z.to_nat (off + 4)) buf.
Proof.
  unfold u32_le. destruct (sub buf off 4) as [s|] eqn:Hs; [|discriminate].
  intros Hb [= <-]. rewrite le_bytes_le_val'; [by apply sub_drop| |].
  - apply sub_length in Hs. zlia.
  - by eapply sub_Forall.
Qed.

Lemma u64_le_range buf off at_ v : is_bytes buf -> u64_le buf off at_ = Ok v -> is_u64 v.
Proof.
  unfold u64_le. destruct (sub buf off 8) as [s|] eqn:Hs; [|discriminate].
  intros Hb [= <-]. pose proof (le_val_range s (sub_Forall _ _ _ _ _ Hb Hs)) as Hr.
  rewrite (sub_length _ _ _ _ Hs) in Hr. zlia.
Qed.

Lemma u32_le_range buf off at_ v : is_bytes buf -> u32_le buf off at_ = Ok v -> is_u32 v.
Proof.
  unfold u32_le. destruct (sub buf off 4) as [s|] eqn:Hs; [|discriminate].
  intros Hb [= <-]. pose proof (le_val_range s (sub_Forall _ _ _ _ _ Hb Hs)) as Hr.
  rewrite (sub_length _ _ _ _ Hs) in Hr. zlia.
Qed.

Lemma header_ranges buf offset h :
  is_bytes buf -> parse_header buf offset = Ok h ->
  is_u64 (crc h) /\ is_u64 (tstamp_ms h) /\ is_u64 (expires_at_ms h) /\
  is_u32 (key_size h) /\ is_u32 (val_size h) /\ is_u32 (meta_size h).
Proof.
  intros Hb. unfold parse_header. case_decide; [discriminate|].
  intros Hp. inv_binds. simpl.
  split_and!; by eauto using u64_le_range, u32_le_range.
Qed.

(** The seven fields of the 37-byte prefix of a buffer. *)
Lemma header_fields buf offset h :
  is_bytes buf -> parse_header buf offset = Ok h ->
  exists rest, buf = le_bytes 8 (crc h) ++ le_bytes 8 (tstamp_ms h) ++ [rflags h] ++
    le_bytes 8 (expires_at_ms h) ++ le_bytes 4 (key_size h) ++
    le_bytes 4 (val_size h) ++ le_bytes 4 (meta_size h) ++ rest.
Proof.
  intros Hb. unfold parse_header. case_decide as Hlen; [discriminate|].
  intros H. unfold HEADER_LEN in Hlen. inv_binds. simpl.
  exists (drop 37 buf).
  repeat match goal with
  | Hf : u64_le buf _ _ = Ok _ |- _ => apply u64_le_inv in Hf; [|done]
  | Hf : u32_le buf _ _ = Ok _ |- _ => apply u32_le_inv in Hf; [|done]
  end.
  pose proof (drop_nth buf 16 0) as H16. eval_offsets.
  rewrite <- (drop_0 buf) at 1.
  rewrite Ha, Ha0, H16, Ha1, Ha2, Ha3, Ha4 by zlia. by rewrite <- ?app_assoc.
Qed.

(** ** The codec's contract *)

(** C35: Encoding appends one record to the buffer, and a reader that finds the
    record at the front of any bytes gets everything back: the header parses to
    the timestamp, flags and expiry that were written, its length is the length
    of the record, the three slices of the body are the key, the value and the
    metadata, and the CRC verifies. *)
Theorem record_roundtrip buf ts fl exp key value meta buf' rest offset :
  is_u64 ts -> is_u64 exp ->
  encode_into buf ts fl exp key value meta = Ok buf' ->
  exists rec h,
    buf' = buf ++ rec /\ parse_header (rec ++ rest) offset = Ok h /\
    record_len h = zlen rec /\
    tstamp_ms h = ts /\ rflags h = fl /\ expires_at_ms h = exp /\
    sub rec HEADER_LEN (key_size h) = Some key /\
    sub rec (HEADER_LEN + key_size h) (val_size h) = Some value /\
    sub rec (HEADER_LEN + key_size h + val_size h) (meta_size h) = Some meta /\
    verify_crc h (take 37 rec) (drop 37 rec) offset = Ok tt.
Proof.
  rewrite encode_into_eq. case_decide as Hfit; [|discriminate]. intros Hts Hexp [= <-].
  destruct (record_bytes_split ts fl exp key value meta) as (hd & Heq & Hhd & _).
  exists (record_bytes ts fl exp key value meta), (record_header ts fl exp key value meta).
  split; [done|]. split; [by apply parse_header_record|].
  split; [apply record_header_len|]. do 3 (split; [done|]).
  pose proof (verify_crc_record _ _ _ _ _ _ hd offset Heq Hhd) as Hcrc.
  assert (length hd = 37%nat) as Hhd' by (unfold zlen, HEADER_LEN in Hhd; lia).
  rewrite Heq, take_app_length', drop_app_length' by done. simpl.
  repeat split; [apply sub_mid; lia | | | done].
  - by rewrite sub_skip, (sub_skip key), sub_here by zlia.
  - rewrite sub_skip, (sub_skip key), (sub_skip value), sub_all by zlia. done.
Qed.

(** A record is written exactly when its length fits in a [u32], the width
    of the index's size field; otherwise the error is returned and nothing is
    written, so the 32-bit size fields of the header never wrap. *)
Theorem encode_fits ts fl exp key value meta :
  encode ts fl exp key value meta =
  if decide (HEADER_LEN + zlen key + zlen value + zlen meta <= u32_max)
  then Ok (record_bytes ts fl exp key value meta)
  else Err (BadRecord 0 "record exceeds 4 GiB limit").
Proof.
  unfold encode. rewrite encode_into_eq. unfold fits. by repeat case_decide.
Qed.

(** What the reader accepts is what the writer writes: if a header parses
    and its CRC verifies against the body that follows it, the bytes of the
    record are the encoding of the fields that were read. *)
Theorem accepted_is_encoded buf offset h body :
  is_bytes buf -> parse_header buf offset = Ok h ->
  sub buf HEADER_LEN (body_len h) = Some body ->
  verify_crc h (take 37 buf) body offset = Ok tt ->
  exists key value meta,
    body = key ++ value ++ meta /\
    zlen key = key_size h /\ zlen value = val_size h /\ zlen meta = meta_size h /\
    take (Z.to_nat (record_len h)) buf
    = record_bytes (tstamp_ms h) (rflags h) (expires_at_ms h) key value meta.
Proof.
  intros Hb Hp Hbody Hcrc. destruct (header_fields _ _ _ Hb Hp) as [rest Hbuf].
  destruct (header_ranges _ _ _ Hb Hp) as (_ & _ & _ & Hk & Hv & Hm).
  pose proof (sub_length _ _ _ _ Hbody) as Hlen.
  destruct (split3 body (key_size h) (val_size h) (meta_size h))
    as (key & value & meta & -> & Hk' & Hv' & Hm'); [unfold body_len in *; zlia..|].
  exists key, value, meta. do 4 (split; [done|]).
  set (fields := le_bytes 8 (tstamp_ms h) ++ [rflags h] ++ le_bytes 8 (expires_at_ms h) ++
    le_bytes 4 (key_size h) ++ le_bytes 4 (val_size h) ++ le_bytes 4 (meta_size h)).
  assert (buf = (le_bytes 8 (crc h) ++ fields) ++ rest) as ->
    by (rewrite Hbuf; unfold fields; by rewrite <- !app_assoc).
  change HEADER_LEN with (zlen (le_bytes 8 (crc h) ++ fields)) in Hbody.
  apply sub_app_inv in Hbody as [rest' ->].
  assert (fields ++ key ++ value ++ meta =
    record_tail (tstamp_ms h) (rflags h) (expires_at_ms h) key value meta) as Htail
    by (unfold fields, record_tail; rewrite <- !app_assoc; by rewrite Hk', Hv', Hm').
  rewrite take_app_length' in Hcrc by done. unfold verify_crc in Hcrc.
  rewrite digest_checksum, drop_app_length', Htail in Hcrc by done.
  case_decide as Hc; [discriminate|].
  unfold record_bytes. rewrite Hc, <- Htail, !app_assoc.
  apply take_app_length'. unfold zlen, record_len, body_len, HEADER_LEN in *.
  rewrite !length_app in *. rewrite le_bytes_length. change (length fields) with 29%nat. lia.
Qed.
End Codec.

(** ** A concrete CRC *)

(** CRC-64/NVME bit by bit, the algorithm [CRC_ALG] selects: the instance the
    examples compute with. *)
Module Crc64.
Definition POLY : Z := 0x9a6c9329ac4bc9b5.
Definition step_bit (c : Z) : Z :=
  if Z.odd c then Z.lxor (Z.shiftr c 1) POLY else Z.shiftr c 1.
Definition step_byte (c b : Z) : Z := Nat.iter 8 step_bit (Z.lxor c b).
Definition update (c : Z) (b : bytes) : Z := foldl step_byte c b.
Definition finalize (c : Z) : Z := Z.land (Z.lxor c u64_max) (Z.ones 64).

#[export, refine] Instance crc64_nvme : CrcFast := {|
  checksum b := finalize (update u64_max b);
  Digest := Z;
  digest_new := u64_max;
  digest_update := update;
  digest_finalize := finalize;
|}.
Proof.
  - intros b. unfold finalize. rewrite Z.land_ones by lia.
    pose proof (Z.mod_pos_bound (Z.lxor (update u64_max b) u64_max) (2 ^ 64)). zlia.
  - intros a b. unfold update. by rewrite foldl_app.
Defined.

(** The catalogue's check value, the CRC of the digits 1 to 9. *)
Example crc64_check :
  checksum [49; 50; 51; 52; 53; 54; 55; 56; 57] = 0xae8b14860a799888.
Proof. vm_compute. reflexivity. Qed.
End Crc64.
Export Crc64.

(** ** Witnesses *)

Definition ex_record : bytes :=
  match encode 5 flags.NO_EXPIRY 0 [107] [118; 119] [] with Ok b => b | Err _ => [] end.

Lemma record_roundtrip_witness :
  exists rec h,
    [1; 2] ++ ex_record = [1; 2] ++ rec /\ parse_header (rec ++ [9]) 2 = Ok h /\
    record_len h = zlen rec /\
    tstamp_ms h = 5 /\ rflags h = flags.NO_EXPIRY /\ expires_at_ms h = 0 /\
    sub rec HEADER_LEN (key_size h) = Some [107] /\
    sub rec (HEADER_LEN + key_size h) (val_size h) = Some [118; 119] /\
    sub rec (HEADER_LEN + key_size h + val_size h) (meta_size h) = Some [] /\
    verify_crc h (take 37 rec) (drop 37 rec) 2 = Ok tt.
Proof.
  apply (record_roundtrip [1; 2] 5 flags.NO_EXPIRY 0 [107] [118; 119] []
    ([1; 2] ++ ex_record) [9] 2); by vm_compute.
Defined.

Lemma accepted_is_encoded_witness :
  exists key value meta,
    [107; 118; 119] = key ++ value ++ meta /\
    zlen key = 1 /\ zlen value = 2 /\ zlen meta = 0 /\
    take 40 (ex_record ++ [7; 7]) = record_bytes 5 flags.NO_EXPIRY 0 key value meta.
Proof.
  apply (accepted_is_encoded (ex_record ++ [7; 7]) 0
    (record_header 5 flags.NO_EXPIRY 0 [107] [118; 119] []) [107; 118; 119]);
    [by repeat constructor; vm_compute | by vm_compute ..].
Defined.
