(* ===== verification/Index.v ===== *)
(** * The in-memory index, [crates/engine/src/log/index.rs]

    [NsIndex] keeps an ordered map from keys to record positions with two
    sidecars, the expiry times and the content hashes of separated values.  The
    file models every operation, relates the three maps to one abstract map
    ([view]) and proves that a paged [scan] is complete and free of duplicates
    even when the index changes between the pages. *)

From stdpp Require Import base tactics list gmap sorting.
From Stdlib Require Import ZArith Lia.
From S2P Require Import Prelude.

Open Scope Z_scope.

(** [value_store::ContentHash], sixteen bytes. *)
Notation ContentHash := (list Z) (only parsing).

Record IndexEntry := mkIndexEntry {
  record_offset : Z;
  record_size : Z;
  file_id : Z;
  ie_tstamp_ms : Z;
}.

#[export] Instance IndexEntry_eq_dec : EqDecision IndexEntry.
Proof. solve_decision. Defined.

Definition IndexEntry_new (file_id record_offset record_size tstamp_ms : Z) : IndexEntry :=
  mkIndexEntry record_offset record_size file_id tstamp_ms.

Module NsIndex.
Record t := mk {
  map : gmap bytes IndexEntry;
  ttl : gmap bytes Z;
  valsep : gmap bytes ContentHash;
  live_count : Z;
}.

Definition new : t := mk ∅ ∅ ∅ 0.

Definition get_valsep (self : t) (key : bytes) : option ContentHash := valsep self !! key.

(** [Some] inserts into the sidecar, [None] removes. *)
Definition set_sidecar {V} (m : gmap bytes V) (key : bytes) (o : option V) : gmap bytes V :=
  match o with Some v => <[key := v]> m | None => delete key m end.

Definition set_valsep (self : t) (key : bytes) (hash : option ContentHash) : t :=
  mk (map self) (ttl self) (set_sidecar (valsep self) key hash) (live_count self).

Definition valsep_iter (self : t) : list (bytes * ContentHash) := map_to_list (valsep self).

Definition len (self : t) : nat := size (map self).
Definition is_empty (self : t) : bool := bool_decide (map self = ∅).
Definition get (self : t) (key : bytes) : option IndexEntry := map self !! key.
Definition get_ttl (self : t) (key : bytes) : option Z := ttl self !! key.

Definition insert (self : t) (key : bytes) (entry : IndexEntry) (expires_at_ms : option Z) : t :=
  mk (<[key := entry]> (map self))
     (set_sidecar (ttl self) key expires_at_ms)
     (valsep self)
     (match map self !! key with None => live_count self + 1 | Some _ => live_count self end).

Definition set_ttl (self : t) (key : bytes) (expires_at_ms : option Z) : t :=
  mk (map self) (set_sidecar (ttl self) key expires_at_ms) (valsep self) (live_count self).

Definition remove (self : t) (key : bytes) : option IndexEntry * t :=
  let removed := map self !! key in
  (removed,
   mk (delete key (map self)) (delete key (ttl self)) (delete key (valsep self))
      (match removed with Some _ => sat_sub (live_count self) 1 | None => live_count self end)).

Definition clear (self : t) : t := mk ∅ ∅ ∅ 0.
Definition live_len (self : t) : Z := live_count self.

Definition is_expired (self : t) (key : bytes) (now_ms : Z) : bool :=
  match ttl self !! key with Some ms => ms <=? now_ms | None => false end.

Definition iter (self : t) : list (bytes * IndexEntry) := btree_iter (map self).

(** The loop of [scan] over the entries of the range; [yielded] is the vector
    the loop pushes to. *)
Fixpoint scan_loop (self : t) (has_ttl : bool) (count : nat) (now_ms : Z)
    (filter : bytes -> bool) (range : list (bytes * IndexEntry)) (yielded : list bytes)
    : list bytes :=
  match range with
  | [] => yielded
  | (k, _) :: range =>
      if (has_ttl && match ttl self !! k with Some ms => ms <=? now_ms | None => false end)%bool
      then scan_loop self has_ttl count now_ms filter range yielded
      else if negb (filter k)
      then scan_loop self has_ttl count now_ms filter range yielded
      else
        let yielded := yielded ++ [k] in
        if (count <=? length yielded)%nat then yielded
        else scan_loop self has_ttl count now_ms filter range yielded
  end.

Definition scan (self : t) (cursor : option bytes) (count : nat) (now_ms : Z)
    (filter : bytes -> bool) : list bytes * option bytes :=
  let count := Nat.max count 1 in
  let has_ttl := negb (bool_decide (ttl self = ∅)) in
  let yielded :=
    scan_loop self has_ttl count now_ms filter (btree_after cursor (map self)) [] in
  let next := if (count <=? length yielded)%nat then last yielded else None in
  (yielded, next).

(** ** The invariant *)

(** The count is the number of keys, and the sidecars only describe keys of
    the map. *)
Record inv (self : t) : Prop := {
  inv_count : live_count self = Z.of_nat (size (map self));
  inv_ttl : dom (ttl self) ⊆ dom (map self);
  inv_valsep : dom (valsep self) ⊆ dom (map self);
}.

Lemma dom_set_sidecar {V W : Type} (m : gmap bytes V) (d : gmap bytes W) (key : bytes) (o : option V) (e : W) :
  dom m ⊆ dom d -> dom (set_sidecar m key o) ⊆ dom (<[key := e]> d).
Proof. destruct o; simpl; set_solver. Qed.

Lemma set_sidecar_dom {V W : Type} (m : gmap bytes V) (d : gmap bytes W) (key : bytes) (o : option V) :
  dom m ⊆ dom d -> (is_Some o -> key ∈ dom d) -> dom (set_sidecar m key o) ⊆ dom d.
Proof.
  destruct o; simpl; [|set_solver]. intros ? Hk.
  specialize (Hk (ex_intro _ v eq_refl)). set_solver.
Qed.

Lemma inv_new : inv new.
Proof. split; simpl; set_solver. Qed.

Lemma inv_insert self key e o : inv self -> inv (insert self key e o).
Proof.
  intros [Hc Ht Hv]. split; simpl.
  - destruct (map self !! key) eqn:Hk.
    + by rewrite map_size_insert_Some.
    + rewrite map_size_insert_None by done. lia.
  - by apply dom_set_sidecar.
  - set_solver.
Qed.

Lemma inv_remove self key : inv self -> inv (remove self key).2.
Proof.
  intros [Hc Ht Hv]. split; simpl; [|set_solver..].
  destruct (map self !! key) eqn:Hk.
  - rewrite map_size_delete_Some by eauto.
    assert (size (map self) <> 0%nat) by (apply map_size_ne_0_lookup; eauto).
    unfold sat_sub. lia.
  - by rewrite map_size_delete_None.
Qed.

Lemma inv_clear self : inv (clear self).
Proof. apply inv_new. Qed.

Lemma inv_set_ttl self key o :
  inv self -> (is_Some o -> is_Some (map self !! key)) -> inv (set_ttl self key o).
Proof.
  intros [Hc Ht Hv] Hk. split; simpl; auto.
  apply set_sidecar_dom; [done|]. rewrite elem_of_dom. auto.
Qed.

Lemma inv_set_valsep self key o :
  inv self -> (is_Some o -> is_Some (map self !! key)) -> inv (set_valsep self key o).
Proof.
  intros [Hc Ht Hv] Hk. split; simpl; auto.
  apply set_sidecar_dom; [done|]. rewrite elem_of_dom. auto.
Qed.

(** ** The abstract index *)

(** What the index knows of one key. *)
Record slot := mkSlot { sl_entry : IndexEntry; sl_ttl : option Z; sl_valsep : option ContentHash }.

Definition view (self : t) : gmap bytes slot :=
  map_imap (fun k e => Some (mkSlot e (ttl self !! k) (valsep self !! k))) (map self).

Lemma lookup_view self k :
  view self !! k = (fun e => mkSlot e (ttl self !! k) (valsep self !! k)) <$> map self !! k.
Proof. unfold view. rewrite map_lookup_imap. by destruct (map self !! k). Qed.

Lemma dom_view self : dom (view self) = dom (map self).
Proof.
  apply set_eq. intros k. rewrite !elem_of_dom, lookup_view.
  by rewrite fmap_is_Some.
Qed.

Lemma size_view self : size (view self) = size (map self).
Proof. rewrite <- !size_dom. by rewrite dom_view. Qed.

(** The state-changing calls of the index. *)
Inductive op :=
| OpInsert (key : bytes) (e : IndexEntry) (exp : option Z)
| OpSetTtl (key : bytes) (exp : option Z)
| OpSetValsep (key : bytes) (h : option ContentHash)
| OpRemove (key : bytes)
| OpClear.

Definition run (self : t) (o : op) : t :=
  match o with
  | OpInsert k e exp => insert self k e exp
  | OpSetTtl k exp => set_ttl self k exp
  | OpSetValsep k h => set_valsep self k h
  | OpRemove k => (remove self k).2
  | OpClear => clear self
  end.

(** The same calls on the abstract map: an insertion replaces the entry and the
    expiry and keeps the hash. *)
Definition spec_run (m : gmap bytes slot) (o : op) : gmap bytes slot :=
  match o with
  | OpInsert k e exp => <[k := mkSlot e exp (m !! k ≫= sl_valsep)]> m
  | OpSetTtl k exp => alter (fun s => mkSlot (sl_entry s) exp (sl_valsep s)) k m
  | OpSetValsep k h => alter (fun s => mkSlot (sl_entry s) (sl_ttl s) h) k m
  | OpRemove k => delete k m
  | OpClear => ∅
  end.

(** The sidecar setters are called on keys of the index. *)
Definition op_ok (self : t) (o : op) : Prop :=
  match o with
  | OpSetTtl k (Some _) | OpSetValsep k (Some _) => is_Some (map self !! k)
  | _ => True
  end.

Lemma inv_run self o : inv self -> op_ok self o -> inv (run self o).
Proof.
  intros Hi Ho. destruct o; cbn [run op_ok] in *;
    auto using inv_insert, inv_remove, inv_clear.
  - apply inv_set_ttl; [done|]. destruct exp; [auto | by intros []].
  - apply inv_set_valsep; [done|]. destruct h; [auto | by intros []].
Qed.

Lemma lookup_set_sidecar {V : Type} (m : gmap bytes V) k o k' :
  set_sidecar m k o !! k' = if decide (k = k') then o else m !! k'.
Proof.
  destruct o; simpl; case_decide; subst;
    by rewrite ?lookup_insert_eq, ?lookup_insert_ne, ?lookup_delete_eq, ?lookup_delete_ne.
Qed.

Lemma valsep_absent self k : inv self -> map self !! k = None -> valsep self !! k = None.
Proof.
  intros Hi Hk. apply not_elem_of_dom. intros Hd%(inv_valsep _ Hi).
  by apply elem_of_dom in Hd as [? ?]; simplify_eq.
Qed.

Lemma ttl_absent self k : inv self -> map self !! k = None -> ttl self !! k = None.
Proof.
  intros Hi Hk. apply not_elem_of_dom. intros Hd%(inv_ttl _ Hi).
  by apply elem_of_dom in Hd as [? ?]; simplify_eq.
Qed.

Lemma view_run self o : inv self -> view (run self o) = spec_run (view self) o.
Proof.
  intros Hi. apply map_eq. intros k'. rewrite lookup_view.
  destruct o as [k e exp|k exp|k h|k|]; simpl.
  - rewrite lookup_set_sidecar, lookup_insert, (lookup_insert (view self)), !lookup_view.
    case_decide; subst; [|done]. destruct (map self !! k') eqn:Hk; simpl; [done|].
    by rewrite valsep_absent.
  - rewrite lookup_set_sidecar, lookup_alter, !lookup_view.
    case_decide; subst; [|done]. by destruct (map self !! k').
  - rewrite lookup_set_sidecar, lookup_alter, !lookup_view.
    case_decide; subst; [|done]. by destruct (map self !! k').
  - rewrite !lookup_delete, !lookup_view. by case_decide.
  - done.
Qed.

(** ** Scanning *)

(** The keys a scan reports: in the index, not expired, accepted by the filter. *)
Definition visible (self : t) (now_ms : Z) (filter : bytes -> bool) (k : bytes) : bool :=
  (bool_decide (is_Some (map self !! k)) && negb (is_expired self k now_ms) && filter k)%bool.

Definition keep (self : t) (now_ms : Z) (filter : bytes -> bool) (k : bytes) : Prop :=
  (negb (is_expired self k now_ms) && filter k)%bool = true.

#[local] Instance keep_dec self now f k : Decision (keep self now f k).
Proof. unfold keep. apply _. Defined.

(** All the keys after the cursor that a scan may report, in order. *)
Definition candidates (self : t) (cursor : option bytes) (now_ms : Z) (f : bytes -> bool)
    : list bytes :=
  filter (keep self now_ms f) (btree_after cursor (map self)).*1.

Lemma has_ttl_expired self now k :
  (negb (bool_decide (ttl self = ∅)) &&
   match ttl self !! k with Some ms => ms <=? now | None => false end)%bool
  = is_expired self k now.
Proof.
  unfold is_expired. case_bool_decide as He; simpl; [|done].
  by rewrite He, lookup_empty.
Qed.

Lemma scan_loop_take self now f count range yielded :
  (length yielded < count)%nat ->
  scan_loop self (negb (bool_decide (ttl self = ∅))) count now f range yielded
  = yielded ++ take (count - length yielded) (filter (keep self now f) range.*1).
Proof.
  revert yielded. induction range as [|[k e] range IH]; intros yielded Hlt; simpl.
  { by rewrite filter_nil, take_nil, app_nil_r. }
  rewrite has_ttl_expired, filter_cons.
  destruct (decide (keep self now f k)) as [Hk|Hk]; unfold keep in Hk.
  2: { destruct (is_expired self k now), (f k); simpl in *; first [by apply IH | by destruct Hk]. }
  apply andb_true_iff in Hk as [He ->]. apply negb_true_iff in He as ->. simpl.
  rewrite length_app. simpl.
  destruct (count - length yielded)%nat as [|n] eqn:Hn; [lia|]. simpl.
  case_match eqn:Hc.
  - apply Nat.leb_le in Hc. replace n with 0%nat by lia. done.
  - apply Nat.leb_gt in Hc. rewrite IH by (rewrite length_app; simpl; lia).
    rewrite length_app, <- app_assoc. simpl. do 3 f_equal. lia.
Qed.

(** A page is the next [max count 1] candidates; the cursor is the last of them
    when the page is full. *)
Lemma scan_page self cursor count now f :
  scan self cursor count now f =
  let n := Nat.max count 1 in
  let page := take n (candidates self cursor now f) in
  (page, if (n <=? length page)%nat then last page else None).
Proof. unfold scan. rewrite scan_loop_take by (simpl; lia). simpl. by rewrite Nat.sub_0_r. Qed.

Lemma candidates_elem self cursor now f k :
  k ∈ candidates self cursor now f <->
  visible self now f k = true /\ (forall c, cursor = Some c -> bytes_lt c k).
Proof.
  unfold candidates, keep, visible. rewrite list_elem_of_filter, list_elem_of_fmap.
  rewrite <- andb_assoc, (andb_true_iff (bool_decide _)), bool_decide_eq_true.
  split.
  - intros [Hk ([k' e] & -> & [Hm Hc]%btree_after_elem)]. eauto.
  - intros [[[e Hm] Hk] Hc]. split; [done|]. exists (k, e). split; [done|].
    by apply btree_after_elem.
Qed.

Lemma StronglySorted_fst {V : Type} (l : list (bytes * V)) :
  StronglySorted key_lt l -> StronglySorted bytes_lt l.*1.
Proof.
  induction 1 as [|x l Hs IH Hx]; simpl; constructor; [done|].
  by apply Forall_fmap.
Qed.

Lemma candidates_sorted self cursor now f :
  StronglySorted bytes_lt (candidates self cursor now f).
Proof. apply StronglySorted_filter', StronglySorted_fst, btree_after_sorted. Qed.

Definition after (cursor : option bytes) (k : bytes) : Prop :=
  forall c, cursor = Some c -> bytes_lt c k.

Lemma scan_sound self cursor count now f page next :
  scan self cursor count now f = (page, next) ->
  StronglySorted bytes_lt page /\
  (forall k, k ∈ page -> visible self now f k = true /\ after cursor k) /\
  (forall k, visible self now f k = true -> after cursor k -> k ∉ page ->
     exists c, next = Some c /\ bytes_lt c k) /\
  (forall c, next = Some c -> exists ks, page = ks ++ [c]).
Proof.
  rewrite scan_page. cbv zeta. set (n := Nat.max count 1).
  set (L := candidates self cursor now f). intros [= <- <-].
  pose proof (candidates_sorted self cursor now f) as Hs. fold L in Hs.
  rewrite <- (take_drop n L) in Hs.
  split; [by eapply StronglySorted_app_1_l|].
  split; [intros k (i & Hk%list_elem_of_lookup_2 & _)%elem_of_take; by apply candidates_elem in Hk|].
  split.
  - intros k Hv Ha Hni.
    assert (k ∈ L) as HL by (by apply candidates_elem).
    rewrite <- (take_drop n L), elem_of_app in HL. destruct HL as [|Hd]; [done|].
    assert (length (take n L) = n) as Hlen.
    { rewrite length_take. apply Nat.min_l. destruct (Nat.le_gt_cases n (length L)); [done|].
      rewrite drop_ge in Hd by lia. by apply not_elem_of_nil in Hd. }
    rewrite Hlen, Nat.leb_refl.
    destruct (last (take n L)) as [c|] eqn:Hl.
    + exists c. split; [done|]. eapply StronglySorted_app_1_elem_of; [exact Hs| |exact Hd].
      by apply last_Some_elem_of.
    + apply last_None in Hl. rewrite Hl in Hlen. simpl in Hlen. lia.
  - intros c. destruct (_ <=? _)%nat; [|discriminate]. apply last_Some.
Qed.

(** A client's loop over [scan]: each page is taken from the index as it is at
    that moment ([snaps] are the states and clocks of the successive calls), with
    the cursor the previous page returned.  The flag says that the scan ended,
    [next = None]. *)
Fixpoint scan_pages (count : nat) (f : bytes -> bool) (cursor : option bytes)
    (snaps : list (t * Z)) : list bytes * bool :=
  match snaps with
  | [] => ([], false)
  | (self, now) :: snaps =>
      let '(page, next) := scan self cursor count now f in
      match next with
      | None => (page, true)
      | Some c =>
          let '(rest, complete) := scan_pages count f (Some c) snaps in
          (page ++ rest, complete)
      end
  end.

Lemma StronglySorted_last_le (page ks : list bytes) c y :
  StronglySorted bytes_lt page -> page = ks ++ [c] -> y ∈ page -> bytes_le y c.
Proof.
  intros Hs -> [Hy|Hy%list_elem_of_singleton]%elem_of_app; apply bytes_le_lteq; [left|by right].
  eapply StronglySorted_app_1_elem_of; [done..|]. by apply list_elem_of_singleton.
Qed.

Lemma bytes_le_lt_trans a b c : bytes_le a b -> bytes_lt b c -> bytes_lt a c.
Proof. rewrite bytes_le_lteq. intros [?| ->]; eauto using bytes_lt_trans. Qed.

Lemma scan_pages_sound count f snaps : forall cursor keys complete,
  scan_pages count f cursor snaps = (keys, complete) ->
  StronglySorted bytes_lt keys /\
  (forall k, k ∈ keys -> after cursor k) /\
  (forall k, k ∈ keys -> exists s, s ∈ snaps /\ visible s.1 s.2 f k = true) /\
  (complete = true -> forall k, after cursor k ->
     (forall s, s ∈ snaps -> visible s.1 s.2 f k = true) -> k ∈ keys).
Proof.
  induction snaps as [|[self now] snaps IH]; intros cursor keys complete.
  { intros [= <- <-]. split; [constructor|]. set_solver. }
  cbn [scan_pages]. destruct (scan self cursor count now f) as [page next] eqn:Hpage.
  destruct (scan_sound _ _ _ _ _ _ _ Hpage) as (Hs & Hin & Hmiss & Hnext).
  destruct next as [c|]; cycle 1.
  { intros [= <- <-]. split_and!; [done| | |].
    - intros k Hk. by apply Hin.
    - intros k Hk. exists (self, now). split; [set_solver|]. by apply Hin.
    - intros _ k Ha Hv. apply dec_stable. intros Hni.
      destruct (Hmiss k (Hv (self, now) ltac:(set_solver)) Ha Hni) as (? & ? & _). done. }
  destruct (scan_pages count f (Some c) snaps) as [rest done'] eqn:Hrest.
  intros [= <- <-]. destruct (IH _ _ _ Hrest) as (Hs' & Haft & Hvis & Hall).
  destruct (Hnext c eq_refl) as [ks Hks].
  assert (Hle : forall y, y ∈ page -> bytes_le y c)
    by (eauto using StronglySorted_last_le).
  assert (Hca : after cursor c) by (apply Hin; set_solver).
  split_and!.
  - apply StronglySorted_app. split_and!; [|done..].
    intros x y Hx Hy. eapply bytes_le_lt_trans; [by apply Hle|]. by apply Haft.
  - intros k [Hk|Hk]%elem_of_app; [by apply Hin|].
    intros c' Hc'. eapply bytes_lt_trans; [by apply Hca|]. by apply (Haft k Hk).
  - intros k [Hk|Hk]%elem_of_app.
    + exists (self, now). split; [set_solver|]. by apply Hin.
    + destruct (Hvis k Hk) as (s & ? & ?). exists s. split; [set_solver|done].
  - intros Hd k Ha Hv. apply elem_of_app.
    destruct (decide (k ∈ page)) as [|Hni]; [by left|right].
    destruct (Hmiss k (Hv (self, now) ltac:(set_solver)) Ha Hni) as (c' & [= <-] & Hlt).
    apply Hall; [done| |set_solver]. by intros ? [= <-].
Qed.

(** Strictly sorted lists with the same elements are equal. *)
Lemma sorted_ext (l1 l2 : list bytes) :
  StronglySorted bytes_lt l1 -> StronglySorted bytes_lt l2 ->
  (forall k, k ∈ l1 <-> k ∈ l2) -> l1 = l2.
Proof.
  intros H1 H2 Hk.
  assert (Hnd : forall l, StronglySorted bytes_lt l -> NoDup l).
  { induction 1 as [|x l Hs IH Hx]; constructor; [|done]. intros Hin.
    eapply Forall_forall in Hx; [|done]. by apply (bytes_lt_irrefl x). }
  apply (StronglySorted_unique_strong bytes_lt); [|done..|].
  - intros x y _ _ Hxy Hyx. destruct (bytes_lt_irrefl x). by eapply bytes_lt_trans.
  - apply NoDup_Permutation; auto.
Qed.

Lemma candidates_rest self cursor now f n c ks :
  take n (candidates self cursor now f) = ks ++ [c] ->
  candidates self (Some c) now f = drop n (candidates self cursor now f).
Proof.
  set (L := candidates self cursor now f). intros Ht.
  pose proof (candidates_sorted self cursor now f) as Hs. fold L in Hs.
  assert (Hc : c ∈ L) by (rewrite <- (take_drop n L), Ht; set_solver).
  apply candidates_elem in Hc as [_ Hc]. rewrite <- (take_drop n L) in Hs.
  apply sorted_ext; [apply candidates_sorted|by eapply StronglySorted_app_1_r|].
  intros k. rewrite candidates_elem. split.
  - intros [Hv Ha]. specialize (Ha c eq_refl).
    assert (k ∈ L) as HL.
    { apply candidates_elem. split; [done|]. intros c' Hc'.
      eapply bytes_lt_trans; [by apply Hc|done]. }
    rewrite <- (take_drop n L), elem_of_app in HL. destruct HL as [Hk|]; [|done].
    exfalso. apply (bytes_lt_irrefl c). eapply bytes_lt_trans; [done|].
    apply StronglySorted_app_1_l in Hs.
    pose proof (StronglySorted_last_le _ _ _ _ Hs Ht Hk) as Hle.
    apply bytes_le_lteq in Hle as [?| ->]; [done|]. by destruct (bytes_lt_irrefl c).
  - intros Hk. split.
    + assert (k ∈ L) as HL by (rewrite <- (take_drop n L); set_solver).
      by apply candidates_elem in HL as [? _].
    + intros ? [= <-]. eapply StronglySorted_app_1_elem_of; [exact Hs| |exact Hk].
      rewrite Ht. set_solver.
Qed.

Lemma scan_pages_static self now count f m : forall cursor,
  (length (candidates self cursor now f) < m)%nat ->
  scan_pages count f cursor (replicate m (self, now))
  = (candidates self cursor now f, true).
Proof.
  induction m as [|m IH]; intros cursor Hm; [lia|].
  cbn [replicate scan_pages]. rewrite scan_page. cbv zeta.
  set (L := candidates self cursor now f) in *. set (n := Nat.max count 1).
  rewrite length_take. destruct (Nat.leb_spec n (n `min` length L)) as [Hle|Hgt].
  - destruct (last (take n L)) as [c|] eqn:Hl.
    + apply last_Some in Hl as [ks Hks].
      rewrite IH; rewrite (candidates_rest self cursor now f n c ks Hks); fold L.
      * by rewrite take_drop.
      * rewrite length_drop. lia.
    + apply last_None in Hl. apply (f_equal length) in Hl.
      rewrite length_take in Hl. simpl in Hl. lia.
  - rewrite take_ge by lia. done.
Qed.

Lemma candidates_length self cursor now f :
  (length (candidates self cursor now f) <= size (map self))%nat.
Proof.
  unfold candidates. etransitivity; [apply length_filter|].
  rewrite length_fmap, <- btree_iter_length.
  destruct cursor; simpl; [apply length_filter|done].
Qed.

(** ** The index's contract *)

Fixpoint ops_ok (self : t) (ops : list op) : Prop :=
  match ops with
  | [] => True
  | o :: ops => op_ok self o /\ ops_ok (run self o) ops
  end.

Lemma runs_refine ops : forall self,
  inv self -> ops_ok self ops ->
  inv (foldl run self ops) /\ view (foldl run self ops) = foldl spec_run (view self) ops.
Proof.
  induction ops as [|o ops IH]; intros self Hi Hok; [done|]. simpl in *.
  destruct Hok as [Ho Hok]. rewrite <- view_run by done. auto using inv_run.
Qed.
End NsIndex.

(** Any sequence of calls on a fresh index implements the same calls on one
    finite map from keys to entry, expiry and content hash: the three maps stay
    in step, [live_len] is the number of keys, and [get], [ttl] and [valsep]
    answer from that map. *)
Theorem index_refines_map (ops : list NsIndex.op) :
  NsIndex.ops_ok NsIndex.new ops ->
  let idx := foldl NsIndex.run NsIndex.new ops in
  let m := foldl NsIndex.spec_run ∅ ops in
  NsIndex.live_len idx = Z.of_nat (size m) /\
  (forall k, NsIndex.get idx k = NsIndex.sl_entry <$> m !! k) /\
  (forall k, NsIndex.get_ttl idx k = m !! k ≫= NsIndex.sl_ttl) /\
  (forall k, NsIndex.get_valsep idx k = m !! k ≫= NsIndex.sl_valsep).
Proof.
  intros Hok idx m.
  destruct (NsIndex.runs_refine ops NsIndex.new NsIndex.inv_new Hok) as [Hi Hv].
  fold idx in Hi, Hv.
  assert (m = NsIndex.view idx) as -> by (rewrite Hv; reflexivity).
  split; [rewrite NsIndex.size_view; apply Hi|].
  split_and!; intros k; rewrite NsIndex.lookup_view;
    unfold NsIndex.get, NsIndex.get_ttl, NsIndex.get_valsep;
    destruct (NsIndex.map idx !! k) eqn:Hk; simpl;
    auto using NsIndex.ttl_absent, NsIndex.valsep_absent.
Qed.

(** A paged scan that runs to its end, over an index that may change between
    any two pages, reports keys in strictly increasing order (so none twice),
    reports only keys that were visible when some page was taken, and reports
    every key that was visible, live and matching, at every page. *)
Theorem scan_stable_under_mutation count f snaps keys :
  NsIndex.scan_pages count f None snaps = (keys, true) ->
  StronglySorted bytes_lt keys /\
  (forall k, k ∈ keys -> exists s, s ∈ snaps /\ NsIndex.visible s.1 s.2 f k = true) /\
  (forall k, (forall s, s ∈ snaps -> NsIndex.visible s.1 s.2 f k = true) -> k ∈ keys).
Proof.
  intros H. destruct (NsIndex.scan_pages_sound _ _ _ _ _ _ H) as (Hs & _ & Hv & Hall).
  split_and!; [done..|]. intros k Hk. by apply Hall.
Qed.

(** On an index that does not change, the paged scan ends, whatever the page
    size, within one page more than there are keys, and the pages together are
    exactly the visible keys in order. *)
Theorem scan_terminates self now count f :
  exists keys,
    NsIndex.scan_pages count f None (replicate (S (size (NsIndex.map self))) (self, now))
    = (keys, true) /\
    StronglySorted bytes_lt keys /\
    forall k, k ∈ keys <-> NsIndex.visible self now f k = true.
Proof.
  exists (NsIndex.candidates self None now f). split_and!.
  - apply NsIndex.scan_pages_static.
    pose proof (NsIndex.candidates_length self None now f). lia.
  - apply NsIndex.candidates_sorted.
  - intros k. rewrite NsIndex.candidates_elem. naive_solver.
Qed.

(** ** Witnesses *)

Definition ex_ops : list NsIndex.op :=
  [NsIndex.OpInsert [1] (IndexEntry_new 0 0 40 7) (Some 90);
   NsIndex.OpSetValsep [1] (Some [5]);
   NsIndex.OpInsert [2] (IndexEntry_new 0 40 41 8) None;
   NsIndex.OpRemove [3]; NsIndex.OpSetTtl [2] (Some 50); NsIndex.OpRemove [1]].

Lemma index_refines_map_witness :
  let idx := foldl NsIndex.run NsIndex.new ex_ops in
  let m := foldl NsIndex.spec_run ∅ ex_ops in
  NsIndex.live_len idx = Z.of_nat (size m) /\
  (forall k, NsIndex.get idx k = NsIndex.sl_entry <$> m !! k) /\
  (forall k, NsIndex.get_ttl idx k = m !! k ≫= NsIndex.sl_ttl) /\
  (forall k, NsIndex.get_valsep idx k = m !! k ≫= NsIndex.sl_valsep).
Proof. apply index_refines_map. repeat split; vm_compute; eauto. Defined.

(** Two pages; between them the key [2] goes and the key [3] comes. *)
Definition ex_snap1 : NsIndex.t :=
  foldl NsIndex.run NsIndex.new
    [NsIndex.OpInsert [1] (IndexEntry_new 0 0 40 7) None;
     NsIndex.OpInsert [2] (IndexEntry_new 0 40 40 8) None;
     NsIndex.OpInsert [4] (IndexEntry_new 0 80 40 9) None].
Definition ex_snap2 : NsIndex.t :=
  foldl NsIndex.run ex_snap1
    [NsIndex.OpRemove [2]; NsIndex.OpInsert [3] (IndexEntry_new 0 120 40 10) None].

Lemma scan_stable_witness :
  StronglySorted bytes_lt [[1]; [2]; [3]; [4]] /\
  (forall k, k ∈ [[1]; [2]; [3]; [4]] -> exists s,
     s ∈ [(ex_snap1, 20); (ex_snap2, 20); (ex_snap2, 20)] /\
     NsIndex.visible s.1 s.2 (fun _ => true) k = true) /\
  (forall k, (forall s, s ∈ [(ex_snap1, 20); (ex_snap2, 20); (ex_snap2, 20)] ->
     NsIndex.visible s.1 s.2 (fun _ => true) k = true) -> k ∈ [[1]; [2]; [3]; [4]]).
Proof. apply (scan_stable_under_mutation 2). vm_compute. reflexivity. Defined.
