(* ===== verification/LogFile.v ===== *)
(** * Log files and footers, [crates/engine/src/log/file.rs]

    A log file is an append-only sequence of records; sealing it appends a
    footer, the list of the keys that live in it, with a checksummed trailer.
    [data] is the content of the inode behind the handle.  A write that fails
    leaves any prefix of the buffer on disk: the argument [fault] of the
    appending operations is [None] when the write succeeds and [Some n] when it
    fails after [n] bytes.  Opening, reading and syncing a file succeed. *)

From stdpp Require Import base tactics list gmap sorting strings.
From Stdlib Require Import ZArith Lia.
From S2P Require Import Prelude Record Index.

Open Scope Z_scope.

Definition FOOTER_MAGIC : Z := 0x42594F4E445F4B58.
Definition FOOTER_TRAILER_LEN : Z := 24.

(** ** Footer entries *)

Module FooterEntry.
Record t := mk {
  key : bytes;
  record_offset : Z;
  record_size : Z;
  expires_at_ms : option Z;
  tstamp_ms : Z;
  value_hash : option ContentHash;
}.

Definition encoded_size (e : t) : Z :=
  4 + 8 + 4 + 8 + 1 + 8 + 1 + (if value_hash e then 16 else 0) + zlen (key e).

Definition encode_into (e : t) (buf : bytes) : bytes :=
  let buf := buf ++ le_bytes 4 (zlen (key e) mod 2 ^ 32) in
  let buf := buf ++ le_bytes 8 (record_offset e) in
  let buf := buf ++ le_bytes 4 (record_size e) in
  let '(has_expiry, ms) :=
    match expires_at_ms e with Some ms => (1, ms) | None => (0, 0) end in
  let buf := buf ++ le_bytes 8 ms in
  let buf := buf ++ [has_expiry] in
  let buf := buf ++ le_bytes 8 (tstamp_ms e) in
  let buf := match value_hash e with
             | Some h => (buf ++ [1]) ++ h
             | None => buf ++ [0]
             end in
  buf ++ key e.

(** [buf[a..a + n]] read as a little-endian integer, for ranges inside [buf]. *)
Definition le_at (buf : bytes) (off n : nat) : Z := le_val (take n (drop off buf)).

Definition parse (buf : bytes) : option (t * Z) :=
  if decide (zlen buf < 34) then None else
  let key_size := le_at buf 0 4 in
  let record_offset := le_at buf 4 8 in
  let record_size := le_at buf 12 4 in
  let expires_ms := le_at buf 16 8 in
  let has_expiry := nth 24 buf 0 in
  let tstamp_ms := le_at buf 25 8 in
  let has_valsep := nth 33 buf 0 in
  let cursor := 34 in
  '(value_hash, cursor) ←
    (if decide (has_valsep <> 0) then
       let end_ := cursor + 16 in
       if decide (zlen buf < end_) then None
       else h ← sub buf cursor 16; Some (Some h, end_)
     else Some (None, cursor));
  let total := cursor + key_size in
  if decide (zlen buf < total) then None else
  key ← sub buf cursor key_size;
  Some (mk key record_offset record_size
          (if decide (has_expiry <> 0) then Some expires_ms else None)
          tstamp_ms value_hash, total).

(** An entry whose fields have their machine widths. *)
Record wf (e : t) : Prop := {
  wf_key : is_u32 (zlen (key e));
  wf_offset : is_u64 (record_offset e);
  wf_size : is_u32 (record_size e);
  wf_expires : forall ms, expires_at_ms e = Some ms -> is_u64 ms;
  wf_tstamp : is_u64 (tstamp_ms e);
  wf_hash : forall h, value_hash e = Some h -> length h = 16%nat;
}.

(** The bytes of one entry. *)
Definition encoded (e : t) : bytes := encode_into e [].

Lemma encode_into_app e buf : encode_into e buf = buf ++ encoded e.
Proof.
  unfold encoded, encode_into. destruct (expires_at_ms e), (value_hash e);
    rewrite <- !app_assoc; reflexivity.
Qed.

Lemma encoded_length e : wf e -> zlen (encoded e) = encoded_size e.
Proof.
  intros Hwf. unfold encoded, encode_into, encoded_size.
  destruct (expires_at_ms e), (value_hash e) as [h|] eqn:Hh;
    autorewrite with sizes; rewrite ?zlen_nil; try lia;
    pose proof (wf_hash _ Hwf h Hh); unfold zlen in *; lia.
Qed.

Lemma encoded_size_pos e : 34 <= encoded_size e.
Proof. unfold encoded_size. destruct (value_hash e); zlia. Qed.

(** The fixed prefix of an entry's layout, and what it holds. *)
Definition prefix (k off sz ms hx ts hv : Z) : bytes :=
  le_bytes 4 k ++ le_bytes 8 off ++ le_bytes 4 sz ++ le_bytes 8 ms ++ [hx] ++
  le_bytes 8 ts ++ [hv].

Lemma encoded_layout e :
  wf e ->
  encoded e =
  prefix (zlen (key e)) (record_offset e) (record_size e) (default 0 (expires_at_ms e))
    (if expires_at_ms e then 1 else 0) (tstamp_ms e) (if value_hash e then 1 else 0)
  ++ default [] (value_hash e) ++ key e.
Proof.
  intros [Hk _ _ _ _ _]. unfold encoded, encode_into, prefix.
  rewrite Z.mod_small by zlia.
  destruct (expires_at_ms e), (value_hash e); simpl; rewrite <- ?app_assoc; reflexivity.
Qed.

Lemma parse_prefix k off sz ms hx ts hv rest :
  is_u32 k -> is_u64 off -> is_u32 sz -> is_u64 ms -> is_u64 ts ->
  let buf := prefix k off sz ms hx ts hv ++ rest in
  le_at buf 0 4 = k /\ le_at buf 4 8 = off /\ le_at buf 12 4 = sz /\
  le_at buf 16 8 = ms /\ nth 24 buf 0 = hx /\ le_at buf 25 8 = ts /\
  nth 33 buf 0 = hv.
Proof.
  intros. repeat split.
  all: first
    [ etransitivity; [| apply (le_val_le_bytes_u64); eassumption]; reflexivity
    | etransitivity; [| apply (le_val_le_bytes_u32); eassumption]; reflexivity ].
Qed.

Lemma prefix_length k off sz ms hx ts hv : zlen (prefix k off sz ms hx ts hv) = 34.
Proof. reflexivity. Qed.

(** Parsing consumes exactly one encoded entry and leaves what follows. *)
Lemma parse_encoded e rest :
  wf e -> parse (encoded e ++ rest) = Some (e, zlen (encoded e)).
Proof.
  intros Hwf. rewrite encoded_layout by done.
  destruct e as [k off sz ex ts vh]. pose proof Hwf as [Hk Ho Hs He Ht Hh].
  cbn [key record_offset record_size expires_at_ms tstamp_ms value_hash] in *.
  set (p := prefix _ _ _ _ _ _ _). unfold parse.
  assert (is_u64 (default 0 ex)) as Hd by (destruct ex; simpl; [auto | zlia]).
  assert (zlen p = 34) as Hp by reflexivity.
  rewrite <- app_assoc, decide_False by (autorewrite with sizes; zlia).
  pose proof (parse_prefix (zlen k) off sz (default 0 ex) (if ex then 1 else 0) ts
    (if vh then 1 else 0) ((default [] vh ++ k) ++ rest) Hk Ho Hs Hd Ht) as Hpp.
  cbv zeta in Hpp. fold p in Hpp. clearbody p.
  destruct Hpp as (-> & -> & -> & -> & -> & -> & ->).
  destruct vh as [h|]; simpl.
  - assert (zlen h = 16) by (unfold zlen; by rewrite (Hh h)).
    rewrite (decide_False (P := zlen _ < _)) by (rewrite !zlen_app; zlia).
    rewrite <- app_assoc, sub_mid by lia. simpl.
    rewrite (decide_False (P := zlen _ < _)) by (rewrite !zlen_app; zlia).
    rewrite (app_assoc p), sub_mid by (rewrite ?zlen_app; lia). simpl.
    repeat f_equal; [by destruct ex | rewrite !zlen_app; lia].
  - rewrite (decide_False (P := zlen _ < _)) by (rewrite !zlen_app; zlia).
    rewrite sub_mid by lia. simpl.
    repeat f_equal; [by destruct ex | rewrite !zlen_app; lia].
Qed.
End FooterEntry.

Definition footer_entry_from_index (key : bytes) (entry : IndexEntry)
    (expires_at_ms : option Z) (value_hash : option ContentHash) : FooterEntry.t :=
  FooterEntry.mk key (record_offset entry) (record_size entry) expires_at_ms
    (ie_tstamp_ms entry) value_hash.

(** ** The file *)

(** A call of the file system that has no other effect here than its outcome. *)
Definition io_step (o : option IoKind) : eresult unit :=
  match o with Some k => Err (Io k) | None => Ok tt end.

Module LogFile.
Record t := mk {
  file_id : Z;
  data : bytes;
  write_offset : Z;
  poisoned : bool;
}.

(** [open_rw] and [open_ro] on a path with the given content (empty for a file
    that [open_rw] creates): the write offset is the length of the file. *)
Definition open (file_id : Z) (content : bytes) : t :=
  mk file_id content (zlen content) false.

Definition size (self : t) : Z := zlen (data self).

(** A positioned write: a gap between the end of the file and the offset reads
    as zeros. *)
Definition write_at (d : bytes) (off : Z) (bs : bytes) : bytes :=
  let d := d ++ replicate (Z.to_nat (off - zlen d)) 0 in
  patch d off bs.

Definition ENOSPC : IoKind := OtherIo "ENOSPC".

Definition append (self : t) (buf : bytes) (fault : option nat) : eresult Z * t :=
  if poisoned self
  then (Err (Io (OtherIo "log file poisoned after prior write error")), self) else
  let len := zlen buf in
  let offset := write_offset self in
  match fault with
  | Some n =>
      (Err (Io ENOSPC),
       mk (file_id self) (write_at (data self) offset (take n buf)) (offset + len) true)
  | None =>
      (Ok offset,
       mk (file_id self) (write_at (data self) offset buf) (offset + len) false)
  end.

Definition read_exact (self : t) (offset size : Z) : eresult bytes :=
  ok_or (sub (data self) offset size) (Io UnexpectedEof).

(** A read that may be short at the end of the file. *)
Definition read_at (self : t) (offset size : Z) : bytes :=
  take (Z.to_nat size) (drop (Z.to_nat offset) (data self)).

Definition data_end_offset (self : t) : Z :=
  let total := write_offset self in
  if decide (total < FOOTER_TRAILER_LEN) then total else
  match read_exact self (total - 8) 8 with
  | Err _ => total
  | Ok magic_bytes =>
      if decide (le_val magic_bytes <> FOOTER_MAGIC) then total else
      match read_exact self (total - FOOTER_TRAILER_LEN) 8 with
      | Err _ => total
      | Ok blen_bytes => sat_sub total (FOOTER_TRAILER_LEN + le_val blen_bytes)
      end
  end.

Definition truncate_to (self : t) (size : Z) : t :=
  mk (file_id self)
     (take (Z.to_nat size) (data self) ++ replicate (Z.to_nat (size - zlen (data self))) 0)
     size (poisoned self).

Section Footer.
Context {crc_impl : CrcFast}.

Definition footer_body (entries : list FooterEntry.t) : bytes :=
  foldl (fun body e => FooterEntry.encode_into e body) [] entries.

Definition footer_trailer (body : bytes) : bytes :=
  le_bytes 8 (zlen body) ++ le_bytes 8 (checksum body) ++ le_bytes 8 FOOTER_MAGIC.

(** The two appends of [write_footer] and the fsync after them fail independently.
    A failed fsync leaves the footer in the file, which is not poisoned. *)
Definition write_footer (self : t) (entries : list FooterEntry.t)
    (fault_body fault_trailer : option nat) (fault_sync : option IoKind) : eresult unit * t :=
  let body := footer_body entries in
  let trailer := footer_trailer body in
  let '(r, self) := append self body fault_body in
  match r with
  | Err e => (Err e, self)
  | Ok _ =>
      let '(r, self) := append self trailer fault_trailer in
      match r with
      | Err e => (Err e, self)
      | Ok _ => (io_step fault_sync, self)
      end
  end.

(** The parsing loop of [read_footer].  Every entry takes at least 34 bytes, so
    the length of the body bounds the number of iterations. *)
Fixpoint parse_entries (fuel : nat) (body : bytes) (body_offset cursor : Z)
    (entries : list FooterEntry.t) : eresult (list FooterEntry.t) :=
  if decide (cursor < zlen body) then
    match fuel with
    | O => Err (BadRecord 0 "out of fuel")
    | S fuel =>
        '(entry, used) ← ok_or (FooterEntry.parse (drop (Z.to_nat cursor) body))
                           (BadRecord (body_offset + cursor) "malformed footer entry");
        parse_entries fuel body body_offset (cursor + used) (entries ++ [entry])
    end
  else Ok entries.

Definition read_footer (self : t) : eresult (option (list FooterEntry.t)) :=
  let total_size := size self in
  if decide (total_size < FOOTER_TRAILER_LEN) then Ok None else
  trailer ← read_exact self (total_size - FOOTER_TRAILER_LEN) FOOTER_TRAILER_LEN;
  let body_len := FooterEntry.le_at trailer 0 8 in
  let stored_crc := FooterEntry.le_at trailer 8 8 in
  let magic := FooterEntry.le_at trailer 16 8 in
  if decide (magic <> FOOTER_MAGIC) then Ok None else
  if decide (body_len > total_size - FOOTER_TRAILER_LEN)
  then Err (BadRecord (total_size - FOOTER_TRAILER_LEN) "footer body length out of range") else
  let body_offset := total_size - FOOTER_TRAILER_LEN - body_len in
  body ← read_exact self body_offset body_len;
  let actual_crc := checksum body in
  if decide (actual_crc <> stored_crc) then Err (CrcMismatch body_offset) else
  entries ← parse_entries (length body) body body_offset 0 [];
  Ok (Some entries).

(** ** Appending *)

(** A file whose offset is its end, with no failed write. *)
Definition clean (self : t) : Prop :=
  write_offset self = zlen (data self) /\ poisoned self = false.

Lemma clean_open id content : clean (open id content).
Proof. done. Qed.

Lemma write_at_end d bs : write_at d (zlen d) bs = d ++ bs.
Proof.
  unfold write_at. rewrite Z.sub_diag. simpl. rewrite app_nil_r. unfold patch.
  rewrite take_ge, drop_ge by zlia. by rewrite app_nil_r.
Qed.

Lemma append_ok self buf :
  clean self ->
  append self buf None
  = (Ok (zlen (data self)), open (file_id self) (data self ++ buf)).
Proof.
  intros [Ho Hp]. unfold append, open. rewrite Hp, Ho, write_at_end, zlen_app. done.
Qed.

Lemma append_fault self buf n :
  clean self ->
  append self buf (Some n)
  = (Err (Io ENOSPC),
     mk (file_id self) (data self ++ take n buf) (zlen (data self) + zlen buf) true).
Proof. intros [Ho Hp]. unfold append. by rewrite Hp, Ho, write_at_end. Qed.

Lemma append_poisoned self buf fault :
  poisoned self = true ->
  append self buf fault
  = (Err (Io (OtherIo "log file poisoned after prior write error")), self).
Proof. intros Hp. unfold append. by rewrite Hp. Qed.

(** A file that is clean or has failed. *)
Definition file_inv (self : t) : Prop := poisoned self = true \/ clean self.

(** Whatever an append does, the file only grows. *)
Lemma append_inv self buf fault r self' :
  file_inv self -> append self buf fault = (r, self') ->
  file_inv self' /\ file_id self' = file_id self /\
  exists x, data self' = data self ++ x /\
    (forall off, r = Ok off -> off = zlen (data self) /\ x = buf /\ clean self' /\ fault = None).
Proof.
  intros [Hp|Hc].
  - rewrite append_poisoned by done. intros [= <- <-].
    split_and!; [by left | done |]. exists []. by rewrite app_nil_r.
  - destruct fault as [n|].
    + rewrite append_fault by done. intros [= <- <-].
      split_and!; [by left | done |]. by exists (take n buf).
    + rewrite append_ok by done. intros [= <- <-].
      split_and!; [by right | done |]. exists buf. split; [done|]. by intros off [= <-].
Qed.

Lemma read_exact_at id d d1 d2 d3 off n :
  d = d1 ++ d2 ++ d3 -> off = zlen d1 -> n = zlen d2 ->
  read_exact (open id d) off n = Ok d2.
Proof. intros -> -> ->. unfold read_exact. cbn [data open]. by rewrite sub_mid. Qed.

(** ** Footers *)

Definition footer (entries : list FooterEntry.t) : bytes :=
  footer_body entries ++ footer_trailer (footer_body entries).

Lemma footer_body_concat entries : forall acc,
  foldl (fun body e => FooterEntry.encode_into e body) acc entries
  = acc ++ concat (FooterEntry.encoded <$> entries).
Proof.
  induction entries as [|e es IH]; intros acc; simpl; [by rewrite app_nil_r|].
  by rewrite IH, FooterEntry.encode_into_app, <- app_assoc.
Qed.

Lemma write_footer_ok self entries :
  clean self ->
  write_footer self entries None None None
  = (Ok tt, open (file_id self) (data self ++ footer entries)).
Proof.
  intros Hc. unfold write_footer. rewrite append_ok by done.
  rewrite append_ok by apply clean_open. simpl. unfold footer. by rewrite app_assoc.
Qed.

Lemma write_footer_inv self entries f1 f2 f3 r self' :
  file_inv self -> write_footer self entries f1 f2 f3 = (r, self') ->
  file_inv self' /\ file_id self' = file_id self /\ exists x, data self' = data self ++ x.
Proof.
  intros Hi. unfold write_footer.
  destruct (append self _ f1) as [r1 s1] eqn:H1.
  destruct (append_inv _ _ _ _ _ Hi H1) as (Hi1 & Hid1 & x1 & Hx1 & _).
  destruct r1; [|intros [= <- <-]; eauto].
  destruct (append s1 _ f2) as [r2 s2] eqn:H2.
  destruct (append_inv _ _ _ _ _ Hi1 H2) as (Hi2 & Hid2 & x2 & Hx2 & _).
  destruct r2; intros [= <- <-]; (split_and!; [done | congruence |]);
    exists (x1 ++ x2); by rewrite Hx2, Hx1, app_assoc.
Qed.

(** A failed file: nothing will be appended to it any more. *)
Definition failed (self self' : t) : Prop :=
  poisoned self' = true /\ file_id self' = file_id self /\ exists x, data self' = data self ++ x.

Lemma append_cases self buf fault r self' :
  file_inv self -> append self buf fault = (r, self') ->
  (clean self /\ r = Ok (zlen (data self)) /\ self' = open (file_id self) (data self ++ buf)) \/
  ((exists e, r = Err e) /\ failed self self').
Proof.
  intros [Hp|Hc].
  - rewrite append_poisoned by done. intros [= <- <-]. right. split; [eauto|].
    split_and!; [done..|]. exists []. by rewrite app_nil_r.
  - destruct fault as [n|].
    + rewrite append_fault by done. intros [= <- <-]. right. split; [eauto|].
      split_and!; [done..|]. simpl. eauto.
    + rewrite append_ok by done. intros [= <- <-]. by left.
Qed.

Lemma write_footer_cases self entries f1 f2 f3 r self' :
  file_inv self -> write_footer self entries f1 f2 f3 = (r, self') ->
  (clean self /\ r = io_step f3 /\ self' = open (file_id self) (data self ++ footer entries)) \/
  ((exists e, r = Err e) /\ failed self self').
Proof.
  intros Hi. unfold write_footer.
  destruct (append self _ f1) as [r1 a1] eqn:H1.
  destruct (append_cases _ _ _ _ _ Hi H1) as [(Hc & -> & ->)|([e ->] & Hf)];
    [|intros [= <- <-]; right; split; [eauto|done]].
  destruct (append (open _ _) _ f2) as [r2 a2] eqn:H2.
  apply append_cases in H2 as [(_ & -> & ->)|([e ->] & Hp & Hid & x & Hx)];
    [| |right; apply clean_open]; intros [= <- <-].
  - left. split_and!; [done..|]. unfold footer. simpl. by rewrite <- app_assoc.
  - right. split; [eauto|]. split_and!; [done..|]. simpl in Hx. rewrite Hx, <- app_assoc. eauto.
Qed.

Lemma zlen_footer_trailer body : zlen (footer_trailer body) = FOOTER_TRAILER_LEN.
Proof. reflexivity. Qed.

Lemma parse_entries_app es : forall fuel done_ off acc,
  Forall FooterEntry.wf es -> (length es <= fuel)%nat ->
  let body := done_ ++ concat (FooterEntry.encoded <$> es) in
  parse_entries fuel body off (zlen done_) acc = Ok (acc ++ es).
Proof.
  induction es as [|e es IH]; intros fuel done_ off acc Hwf Hfuel body; subst body; simpl.
  - rewrite app_nil_r. destruct fuel; simpl; rewrite decide_False by lia; by rewrite app_nil_r.
  - apply Forall_cons in Hwf as [He Hwf]. destruct fuel as [|fuel]; simpl in Hfuel; [lia|].
    pose proof (FooterEntry.encoded_length e He) as Hlen.
    pose proof (FooterEntry.encoded_size_pos e). cbn [parse_entries].
    rewrite decide_True by (rewrite !zlen_app; zlia).
    replace (Z.to_nat (zlen done_)) with (length done_) by zlia.
    rewrite drop_app_length.
    rewrite FooterEntry.parse_encoded by done. simpl.
    rewrite app_assoc, <- zlen_app. rewrite IH by (done || lia).
    by rewrite <- app_assoc.
Qed.

Lemma concat_encoded_length es :
  Forall FooterEntry.wf es ->
  (length es <= length (concat (FooterEntry.encoded <$> es)))%nat.
Proof.
  induction 1 as [|e es He Hes IH]; csimpl; [done|]. rewrite length_app.
  pose proof (FooterEntry.encoded_length e He). pose proof (FooterEntry.encoded_size_pos e).
  zlia.
Qed.

(** The trailer's fields. *)
Lemma trailer_fields body :
  is_u64 (zlen body) ->
  FooterEntry.le_at (footer_trailer body) 0 8 = zlen body /\
  FooterEntry.le_at (footer_trailer body) 8 8 = checksum body /\
  FooterEntry.le_at (footer_trailer body) 16 8 = FOOTER_MAGIC.
Proof.
  intros Hb. split_and!.
  - etransitivity; [|apply (le_val_le_bytes_u64 (zlen body)); done]. reflexivity.
  - etransitivity; [|apply (le_val_le_bytes_u64 (checksum body)), checksum_u64]. reflexivity.
  - reflexivity.
Qed.

Lemma read_footer_sealed id d entries :
  Forall FooterEntry.wf entries ->
  is_u64 (zlen (footer_body entries)) ->
  read_footer (open id (d ++ footer entries)) = Ok (Some entries).
Proof.
  intros Hwf Hlen. unfold read_footer, size, footer. cbn [data open].
  set (body := footer_body entries) in *.
  pose proof (zlen_footer_trailer body) as Ht. unfold FOOTER_TRAILER_LEN in *.
  rewrite decide_False by (rewrite !zlen_app; zlia).
  rewrite (read_exact_at id _ (d ++ body) (footer_trailer body) [])
    by (rewrite ?app_nil_r, ?zlen_app, ?app_assoc; (done || lia)).
  cbn [ok_or mbind result_bind].
  destruct (trailer_fields body Hlen) as (-> & -> & ->).
  rewrite decide_False by auto. rewrite decide_False by (rewrite !zlen_app; zlia).
  rewrite (read_exact_at id _ d body (footer_trailer body))
    by (rewrite ?zlen_app; (done || lia)). cbn [ok_or mbind result_bind].
  rewrite decide_False by auto.
  assert (body = [] ++ concat (FooterEntry.encoded <$> entries)) as Hb
    by apply footer_body_concat.
  rewrite Hb. rewrite (parse_entries_app entries _ []); [done..|].
  simpl. by apply concat_encoded_length.
Qed.

(** The records of a sealed file end where its footer starts. *)
Lemma data_end_sealed id d entries :
  is_u64 (zlen (footer_body entries)) ->
  data_end_offset (open id (d ++ footer entries)) = zlen d.
Proof.
  intros Hlen. unfold data_end_offset, footer. cbn [write_offset open].
  set (body := footer_body entries) in *.
  pose proof (zlen_footer_trailer body) as Ht. unfold FOOTER_TRAILER_LEN in *.
  rewrite decide_False by (rewrite !zlen_app; zlia).
  set (len_crc := le_bytes 8 (zlen body) ++ le_bytes 8 (checksum body)).
  assert (footer_trailer body = len_crc ++ le_bytes 8 FOOTER_MAGIC) as Htr by reflexivity.
  assert (zlen len_crc = 16) as Hlc by reflexivity.
  rewrite (read_exact_at id _ (d ++ body ++ len_crc) (le_bytes 8 FOOTER_MAGIC) [])
    by (rewrite ?Htr, ?app_nil_r, <- ?app_assoc; first [reflexivity | size_lia]).
  rewrite decide_False by auto.
  rewrite (read_exact_at id _ (d ++ body) (le_bytes 8 (zlen body))
    (le_bytes 8 (checksum body) ++ le_bytes 8 FOOTER_MAGIC))
    by (rewrite <- ?app_assoc; first [reflexivity | size_lia]).
  rewrite le_val_le_bytes_u64 by done. rewrite !zlen_app. zlia.
Qed.

(** ** The loop of [read_footer] ends *)

Lemma parse_used buf e used :
  is_bytes buf -> FooterEntry.parse buf = Some (e, used) -> 34 <= used.
Proof.
  intros Hb. unfold FooterEntry.parse. case_decide; [discriminate|].
  assert (0 <= FooterEntry.le_at buf 0 4) as Hk.
  { apply le_val_range. unfold FooterEntry.le_at. by apply Forall_take, Forall_drop. }
  match goal with |- (?m ≫= _) = _ -> _ => destruct m as [[vh cursor]|] eqn:Hm end;
    [|discriminate]. simpl.
  assert (34 <= cursor) as Hc.
  { clear - Hm. repeat case_decide; simplify_eq; [|lia].
    destruct (sub buf 34 16); simplify_eq/=. lia. }
  destruct (decide (zlen buf < cursor + _)); [discriminate|].
  destruct (sub buf cursor _); [|discriminate]. intros [= _ <-]. lia.
Qed.

(** With the length of the body as fuel, every outcome is the code's: the
    entries or a malformed entry at some offset. *)
Lemma parse_entries_fuel body off : is_bytes body -> forall fuel cursor acc,
  0 <= cursor -> zlen body - cursor <= Z.of_nat fuel ->
  (exists es, parse_entries fuel body off cursor acc = Ok es) \/
  (exists at_, parse_entries fuel body off cursor acc
     = Err (BadRecord at_ "malformed footer entry")).
Proof.
  intros Hb. induction fuel as [|fuel IH]; intros cursor acc Hc Hf; simpl.
  { rewrite decide_False by lia. eauto. }
  case_decide; [|eauto].
  destruct (FooterEntry.parse _) as [[e used]|] eqn:Hp; simpl; [|eauto].
  apply parse_used in Hp; [|by apply Forall_drop]. apply IH; lia.
Qed.
End Footer.
End LogFile.

(** ** Contract *)

Section Contract.
Context {crc_impl : CrcFast}.

(** Sealing a file and reading its footer back gives the entries that were
    written, for any contents of the file; the end of the record area that the
    watch replay uses is the end of the records, which are untouched. *)
Theorem footer_roundtrip self entries r self' :
  LogFile.clean self -> Forall FooterEntry.wf entries ->
  is_u64 (zlen (LogFile.footer_body entries)) ->
  LogFile.write_footer self entries None None None = (r, self') ->
  r = Ok tt /\ LogFile.read_footer self' = Ok (Some entries) /\
  LogFile.data_end_offset self' = zlen (LogFile.data self) /\
  exists f, LogFile.data self' = LogFile.data self ++ f.
Proof.
  intros Hc Hwf Hlen. rewrite LogFile.write_footer_ok by done. intros [= <- <-].
  split_and!; [done | by apply LogFile.read_footer_sealed
    | by apply LogFile.data_end_sealed | simpl; eauto].
Qed.

(** A log file is fail-stop.  Whatever happens to an append, the bytes that
    were in the file stay where they were; a successful append puts the buffer
    right after them at the offset it returns; a failed one leaves a prefix of
    the buffer there, and every later append fails and changes nothing. *)
Theorem append_fail_stop self buf fault r self' :
  LogFile.clean self -> LogFile.append self buf fault = (r, self') ->
  match r with
  | Ok off =>
      fault = None /\ off = zlen (LogFile.data self) /\ LogFile.clean self' /\
      LogFile.data self' = LogFile.data self ++ buf /\
      LogFile.read_exact self' off (zlen buf) = Ok buf
  | Err _ =>
      (exists n, fault = Some n /\ LogFile.data self' = LogFile.data self ++ take n buf) /\
      forall buf2 fault2, exists e, LogFile.append self' buf2 fault2 = (Err e, self')
  end.
Proof.
  intros Hc. destruct fault as [n|].
  - rewrite LogFile.append_fault by done. intros [= <- <-]. split; [by exists n|].
    intros. eexists. by apply LogFile.append_poisoned.
  - rewrite LogFile.append_ok by done. intros [= <- <-].
    split_and!; try done.
    apply (LogFile.read_exact_at _ _ (LogFile.data self) buf []); [|done..].
    by rewrite app_nil_r.
Qed.
End Contract.

(** ** Witnesses *)

Definition ex_entries : list FooterEntry.t :=
  [FooterEntry.mk [107; 49] 0 45 (Some 1700000000000) 12 None;
   FooterEntry.mk [107; 50] 45 60 None 13 (Some (replicate 16 7))].

Lemma ex_entries_wf : Forall FooterEntry.wf ex_entries.
Proof.
  apply Forall_cons; split; [|apply Forall_singleton]; split; cbn; intros; simplify_eq;
    first [reflexivity | zlia | by vm_compute].
Qed.

Lemma footer_roundtrip_witness :
  let w := LogFile.write_footer (LogFile.open 3 [1; 2; 3]) ex_entries None None None in
  w.1 = Ok tt /\ LogFile.read_footer w.2 = Ok (Some ex_entries) /\
  LogFile.data_end_offset w.2 = zlen [1; 2; 3] /\
  exists f, LogFile.data w.2 = [1; 2; 3] ++ f.
Proof.
  intros w. apply (footer_roundtrip (LogFile.open 3 [1; 2; 3]) ex_entries).
  - apply LogFile.clean_open.
  - apply ex_entries_wf.
  - vm_compute; intuition discriminate.
  - apply surjective_pairing.
Defined.

Lemma append_fail_stop_witness :
  let f' := LogFile.mk 3 [1; 2; 5] 4 true in
  (exists n, Some 1%nat = Some n /\ LogFile.data f' = [1; 2] ++ take n [5; 6]) /\
  forall buf2 fault2, exists e, LogFile.append f' buf2 fault2 = (Err e, f').
Proof.
  intros f'. apply (append_fail_stop (LogFile.open 3 [1; 2]) [5; 6] (Some 1%nat)
    (Err (Io LogFile.ENOSPC)) f').
  - apply LogFile.clean_open.
  - vm_compute. reflexivity.
Defined.
