(* ===== verification/ValueStore.v ===== *)
(** * The content-addressed blob store, [crates/engine/src/value_store.rs]

    Large values live in files named by their hash, shared by every key with the
    same content and deleted, after an fsync, when the last reference is gone.
    The state holds the reference counts, the deferred deletions and the blobs on
    disk.  [put] and each deletion of [collect_garbage] hold the stripe lock of
    their hash, so each is one step; [step] interleaves them in any order.

    A count is a [u32] that a release build wraps around.  [put32] and [incr_ref32] are
    the operations at that width; [put] and [incr_ref] count without bound and agree
    with them below 2^32 - 1 references ([put32_put], [incr_ref32_incr_ref]), which is
    how the log uses them.  A count that wraps loses its blob ([wrapped_count]). *)

From stdpp Require Import base tactics list gmap sorting strings relations.
From Stdlib Require Import ZArith Lia.
From S2P Require Import Prelude Index.

Open Scope Z_scope.

(** What the engine uses of the crate [blake3]: a function to 32 bytes. *)
Class Blake3 := {
  blake3_hash : bytes -> bytes;
  blake3_length : forall v, length (blake3_hash v) = 32%nat;
}.

Module ValueStore.
Record t := mk {
  refs : gmap ContentHash Z;
  pending_delete : list ContentHash;
  blobs : gmap ContentHash bytes;
}.

Definition new (on_disk : gmap ContentHash bytes) : t := mk ∅ [] on_disk.

Definition refcount (self : t) (h : ContentHash) : Z := default 0 (refs self !! h).

(** [*c += 1] on a [u32], as a release build computes it. *)
Definition add32 (c : Z) : Z := (c + 1) mod (u32_max + 1).

Lemma add32_below c : 0 <= c < u32_max -> add32 c = c + 1.
Proof. intros Hc. unfold add32. apply Z.mod_small. lia. Qed.

Definition incr_ref_with (add : Z -> Z) (self : t) (h : ContentHash) : t :=
  mk (<[h := add (refcount self h)]> (refs self)) (pending_delete self) (blobs self).

Definition incr_ref32 : t -> ContentHash -> t := incr_ref_with add32.
Definition incr_ref : t -> ContentHash -> t := incr_ref_with (fun c => c + 1).

(** The flag says that the count reached zero. *)
Definition dec (self : t) (h : ContentHash) : bool * t :=
  match refs self !! h with
  | Some c =>
      let c := sat_sub c 1 in
      if decide (c = 0)
      then (true, mk (delete h (refs self)) (pending_delete self) (blobs self))
      else (false, mk (<[h := c]> (refs self)) (pending_delete self) (blobs self))
  | None => (false, self)
  end.

Definition unref (self : t) (h : ContentHash) : t :=
  let '(dead, self) := dec self h in
  if dead then mk (refs self) (pending_delete self ++ [h]) (blobs self) else self.

(** What the file system did to a blob write that failed: nothing, or a file with
    some content was left. *)
Inductive blob_fault := NoFile | Left (content : bytes).

Definition write_blob_durable (self : t) (h : ContentHash) (value : bytes)
    (fault : option blob_fault) : eresult unit * t :=
  match fault with
  | None => (Ok tt, mk (refs self) (pending_delete self) (<[h := value]> (blobs self)))
  | Some NoFile => (Err (Io (OtherIo "blob write")), self)
  | Some (Left c) =>
      (Err (Io (OtherIo "blob write")),
       mk (refs self) (pending_delete self) (<[h := c]> (blobs self)))
  end.

Definition get (self : t) (h : ContentHash) : eresult bytes :=
  ok_or (blobs self !! h) (Io (OtherIo "NotFound")).

(** One iteration of the loop of [collect_garbage]. *)
Definition collect_one (self : t) (h : ContentHash) : t :=
  if decide (refcount self h = 0)
  then mk (refs self) (pending_delete self) (delete h (blobs self)) else self.

Definition collect_garbage (self : t) : t :=
  let pending := pending_delete self in
  foldl collect_one (mk (refs self) [] (blobs self)) pending.

Definition clear (self : t) : t := mk ∅ [] ∅.

(** Every file of the directory is a blob, so the sweep looks at each one. *)
Definition sweep_orphans (self : t) : Z * t :=
  let orphans := filter (fun h => refs self !! h = None) (map_to_list (blobs self)).*1 in
  (zlen orphans,
   mk (refs self) (pending_delete self)
      (foldl (fun bs h => delete h bs) (blobs self) orphans)).

Definition blob_count (self : t) : nat := size (refs self).

Section Hashed.
Context {blake : Blake3}.

Definition content_hash (value : bytes) : ContentHash := take 16 (blake3_hash value).

Lemma content_hash_length v : length (content_hash v) = 16%nat.
Proof. unfold content_hash. rewrite length_take, blake3_length. done. Qed.

Definition put_with (add : Z -> Z) (self : t) (value : bytes) (fault : option blob_fault)
    : eresult ContentHash * t :=
  let h := content_hash value in
  let c := add (refcount self h) in
  let self := mk (<[h := c]> (refs self)) (pending_delete self) (blobs self) in
  if decide (c = 1) then
    let '(r, self) := write_blob_durable self h value fault in
    match r with
    | Err e => (Err e, (dec self h).2)
    | Ok _ => (Ok h, self)
    end
  else (Ok h, self).

Definition put32 : t -> bytes -> option blob_fault -> eresult ContentHash * t := put_with add32.
Definition put : t -> bytes -> option blob_fault -> eresult ContentHash * t := put_with (fun c => c + 1).

Lemma put32_put self v fault :
  0 <= refcount self (content_hash v) < u32_max -> put32 self v fault = put self v fault.
Proof. intros Hc. unfold put32, put, put_with. by rewrite add32_below. Qed.

Lemma incr_ref32_incr_ref self h : 0 <= refcount self h < u32_max -> incr_ref32 self h = incr_ref self h.
Proof. intros Hc. unfold incr_ref32, incr_ref, incr_ref_with. by rewrite add32_below. Qed.

(** ** The invariant *)

(** Counts are positive, and every referenced hash has its blob on disk. *)
Definition inv (self : t) : Prop :=
  forall h c, refs self !! h = Some c ->
    0 < c /\ exists b, blobs self !! h = Some b /\ content_hash b = h.

Lemma store_inv_new d : inv (new d).
Proof. intros h c. simpl. by rewrite lookup_empty. Qed.

Lemma store_inv_clear self : inv (clear self).
Proof. intros h c. simpl. by rewrite lookup_empty. Qed.

Lemma refcount_nonneg self h : inv self -> 0 <= refcount self h.
Proof.
  intros Hi. unfold refcount. destruct (refs self !! h) eqn:Hr; simpl; [|lia].
  apply Hi in Hr. lia.
Qed.

Lemma dec_blobs self h : blobs (dec self h).2 = blobs self.
Proof. unfold dec. repeat case_match; simplify_eq; try done; case_decide; done. Qed.

Lemma refcount_dec self h h' :
  inv self ->
  refcount (dec self h).2 h' =
  refcount self h' - (if decide (h = h' /\ 0 < refcount self h) then 1 else 0).
Proof.
  intros Hi. unfold dec, refcount. destruct (refs self !! h) as [c|] eqn:Hr; simpl.
  - destruct (Hi h c Hr) as [Hc _]. unfold sat_sub.
    repeat case_decide; simpl; destruct_and?; subst;
      rewrite ?lookup_delete, ?lookup_insert; repeat case_decide; subst; simpl;
      rewrite ?Hr; simpl; try lia; naive_solver lia.
  - rewrite decide_False by lia. lia.
Qed.

Lemma refs_dec_sub self h h' c :
  inv self -> refs (dec self h).2 !! h' = Some c ->
  0 < c /\ is_Some (refs self !! h').
Proof.
  intros Hi. unfold dec. destruct (refs self !! h) as [c0|] eqn:Hr; simpl; cycle 1.
  { intros H'. split; [by eapply Hi|eauto]. }
  destruct (Hi h c0 Hr) as [Hc _]. unfold sat_sub. case_decide; simpl.
  - rewrite lookup_delete. case_decide; [done|]. intros H'. split; [by eapply Hi|eauto].
  - rewrite lookup_insert. case_decide; [intros [= <-]; subst; split; [lia|eauto]|].
    intros H'. split; [by eapply Hi|eauto].
Qed.

Lemma inv_dec self h : inv self -> inv (dec self h).2.
Proof.
  intros Hi h' c Hr. destruct (refs_dec_sub self h h' c Hi Hr) as [Hc [c' Hc']].
  split; [done|]. rewrite dec_blobs. by eapply Hi.
Qed.

Lemma unref_eq self h :
  refs (unref self h) = refs (dec self h).2 /\ blobs (unref self h) = blobs self.
Proof.
  unfold unref. pose proof (dec_blobs self h). destruct (dec self h) as [[] s]; done.
Qed.

Lemma refcount_unref self h h' :
  inv self ->
  refcount (unref self h) h' =
  refcount self h' - (if decide (h = h' /\ 0 < refcount self h) then 1 else 0).
Proof.
  intros Hi. rewrite <- refcount_dec by done. unfold refcount. by rewrite (proj1 (unref_eq self h)).
Qed.

Lemma inv_unref self h : inv self -> inv (unref self h).
Proof.
  intros Hi h' c. destruct (unref_eq self h) as [-> Hb]. intros Hr.
  rewrite Hb, <- (dec_blobs self h). by eapply (inv_dec self h).
Qed.

Lemma refcount_insert self h c h' p b :
  refcount (mk (<[h := c]> (refs self)) p b) h' = if decide (h = h') then c else refcount self h'.
Proof. unfold refcount. simpl. rewrite lookup_insert. by case_decide. Qed.

Lemma refcount_0 self h : inv self -> refcount self h = 0 <-> refs self !! h = None.
Proof.
  intros Hi. unfold refcount. destruct (refs self !! h) eqn:Hr; simpl; [|done].
  apply Hi in Hr. split; [lia|done].
Qed.

(** Rolling back the first reference restores the counts. *)
Lemma dec_fresh self h p b :
  refs self !! h = None ->
  (dec (mk (<[h := 1]> (refs self)) p b) h).2 = mk (refs self) p b.
Proof.
  intros Hr. unfold dec. simpl. rewrite lookup_insert_eq. simpl.
  by rewrite delete_insert_id.
Qed.

(** The invariant speaks of the referenced blobs only. *)
Lemma inv_same_refs self p b :
  inv self -> (forall h, is_Some (refs self !! h) -> b !! h = blobs self !! h) ->
  inv (mk (refs self) p b).
Proof. intros Hi Hb h c Hr. simpl in *. rewrite Hb by eauto. by eapply Hi. Qed.

(** What [put] does: success takes one reference and the blob is there; failure
    leaves every count as it was. *)
Lemma put_spec self v fault r self' :
  inv self -> put self v fault = (r, self') ->
  inv self' /\ pending_delete self' = pending_delete self /\
  match r with
  | Ok h =>
      h = content_hash v /\ refs self' = <[h := refcount self h + 1]> (refs self) /\
      blobs self' = (if decide (refcount self h = 0) then <[h := v]> (blobs self) else blobs self)
  | Err _ => refs self' = refs self /\ refs self !! content_hash v = None /\
             forall h', h' <> content_hash v -> blobs self' !! h' = blobs self !! h'
  end.
Proof.
  intros Hi. unfold put, put_with. set (h := content_hash v).
  destruct (decide (refcount self h = 0)) as [H0|H0].
  - pose proof (proj1 (refcount_0 self h Hi) H0) as Hr. rewrite H0. simpl.
    destruct fault as [[|c]|]; simpl.
    + rewrite dec_fresh by done. intros [= <- <-]. by split_and!.
    + rewrite dec_fresh by done. intros [= <- <-]. split_and!; try done.
      * apply inv_same_refs; [done|]. intros h' [? Hh']. apply lookup_insert_ne. congruence.
      * intros h' Hh'. by apply lookup_insert_ne.
    + intros [= <- <-].
      split_and!; try done; [| by rewrite H0 | by rewrite decide_True].
      intros h' c. simpl. rewrite !lookup_insert. case_decide; subst; [|apply Hi].
      intros [= <-]. split; [lia|]. eauto.
  - pose proof (refcount_nonneg self h Hi). rewrite decide_False by lia.
    intros [= <- <-]. split_and!; try done; [| by rewrite decide_False].
    intros h' c. simpl. rewrite lookup_insert. case_decide as Hh; [|apply Hi].
    intros [= <-]. subst h'. split; [lia|].
    destruct (refs self !! h) eqn:Hr; [by eapply Hi|].
    by apply refcount_0 in Hr.
Qed.

(** A reference to a blob that is on disk. *)
Lemma inv_incr_ref self h b :
  inv self -> blobs self !! h = Some b -> content_hash b = h -> inv (incr_ref self h).
Proof.
  intros Hi Hb Hh h' c. cbn. rewrite lookup_insert. case_decide as Heq; [|apply Hi].
  intros [= <-]. subst h'. pose proof (refcount_nonneg self h Hi). split; [lia|eauto].
Qed.

Lemma inv_collect_one self h : inv self -> inv (collect_one self h).
Proof.
  intros Hi. unfold collect_one. case_decide as H0; [|done].
  apply refcount_0 in H0; [|done]. apply inv_same_refs; [done|].
  intros h' [c Hh']. apply lookup_delete_ne. congruence.
Qed.

Lemma refs_collect_one self h : refs (collect_one self h) = refs self.
Proof. unfold collect_one. by case_decide. Qed.

Lemma inv_collect_garbage self : inv self -> inv (collect_garbage self).
Proof.
  intros Hi. unfold collect_garbage.
  assert (Hi' : inv (mk (refs self) [] (blobs self))) by (by apply inv_same_refs).
  revert Hi'. generalize (mk (refs self) [] (blobs self)).
  induction (pending_delete self) as [|h hs IH]; intros s Hs; simpl; auto using inv_collect_one.
Qed.

(** Collection keeps the counts and every blob that is referenced. *)
Lemma collect_garbage_keeps self :
  refs (collect_garbage self) = refs self /\
  forall h, refcount self h <> 0 -> blobs (collect_garbage self) !! h = blobs self !! h.
Proof.
  unfold collect_garbage. set (s0 := mk (refs self) [] (blobs self)).
  assert (Hgen : forall hs s, refs s = refs self ->
    refs (foldl collect_one s hs) = refs self /\
    forall h, refcount self h <> 0 -> blobs (foldl collect_one s hs) !! h = blobs s !! h).
  { induction hs as [|h hs IH]; intros s Hs; simpl; [done|].
    destruct (IH (collect_one s h)) as [H1 H2]; [by rewrite refs_collect_one|].
    split; [done|]. intros h' Hh'. rewrite H2 by done. unfold collect_one.
    case_decide as H0; [|done]. apply lookup_delete_ne. intros ->.
    unfold refcount in *. rewrite Hs in H0. done. }
  destruct (Hgen (pending_delete self) s0 eq_refl) as [H1 H2]. done.
Qed.

Lemma foldl_delete {V : Type} (ks : list ContentHash) (m : gmap ContentHash V) h :
  foldl (fun bs k => delete k bs) m ks !! h = if decide (h ∈ ks) then None else m !! h.
Proof.
  revert m. induction ks as [|k ks IH]; intros m; simpl.
  - done.
  - rewrite IH, lookup_delete.
    destruct (decide (h ∈ ks)), (decide (h ∈ k :: ks)), (decide (k = h)); set_solver.
Qed.

(** The sweep removes exactly the blobs without a reference. *)
Lemma sweep_orphans_blobs self h :
  blobs (sweep_orphans self).2 !! h = if refs self !! h then blobs self !! h else None.
Proof.
  simpl. rewrite foldl_delete.
  destruct (refs self !! h) as [c|] eqn:Hr.
  - rewrite decide_False; [done|]. rewrite list_elem_of_filter. naive_solver.
  - case_decide as Hin; [done|]. apply eq_None_not_Some. intros [b Hb].
    apply Hin, list_elem_of_filter. split; [done|]. apply list_elem_of_fmap.
    exists (h, b). split; [done|]. by apply elem_of_map_to_list.
Qed.

Lemma inv_sweep self : inv self -> inv (sweep_orphans self).2.
Proof.
  intros Hi h c Hr. rewrite sweep_orphans_blobs. simpl in Hr. rewrite Hr. by eapply Hi.
Qed.

(** ** Interleavings *)

(** The store together with the blobs that running collectors have taken from
    the queue and not looked at yet. *)
Record world := mkWorld { store : t; taken : list ContentHash }.

(** A new reference is taken while fewer than 2^32 - 1 are held, and one without a
    write, as at open, for a blob that is on disk. *)
Inductive step : world -> world -> Prop :=
| step_put w v fault r s :
    refcount (store w) (content_hash v) < u32_max ->
    put32 (store w) v fault = (r, s) -> step w (mkWorld s (taken w))
| step_incr_ref w h b :
    refcount (store w) h < u32_max -> blobs (store w) !! h = Some b -> content_hash b = h ->
    step w (mkWorld (incr_ref32 (store w) h) (taken w))
| step_unref w h : step w (mkWorld (unref (store w) h) (taken w))
| step_gc_take w :
    step w (mkWorld (mk (refs (store w)) [] (blobs (store w)))
                    (taken w ++ pending_delete (store w)))
| step_gc_one w h hs hs' :
    taken w = hs ++ h :: hs' ->
    step w (mkWorld (collect_one (store w) h) (hs ++ hs'))
| step_sweep w : step w (mkWorld (sweep_orphans (store w)).2 (taken w))
| step_clear w : step w (mkWorld (clear (store w)) (taken w)).

Lemma step_inv w w' : step w w' -> inv (store w) -> inv (store w').
Proof.
  intros Hs Hi. destruct Hs as [w v fault r s Hc Hp|w h b Hc Hb Hh|w h|w|w h hs hs' Ht|w|w]; cbn [store].
  - rewrite put32_put in Hp by (split; [by apply refcount_nonneg|done]). by eapply put_spec.
  - rewrite incr_ref32_incr_ref by (split; [by apply refcount_nonneg|done]). by eapply inv_incr_ref.
  - by apply inv_unref.
  - by apply inv_same_refs.
  - by apply inv_collect_one.
  - by apply inv_sweep.
  - apply store_inv_clear.
Qed.

(** A collector that runs alone takes the queue and then each blob in turn. *)
Lemma collect_garbage_steps s :
  rtc step (mkWorld s []) (mkWorld (collect_garbage s) []).
Proof.
  eapply rtc_l; [apply step_gc_take|]. simpl. unfold collect_garbage.
  generalize (mk (refs s) [] (blobs s)). induction (pending_delete s) as [|h hs IH]; intros s1.
  { done. }
  eapply rtc_l; [by apply (step_gc_one _ h [] hs)|]. apply IH.
Qed.
End Hashed.
End ValueStore.

Section Contract.
Context {blake : Blake3}.

(** C27: No interleaving of puts (also failing ones), references taken to blobs that are
    on disk, dropped references, garbage collections, orphan sweeps and flushes ever
    loses a referenced blob: in every reachable state a hash with a positive count reads
    back a blob with that content hash.  Counts are [u32]; a reference is taken only
    while fewer than 2^32 - 1 are held. *)
Theorem blob_safety w w' h :
  ValueStore.inv (ValueStore.store w) -> rtc ValueStore.step w w' ->
  0 < ValueStore.refcount (ValueStore.store w') h ->
  exists b, ValueStore.get (ValueStore.store w') h = Ok b /\ ValueStore.content_hash b = h.
Proof.
  intros Hi Hs Hh.
  assert (Hi' : ValueStore.inv (ValueStore.store w'))
    by (induction Hs; eauto using ValueStore.step_inv).
  unfold ValueStore.refcount in Hh.
  destruct (ValueStore.refs (ValueStore.store w') !! h) as [c|] eqn:Hr; [|simpl in Hh; lia].
  destruct (Hi' h c Hr) as (_ & b & Hb & Hch). exists b. unfold ValueStore.get.
  by rewrite Hb.
Qed.

(** A successful put returns the content hash, takes one reference and leaves
    the value readable; content that is already referenced is not written again.
    A failed put changes no count. *)
Theorem put_functional s v fault r s' :
  ValueStore.inv s -> ValueStore.put s v fault = (r, s') ->
  let h := ValueStore.content_hash v in
  (forall b, ValueStore.blobs s !! h = Some b -> ValueStore.content_hash b = h -> b = v) ->
  match r with
  | Ok h' =>
      h' = h /\
      (forall k, ValueStore.refcount s' k
         = ValueStore.refcount s k + if decide (h = k) then 1 else 0) /\
      ValueStore.get s' h = Ok v /\
      (0 < ValueStore.refcount s h -> ValueStore.blobs s' = ValueStore.blobs s)
  | Err _ => forall k, ValueStore.refcount s' k = ValueStore.refcount s k
  end.
Proof.
  intros Hi Hp h Hcoll. destruct (ValueStore.put_spec _ _ _ _ _ Hi Hp) as (_ & _ & Hr).
  destruct r as [h'|e].
  - destruct Hr as (-> & Href & Hb). fold h in Href, Hb |- *. split; [done|]. split_and!.
    + intros k. unfold ValueStore.refcount at 1. rewrite Href, lookup_insert.
      destruct (decide (h = k)) as [Hk|]; simpl; [by rewrite <- Hk|]. unfold ValueStore.refcount. lia.
    + unfold ValueStore.get. rewrite Hb.
      destruct (decide (ValueStore.refcount s h = 0)) as [H0|H0]; [by rewrite lookup_insert_eq|].
      destruct (ValueStore.refs s !! h) as [c|] eqn:Hc.
      * destruct (Hi h c Hc) as (_ & b & Hbl & Hch). rewrite Hbl. simpl.
        by rewrite (Hcoll b Hbl Hch).
      * by apply ValueStore.refcount_0 in Hc.
    + intros Hpos. rewrite Hb, decide_False by lia. done.
  - intros k. unfold ValueStore.refcount. by rewrite (proj1 Hr).
Qed.

(** After the counts are rebuilt, the sweep at open removes exactly the blobs
    that nothing references, and returns how many it removed. *)
Theorem sweep_exact s n s' :
  ValueStore.sweep_orphans s = (n, s') ->
  (forall h, ValueStore.blobs s' !! h
     = if ValueStore.refs s !! h then ValueStore.blobs s !! h else None) /\
  n = Z.of_nat (size (ValueStore.blobs s)) - Z.of_nat (size (ValueStore.blobs s')).
Proof.
  intros Heq. assert (s' = (ValueStore.sweep_orphans s).2) as -> by (by rewrite Heq).
  split; [apply ValueStore.sweep_orphans_blobs|].
  unfold ValueStore.sweep_orphans in *. injection Heq as <-. cbn [snd ValueStore.blobs].
  rewrite <- !(size_dom (D := gset bytes)). set (os := filter _ _).
  assert (NoDup os) as Hnd by apply NoDup_filter, NoDup_fst_map_to_list.
  assert (forall h, h ∈ os -> is_Some (ValueStore.blobs s !! h)) as Hos.
  { intros h [_ ([h' b] & -> & Hb)%list_elem_of_fmap]%list_elem_of_filter.
    apply elem_of_map_to_list in Hb. eauto. }
  assert (dom (foldl (fun bs h => delete h bs) (ValueStore.blobs s) os)
    = dom (ValueStore.blobs s) ∖ list_to_set (C := gset bytes) os) as ->.
  { apply set_eq. intros h. rewrite elem_of_difference, elem_of_list_to_set, !elem_of_dom.
    rewrite ValueStore.foldl_delete. case_decide; split; naive_solver. }
  assert (list_to_set (C := gset bytes) os ⊆ dom (ValueStore.blobs s)) as Hsub.
  { intros h Hh%elem_of_list_to_set. apply elem_of_dom, Hos, Hh. }
  rewrite size_difference by done. apply subseteq_size in Hsub.
  rewrite size_list_to_set in * by done. unfold zlen. lia.
Qed.
End Contract.

(** ** Witnesses *)

(** A stand-in for BLAKE3: the first bytes of the value, padded to 32. *)
#[export, refine] Instance toy_blake3 : Blake3 := {|
  blake3_hash v := take 32 (v ++ replicate 32 0);
|}.
Proof. intros v. rewrite length_take, length_app, length_replicate. lia. Defined.

Definition ex_world : ValueStore.world :=
  ValueStore.mkWorld (ValueStore.new ∅) [].

(** A put, the last reference dropped, the collector takes the queue, the same
    content is put again and referenced once more before the collector reaches it. *)
Definition ex_blob : bytes := [1; 2; 3].
Definition ex_store1 := (ValueStore.put32 (ValueStore.new ∅) ex_blob None).2.
Definition ex_store2 := ValueStore.unref ex_store1 (ValueStore.content_hash ex_blob).
Definition ex_store3 := ValueStore.mk (ValueStore.refs ex_store2) [] (ValueStore.blobs ex_store2).
Definition ex_store4 :=
  ValueStore.incr_ref32 (ValueStore.put32 ex_store3 ex_blob None).2 (ValueStore.content_hash ex_blob).
Definition ex_store5 := ValueStore.collect_one ex_store4 (ValueStore.content_hash ex_blob).

Lemma ex_trace : rtc ValueStore.step ex_world (ValueStore.mkWorld ex_store5 []).
Proof.
  eapply rtc_l; [eapply (ValueStore.step_put ex_world ex_blob None); [by vm_compute|apply surjective_pairing]|].
  eapply rtc_l; [apply (ValueStore.step_unref _ (ValueStore.content_hash ex_blob))|].
  eapply rtc_l; [apply ValueStore.step_gc_take|].
  eapply rtc_l; [eapply (ValueStore.step_put _ ex_blob None); [by vm_compute|apply surjective_pairing]|].
  eapply rtc_l; [by eapply (ValueStore.step_incr_ref _ (ValueStore.content_hash ex_blob) ex_blob); vm_compute|].
  eapply rtc_l; [by apply (ValueStore.step_gc_one _ (ValueStore.content_hash ex_blob) [] [])|].
  apply rtc_refl.
Qed.

(** The reference after 2^32 - 1 others wraps the count to zero, and a collector that
    has the hash in its queue deletes the blob that they all name. *)
Lemma wrapped_count :
  let h := ValueStore.content_hash ex_blob in
  let s := ValueStore.mk {[ h := u32_max ]} [h] {[ h := ex_blob ]} in
  ValueStore.inv s /\ (ValueStore.put32 s ex_blob None).1 = Ok h /\
  ValueStore.get (ValueStore.collect_garbage (ValueStore.put32 s ex_blob None).2) h = Err (Io (OtherIo "NotFound")).
Proof.
  intros h s. split_and!; [|by vm_compute..]. intros h' c. cbn [ValueStore.refs ValueStore.blobs s].
  intros [<- <-]%lookup_singleton_Some. split; [done|]. exists ex_blob. by rewrite lookup_singleton_eq.
Qed.

Lemma blob_safety_witness :
  exists b, ValueStore.get ex_store5 (ValueStore.content_hash ex_blob) = Ok b /\
    ValueStore.content_hash b = ValueStore.content_hash ex_blob.
Proof.
  apply (blob_safety ex_world (ValueStore.mkWorld ex_store5 [])
    (ValueStore.content_hash ex_blob)).
  - apply ValueStore.store_inv_new.
  - apply ex_trace.
  - by vm_compute.
Defined.

Lemma put_functional_witness :
  let h := ValueStore.content_hash ex_blob in
  h = h /\
  (forall k, ValueStore.refcount ex_store1 k
     = ValueStore.refcount (ValueStore.new ∅) k + if decide (h = k) then 1 else 0) /\
  ValueStore.get ex_store1 h = Ok ex_blob /\
  (0 < ValueStore.refcount (ValueStore.new ∅) h ->
     ValueStore.blobs ex_store1 = ValueStore.blobs (ValueStore.new ∅)).
Proof.
  apply (put_functional (ValueStore.new ∅) ex_blob None
    (Ok (ValueStore.content_hash ex_blob)) ex_store1).
  - apply ValueStore.store_inv_new.
  - reflexivity.
  - intros b Hb. cbn [ValueStore.blobs ValueStore.new] in Hb. by rewrite lookup_empty in Hb.
Defined.

Lemma sweep_exact_witness :
  let s := ValueStore.mk {[ [1] := 1 ]} [] {[ [1] := [5]; [2] := [6] ]} in
  let s' := (ValueStore.sweep_orphans s).2 in
  (forall h, ValueStore.blobs s' !! h
     = if ValueStore.refs s !! h then ValueStore.blobs s !! h else None) /\
  1 = Z.of_nat (size (ValueStore.blobs s)) - Z.of_nat (size (ValueStore.blobs s')).
Proof. intros s s'. apply (sweep_exact s 1 s'). vm_compute. reflexivity. Defined.
