(* ===== verification/Recover.v ===== *)
(** * Recovery, [crates/engine/src/log/recover.rs]

    Opening a namespace rebuilds the index from the files on disk: the footer of
    every sealed file, and the records of the active file up to the first one
    that is torn or corrupt, where the file is cut.  The directory is a map from
    file ids to contents. *)

From stdpp Require Import base tactics list gmap sorting strings.
From Stdlib Require Import ZArith Lia.
From S2P Require Import Prelude Record Index LogFile.

Open Scope Z_scope.

Record OpenedFiles := mkOpenedFiles {
  of_sealed : list LogFile.t;
  of_active : LogFile.t;
  of_index : NsIndex.t;
}.

(** The [data-*.log] files in ascending order of their id. *)
Definition list_data_files (dir : gmap Z bytes) : list (Z * bytes) :=
  merge_sort (by_key fst) (map_to_list dir).

Definition apply_footer_entries (index : NsIndex.t) (file_id : Z)
    (entries : list FooterEntry.t) : NsIndex.t :=
  foldl (fun index e =>
    let entry := IndexEntry_new file_id (FooterEntry.record_offset e)
                   (FooterEntry.record_size e) (FooterEntry.tstamp_ms e) in
    let index := NsIndex.insert index (FooterEntry.key e) entry (FooterEntry.expires_at_ms e) in
    NsIndex.set_valsep index (FooterEntry.key e) (FooterEntry.value_hash e)) index entries.

Definition apply_record (index : NsIndex.t) (file_id offset : Z) (hdr : RecordHeader)
    (body : bytes) : NsIndex.t :=
  if decide (zlen body < key_size hdr) then index else
  let key := take (Z.to_nat (key_size hdr)) body in
  if has_flag (rflags hdr) flags.TOMBSTONE then (NsIndex.remove index key).2 else
  if has_flag (rflags hdr) flags.TTL_UPDATE then
    match NsIndex.get index key with
    | Some _ =>
        let ttl := if has_flag (rflags hdr) flags.NO_EXPIRY then None
                   else Some (expires_at_ms hdr) in
        NsIndex.set_ttl index key ttl
    | None => index
    end
  else
  if decide (u32_max < record_len hdr) then index else
  let entry := IndexEntry_new file_id offset (record_len hdr) (tstamp_ms hdr) in
  let ttl := if has_flag (rflags hdr) flags.NO_EXPIRY then None
             else Some (expires_at_ms hdr) in
  let index := NsIndex.insert index key entry ttl in
  if has_flag (rflags hdr) flags.VALUE_SEP then
    let vstart := key_size hdr in
    let vend := vstart + val_size hdr in
    if decide (val_size hdr = 16 /\ vend <= zlen body)
    then NsIndex.set_valsep index key
           (Some (take 16 (drop (Z.to_nat vstart) body)))
    else index
  else index.

Section Recovery.
Context {crc_impl : CrcFast}.

(** The reads and checks both scanning loops start with; [None] is a [break]. *)
Definition read_valid (file : LogFile.t) (offset : Z) : option (RecordHeader * bytes) :=
  let header_buf := LogFile.read_at file offset HEADER_LEN in
  if decide (zlen header_buf < HEADER_LEN) then None else
  match parse_header header_buf offset with
  | Err _ => None
  | Ok hdr =>
      let body_size := body_len hdr in
      let body := LogFile.read_at file (offset + HEADER_LEN) body_size in
      if decide (zlen body < body_size) then None else
      match verify_crc hdr header_buf body offset with
      | Err _ => None
      | Ok _ => Some (hdr, body)
      end
  end.

(** Every iteration advances by at least a header, so the size of the file is
    enough fuel for both loops. *)
Fixpoint rebuild_loop (fuel : nat) (file : LogFile.t) (file_id total offset : Z)
    (index : NsIndex.t) : NsIndex.t :=
  match fuel with
  | O => index
  | S fuel =>
      if decide (offset < total) then
        match read_valid file offset with
        | None => index
        | Some (hdr, body) =>
            rebuild_loop fuel file file_id total (offset + record_len hdr)
              (apply_record index file_id offset hdr body)
        end
      else index
  end.

Definition rebuild_from_records (file : LogFile.t) (file_id : Z) (index : NsIndex.t)
    : NsIndex.t :=
  let total := LogFile.size file in
  rebuild_loop (S (Z.to_nat total)) file file_id total 0 index.

Fixpoint replay_loop (fuel : nat) (file : LogFile.t) (file_id total offset last_good : Z)
    (index : NsIndex.t) : NsIndex.t * Z :=
  match fuel with
  | O => (index, last_good)
  | S fuel =>
      if decide (offset < total) then
        match read_valid file offset with
        | None => (index, last_good)
        | Some (hdr, body) =>
            let index := apply_record index file_id offset hdr body in
            let len := record_len hdr in
            let offset := offset + len in
            replay_loop fuel file file_id total offset offset index
        end
      else (index, last_good)
  end.

Definition replay_active (file : LogFile.t) (file_id : Z) (index : NsIndex.t)
    : LogFile.t * NsIndex.t :=
  let total := LogFile.size file in
  let '(index, last_good) := replay_loop (S (Z.to_nat total)) file file_id total 0 0 index in
  if decide (last_good < total)
  then (LogFile.truncate_to file last_good, index)
  else (file, index).

(** The loop over the sealed files. *)
Fixpoint open_sealed (data_files : list (Z * bytes)) (sealed : list LogFile.t)
    (index : NsIndex.t) : eresult (list LogFile.t * NsIndex.t) :=
  match data_files with
  | [] => Ok (sealed, index)
  | (file_id, content) :: data_files =>
      let file := LogFile.open file_id content in
      footer ← LogFile.read_footer file;
      let index := match footer with
                   | Some entries => apply_footer_entries index file_id entries
                   | None => rebuild_from_records file file_id index
                   end in
      open_sealed data_files (sealed ++ [file]) index
  end.

Definition open_namespace (dir : gmap Z bytes) : eresult OpenedFiles :=
  match rev (list_data_files dir) with
  | [] => Ok (mkOpenedFiles [] (LogFile.open 0 []) NsIndex.new)
  | (active_id, content) :: rest =>
      '(sealed, index) ← open_sealed (rev rest) [] NsIndex.new;
      let highest := LogFile.open active_id content in
      footer ← LogFile.read_footer highest;
      match footer with
      | Some entries =>
          let index := apply_footer_entries index active_id entries in
          let sealed := sealed ++ [highest] in
          next_id ← ok_or (if decide (active_id + 1 <= u32_max) then Some (active_id + 1) else None)
                      (BadRecord 0 "file_id overflow on clean-shutdown recovery");
          Ok (mkOpenedFiles sealed (LogFile.open next_id []) index)
      | None =>
          let active := LogFile.open active_id content in
          let '(active, index) := replay_active active active_id index in
          Ok (mkOpenedFiles sealed active index)
      end
  end.

(** ** Files that hold records *)

(** The fields of one record. *)
Record rec := mkRec {
  r_tstamp : Z; r_flags : Z; r_expires : Z;
  r_key : bytes; r_value : bytes; r_meta : bytes;
}.

Definition rec_bytes (r : rec) : bytes :=
  record_bytes (r_tstamp r) (r_flags r) (r_expires r) (r_key r) (r_value r) (r_meta r).
Definition rec_header (r : rec) : RecordHeader :=
  record_header (r_tstamp r) (r_flags r) (r_expires r) (r_key r) (r_value r) (r_meta r).
Definition rec_body (r : rec) : bytes := r_key r ++ r_value r ++ r_meta r.

Record rec_wf (r : rec) : Prop := {
  rec_wf_ts : is_u64 (r_tstamp r);
  rec_wf_exp : is_u64 (r_expires r);
  rec_wf_fits : fits (r_key r) (r_value r) (r_meta r);
}.

Lemma rec_bytes_length r : zlen (rec_bytes r) = HEADER_LEN + zlen (rec_body r).
Proof. unfold rec_bytes, rec_body. rewrite record_bytes_length, !zlen_app. lia. Qed.

Lemma rec_header_len r : record_len (rec_header r) = zlen (rec_bytes r).
Proof. apply record_header_len. Qed.

Lemma rec_body_len r : body_len (rec_header r) = zlen (rec_body r).
Proof.
  unfold body_len, rec_header, record_header, rec_body. cbn [key_size val_size meta_size].
  rewrite !zlen_app. lia.
Qed.

Lemma rec_bytes_split r : exists hd, rec_bytes r = hd ++ rec_body r /\ zlen hd = HEADER_LEN /\
  forall off, verify_crc (rec_header r) hd (rec_body r) off = Ok tt.
Proof.
  destruct (record_bytes_split (r_tstamp r) (r_flags r) (r_expires r) (r_key r)
    (r_value r) (r_meta r)) as (hd & Heq & Hhd & _).
  exists hd. split_and!; [done..|]. intros off. by apply verify_crc_record.
Qed.

Lemma parse_rec_header r hd rest off :
  rec_wf r -> rec_bytes r = hd ++ rec_body r -> zlen hd = HEADER_LEN ->
  parse_header (hd ++ rest) off = Ok (rec_header r).
Proof.
  intros [Hts Hexp Hfit] Heq Hhd.
  pose proof (parse_header_record (r_tstamp r) (r_flags r) (r_expires r) (r_key r) (r_value r)
    (r_meta r) [] off Hts Hexp Hfit) as Hp.
  fold (rec_bytes r) (rec_header r) in Hp. rewrite app_nil_r, Heq in Hp.
  rewrite <- Hp. apply parse_header_prefix; lia.
Qed.

Lemma read_at_mid file a b c off n :
  LogFile.data file = a ++ b ++ c -> off = zlen a -> n = zlen b ->
  LogFile.read_at file off n = b.
Proof.
  intros Hd -> ->. unfold LogFile.read_at, zlen. rewrite Hd, !Nat2Z.id.
  by rewrite drop_app_length, take_app_length.
Qed.

Lemma read_at_end file a b off n :
  LogFile.data file = a ++ b -> off = zlen a -> zlen b <= n ->
  LogFile.read_at file off n = b.
Proof.
  intros Hd -> Hn. unfold LogFile.read_at, zlen in *. rewrite Hd, Nat2Z.id.
  rewrite drop_app_length. apply take_ge. lia.
Qed.

(** The loops read a record that is there. *)
Lemma read_valid_rec file pre r post :
  rec_wf r -> LogFile.data file = pre ++ rec_bytes r ++ post ->
  read_valid file (zlen pre) = Some (rec_header r, rec_body r).
Proof.
  intros Hwf Hd. destruct (rec_bytes_split r) as (hd & Heq & Hhd & Hcrc).
  unfold read_valid.
  rewrite (read_at_mid file pre hd (rec_body r ++ post))
    by (done || (rewrite Hd, Heq, <- app_assoc; done)).
  rewrite decide_False by lia.
  rewrite <- (app_nil_r hd) at 1. rewrite (parse_rec_header r hd [] _ Hwf Heq Hhd).
  rewrite rec_body_len, (read_at_mid file (pre ++ hd) (rec_body r) post)
    by (rewrite ?Hd, ?Heq, ?zlen_app, <- ?app_assoc; (done || lia)).
  rewrite decide_False by lia. by rewrite Hcrc.
Qed.

(** They stop at a record that was cut short, wherever it was cut. *)
Lemma read_valid_torn file pre r n :
  rec_wf r -> (n < length (rec_bytes r))%nat ->
  LogFile.data file = pre ++ take n (rec_bytes r) ->
  read_valid file (zlen pre) = None.
Proof.
  intros Hwf Hn Hd. destruct (rec_bytes_split r) as (hd & Heq & Hhd & Hcrc).
  unfold read_valid. unfold HEADER_LEN in *.
  assert (length hd = 37%nat) as Hhd' by zlia.
  destruct (decide (n < 37)%nat) as [Hlt|Hge].
  - rewrite (read_at_end file pre (take n (rec_bytes r)))
      by (done || (unfold zlen; rewrite length_take; lia)).
    rewrite decide_True; [done|]. unfold zlen. rewrite length_take. lia.
  - assert (take n (rec_bytes r) = hd ++ take (n - 37) (rec_body r)) as Ht.
    { rewrite Heq, take_app_ge by lia. by rewrite Hhd'. }
    rewrite Ht in Hd.
    rewrite (read_at_mid file pre hd (take (n - 37) (rec_body r))) by done.
    rewrite decide_False by lia.
    rewrite <- (app_nil_r hd). rewrite (parse_rec_header r hd [] _ Hwf Heq Hhd).
    rewrite rec_body_len.
    assert (zlen (take (n - 37) (rec_body r)) < zlen (rec_body r)) as Hshort.
    { unfold zlen. rewrite length_take. rewrite Heq, length_app in Hn. lia. }
    rewrite (read_at_end file (pre ++ hd) (take (n - 37) (rec_body r)))
      by (rewrite ?Hd, ?zlen_app, <- ?app_assoc; (done || lia)).
    by rewrite decide_True by done.
Qed.

(** ** Replaying a sequence of records *)

Definition recs_bytes (rs : list rec) : bytes := concat (rec_bytes <$> rs).

Definition apply_rec (file_id offset : Z) (index : NsIndex.t) (r : rec) : NsIndex.t :=
  apply_record index file_id offset (rec_header r) (rec_body r).

(** The index after the records, the first of which is at [offset]. *)
Fixpoint apply_recs (file_id offset : Z) (index : NsIndex.t) (rs : list rec) : NsIndex.t :=
  match rs with
  | [] => index
  | r :: rs => apply_recs file_id (offset + zlen (rec_bytes r)) (apply_rec file_id offset index r) rs
  end.

Lemma recs_bytes_cons r rs : recs_bytes (r :: rs) = rec_bytes r ++ recs_bytes rs.
Proof. reflexivity. Qed.

Lemma recs_bytes_app rs1 rs2 : recs_bytes (rs1 ++ rs2) = recs_bytes rs1 ++ recs_bytes rs2.
Proof. unfold recs_bytes. by rewrite fmap_app, concat_app. Qed.

Lemma apply_recs_app file_id rs1 : forall offset index rs2,
  apply_recs file_id offset index (rs1 ++ rs2)
  = apply_recs file_id (offset + zlen (recs_bytes rs1))
      (apply_recs file_id offset index rs1) rs2.
Proof.
  induction rs1 as [|r rs1 IH]; intros; cbn [app apply_recs]; [by rewrite Z.add_0_r|].
  rewrite IH, recs_bytes_cons, zlen_app. f_equal. lia.
Qed.

(** A record that writes a value, with its expiry. *)
Definition rec_ttl (r : rec) : option Z :=
  if has_flag (r_flags r) flags.NO_EXPIRY then None else Some (r_expires r).

Definition is_put (r : rec) : Prop :=
  has_flag (r_flags r) flags.TOMBSTONE = false /\
  has_flag (r_flags r) flags.TTL_UPDATE = false.

Definition put_valsep (r : rec) : option ContentHash :=
  if has_flag (r_flags r) flags.VALUE_SEP then Some (r_value r) else None.

Lemma take_key r : take (Z.to_nat (key_size (rec_header r))) (rec_body r) = r_key r.
Proof.
  unfold rec_header, record_header, rec_body, zlen. cbn [key_size].
  by rewrite Nat2Z.id, take_app_length.
Qed.

Lemma key_in_body r : ~ zlen (rec_body r) < key_size (rec_header r).
Proof.
  unfold rec_header, record_header, rec_body. cbn [key_size]. rewrite !zlen_app. zlia.
Qed.

Lemma rec_len_u32 r : rec_wf r -> ~ u32_max < record_len (rec_header r).
Proof.
  intros [_ _ Hf]. rewrite rec_header_len, rec_bytes_length. unfold fits in Hf.
  unfold rec_body. rewrite !zlen_app. lia.
Qed.

(** What each kind of record does to the index. *)
Lemma apply_rec_put fid off idx r :
  rec_wf r -> is_put r ->
  (has_flag (r_flags r) flags.VALUE_SEP = true -> length (r_value r) = 16%nat) ->
  let i := NsIndex.insert idx (r_key r)
             (IndexEntry_new fid off (zlen (rec_bytes r)) (r_tstamp r)) (rec_ttl r) in
  apply_rec fid off idx r
  = match put_valsep r with
    | Some h => NsIndex.set_valsep i (r_key r) (Some h)
    | None => i
    end.
Proof.
  intros Hwf [Ht Hu] Hlen i. unfold apply_rec, apply_record.
  rewrite decide_False by apply key_in_body. rewrite take_key.
  change (rflags (rec_header r)) with (r_flags r). rewrite Ht, Hu.
  rewrite decide_False by (by apply rec_len_u32). rewrite rec_header_len.
  unfold put_valsep. change (tstamp_ms (rec_header r)) with (r_tstamp r).
  change (expires_at_ms (rec_header r)) with (r_expires r). fold (rec_ttl r) i.
  destruct (has_flag (r_flags r) flags.VALUE_SEP); [|done]. specialize (Hlen eq_refl).
  unfold rec_header, record_header, rec_body. cbn [key_size val_size].
  rewrite decide_True by (rewrite !zlen_app; zlia).
  do 2 f_equal. unfold zlen. rewrite Nat2Z.id, drop_app_length, <- Hlen.
  by rewrite take_app_length.
Qed.

Lemma apply_rec_tombstone fid off idx r :
  has_flag (r_flags r) flags.TOMBSTONE = true ->
  apply_rec fid off idx r = (NsIndex.remove idx (r_key r)).2.
Proof.
  intros Ht. unfold apply_rec, apply_record. rewrite decide_False by apply key_in_body.
  rewrite take_key. change (rflags (rec_header r)) with (r_flags r). by rewrite Ht.
Qed.

Lemma apply_rec_ttl fid off idx r :
  has_flag (r_flags r) flags.TOMBSTONE = false ->
  has_flag (r_flags r) flags.TTL_UPDATE = true ->
  is_Some (NsIndex.get idx (r_key r)) ->
  apply_rec fid off idx r = NsIndex.set_ttl idx (r_key r) (rec_ttl r).
Proof.
  intros Ht Hu [e He]. unfold apply_rec, apply_record. rewrite decide_False by apply key_in_body.
  rewrite take_key. change (rflags (rec_header r)) with (r_flags r). by rewrite Ht, Hu, He.
Qed.

(** What can follow the records of a file that was not closed: nothing, or the
    start of a record whose write did not finish. *)
Definition torn_tail (tail : bytes) : Prop :=
  exists r n, rec_wf r /\ (n < length (rec_bytes r))%nat /\ tail = take n (rec_bytes r).

Lemma rec_bytes_pos r : 37 <= zlen (rec_bytes r).
Proof. rewrite rec_bytes_length. unfold HEADER_LEN. zlia. Qed.

Lemma replay_loop_recs file file_id tail rs : forall fuel pre index,
  Forall rec_wf rs -> torn_tail tail ->
  LogFile.data file = pre ++ recs_bytes rs ++ tail ->
  (length rs < fuel)%nat ->
  replay_loop fuel file file_id (LogFile.size file) (zlen pre) (zlen pre) index
  = (apply_recs file_id (zlen pre) index rs, zlen pre + zlen (recs_bytes rs)).
Proof.
  induction rs as [|r rs IH]; intros fuel pre index Hwf Ht Hd Hfuel;
    (destruct fuel as [|fuel]; simpl in Hfuel; [lia|]); cbn [replay_loop apply_recs].
  - rewrite Z.add_0_r. case_decide; [|done].
    destruct Ht as (r & n & Hr & Hn & ->). by rewrite (read_valid_torn file pre r n).
  - apply Forall_cons in Hwf as [Hr Hwf]. rewrite recs_bytes_cons, <- app_assoc in Hd. pose proof (rec_bytes_pos r).
    rewrite decide_True by (unfold LogFile.size; rewrite Hd, !zlen_app; zlia).
    rewrite (read_valid_rec file pre r (recs_bytes rs ++ tail)) by done.
    rewrite rec_header_len, <- zlen_app.
    rewrite (IH fuel (pre ++ rec_bytes r)); [|done|done|by rewrite <- app_assoc|lia].
    rewrite recs_bytes_cons, !zlen_app. unfold apply_rec. f_equal. lia.
Qed.

Lemma recs_bytes_length_le rs : (length rs <= length (recs_bytes rs))%nat.
Proof.
  induction rs as [|r rs IH]; [done|]. rewrite recs_bytes_cons, length_app. simpl.
  pose proof (rec_bytes_pos r). zlia.
Qed.

(** Replaying a file of records with a torn tail applies every record and cuts
    the file at the end of the last one. *)
Lemma replay_active_recs file_id rs tail index :
  Forall rec_wf rs -> torn_tail tail ->
  replay_active (LogFile.open file_id (recs_bytes rs ++ tail)) file_id index
  = (LogFile.open file_id (recs_bytes rs), apply_recs file_id 0 index rs).
Proof.
  intros Hwf Ht. unfold replay_active.
  set (file := LogFile.open file_id (recs_bytes rs ++ tail)).
  change 0 with (zlen (@nil Z)) at 1 2.
  rewrite (replay_loop_recs file file_id tail rs _ [] index); [|done..|].
  2: { unfold LogFile.size, file. cbn [LogFile.data LogFile.open].
       pose proof (recs_bytes_length_le rs). rewrite zlen_app. zlia. }
  change (zlen []) with 0. rewrite Z.add_0_l.
  unfold LogFile.size, file. cbn [LogFile.data LogFile.open]. case_decide as Hlt.
  - unfold LogFile.truncate_to, LogFile.open. cbn.
    rewrite zlen_app. unfold zlen. rewrite Nat2Z.id, take_app_length.
    replace (Z.to_nat _) with 0%nat by lia. by rewrite app_nil_r.
  - rewrite zlen_app in Hlt. destruct tail; [by rewrite app_nil_r|].
    rewrite zlen_cons in Hlt. zlia.
Qed.

(** The fallback scan of a sealed file computes the same index as a replay. *)
Lemma rebuild_replay fuel : forall file file_id total offset lg index,
  rebuild_loop fuel file file_id total offset index
  = (replay_loop fuel file file_id total offset lg index).1.
Proof.
  induction fuel as [|fuel IH]; intros; cbn [rebuild_loop replay_loop]; [done|].
  case_decide; [|done]. destruct (read_valid file offset) as [[hdr body]|]; [apply IH|done].
Qed.

Lemma rebuild_from_records_recs file_id rs tail index :
  Forall rec_wf rs -> torn_tail tail ->
  rebuild_from_records (LogFile.open file_id (recs_bytes rs ++ tail)) file_id index
  = apply_recs file_id 0 index rs.
Proof.
  intros Hwf Ht. unfold rebuild_from_records. rewrite (rebuild_replay _ _ _ _ _ 0).
  pose proof (replay_active_recs file_id rs tail index Hwf Ht) as Hr.
  unfold replay_active in Hr. destruct (replay_loop _ _ _ _ _ _ _) as [idx lg].
  case_decide; by simplify_eq.
Qed.
End Recovery.
