(* ===== verification/NsLog.v ===== *)
(** * The namespace log, [crates/engine/src/log/mod.rs]

    [NamespaceLog] ties the parts together: a write takes a revision, stores a
    large value as a blob, appends a record to the active file, updates the index
    and drops the blob the key had before.  Every method is a computation in the
    state-and-error monad [ST], so a method that returns early keeps the state it
    has reached.  Each method is one uninterrupted step; the clock readings and
    the failures of the file system are arguments. *)

From stdpp Require Import base tactics list gmap sorting strings.
From Stdlib Require Import ZArith Lia.
From S2P Require Import Prelude Record Index LogFile ValueStore Recover.

Open Scope Z_scope.

(** [LogConfig] and its default. *)
Record LogConfig := mkLogConfig {
  rotate_threshold : Z;
  fanout : nat;
  value_sep_threshold : Z;
}.

Definition default_config : LogConfig := mkLogConfig (Z.shiftl 1 30) 8 (128 * 1024).

(** [WriteCondition] and its [check]. *)
Inductive WriteCondition :=
| KeyAbsent
| KeyPresent
| Revision (rev : Z).

Definition cond_check (cond : WriteCondition) (current_rev : option Z) : bool :=
  match cond with
  | KeyAbsent => bool_decide (current_rev = None)
  | KeyPresent => bool_decide (is_Some current_rev)
  | Revision rev => bool_decide (current_rev = Some rev)
  end.

(** What the file system does to one method call: to the write of a blob, to the
    append of its records, to the two appends of a footer and the fsync after them,
    to the opening of a new active file and to the fsync of the active one.  A file
    that does not open is not created. *)
Record faults := mkFaults {
  f_blob : option ValueStore.blob_fault;
  f_append : option nat;
  f_footer_body : option nat;
  f_footer_trailer : option nat;
  f_footer_sync : option IoKind;
  f_open : option IoKind;
  f_sync : option IoKind;
}.
Definition no_faults : faults := mkFaults None None None None None None None.

Module NsLog.
Record t := mk {
  values : ValueStore.t;
  index : NsIndex.t;
  sealed : gmap Z LogFile.t;
  level : gmap Z Z;
  active : LogFile.t;
  config : LogConfig;
  compaction_bytes : Z;
  unsynced_bytes : Z;
  last_tstamp : Z;
  reclaim_in_progress : bool;
  rotate_in_progress : bool;
  frozen : bool;
  in_flight_writes : Z;
}.

Abbreviation M := (ST t EngineError).

Definition set_values (v : ValueStore.t) (s : t) : t :=
  mk v (index s) (sealed s) (level s) (active s) (config s) (compaction_bytes s)
     (unsynced_bytes s) (last_tstamp s) (reclaim_in_progress s) (rotate_in_progress s)
     (frozen s) (in_flight_writes s).
Definition set_index (i : NsIndex.t) (s : t) : t :=
  mk (values s) i (sealed s) (level s) (active s) (config s) (compaction_bytes s)
     (unsynced_bytes s) (last_tstamp s) (reclaim_in_progress s) (rotate_in_progress s)
     (frozen s) (in_flight_writes s).
Definition set_sealed (m : gmap Z LogFile.t) (s : t) : t :=
  mk (values s) (index s) m (level s) (active s) (config s) (compaction_bytes s)
     (unsynced_bytes s) (last_tstamp s) (reclaim_in_progress s) (rotate_in_progress s)
     (frozen s) (in_flight_writes s).
Definition set_level (l : gmap Z Z) (s : t) : t :=
  mk (values s) (index s) (sealed s) l (active s) (config s) (compaction_bytes s)
     (unsynced_bytes s) (last_tstamp s) (reclaim_in_progress s) (rotate_in_progress s)
     (frozen s) (in_flight_writes s).
Definition set_active (a : LogFile.t) (s : t) : t :=
  mk (values s) (index s) (sealed s) (level s) a (config s) (compaction_bytes s)
     (unsynced_bytes s) (last_tstamp s) (reclaim_in_progress s) (rotate_in_progress s)
     (frozen s) (in_flight_writes s).
Definition set_compaction (c : Z) (s : t) : t :=
  mk (values s) (index s) (sealed s) (level s) (active s) (config s) c
     (unsynced_bytes s) (last_tstamp s) (reclaim_in_progress s) (rotate_in_progress s)
     (frozen s) (in_flight_writes s).
Definition set_unsynced (u : Z) (s : t) : t :=
  mk (values s) (index s) (sealed s) (level s) (active s) (config s) (compaction_bytes s)
     u (last_tstamp s) (reclaim_in_progress s) (rotate_in_progress s)
     (frozen s) (in_flight_writes s).
Definition set_last_tstamp (ts : Z) (s : t) : t :=
  mk (values s) (index s) (sealed s) (level s) (active s) (config s) (compaction_bytes s)
     (unsynced_bytes s) ts (reclaim_in_progress s) (rotate_in_progress s)
     (frozen s) (in_flight_writes s).
Definition set_reclaiming (b : bool) (s : t) : t :=
  mk (values s) (index s) (sealed s) (level s) (active s) (config s) (compaction_bytes s)
     (unsynced_bytes s) (last_tstamp s) b (rotate_in_progress s)
     (frozen s) (in_flight_writes s).
Definition set_rotating (b : bool) (s : t) : t :=
  mk (values s) (index s) (sealed s) (level s) (active s) (config s) (compaction_bytes s)
     (unsynced_bytes s) (last_tstamp s) (reclaim_in_progress s) b
     (frozen s) (in_flight_writes s).
Definition set_frozen (b : bool) (s : t) : t :=
  mk (values s) (index s) (sealed s) (level s) (active s) (config s) (compaction_bytes s)
     (unsynced_bytes s) (last_tstamp s) (reclaim_in_progress s) (rotate_in_progress s)
     b (in_flight_writes s).
Definition set_in_flight (n : Z) (s : t) : t :=
  mk (values s) (index s) (sealed s) (level s) (active s) (config s) (compaction_bytes s)
     (unsynced_bytes s) (last_tstamp s) (reclaim_in_progress s) (rotate_in_progress s)
     (frozen s) n.

Section Ops.
Context {crc_impl : CrcFast} {blake : Blake3}.

(** ** Opening *)

(** The largest of a list of ids, [unwrap_or(0)]. *)
Definition max_or_0 (ids : list Z) : Z := foldr Z.max 0 ids.

(** [dir] are the data files, [blobs] the files under [values/]. *)
Definition open (dir : gmap Z bytes) (blobs : gmap ContentHash bytes) (config : LogConfig)
    : eresult t :=
  opened ← open_namespace dir;
  let sealed : gmap Z LogFile.t :=
    list_to_map ((fun f => (LogFile.file_id f, f)) <$> of_sealed opened) in
  let level := (fun _ => 0) <$> sealed in
  let values := foldl (fun v kh => ValueStore.incr_ref v kh.2) (ValueStore.new blobs)
                  (NsIndex.valsep_iter (of_index opened)) in
  let values := (ValueStore.sweep_orphans values).2 in
  let max_tstamp := max_or_0 ((fun ke => ie_tstamp_ms ke.2) <$> NsIndex.iter (of_index opened)) in
  Ok (mk values (of_index opened) sealed level (of_active opened) config 0 0 max_tstamp
        false false false 0).

Definition len (self : t) : nat := NsIndex.len (index self).
Definition is_empty (self : t) : bool := NsIndex.is_empty (index self).
Definition last_revision (self : t) : Z := last_tstamp self.
Definition sealed_file_count (self : t) : nat := size (sealed self).

(** ** The pieces of a write *)

Definition freeze (self : t) : t := set_frozen true self.
Definition unfreeze (self : t) : t := set_frozen false self.

(** [begin_write] with the guard that decrements when the method returns. *)
Definition with_write_guard {A} (body : M A) : M A := fun self =>
  if frozen self then (Err Frozen, self) else
  let self := set_in_flight (in_flight_writes self + 1) self in
  let '(r, self) := body self in
  (r, set_in_flight (sat_sub (in_flight_writes self) 1) self).

Definition next_tstamp (now : Z) : M Z := fun self =>
  let last := last_tstamp self in
  let next := if decide (now > last) then now else last + 1 in
  (Ok next, set_last_tstamp next self).

(** The flags and the expiry field for [expires_at_ms]. *)
Definition expiry_fields (flags0 : Z) (expires_at_ms : option Z) : Z * Z :=
  match expires_at_ms with
  | Some ms => (flags0, ms)
  | None => (Z.lor flags0 flags.NO_EXPIRY, 0)
  end.

Definition maybe_separate (value : bytes) (fl : Z) (fault : option ValueStore.blob_fault)
    : M (option ContentHash * Z) := fun self =>
  if decide (value_sep_threshold (config self) <= zlen value) then
    let fl := Z.lor fl flags.VALUE_SEP in
    let '(r, v) := ValueStore.put (values self) value fault in
    let self := set_values v self in
    match r with
    | Ok h => (Ok (Some h, fl), self)
    | Err e => (Err e, self)
    end
  else (Ok (None, fl), self).

(** Append to the active file; on failure drop the blob references taken. *)
Definition append_active (buf : bytes) (rollback : list ContentHash) (io : faults) : M Z :=
  fun self =>
  let '(r, a) := LogFile.append (active self) buf (f_append io) in
  let self := set_active a self in
  match r with
  | Ok offset => (Ok offset, self)
  | Err e => (Err e, set_values (foldl ValueStore.unref (values self) rollback) self)
  end.

Definition add_unsynced (n : Z) : M unit :=
  st_modify (fun self => set_unsynced (unsynced_bytes self + n) self).

(** Returns the blob the key had before. *)
Definition apply_valsep_insert (key : bytes) (entry : IndexEntry) (expires_at_ms : option Z)
    (sep_hash : option ContentHash) : M (option ContentHash) := fun self =>
  let idx := index self in
  let old := NsIndex.get_valsep idx key in
  let idx := NsIndex.insert idx key entry expires_at_ms in
  let idx := NsIndex.set_valsep idx key sep_hash in
  (Ok old, set_index idx self).

Definition unref_opt (h : option ContentHash) : M unit :=
  st_modify (fun self =>
    match h with
    | Some h => set_values (ValueStore.unref (values self) h) self
    | None => self
    end).

(** ** Rotation *)

(** The footer of a file: the keys of the index that live in it. *)
Definition footer_for (idx : NsIndex.t) (id : Z) : list FooterEntry.t :=
  (fun ke => FooterEntry.mk ke.1 (record_offset ke.2) (record_size ke.2)
               (NsIndex.get_ttl idx ke.1) (ie_tstamp_ms ke.2) (NsIndex.get_valsep idx ke.1))
  <$> filter (fun ke => file_id ke.2 = id) (NsIndex.iter idx).

Definition next_file_id (self : t) : eresult Z :=
  let m := Z.max (max_or_0 (map_to_list (sealed self)).*1) (LogFile.file_id (active self)) in
  if decide (m + 1 <= u32_max) then Ok (m + 1)
  else Err (CapacityExceeded "file_id overflow: namespace has too many log files").

(** Move the active file to the sealed ones and open a new one; when it does not
    open, the old one is among the sealed files and is still the active one. *)
Definition swap_active (io : faults) : M unit :=
  self ← st_get;
  next_id ← st_lift (next_file_id self);
  st_modify (fun self =>
    set_sealed (<[LogFile.file_id (active self) := active self]> (sealed self)) self);;
  st_lift (io_step (f_open io));;
  st_modify (fun self => set_unsynced 0 (set_active (LogFile.open next_id []) self)).

Definition write_active_footer (io : faults) : M unit := fun self =>
  let old_active := active self in
  let footer := footer_for (index self) (LogFile.file_id old_active) in
  let '(r, a) := LogFile.write_footer old_active footer (f_footer_body io) (f_footer_trailer io) (f_footer_sync io) in
  (r, set_active a self).

Definition rotate_active_inner (io : faults) : M unit :=
  write_active_footer io;; swap_active io.

Definition rotate_active (io : faults) : M unit := fun self =>
  if rotate_in_progress self then (Ok tt, self) else
  let '(r, self) := rotate_active_inner io (set_rotating true self) in
  (r, set_rotating false self).

Definition maybe_rotate (io : faults) : M unit := fun self =>
  if decide (rotate_threshold (config self) <= LogFile.write_offset (active self))
  then rotate_active io self else (Ok tt, self).

(** ** Writes *)

(** The part of [put_full] and [put_full_cond] after the condition. *)
Definition put_record (key value metadata : bytes) (expires_at_ms : option Z)
    (now : Z) (io : faults) : M Z :=
  tstamp ← next_tstamp now;
  let '(fl, exp) := expiry_fields 0 expires_at_ms in
  '(sep_hash, fl) ← maybe_separate value fl (f_blob io);
  let stored := default value sep_hash in
  buf ← st_lift (encode_into [] tstamp fl exp key stored metadata);
  let record_size := zlen buf mod 2 ^ 32 in
  self ← st_get;
  let fid := LogFile.file_id (active self) in
  offset ← append_active buf (option_list sep_hash) io;
  add_unsynced record_size;;
  let entry := IndexEntry_new fid offset record_size tstamp in
  old_hash ← apply_valsep_insert key entry expires_at_ms sep_hash;
  unref_opt old_hash;;
  maybe_rotate io;;
  mret tstamp.

Definition put_full (key value metadata : bytes) (expires_at_ms : option Z)
    (now : Z) (io : faults) : M Z :=
  with_write_guard (put_record key value metadata expires_at_ms now io).

Definition live_rev (idx : NsIndex.t) (key : bytes) (now : Z) : option Z :=
  if NsIndex.is_expired idx key now then None
  else ie_tstamp_ms <$> NsIndex.get idx key.

(** [now] is the caller's time for the expiry check, [clock] the reading that
    [next_tstamp] takes. *)
Definition put_full_cond (key value metadata : bytes) (expires_at_ms : option Z)
    (cond : WriteCondition) (now clock : Z) (io : faults) : M (option Z) :=
  with_write_guard (
    self ← st_get;
    if cond_check cond (live_rev (index self) key now)
    then ts ← put_record key value metadata expires_at_ms clock io; mret (Some ts)
    else mret None).

(** The encoding loop of [put_many]: [clock] gives the successive readings and
    [bfs] the outcomes of the blob writes.  The accumulator holds the buffer, the
    layout and the blob hashes. *)
Fixpoint encode_pairs (pairs : list (bytes * bytes)) (clock : list Z)
    (bfs : list (option ValueStore.blob_fault))
    (buf : bytes) (layout : list (Z * Z * Z)) (hashes : list (option ContentHash))
    : M (bytes * list (Z * Z * Z) * list (option ContentHash)) :=
  match pairs with
  | [] => mret (buf, layout, hashes)
  | (k, v) :: pairs =>
      tstamp ← next_tstamp (default 0 (head clock));
      '(sh, fl) ← maybe_separate v flags.NO_EXPIRY (default None (head bfs));
      let stored := default v sh in
      let start := zlen buf in
      buf ← st_lift (encode_into buf tstamp fl 0 k stored []);
      let record_size := (zlen buf - start) mod 2 ^ 32 in
      encode_pairs pairs (tail clock) (tail bfs) buf (layout ++ [(start, record_size, tstamp)])
        (hashes ++ [sh])
  end.

(** The commit loop of [put_many] over the zipped pairs; returns the hashes the
    keys had before. *)
Fixpoint commit_pairs (fid base : Z) (pairs : list (bytes * bytes))
    (layout : list (Z * Z * Z)) (hashes : list (option ContentHash))
    (idx : NsIndex.t) (old : list ContentHash) : NsIndex.t * list ContentHash :=
  match pairs, layout, hashes with
  | (k, _) :: pairs, (rel_start, size, tstamp) :: layout, sh :: hashes =>
      let entry := IndexEntry_new fid (base + rel_start) size tstamp in
      let old := match NsIndex.get_valsep idx k with Some oh => old ++ [oh] | None => old end in
      let idx := NsIndex.insert idx k entry None in
      let idx := NsIndex.set_valsep idx k sh in
      commit_pairs fid base pairs layout hashes idx old
  | _, _, _ => (idx, old)
  end.

Definition put_many (pairs : list (bytes * bytes)) (clock : list Z)
    (bfs : list (option ValueStore.blob_fault)) (io : faults) : M (list Z) :=
  with_write_guard (
    if decide (pairs = []) then mret [] else
    '(buf, layout, hashes) ← encode_pairs pairs clock bfs [] [] [];
    self ← st_get;
    let fid := LogFile.file_id (active self) in
    base_offset ← append_active buf (omap id hashes) io;
    add_unsynced (zlen buf);;
    self ← st_get;
    let '(idx, old) := commit_pairs fid base_offset pairs layout hashes (index self) [] in
    st_modify (set_index idx);;
    st_modify (fun self => set_values (foldl ValueStore.unref (values self) old) self);;
    maybe_rotate io;;
    mret ((fun l => l.2) <$> layout)).

(** The tail of both tombstones: append the record, then drop the blob. *)
Definition append_tombstone (key : bytes) (old_hash : option ContentHash) (now : Z)
    (io : faults) : M Z :=
  tstamp ← next_tstamp now;
  buf ← st_lift (encode_into [] tstamp flags.TOMBSTONE 0 key [] []);
  _ ← append_active buf [] io;
  add_unsynced (zlen buf);;
  unref_opt old_hash;;
  mret tstamp.

Definition tombstone (key : bytes) (now : Z) (io : faults) : M (option Z) :=
  with_write_guard (
    self ← st_get;
    let h := NsIndex.get_valsep (index self) key in
    let '(removed, idx) := NsIndex.remove (index self) key in
    st_modify (set_index idx);;
    match removed with
    | None => mret None
    | Some _ => ts ← append_tombstone key h now io; mret (Some ts)
    end).

Definition tombstone_cond (key : bytes) (expected_rev now clock : Z) (io : faults)
    : M (option Z) :=
  with_write_guard (
    self ← st_get;
    let current_rev := live_rev (index self) key now in
    if decide (current_rev <> Some expected_rev) then mret None else
    let h := NsIndex.get_valsep (index self) key in
    let '(_, idx) := NsIndex.remove (index self) key in
    st_modify (set_index idx);;
    ts ← append_tombstone key h clock io; mret (Some ts)).

Definition ttl_update (key : bytes) (expires_at_ms : option Z) (now : Z) (io : faults) : M Z :=
  with_write_guard (
    tstamp ← next_tstamp now;
    let '(fl, exp) := expiry_fields flags.TTL_UPDATE expires_at_ms in
    buf ← st_lift (encode_into [] tstamp fl exp key [] []);
    _ ← append_active buf [] io;
    add_unsynced (zlen buf);;
    st_modify (fun self => set_index (NsIndex.set_ttl (index self) key expires_at_ms) self);;
    mret tstamp).

(** The fsync of the active file. *)
Definition sync_active (io : faults) : M unit :=
  st_lift (io_step (f_sync io));; st_modify (set_unsynced 0).

Definition sync (io : faults) : M unit :=
  self ← st_get;
  (if decide (unsynced_bytes self > 0) then sync_active io else mret tt);;
  st_modify (fun self => set_values (ValueStore.collect_garbage (values self)) self).

(** ** Reads *)

Definition locate_file (self : t) (id : Z) : option LogFile.t :=
  if decide (LogFile.file_id (active self) = id) then Some (active self) else sealed self !! id.

Definition read_record (self : t) (entry : IndexEntry) : eresult bytes :=
  file ← ok_or (locate_file self (file_id entry))
           (BadRecord (record_offset entry) "file_id not found");
  LogFile.read_exact file (record_offset entry) (record_size entry).

(** [&bytes[a..b]] for [a <= b] inside the slice. *)
Definition range (b : bytes) (from to : Z) : bytes :=
  take (Z.to_nat (to - from)) (drop (Z.to_nat from) b).

Definition extract_value_meta (b : bytes) : eresult (bytes * bytes * Z) :=
  hdr ← parse_header (take (Z.to_nat (Z.min HEADER_LEN (zlen b))) b) 0;
  let key_end := HEADER_LEN + key_size hdr in
  let val_end := key_end + val_size hdr in
  let meta_end := val_end + meta_size hdr in
  if decide (zlen b < meta_end)
  then Err (BadRecord 0 "record bytes shorter than declared sizes") else
  _ ← verify_crc hdr (range b 0 HEADER_LEN) (range b HEADER_LEN meta_end) 0;
  Ok (range b key_end val_end, range b val_end meta_end, rflags hdr).

Definition deref (self : t) (value : bytes) (fl : Z) : eresult bytes :=
  if negb (has_flag fl flags.VALUE_SEP) then Ok value else
  if decide (zlen value <> 16)
  then Err (BadRecord 0 "value-separated record's value field is not a 16-byte hash") else
  b ← ValueStore.get (values self) value;
  if decide (ValueStore.content_hash b <> value)
  then Err (BadRecord 0 "value-separated blob content hash mismatch (corruption)")
  else Ok b.

Definition read_value (self : t) (entry : IndexEntry) : eresult (bytes * bytes) :=
  b ← read_record self entry;
  '(value, metadata, fl) ← extract_value_meta b;
  v ← deref self value fl;
  Ok (v, metadata).

(** The slots of the misses are read independently; the first error in order is
    the result. *)
Fixpoint extract_all (self : t) (misses : list (nat * IndexEntry))
    : eresult (list (nat * bytes * bytes * Z)) :=
  match misses with
  | [] => Ok []
  | (slot, e) :: misses =>
      b ← read_record self e;
      '(value, metadata, fl) ← extract_value_meta b;
      rest ← extract_all self misses;
      Ok ((slot, value, metadata, fl) :: rest)
  end.

Fixpoint deref_all (self : t) (extracted : list (nat * bytes * bytes * Z))
    : eresult (list (nat * bytes * bytes)) :=
  match extracted with
  | [] => Ok []
  | (slot, value, metadata, fl) :: extracted =>
      v ← deref self value fl;
      rest ← deref_all self extracted;
      Ok ((slot, v, metadata) :: rest)
  end.

Definition bulk_read (self : t) (misses : list (nat * IndexEntry))
    : eresult (list (nat * bytes * bytes)) :=
  if decide (misses = []) then Ok [] else
  extracted ← extract_all self misses;
  deref_all self extracted.

(** ** Sealing, reopening, flushing *)

(** [test_hook] is the result of the fail-once test file. *)
Definition seal_active_for_shutdown (test_hook : bool) (io : faults) : M unit :=
  if test_hook then st_err TestSealFailure else
  self ← st_get;
  (if decide (unsynced_bytes self <> 0) then sync_active io else mret tt);;
  write_active_footer io.

Definition reopen_active_after_seal (io : faults) : M unit := swap_active io.

Definition flush_inner : M unit :=
  st_modify (fun self =>
    set_unsynced 0 (set_active (LogFile.open 0 [])
      (set_index (NsIndex.clear (index self)) (set_sealed ∅ self)))).

Definition flush (now : Z) : M Z := fun self =>
  if reclaim_in_progress self then (Err ReclamationBusy, self) else
  let self := set_reclaiming true self in
  let '(r, self) := (revision ← next_tstamp now; flush_inner;; mret revision) self in
  (r, set_reclaiming false self).

(** The data files of the namespace as they are on disk. *)
Definition disk (self : t) : gmap Z bytes :=
  <[LogFile.file_id (active self) := LogFile.data (active self)]>
    (LogFile.data <$> sealed self).
End Ops.
End NsLog.
