(* ===== verification/NsRepr.v ===== *)
(** * The namespace log implements a map

    [repr m ns] says that the log [ns] represents the abstract map [m] from keys
    to value, metadata, expiry and revision: every key of the map has an index
    entry that points at a valid record of the key, in a file the log has open,
    whose value, inline or through the blob store, is the abstract value; and the
    reference counts are exactly the numbers of keys that use each blob.  Each
    method of the log is shown to implement its abstract counterpart, also when
    the file system fails. *)

From stdpp Require Import base tactics list gmap sorting strings.
From Stdlib Require Import ZArith Lia.
From S2P Require Import Prelude Record Index LogFile ValueStore Recover NsLog.

Open Scope Z_scope.

(** What the map holds for a key. *)
Record aentry := mkA {
  a_value : bytes;
  a_meta : bytes;
  a_expires : option Z;
  a_rev : Z;
}.

Section Repr.
Context {crc_impl : CrcFast} {blake : Blake3}.

(** ** Counting the users of a blob *)

Definition users (vs : gmap bytes ContentHash) (h : ContentHash) : Z :=
  Z.of_nat (size (filter (fun kv => kv.2 = h) vs)).

Lemma users_nonneg vs h : 0 <= users vs h.
Proof. unfold users. lia. Qed.

Lemma users_delete vs k h :
  users (delete k vs) h = users vs h - if decide (vs !! k = Some h) then 1 else 0.
Proof.
  unfold users. rewrite map_filter_delete. case_decide as Hk.
  - assert (is_Some (filter (fun kv : bytes * ContentHash => kv.2 = h) vs !! k)) as Hs.
    { exists h. by apply map_lookup_filter_Some_2. }
    rewrite map_size_delete_Some by done.
    assert (size (filter (fun kv : bytes * ContentHash => kv.2 = h) vs) <> 0%nat)
      by (apply map_size_ne_0_lookup; destruct Hs; eauto). lia.
  - rewrite map_size_delete_None; [lia|]. apply map_lookup_filter_None. right.
    intros h' Hh' Heq. simpl in *. congruence.
Qed.

Lemma users_insert vs k h' h :
  users (<[k := h']> vs) h
  = users vs h - (if decide (vs !! k = Some h) then 1 else 0) + if decide (h' = h) then 1 else 0.
Proof.
  rewrite <- insert_delete_eq, <- users_delete. unfold users.
  destruct (decide (h' = h)) as [Hh|Hh].
  - rewrite map_filter_insert_True by done.
    rewrite map_size_insert_None; [lia|].
    apply map_lookup_filter_None. left. apply lookup_delete_eq.
  - rewrite map_filter_insert_False by done. rewrite delete_id by apply lookup_delete_eq. lia.
Qed.

Lemma users_sidecar vs k o h :
  users (NsIndex.set_sidecar vs k o) h
  = users vs h - (if decide (vs !! k = Some h) then 1 else 0)
    + if decide (o = Some h) then 1 else 0.
Proof.
  destruct o as [h'|]; simpl.
  - rewrite users_insert. repeat case_decide; naive_solver lia.
  - rewrite users_delete. lia.
Qed.

Lemma users_pos vs k h : vs !! k = Some h -> 0 < users vs h.
Proof.
  intros Hk. unfold users.
  assert (is_Some (filter (fun kv : bytes * ContentHash => kv.2 = h) vs !! k)) as Hs
    by (exists h; by apply map_lookup_filter_Some_2).
  apply map_size_ne_0_lookup_2 in Hs. lia.
Qed.

(** ** The representation *)

(** The entry points at the record [r] of one of the open files. *)
Definition rec_at (ns : NsLog.t) (e : IndexEntry) (r : rec) : Prop :=
  exists f, NsLog.locate_file ns (file_id e) = Some f /\
    record_size e = zlen (rec_bytes r) /\
    sub (LogFile.data f) (record_offset e) (record_size e) = Some (rec_bytes r).

(** The record's value field, with the blobs, stands for the value [v]. *)
Definition value_ok (blobs : gmap ContentHash bytes) (vs : option ContentHash) (r : rec)
    (v : bytes) : Prop :=
  if has_flag (r_flags r) flags.VALUE_SEP
  then vs = Some (r_value r) /\ length (r_value r) = 16%nat /\
       blobs !! r_value r = Some v /\ ValueStore.content_hash v = r_value r
  else vs = None /\ r_value r = v.

Definition entry_ok (ns : NsLog.t) (k : bytes) (e : IndexEntry) (a : aentry) : Prop :=
  NsIndex.get_ttl (NsLog.index ns) k = a_expires a /\ ie_tstamp_ms e = a_rev a /\
  exists r, rec_at ns e r /\ rec_wf r /\ r_key r = k /\ r_tstamp r = a_rev a /\
    r_meta r = a_meta a /\
    value_ok (ValueStore.blobs (NsLog.values ns))
      (NsIndex.get_valsep (NsLog.index ns) k) r (a_value a).

Definition files_ok (ns : NsLog.t) : Prop :=
  LogFile.file_inv (NsLog.active ns) /\
  forall id f, NsLog.sealed ns !! id = Some f -> LogFile.file_id f = id.

(** [x] counts references that are taken and not yet, or no longer, those of a
    key of the index. *)
Record repr_x (x : ContentHash -> Z) (m : gmap bytes aentry) (ns : NsLog.t) : Prop := {
  rp_index : NsIndex.inv (NsLog.index ns);
  rp_values : ValueStore.inv (NsLog.values ns);
  rp_x : forall h, 0 <= x h;
  rp_refs : forall h, ValueStore.refcount (NsLog.values ns) h
              = users (NsIndex.valsep (NsLog.index ns)) h + x h;
  rp_files : files_ok ns;
  rp_dom : forall k, is_Some (m !! k) <-> is_Some (NsIndex.get (NsLog.index ns) k);
  rp_entry : forall k a e, m !! k = Some a -> NsIndex.get (NsLog.index ns) k = Some e ->
               entry_ok ns k e a;
  rp_rev : forall k a, m !! k = Some a -> a_rev a <= NsLog.last_tstamp ns;
}.

Definition none : ContentHash -> Z := fun _ => 0.
Definition one (o : option ContentHash) : ContentHash -> Z := fun h =>
  if decide (o = Some h) then 1 else 0.

Lemma one_bounds o h : 0 <= one o h <= 1.
Proof. unfold one. case_decide; lia. Qed.

Lemma one_None h : one None h = 0.
Proof. done. Qed.

Lemma one_Some h h' : one (Some h) h' = if decide (h = h') then 1 else 0.
Proof. unfold one. repeat case_decide; naive_solver. Qed.

Definition repr (m : gmap bytes aentry) (ns : NsLog.t) : Prop := repr_x none m ns.

Lemma repr_x_ext x x' m ns : (forall h, x h = x' h) -> repr_x x m ns -> repr_x x' m ns.
Proof. intros Hx []. split; try done; intros h; rewrite <- Hx; auto. Qed.

(** ** Frames *)

(** Every open file is still open, with its content a prefix of the new one. *)
Definition files_extend (ns ns' : NsLog.t) : Prop :=
  forall id f, NsLog.locate_file ns id = Some f ->
    exists f' d, NsLog.locate_file ns' id = Some f' /\ LogFile.data f' = LogFile.data f ++ d.

Lemma files_extend_refl ns : files_extend ns ns.
Proof. intros id f Hf. exists f, []. by rewrite app_nil_r. Qed.

Lemma files_extend_same ns ns' :
  NsLog.active ns' = NsLog.active ns -> NsLog.sealed ns' = NsLog.sealed ns ->
  files_extend ns ns'.
Proof.
  intros Ha Hs id f Hf. exists f, []. rewrite app_nil_r. unfold NsLog.locate_file in *.
  by rewrite Ha, Hs.
Qed.

Lemma files_extend_trans ns1 ns2 ns3 :
  files_extend ns1 ns2 -> files_extend ns2 ns3 -> files_extend ns1 ns3.
Proof.
  intros H12 H23 id f Hf. destruct (H12 id f Hf) as (f2 & d2 & Hf2 & Hd2).
  destruct (H23 id f2 Hf2) as (f3 & d3 & Hf3 & Hd3). exists f3, (d2 ++ d3).
  by rewrite Hd3, Hd2, app_assoc.
Qed.

Lemma sub_extend {A} (l d s : list A) off n :
  sub l off n = Some s -> sub (l ++ d) off n = Some s.
Proof.
  intros Hs. rewrite <- Hs. apply sub_prefix; unfold sub in Hs;
    case_decide; (lia || discriminate).
Qed.

Lemma rec_at_extend ns ns' e r : files_extend ns ns' -> rec_at ns e r -> rec_at ns' e r.
Proof.
  intros Hext (f & Hf & Hsz & Hs). destruct (Hext _ _ Hf) as (f' & d & Hf' & Hd).
  exists f'. split_and!; [done..|]. rewrite Hd. by apply sub_extend.
Qed.

(** A step that leaves the index and the blobs in use alone keeps what is
    represented. *)
Lemma repr_frame x x' m ns ns' :
  repr_x x m ns ->
  NsLog.index ns' = NsLog.index ns ->
  ValueStore.inv (NsLog.values ns') ->
  (forall h, 0 <= x' h) ->
  (forall h, ValueStore.refcount (NsLog.values ns') h - x' h
     = ValueStore.refcount (NsLog.values ns) h - x h) ->
  (forall h, 0 < users (NsIndex.valsep (NsLog.index ns)) h ->
     ValueStore.blobs (NsLog.values ns') !! h = ValueStore.blobs (NsLog.values ns) !! h) ->
  files_ok ns' -> files_extend ns ns' ->
  NsLog.last_tstamp ns <= NsLog.last_tstamp ns' ->
  repr_x x' m ns'.
Proof.
  intros [] Hidx Hv Hx Hrc Hb Hf Hext Hts. split; rewrite ?Hidx; try done.
  - intros h. specialize (Hrc h). rewrite rp_refs0 in Hrc. lia.
  - intros k a e Ha He. destruct (rp_entry0 k a e Ha He) as (Httl & Hrev & r & Hr & Hwf & Hk & Ht & Hm & Hval).
    unfold entry_ok. rewrite Hidx. split_and!; [done..|]. exists r.
    split_and!; try done; [by eapply rec_at_extend|].
    unfold value_ok in *. destruct (has_flag _ _); [|done].
    destruct Hval as (Hvs & Hl & Hbl & Hch). split_and!; try done.
    rewrite Hb; [done|]. by eapply users_pos.
  - intros k a Ha. etransitivity; [by eapply rp_rev0|done].
Qed.

(** A step that touches neither the index, the blobs nor the references. *)
Lemma repr_files x m ns ns' :
  repr_x x m ns -> NsLog.index ns' = NsLog.index ns -> NsLog.values ns' = NsLog.values ns ->
  files_ok ns' -> files_extend ns ns' -> NsLog.last_tstamp ns <= NsLog.last_tstamp ns' ->
  repr_x x m ns'.
Proof.
  intros Hr Hi Hv Hf He Ht. pose proof Hr as [].
  eapply repr_frame; try done; rewrite ?Hv; done.
Qed.

(** A step that touches none of the represented state. *)
Lemma repr_same x m ns ns' :
  repr_x x m ns -> NsLog.index ns' = NsLog.index ns -> NsLog.values ns' = NsLog.values ns ->
  NsLog.active ns' = NsLog.active ns -> NsLog.sealed ns' = NsLog.sealed ns ->
  NsLog.last_tstamp ns' = NsLog.last_tstamp ns -> repr_x x m ns'.
Proof.
  intros Hr Hi Hv Ha Hs Ht. pose proof Hr as []. eapply repr_files; try done; [| |lia].
  - unfold files_ok. by rewrite Ha, Hs.
  - by apply files_extend_same.
Qed.

(** The active file replaced by one with the same id and more data. *)
Lemma files_extend_active ns ns' d :
  NsLog.sealed ns' = NsLog.sealed ns ->
  LogFile.file_id (NsLog.active ns') = LogFile.file_id (NsLog.active ns) ->
  LogFile.data (NsLog.active ns') = LogFile.data (NsLog.active ns) ++ d ->
  files_extend ns ns'.
Proof.
  intros Hs Hid Hd id f. unfold NsLog.locate_file. rewrite Hid, Hs.
  case_decide; intros Hf; simplify_eq; [by exists (NsLog.active ns'), d|].
  exists f, []. by rewrite app_nil_r.
Qed.

Lemma files_ok_active ns ns' :
  files_ok ns -> NsLog.sealed ns' = NsLog.sealed ns ->
  LogFile.file_id (NsLog.active ns') = LogFile.file_id (NsLog.active ns) ->
  LogFile.file_inv (NsLog.active ns') -> files_ok ns'.
Proof. intros (H1 & H2) Hs Hid Hi. unfold files_ok. by rewrite Hs. Qed.

(** ** The pieces of a write *)

Lemma next_tstamp_spec now ns r ns' :
  NsLog.next_tstamp now ns = (r, ns') ->
  exists ts, r = Ok ts /\ NsLog.last_tstamp ns < ts /\ ns' = NsLog.set_last_tstamp ts ns /\
    (is_u64 now -> NsLog.last_tstamp ns < u64_max -> 0 <= NsLog.last_tstamp ns -> is_u64 ts).
Proof.
  unfold NsLog.next_tstamp. intros [= <- <-]. eexists. split_and!; [done| |done|].
  - case_decide; lia.
  - intros. case_decide; zlia.
Qed.

Lemma repr_tstamp x m ns ts :
  repr_x x m ns -> NsLog.last_tstamp ns <= ts -> repr_x x m (NsLog.set_last_tstamp ts ns).
Proof.
  intros Hr Ht. pose proof Hr as []. eapply repr_files; try done. by apply files_extend_same.
Qed.

Lemma append_active_spec buf rb io ns r ns' :
  files_ok ns -> NsLog.append_active buf rb io ns = (r, ns') ->
  exists a d, LogFile.file_id a = LogFile.file_id (NsLog.active ns) /\
    LogFile.data a = LogFile.data (NsLog.active ns) ++ d /\ LogFile.file_inv a /\
    match r with
    | Ok off => ns' = NsLog.set_active a ns /\ off = zlen (LogFile.data (NsLog.active ns)) /\
                d = buf /\ LogFile.clean a
    | Err _ => ns' = NsLog.set_values (foldl ValueStore.unref (NsLog.values ns) rb)
                       (NsLog.set_active a ns)
    end.
Proof.
  intros (Hfi & _) . unfold NsLog.append_active.
  destruct (LogFile.append _ _ _) as [ra a] eqn:Ha.
  destruct (LogFile.append_inv _ _ _ _ _ Hfi Ha) as (Hi & Hid & d & Hd & Hok).
  destruct ra as [off|e]; intros [= <- <-]; exists a, d.
  - destruct (Hok off eq_refl) as (-> & -> & Hc & _). done.
  - done.
Qed.

Lemma repr_set_active x m ns a d :
  repr_x x m ns -> LogFile.file_id a = LogFile.file_id (NsLog.active ns) ->
  LogFile.data a = LogFile.data (NsLog.active ns) ++ d -> LogFile.file_inv a ->
  repr_x x m (NsLog.set_active a ns).
Proof.
  intros Hr Hid Hd Hi. pose proof Hr as []. eapply repr_files; try done.
  - by eapply files_ok_active.
  - by eapply files_extend_active.
Qed.

(** Dropping a reference that no key of the index holds. *)
Lemma repr_unref x m ns h :
  repr_x x m ns -> 0 < x h ->
  repr_x (fun h' => x h' - one (Some h) h') m
    (NsLog.set_values (ValueStore.unref (NsLog.values ns) h) ns).
Proof.
  intros Hr Hx. pose proof Hr as []. eapply repr_frame; try done; simpl.
  - by apply ValueStore.inv_unref.
  - intros h'. unfold one. specialize (rp_x0 h'). case_decide; simplify_eq; lia.
  - intros h'. rewrite ValueStore.refcount_unref by done. unfold one.
    pose proof (users_nonneg (NsIndex.valsep (NsLog.index ns)) h).
    rewrite rp_refs0, (rp_refs0 h).
    repeat case_decide; naive_solver lia.
  - intros h' _. by rewrite (proj2 (ValueStore.unref_eq _ _)).
  - by apply files_extend_same.
Qed.

(** No stored blob has the hash of [v] and another content. *)
Definition collision_free (ns : NsLog.t) (v : bytes) : Prop :=
  forall b, ValueStore.blobs (NsLog.values ns) !! ValueStore.content_hash v = Some b ->
    ValueStore.content_hash b = ValueStore.content_hash v -> b = v.

Lemma maybe_separate_spec value fl fault x m ns r ns' :
  repr_x x m ns -> collision_free ns value ->
  NsLog.maybe_separate value fl fault ns = (r, ns') ->
  (exists v, ns' = NsLog.set_values v ns) /\
  (forall h, 0 < ValueStore.refcount (NsLog.values ns) h ->
     ValueStore.blobs (NsLog.values ns') !! h = ValueStore.blobs (NsLog.values ns) !! h) /\
  match r with
  | Ok (sep, fl') =>
      (forall h b, ValueStore.blobs (NsLog.values ns') !! h = Some b ->
         ValueStore.blobs (NsLog.values ns) !! h = Some b \/ b = value) /\
      repr_x (fun h => x h + one sep h) m ns' /\
      ((sep = None /\ fl' = fl /\ zlen value < value_sep_threshold (NsLog.config ns)) \/
       (sep = Some (ValueStore.content_hash value) /\ fl' = Z.lor fl flags.VALUE_SEP /\
        value_sep_threshold (NsLog.config ns) <= zlen value /\
        ValueStore.blobs (NsLog.values ns') !! ValueStore.content_hash value = Some value))
  | Err _ => repr_x x m ns'
  end.
Proof.
  intros Hr Hcoll. pose proof Hr as []. unfold NsLog.maybe_separate. case_decide as Hthr.
  2: { intros [= <- <-]. split; [by exists (NsLog.values ns); destruct ns|].
       split; [done|]. split; [by auto|]. split.
       - eapply repr_x_ext; [|done]. intros h. unfold one. simpl. lia.
       - left. split_and!; try done. lia. }
  destruct (ValueStore.put _ _ _) as [rp v] eqn:Hp.
  destruct (ValueStore.put_spec _ _ _ _ _ rp_values0 Hp) as (Hv & _ & Hspec).
  destruct rp as [h|e]; intros [= <- <-]; (split; [by eexists|]).
  - destruct Hspec as (-> & Href & Hb). set (h := ValueStore.content_hash value) in *.
    pose proof (ValueStore.refcount_nonneg _ h rp_values0) as Hnn.
    assert (Hbl : forall h', 0 < ValueStore.refcount (NsLog.values ns) h' ->
      ValueStore.blobs v !! h' = ValueStore.blobs (NsLog.values ns) !! h').
    { intros h' Hh'. rewrite Hb. case_decide; [|done]. apply lookup_insert_ne. intros <-. lia. }
    split; [done|]. split.
    { simpl. rewrite Hb. intros h' b. case_decide; [|by auto]. rewrite lookup_insert.
      case_decide; [intros [= <-]; by right|by left]. }
    split.
    + eapply repr_frame; try done; simpl.
      * intros h'. specialize (rp_x0 h'). pose proof (one_bounds (Some h) h'). lia.
      * intros h'. unfold ValueStore.refcount at 1. rewrite Href, lookup_insert, one_Some.
        destruct (decide (h = h')) as [<-|]; simpl; [lia|].
        unfold ValueStore.refcount. lia.
      * intros h' Hh'. apply Hbl. rewrite rp_refs0. specialize (rp_x0 h'). lia.
      * by apply files_extend_same.
    + right. split_and!; try done. simpl. rewrite Hb.
      destruct (decide (ValueStore.refcount (NsLog.values ns) h = 0)) as [H0|H0];
        [by rewrite lookup_insert_eq|].
      destruct (ValueStore.refs (NsLog.values ns) !! h) as [c|] eqn:Hc.
      * destruct (rp_values0 h c Hc) as (_ & b & Hbb & Hch). rewrite Hbb.
        by rewrite (Hcoll b Hbb Hch).
      * by apply ValueStore.refcount_0 in Hc.
  - destruct Hspec as (Href & Hnone & Hb). apply ValueStore.refcount_0 in Hnone; [|done].
    assert (Hbl : forall h, 0 < ValueStore.refcount (NsLog.values ns) h ->
      ValueStore.blobs v !! h = ValueStore.blobs (NsLog.values ns) !! h).
    { intros h Hh. apply Hb. intros ->. lia. }
    split; [done|]. eapply repr_frame; try done; simpl.
    + intros h. unfold ValueStore.refcount. by rewrite Href.
    + intros h Hh. apply Hbl. rewrite rp_refs0. specialize (rp_x0 h). lia.
    + by apply files_extend_same.
Qed.

(** Inserting the entry of a record that is in place. *)
Lemma repr_commit x m ns key e exp sep r a :
  repr_x (fun h => x h + one sep h) m ns -> (forall h, 0 <= x h) ->
  rec_at ns e r -> rec_wf r -> r_key r = key -> r_tstamp r = a_rev a -> r_meta r = a_meta a ->
  ie_tstamp_ms e = a_rev a -> a_expires a = exp ->
  value_ok (ValueStore.blobs (NsLog.values ns)) sep r (a_value a) ->
  a_rev a <= NsLog.last_tstamp ns ->
  repr_x (fun h => x h + one (NsIndex.get_valsep (NsLog.index ns) key) h) (<[key := a]> m)
    (NsLog.set_index
      (NsIndex.set_valsep (NsIndex.insert (NsLog.index ns) key e exp) key sep) ns).
Proof.
  intros [] Hx Hat Hwf Hk Ht Hm Hie Hexp Hval Hrev. split; simpl.
  - apply NsIndex.inv_set_valsep; [by apply NsIndex.inv_insert|]. intros _. simpl.
    rewrite lookup_insert_eq. eauto.
  - done.
  - intros h. pose proof (one_bounds (NsIndex.get_valsep (NsLog.index ns) key) h).
    specialize (Hx h). lia.
  - intros h. rewrite rp_refs0, users_sidecar. unfold one, NsIndex.get_valsep. lia.
  - done.
  - intros k. unfold NsIndex.get. simpl. rewrite !lookup_insert. case_decide; [by eauto|].
    apply rp_dom0.
  - intros k a' e'. unfold NsIndex.get. simpl. rewrite !lookup_insert.
    destruct (decide (key = k)) as [<-|Hne].
    + intros [= <-] [= <-]. unfold entry_ok, NsIndex.get_ttl, NsIndex.get_valsep. simpl.
      rewrite !NsIndex.lookup_set_sidecar, !decide_True by done.
      split_and!; [done..|]. by exists r.
    + intros Ha He. destruct (rp_entry0 k a' e' Ha He) as (Httl & Hr & r' & Hat' & Hrest).
      unfold entry_ok, NsIndex.get_ttl, NsIndex.get_valsep in *. simpl in *.
      rewrite !NsIndex.lookup_set_sidecar, !decide_False by done.
      split_and!; [done..|]. by exists r'.
  - intros k a'. rewrite lookup_insert. case_decide; [by intros [= <-]|]. apply rp_rev0.
Qed.

(** Removing a key. *)
Lemma repr_remove x m ns key :
  repr_x x m ns ->
  repr_x (fun h => x h + one (NsIndex.get_valsep (NsLog.index ns) key) h) (delete key m)
    (NsLog.set_index (NsIndex.remove (NsLog.index ns) key).2 ns).
Proof.
  intros []. split; cbn [NsLog.set_index NsLog.index NsLog.values NsLog.last_tstamp].
  - by apply NsIndex.inv_remove.
  - done.
  - intros h. pose proof (one_bounds (NsIndex.get_valsep (NsLog.index ns) key) h).
    specialize (rp_x0 h). lia.
  - intros h. rewrite rp_refs0. simpl. rewrite users_delete.
    unfold one, NsIndex.get_valsep. lia.
  - done.
  - intros k. unfold NsIndex.get. simpl. rewrite !lookup_delete. case_decide.
    + split; intros [? ?]; done.
    + apply rp_dom0.
  - intros k a e. unfold NsIndex.get. simpl. rewrite !lookup_delete.
    case_decide as Hne; [done|]. intros Ha He.
    destruct (rp_entry0 k a e Ha He) as (Httl & Hr & r' & Hat' & Hrest).
    unfold entry_ok, NsIndex.get_ttl, NsIndex.get_valsep in *. simpl in *.
    rewrite !lookup_delete_ne by done. split_and!; [done..|]. by exists r'.
  - intros k a. rewrite lookup_delete. case_decide; [done|]. apply rp_rev0.
Qed.

(** Changing the expiry of a key of the map. *)
Lemma repr_set_ttl x m ns key exp a :
  repr_x x m ns -> m !! key = Some a ->
  repr_x x (<[key := mkA (a_value a) (a_meta a) exp (a_rev a)]> m)
    (NsLog.set_index (NsIndex.set_ttl (NsLog.index ns) key exp) ns).
Proof.
  intros [] Ha. split; simpl; try done.
  - apply NsIndex.inv_set_ttl; [done|]. intros _. apply rp_dom0. eauto.
  - intros k. unfold NsIndex.get. simpl. rewrite lookup_insert. case_decide; [|apply rp_dom0].
    subst k. split; [intros _; apply rp_dom0; eauto | eauto].
  - intros k a' e. unfold NsIndex.get. simpl. rewrite lookup_insert.
    destruct (decide (key = k)) as [<-|Hne].
    + intros [= <-] He. destruct (rp_entry0 key a e Ha He) as (Httl & Hr & r & Hat & Hrest).
      unfold entry_ok, NsIndex.get_ttl, NsIndex.get_valsep in *. simpl in *.
      rewrite NsIndex.lookup_set_sidecar, decide_True by done. split_and!; [done..|]. by exists r.
    + intros Ha' He. destruct (rp_entry0 k a' e Ha' He) as (Httl & Hr & r & Hat & Hrest).
      unfold entry_ok, NsIndex.get_ttl, NsIndex.get_valsep in *. simpl in *.
      rewrite NsIndex.lookup_set_sidecar, decide_False by done. split_and!; [done..|]. by exists r.
  - intros k a'. rewrite lookup_insert. case_decide; [intros [= <-]; by apply rp_rev0 in Ha|].
    apply rp_rev0.
Qed.

(** ** Rotation *)

Lemma max_or_0_le ids id : id ∈ ids -> id <= NsLog.max_or_0 ids.
Proof.
  induction ids as [|i ids IH]; intros Hin; [by apply not_elem_of_nil in Hin|].
  apply elem_of_cons in Hin as [->|Hin]; simpl; [lia|]. specialize (IH Hin). lia.
Qed.

Lemma next_file_id_fresh ns id :
  NsLog.next_file_id ns = Ok id ->
  LogFile.file_id (NsLog.active ns) < id /\
  forall id' f, NsLog.sealed ns !! id' = Some f -> id' < id.
Proof.
  unfold NsLog.next_file_id. case_decide; [|discriminate]. intros [= <-]. split; [lia|].
  intros id' f Hf. assert (id' <= NsLog.max_or_0 (map_to_list (NsLog.sealed ns)).*1).
  { apply max_or_0_le, list_elem_of_fmap. exists (id', f). split; [done|].
    by apply elem_of_map_to_list. }
  lia.
Qed.

(** What rotation and sealing keep. *)
Record kept (ns ns' : NsLog.t) : Prop := {
  kept_index : NsLog.index ns' = NsLog.index ns;
  kept_values : NsLog.values ns' = NsLog.values ns;
  kept_tstamp : NsLog.last_tstamp ns' = NsLog.last_tstamp ns;
  kept_files : files_ok ns -> files_ok ns' /\ files_extend ns ns';
}.

Lemma kept_refl ns : kept ns ns.
Proof. split; auto using files_extend_refl. Qed.

Lemma kept_trans ns1 ns2 ns3 : kept ns1 ns2 -> kept ns2 ns3 -> kept ns1 ns3.
Proof.
  intros [] []. split; try congruence. intros Hf.
  destruct (kept_files0 Hf) as [Hf2 ?]. destruct (kept_files1 Hf2).
  eauto using files_extend_trans.
Qed.

Lemma kept_same ns ns' :
  NsLog.index ns' = NsLog.index ns -> NsLog.values ns' = NsLog.values ns ->
  NsLog.last_tstamp ns' = NsLog.last_tstamp ns ->
  NsLog.active ns' = NsLog.active ns -> NsLog.sealed ns' = NsLog.sealed ns -> kept ns ns'.
Proof.
  intros ? ? ? Ha Hs. split; try done. intros Hf. split; [|by apply files_extend_same].
  unfold files_ok. by rewrite Ha, Hs.
Qed.

Lemma repr_kept x m ns ns' : kept ns ns' -> repr_x x m ns -> repr_x x m ns'.
Proof.
  intros [] Hr. pose proof Hr as []. destruct (kept_files0 rp_files0).
  eapply repr_files; try done. lia.
Qed.

Lemma write_active_footer_kept io ns r ns' :
  NsLog.write_active_footer io ns = (r, ns') -> kept ns ns'.
Proof.
  unfold NsLog.write_active_footer.
  destruct (LogFile.write_footer _ _ _ _ _) as [rf a] eqn:Hw. intros [= <- <-].
  split; try done. intros Hf. pose proof Hf as (Hi & _).
  destruct (LogFile.write_footer_inv _ _ _ _ _ _ _ Hi Hw) as (Hi' & Hid & d & Hd).
  split; [by eapply files_ok_active | by eapply files_extend_active].
Qed.

Lemma swap_active_kept io ns r ns' : NsLog.swap_active io ns = (r, ns') -> kept ns ns'.
Proof.
  intros H. unfold NsLog.swap_active, st_get, st_lift, st_modify, mbind, st_mbind, st_bind in H.
  destruct (NsLog.next_file_id ns) as [id|e] eqn:Hid; simplify_eq; [|apply kept_refl].
  destruct (next_file_id_fresh _ _ Hid) as [Ha Hs].
  destruct (io_step (f_open io)) as [u|e]; simplify_eq; (split; try done); cycle 1.
  { intros (Hi & Hids). split; [split; [done|]|]; simpl.
    - intros id' f. rewrite lookup_insert. case_decide; [intros [= <-]; done|]. apply Hids.
    - intros id' f. unfold NsLog.locate_file. simpl. intros Hf. exists f, []. rewrite app_nil_r.
      split; [|done]. case_decide; [done|]. by rewrite lookup_insert_ne. }
  intros (Hi & Hids). split.
  - split_and!; simpl.
    + right. apply LogFile.clean_open.
    + intros id' f. rewrite lookup_insert. case_decide; [intros [= <-]; done|]. apply Hids.
  - intros id' f. unfold NsLog.locate_file. simpl. intros Hf. exists f, []. rewrite app_nil_r.
    split; [|done]. case_decide; simplify_eq.
    + rewrite decide_False by lia. apply lookup_insert_eq.
    + rewrite decide_False by (apply Hs in Hf; lia). by rewrite lookup_insert_ne.
Qed.

Lemma rotate_active_kept io ns r ns' : NsLog.rotate_active io ns = (r, ns') -> kept ns ns'.
Proof.
  unfold NsLog.rotate_active. destruct (NsLog.rotate_in_progress ns).
  { intros [= <- <-]. apply kept_refl. }
  destruct (NsLog.rotate_active_inner io _) as [r1 ns1] eqn:Hin. intros [= <- <-].
  apply kept_trans with ns1; [|by apply kept_same].
  apply kept_trans with (NsLog.set_rotating true ns); [by apply kept_same|].
  apply st_bind_inv in Hin as [(u & ns2 & Hw & Hs)|(e & Hw & _)];
    eauto using kept_trans, write_active_footer_kept, swap_active_kept.
Qed.

Lemma maybe_rotate_kept io ns r ns' : NsLog.maybe_rotate io ns = (r, ns') -> kept ns ns'.
Proof.
  unfold NsLog.maybe_rotate. case_decide; [apply rotate_active_kept|].
  intros [= <- <-]. apply kept_refl.
Qed.

(** ** Writing a value *)

(** The value field the record will have. *)
Definition stored_field (ns : NsLog.t) (value : bytes) : bytes :=
  if decide (value_sep_threshold (NsLog.config ns) <= zlen value)
  then ValueStore.content_hash value else value.

Definition exp_u64 (exp : option Z) : Prop := forall ms, exp = Some ms -> is_u64 ms.

(** What a caller of a write provides: a clock, an expiry and a record in range,
    and no hash collision. *)
Record write_ok (ns : NsLog.t) (key value meta : bytes) (exp : option Z) (clock : Z) : Prop := {
  wo_clock : is_u64 clock;
  wo_last : 0 <= NsLog.last_tstamp ns < u64_max;
  wo_exp : exp_u64 exp;
  wo_fits : fits key (stored_field ns value) meta;
  wo_coll : collision_free ns value;
}.

Lemma expiry_fields_spec exp fl ef :
  exp_u64 exp -> NsLog.expiry_fields 0 exp = (fl, ef) ->
  is_u64 ef /\ has_flag fl flags.VALUE_SEP = false /\
  has_flag (Z.lor fl flags.VALUE_SEP) flags.VALUE_SEP = true.
Proof.
  intros He. destruct exp as [ms|]; intros [= <- <-]; (split; [by auto | by vm_compute]).
Qed.

Lemma rec_at_appended ns a fid r :
  LogFile.file_id (NsLog.active ns) = fid ->
  LogFile.data a = LogFile.data (NsLog.active ns) ++ rec_bytes r ->
  LogFile.file_id a = fid ->
  forall ts, rec_at (NsLog.set_active a ns)
    (IndexEntry_new fid (zlen (LogFile.data (NsLog.active ns))) (zlen (rec_bytes r)) ts) r.
Proof.
  intros Hfid Hd Hid ts. exists a. unfold NsLog.locate_file. simpl.
  rewrite decide_True by done. split_and!; [done..|].
  rewrite Hd, <- (app_nil_r (rec_bytes r)) at 1. by rewrite sub_mid.
Qed.

Lemma rec_bytes_mod r : rec_wf r -> zlen (rec_bytes r) mod 2 ^ 32 = zlen (rec_bytes r).
Proof.
  intros [_ _ Hfit]. apply Z.mod_small. unfold rec_bytes. rewrite record_bytes_length.
  unfold fits in Hfit. unfold HEADER_LEN in *. zlia.
Qed.

Lemma encode_into_rec r :
  rec_wf r ->
  encode_into [] (r_tstamp r) (r_flags r) (r_expires r) (r_key r) (r_value r) (r_meta r)
  = Ok (rec_bytes r).
Proof. intros [_ _ Hfit]. rewrite encode_into_eq. by rewrite decide_True. Qed.

Lemma unref_opt_spec o ns r ns' :
  NsLog.unref_opt o ns = (r, ns') ->
  r = Ok tt /\ ns' = match o with
    | Some h => NsLog.set_values (ValueStore.unref (NsLog.values ns) h) ns
    | None => ns
    end.
Proof. unfold NsLog.unref_opt, st_modify. by intros [= <- <-]. Qed.

Lemma repr_unref_opt x m ns o :
  repr_x (fun h => x h + one o h) m ns -> (forall h, 0 <= x h) ->
  repr_x x m match o with
    | Some h => NsLog.set_values (ValueStore.unref (NsLog.values ns) h) ns
    | None => ns
    end.
Proof.
  intros Hr Hx. destruct o as [h|].
  - eapply repr_x_ext; [|apply (repr_unref _ _ _ h Hr)].
    + intros h'. simpl. lia.
    + rewrite one_Some, decide_True by done. specialize (Hx h). lia.
  - eapply repr_x_ext; [|done]. intros h. simpl. rewrite one_None. lia.
Qed.

(** The end of a write: the entry goes in, the old blob goes, the file may rotate. *)
Lemma commit_tail key e exp sep r a (ts : Z) io x m ns (res : eresult Z) (ns' : NsLog.t) :
  repr_x (fun h => x h + one sep h) m ns -> (forall h, 0 <= x h) ->
  rec_at ns e r -> rec_wf r -> r_key r = key -> r_tstamp r = a_rev a -> r_meta r = a_meta a ->
  ie_tstamp_ms e = a_rev a -> a_expires a = exp ->
  value_ok (ValueStore.blobs (NsLog.values ns)) sep r (a_value a) ->
  a_rev a <= NsLog.last_tstamp ns ->
  (old_hash ← NsLog.apply_valsep_insert key e exp sep;
   NsLog.unref_opt old_hash;; NsLog.maybe_rotate io;; mret ts : NsLog.M Z) ns = (res, ns') ->
  repr_x x (<[key := a]> m) ns' /\ NsLog.last_tstamp ns' = NsLog.last_tstamp ns /\
  (res = Ok ts \/ exists e, res = Err e).
Proof.
  intros Hr Hx Hat Hwf Hk Ht Hm Hie Hexp Hval Hrev H.
  pose proof (repr_commit x m ns key e exp sep r a Hr Hx Hat Hwf Hk Ht Hm Hie Hexp Hval Hrev) as Hc.
  st_step H old ns1 Hold; [|by unfold NsLog.apply_valsep_insert in Hold].
  unfold NsLog.apply_valsep_insert in Hold. injection Hold as <- <-.
  st_step H u ns2 Hu; apply unref_opt_spec in Hu as [Hu1 ->]; [clear Hu1|discriminate Hu1].
  pose proof (repr_unref_opt _ _ _ _ Hc Hx) as Hc2. simpl in Hc2.
  set (ns2 := match NsIndex.get_valsep (NsLog.index ns) key with
    | Some _ => _ | None => _ end) in *.
  assert (NsLog.last_tstamp ns2 = NsLog.last_tstamp ns) as Hlt
    by (subst ns2; by destruct (NsIndex.get_valsep _ _)).
  st_step H u' ns3 Hrot; apply maybe_rotate_kept in Hrot; pose proof Hrot as [_ _ Hts _].
  - injection H as <- <-. split_and!; [by eapply repr_kept | congruence | by left].
  - split_and!; [by eapply repr_kept | congruence | eauto].
Qed.

(** The record of a write. *)
Lemma write_rec ns key value meta exp clock ts fl ef :
  write_ok ns key value meta exp clock -> is_u64 ts ->
  NsLog.expiry_fields 0 exp = (fl, ef) ->
  forall sep fl' blobs,
  (sep = None /\ fl' = fl /\ zlen value < value_sep_threshold (NsLog.config ns)) \/
  (sep = Some (ValueStore.content_hash value) /\ fl' = Z.lor fl flags.VALUE_SEP /\
   value_sep_threshold (NsLog.config ns) <= zlen value /\
   blobs !! ValueStore.content_hash value = Some value) ->
  let r := mkRec ts fl' ef key (default value sep) meta in
  rec_wf r /\ value_ok blobs sep r value /\ is_put r /\ rec_ttl r = exp.
Proof.
  intros [] Hts Hef sep fl' blobs Hsep r.
  assert (is_put r /\ rec_ttl r = exp) as Hput.
  { destruct exp as [ms|]; injection Hef as <- <-;
      destruct Hsep as [(_ & -> & _)|(_ & -> & _)]; repeat split. }
  destruct (expiry_fields_spec exp fl ef wo_exp0 Hef) as (Hu & Hf1 & Hf2).
  unfold stored_field in wo_fits0.
  destruct Hsep as [(-> & -> & Hlt)|(-> & -> & Hge & Hb)].
  - rewrite decide_False in wo_fits0 by lia. split; [done|]. split; [|done].
    unfold value_ok. simpl. by rewrite Hf1.
  - rewrite decide_True in wo_fits0 by lia. split; [done|]. split; [|done].
    unfold value_ok. simpl. rewrite Hf2. split_and!; try done.
    apply ValueStore.content_hash_length.
Qed.

(** A write either leaves what is represented as it was and fails, or it takes
    effect, with a revision above every earlier one; a write that takes effect can
    still report an error, the one of the rotation that follows it. *)
Lemma put_record_repr key value meta exp clock io x m ns r ns' :
  repr_x x m ns -> write_ok ns key value meta exp clock ->
  NsLog.put_record key value meta exp clock io ns = (r, ns') ->
  exists ts, NsLog.last_tstamp ns < ts /\ NsLog.last_tstamp ns' = ts /\
    ((repr_x x m ns' /\ exists e, r = Err e) \/
     (repr_x x (<[key := mkA value meta exp ts]> m) ns' /\ (r = Ok ts \/ exists e, r = Err e))).
Proof.
  intros Hr Hwo H. pose proof Hwo as []. pose proof (rp_x _ _ _ Hr) as Hx. unfold NsLog.put_record in H.
  st_step H ts ns1 Hts; apply next_tstamp_spec in Hts as (ts' & Heq & Hlt & -> & Hu64);
    [|discriminate Heq]. injection Heq as <-.
  specialize (Hu64 wo_clock0 (proj2 wo_last0) (proj1 wo_last0)).
  exists ts. split; [done|].
  apply (repr_tstamp _ _ _ ts) in Hr; [|lia].
  destruct (NsLog.expiry_fields 0 exp) as [fl ef] eqn:Hef.
  assert (Hcoll : collision_free (NsLog.set_last_tstamp ts ns) value) by done.
  st_step H p ns2 Hsep;
    pose proof (maybe_separate_spec _ _ _ _ _ _ _ _ Hr Hcoll Hsep) as ([v ->] & _ & Hspec);
    cycle 1.
  { split; [done|]. left. eauto. }
  destruct p as [sep fl']. destruct Hspec as (_ & Hr2 & Hsepc). simpl in Hsepc.
  destruct (write_rec ns key value meta exp clock ts fl ef Hwo Hu64 Hef sep fl'
    (ValueStore.blobs v) Hsepc) as (Hwf & Hval & _).
  set (rc := mkRec ts fl' ef key (default value sep) meta) in *.
  assert (Henc0 : encode_into [] ts fl' ef key (default value sep) meta = Ok (rec_bytes rc))
    by exact (encode_into_rec rc Hwf).
  st_step H buf ns3 Henc; unfold st_lift in Henc; rewrite Henc0 in Henc;
    [|discriminate Henc]. injection Henc as <- <-.
  st_step H self ns3 Hget; unfold st_get in Hget; [|discriminate Hget].
  injection Hget as <- <-.
  st_step H off ns4 Happ;
    destruct (append_active_spec _ _ _ _ _ _ (rp_files _ _ _ Hr2) Happ)
      as (a & d & Hid & Hd & Hinv & Hres); cycle 1.
  { subst ns'. split; [done|]. left. split; [|eauto].
    pose proof (repr_set_active _ _ _ a d Hr2 Hid Hd Hinv) as Hr3.
    apply repr_unref_opt in Hr3; [|done]. destruct sep as [h|]; done. }
  destruct Hres as (-> & -> & -> & _).
  st_step H u ns5 Hun; unfold NsLog.add_unsynced, st_modify in Hun; [|discriminate Hun].
  injection Hun as _ <-. rewrite rec_bytes_mod in H by done.
  pose proof (repr_set_active _ _ _ a (rec_bytes rc) Hr2 Hid Hd Hinv) as Hr3.
  eapply (commit_tail _ _ _ _ rc (mkA value meta exp ts) _ _ x m) in H
    as (Hrep & Hlast & Hres); try done.
  - split; [done|]. by right.
  - by eapply repr_same.
  - by apply (rec_at_appended _ a).
Qed.


(** ** The write guard *)

Lemma guard_inv {A} (body : NsLog.M A) ns r ns' :
  NsLog.with_write_guard body ns = (r, ns') ->
  (NsLog.frozen ns = true /\ r = Err Frozen /\ ns' = ns) \/
  (NsLog.frozen ns = false /\ exists ns1,
     body (NsLog.set_in_flight (NsLog.in_flight_writes ns + 1) ns) = (r, ns1) /\
     ns' = NsLog.set_in_flight (sat_sub (NsLog.in_flight_writes ns1) 1) ns1).
Proof.
  unfold NsLog.with_write_guard. destruct (NsLog.frozen ns).
  - intros [= <- <-]. by left.
  - destruct (body _) as [r1 ns1] eqn:Hb. intros [= <- <-]. right. eauto.
Qed.

Lemma repr_in_flight x m ns n : repr_x x m ns -> repr_x x m (NsLog.set_in_flight n ns).
Proof. intros. by eapply repr_same. Qed.

Lemma set_in_flight_undo ns :
  0 <= NsLog.in_flight_writes ns ->
  NsLog.set_in_flight (sat_sub (NsLog.in_flight_writes
    (NsLog.set_in_flight (NsLog.in_flight_writes ns + 1) ns)) 1)
    (NsLog.set_in_flight (NsLog.in_flight_writes ns + 1) ns) = ns.
Proof.
  intros. unfold NsLog.set_in_flight, sat_sub. destruct ns; simpl in *. f_equal. lia.
Qed.

(** ** Liveness *)

(** The revision of a key that is present and not expired. *)
Definition alive (m : gmap bytes aentry) (key : bytes) (now : Z) : option Z :=
  match m !! key with
  | Some a =>
      match a_expires a with
      | Some ms => if decide (ms <= now) then None else Some (a_rev a)
      | None => Some (a_rev a)
      end
  | None => None
  end.

Lemma live_rev_repr x m ns key now :
  repr_x x m ns -> NsLog.live_rev (NsLog.index ns) key now = alive m key now.
Proof.
  intros []. unfold NsLog.live_rev, alive, NsIndex.is_expired.
  destruct (m !! key) as [a|] eqn:Ha.
  - destruct (proj1 (rp_dom0 key)) as [e He]; [eauto|].
    destruct (rp_entry0 key a e Ha He) as (Httl & Hrev & _).
    unfold NsIndex.get_ttl in Httl. rewrite Httl, He. simpl. rewrite Hrev.
    destruct (a_expires a) as [ms|]; [|done]. case_decide; destruct (Z.leb_spec ms now); done || lia.
  - destruct (NsIndex.get (NsLog.index ns) key) as [e|] eqn:He.
    + destruct (proj2 (rp_dom0 key)) as [a' Ha']; [eauto|]. congruence.
    + by destruct (NsIndex.ttl (NsLog.index ns) !! key) as [ms|]; [destruct (ms <=? now)|].
Qed.

(** ** Deleting a key *)

Lemma tombstone_rec_wf ts key :
  is_u64 ts -> fits key [] [] -> rec_wf (mkRec ts flags.TOMBSTONE 0 key [] []).
Proof. intros. by split. Qed.

Lemma append_tombstone_repr key old clock io x m ns r ns' :
  repr_x (fun h => x h + one old h) m ns -> (forall h, 0 <= x h) -> is_u64 clock -> 0 <= NsLog.last_tstamp ns < u64_max ->
  fits key [] [] ->
  NsLog.append_tombstone key old clock io ns = (r, ns') ->
  exists ts, NsLog.last_tstamp ns < ts /\ NsLog.last_tstamp ns' = ts /\
  match r with
  | Ok ts' => ts' = ts /\ repr_x x m ns'
  | Err _ => repr_x (fun h => x h + one old h) m ns'
  end.
Proof.
  intros Hr Hx Hc Hl Hfit H. unfold NsLog.append_tombstone in H.
  st_step H ts ns1 Hts; apply next_tstamp_spec in Hts as (ts' & Heq & Hlt & -> & Hu64);
    [|discriminate Heq]. injection Heq as <-.
  specialize (Hu64 Hc (proj2 Hl) (proj1 Hl)). exists ts. split; [done|].
  apply (repr_tstamp _ _ _ ts) in Hr; [|lia].
  pose proof (tombstone_rec_wf ts key Hu64 Hfit) as Hwf.
  st_step H buf ns2 Henc; unfold st_lift in Henc; rewrite encode_into_eq, decide_True in Henc by done;
    [|discriminate Henc]. injection Henc as <- <-.
  st_step H off ns3 Happ;
    destruct (append_active_spec _ _ _ _ _ _ (rp_files _ _ _ Hr) Happ)
      as (a & d & Hid & Hd & Hinv & Hres); cycle 1.
  { subst ns'. split; [done|]. simpl.
    eapply repr_same; [by apply (repr_set_active _ _ _ a d Hr Hid Hd Hinv)|done..]. }
  destruct Hres as (-> & _). pose proof (repr_set_active _ _ _ a d Hr Hid Hd Hinv) as Hr3.
  st_step H u ns5 Hun; unfold NsLog.add_unsynced, st_modify in Hun; [|discriminate Hun].
  injection Hun as _ Hns5.
  assert (Hr5 : repr_x (fun h => x h + one old h) m ns5)
    by (rewrite <- Hns5; by eapply repr_same).
  st_step H u' ns6 Hu; apply unref_opt_spec in Hu as [Hu1 ->]; [|discriminate Hu1].
  injection H as <- <-. split; [by rewrite <- Hns5; destruct old|]. split; [done|].
  by apply repr_unref_opt in Hr5.
Qed.

End Repr.
