(* ===== verification/NsSpec.v ===== *)
(** * The methods of the namespace log on the map it represents

    One lemma per method of [NamespaceLog]: when the log represents a map ([repr] of
    [NsRepr]) and the method is called, with any clock and any failing writes, the log
    represents afterwards the map that the result of the method says.
    [read_value_repr] shows that reads answer from the map.  [NsSim] makes one
    simulation out of these lemmas. *)

From stdpp Require Import base tactics list gmap sorting strings.
From Stdlib Require Import ZArith Lia.
From S2P Require Import Prelude Record Index LogFile ValueStore Recover NsLog NsRepr.

Open Scope Z_scope.

Section Spec.
Context {crc_impl : CrcFast} {blake : Blake3}.

(** ** Reads *)

Lemma range_at (l a b c : bytes) from to :
  l = a ++ b ++ c -> from = zlen a -> to = zlen a + zlen b -> NsLog.range l from to = b.
Proof.
  intros -> -> ->. unfold NsLog.range.
  replace (zlen a + zlen b - zlen a) with (zlen b) by lia.
  unfold zlen. rewrite !Nat2Z.id. by rewrite drop_app_length, take_app_length.
Qed.

Lemma extract_value_meta_rec r :
  rec_wf r ->
  NsLog.extract_value_meta (rec_bytes r) = Ok (r_value r, r_meta r, r_flags r).
Proof.
  intros Hwf. destruct (rec_bytes_split r) as (hd & Heq & Hhd & Hcrc).
  unfold NsLog.extract_value_meta. pose proof (rec_bytes_length r) as Hlen.
  pose proof (zlen_nonneg (rec_body r)).
  replace (Z.min HEADER_LEN (zlen (rec_bytes r))) with (zlen hd) by lia.
  assert (take (Z.to_nat (zlen hd)) (rec_bytes r) = hd ++ []) as ->.
  { unfold zlen. by rewrite Nat2Z.id, Heq, take_app_length, app_nil_r. }
  rewrite (parse_rec_header r hd [] 0 Hwf Heq Hhd). cbn [mbind result_bind].
  change (key_size (rec_header r)) with (zlen (r_key r)).
  change (val_size (rec_header r)) with (zlen (r_value r)).
  change (meta_size (rec_header r)) with (zlen (r_meta r)).
  unfold rec_body in *. rewrite !zlen_app in Hlen.
  rewrite decide_False by lia.
  set (k := r_key r) in *. set (v := r_value r) in *. set (mt := r_meta r) in *.
  rewrite (range_at _ [] hd (k ++ v ++ mt) 0 HEADER_LEN) by (done || zlia).
  rewrite (range_at _ hd (k ++ v ++ mt) [] HEADER_LEN)
    by (rewrite ?app_nil_r, ?zlen_app; (done || lia)).
  change (k ++ v ++ mt) with (rec_body r) at 1. rewrite Hcrc. cbn [mbind result_bind].
  rewrite (range_at _ (hd ++ k) v mt (HEADER_LEN + zlen k)) by (rewrite ?zlen_app, <- ?app_assoc; (done || lia)).
  rewrite (range_at _ (hd ++ k ++ v) mt [] (HEADER_LEN + zlen k + zlen v))
    by (rewrite ?app_nil_r, ?zlen_app, <- ?app_assoc; (done || lia)).
  done.
Qed.

Lemma rec_at_read ns e r : rec_at ns e r -> NsLog.read_record ns e = Ok (rec_bytes r).
Proof.
  intros (f & Hf & Hsz & Hs). unfold NsLog.read_record. rewrite Hf. simpl.
  unfold LogFile.read_exact. by rewrite Hs.
Qed.

Lemma deref_value ns vs r v :
  value_ok (ValueStore.blobs (NsLog.values ns)) vs r v ->
  NsLog.deref ns (r_value r) (r_flags r) = Ok v.
Proof.
  unfold value_ok, NsLog.deref. destruct (has_flag _ _); simpl; [|by intros [_ ->]].
  intros (_ & Hl & Hb & Hch). rewrite decide_False by (unfold zlen; lia).
  unfold ValueStore.get. rewrite Hb. simpl. by rewrite decide_False by auto.
Qed.

Lemma read_value_rec ns e r vs v :
  rec_at ns e r -> rec_wf r -> value_ok (ValueStore.blobs (NsLog.values ns)) vs r v ->
  NsLog.read_value ns e = Ok (v, r_meta r).
Proof.
  intros Hat Hwf Hval. unfold NsLog.read_value.
  rewrite (rec_at_read _ _ _ Hat). cbn [mbind result_bind].
  rewrite (extract_value_meta_rec r Hwf). cbn [mbind result_bind].
  by rewrite (deref_value _ _ _ _ Hval).
Qed.

(** A key of the map is in the index, and its entry reads back its value. *)
Lemma read_value_repr x m ns k a :
  repr_x x m ns -> m !! k = Some a ->
  exists e, NsIndex.get (NsLog.index ns) k = Some e /\
    NsIndex.get_ttl (NsLog.index ns) k = a_expires a /\ ie_tstamp_ms e = a_rev a /\
    NsLog.read_value ns e = Ok (a_value a, a_meta a).
Proof.
  intros Hr Ha. destruct (proj1 (rp_dom _ _ _ Hr k)) as [e He]; [eauto|].
  destruct (rp_entry _ _ _ Hr k a e Ha He) as (Httl & Hrev & r & Hat & Hwf & _ & _ & Hm & Hval).
  exists e. split_and!; [done..|]. rewrite <- Hm. by eapply read_value_rec.
Qed.

(** ** Methods *)

Lemma put_full_repr key value meta exp clock io x m ns r ns' :
  repr_x x m ns -> write_ok ns key value meta exp clock ->
  NsLog.put_full key value meta exp clock io ns = (r, ns') ->
  (NsLog.frozen ns = true /\ r = Err Frozen /\ ns' = ns) \/
  exists ts, NsLog.frozen ns = false /\ NsLog.last_tstamp ns < ts /\
    NsLog.last_tstamp ns' = ts /\
    ((repr_x x m ns' /\ exists e, r = Err e) \/
     (repr_x x (<[key := mkA value meta exp ts]> m) ns' /\ (r = Ok ts \/ exists e, r = Err e))).
Proof.
  intros Hr Hwo H. apply guard_inv in H as [|(Hfr & ns1 & Hb & ->)]; [by left|right].
  eapply put_record_repr in Hb as (ts & Hlt & Hlast & Hres);
    [|by apply repr_in_flight | by destruct Hwo].
  exists ts. split_and!; try done.
  destruct Hres as [[Hres He]|[Hres Hok]]; [left|right]; (split; [by apply repr_in_flight|done]).
Qed.

Lemma put_full_cond_repr key value meta exp cond now clock io x m ns r ns' :
  repr_x x m ns -> write_ok ns key value meta exp clock -> 0 <= NsLog.in_flight_writes ns ->
  NsLog.put_full_cond key value meta exp cond now clock io ns = (r, ns') ->
  (NsLog.frozen ns = true /\ r = Err Frozen /\ ns' = ns) \/
  (NsLog.frozen ns = false /\ cond_check cond (alive m key now) = false /\
   r = Ok None /\ ns' = ns) \/
  exists ts, NsLog.frozen ns = false /\ cond_check cond (alive m key now) = true /\
    NsLog.last_tstamp ns < ts /\ NsLog.last_tstamp ns' = ts /\
    ((repr_x x m ns' /\ exists e, r = Err e) \/
     (repr_x x (<[key := mkA value meta exp ts]> m) ns' /\
        (r = Ok (Some ts) \/ exists e, r = Err e))).
Proof.
  intros Hr Hwo Hif H. apply guard_inv in H as [|(Hfr & ns1 & Hb & ->)]; [by left|right].
  st_step Hb self ns2 Hg; unfold st_get in Hg; [|discriminate Hg]. injection Hg as <- <-.
  change (NsLog.index (NsLog.set_in_flight _ ns)) with (NsLog.index ns) in Hb.
  rewrite (live_rev_repr x m ns key now Hr) in Hb.
  destruct (cond_check cond (alive m key now)) eqn:Hc; [right|left].
  - st_step Hb ts ns2 Hp;
      (eapply put_record_repr in Hp as (ts' & Hlt & Hlast & Hres);
         [|by apply repr_in_flight | by destruct Hwo]); exists ts'.
    + injection Hb as <- <-. split_and!; try done.
      destruct Hres as [[_ [e He]]|[Hres [[= ->]|[e He]]]]; try discriminate He.
      right. split; [by apply repr_in_flight | by left].
    + split_and!; try done.
      destruct Hres as [[Hres _]|[Hres _]]; [left|right]; (split; [by apply repr_in_flight|eauto]).
  - injection Hb as <- <-. split_and!; try done. by apply set_in_flight_undo.
Qed.

(** What a caller of a delete or an expiry update provides. *)
Record delete_ok (ns : NsLog.t) (key : bytes) (clock : Z) : Prop := {
  do_clock : is_u64 clock;
  do_last : 0 <= NsLog.last_tstamp ns < u64_max;
  do_fits : fits key [] [];
}.

(** The key goes from the map before the record is appended: a failed append
    leaves it deleted in memory and its blob reference taken. *)
Lemma tombstone_repr key clock io x m ns r ns' :
  repr_x x m ns -> delete_ok ns key clock -> 0 <= NsLog.in_flight_writes ns ->
  NsLog.tombstone key clock io ns = (r, ns') ->
  (NsLog.frozen ns = true /\ r = Err Frozen /\ ns' = ns) \/
  (NsLog.frozen ns = false /\ m !! key = None /\ r = Ok None /\
   NsLog.last_tstamp ns' = NsLog.last_tstamp ns /\ repr_x x m ns') \/
  (NsLog.frozen ns = false /\ is_Some (m !! key) /\
   NsLog.last_tstamp ns < NsLog.last_tstamp ns' /\
   match r with
   | Ok ots => ots = Some (NsLog.last_tstamp ns') /\ repr_x x (delete key m) ns'
   | Err _ => exists x', repr_x x' (delete key m) ns'
   end).
Proof.
  intros Hr [Hc Hl Hf] Hif H. apply guard_inv in H as [|(Hfr & ns1 & Hb & ->)]; [by left|right].
  st_step Hb self ns2 Hg; unfold st_get in Hg; [|discriminate Hg]. injection Hg as <- <-.
  destruct (NsIndex.remove _ key) as [removed idx] eqn:Hrem.
  st_step Hb u ns2 Hm; unfold st_modify in Hm; [|discriminate Hm]. injection Hm as _ <-.
  pose proof (repr_remove x m _ key (repr_in_flight _ _ _ (NsLog.in_flight_writes ns + 1) Hr)) as Hrm.
  rewrite Hrem in Hrm. cbn [snd] in Hrm.
  change (NsLog.index (NsLog.set_in_flight _ ns)) with (NsLog.index ns) in *.
  assert (removed = NsIndex.get (NsLog.index ns) key) as Hremoved
    by (unfold NsIndex.remove in Hrem; by simplify_eq).
  pose proof (rp_dom _ _ _ Hr key) as Hdom. destruct removed as [e|].
  - right. assert (is_Some (m !! key)) by (apply Hdom; eauto).
    st_step Hb ts ns3 Happ;
      (eapply append_tombstone_repr in Happ as (ts' & Hlt & Hlast & Hres);
        [|exact Hrm | apply Hr | done..]).
    + injection Hb as <- <-. destruct Hres as [-> Hres]. simpl in *.
      rewrite Hlast. split_and!; try done. by apply repr_in_flight.
    + simpl in *. rewrite Hlast. split_and!; try done. eexists. by apply repr_in_flight.
  - left. assert (m !! key = None) as Hnone.
    { apply eq_None_not_Some. intros [e He]%Hdom. congruence. }
    injection Hb as <- <-. split_and!; try done. apply repr_in_flight.
    rewrite delete_id in Hrm by done. eapply repr_x_ext; [|exact Hrm].
    intros h. unfold NsIndex.get_valsep. rewrite NsIndex.valsep_absent.
    + rewrite one_None. lia.
    + apply Hr.
    + by unfold NsIndex.get in Hremoved.
Qed.

Lemma tombstone_cond_repr key rev now clock io x m ns r ns' :
  repr_x x m ns -> delete_ok ns key clock -> 0 <= NsLog.in_flight_writes ns ->
  NsLog.tombstone_cond key rev now clock io ns = (r, ns') ->
  (NsLog.frozen ns = true /\ r = Err Frozen /\ ns' = ns) \/
  (NsLog.frozen ns = false /\ alive m key now <> Some rev /\ r = Ok None /\ ns' = ns) \/
  (NsLog.frozen ns = false /\ alive m key now = Some rev /\
   NsLog.last_tstamp ns < NsLog.last_tstamp ns' /\
   match r with
   | Ok ots => ots = Some (NsLog.last_tstamp ns') /\ repr_x x (delete key m) ns'
   | Err _ => exists x', repr_x x' (delete key m) ns'
   end).
Proof.
  intros Hr [Hc Hl Hf] Hif H. apply guard_inv in H as [|(Hfr & ns1 & Hb & ->)]; [by left|right].
  st_step Hb self ns2 Hg; unfold st_get in Hg; [|discriminate Hg]. injection Hg as <- <-.
  change (NsLog.index (NsLog.set_in_flight _ ns)) with (NsLog.index ns) in Hb.
  rewrite (live_rev_repr x m ns key now Hr) in Hb. cbv zeta in Hb.
  destruct (decide (alive m key now <> Some rev)) as [Hrev|Hrev%dec_stable]; [left|right].
  - injection Hb as <- <-. split_and!; try done. by apply set_in_flight_undo.
  - pose proof (repr_remove x m _ key (repr_in_flight _ _ _ (NsLog.in_flight_writes ns + 1) Hr)) as Hrm.
    change (NsLog.index (NsLog.set_in_flight _ ns)) with (NsLog.index ns) in Hrm.
    destruct (NsIndex.remove (NsLog.index ns) key) as [removed idx]. cbn [snd] in Hrm.
    st_step Hb u ns2 Hm; unfold st_modify in Hm; [|discriminate Hm]. injection Hm as _ <-.
    st_step Hb ts ns3 Happ;
      (eapply append_tombstone_repr in Happ as (ts' & Hlt & Hlast & Hres);
        [|exact Hrm | apply Hr | done..]).
    + injection Hb as <- <-. destruct Hres as [-> Hres]. simpl in *.
      rewrite Hlast. split_and!; try done. by apply repr_in_flight.
    + simpl in *. rewrite Hlast. split_and!; try done. eexists. by apply repr_in_flight.
Qed.

Lemma ttl_flags exp fl ef :
  exp_u64 exp -> NsLog.expiry_fields flags.TTL_UPDATE exp = (fl, ef) -> is_u64 ef.
Proof. intros He. destruct exp as [ms|]; intros [= <- <-]; auto. by vm_compute. Qed.

Lemma ttl_update_repr key exp clock io x m ns r ns' a :
  repr_x x m ns -> delete_ok ns key clock -> exp_u64 exp -> m !! key = Some a ->
  NsLog.ttl_update key exp clock io ns = (r, ns') ->
  (NsLog.frozen ns = true /\ r = Err Frozen /\ ns' = ns) \/
  (NsLog.frozen ns = false /\ NsLog.last_tstamp ns < NsLog.last_tstamp ns' /\
   match r with
   | Ok ts => ts = NsLog.last_tstamp ns' /\
              repr_x x (<[key := mkA (a_value a) (a_meta a) exp (a_rev a)]> m) ns'
   | Err _ => repr_x x m ns'
   end).
Proof.
  intros Hr [Hc Hl Hf] Hexp Ha H.
  apply guard_inv in H as [|(Hfr & ns1 & Hb & ->)]; [by left|right]. split; [done|].
  st_step Hb ts ns2 Hts; apply next_tstamp_spec in Hts as (ts' & Heq & Hlt & -> & Hu64);
    [|discriminate Heq]. injection Heq as <-. simpl in Hlt, Hu64.
  specialize (Hu64 Hc (proj2 Hl) (proj1 Hl)).
  apply (repr_in_flight _ _ _ (NsLog.in_flight_writes ns + 1)) in Hr.
  apply (repr_tstamp _ _ _ ts) in Hr; [|simpl; lia].
  destruct (NsLog.expiry_fields _ exp) as [fl ef] eqn:Hef.
  pose proof (ttl_flags _ _ _ Hexp Hef) as Hu.
  st_step Hb buf ns3 Henc; unfold st_lift in Henc;
    rewrite encode_into_eq, decide_True in Henc by done; [|discriminate Henc].
  injection Henc as <- <-.
  st_step Hb off ns3 Happ;
    destruct (append_active_spec _ _ _ _ _ _ (rp_files _ _ _ Hr) Happ)
      as (f & d & Hid & Hd & Hinv & Hres);
    pose proof (repr_set_active _ _ _ f d Hr Hid Hd Hinv) as Hr3; cycle 1.
  { subst ns1. simpl. split; [done|]. by eapply repr_same. }
  destruct Hres as (-> & _).
  st_step Hb u ns5 Hun; unfold NsLog.add_unsynced, st_modify in Hun; [|discriminate Hun].
  injection Hun as _ <-.
  st_step Hb u' ns6 Hun; unfold st_modify in Hun; [|discriminate Hun]. injection Hun as _ <-.
  injection Hb as <- <-. simpl. split_and!; try done.
  pose proof (repr_set_ttl _ _ _ key exp a Hr3 Ha) as Hr4. by eapply repr_same.
Qed.

(** A sync fails and changes nothing, or the records are durable and the garbage is
    collected. *)
Definition synced (ns : NsLog.t) : NsLog.t :=
  let ns1 := if decide (NsLog.unsynced_bytes ns > 0) then NsLog.set_unsynced 0 ns else ns in
  NsLog.set_values (ValueStore.collect_garbage (NsLog.values ns1)) ns1.

Lemma sync_cases io ns r ns' :
  NsLog.sync io ns = (r, ns') ->
  (r = Ok tt /\ ns' = synced ns) \/ (exists k, f_sync io = Some k /\ r = Err (Io k) /\ ns' = ns).
Proof.
  unfold NsLog.sync, NsLog.sync_active, synced, st_get, st_lift, st_modify, mbind, st_mbind, st_bind.
  case_decide; [destruct (f_sync io)|]; intros [= <- <-]; eauto.
Qed.

Lemma synced_repr x m ns : repr_x x m ns -> repr_x x m (synced ns).
Proof.
  intros Hr. unfold synced.
  set (ns1 := if decide (NsLog.unsynced_bytes ns > 0) then _ else _). cbv zeta.
  assert (Hr1 : repr_x x m ns1) by (subst ns1; case_decide; [by eapply repr_same|done]).
  clearbody ns1. destruct (ValueStore.collect_garbage_keeps (NsLog.values ns1)) as [Hrefs Hb].
  pose proof Hr1 as [_ Hv Hx Href Hf _ _ _].
  eapply repr_frame; try done; simpl.
  - by apply ValueStore.inv_collect_garbage.
  - intros h. unfold ValueStore.refcount. by rewrite Hrefs.
  - intros h Hh. apply Hb. specialize (Href h). specialize (Hx h). lia.
  - by apply files_extend_same.
Qed.

Lemma sync_repr io x m ns r ns' :
  repr_x x m ns -> NsLog.sync io ns = (r, ns') ->
  (r = Ok tt \/ exists e, r = Err e) /\ NsLog.last_tstamp ns' = NsLog.last_tstamp ns /\ repr_x x m ns'.
Proof.
  intros Hr [[-> ->]|(k & _ & -> & ->)]%sync_cases; (split_and!; [eauto| |]); try done.
  - unfold synced. simpl. by case_decide.
  - by apply synced_repr.
Qed.

Lemma rotate_repr io x m ns r ns' :
  repr_x x m ns -> NsLog.rotate_active io ns = (r, ns') ->
  NsLog.last_tstamp ns' = NsLog.last_tstamp ns /\ repr_x x m ns'.
Proof.
  intros Hr H%rotate_active_kept. split; [apply H|by eapply repr_kept].
Qed.

(** The seal of a shutdown syncs the records, or fails, before the footer. *)
Lemma seal_step io ns r ns' :
  NsLog.seal_active_for_shutdown false io ns = (r, ns') ->
  (exists k, f_sync io = Some k /\ r = Err (Io k) /\ ns' = ns) \/
  NsLog.write_active_footer io
    (if decide (NsLog.unsynced_bytes ns <> 0) then NsLog.set_unsynced 0 ns else ns) = (r, ns').
Proof.
  unfold NsLog.seal_active_for_shutdown, NsLog.sync_active, st_get, st_lift, st_modify, mbind, st_mbind, st_bind.
  case_decide; [destruct (f_sync io)|]; [|by right..]. intros [= <- <-]. eauto.
Qed.

Lemma seal_repr hook io x m ns r ns' :
  repr_x x m ns -> NsLog.seal_active_for_shutdown hook io ns = (r, ns') ->
  NsLog.last_tstamp ns' = NsLog.last_tstamp ns /\ repr_x x m ns'.
Proof.
  intros Hr H. unfold NsLog.seal_active_for_shutdown in H.
  destruct hook; [unfold st_err in H; by injection H as <- <-|].
  apply seal_step in H as [(k & _ & _ & ->)|H]; [done|].
  apply write_active_footer_kept in H. split.
  - rewrite (kept_tstamp _ _ H). by case_decide.
  - eapply repr_kept; [done|]. case_decide; [by eapply repr_same|done].
Qed.

Lemma reopen_repr io x m ns r ns' :
  repr_x x m ns -> NsLog.reopen_active_after_seal io ns = (r, ns') ->
  NsLog.last_tstamp ns' = NsLog.last_tstamp ns /\ repr_x x m ns'.
Proof.
  intros Hr H%swap_active_kept. split; [apply H|by eapply repr_kept].
Qed.

(** A flush empties the map; the blob references of its keys stay behind, for
    the caller to clear. *)
Lemma flush_repr clock x m ns r ns' :
  repr_x x m ns -> NsLog.flush clock ns = (r, ns') ->
  (NsLog.reclaim_in_progress ns = true /\ r = Err ReclamationBusy /\ ns' = ns) \/
  (exists ts, r = Ok ts /\ NsLog.last_tstamp ns < ts /\ NsLog.last_tstamp ns' = ts /\
     exists x', repr_x x' ∅ ns').
Proof.
  intros Hr. unfold NsLog.flush. destruct (NsLog.reclaim_in_progress ns).
  { intros [= <- <-]. by left. }
  intros H. right.
  match type of H with (let '(_, _) := ?t in _) = _ => destruct t as [r1 ns1] eqn:Hb end.
  injection H as <- <-.
  st_step Hb ts ns2 Hts; apply next_tstamp_spec in Hts as (ts' & Heq & Hlt & -> & _);
    [|discriminate Heq]. injection Heq as <-.
  st_step Hb u ns3 Hm; unfold NsLog.flush_inner, st_modify in Hm; [|discriminate Hm].
  injection Hm as _ <-. injection Hb as <- <-. simpl in *.
  exists ts. split_and!; try done.
  exists (fun h => users (NsIndex.valsep (NsLog.index ns)) h + x h).
  pose proof Hr as [Hi Hv Hx Href Hf Hd He Hl]. split; simpl; try done.
  - intros h. pose proof (users_nonneg (NsIndex.valsep (NsLog.index ns)) h). specialize (Hx h). lia.
  - split_and!; simpl; [right; apply LogFile.clean_open |].
    intros id f. by rewrite lookup_empty.
  - intros k. unfold NsIndex.get. simpl. by rewrite !lookup_empty.
Qed.
End Spec.
