(* ===== verification/Reclaim.v ===== *)
(** * Reclaim, [crates/engine/src/log/reclaim.rs] and [NamespaceLog::reclaim]

    Size-tiered compaction: the active file is sealed as a run of level 0, and as
    long as some level has [fanout] runs, their live records are copied into one
    run of the next level, the index is moved to the copies and the inputs go.
    The file models the copy, the cascade and the swap with every failure they
    can report, and proves that whatever happens the log represents the same map,
    that the cascade ends, and that no level is full after it. *)

From stdpp Require Import base tactics list gmap sorting strings.
From Stdlib Require Import ZArith Lia.
From S2P Require Import Prelude Record Index LogFile ValueStore Recover NsLog NsRepr NsSpec.

Open Scope Z_scope.

Record ReclaimReport := mkReport {
  live_keys : Z;
  live_bytes : Z;
  dead_files_dropped : Z;
  dead_files_leaked : Z;
  new_file_id : Z;
}.

(** What the file system does to one merge: creating the temporary file, the
    appends of the records, the two appends of the footer and its fsync, the
    rename, the unlinks of the inputs ([true] is a failure) and the final open. *)
Record merge_faults := mkMF {
  mf_create : option IoKind;
  mf_appends : list (option nat);
  mf_body : option nat;
  mf_trailer : option nat;
  mf_sync : option IoKind;
  mf_rename : option IoKind;
  mf_unlink : list bool;
  mf_open : option IoKind;
}.
Definition no_merge_faults : merge_faults := mkMF None [] None None None None [] None.

Module Reclaim.
Section Ops.
Context {crc_impl : CrcFast} {blake : Blake3}.

Definition value_hash_of (record_bytes : bytes) : option ContentHash :=
  match parse_header record_bytes 0 with
  | Err _ => None
  | Ok hdr =>
      if negb (has_flag (rflags hdr) flags.VALUE_SEP) || negb (val_size hdr =? 16) then None
      else sub record_bytes (HEADER_LEN + key_size hdr) 16
  end.

(** A live key: its entry and its expiry. *)
Definition live_entry : Type := bytes * IndexEntry * option Z.

(** The copy loop; the accumulator holds the new file, its footer, the new
    entries and the copied bytes. *)
Fixpoint copy_live (file_map : gmap Z LogFile.t) (next_file_id : Z) (live : list live_entry)
    (faults : list (option nat)) (new_file : LogFile.t) (footer : list FooterEntry.t)
    (new_entries : list live_entry) (live_bytes : Z)
    : eresult (LogFile.t * list FooterEntry.t * list live_entry * Z) :=
  match live with
  | [] => Ok (new_file, footer, new_entries, live_bytes)
  | (key, old_entry, ttl) :: live =>
      let offset := record_offset old_entry in
      bytes ← match file_map !! file_id old_entry with
              | None => Err (BadRecord offset "reclaim: file_id not in sealed snapshot")
              | Some f => LogFile.read_exact f offset (record_size old_entry)
              end;
      let value_hash := value_hash_of bytes in
      let '(r, new_file) := LogFile.append new_file bytes (default None (head faults)) in
      new_offset ← r;
      let new_entry := IndexEntry_new next_file_id new_offset (record_size old_entry)
                         (ie_tstamp_ms old_entry) in
      copy_live file_map next_file_id live (tail faults) new_file
        (footer ++ [footer_entry_from_index key new_entry ttl value_hash])
        (new_entries ++ [(key, new_entry, ttl)]) (live_bytes + record_size old_entry)
  end.

(** The merged file is returned as it is on disk after the rename. *)
Definition reclaim_namespace (sealed_files : list LogFile.t) (next_file_id : Z)
    (live : list live_entry) (mf : merge_faults)
    : eresult (ReclaimReport * list live_entry * LogFile.t) :=
  _ ← io_step (mf_create mf);
  let new_file := LogFile.open next_file_id [] in
  let file_map := list_to_map ((fun f => (LogFile.file_id f, f)) <$> sealed_files) in
  '(new_file, footer, new_entries, live_bytes) ←
    copy_live file_map next_file_id live (mf_appends mf) new_file [] [] 0;
  let '(r, new_file) := LogFile.write_footer new_file footer (mf_body mf) (mf_trailer mf) (mf_sync mf) in
  _ ← r;
  _ ← io_step (mf_rename mf);
  let failures := take (length sealed_files) (mf_unlink mf) in
  let leaked := Z.of_nat (length (filter (fun b => b = true) failures)) in
  Ok (mkReport (zlen new_entries) live_bytes (zlen sealed_files - leaked) leaked next_file_id,
      new_entries, new_file).

(** ** The cascade *)

Definition level_of (self : NsLog.t) (id : Z) : Z := default 0 (NsLog.level self !! id).

Definition runs_at (self : NsLog.t) (lvl : Z) : list Z :=
  filter (fun id => level_of self id = lvl) (map_to_list (NsLog.sealed self)).*1.

(** The lowest level, a [u8], with enough runs. *)
Definition full_level (self : NsLog.t) : option Z :=
  head (filter (fun lvl => runs_at self lvl <> [] /\
                  (fanout (NsLog.config self) <= length (runs_at self lvl))%nat) (seqZ 0 256)).

Definition live_in (idx : NsIndex.t) (ids : list Z) : list live_entry :=
  (fun ke => (ke.1, ke.2, NsIndex.get_ttl idx ke.1))
  <$> filter (fun ke => file_id ke.2 ∈ ids) (NsIndex.iter idx).

Definition reindex (idx : NsIndex.t) (new_entries : list live_entry) : NsIndex.t :=
  foldl (fun idx '(key, entry, ttl) => NsIndex.insert idx key entry ttl) idx new_entries.

Definition saturating_add_u8 (a b : Z) : Z := Z.min (a + b) u8_max.

Definition add_report (total report : ReclaimReport) : ReclaimReport :=
  mkReport (live_keys report) (live_bytes report)
    (dead_files_dropped total + dead_files_dropped report)
    (dead_files_leaked total + dead_files_leaked report) (new_file_id total).

(** The swap after the merge: the index, then the files and their levels. *)
Definition swap_runs (lvl : Z) (ids : list Z) (next_id : Z) (new_file : LogFile.t)
    (new_entries : list live_entry) (self : NsLog.t) : NsLog.t :=
  let self := NsLog.set_index (reindex (NsLog.index self) new_entries) self in
  let sealed := foldl (fun m id => delete id m) (NsLog.sealed self) ids in
  let levels := foldl (fun m id => delete id m) (NsLog.level self) ids in
  NsLog.set_level (<[next_id := saturating_add_u8 lvl 1]> levels)
    (NsLog.set_sealed (<[next_id := new_file]> sealed) self).

(** One iteration of the loop for the level [lvl]. *)
Definition merge_level (lvl : Z) (mf : merge_faults) (total : ReclaimReport)
    : NsLog.M ReclaimReport :=
  self ← st_get;
  let ids := runs_at self lvl in
  let files := omap (fun id => NsLog.sealed self !! id) ids in
  let live := live_in (NsLog.index self) ids in
  next_id ← st_lift (NsLog.next_file_id self);
  '(report, new_entries, merged) ← st_lift (reclaim_namespace files next_id live mf);
  st_modify (fun self =>
    NsLog.set_compaction (NsLog.compaction_bytes self + live_bytes report) self);;
  _ ← st_lift (io_step (mf_open mf));
  let new_file := LogFile.open next_id (LogFile.data merged) in
  st_modify (swap_runs lvl ids next_id new_file new_entries);;
  mret (add_report total report).

(** With a fanout of two and more, every merge leaves fewer runs. *)
Fixpoint cascade (fuel : nat) (mfs : list merge_faults) (total : ReclaimReport)
    : NsLog.M ReclaimReport :=
  self ← st_get;
  match full_level self with
  | None => mret total
  | Some lvl =>
      match fuel with
      | O => st_err (BadRecord 0 "out of fuel")
      | S fuel =>
          total ← merge_level lvl (default no_merge_faults (head mfs)) total;
          cascade fuel (tail mfs) total
      end
  end.

Definition with_new_file_id (id : Z) (r : ReclaimReport) : ReclaimReport :=
  mkReport (live_keys r) (live_bytes r) (dead_files_dropped r) (dead_files_leaked r) id.

(** The sealed active file stays the active one until the cascade is done. *)
Definition seal_run (self : NsLog.t) : NsLog.t :=
  let old_active := NsLog.active self in
  NsLog.set_sealed (<[LogFile.file_id old_active := old_active]> (NsLog.sealed self)) self.

Definition reclaim_inner (io : faults) (mfs : list merge_faults) : NsLog.M ReclaimReport :=
  NsLog.write_active_footer io;;
  st_modify seal_run;;
  self ← st_get;
  total ← cascade (size (NsLog.sealed self)) mfs (mkReport 0 0 0 0 0);
  self ← st_get;
  new_active_id ← st_lift (NsLog.next_file_id self);
  st_lift (io_step (f_open io));;
  st_modify (fun self =>
    NsLog.set_unsynced 0 (NsLog.set_active (LogFile.open new_active_id []) self));;
  mret (with_new_file_id new_active_id total).

(** The step is taken when no write is in flight, which [reclaim] waits for. *)
Definition reclaim (io : faults) (mfs : list merge_faults) : NsLog.M ReclaimReport := fun self =>
  if NsLog.reclaim_in_progress self then (Err ReclamationBusy, self) else
  let '(r, self) := reclaim_inner io mfs (NsLog.set_reclaiming true self) in
  (r, NsLog.set_reclaiming false self).

(** ** The copies *)

(** The record of an entry, in a set of files. *)
Definition stored_in (files : Z -> option LogFile.t) (e : IndexEntry) (b : bytes) : Prop :=
  exists f, files (file_id e) = Some f /\ sub (LogFile.data f) (record_offset e) (record_size e) = Some b.

(** [y] is the copy of [x] with the same record bytes in [d]. *)
Definition copied (files : Z -> option LogFile.t) (id : Z) (d : bytes) (x y : live_entry) : Prop :=
  y.1.1 = x.1.1 /\ y.2 = x.2 /\ file_id y.1.2 = id /\ record_size y.1.2 = record_size x.1.2 /\
  ie_tstamp_ms y.1.2 = ie_tstamp_ms x.1.2 /\
  exists b, stored_in files x.1.2 b /\ sub d (record_offset y.1.2) (record_size y.1.2) = Some b.

Lemma copied_extend files id d d' x y : copied files id d x y -> copied files id (d ++ d') x y.
Proof.
  intros (? & ? & ? & ? & ? & b & Hb & Hs). unfold copied. split_and!; try done.
  exists b. split; [done|]. by apply sub_extend.
Qed.

Lemma sub_zlen {A} (l : list A) off n s : sub l off n = Some s -> zlen s = n.
Proof. intros H. apply sub_length in H. done. Qed.

Lemma copy_live_spec files id live : forall fs nf ft es lb nf' ft' es' lb',
  LogFile.clean nf -> LogFile.file_id nf = id ->
  copy_live files id live fs nf ft es lb = Ok (nf', ft', es', lb') ->
  LogFile.clean nf' /\ LogFile.file_id nf' = id /\ (exists d, LogFile.data nf' = LogFile.data nf ++ d) /\
  exists es2, es' = es ++ es2 /\ Forall2 (copied (fun i => files !! i) id (LogFile.data nf')) live es2.
Proof.
  induction live as [|[[k e] ttl] live IH]; intros fs nf ft es lb nf' ft' es' lb' Hc Hid H.
  { injection H as <- <- <- <-. split_and!; try done; [by exists []; rewrite app_nil_r|].
    exists []. by rewrite app_nil_r. }
  cbn [copy_live] in H. apply bind_Ok_inv in H as (b & Hb & H).
  destruct (LogFile.append nf b _) as [r nf1] eqn:Ha. apply bind_Ok_inv in H as (off & -> & H).
  destruct (LogFile.append_cases _ _ _ _ _ (or_intror Hc) Ha) as [(_ & [= ->] & ->)|[[? [=]] _]].
  destruct (IH _ _ _ _ _ _ _ _ _ (LogFile.clean_open _ _) Hid H) as (Hc' & Hid' & [d Hd] & es2 & -> & Hf).
  cbn [LogFile.open LogFile.data] in Hd.
  split_and!; try done; [exists (b ++ d); by rewrite app_assoc|].
  eexists. split; [by rewrite <- app_assoc|]. constructor; [|done].
  destruct (files !! file_id e) as [f|] eqn:Hf1; [|done]. unfold LogFile.read_exact in Hb.
  destruct (sub (LogFile.data f) _ _) as [b'|] eqn:Hs; [|done]. injection Hb as ->.
  unfold copied; cbn. split_and!; try done. exists b. split; [by exists f|].
  rewrite Hd. apply sub_extend. rewrite <- (sub_zlen _ _ _ _ Hs), <- (app_nil_r b) at 1.
  by rewrite sub_mid.
Qed.
(** ** Moving the index *)

Lemma reindex_spec es : forall idx,
  NoDup es.*1.*1 ->
  NsIndex.valsep (reindex idx es) = NsIndex.valsep idx /\
  (NsIndex.inv idx -> NsIndex.inv (reindex idx es)) /\
  (forall k e ttl, (k, e, ttl) ∈ es ->
     NsIndex.get (reindex idx es) k = Some e /\ NsIndex.get_ttl (reindex idx es) k = ttl) /\
  (forall k, k ∉ es.*1.*1 ->
     NsIndex.get (reindex idx es) k = NsIndex.get idx k /\
     NsIndex.get_ttl (reindex idx es) k = NsIndex.get_ttl idx k).
Proof.
  induction es as [|[[k e] ttl] es IH]; intros idx Hnd.
  { split_and!; try done. intros k e ttl Hin. by apply not_elem_of_nil in Hin. }
  csimpl in Hnd. apply NoDup_cons in Hnd as [Hk Hnd].
  destruct (IH (NsIndex.insert idx k e ttl) Hnd) as (Hv & Hi & Hin & Hout).
  change (reindex idx ((k, e, ttl) :: es)) with (reindex (NsIndex.insert idx k e ttl) es).
  split_and!.
  - by rewrite Hv.
  - intros Hidx. by apply Hi, NsIndex.inv_insert.
  - intros k' e' ttl' [[= -> -> ->]|Hin']%elem_of_cons; [|by apply Hin].
    destruct (Hout k Hk) as [-> ->]. unfold NsIndex.get, NsIndex.get_ttl. simpl.
    rewrite lookup_insert_eq. split; [done|]. destruct ttl; simpl; [apply lookup_insert_eq|apply lookup_delete_eq].
  - intros k' Hk'. csimpl in Hk'. apply not_elem_of_cons in Hk' as [Hne Hk'].
    destruct (Hout k' Hk') as [-> ->]. unfold NsIndex.get, NsIndex.get_ttl. simpl.
    rewrite lookup_insert_ne by done. split; [done|].
    destruct ttl; simpl; [by apply lookup_insert_ne|by apply lookup_delete_ne].
Qed.

Lemma live_in_elem idx ids k e :
  NsIndex.get idx k = Some e -> file_id e ∈ ids -> (k, e, NsIndex.get_ttl idx k) ∈ live_in idx ids.
Proof.
  intros He Hid. unfold live_in. apply (list_elem_of_fmap_2' _ _ (k, e)); [|done].
  apply list_elem_of_filter. split; [done|]. by apply btree_iter_elem.
Qed.

Lemma live_in_inv idx ids k e ttl :
  (k, e, ttl) ∈ live_in idx ids ->
  NsIndex.get idx k = Some e /\ file_id e ∈ ids /\ ttl = NsIndex.get_ttl idx k.
Proof.
  intros ([k' e'] & [= -> -> ->] & [Hid Hin]%list_elem_of_filter)%list_elem_of_fmap.
  by apply btree_iter_elem in Hin.
Qed.

Lemma live_in_keys idx ids k :
  k ∈ (live_in idx ids).*1.*1 -> exists e, NsIndex.get idx k = Some e /\ file_id e ∈ ids.
Proof.
  rewrite <- list_fmap_compose. intros ([[k' e] ttl] & -> & Hin)%list_elem_of_fmap.
  apply live_in_inv in Hin as (He & Hid & _). eauto.
Qed.

Lemma live_in_NoDup idx ids : NoDup (live_in idx ids).*1.*1.
Proof.
  unfold live_in. rewrite <- !list_fmap_compose. unfold compose. simpl.
  apply NoDup_fst_filter, btree_iter_NoDup.
Qed.

Lemma copied_keys files id d live es : Forall2 (copied files id d) live es -> es.*1.*1 = live.*1.*1.
Proof. induction 1 as [|x y live es (Hk & _) _ IH]; csimpl; [done|]. by rewrite Hk, IH. Qed.

Lemma copied_elem files id d live es k e ttl :
  Forall2 (copied files id d) live es -> (k, e, ttl) ∈ live ->
  exists e', (k, e', ttl) ∈ es /\ copied files id d (k, e, ttl) (k, e', ttl).
Proof.
  intros Hf (i & Hi)%list_elem_of_lookup. destruct (Forall2_lookup_l _ _ _ _ _ Hf Hi) as ([[k' e'] ttl'] & Hi' & Hc).
  pose proof Hc as (Hk & Ht & _). simpl in Hk, Ht. subst. exists e'. split; [|done].
  by eapply list_elem_of_lookup_2.
Qed.

(** ** One merge *)

(** While the cascade runs, the active file is also one of the runs. *)
Definition alias (ns : NsLog.t) : Prop :=
  forall f, NsLog.sealed ns !! LogFile.file_id (NsLog.active ns) = Some f -> f = NsLog.active ns.

Lemma delete_all_lookup {V} (ids : list Z) (i : Z) : forall m : gmap Z V,
  foldl (fun m id => delete id m) m ids !! i = if decide (i ∈ ids) then None else m !! i.
Proof.
  induction ids as [|id ids IH]; intros m; simpl; [done|]. rewrite IH.
  repeat case_decide; try done; rewrite ?lookup_delete; repeat case_decide; set_solver.
Qed.

Lemma runs_at_elem ns lvl id :
  id ∈ runs_at ns lvl <-> is_Some (NsLog.sealed ns !! id) /\ level_of ns id = lvl.
Proof.
  unfold runs_at. rewrite list_elem_of_filter, list_elem_of_fmap. split.
  - intros [Hl ([i f] & -> & Hin)]. apply elem_of_map_to_list in Hin. simpl. eauto.
  - intros [[f Hf] Hl]. split; [done|]. exists (id, f). split; [done|]. by apply elem_of_map_to_list.
Qed.

Lemma run_files_lookup ns ids id f :
  (forall id f, NsLog.sealed ns !! id = Some f -> LogFile.file_id f = id) ->
  (list_to_map ((fun f => (LogFile.file_id f, f)) <$> omap (fun id => NsLog.sealed ns !! id) ids)
     : gmap Z LogFile.t) !! id = Some f ->
  id ∈ ids /\ NsLog.sealed ns !! id = Some f.
Proof.
  intros Hids (g & [= -> ->] & (i & Hi & Hg)%list_elem_of_omap)%elem_of_list_to_map_2%list_elem_of_fmap.
  by rewrite (Hids _ _ Hg).
Qed.

(** What the swap moves an entry to, or leaves alone. *)
Lemma swap_rec_at x m ns lvl ids id merged es k e r :
  repr_x x m ns -> alias ns ->
  NsLog.next_file_id ns = Ok id ->
  Forall2 (copied (fun i => (list_to_map ((fun f => (LogFile.file_id f, f))
      <$> omap (fun id => NsLog.sealed ns !! id) ids) : gmap Z LogFile.t) !! i) id (LogFile.data merged))
    (live_in (NsLog.index ns) ids) es ->
  NsIndex.get (NsLog.index ns) k = Some e -> rec_at ns e r ->
  exists e', NsIndex.get (reindex (NsLog.index ns) es) k = Some e' /\
    NsIndex.get_ttl (reindex (NsLog.index ns) es) k = NsIndex.get_ttl (NsLog.index ns) k /\
    ie_tstamp_ms e' = ie_tstamp_ms e /\
    rec_at (swap_runs lvl ids id (LogFile.open id (LogFile.data merged)) es ns) e' r.
Proof.
  intros Hr Hal Hid Hf He (f & Hloc & Hsz & Hsub).
  destruct (next_file_id_fresh _ _ Hid) as [Ha Hs].
  pose proof (live_in_NoDup (NsLog.index ns) ids) as Hnd. rewrite <- (copied_keys _ _ _ _ _ Hf) in Hnd.
  destruct (reindex_spec es (NsLog.index ns) Hnd) as (_ & _ & Hin & Hout).
  assert (forall i, i <> id -> i ∉ ids ->
    NsLog.locate_file (swap_runs lvl ids id (LogFile.open id (LogFile.data merged)) es ns) i
    = NsLog.locate_file ns i) as Hother.
  { intros i Hne Hni. unfold NsLog.locate_file. simpl. case_decide; [done|].
    rewrite lookup_insert_ne, delete_all_lookup by done. by rewrite decide_False. }
  destruct (decide (file_id e ∈ ids)) as [Hi|Hi].
  - destruct (copied_elem _ _ _ _ _ _ _ _ Hf (live_in_elem _ _ _ _ He Hi)) as (e' & He' & Hc).
    destruct (Hin _ _ _ He') as [Hg Ht]. destruct Hc as (_ & _ & Hfid & Hsz' & Hts & b & (g & Hg' & Hb) & Hb').
    simpl in *. apply run_files_lookup in Hg' as [_ Hg']; [|apply (rp_files _ _ _ Hr)].
    exists e'. split_and!; try done. exists (LogFile.open id (LogFile.data merged)). split_and!.
    + unfold NsLog.locate_file. simpl. rewrite Hfid, decide_False by lia. apply lookup_insert_eq.
    + congruence.
    + assert (f = g) as ->.
      { unfold NsLog.locate_file in Hloc. case_decide as Hact; [|congruence].
        injection Hloc as <-. symmetry. apply Hal. by rewrite Hact. }
      simpl. rewrite Hb', <- Hb. done.
  - destruct (Hout k) as [Hg Ht].
    { rewrite (copied_keys _ _ _ _ _ Hf). intros (e1 & He1 & Hid1)%live_in_keys. congruence. }
    exists e. split_and!; [congruence..|]. exists f. split_and!; try done.
    rewrite Hother; [done| |done]. intros Heq. unfold NsLog.locate_file in Hloc.
    case_decide; [lia|]. apply Hs in Hloc. lia.
Qed.

Lemma swap_repr x m ns lvl ids id merged es :
  repr_x x m ns -> alias ns -> NsLog.next_file_id ns = Ok id ->
  Forall2 (copied (fun i => (list_to_map ((fun f => (LogFile.file_id f, f))
      <$> omap (fun id => NsLog.sealed ns !! id) ids) : gmap Z LogFile.t) !! i) id (LogFile.data merged))
    (live_in (NsLog.index ns) ids) es ->
  let ns' := swap_runs lvl ids id (LogFile.open id (LogFile.data merged)) es ns in
  repr_x x m ns' /\ alias ns'.
Proof.
  intros Hr Hal Hid Hf ns'. destruct (next_file_id_fresh _ _ Hid) as [Ha Hs].
  pose proof (live_in_NoDup (NsLog.index ns) ids) as Hnd. rewrite <- (copied_keys _ _ _ _ _ Hf) in Hnd.
  destruct (reindex_spec es (NsLog.index ns) Hnd) as (Hv & Hi & Hin & Hout).
  assert (forall k, is_Some (NsIndex.get (NsLog.index ns') k) <-> is_Some (NsIndex.get (NsLog.index ns) k)) as Hdom.
  { intros k. simpl. destruct (decide (k ∈ es.*1.*1)) as [Hk|Hk]; [|by destruct (Hout k Hk) as [-> _]].
    pose proof Hk as Hk'. rewrite (copied_keys _ _ _ _ _ Hf) in Hk'.
    apply live_in_keys in Hk' as (e0 & He0 & _).
    rewrite <- list_fmap_compose in Hk. apply list_elem_of_fmap in Hk as ([[k0 e] ttl] & -> & Hk).
    destruct (Hin _ _ _ Hk) as [He _]. simpl in *. split; eauto. }
  pose proof Hr as [Rix Rval Rx Rref [Hfi Hids] Rdom Rent Rrev]. split; [split|]; try done.
  - by apply Hi.
  - intros h. simpl. by rewrite Hv.
  - split; [done|]. intros i f. simpl. rewrite lookup_insert.
    case_decide; [by intros [= <-]|]. rewrite delete_all_lookup. case_decide; [done|]. apply Hids.
  - intros k. rewrite Hdom. apply Rdom.
  - intros k a e' Hk He'. destruct (proj1 (Rdom k)) as [e He]; [eauto|].
    destruct (Rent k a e Hk He) as (Httl & Hrev & r & Hrec & Hwf & Hkey & Ht & Hm & Hval).
    destruct (swap_rec_at x m ns lvl ids id merged es k e r Hr Hal Hid Hf He Hrec)
      as (e2 & He2 & Httl2 & Hts2 & Hrec2).
    assert (e2 = e') as -> by (simpl in He'; congruence).
    split_and!; [simpl; congruence..|]. exists r. split_and!; try done.
    unfold NsIndex.get_valsep. simpl. by rewrite Hv.
  - intros f. simpl. rewrite lookup_insert_ne by lia. rewrite delete_all_lookup.
    case_decide; [done|]. apply Hal.
Qed.

(** What a merge keeps besides the map. *)
Record merged_from (ns ns' : NsLog.t) : Prop := {
  mg_active : NsLog.active ns' = NsLog.active ns;
  mg_config : NsLog.config ns' = NsLog.config ns;
  mg_tstamp : NsLog.last_tstamp ns' = NsLog.last_tstamp ns;
  mg_frozen : NsLog.frozen ns' = NsLog.frozen ns;
  mg_flight : NsLog.in_flight_writes ns' = NsLog.in_flight_writes ns;
}.

#[local] Instance merged_from_refl : Reflexive merged_from.
Proof. by split. Qed.
#[local] Instance merged_from_trans : Transitive merged_from.
Proof. intros a b c [] []. split; congruence. Qed.

Lemma reclaim_namespace_spec files id live mf report es merged :
  reclaim_namespace files id live mf = Ok (report, es, merged) ->
  new_file_id report = id /\
  Forall2 (copied (fun i => (list_to_map ((fun f => (LogFile.file_id f, f)) <$> files)
    : gmap Z LogFile.t) !! i) id (LogFile.data merged)) live es.
Proof.
  unfold reclaim_namespace. intros H. apply bind_Ok_inv in H as (_ & _ & H).
  apply bind_Ok_inv in H as ([[[nf ft] es'] lb] & Hc & H).
  destruct (LogFile.write_footer _ _ _ _ _) as [r nf'] eqn:Hw. apply bind_Ok_inv in H as (_ & _ & H).
  apply bind_Ok_inv in H as (_ & _ & [= <- <- <-]). split; [done|].
  destruct (copy_live_spec _ _ _ _ _ _ _ _ _ _ _ _ (LogFile.clean_open id []) eq_refl Hc)
    as (Hcl & _ & _ & es2 & -> & Hf).
  destruct (LogFile.write_footer_inv _ _ _ _ _ _ _ (or_intror Hcl) Hw) as (_ & _ & d & ->).
  eapply Forall2_impl; [exact Hf|]. intros. by apply copied_extend.
Qed.

(** A merge of the level [lvl] succeeded or stopped before the swap. *)
Lemma merge_level_inv lvl mf total ns r ns' :
  merge_level lvl mf total ns = (r, ns') ->
  (exists report es id merged,
     r = Ok (add_report total report) /\ NsLog.next_file_id ns = Ok id /\
     reclaim_namespace (omap (fun id => NsLog.sealed ns !! id) (runs_at ns lvl)) id
       (live_in (NsLog.index ns) (runs_at ns lvl)) mf = Ok (report, es, merged) /\
     ns' = swap_runs lvl (runs_at ns lvl) id (LogFile.open id (LogFile.data merged)) es
             (NsLog.set_compaction (NsLog.compaction_bytes ns + live_bytes report) ns)) \/
  (exists e c, r = Err e /\ ns' = NsLog.set_compaction c ns).
Proof.
  assert (ns = NsLog.set_compaction (NsLog.compaction_bytes ns) ns) as Hself by (by destruct ns).
  unfold merge_level, st_get, st_lift, st_modify, mbind, st_mbind, st_bind.
  destruct (NsLog.next_file_id ns) as [id|e] eqn:Hid; [|intros [= <- <-]; right; eauto].
  destruct (reclaim_namespace _ _ _ _) as [[[report es] merged]|e] eqn:Hrec;
    [|intros [= <- <-]; right; eauto].
  destruct (mf_open mf) as [k|]; cbn [io_step]; [intros [= <- <-]; right; eauto|].
  intros [= <- <-]. left. by exists report, es, id, merged.
Qed.

Lemma repr_compaction x m ns c : repr_x x m ns -> repr_x x m (NsLog.set_compaction c ns).
Proof. intros Hr. by eapply repr_same. Qed.

Lemma merge_level_repr x m lvl mf total ns r ns' :
  repr_x x m ns -> alias ns -> merge_level lvl mf total ns = (r, ns') ->
  repr_x x m ns' /\ alias ns' /\ merged_from ns ns'.
Proof.
  intros Hr Hal [(report & es & id & merged & _ & Hid & Hrec & ->)|(e & c & _ & ->)]%merge_level_inv.
  - apply reclaim_namespace_spec in Hrec as [_ Hf].
    destruct (swap_repr x m (NsLog.set_compaction (NsLog.compaction_bytes ns + live_bytes report) ns)
      lvl (runs_at ns lvl) id merged es) as [Hr' Hal']; [by apply repr_compaction|done..|].
    split_and!; [done..|by split].
  - split_and!; [by apply repr_compaction|done|by split].
Qed.

(** During the cascade every entry is in one of the runs. *)
Definition homed (ns : NsLog.t) : Prop :=
  forall k e, NsIndex.get (NsLog.index ns) k = Some e -> is_Some (NsLog.sealed ns !! file_id e).

Lemma seal_run_homed x m ns : repr_x x m ns -> homed (seal_run ns).
Proof.
  intros Hr k e He. simpl in He. destruct (proj2 (rp_dom _ _ _ Hr k)) as [a Ha]; [eauto|].
  destruct (rp_entry _ _ _ Hr k a e Ha He) as (_ & _ & r & (f & Hf & _) & _).
  unfold NsLog.locate_file in Hf. simpl. rewrite lookup_insert. repeat case_decide; eauto.
Qed.

Lemma homed_locate ns k e :
  alias ns -> homed ns -> NsIndex.get (NsLog.index ns) k = Some e ->
  NsLog.sealed ns !! file_id e = NsLog.locate_file ns (file_id e).
Proof.
  intros Hal Hh He. unfold NsLog.locate_file. case_decide as Hact; [|done].
  destruct (Hh k e He) as [f Hf]. rewrite Hf. f_equal. apply Hal. by rewrite Hact.
Qed.

Lemma swap_homed ns lvl ids id merged es files :
  homed ns -> Forall2 (copied files id (LogFile.data merged)) (live_in (NsLog.index ns) ids) es ->
  homed (swap_runs lvl ids id (LogFile.open id (LogFile.data merged)) es ns).
Proof.
  intros Hh Hf k e'. simpl.
  pose proof (live_in_NoDup (NsLog.index ns) ids) as Hnd. rewrite <- (copied_keys _ _ _ _ _ Hf) in Hnd.
  destruct (reindex_spec es (NsLog.index ns) Hnd) as (_ & _ & Hin & Hout).
  destruct (decide (k ∈ (live_in (NsLog.index ns) ids).*1.*1)) as [(e & He & Hi)%live_in_keys|Hno].
  - destruct (copied_elem _ _ _ _ _ _ _ _ Hf (live_in_elem _ _ _ _ He Hi)) as (e2 & He2 & Hc).
    destruct (Hin _ _ _ He2) as [-> _]. intros [= <-]. destruct Hc as (_ & _ & Hid & _). simpl in Hid.
    rewrite Hid, lookup_insert_eq. eauto.
  - destruct (Hout k) as [-> _]; [by rewrite (copied_keys _ _ _ _ _ Hf)|].
    intros He. rewrite lookup_insert. case_decide; [eauto|]. rewrite delete_all_lookup, decide_False; [by eapply Hh|].
    intros Hi. apply Hno. rewrite <- list_fmap_compose.
    by apply (list_elem_of_fmap_2' _ _ _ _ (live_in_elem _ _ _ _ He Hi)).
Qed.

Lemma merge_level_homed lvl mf total ns r ns' :
  homed ns -> merge_level lvl mf total ns = (r, ns') -> homed ns'.
Proof.
  intros Hh [(report & es & id & merged & _ & Hid & Hrec & ->)|(e & c & _ & ->)]%merge_level_inv; [|done].
  apply reclaim_namespace_spec in Hrec as [_ Hf].
  by eapply (swap_homed (NsLog.set_compaction (NsLog.compaction_bytes ns + live_bytes report) ns)).
Qed.

Lemma cascade_repr x m fuel : forall mfs total ns r ns',
  repr_x x m ns -> alias ns -> homed ns -> cascade fuel mfs total ns = (r, ns') ->
  repr_x x m ns' /\ alias ns' /\ homed ns' /\ merged_from ns ns'.
Proof.
  induction fuel as [|fuel IH]; intros mfs total ns r ns' Hr Hal Hh H; cbn [cascade] in H;
    unfold st_get, mbind, st_mbind, st_bind in H; destruct (full_level ns) as [lvl|].
  1,2,4: by injection H as <- <-.
  destruct (merge_level lvl _ total ns) as [[total1|e] ns1] eqn:Hm;
    destruct (merge_level_repr _ _ _ _ _ _ _ _ Hr Hal Hm) as (Hr1 & Hal1 & Hf1);
    pose proof (merge_level_homed _ _ _ _ _ _ Hh Hm) as Hh1.
  - destruct (IH _ _ _ _ _ Hr1 Hal1 Hh1 H) as (Hr' & Hal' & Hh' & Hf').
    split_and!; [done..|by etransitivity].
  - by injection H as <- <-.
Qed.

Lemma seal_run_repr x m ns : repr_x x m ns -> repr_x x m (seal_run ns) /\ alias (seal_run ns).
Proof.
  intros Hr. pose proof (rp_files _ _ _ Hr) as [Hfi Hids]. split.
  - eapply repr_files; try done.
    + split; [done|]. intros id f. simpl. rewrite lookup_insert. case_decide; [by intros [= <-]|]. apply Hids.
    + intros id f. unfold NsLog.locate_file. simpl. intros Hf. exists f, []. rewrite app_nil_r.
      split; [|done]. case_decide; [done|]. by rewrite lookup_insert_ne.
  - intros f. simpl. by rewrite lookup_insert_eq; intros [= <-].
Qed.

(** The new active file, with an id that nothing has. *)
Lemma new_active_repr x m ns id :
  repr_x x m ns -> (forall k e, NsIndex.get (NsLog.index ns) k = Some e ->
    NsLog.sealed ns !! file_id e = NsLog.locate_file ns (file_id e)) ->
  NsLog.next_file_id ns = Ok id ->
  repr_x x m (NsLog.set_unsynced 0 (NsLog.set_active (LogFile.open id []) ns)).
Proof.
  intros Hr Hloc Hid. destruct (next_file_id_fresh _ _ Hid) as [Ha Hs].
  pose proof Hr as [Rix Rval Rx Rref [Hfi Hids] Rdom Rent Rrev]. split; try done.
  - split; [right; apply LogFile.clean_open|done].
  - intros k a e Hk He. destruct (Rent k a e Hk He) as (Httl & Hrev & r & Hrec & Hrest).
    split_and!; [done..|]. exists r. split; [|done]. destruct Hrec as (f & Hf & Hsz & Hsub).
    exists f. split_and!; try done. rewrite <- (Hloc k e He) in Hf. unfold NsLog.locate_file. simpl.
    rewrite decide_False; [done|]. apply Hs in Hf. lia.
Qed.

(** Whatever happens, the log represents the same map. *)
Lemma reclaim_repr x m io mfs ns r ns' :
  repr_x x m ns -> reclaim io mfs ns = (r, ns') ->
  repr_x x m ns' /\ NsLog.last_tstamp ns' = NsLog.last_tstamp ns /\
  NsLog.frozen ns' = NsLog.frozen ns /\ NsLog.in_flight_writes ns' = NsLog.in_flight_writes ns.
Proof.
  intros Hr. unfold reclaim. destruct (NsLog.reclaim_in_progress ns); [by intros [= <- <-]|].
  destruct (reclaim_inner io mfs _) as [r1 ns1] eqn:Hin. intros [= <- <-].
  assert (repr_x x m ns1 /\ merged_from (NsLog.set_active (NsLog.active ns1) ns) ns1) as [Hr1 []];
    [|by split; [eapply repr_same|]].
  assert (repr_x x m (NsLog.set_reclaiming true ns)) as Hr0 by (by eapply repr_same).
  unfold reclaim_inner in Hin.
  apply st_bind_inv in Hin as [(u & ns2 & Hw & Hin)|(e & Hw & _)].
  2: { split; [by eapply repr_kept; [eapply write_active_footer_kept|]|].
       unfold NsLog.write_active_footer in Hw. destruct (LogFile.write_footer _ _ _ _ _).
       injection Hw as _ <-. by split. }
  assert (repr_x x m ns2) as Hr2 by (by eapply repr_kept; [eapply write_active_footer_kept|]).
  assert (exists a, ns2 = NsLog.set_active a (NsLog.set_reclaiming true ns)) as [a ->].
  { unfold NsLog.write_active_footer in Hw. destruct (LogFile.write_footer _ _ _ _ _).
    injection Hw as _ <-. eauto. }
  unfold st_modify, st_get, st_lift, mbind, st_mbind, st_bind in Hin. clear Hw.
  destruct (seal_run_repr _ _ _ Hr2) as [Hr3 Hal3]. pose proof (seal_run_homed _ _ _ Hr2) as Hh3.
  destruct (cascade _ _ _ _) as [[total|e] ns4] eqn:Hc;
    destruct (cascade_repr _ _ _ _ _ _ _ _ Hr3 Hal3 Hh3 Hc) as (Hr4 & Hal4 & Hh4 & []).
  2: { injection Hin as <- <-. split; [done|]. by split. }
  destruct (NsLog.next_file_id ns4) as [id|e] eqn:Hid; [|injection Hin as <- <-; split; [done|by split]].
  destruct (io_step (f_open io)); injection Hin as <- <-.
  - split; [|by split]. apply new_active_repr; [done| |done].
    intros k e He. by eapply homed_locate.
  - split; [done|]. by split.
Qed.

(** ** The cascade ends *)

Lemma runs_at_NoDup ns lvl : NoDup (runs_at ns lvl).
Proof. unfold runs_at. apply NoDup_filter, NoDup_fst_map_to_list. Qed.

Lemma delete_all_size {V} (ids : list Z) : forall m : gmap Z V,
  NoDup ids -> (forall i, i ∈ ids -> is_Some (m !! i)) ->
  (size (foldl (fun m id => delete id m) m ids) + length ids = size m)%nat.
Proof.
  induction ids as [|id ids IH]; intros m Hnd Hin; simpl; [lia|].
  apply NoDup_cons in Hnd as [Hid Hnd].
  assert (is_Some (m !! id)) as Hm by (apply Hin; set_solver).
  specialize (IH (delete id m) Hnd).
  rewrite map_size_delete_Some in IH by done.
  assert (size m <> 0%nat) by (apply map_size_ne_0_lookup; destruct Hm; eauto).
  rewrite <- Nat.add_succ_comm, Nat.add_succ_l, IH; [lia|].
  intros i Hi. rewrite lookup_delete_ne by (intros ->; done). apply Hin. set_solver.
Qed.

Lemma full_level_Some ns lvl :
  full_level ns = Some lvl -> (fanout (NsLog.config ns) <= length (runs_at ns lvl))%nat.
Proof.
  unfold full_level. intros H. destruct (filter _ _) as [|l ls] eqn:Hf; [done|]. injection H as ->.
  assert (lvl ∈ lvl :: ls) as Hin by set_solver. rewrite <- Hf in Hin.
  by apply list_elem_of_filter in Hin as [[_ ?] _].
Qed.

Lemma full_level_None ns lvl :
  full_level ns = None -> 0 <= lvl <= u8_max -> (0 < fanout (NsLog.config ns))%nat ->
  (length (runs_at ns lvl) < fanout (NsLog.config ns))%nat.
Proof.
  unfold full_level. intros H Hl Hf. destruct (filter _ _) as [|l ls] eqn:Hfl; [|done].
  apply Nat.nle_gt. intros Hge.
  assert (lvl ∈ @nil Z) as []%elem_of_nil. rewrite <- Hfl. apply list_elem_of_filter.
  split; [|apply elem_of_seqZ; unfold u8_max in Hl; lia].
  split; [|done]. intros Hnil. rewrite Hnil in Hge. simpl in Hge. lia.
Qed.

(** One run is never a full level. *)
Lemma full_level_small ns :
  (2 <= fanout (NsLog.config ns))%nat -> (size (NsLog.sealed ns) <= 1)%nat -> full_level ns = None.
Proof.
  intros Hf Hs. destruct (full_level ns) as [lvl|] eqn:Hl; [|done]. apply full_level_Some in Hl.
  assert (length (runs_at ns lvl) <= size (NsLog.sealed ns))%nat; [|lia].
  unfold runs_at. etransitivity; [apply length_filter|]. rewrite length_fmap. by rewrite length_map_to_list.
Qed.

(** The largest id in use. *)
Definition top (ns : NsLog.t) : Z :=
  Z.max (NsLog.max_or_0 (map_to_list (NsLog.sealed ns)).*1) (LogFile.file_id (NsLog.active ns)).

Lemma next_file_id_top ns : top ns + 1 <= u32_max -> NsLog.next_file_id ns = Ok (top ns + 1).
Proof. intros H. unfold NsLog.next_file_id. by rewrite decide_True. Qed.

Lemma max_or_0_bound ids b : 0 <= b -> (forall i, i ∈ ids -> i <= b) -> NsLog.max_or_0 ids <= b.
Proof.
  intros Hb. induction ids as [|i ids IH]; simpl; intros H; [done|].
  apply Z.max_lub; [apply H; set_solver|]. apply IH. set_solver.
Qed.

Lemma swap_size ns lvl id nf es :
  (2 <= length (runs_at ns lvl))%nat -> NsLog.next_file_id ns = Ok id ->
  (size (NsLog.sealed (swap_runs lvl (runs_at ns lvl) id nf es ns)) < size (NsLog.sealed ns))%nat.
Proof.
  intros Hl Hid. destruct (next_file_id_fresh _ _ Hid) as [_ Hs]. simpl.
  pose proof (delete_all_size (runs_at ns lvl) (NsLog.sealed ns) (runs_at_NoDup ns lvl)) as Hd.
  rewrite map_size_insert_None.
  - rewrite <- Hd; [lia|]. intros i Hi. by apply runs_at_elem in Hi as [? _].
  - rewrite delete_all_lookup. case_decide; [done|]. apply eq_None_not_Some. intros [f Hf].
    apply Hs in Hf. lia.
Qed.

Lemma swap_top ns lvl ids id nf es :
  0 <= LogFile.file_id (NsLog.active ns) ->
  NsLog.next_file_id ns = Ok id -> top (swap_runs lvl ids id nf es ns) <= id.
Proof.
  intros Ha0 Hid. destruct (next_file_id_fresh _ _ Hid) as [Ha Hs]. unfold top. simpl.
  apply Z.max_lub; [|lia]. apply max_or_0_bound; [lia|].
  intros i ([j f] & -> & Hin%elem_of_map_to_list)%list_elem_of_fmap. simpl.
  apply lookup_insert_Some in Hin as [[-> _]|[_ Hin]]; [lia|].
  rewrite delete_all_lookup in Hin. case_decide; [done|]. apply Hs in Hin. lia.
Qed.

(** Every merge leaves fewer runs, so more fuel changes nothing. *)
Lemma cascade_fuel n fuel : forall mfs total ns,
  (2 <= fanout (NsLog.config ns))%nat -> (size (NsLog.sealed ns) <= fuel + 1)%nat ->
  cascade (fuel + n) mfs total ns = cascade fuel mfs total ns.
Proof.
  induction fuel as [|fuel IH]; intros mfs total ns Hf Hs.
  - assert (full_level ns = None) as Hn by (apply full_level_small; [done|lia]).
    destruct n; cbn [cascade Nat.add]; unfold st_get, mbind, st_mbind, st_bind; by rewrite Hn.
  - cbn [cascade Nat.add]. unfold st_get, mbind, st_mbind, st_bind.
    destruct (full_level ns) as [lvl|] eqn:Hl; [|done]. apply full_level_Some in Hl.
    destruct (merge_level _ _ _ _) as [[total1|e] ns1] eqn:Hm; [|done].
    apply merge_level_inv in Hm as [(report & es & id & merged & _ & Hid & _ & ->)|(e & c & [=] & _)].
    apply IH; [done|].
    pose proof (swap_size (NsLog.set_compaction (NsLog.compaction_bytes ns + live_bytes report) ns) lvl id
      (LogFile.open id (LogFile.data merged)) es ltac:(change (runs_at _ lvl) with (runs_at ns lvl); lia) Hid) as Hsz.
    change (runs_at (NsLog.set_compaction _ ns) lvl) with (runs_at ns lvl) in Hsz.
    simpl in Hsz |- *. lia.
Qed.

(** ** A reclaim without failures succeeds *)

Lemma copy_live_ok files id live : forall nf ft es lb,
  LogFile.clean nf ->
  Forall (fun x : live_entry => exists b, stored_in (fun i => files !! i) x.1.2 b) live ->
  exists res, copy_live files id live [] nf ft es lb = Ok res /\ LogFile.clean res.1.1.1.
Proof.
  induction live as [|[[k e] ttl] live IH]; intros nf ft es lb Hc Hl; [by eexists|].
  apply Forall_cons in Hl as [(b & f & Hf & Hs) Hl]. simpl in Hf, Hs. cbn [copy_live].
  rewrite Hf. unfold LogFile.read_exact. rewrite Hs. cbn [ok_or mbind result_bind head default].
  rewrite LogFile.append_ok by done. cbn [mbind result_bind tail]. apply IH; [apply LogFile.clean_open|done].
Qed.

Lemma run_files_complete ns ids id f :
  (forall id f, NsLog.sealed ns !! id = Some f -> LogFile.file_id f = id) ->
  id ∈ ids -> NsLog.sealed ns !! id = Some f ->
  (list_to_map ((fun f => (LogFile.file_id f, f)) <$> omap (fun id => NsLog.sealed ns !! id) ids)
     : gmap Z LogFile.t) !! id = Some f.
Proof.
  intros Hids Hin Hf. apply elem_of_list_to_map_1'.
  - intros g ([] & [= -> ->] & (i & Hi & Hg)%list_elem_of_omap)%list_elem_of_fmap.
    pose proof (Hids _ _ Hg) as Heq. simpl in Heq. subst i. rewrite Hf in Hg. by injection Hg as <-.
  - apply list_elem_of_fmap. exists f. rewrite (Hids _ _ Hf). split; [done|].
    apply list_elem_of_omap. eauto.
Qed.

Lemma live_stored x m ns lvl :
  repr_x x m ns -> alias ns -> homed ns ->
  Forall (fun x : live_entry => exists b, stored_in (fun i => (list_to_map ((fun f => (LogFile.file_id f, f))
      <$> omap (fun id => NsLog.sealed ns !! id) (runs_at ns lvl)) : gmap Z LogFile.t) !! i) x.1.2 b)
    (live_in (NsLog.index ns) (runs_at ns lvl)).
Proof.
  intros Hr Hal Hh. apply Forall_forall. intros [[k e] ttl] (He & Hi & _)%live_in_inv. simpl.
  destruct (proj2 (rp_dom _ _ _ Hr k)) as [a Ha]; [eauto|].
  destruct (rp_entry _ _ _ Hr k a e Ha He) as (_ & _ & r & (f & Hf & _ & Hs) & _).
  rewrite <- (homed_locate _ _ _ Hal Hh He) in Hf.
  exists (rec_bytes r), f. split; [|done]. apply run_files_complete; [apply (rp_files _ _ _ Hr)|done|done].
Qed.

Lemma merge_level_ok x m ns lvl total :
  repr_x x m ns -> alias ns -> homed ns -> top ns + 1 <= u32_max ->
  exists total' ns', merge_level lvl no_merge_faults total ns = (Ok total', ns').
Proof.
  intros Hr Hal Hh Ht. unfold merge_level, st_get, st_lift, st_modify, mbind, st_mbind, st_bind.
  rewrite next_file_id_top by done.
  assert (exists res, reclaim_namespace (omap (fun id => NsLog.sealed ns !! id) (runs_at ns lvl)) (top ns + 1)
    (live_in (NsLog.index ns) (runs_at ns lvl)) no_merge_faults = Ok res) as [[[report es] merged] ->].
  { unfold reclaim_namespace. cbn [no_merge_faults mf_create mf_appends io_step mbind result_bind].
    destruct (copy_live_ok _ (top ns + 1) _ (LogFile.open (top ns + 1) []) [] [] 0
      (LogFile.clean_open _ _) (live_stored _ _ _ lvl Hr Hal Hh)) as ([[[nf ft] es] lb] & -> & Hc).
    change (mf_body no_merge_faults) with (@None nat).
    change (mf_trailer no_merge_faults) with (@None nat). change (mf_sync no_merge_faults) with (@None IoKind). cbn [mbind result_bind fst] in *.
    rewrite LogFile.write_footer_ok by done. eexists. reflexivity. }
  cbn [mf_open no_merge_faults io_step]. eauto.
Qed.

Lemma cascade_ok x m fuel : forall total ns,
  repr_x x m ns -> alias ns -> homed ns -> (2 <= fanout (NsLog.config ns))%nat ->
  0 <= LogFile.file_id (NsLog.active ns) ->
  (size (NsLog.sealed ns) <= fuel + 1)%nat -> top ns + Z.of_nat fuel <= u32_max ->
  exists total' ns', cascade fuel [] total ns = (Ok total', ns') /\ full_level ns' = None /\
    top ns' <= top ns + Z.of_nat fuel.
Proof.
  induction fuel as [|fuel IH]; intros total ns Hr Hal Hh Hf Ha Hs Ht.
  - assert (full_level ns = None) as Hn by (apply full_level_small; [done|lia]).
    cbn [cascade]. unfold st_get, mbind, st_mbind, st_bind. rewrite Hn. eexists _, _. split; [done|].
    split; [done|lia].
  - cbn [cascade]. unfold st_get, mbind, st_mbind, st_bind.
    destruct (full_level ns) as [lvl|] eqn:Hl; [|eexists _, _; split; [done|split; [done|lia]]].
    apply full_level_Some in Hl.
    destruct (merge_level_ok x m ns lvl total Hr Hal Hh) as (total1 & ns1 & Hm); [lia|].
    cbn [head tail default]. rewrite Hm.
    destruct (merge_level_repr _ _ _ _ _ _ _ _ Hr Hal Hm) as (Hr1 & Hal1 & Hf1).
    pose proof (merge_level_homed _ _ _ _ _ _ Hh Hm) as Hh1.
    apply merge_level_inv in Hm as [(report & es & id & merged & _ & Hid & _ & Heq)|(e & c & [=] & _)].
    set (ns0 := NsLog.set_compaction (NsLog.compaction_bytes ns + live_bytes report) ns) in *.
    change (runs_at ns lvl) with (runs_at ns0 lvl) in *.
    assert (id = top ns + 1) as -> by (rewrite next_file_id_top in Hid by lia; by injection Hid as <-).
    assert (NsLog.next_file_id ns0 = Ok (top ns + 1)) as Hid0 by done.
    pose proof (swap_size ns0 lvl _ (LogFile.open (top ns + 1) (LogFile.data merged)) es ltac:(lia) Hid0) as Hsz.
    pose proof (swap_top ns0 lvl (runs_at ns0 lvl) _ (LogFile.open (top ns + 1) (LogFile.data merged)) es Ha Hid0) as Htop.
    rewrite <- Heq in Hsz, Htop. change (NsLog.sealed ns0) with (NsLog.sealed ns) in Hsz.
    destruct (IH total1 ns1) as (total2 & ns2 & Hc & Hn & Ht2); try done.
    + by rewrite (mg_config _ _ Hf1).
    + by rewrite (mg_active _ _ Hf1).
    + lia.
    + lia.
    + exists total2, ns2. split_and!; [done..|lia].
Qed.

Lemma top_seal_run ns : 0 <= LogFile.file_id (NsLog.active ns) -> top (seal_run ns) <= top ns.
Proof.
  intros Ha. unfold top. simpl. apply Z.max_lub; [|lia]. apply max_or_0_bound; [lia|].
  intros i ([j f] & -> & Hin%elem_of_map_to_list)%list_elem_of_fmap. simpl.
  apply lookup_insert_Some in Hin as [[-> _]|[_ Hin]]; [lia|].
  etransitivity; [|apply Z.le_max_l]. apply max_or_0_le, list_elem_of_fmap. exists (j, f).
  split; [done|]. by apply elem_of_map_to_list.
Qed.

Lemma reclaim_ok x m ns :
  repr_x x m ns -> LogFile.clean (NsLog.active ns) -> NsLog.reclaim_in_progress ns = false ->
  (2 <= fanout (NsLog.config ns))%nat -> 0 <= LogFile.file_id (NsLog.active ns) ->
  top ns + Z.of_nat (size (NsLog.sealed ns)) + 2 <= u32_max ->
  exists report ns', reclaim no_faults [] ns = (Ok report, ns') /\ full_level ns' = None /\
    NsLog.config ns' = NsLog.config ns /\ LogFile.clean (NsLog.active ns') /\
    NsLog.reclaim_in_progress ns' = false.
Proof.
  intros Hr Hc Hip Hf Ha Ht. unfold reclaim. rewrite Hip.
  unfold reclaim_inner, NsLog.write_active_footer, st_modify, st_get, st_lift, mbind, st_mbind, st_bind.
  change (NsLog.active (NsLog.set_reclaiming true ns)) with (NsLog.active ns).
  change (f_footer_body no_faults) with (@None nat). change (f_footer_trailer no_faults) with (@None nat).
  change (f_footer_sync no_faults) with (@None IoKind). change (f_open no_faults) with (@None IoKind).
  rewrite LogFile.write_footer_ok by done.
  set (a := LogFile.open _ _). set (ns1 := NsLog.set_active a (NsLog.set_reclaiming true ns)).
  assert (repr_x x m ns1) as Hr1.
  { eapply (repr_set_active x m (NsLog.set_reclaiming true ns) a); [by eapply repr_same|done|done|].
    right. apply LogFile.clean_open. }
  assert (top (seal_run ns1) <= top ns) as Ht1 by (apply (top_seal_run ns1), Ha).
  assert (size (NsLog.sealed (seal_run ns1)) <= size (NsLog.sealed ns) + 1)%nat as Hsz.
  { simpl. destruct (NsLog.sealed ns !! LogFile.file_id (NsLog.active ns)) eqn:Hl.
    - rewrite map_size_insert_Some by eauto. lia.
    - rewrite map_size_insert_None by done. lia. }
  destruct (seal_run_repr _ _ _ Hr1) as [Hr2 Hal2]. pose proof (seal_run_homed _ _ _ Hr1) as Hh2.
  destruct (cascade_ok x m (size (NsLog.sealed (seal_run ns1))) (mkReport 0 0 0 0 0) (seal_run ns1) Hr2 Hal2 Hh2)
    as (total & ns2 & Hca & Hn & Ht2); [done|done|lia|lia|].
  rewrite Hca. rewrite next_file_id_top by lia.
  destruct (cascade_repr _ _ _ _ _ _ _ _ Hr2 Hal2 Hh2 Hca) as (_ & _ & _ & []).
  eexists _, _. split; [done|]. done.
Qed.
End Ops.
End Reclaim.
