(* ===== verification/NsBatch.v ===== *)
(** * Batched writes, [put_many] of [crates/engine/src/log/mod.rs]

    A batch encodes all its records into one buffer, appends it with one write
    and then updates the index.  [put_many_repr] shows that the batch has the
    effect of its writes one after the other, all of them or none. *)

From stdpp Require Import base tactics list gmap sorting strings.
From Stdlib Require Import ZArith Lia.
From S2P Require Import Prelude Record Index LogFile ValueStore Recover NsLog NsRepr.

Open Scope Z_scope.

Section Batch.
Context {crc_impl : CrcFast} {blake : Blake3}.

(** The references a list of hashes stands for. *)
Definition sum_one (hs : list (option ContentHash)) : ContentHash -> Z := fun h =>
  foldr (fun o acc => one o h + acc) 0 hs.
#[local] Arguments sum_one : simpl never.

Lemma sum_one_nonneg hs h : 0 <= sum_one hs h.
Proof.
  induction hs as [|o hs IH]; [done|]. pose proof (one_bounds o h).
  unfold sum_one in *. cbn [foldr]. lia.
Qed.

Lemma sum_one_cons o hs h : sum_one (o :: hs) h = one o h + sum_one hs h.
Proof. done. Qed.

Lemma sum_one_app hs1 hs2 h : sum_one (hs1 ++ hs2) h = sum_one hs1 h + sum_one hs2 h.
Proof.
  induction hs1 as [|o hs1 IH]; [done|]. simpl. rewrite !sum_one_cons, IH. lia.
Qed.

Lemma sum_one_omap hs h : sum_one (Some <$> omap id hs) h = sum_one hs h.
Proof.
  induction hs as [|[h'|] hs IH]; csimpl; [done| |].
  - by rewrite !sum_one_cons, IH.
  - by rewrite !sum_one_cons, IH.
Qed.

(** Dropping a list of references. *)
Lemma repr_unrefs hs : forall x m ns,
  repr_x (fun h => x h + sum_one (Some <$> hs) h) m ns -> (forall h, 0 <= x h) ->
  repr_x x m (NsLog.set_values (foldl ValueStore.unref (NsLog.values ns) hs) ns).
Proof.
  induction hs as [|h hs IH]; intros x m ns Hr Hx.
  - eapply repr_same; [eapply repr_x_ext; [|exact Hr]|done..].
    intros h. unfold sum_one. cbn. lia.
  - simpl. specialize (IH x m (NsLog.set_values (ValueStore.unref (NsLog.values ns) h) ns)).
    apply IH; [|done]. eapply repr_x_ext; [|apply (repr_unref _ _ _ h Hr)].
    + intros h'. cbv beta. rewrite fmap_cons, sum_one_cons. lia.
    + rewrite fmap_cons, sum_one_cons, one_Some, decide_True by done.
      pose proof (sum_one_nonneg (Some <$> hs) h). specialize (Hx h). lia.
Qed.

(** ** The encoding loop *)

(** The bytes of each record and its place in the buffer. *)
Fixpoint layout_of (start : Z) (rs : list rec) : list (Z * Z * Z) :=
  match rs with
  | [] => []
  | r :: rs => (start, zlen (rec_bytes r), r_tstamp r) :: layout_of (start + zlen (rec_bytes r)) rs
  end.

(** Clocks and revisions that stay in range for [n] writes. *)
Record clock_ok (C : Z) (n : nat) (last : Z) (clock : list Z) : Prop := {
  co_last : 0 <= last <= C;
  co_clock : Forall (fun t => 0 <= t <= C) clock;
  co_room : C + Z.of_nat n <= u64_max;
}.

Lemma clock_ok_step C n last clock :
  clock_ok C (S n) last clock ->
  let now := default 0 (head clock) in
  let next := if decide (now > last) then now else last + 1 in
  is_u64 next /\ last < next /\ clock_ok (C + 1) n next (tail clock).
Proof.
  intros [Hl Hc Hr] now next.
  assert (0 <= now <= C) as Hnow.
  { subst now. destruct Hc; simpl; lia. }
  assert (last < next <= C + 1) as Hn by (subst next; case_decide; lia).
  split_and!; [zlia | lia |]. split; [lia| |zlia].
  destruct Hc as [|t ts Ht Hts]; simpl; [constructor|].
  eapply Forall_impl; [exact Hts|]. simpl. lia.
Qed.

(** What a batch needs of its pairs: records that fit, and no collisions among
    the values or with the blobs that are there. *)
Record pairs_ok (ns : NsLog.t) (pairs : list (bytes * bytes)) : Prop := {
  po_fits : forall k v, (k, v) ∈ pairs -> fits k (stored_field ns v) [];
  po_coll : forall k v, (k, v) ∈ pairs -> collision_free ns v;
  po_distinct : forall k v k' v', (k, v) ∈ pairs -> (k', v') ∈ pairs ->
    ValueStore.content_hash v = ValueStore.content_hash v' -> v = v';
}.

(** A pair with its record and its blob hash; the revision is above [lo]. *)
Record item_ok (blobs : gmap ContentHash bytes) (lo : Z) (p : bytes * bytes) (r : rec)
    (sh : option ContentHash) : Prop := {
  io_wf : rec_wf r;
  io_key : r_key r = p.1;
  io_meta : r_meta r = [];
  io_rev : lo < r_tstamp r;
  io_value : value_ok blobs sh r p.2;
  io_put : is_put r /\ rec_ttl r = None;
}.

Inductive items_ok (blobs : gmap ContentHash bytes) :
    Z -> list (bytes * bytes) -> list rec -> list (option ContentHash) -> Prop :=
| items_nil lo : items_ok blobs lo [] [] []
| items_cons lo p ps r rs sh shs :
    item_ok blobs lo p r sh -> items_ok blobs (r_tstamp r) ps rs shs ->
    items_ok blobs lo (p :: ps) (r :: rs) (sh :: shs).

Lemma item_ok_blobs b b' lo p r sh :
  (forall h, sh = Some h -> b' !! h = b !! h) -> item_ok b lo p r sh -> item_ok b' lo p r sh.
Proof.
  intros Hb []. split; try done. unfold value_ok in *. destruct (has_flag _ _); [|done].
  destruct io_value0 as (Hs & Hl & Hbl & Hch). split_and!; try done. by rewrite (Hb _ Hs).
Qed.

Lemma pairs_ok_tail ns ns' p pairs v :
  pairs_ok ns (p :: pairs) -> p.2 = v ->
  NsLog.config ns' = NsLog.config ns ->
  (forall h b, ValueStore.blobs (NsLog.values ns') !! h = Some b ->
     ValueStore.blobs (NsLog.values ns) !! h = Some b \/ b = v) ->
  pairs_ok ns' pairs.
Proof.
  intros [Hf Hc Hd] <- Hcfg Hb. destruct p as [k0 v0]. split.
  - intros k v Hin. unfold stored_field. rewrite Hcfg. by apply Hf, elem_of_cons; right.
  - intros k v Hin b Hbl Hch. destruct (Hb _ _ Hbl) as [Hold| ->].
    + by eapply (Hc k v); [right|..].
    + symmetry. apply (Hd k v k0 v0); [by right|left|done].
  - intros k v k' v' H1 H2. apply (Hd k v k' v'); by right.
Qed.

Lemma encode_pairs_spec pairs : forall C clock bfs buf layout hashes x m ns r ns',
  repr_x x m ns -> pairs_ok ns pairs ->
  clock_ok C (length pairs) (NsLog.last_tstamp ns) clock ->
  NsLog.encode_pairs pairs clock bfs buf layout hashes ns = (r, ns') ->
  (exists v ts, ns' = NsLog.set_values v (NsLog.set_last_tstamp ts ns)) /\
  NsLog.last_tstamp ns <= NsLog.last_tstamp ns' /\
  (forall h, 0 < ValueStore.refcount (NsLog.values ns) h ->
     ValueStore.blobs (NsLog.values ns') !! h = ValueStore.blobs (NsLog.values ns) !! h) /\
  match r with
  | Ok (buf', layout', hashes') => exists rs shs,
      buf' = buf ++ recs_bytes rs /\ layout' = layout ++ layout_of (zlen buf) rs /\
      hashes' = hashes ++ shs /\
      items_ok (ValueStore.blobs (NsLog.values ns')) (NsLog.last_tstamp ns) pairs rs shs /\
      Forall (fun r => r_tstamp r <= NsLog.last_tstamp ns') rs /\
      repr_x (fun h => x h + sum_one shs h) m ns'
  | Err _ => exists x', repr_x x' m ns'
  end.
Proof.
  induction pairs as [|[k v] pairs IH];
    intros C clock bfs buf layout hashes x m ns r ns' Hr Hpo Hco H; cbn [NsLog.encode_pairs] in H.
  - injection H as <- <-. split_and!; try done.
    { exists (NsLog.values ns), (NsLog.last_tstamp ns). by destruct ns. }
    exists [], []. rewrite !app_nil_r. split_and!; try done; [constructor|].
    eapply repr_x_ext; [|exact Hr]. intros h. unfold sum_one. cbn. lia.
  - pose proof (clock_ok_step _ _ _ _ Hco) as (Hu & Hlt & Hco').
    st_step H ts ns1 Hts; unfold NsLog.next_tstamp in Hts; [|discriminate Hts].
    injection Hts as Heq <-. rewrite Heq in *. clear Heq.
    pose proof (repr_tstamp _ _ _ ts Hr ltac:(lia)) as Hr1.
    pose proof (po_coll _ _ Hpo k v (list_elem_of_here _ _)) as Hcoll.
    st_step H p ns2 Hsep;
      pose proof (maybe_separate_spec _ _ _ _ _ (NsLog.set_last_tstamp ts ns) _ _ Hr1 Hcoll Hsep)
        as ([vs ->] & Hbl & Hspec); cycle 1.
    { split_and!; [by do 2 eexists | simpl; lia | done | eauto]. }
    destruct p as [sh fl]. destruct Hspec as (Hnew & Hr2 & Hsh).
    set (ns2 := NsLog.set_values vs (NsLog.set_last_tstamp ts ns)) in *.
    set (rc := mkRec ts fl 0 k (default v sh) []).
    assert (Hit : item_ok (ValueStore.blobs vs) (NsLog.last_tstamp ns) (k, v) rc sh).
    { pose proof (po_fits _ _ Hpo k v (list_elem_of_here _ _)) as Hfit.
      unfold stored_field in Hfit.
      destruct Hsh as [(-> & -> & Hs)|(-> & -> & Hs & Hb)]; simpl in Hs.
      - rewrite decide_False in Hfit by lia. by split.
      - rewrite decide_True in Hfit by lia. split; try done. unfold value_ok. simpl.
        split_and!; try done. apply ValueStore.content_hash_length. }
    st_step H buf1 ns3 Henc; unfold st_lift in Henc; rewrite encode_into_eq, decide_True in Henc
      by (apply (io_wf _ _ _ _ _ Hit)); [|discriminate Henc]. injection Henc as <- <-.
    change (record_bytes ts fl 0 k (default v sh) []) with (rec_bytes rc) in H.
    replace (zlen (buf ++ rec_bytes rc) - zlen buf) with (zlen (rec_bytes rc)) in H
      by (rewrite zlen_app; lia).
    rewrite rec_bytes_mod in H by apply (io_wf _ _ _ _ _ Hit).
    assert (Hpo2 : pairs_ok ns2 pairs) by (by eapply pairs_ok_tail).
    eapply IH in H as ((v' & ts' & ->) & Hle & Hbl' & Hres); [|exact Hr2 | exact Hpo2 | exact Hco'].
    simpl in Hle, Hbl', Hres. simpl.
    split_and!; [by do 2 eexists | lia | |].
    { intros h Hh. rewrite Hbl'; [by apply Hbl|].
      pose proof (rp_refs _ _ _ Hr2 h) as E2. pose proof (rp_refs _ _ _ Hr h) as E1.
      simpl in E1, E2. pose proof (one_bounds sh h). lia. }
    destruct r as [[[buf' layout'] hashes']|e]; [|done].
    destruct Hres as (rs & shs & -> & -> & -> & Hits & Hts & Hrep).
    exists (rc :: rs), (sh :: shs). rewrite recs_bytes_cons, !app_assoc.
    cbn [layout_of]. rewrite <- !app_assoc, zlen_app. split_and!; try done.
    + constructor; [|exact Hits].
      eapply item_ok_blobs; [|exact Hit]. intros h ->. apply Hbl'.
      pose proof (rp_refs _ _ _ Hr2 h) as E2. simpl in E2. rewrite one_Some, decide_True in E2 by done.
      pose proof (users_nonneg (NsIndex.valsep (NsLog.index ns)) h).
      pose proof (rp_x _ _ _ Hr h). lia.
    + constructor; [simpl; lia|done].
    + eapply repr_x_ext; [|exact Hrep]. intros h. cbv beta. rewrite sum_one_cons. lia.
Qed.


(** ** The commit loop *)

(** The effect of a batch: its writes in order. *)
Definition put_all (m : gmap bytes aentry) (writes : list (bytes * bytes * Z)) : gmap bytes aentry :=
  foldl (fun m w => <[w.1.1 := mkA w.1.2 [] None w.2]> m) m writes.

(** The bytes [bs] are in the file [fid] at the offset [off]. *)
Definition chunk_at (ns : NsLog.t) (fid off : Z) (bs : bytes) : Prop :=
  exists f pre post, NsLog.locate_file ns fid = Some f /\
    LogFile.data f = pre ++ bs ++ post /\ zlen pre = off.

Lemma chunk_head ns fid off r bs ts :
  chunk_at ns fid off (rec_bytes r ++ bs) ->
  rec_at ns (IndexEntry_new fid off (zlen (rec_bytes r)) ts) r.
Proof.
  intros (f & pre & post & Hf & Hd & <-). exists f. split_and!; try done. simpl.
  rewrite Hd, <- app_assoc. by apply sub_mid.
Qed.

Lemma chunk_tail ns fid off b bs :
  chunk_at ns fid off (b ++ bs) -> chunk_at ns fid (off + zlen b) bs.
Proof.
  intros (f & pre & post & Hf & Hd & <-). exists f, (pre ++ b), post.
  rewrite zlen_app, Hd, <- !app_assoc. done.
Qed.

Lemma commit_pairs_spec fid base lo blobs pairs rs shs (idx' : NsIndex.t) olds' :
  items_ok blobs lo pairs rs shs -> forall start olds x m ns,
  blobs = ValueStore.blobs (NsLog.values ns) ->
  Forall (fun r => r_tstamp r <= NsLog.last_tstamp ns) rs ->
  chunk_at ns fid (base + start) (recs_bytes rs) ->
  repr_x (fun h => x h + sum_one shs h + sum_one (Some <$> olds) h) m ns ->
  (forall h, 0 <= x h) ->
  NsLog.commit_pairs fid base pairs (layout_of start rs) shs (NsLog.index ns) olds
    = (idx', olds') ->
  repr_x (fun h => x h + sum_one (Some <$> olds') h)
    (put_all m (zip pairs (r_tstamp <$> rs))) (NsLog.set_index idx' ns).
Proof.
  induction 1 as [|lo [k v] ps r rs0 sh shs0 Hit Hits IH];
    intros start olds x m ns Hbl Hts Hch Hr Hx H; cbn [NsLog.commit_pairs layout_of] in H.
  - injection H as <- <-. eapply repr_same; [eapply repr_x_ext; [|exact Hr]|done..].
    intros h. cbv beta. unfold sum_one at 1. cbn. lia.
  - destruct Hit as [Hwf Hk Hm Hrev Hval]. simpl in Hk, Hval.
    apply Forall_cons in Hts as [Ht Hts]. rewrite recs_bytes_cons in Hch.
    pose proof (chunk_head _ _ _ _ _ (r_tstamp r) Hch) as Hat. apply chunk_tail in Hch.
    assert (Hc : repr_x (fun h => x h + sum_one shs0 h
        + sum_one (Some <$> match NsIndex.get_valsep (NsLog.index ns) k with
                            | Some oh => olds ++ [oh] | None => olds end) h)
      (<[k := mkA v [] None (r_tstamp r)]> m)
      (NsLog.set_index (NsIndex.set_valsep (NsIndex.insert (NsLog.index ns) k
        (IndexEntry_new fid (base + start) (zlen (rec_bytes r)) (r_tstamp r)) None) k sh) ns)).
    { eapply repr_x_ext;
        [|apply (repr_commit (fun h => x h + sum_one shs0 h + sum_one (Some <$> olds) h)
                  m ns k _ None sh r (mkA v [] None (r_tstamp r))); try done].
      - intros h. cbv beta. destruct (NsIndex.get_valsep (NsLog.index ns) k) as [oh|].
        + rewrite fmap_app, sum_one_app. csimpl. rewrite sum_one_cons.
          unfold sum_one at 5. cbn. lia.
        + rewrite one_None. lia.
      - eapply repr_x_ext; [|exact Hr]. intros h. cbv beta. rewrite sum_one_cons. lia.
      - intros h. pose proof (sum_one_nonneg shs0 h). pose proof (sum_one_nonneg (Some <$> olds) h).
        specialize (Hx h). lia.
      - simpl. by rewrite <- Hbl. }
    rewrite <- Z.add_assoc in Hch.
    eapply (IH _ _ x _ (NsLog.set_index _ ns) Hbl Hts Hch Hc Hx) in H. cbn [fmap list_fmap zip_with].
    by eapply repr_same.
Qed.

Lemma layout_revs rs : forall start, (fun l => l.2) <$> layout_of start rs = r_tstamp <$> rs.
Proof. induction rs as [|r rs IH]; intros; csimpl; [done|]. by rewrite IH. Qed.

Lemma items_length blobs lo ps rs shs :
  items_ok blobs lo ps rs shs ->
  length (r_tstamp <$> rs) = length ps /\ Forall (fun ts => lo < ts) (r_tstamp <$> rs) /\
  StronglySorted Z.lt (r_tstamp <$> rs).
Proof.
  induction 1 as [|lo p ps r rs sh shs [] ? (IH1 & IH2 & IH3)]; csimpl; [by repeat constructor|].
  rewrite IH1. split_and!; [done| |by constructor].
  constructor; [done|]. eapply Forall_impl; [exact IH2|]. simpl. lia.
Qed.

(** The batch takes effect as a whole or not at all; an error before the append
    leaves the map as it was, one of the rotation that follows does not undo the
    batch. *)
Lemma put_many_repr pairs clock bfs io C x m ns r ns' :
  repr_x x m ns -> pairs_ok ns pairs ->
  clock_ok C (length pairs) (NsLog.last_tstamp ns) clock ->
  NsLog.put_many pairs clock bfs io ns = (r, ns') ->
  (NsLog.frozen ns = true /\ r = Err Frozen /\ ns' = ns) \/
  (NsLog.frozen ns = false /\ NsLog.last_tstamp ns <= NsLog.last_tstamp ns' /\
   ((exists x' e, repr_x x' m ns' /\ r = Err e) \/
    exists tss, length tss = length pairs /\ Forall (fun ts => NsLog.last_tstamp ns < ts) tss /\
      repr_x x (put_all m (zip pairs tss)) ns' /\ (r = Ok tss \/ exists e, r = Err e))).
Proof.
  intros Hr Hpo Hco H. apply guard_inv in H as [|(Hfr & ns1 & Hb & ->)]; [by left|right].
  split; [done|]. apply (repr_in_flight _ _ _ (NsLog.in_flight_writes ns + 1)) in Hr.
  set (ns0 := NsLog.set_in_flight (NsLog.in_flight_writes ns + 1) ns) in *.
  assert (Hpo0 : pairs_ok ns0 pairs) by (by destruct Hpo).
  assert (Hl0 : NsLog.last_tstamp ns0 = NsLog.last_tstamp ns) by done.
  destruct (decide (pairs = [])) as [->|Hne].
  { injection Hb as <- <-. split; [simpl; lia|]. right. exists [].
    split_and!; try done; [|by left]. by apply repr_in_flight. }
  rewrite <- Hl0 in *. clearbody ns0. clear Hl0 Hfr Hpo ns.
  st_step Hb p ns2 Henc;
    eapply encode_pairs_spec in Henc as ((v & ts & Hns2) & Hle & _ & Hres); try done; cycle 1.
  { split; [simpl; lia|]. left. destruct Hres as [x' Hx']. do 2 eexists.
    split; [by apply repr_in_flight|done]. }
  destruct p as [[buf layout] hashes].
  destruct Hres as (rs & shs & -> & -> & -> & Hits & Hts & Hr2). cbn [app] in Hb.
  change (zlen []) with 0 in Hb.
  destruct (items_length _ _ _ _ _ Hits) as (Hlen & Hlo & _).
  st_step Hb self ns3 Hg; unfold st_get in Hg; [|discriminate Hg]. injection Hg as <- <-.
  st_step Hb off ns4 Happ;
    destruct (append_active_spec _ _ _ _ _ _ (rp_files _ _ _ Hr2) Happ)
      as (f & d & Hid & Hd & Hinv & Hres);
    pose proof (repr_set_active _ _ _ f d Hr2 Hid Hd Hinv) as Hr3; cycle 1.
  { subst ns1. split; [done|]. left. do 2 eexists. split; [|done]. apply repr_in_flight.
    apply (repr_unrefs (omap id shs) x m (NsLog.set_active f ns2)); [|by apply Hr].
    eapply repr_x_ext; [|exact Hr3]. intros h. cbv beta. by rewrite sum_one_omap. }
  destruct Hres as (-> & -> & -> & _).
  st_step Hb u ns5 Hun; unfold NsLog.add_unsynced, st_modify in Hun; [|discriminate Hun].
  injection Hun as _ Hns5.
  assert (Hr5 : repr_x (fun h => x h + sum_one shs h + sum_one (Some <$> []) h) m ns5).
  { rewrite <- Hns5. eapply repr_same; [eapply repr_x_ext; [|exact Hr3]|done..].
    intros h. cbv beta. unfold sum_one at 3. cbn. lia. }
  assert (Hch : chunk_at ns5 (LogFile.file_id (NsLog.active ns2))
    (zlen (LogFile.data (NsLog.active ns2)) + 0) (recs_bytes rs)).
  { exists f, (LogFile.data (NsLog.active ns2)), []. rewrite <- Hns5.
    unfold NsLog.locate_file. simpl. rewrite Hid, decide_True, app_nil_r by done.
    split_and!; try done. lia. }
  assert (Hbl5 : ValueStore.blobs (NsLog.values ns2) = ValueStore.blobs (NsLog.values ns5))
    by (by rewrite <- Hns5).
  assert (Hl5 : NsLog.last_tstamp ns5 = NsLog.last_tstamp ns2) by (by rewrite <- Hns5).
  st_step Hb self ns6 Hg; unfold st_get in Hg; [|discriminate Hg]. injection Hg as <- <-.
  destruct (NsLog.commit_pairs _ _ _ _ _ _ _) as [idx olds] eqn:Hcom.
  eapply commit_pairs_spec in Hcom; [|exact Hits|exact Hbl5|by rewrite Hl5|exact Hch|exact Hr5|apply Hr].
  st_step Hb u1 ns6 Hm; unfold st_modify in Hm; [|discriminate Hm]. injection Hm as _ <-.
  st_step Hb u2 ns6 Hm; unfold st_modify in Hm; [|discriminate Hm]. injection Hm as _ <-.
  apply repr_unrefs in Hcom; [|apply Hr]. rewrite layout_revs in Hb.
  st_step Hb u3 ns6 Hrot; apply maybe_rotate_kept in Hrot;
    pose proof (repr_kept _ _ _ _ Hrot Hcom) as Hfin; pose proof (kept_tstamp _ _ Hrot) as Hlast;
    simpl in Hlast.
  - injection Hb as <- <-. split; [simpl; lia|]. right. eexists.
    split_and!; [exact Hlen | done | by apply repr_in_flight | by left].
  - split; [simpl; lia|]. right. eexists.
    split_and!; [exact Hlen | done | by apply repr_in_flight | eauto].
Qed.

End Batch.
