(* ===== verification/NsSim.v ===== *)
(** * The namespace log refines an abstract map machine

    The methods of [NamespaceLog] as calls ([call], [run]) and the machine they
    implement: a map, the last revision and the freeze flag ([astate], [spec]).
    [simulation] is the step; [log_refines_map] of [NsContract] is the statement for
    every sequence of calls on a fresh log, and for the reads that follow it. *)

From stdpp Require Import base tactics list gmap sorting strings.
From Stdlib Require Import ZArith Lia.
From S2P Require Import Prelude Record Index LogFile ValueStore Recover NsLog NsRepr NsSpec Reclaim NsBatch.

Open Scope Z_scope.

Inductive call :=
| Put (key value meta : bytes) (exp : option Z) (clock : Z) (io : faults)
| PutCond (key value meta : bytes) (exp : option Z) (cond : WriteCondition)
    (now clock : Z) (io : faults)
| PutMany (pairs : list (bytes * bytes)) (clock : list Z)
    (bfs : list (option ValueStore.blob_fault)) (io : faults)
| Tombstone (key : bytes) (clock : Z) (io : faults)
| TombstoneCond (key : bytes) (rev now clock : Z) (io : faults)
| TtlUpdate (key : bytes) (exp : option Z) (clock : Z) (io : faults)
| Sync (io : faults)
| Rotate (io : faults)
| Seal (test_hook : bool) (io : faults)
| Reopen (io : faults)
| Compact (io : faults) (mfs : list merge_faults)
| Flush (clock : Z)
| Freeze
| Unfreeze.

(** A file that is sealed is replaced: the fsync of its footer does not fail, nor does
    the opening of the next one. *)
Definition replaces (io : faults) : bool :=
  match f_footer_sync io, f_open io with None, None => true | _, _ => false end.

(** Calls of a log in service: the seal of a shutdown, the reopening after it and
    compaction are not among them, nor are calls that leave a file with a footer as
    the active one. *)
Definition in_service (c : call) : bool :=
  match c with
  | Put _ _ _ _ _ io | PutCond _ _ _ _ _ _ _ io | PutMany _ _ _ io | Rotate io => replaces io
  | Seal _ _ | Reopen _ | Compact _ _ => false
  | _ => true
  end.

(** What a call returns. *)
Inductive out :=
| ORev (ts : Z)
| OOpt (ts : option Z)
| OMany (tss : list Z)
| OUnit.

Section Sim.
Context {crc_impl : CrcFast} {blake : Blake3}.

Definition ret {A} (f : A -> out) (p : eresult A * NsLog.t) : eresult out * NsLog.t :=
  (f <$> p.1, p.2).

Definition run (c : call) (ns : NsLog.t) : eresult out * NsLog.t :=
  match c with
  | Put k v mt exp clock io => ret ORev (NsLog.put_full k v mt exp clock io ns)
  | PutCond k v mt exp cond now clock io =>
      ret OOpt (NsLog.put_full_cond k v mt exp cond now clock io ns)
  | PutMany ps clock bfs io => ret OMany (NsLog.put_many ps clock bfs io ns)
  | Tombstone k clock io => ret OOpt (NsLog.tombstone k clock io ns)
  | TombstoneCond k rev now clock io => ret OOpt (NsLog.tombstone_cond k rev now clock io ns)
  | TtlUpdate k exp clock io => ret ORev (NsLog.ttl_update k exp clock io ns)
  | Sync io => ret (fun _ => OUnit) (NsLog.sync io ns)
  | Rotate io => ret (fun _ => OUnit) (NsLog.rotate_active io ns)
  | Seal hook io => ret (fun _ => OUnit) (NsLog.seal_active_for_shutdown hook io ns)
  | Reopen io => ret (fun _ => OUnit) (NsLog.reopen_active_after_seal io ns)
  | Compact io mfs => ret (fun _ => OUnit) (Reclaim.reclaim io mfs ns)
  | Flush clock => ret ORev (NsLog.flush clock ns)
  | Freeze => (Ok OUnit, NsLog.freeze ns)
  | Unfreeze => (Ok OUnit, NsLog.unfreeze ns)
  end.

(** ** The abstract machine *)

Record astate := mkAS { as_map : gmap bytes aentry; as_last : Z; as_frozen : bool }.

Definition is_write (c : call) : bool :=
  match c with
  | Put _ _ _ _ _ _ | PutCond _ _ _ _ _ _ _ _ | PutMany _ _ _ _ | Tombstone _ _ _
  | TombstoneCond _ _ _ _ _ | TtlUpdate _ _ _ _ => true
  | _ => false
  end.

(** The call failed and the map is as it was. *)
Definition failed (s : astate) (r : eresult out) (s' : astate) : Prop :=
  (exists e, r = Err e) /\ as_map s' = as_map s.

(** The call took effect, the map is now [m]; an error can still be reported. *)
Definition effected (o : out) (m : gmap bytes aentry) (r : eresult out) (s' : astate) : Prop :=
  as_map s' = m /\ (r = Ok o \/ exists e, r = Err e).

Definition quiet (o : out) (s : astate) (r : eresult out) (s' : astate) : Prop :=
  r = Ok o /\ as_map s' = as_map s.

(** One call, when the log is not frozen for writes. *)
Definition effect (c : call) (s : astate) (r : eresult out) (s' : astate) : Prop :=
  let m := as_map s in
  let ts := as_last s' in
  match c with
  | Put k v mt exp _ _ =>
      as_last s < ts /\
      (failed s r s' \/ effected (ORev ts) (<[k := mkA v mt exp ts]> m) r s')
  | PutCond k v mt exp cond now _ _ =>
      if cond_check cond (alive m k now)
      then as_last s < ts /\
           (failed s r s' \/ effected (OOpt (Some ts)) (<[k := mkA v mt exp ts]> m) r s')
      else quiet (OOpt None) s r s' /\ ts = as_last s
  | PutMany ps _ _ _ =>
      failed s r s' \/
      exists tss, length tss = length ps /\ Forall (fun t => as_last s < t) tss /\
        effected (OMany tss) (put_all m (zip ps tss)) r s'
  | Tombstone k _ _ =>
      match m !! k with
      | None => quiet (OOpt None) s r s'
      | Some _ => as_last s < ts /\ effected (OOpt (Some ts)) (delete k m) r s'
      end
  | TombstoneCond k rev now _ _ =>
      if decide (alive m k now = Some rev)
      then as_last s < ts /\ effected (OOpt (Some ts)) (delete k m) r s'
      else quiet (OOpt None) s r s' /\ ts = as_last s
  | TtlUpdate k exp _ _ =>
      as_last s < ts /\
      (failed s r s' \/
       exists a, m !! k = Some a /\ r = Ok (ORev ts) /\
         as_map s' = <[k := mkA (a_value a) (a_meta a) exp (a_rev a)]> m)
  | Flush _ => failed s r s' \/ (as_last s < ts /\ r = Ok (ORev ts) /\ as_map s' = ∅)
  | Sync _ => effected OUnit m r s' /\ ts = as_last s
  | Freeze | Unfreeze => quiet OUnit s r s'
  | Rotate _ | Seal _ _ | Reopen _ | Compact _ _ => as_map s' = m /\ ts = as_last s
  end.

Definition spec (c : call) (s : astate) (r : eresult out) (s' : astate) : Prop :=
  as_last s <= as_last s' /\
  as_frozen s' = match c with Freeze => true | Unfreeze => false | _ => as_frozen s end /\
  if (is_write c && as_frozen s)%bool then r = Err Frozen /\ s' = s else effect c s r s'.

(** What the caller provides. *)
Definition call_ok (c : call) (ns : NsLog.t) : Prop :=
  match c with
  | Put k v mt exp clock _ => write_ok ns k v mt exp clock
  | PutCond k v mt exp _ _ clock _ => write_ok ns k v mt exp clock
  | PutMany ps clock _ _ =>
      pairs_ok ns ps /\ exists C, clock_ok C (length ps) (NsLog.last_tstamp ns) clock
  | Tombstone k clock _ => delete_ok ns k clock
  | TombstoneCond k _ _ clock _ => delete_ok ns k clock
  | TtlUpdate k exp clock _ =>
      delete_ok ns k clock /\ exp_u64 exp /\ is_Some (NsIndex.get (NsLog.index ns) k)
  | Compact _ _ => (2 <= fanout (NsLog.config ns))%nat
  | _ => True
  end.

(** ** The fields that no call but the freezes touches *)

Definition stable (ns ns' : NsLog.t) : Prop :=
  NsLog.frozen ns' = NsLog.frozen ns /\ NsLog.in_flight_writes ns' = NsLog.in_flight_writes ns.

#[local] Instance stable_refl : Reflexive stable.
Proof. by split. Qed.
#[local] Instance stable_trans : Transitive stable.
Proof. intros a b c [] []. split; congruence. Qed.

Definition keeps {A} (m : NsLog.M A) : Prop :=
  forall ns r ns', m ns = (r, ns') -> stable ns ns'.

Lemma keeps_bind {A B} (m : NsLog.M A) (f : A -> NsLog.M B) :
  keeps m -> (forall a, keeps (f a)) -> keeps (m ≫= f).
Proof.
  intros Hm Hf ns r ns' H. apply st_bind_inv in H as [(a & ns1 & H1 & H2)|(e & H1 & _)].
  - etransitivity; [by eapply Hm | by eapply Hf].
  - by eapply Hm.
Qed.

Lemma keeps_ret {A} (a : A) : keeps (mret a).
Proof. intros ns r ns' [= <- <-]. done. Qed.
Lemma keeps_get : keeps st_get.
Proof. intros ns r ns' [= <- <-]. done. Qed.
Lemma keeps_lift {A} (x : eresult A) : keeps (st_lift x).
Proof. intros ns r ns' [= <- <-]. done. Qed.
Lemma keeps_err {A} e : keeps (st_err e : NsLog.M A).
Proof. intros ns r ns' [= <- <-]. done. Qed.
Lemma keeps_modify f : (forall ns, stable ns (f ns)) -> keeps (st_modify f).
Proof. intros Hf ns r ns' [= <- <-]. apply Hf. Qed.

Lemma keeps_next_tstamp now : keeps (NsLog.next_tstamp now).
Proof. by intros ns r ns' [= <- <-]. Qed.

Lemma keeps_maybe_separate v fl f : keeps (NsLog.maybe_separate v fl f).
Proof.
  intros ns r ns'. unfold NsLog.maybe_separate. case_decide; [|by intros [= <- <-]].
  destruct (ValueStore.put _ _ _) as [[] ?]; by intros [= <- <-].
Qed.

Lemma keeps_append_active buf rb io : keeps (NsLog.append_active buf rb io).
Proof.
  intros ns r ns'. unfold NsLog.append_active.
  destruct (LogFile.append _ _ _) as [[] ?]; by intros [= <- <-].
Qed.

Lemma keeps_add_unsynced n : keeps (NsLog.add_unsynced n).
Proof. by apply keeps_modify. Qed.

Lemma keeps_valsep_insert k e exp sh : keeps (NsLog.apply_valsep_insert k e exp sh).
Proof. by intros ns r ns' [= <- <-]. Qed.

Lemma keeps_unref_opt o : keeps (NsLog.unref_opt o).
Proof. apply keeps_modify. intros ns. by destruct o. Qed.

Lemma keeps_write_footer io : keeps (NsLog.write_active_footer io).
Proof.
  intros ns r ns'. unfold NsLog.write_active_footer.
  destruct (LogFile.write_footer _ _ _ _ _) as [? ?]; by intros [= <- <-].
Qed.

Create HintDb keeps discriminated.
#[local] Hint Resolve keeps_bind keeps_ret keeps_get keeps_lift keeps_err keeps_next_tstamp
  keeps_maybe_separate keeps_append_active keeps_add_unsynced keeps_valsep_insert
  keeps_unref_opt keeps_write_footer : keeps.

(** Walks down a method's binds, matches and conditionals. *)
Ltac keeps_tac :=
  repeat first
    [ progress intros
    | progress cbv zeta
    | solve [eauto with keeps]
    | apply keeps_bind
    | apply keeps_modify; done
    | match goal with |- keeps (match ?x with _ => _ end) => destruct x end ].

Lemma keeps_swap_active io : keeps (NsLog.swap_active io).
Proof. unfold NsLog.swap_active. keeps_tac. Qed.
#[local] Hint Resolve keeps_swap_active : keeps.

Lemma keeps_sync_active io : keeps (NsLog.sync_active io).
Proof. unfold NsLog.sync_active. keeps_tac. Qed.
#[local] Hint Resolve keeps_sync_active : keeps.

Lemma keeps_sync io : keeps (NsLog.sync io).
Proof. unfold NsLog.sync. keeps_tac. Qed.

Lemma keeps_seal hook io : keeps (NsLog.seal_active_for_shutdown hook io).
Proof. unfold NsLog.seal_active_for_shutdown. keeps_tac. Qed.
#[local] Hint Resolve keeps_sync keeps_seal : keeps.

Lemma keeps_rotate io : keeps (NsLog.rotate_active io).
Proof.
  intros ns r ns'. unfold NsLog.rotate_active. destruct (NsLog.rotate_in_progress ns);
    [by intros [= <- <-]|].
  destruct (NsLog.rotate_active_inner _ _) as [r1 ns1] eqn:H. intros [= <- <-].
  assert (keeps (NsLog.rotate_active_inner io)) as Hk
    by (unfold NsLog.rotate_active_inner; keeps_tac).
  by apply Hk in H.
Qed.

Lemma keeps_maybe_rotate io : keeps (NsLog.maybe_rotate io).
Proof.
  intros ns r ns'. unfold NsLog.maybe_rotate. case_decide; [apply keeps_rotate|].
  by intros [= <- <-].
Qed.
#[local] Hint Resolve keeps_rotate keeps_maybe_rotate : keeps.

Lemma keeps_put_record k v mt exp clock io : keeps (NsLog.put_record k v mt exp clock io).
Proof. unfold NsLog.put_record. keeps_tac. Qed.

Lemma keeps_encode_pairs ps : forall clock bfs buf l hs,
  keeps (NsLog.encode_pairs ps clock bfs buf l hs).
Proof. induction ps as [|[k v] ps IH]; intros; cbn [NsLog.encode_pairs]; keeps_tac. Qed.

Lemma keeps_append_tombstone k o clock io : keeps (NsLog.append_tombstone k o clock io).
Proof. unfold NsLog.append_tombstone. keeps_tac. Qed.
#[local] Hint Resolve keeps_put_record keeps_encode_pairs keeps_append_tombstone : keeps.

Lemma keeps_flush clock : keeps (NsLog.flush clock).
Proof.
  intros ns r ns'. unfold NsLog.flush. destruct (NsLog.reclaim_in_progress ns);
    by intros [= <- <-].
Qed.

(** The guard counts the write in and out. *)
Lemma guard_stable {A} (body : NsLog.M A) ns r ns' :
  keeps body -> 0 <= NsLog.in_flight_writes ns ->
  NsLog.with_write_guard body ns = (r, ns') -> stable ns ns'.
Proof.
  intros Hk Hn H. apply guard_inv in H as [(_ & _ & ->)|(_ & ns1 & Hb & ->)]; [done|].
  apply Hk in Hb as [Hf Hi]. split; simpl in *; [done|]. rewrite Hi. zlia.
Qed.

Lemma ret_inv {A} (f : A -> out) p r ns' :
  ret f p = (r, ns') -> exists r0, p = (r0, ns') /\ r = f <$> r0.
Proof. destruct p as [r0 ns0]. unfold ret. intros [= <- <-]. eauto. Qed.

Lemma keeps_merge_level lvl mf total : keeps (Reclaim.merge_level lvl mf total).
Proof. unfold Reclaim.merge_level. keeps_tac. Qed.
#[local] Hint Resolve keeps_merge_level : keeps.

Lemma keeps_cascade fuel : forall mfs total, keeps (Reclaim.cascade fuel mfs total).
Proof. induction fuel; intros; cbn [Reclaim.cascade]; keeps_tac. Qed.
#[local] Hint Resolve keeps_cascade : keeps.

Lemma keeps_reclaim io mfs : keeps (Reclaim.reclaim io mfs).
Proof.
  intros ns r ns'. unfold Reclaim.reclaim. destruct (NsLog.reclaim_in_progress ns);
    [by intros [= <- <-]|].
  destruct (Reclaim.reclaim_inner _ _ _) as [r1 ns1] eqn:H. intros [= <- <-].
  assert (keeps (Reclaim.reclaim_inner io mfs)) as Hk
    by (unfold Reclaim.reclaim_inner; keeps_tac).
  by apply Hk in H.
Qed.
#[local] Hint Resolve keeps_reclaim : keeps.

Lemma run_stable c ns r ns' :
  0 <= NsLog.in_flight_writes ns -> run c ns = (r, ns') ->
  NsLog.in_flight_writes ns' = NsLog.in_flight_writes ns /\
  NsLog.frozen ns' = match c with Freeze => true | Unfreeze => false | _ => NsLog.frozen ns end.
Proof.
  intros Hn H.
  assert (forall A (f : A -> out) m, (r, ns') = ret f (m ns) ->
    (keeps m \/ exists body, keeps body /\ m = NsLog.with_write_guard body) -> stable ns ns') as Hst.
  { intros A f m Hm Hk. unfold ret in Hm. destruct (m ns) as [r1 ns1] eqn:Hr1.
    injection Hm as _ ->. destruct Hk as [Hk|(body & Hk & ->)]; [by eapply Hk|].
    by eapply guard_stable. }
  destruct c; simpl in H; symmetry in H;
    try (injection H as -> ->; done);
    apply Hst in H as [Hf Hi]; try done;
    first [ right; eexists; split; [|reflexivity]; keeps_tac
          | left; try by keeps_tac ].
  apply keeps_flush.
Qed.

(** ** The simulation *)

Record sim (s : astate) (ns : NsLog.t) : Prop := {
  sim_repr : exists x, repr_x x (as_map s) ns;
  sim_last : as_last s = NsLog.last_tstamp ns;
  sim_frozen : as_frozen s = NsLog.frozen ns;
  sim_flight : 0 <= NsLog.in_flight_writes ns;
}.

(** The abstract state after a call is determined by the map it leaves. *)
Lemma sim_step c s ns r ns' m' :
  sim s ns -> run c ns = (r, ns') ->
  (exists x', repr_x x' m' ns') -> NsLog.last_tstamp ns <= NsLog.last_tstamp ns' ->
  let s' := mkAS m' (NsLog.last_tstamp ns') (NsLog.frozen ns') in
  (if (is_write c && as_frozen s)%bool then r = Err Frozen /\ s' = s else effect c s r s') ->
  exists s', spec c s r s' /\ sim s' ns'.
Proof.
  intros [_ Hl Hf Hn] Hrun Hrep Hle s' Heff. exists s'.
  destruct (run_stable _ _ _ _ Hn Hrun) as [Hi Hfr]. split.
  - split_and!; simpl; [lia | by rewrite Hf | done].
  - split; simpl; try done. lia.
Qed.

(** A write on a frozen log. *)
Lemma sim_frozen_write c s ns r ns' :
  sim s ns -> run c ns = (r, ns') -> is_write c = true ->
  NsLog.frozen ns = true -> r = Err Frozen -> ns' = ns ->
  exists s', spec c s r s' /\ sim s' ns'.
Proof.
  intros Hs Hrun Hw Hfr -> ->. pose proof Hs as [Hrep Hl Hf Hn]. exists s.
  split; [|done]. split_and!; [lia | by destruct c |]. by rewrite Hw, Hf, Hfr.
Qed.

Lemma sim_put k v mt exp clock io s ns r ns' :
  let c := Put k v mt exp clock io in
  sim s ns -> call_ok c ns -> run c ns = (r, ns') -> exists s', spec c s r s' /\ sim s' ns'.
Proof.
  intros c Hs Hok Hrun. pose proof Hs as [[x Hx] Hl Hf Hn]. pose proof Hrun as H.
  apply ret_inv in H as (r0 & H & ->).
  destruct (put_full_repr _ _ _ _ _ _ _ _ _ _ _ Hx Hok H)
    as [(Hfr & -> & ->)|(ts & Hfr & Hlt & Hlast & Hres)]; [by eapply sim_frozen_write|].
  destruct Hres as [[Hr [e ->]]|[Hr Hout]].
  - eapply sim_step; [done..|by eexists|lia|]. simpl. rewrite Hf, Hfr.
    split; [lia|]. left. by split; [eexists|].
  - eapply sim_step; [done..|by eexists|lia|]. simpl. rewrite Hf, Hfr.
    split; [lia|]. right. rewrite Hlast. split; [done|].
    destruct Hout as [->|[e ->]]; simpl; eauto.
Qed.

Lemma sim_put_cond k v mt exp cond now clock io s ns r ns' :
  let c := PutCond k v mt exp cond now clock io in
  sim s ns -> call_ok c ns -> run c ns = (r, ns') -> exists s', spec c s r s' /\ sim s' ns'.
Proof.
  intros c Hs Hok Hrun. pose proof Hs as [[x Hx] Hl Hf Hn]. pose proof Hrun as H.
  apply ret_inv in H as (r0 & H & ->).
  destruct (put_full_cond_repr _ _ _ _ _ _ _ _ _ _ _ _ _ Hx Hok Hn H)
    as [(Hfr & -> & ->)|[(Hfr & Hc & -> & ->)|(ts & Hfr & Hc & Hlt & Hlast & Hres)]];
    [by eapply sim_frozen_write| |].
  - eapply sim_step; [done..|by eexists|lia|]. simpl. rewrite Hf, Hfr. simpl.
    by rewrite Hc.
  - destruct Hres as [[Hr [e ->]]|[Hr Hout]];
      (eapply sim_step; [done..|by eexists|lia|]); simpl; rewrite Hf, Hfr; simpl; rewrite Hc;
      (split; [lia|]).
    + left. by split; [eexists|].
    + right. rewrite Hlast. split; [done|]. destruct Hout as [->|[e ->]]; simpl; eauto.
Qed.

Lemma sim_put_many ps clock bfs io s ns r ns' :
  let c := PutMany ps clock bfs io in
  sim s ns -> call_ok c ns -> run c ns = (r, ns') -> exists s', spec c s r s' /\ sim s' ns'.
Proof.
  intros c Hs [Hpo [C Hco]] Hrun. pose proof Hs as [[x Hx] Hl Hf Hn]. pose proof Hrun as H.
  apply ret_inv in H as (r0 & H & ->).
  destruct (put_many_repr _ _ _ _ _ _ _ _ _ _ Hx Hpo Hco H)
    as [(Hfr & -> & ->)|(Hfr & Hle & [(x' & e & Hr & ->)|(tss & Hlen & Hlt & Hr & Hout)])];
    [by eapply sim_frozen_write| |];
    (eapply sim_step; [done..|by eexists|lia|]); simpl; rewrite Hf, Hfr; simpl.
  - left. by split; [eexists|].
  - right. exists tss. split; [done|]. rewrite Hl. split; [done|].
    split; [done|]. destruct Hout as [->|[e ->]]; simpl; eauto.
Qed.

Lemma sim_tombstone k clock io s ns r ns' :
  let c := Tombstone k clock io in
  sim s ns -> call_ok c ns -> run c ns = (r, ns') -> exists s', spec c s r s' /\ sim s' ns'.
Proof.
  intros c Hs Hok Hrun. pose proof Hs as [[x Hx] Hl Hf Hn]. pose proof Hrun as H.
  apply ret_inv in H as (r0 & H & ->).
  destruct (tombstone_repr _ _ _ _ _ _ _ _ Hx Hok Hn H)
    as [(Hfr & -> & ->)|[(Hfr & Hnone & -> & Hle & Hr)|(Hfr & [a Ha] & Hlt & Hres)]];
    [by eapply sim_frozen_write| |].
  - eapply sim_step; [done..|by eexists|lia|]. simpl. rewrite Hf, Hfr. simpl. by rewrite Hnone.
  - destruct r0 as [ots|e].
    + destruct Hres as [-> Hr]. eapply sim_step; [done..|by eexists|lia|].
      simpl. rewrite Hf, Hfr. simpl. rewrite Ha. split; [lia|]. split; eauto.
    + eapply sim_step; [done..|exact Hres|lia|].
      simpl. rewrite Hf, Hfr. simpl. rewrite Ha. split; [lia|]. split; eauto.
Qed.

Lemma sim_tombstone_cond k rev now clock io s ns r ns' :
  let c := TombstoneCond k rev now clock io in
  sim s ns -> call_ok c ns -> run c ns = (r, ns') -> exists s', spec c s r s' /\ sim s' ns'.
Proof.
  intros c Hs Hok Hrun. pose proof Hs as [[x Hx] Hl Hf Hn]. pose proof Hrun as H.
  apply ret_inv in H as (r0 & H & ->).
  destruct (tombstone_cond_repr _ _ _ _ _ _ _ _ _ _ Hx Hok Hn H)
    as [(Hfr & -> & ->)|[(Hfr & Hne & -> & ->)|(Hfr & Heq & Hlt & Hres)]];
    [by eapply sim_frozen_write| |].
  - eapply sim_step; [done..|by eexists|lia|]. simpl. rewrite Hf, Hfr. simpl.
    rewrite decide_False by done. done.
  - destruct r0 as [ots|e].
    + destruct Hres as [-> Hr]. eapply sim_step; [done..|by eexists|lia|].
      simpl. rewrite Hf, Hfr. simpl. rewrite decide_True by done. split; [lia|]. split; eauto.
    + eapply sim_step; [done..|exact Hres|lia|].
      simpl. rewrite Hf, Hfr. simpl. rewrite decide_True by done. split; [lia|]. split; eauto.
Qed.

Lemma sim_ttl_update k exp clock io s ns r ns' :
  let c := TtlUpdate k exp clock io in
  sim s ns -> call_ok c ns -> run c ns = (r, ns') -> exists s', spec c s r s' /\ sim s' ns'.
Proof.
  intros c Hs (Hok & Hexp & Hin) Hrun. pose proof Hs as [[x Hx] Hl Hf Hn]. pose proof Hrun as H.
  apply ret_inv in H as (r0 & H & ->).
  apply (rp_dom _ _ _ Hx) in Hin as [a Ha].
  destruct (ttl_update_repr _ _ _ _ _ _ _ _ _ _ Hx Hok Hexp Ha H)
    as [(Hfr & -> & ->)|(Hfr & Hlt & Hres)]; [by eapply sim_frozen_write|].
  destruct r0 as [ts|e].
  - destruct Hres as [-> Hr]. eapply sim_step; [done..|by eexists|lia|].
    simpl. rewrite Hf, Hfr. simpl. split; [lia|]. right. eauto.
  - eapply sim_step; [done..|by eexists|lia|].
    simpl. rewrite Hf, Hfr. simpl. split; [lia|]. left. split; [eauto|done].
Qed.

(** Every call of the log is a step of the machine. *)
Lemma simulation c s ns r ns' :
  sim s ns -> call_ok c ns -> run c ns = (r, ns') -> exists s', spec c s r s' /\ sim s' ns'.
Proof.
  intros Hs Hok Hrun. destruct c;
    try (by eauto using sim_put, sim_put_cond, sim_put_many, sim_tombstone,
           sim_tombstone_cond, sim_ttl_update);
    pose proof Hs as [[x Hx] Hl Hf Hn]; pose proof Hrun as H;
    try (apply ret_inv in H as (r0 & H & ->)).
  - destruct (sync_repr _ _ _ _ _ _ Hx H) as (Hout & Hlast & Hr).
    eapply sim_step; [done..|by eexists|lia|]. simpl. split; [|lia]. split; [done|].
    destruct Hout as [->|[e ->]]; simpl; eauto.
  - destruct (rotate_repr _ _ _ _ _ _ Hx H) as (Hlast & Hr).
    eapply sim_step; [done..|by eexists|lia|]. simpl. split; [done|lia].
  - destruct (seal_repr _ _ _ _ _ _ _ Hx H) as (Hlast & Hr).
    eapply sim_step; [done..|by eexists|lia|]. simpl. split; [done|lia].
  - destruct (reopen_repr _ _ _ _ _ _ Hx H) as (Hlast & Hr).
    eapply sim_step; [done..|by eexists|lia|]. simpl. split; [done|lia].
  - destruct (Reclaim.reclaim_repr _ _ _ _ _ _ _ Hx H) as (Hr & Hlast & _).
    eapply sim_step; [done..|by eexists|lia|]. simpl. split; [done|lia].
  - destruct (flush_repr _ _ _ _ _ _ Hx H)
      as [(_ & -> & ->)|(ts & -> & Hlt & Hlast & Hr)].
    + eapply sim_step; [done..|by eexists|lia|]. left. by split; [eexists|].
    + eapply sim_step; [done..|exact Hr|lia|]. right. simpl. rewrite Hlast.
      split_and!; try done. lia.
  - injection H as <- <-. eapply sim_step; [done..| |simpl; lia|done].
    exists x. by eapply repr_same.
  - injection H as <- <-. eapply sim_step; [done..| |simpl; lia|done].
    exists x. by eapply repr_same.
Qed.

(** ** Runs *)

(** A sequence of calls, each made as its contract asks, with its results. *)
Inductive runs : NsLog.t -> list (call * eresult out) -> NsLog.t -> Prop :=
| runs_nil ns : runs ns [] ns
| runs_cons ns c r ns1 tr ns2 :
    call_ok c ns -> run c ns = (r, ns1) -> runs ns1 tr ns2 -> runs ns ((c, r) :: tr) ns2.

Inductive aruns : astate -> list (call * eresult out) -> astate -> Prop :=
| aruns_nil s : aruns s [] s
| aruns_cons s c r s1 tr s2 :
    spec c s r s1 -> aruns s1 tr s2 -> aruns s ((c, r) :: tr) s2.

Lemma runs_simulated ns tr ns' :
  runs ns tr ns' -> forall s, sim s ns -> exists s', aruns s tr s' /\ sim s' ns'.
Proof.
  induction 1 as [|ns c r ns1 tr ns2 Hok Hrun _ IH]; intros s Hs.
  { exists s. split; [constructor|done]. }
  destruct (simulation _ _ _ _ _ Hs Hok Hrun) as (s1 & Hspec & Hs1).
  destruct (IH s1 Hs1) as (s2 & Ha & Hs2). exists s2. split; [by econstructor|done].
Qed.

(** A namespace that was just created. *)
Definition fresh (cfg : LogConfig) : NsLog.t :=
  NsLog.mk (ValueStore.new ∅) NsIndex.new ∅ ∅ (LogFile.open 0 []) cfg 0 0 0 false false false 0.

Lemma open_fresh cfg : NsLog.open ∅ ∅ cfg = Ok (fresh cfg).
Proof. reflexivity. Qed.

Lemma repr_fresh cfg :
  repr_x none ∅ (fresh cfg) /\ 0 <= NsLog.in_flight_writes (fresh cfg).
Proof.
  split; [|done]. split; simpl; try done.
  - split_and!; simpl; [right; apply LogFile.clean_open |].
    intros id f. by rewrite lookup_empty.
  - intros k. unfold NsIndex.get. simpl. by rewrite !lookup_empty.
Qed.

Lemma sim_fresh cfg : sim (mkAS ∅ 0 false) (fresh cfg).
Proof. destruct (repr_fresh cfg). split; simpl; try done. by exists none. Qed.

(** ** Writes succeed when nothing fails *)

Record healthy (ns : NsLog.t) : Prop := {
  he_active : LogFile.clean (NsLog.active ns);
  he_thawed : NsLog.frozen ns = false;
  he_ids : is_ok (NsLog.next_file_id ns) = true;
}.

Lemma rotate_ok ns :
  LogFile.clean (NsLog.active ns) -> is_ok (NsLog.next_file_id ns) = true ->
  exists ns', NsLog.rotate_active no_faults ns = (Ok tt, ns').
Proof.
  intros Hc Hid. unfold NsLog.rotate_active. destruct (NsLog.rotate_in_progress ns); [eauto|].
  unfold NsLog.rotate_active_inner, NsLog.write_active_footer, mbind, st_mbind, st_bind. simpl.
  rewrite LogFile.write_footer_ok by done. simpl.
  unfold NsLog.swap_active, mbind, st_mbind, st_bind, st_get, st_lift, st_modify. simpl.
  unfold NsLog.next_file_id in *. simpl in *. case_decide; [|discriminate].
  simpl. eauto.
Qed.

Lemma maybe_separate_ok v fl ns :
  exists p ns', NsLog.maybe_separate v fl None ns = (Ok p, ns') /\
    exists v, ns' = NsLog.set_values v ns.
Proof.
  unfold NsLog.maybe_separate. case_decide.
  - unfold ValueStore.put, ValueStore.put_with. simpl. case_decide; simpl; eauto 10.
  - do 2 eexists. split; [done|]. exists (NsLog.values ns). by destruct ns.
Qed.

Lemma put_record_ok k v mt exp clock ns r ns' x m :
  repr_x x m ns -> write_ok ns k v mt exp clock -> healthy ns ->
  NsLog.put_record k v mt exp clock no_faults ns = (r, ns') -> exists ts, r = Ok ts.
Proof.
  intros Hr Hwo [Hc Hfr Hid] H. pose proof Hwo as [Hclk Hlast Hexp _ Hcoll].
  unfold NsLog.put_record in H.
  st_step H ts ns1 Hts; apply next_tstamp_spec in Hts as (ts' & Heq & Hlt & -> & Hu64);
    [|discriminate Heq]. injection Heq as <-. specialize (Hu64 Hclk (proj2 Hlast) (proj1 Hlast)).
  apply (repr_tstamp _ _ _ ts) in Hr; [|lia].
  destruct (NsLog.expiry_fields 0 exp) as [fl ef] eqn:Hef.
  st_step H p ns2 Hsep; simpl in Hsep; cycle 1.
  { destruct (maybe_separate_ok v fl (NsLog.set_last_tstamp ts ns)) as (p & ns3 & Hok & _).
    rewrite Hok in Hsep. discriminate Hsep. }
  assert (Hcoll' : collision_free (NsLog.set_last_tstamp ts ns) v) by done.
  destruct (maybe_separate_spec _ _ _ _ _ _ _ _ Hr Hcoll' Hsep) as ([vs ->] & _ & Hspec).
  destruct p as [sep fl']. destruct Hspec as (_ & _ & Hsepc). simpl in Hsepc.
  destruct (write_rec ns k v mt exp clock ts fl ef Hwo Hu64 Hef sep fl'
    (ValueStore.blobs vs) Hsepc) as (Hwf & _).
  st_step H buf ns3 Henc; unfold st_lift in Henc;
    rewrite encode_into_eq, decide_True in Henc by apply (rec_wf_fits _ Hwf);
    [|discriminate Henc]. injection Henc as <- <-.
  st_step H self ns3 Hg; unfold st_get in Hg; [|discriminate Hg]. injection Hg as <- <-.
  assert (Happ : forall buf rb,
    NsLog.append_active buf rb no_faults (NsLog.set_values vs (NsLog.set_last_tstamp ts ns))
    = (Ok (zlen (LogFile.data (NsLog.active ns))),
       NsLog.set_active (LogFile.open (LogFile.file_id (NsLog.active ns))
         (LogFile.data (NsLog.active ns) ++ buf)) (NsLog.set_values vs (NsLog.set_last_tstamp ts ns)))).
  { intros. unfold NsLog.append_active. simpl. by rewrite LogFile.append_ok. }
  st_step H off ns4 Ha; rewrite Happ in Ha; [|discriminate Ha]. injection Ha as <- <-.
  st_step H u ns5 Hm; unfold NsLog.add_unsynced, st_modify in Hm; [|discriminate Hm].
  injection Hm as _ <-.
  st_step H old ns6 Hm; unfold NsLog.apply_valsep_insert in Hm; [|discriminate Hm].
  injection Hm as <- <-.
  st_step H u1 ns7 Hm; apply unref_opt_spec in Hm as [Hm ->]; [clear Hm|discriminate Hm].
  st_step H u2 ns8 Hrot; [injection H as <- <-; eauto|exfalso].
  unfold NsLog.maybe_rotate in Hrot. case_decide; [|discriminate Hrot].
  match type of Hrot with NsLog.rotate_active _ ?n = _ => destruct (rotate_ok n) as [ns9 Hok] end;
    [by case_match | by unfold NsLog.next_file_id in *; case_match |].
  rewrite Hok in Hrot. discriminate Hrot.
Qed.
End Sim.
