(* ===== verification/NsOk.v ===== *)
(** * Calls that succeed

    When nothing fails and the log is in service, a write returns a result: the
    error branches of the methods are those of failing files, a frozen log and
    file ids that have run out. *)

From stdpp Require Import base tactics list gmap sorting strings.
From Stdlib Require Import ZArith Lia.
From S2P Require Import Prelude Record Index LogFile ValueStore Recover NsLog NsRepr NsSpec Reclaim NsBatch NsSim.

Open Scope Z_scope.

Section Ok.
Context {crc_impl : CrcFast} {blake : Blake3}.

Lemma append_active_ok buf rb ns :
  LogFile.clean (NsLog.active ns) ->
  NsLog.append_active buf rb no_faults ns =
  (Ok (zlen (LogFile.data (NsLog.active ns))),
   NsLog.set_active (LogFile.open (LogFile.file_id (NsLog.active ns))
     (LogFile.data (NsLog.active ns) ++ buf)) ns).
Proof. intros Hc. unfold NsLog.append_active. simpl. by rewrite LogFile.append_ok. Qed.

(** The revision of the next write. *)
Definition next_rev (clock : Z) (ns : NsLog.t) : Z :=
  if decide (clock > NsLog.last_tstamp ns) then clock else NsLog.last_tstamp ns + 1.

Lemma next_rev_bounds clock ns :
  NsLog.last_tstamp ns < next_rev clock ns <= Z.max clock (NsLog.last_tstamp ns + 1).
Proof. unfold next_rev. case_decide; lia. Qed.

Lemma healthy_append ns ns' d :
  healthy ns -> NsLog.active ns' = LogFile.open (LogFile.file_id (NsLog.active ns)) d ->
  NsLog.sealed ns' = NsLog.sealed ns -> NsLog.frozen ns' = NsLog.frozen ns -> healthy ns'.
Proof.
  intros [Hc Hf Hi] Ha Hs Hfr. split; [rewrite Ha; apply LogFile.clean_open|by rewrite Hfr|].
  unfold NsLog.next_file_id in *. by rewrite Hs, Ha.
Qed.

(** Records were appended; the blobs, and the threshold above which values become
    blobs, are as they were. *)
Definition appended (ns ns' : NsLog.t) : Prop :=
  NsLog.config ns' = NsLog.config ns /\
  ValueStore.blobs (NsLog.values ns') = ValueStore.blobs (NsLog.values ns) /\
  files_extend ns ns'.

(** An entry reads as before. *)
Lemma read_value_appended ns ns' e x :
  appended ns ns' -> NsLog.read_value ns e = Ok x -> NsLog.read_value ns' e = Ok x.
Proof.
  intros (_ & Hb & Hf) Hr. unfold NsLog.read_value in *. apply bind_Ok_inv in Hr as (b & Hrec & Hr).
  assert (NsLog.read_record ns' e = Ok b) as ->.
  { unfold NsLog.read_record in *. apply bind_Ok_inv in Hrec as (f & Hloc & Hread).
    destruct (NsLog.locate_file ns (file_id e)) as [f0|] eqn:Hl; [|done]. injection Hloc as ->.
    destruct (Hf _ _ Hl) as (f' & d & -> & Hd). simpl. unfold LogFile.read_exact, ok_or in *. rewrite Hd.
    destruct (sub (LogFile.data f) _ _) as [b'|] eqn:Hs; [|done]. by erewrite sub_extend. }
  cbn [mbind result_bind] in *. unfold NsLog.deref, ValueStore.get in *. by rewrite Hb.
Qed.

Lemma append_tombstone_ok key old clock ns :
  healthy ns -> fits key [] [] ->
  exists ns', NsLog.append_tombstone key old clock no_faults ns = (Ok (next_rev clock ns), ns') /\
    healthy ns' /\ NsLog.last_tstamp ns' = next_rev clock ns /\ appended ns ns'.
Proof.
  intros Hh Hfit. unfold NsLog.append_tombstone, NsLog.next_tstamp, mbind, st_mbind, st_bind, st_lift.
  fold (next_rev clock ns). cbn [NsLog.last_tstamp]. rewrite encode_into_eq, decide_True by done.
  rewrite append_active_ok by (by destruct Hh). unfold NsLog.add_unsynced, NsLog.unref_opt, st_modify. simpl.
  eexists. split; [done|]. destruct old; (split; [by eapply (healthy_append ns)|split; [done|]]); split_and!; try done;
    try (simpl; by rewrite (proj2 (ValueStore.unref_eq _ _))); by eapply files_extend_active.
Qed.

Lemma guard_ok {A} (body : NsLog.M A) ns r ns' :
  NsLog.frozen ns = false ->
  body (NsLog.set_in_flight (NsLog.in_flight_writes ns + 1) ns) = (r, ns') ->
  NsLog.with_write_guard body ns = (r, NsLog.set_in_flight (sat_sub (NsLog.in_flight_writes ns') 1) ns').
Proof. intros Hf Hb. unfold NsLog.with_write_guard. by rewrite Hf, Hb. Qed.

Lemma guard_succeeds {A} (body : NsLog.M A) ns :
  NsLog.frozen ns = false ->
  (exists a ns', body (NsLog.set_in_flight (NsLog.in_flight_writes ns + 1) ns) = (Ok a, ns')) ->
  exists a ns', NsLog.with_write_guard body ns = (Ok a, ns').
Proof. intros Hf (a & ns' & Hb). do 2 eexists. by apply guard_ok. Qed.

Lemma healthy_in_flight n ns : healthy (NsLog.set_in_flight n ns) <-> healthy ns.
Proof. split; intros []; by split. Qed.

(** What a delete or an expiry change leaves: a log in service, with revisions up to
    the clock or one above the last. *)
Definition bumped (clock : Z) (ns ns' : NsLog.t) : Prop :=
  healthy ns' /\ NsLog.last_tstamp ns <= NsLog.last_tstamp ns' <= Z.max clock (NsLog.last_tstamp ns + 1) /\
  appended ns ns'.

Lemma tombstone_ok key clock ns :
  healthy ns -> fits key [] [] ->
  exists r ns', NsLog.tombstone key clock no_faults ns = (Ok r, ns') /\ bumped clock ns ns'.
Proof.
  intros Hh Hfit. pose proof (next_rev_bounds clock ns) as Hb.
  destruct (NsIndex.remove (NsLog.index ns) key) as [removed idx] eqn:Hr.
  set (ns0 := NsLog.set_index idx (NsLog.set_in_flight (NsLog.in_flight_writes ns + 1) ns)).
  assert (healthy ns0) as Hh0 by (destruct Hh; by split).
  set (h := NsIndex.get_valsep (NsLog.index ns) key).
  destruct (append_tombstone_ok key h clock ns0 Hh0 Hfit) as (ns1 & Hap & Hh1 & Hl1 & Hs1).
  change (next_rev clock ns0) with (next_rev clock ns) in *.
  set (nsf := NsLog.set_in_flight (NsLog.in_flight_writes ns + 1) ns) in ns0.
  unfold NsLog.tombstone. destruct removed as [e|]; do 2 eexists; (split; [apply guard_ok; [by destruct Hh|]|]).
  1, 3: fold nsf; rewrite (st_bind_ok st_get _ nsf nsf nsf eq_refl); cbv zeta;
    change (NsLog.index nsf) with (NsLog.index ns); fold h; rewrite Hr;
    rewrite (st_bind_ok (st_modify (NsLog.set_index idx)) _ nsf tt ns0 eq_refl).
  - rewrite (st_bind_ok _ _ _ _ _ Hap). reflexivity.
  - reflexivity.
  - split; [by apply healthy_in_flight|]. split; [simpl; lia|exact Hs1].
  - split; [by apply healthy_in_flight|]. split; [simpl; lia|]. split_and!; [done..|by apply files_extend_same].
Qed.

Lemma tombstone_cond_ok key rev now clock ns :
  healthy ns -> fits key [] [] ->
  exists r ns', NsLog.tombstone_cond key rev now clock no_faults ns = (Ok r, ns').
Proof.
  intros Hh Hfit. set (ns0 := NsLog.set_in_flight (NsLog.in_flight_writes ns + 1) ns).
  destruct (NsIndex.remove (NsLog.index ns) key) as [removed idx] eqn:Hr.
  assert (healthy (NsLog.set_index idx ns0)) as Hh0 by (destruct Hh; by split).
  set (h := NsIndex.get_valsep (NsLog.index ns) key).
  destruct (append_tombstone_ok key h clock _ Hh0 Hfit) as (ns1 & Hap & _).
  unfold NsLog.tombstone_cond.
  destruct (decide (NsLog.live_rev (NsLog.index ns) key now <> Some rev)) as [Hd|Hd];
    do 2 eexists; (apply guard_ok; [by destruct Hh|]); fold ns0;
    rewrite (st_bind_ok st_get _ ns0 ns0 ns0 eq_refl); cbv zeta;
    change (NsLog.index ns0) with (NsLog.index ns); fold h; [rewrite (decide_True _ _ Hd); reflexivity|].
  rewrite (decide_False _ _ Hd), Hr.
  rewrite (st_bind_ok (st_modify (NsLog.set_index idx)) _ ns0 tt _ eq_refl).
  rewrite (st_bind_ok _ _ _ _ _ Hap). reflexivity.
Qed.

Lemma ttl_update_ok key exp clock ns :
  healthy ns -> fits key [] [] ->
  exists ns', NsLog.ttl_update key exp clock no_faults ns = (Ok (next_rev clock ns), ns') /\ bumped clock ns ns'.
Proof.
  intros Hh Hfit. pose proof (next_rev_bounds clock ns) as Hb.
  set (ns0 := NsLog.set_in_flight (NsLog.in_flight_writes ns + 1) ns).
  destruct (NsLog.expiry_fields flags.TTL_UPDATE exp) as [fl ef] eqn:Hef.
  unfold NsLog.ttl_update. eexists. split; [apply guard_ok; [by destruct Hh|]|].
  - unfold NsLog.next_tstamp, mbind, st_mbind, st_bind, st_lift. fold ns0.
    cbn [NsLog.last_tstamp ns0 NsLog.set_in_flight]. rewrite Hef.
    rewrite encode_into_eq, decide_True by done. rewrite append_active_ok by (by destruct Hh).
    unfold NsLog.add_unsynced, st_modify. simpl. reflexivity.
  - split; [|split; [|split_and!; [done..|by eapply (files_extend_active ns)]]].
    + apply healthy_in_flight. by eapply (healthy_append ns).
    + change (NsLog.last_tstamp ns <= next_rev clock ns <= Z.max clock (NsLog.last_tstamp ns + 1)). lia.
Qed.

Lemma put_full_cond_ok k v mt exp cond now clock ns x m :
  repr_x x m ns -> write_ok ns k v mt exp clock -> healthy ns ->
  exists r ns', NsLog.put_full_cond k v mt exp cond now clock no_faults ns = (Ok r, ns').
Proof.
  intros Hr Hwo Hh. set (ns0 := NsLog.set_in_flight (NsLog.in_flight_writes ns + 1) ns).
  destruct (NsLog.put_record k v mt exp clock no_faults ns0) as [r1 ns1] eqn:Hput.
  assert (exists ts, r1 = Ok ts) as [ts ->].
  { eapply (put_record_ok _ _ _ _ _ ns0); [by apply repr_in_flight| |by apply healthy_in_flight|exact Hput].
    by destruct Hwo. }
  unfold NsLog.put_full_cond.
  destruct (cond_check cond (NsLog.live_rev (NsLog.index ns) k now)) eqn:Hc;
    do 2 eexists; (apply guard_ok; [by destruct Hh|]); fold ns0;
    rewrite (st_bind_ok st_get _ ns0 ns0 ns0 eq_refl);
    change (NsLog.index ns0) with (NsLog.index ns); rewrite Hc; [|reflexivity].
  rewrite (st_bind_ok _ _ _ _ _ Hput). reflexivity.
Qed.

Lemma put_full_ok k v mt exp clock ns x m :
  repr_x x m ns -> write_ok ns k v mt exp clock -> healthy ns ->
  exists ts ns', NsLog.put_full k v mt exp clock no_faults ns = (Ok ts, ns').
Proof.
  intros Hr Hwo Hh. set (ns0 := NsLog.set_in_flight (NsLog.in_flight_writes ns + 1) ns).
  destruct (NsLog.put_record k v mt exp clock no_faults ns0) as [r1 ns1] eqn:Hput.
  assert (exists ts, r1 = Ok ts) as [ts ->].
  { eapply (put_record_ok _ _ _ _ _ ns0); [by apply repr_in_flight| |by apply healthy_in_flight|exact Hput].
    by destruct Hwo. }
  do 2 eexists. apply guard_ok; [by destruct Hh|exact Hput].
Qed.

(** ** Batches *)

Lemma encode_pairs_ok pairs : forall C clock bfs buf layout hashes x m ns,
  repr_x x m ns -> pairs_ok ns pairs ->
  clock_ok C (length pairs) (NsLog.last_tstamp ns) clock -> Forall (.= None) bfs ->
  exists p ns', NsLog.encode_pairs pairs clock bfs buf layout hashes ns = (Ok p, ns').
Proof.
  induction pairs as [|[k v] pairs IH]; intros C clock bfs buf layout hashes x m ns Hr Hpo Hco Hb;
    cbn [NsLog.encode_pairs]; [by do 2 eexists|].
  pose proof (clock_ok_step _ _ _ _ Hco) as (Hu & Hlt & Hco').
  erewrite st_bind_ok by reflexivity. set (ts := if decide _ then _ else _) in *.
  pose proof (repr_tstamp _ _ _ ts Hr ltac:(lia)) as Hr1.
  pose proof (po_coll _ _ Hpo k v (list_elem_of_here _ _)) as Hcoll.
  assert (default None (head bfs) = None) as -> by (by destruct Hb).
  destruct (maybe_separate_ok v flags.NO_EXPIRY (NsLog.set_last_tstamp ts ns)) as ([sh fl] & ns2 & Hsep & _).
  rewrite (st_bind_ok _ _ _ _ _ Hsep).
  destruct (maybe_separate_spec _ _ _ _ _ (NsLog.set_last_tstamp ts ns) _ _ Hr1 Hcoll Hsep)
    as ([vs ->] & _ & Hnew & Hr2 & Hsh).
  erewrite st_bind_ok; cycle 1.
  { unfold st_lift. rewrite encode_into_eq, decide_True; [reflexivity|].
    pose proof (po_fits _ _ Hpo k v (list_elem_of_here _ _)) as Hfit. unfold stored_field in Hfit.
    destruct Hsh as [(-> & -> & Hs)|(-> & -> & Hs & _)]; simpl in Hs.
    - by rewrite decide_False in Hfit by lia.
    - by rewrite decide_True in Hfit by lia. }
  eapply IH; [exact Hr2|by eapply pairs_ok_tail|exact Hco'|by destruct Hb].
Qed.

Lemma put_many_ok pairs clock bfs C x m ns :
  repr_x x m ns -> pairs_ok ns pairs ->
  clock_ok C (length pairs) (NsLog.last_tstamp ns) clock -> Forall (.= None) bfs -> healthy ns ->
  exists tss ns', NsLog.put_many pairs clock bfs no_faults ns = (Ok tss, ns').
Proof.
  intros Hr Hpo Hco Hb [Hc Hf Hi]. set (ns0 := NsLog.set_in_flight (NsLog.in_flight_writes ns + 1) ns).
  apply (repr_in_flight _ _ _ (NsLog.in_flight_writes ns + 1)) in Hr. fold ns0 in Hr.
  assert (Hpo0 : pairs_ok ns0 pairs) by (by destruct Hpo).
  destruct (encode_pairs_ok pairs C clock bfs [] [] [] x m ns0 Hr Hpo0 Hco Hb) as ([[buf layout] hashes] & ns1 & Henc).
  destruct (encode_pairs_spec _ _ _ _ _ _ _ _ _ _ _ _ Hr Hpo0 Hco Henc) as ((v & ts & ->) & _).
  unfold NsLog.put_many. apply guard_succeeds; [done|]. fold ns0.
  destruct (decide (pairs = [])); [by do 2 eexists|].
  rewrite (st_bind_ok _ _ _ _ _ Henc). erewrite st_bind_ok by reflexivity.
  rewrite (st_bind_ok _ _ _ _ _ (append_active_ok _ _ (NsLog.set_values v (NsLog.set_last_tstamp ts ns0)) Hc)).
  do 2 erewrite st_bind_ok by reflexivity.
  destruct (NsLog.commit_pairs _ _ _ _ _ _ _) as [idx olds].
  do 2 erewrite st_bind_ok by reflexivity.
  match goal with |- context [(NsLog.maybe_rotate no_faults ≫= _) ?n] =>
    assert (exists n', NsLog.maybe_rotate no_faults n = (Ok tt, n')) as [n' Hrot] end.
  { unfold NsLog.maybe_rotate. case_decide; [|by eexists]. apply rotate_ok; [apply LogFile.clean_open|done]. }
  rewrite (st_bind_ok _ _ _ _ _ Hrot). by do 2 eexists.
Qed.

(** ** Calls on a log that holds a map *)

Definition holds (m : gmap bytes aentry) (ns : NsLog.t) : Prop :=
  sim (mkAS m (NsLog.last_tstamp ns) false) ns.

(** In service, with room for [n] more revisions. *)
Record ready (n : Z) (ns : NsLog.t) : Prop := {
  rd_healthy : healthy ns;
  rd_last : 0 <= NsLog.last_tstamp ns;
  rd_room : NsLog.last_tstamp ns + n < u64_max;
  rd_count : 0 <= n < 2 ^ 63;
}.

(** A record that fits, with a value that has the hash of no other blob. *)
Definition storable (ns : NsLog.t) (k v mt : bytes) : Prop :=
  fits k (stored_field ns v) mt /\ collision_free ns v.

(** The clock is in the first half of its range. *)
Definition sane (clock : Z) : Prop := 0 <= clock < 2 ^ 63.

Lemma storable_same ns ns' k v mt : appended ns ns' -> storable ns k v mt -> storable ns' k v mt.
Proof.
  intros (Hc & Hb & _) [Hf Hcoll]. split.
  - unfold stored_field in *. by rewrite Hc.
  - intros b. rewrite Hb. apply Hcoll.
Qed.

Lemma ready_bumped n clock ns ns' :
  ready (1 + n) ns -> 0 <= n -> sane clock -> bumped clock ns ns' -> ready n ns'.
Proof.
  intros [Hh Hl Hr Hn] H0 Hc (Hh' & Hb & _). unfold sane in Hc. split; [done|lia| |lia].
  unfold u64_max in *. lia.
Qed.

Lemma ready_weaken n n' ns : ready n ns -> 0 <= n' <= n -> ready n' ns.
Proof. intros [] ?. split; [done|lia..]. Qed.

Lemma ready_write_ok n ns k v mt exp clock :
  ready n ns -> sane clock -> exp_u64 exp -> storable ns k v mt -> write_ok ns k v mt exp clock.
Proof.
  intros [Hh Hl Hr Hn] Hc He [Hf Hcoll]. unfold sane in Hc. split; try done; [zlia|lia].
Qed.

Lemma ready_delete_ok n ns k clock : ready n ns -> sane clock -> fits k [] [] -> delete_ok ns k clock.
Proof. intros [Hh Hl Hr Hn] Hc Hf. unfold sane in Hc. split; try done; [zlia|lia]. Qed.

Lemma holds_step c m ns r ns' :
  holds m ns -> call_ok c ns -> run c ns = (r, ns') -> c <> Freeze ->
  exists m', effect c (mkAS m (NsLog.last_tstamp ns) false) r (mkAS m' (NsLog.last_tstamp ns') false) /\
    holds m' ns' /\ NsLog.last_tstamp ns <= NsLog.last_tstamp ns'.
Proof.
  intros Hh Hok Hrun Hc. destruct (simulation _ _ _ _ _ Hh Hok Hrun) as ([m' l' fz] & (Hle & Hf & He) & Hs).
  assert (fz = false) as -> by (simpl in Hf; destruct c; done).
  pose proof (sim_last _ _ Hs) as Hl. simpl in Hl. subst l'. exists m'. split_and!; [|done..].
  simpl in He. by rewrite andb_false_r in He.
Qed.

Lemma put_runs m ns k v mt exp clock n :
  holds m ns -> ready n ns -> sane clock -> exp_u64 exp -> storable ns k v mt ->
  exists ts ns', NsLog.put_full k v mt exp clock no_faults ns = (Ok ts, ns') /\
    NsLog.last_tstamp ns < ts /\ NsLog.last_tstamp ns' = ts /\ holds (<[k := mkA v mt exp ts]> m) ns'.
Proof.
  intros Hh Hrd Hc He Hst. pose proof (ready_write_ok _ _ _ _ _ _ _ Hrd Hc He Hst) as Hwo.
  destruct (sim_repr _ _ Hh) as [x Hx].
  destruct (put_full_ok _ _ _ _ _ _ _ _ Hx Hwo (rd_healthy _ _ Hrd)) as (ts & ns' & Hput).
  destruct (holds_step (Put k v mt exp clock no_faults) m ns (Ok (ORev ts)) ns')
    as (m' & (Hlt & Heff) & Hh' & _); [done..|by unfold run, ret; rewrite Hput|done|].
  exists ts, ns'. destruct Heff as [[[e [=]] _]|[Hm [[= ->]|[e [=]]]]]. simpl in *. by subst m'.
Qed.

Lemma put_cond_runs m ns k v mt exp cond now clock n :
  holds m ns -> ready n ns -> sane clock -> exp_u64 exp -> storable ns k v mt ->
  exists r ns', NsLog.put_full_cond k v mt exp cond now clock no_faults ns = (Ok r, ns') /\
    match r with
    | Some ts => cond_check cond (alive m k now) = true /\ NsLog.last_tstamp ns < ts /\
                 NsLog.last_tstamp ns' = ts /\ holds (<[k := mkA v mt exp ts]> m) ns'
    | None => cond_check cond (alive m k now) = false /\
              NsLog.last_tstamp ns' = NsLog.last_tstamp ns /\ holds m ns'
    end.
Proof.
  intros Hh Hrd Hc He Hst. pose proof (ready_write_ok _ _ _ _ _ _ _ Hrd Hc He Hst) as Hwo.
  destruct (sim_repr _ _ Hh) as [x Hx].
  destruct (put_full_cond_ok _ _ _ _ cond now _ _ _ _ Hx Hwo (rd_healthy _ _ Hrd)) as (r & ns' & Hput).
  destruct (holds_step (PutCond k v mt exp cond now clock no_faults) m ns (Ok (OOpt r)) ns')
    as (m' & Heff & Hh' & _); [done..|by unfold run, ret; rewrite Hput|done|].
  exists r, ns'. split; [done|]. simpl in Heff. destruct (cond_check cond (alive m k now)).
  - destruct Heff as [Hlt [[[e [=]] _]|[Hm [[= ->]|[e [=]]]]]]. simpl in *. by subst m'.
  - destruct Heff as [[[= ->] Hm] Hl]. simpl in Hm, Hl. by subst m'.
Qed.

Lemma tombstone_runs m ns k clock n :
  holds m ns -> ready (1 + n) ns -> 0 <= n -> sane clock -> fits k [] [] ->
  exists r ns', NsLog.tombstone k clock no_faults ns = (Ok r, ns') /\
    holds (delete k m) ns' /\ ready n ns' /\ appended ns ns' /\
    NsLog.last_tstamp ns <= NsLog.last_tstamp ns' /\
    match m !! k with
    | Some _ => exists ts, r = Some ts /\ NsLog.last_tstamp ns < ts /\ NsLog.last_tstamp ns' = ts
    | None => r = None
    end.
Proof.
  intros Hh Hrd Hn Hc Hf. pose proof (ready_delete_ok _ _ _ _ Hrd Hc Hf) as Hdo.
  destruct (tombstone_ok k clock ns (rd_healthy _ _ Hrd) Hf) as (r & ns' & Ht & Hb).
  destruct (holds_step (Tombstone k clock no_faults) m ns (Ok (OOpt r)) ns')
    as (m' & Heff & Hh' & Hle); [done..|by unfold run, ret; rewrite Ht|done|].
  exists r, ns'. split; [done|]. pose proof (ready_bumped _ _ _ _ Hrd Hn Hc Hb). destruct Hb as (_ & _ & Hsb).
  simpl in Heff. destruct (m !! k) as [a|] eqn:Hk.
  - destruct Heff as [Hlt [Hm [[= ->]|[e [=]]]]]. simpl in *. subst m'. split_and!; try done. by eexists.
  - destruct Heff as [[= ->] Hm]. simpl in Hm. subst m'. rewrite delete_id by done. done.
Qed.

Lemma tombstone_cond_runs m ns k rev now clock n :
  holds m ns -> ready n ns -> sane clock -> fits k [] [] ->
  exists r ns', NsLog.tombstone_cond k rev now clock no_faults ns = (Ok r, ns') /\
    if decide (alive m k now = Some rev)
    then exists ts, r = Some ts /\ NsLog.last_tstamp ns < ts /\ NsLog.last_tstamp ns' = ts /\ holds (delete k m) ns'
    else r = None /\ NsLog.last_tstamp ns' = NsLog.last_tstamp ns /\ holds m ns'.
Proof.
  intros Hh Hrd Hc Hf. pose proof (ready_delete_ok _ _ _ _ Hrd Hc Hf) as Hdo.
  destruct (tombstone_cond_ok k rev now clock ns (rd_healthy _ _ Hrd) Hf) as (r & ns' & Ht).
  destruct (holds_step (TombstoneCond k rev now clock no_faults) m ns (Ok (OOpt r)) ns')
    as (m' & Heff & Hh' & _); [done..|by unfold run, ret; rewrite Ht|done|].
  exists r, ns'. split; [done|]. simpl in Heff. case_decide.
  - destruct Heff as [Hlt [Hm [[= ->]|[e [=]]]]]. simpl in *. subst m'. by eexists.
  - destruct Heff as [[[= ->] Hm] Hl]. simpl in Hm, Hl. by subst m'.
Qed.

Lemma ttl_update_runs m ns k exp clock n a :
  holds m ns -> ready n ns -> sane clock -> fits k [] [] -> exp_u64 exp -> m !! k = Some a ->
  exists ts ns', NsLog.ttl_update k exp clock no_faults ns = (Ok ts, ns') /\
    NsLog.last_tstamp ns < ts /\ NsLog.last_tstamp ns' = ts /\
    holds (<[k := mkA (a_value a) (a_meta a) exp (a_rev a)]> m) ns'.
Proof.
  intros Hh Hrd Hc Hf He Ha. pose proof (ready_delete_ok _ _ _ _ Hrd Hc Hf) as Hdo.
  destruct (sim_repr _ _ Hh) as [x Hx].
  destruct (ttl_update_ok k exp clock ns (rd_healthy _ _ Hrd) Hf) as (ns' & Ht & _).
  destruct (holds_step (TtlUpdate k exp clock no_faults) m ns (Ok (ORev (next_rev clock ns))) ns')
    as (m' & (Hlt & Heff) & Hh' & _); [done| |by unfold run, ret; rewrite Ht|done|].
  { split; [done|]. split; [done|]. apply (rp_dom _ _ _ Hx). by exists a. }
  eexists _, ns'. split; [exact Ht|]. destruct Heff as [[[e [=]] _]|(a' & Ha' & Hr & Hm)].
  simpl in *. assert (a' = a) as -> by congruence. subst m'. injection Hr as Hr. split_and!; [lia|done..].
Qed.

Lemma sane_clock ns (pairs : list (bytes * bytes)) clock n :
  ready n ns -> Forall sane clock -> NsLog.last_tstamp ns < 2 ^ 63 -> zlen pairs < 2 ^ 63 ->
  clock_ok (2 ^ 63) (length pairs) (NsLog.last_tstamp ns) clock.
Proof.
  intros [_ Hl0 _ _] Hc Hl Hn. split; [lia| |unfold zlen, u64_max in *; lia].
  eapply Forall_impl; [exact Hc|]. unfold sane. simpl. lia.
Qed.

Lemma put_many_runs m ns pairs clock bfs n :
  holds m ns -> ready n ns -> Forall sane clock -> Forall (.= None) bfs -> pairs_ok ns pairs ->
  NsLog.last_tstamp ns < 2 ^ 63 -> zlen pairs < 2 ^ 63 ->
  exists tss ns', NsLog.put_many pairs clock bfs no_faults ns = (Ok tss, ns') /\
    length tss = length pairs /\ Forall (fun t => NsLog.last_tstamp ns < t) tss /\
    NsLog.last_tstamp ns <= NsLog.last_tstamp ns' /\ holds (put_all m (zip pairs tss)) ns'.
Proof.
  intros Hh Hrd Hc Hb Hpo Hl Hn. destruct (sim_repr _ _ Hh) as [x Hx].
  pose proof (sane_clock ns pairs clock n Hrd Hc Hl Hn) as Hco.
  destruct (put_many_ok _ _ _ _ _ _ _ Hx Hpo Hco Hb (rd_healthy _ _ Hrd)) as (tss & ns' & Hput).
  destruct (holds_step (PutMany pairs clock bfs no_faults) m ns (Ok (OMany tss)) ns')
    as (m' & Heff & Hh' & Hle); [done|split; [done|by eexists]|by unfold run, ret; rewrite Hput|done|].
  exists tss, ns'. destruct Heff as [[[e [=]] _]|(tss' & Hlen & Hall & Hm & [[= ->]|[e [=]]])].
  simpl in *. by subst m'.
Qed.

(** A flush and the clearing of the value store that follows it. *)
Lemma flush_runs m ns clock :
  holds m ns -> NsLog.reclaim_in_progress ns = false ->
  exists ts ns', NsLog.flush clock ns = (Ok ts, ns') /\ NsLog.last_tstamp ns < ts /\
    NsLog.last_tstamp ns' = ts /\
    holds ∅ (NsLog.set_values (ValueStore.clear (NsLog.values ns')) ns').
Proof.
  intros [[x Hx] Hl Hf Hfl] Hrc. destruct (NsLog.flush clock ns) as [r ns'] eqn:Hflush.
  pose proof Hflush as Hfl2. apply (flush_repr _ x m) in Hfl2 as [(Hrc' & _)|(ts & -> & Hlt & Hl' & _)];
    [congruence| |done].
  exists ts, ns'. split_and!; try done. unfold NsLog.flush in Hflush. rewrite Hrc in Hflush.
  injection Hflush as _ <-. split; simpl; try done.
  exists none. split; simpl; try done.
  - split_and!; simpl; [right; apply LogFile.clean_open|]. intros id f. by rewrite lookup_empty.
  - intros k. unfold NsIndex.get. simpl. by rewrite !lookup_empty.
Qed.
End Ok.

(** ** Properties that calls keep

    What is known of the logs of a store besides the map they represent: a property of
    fresh logs that every call of a log in service keeps, whatever is in the blobs. *)
Class Provenance {crc_impl : CrcFast} {blake : Blake3} := {
  prov : NsLog.t -> Prop;
  prov_fresh cfg : (2 <= fanout cfg)%nat -> prov (fresh cfg);
  prov_call c s ns r ns' : prov ns -> sim s ns -> call_ok c ns -> in_service c = true -> run c ns = (r, ns') -> prov ns';
  prov_values v ns : prov ns -> prov (NsLog.set_values v ns);
}.

(** Nothing is asked of the logs, unless a file says otherwise. *)
#[export] Instance any_log {crc_impl : CrcFast} {blake : Blake3} : Provenance | 100 := {|
  prov _ := True;
  prov_fresh _ _ := I;
  prov_call _ _ _ _ _ _ _ _ _ _ := I;
  prov_values _ _ _ := I;
|}.
