(* ===== verification/NsContract.v ===== *)
(** * What the namespace log guarantees

    The theorems about [NamespaceLog] in terms of what a client observes: the
    value, metadata, expiry and revision of a key ([observe]).  They hold in every
    state that a fresh log reaches by calls whose arguments are in range. *)

From stdpp Require Import base tactics list gmap sorting strings.
From Stdlib Require Import ZArith Lia.
From S2P Require Import Prelude Record Index LogFile ValueStore Recover NsLog NsRepr NsSpec Reclaim NsBatch NsSim.

Open Scope Z_scope.

Section Contract.
Context {crc_impl : CrcFast} {blake : Blake3}.

(** What a read of a key finds: the result of reading its record, its expiry and
    its revision. *)
Definition observe (ns : NsLog.t) (k : bytes)
    : option (eresult (bytes * bytes) * option Z * Z) :=
  e ← NsIndex.get (NsLog.index ns) k;
  Some (NsLog.read_value ns e, NsIndex.get_ttl (NsLog.index ns) k, ie_tstamp_ms e).

Definition observed (a : aentry) : eresult (bytes * bytes) * option Z * Z :=
  (Ok (a_value a, a_meta a), a_expires a, a_rev a).

Lemma observe_repr x m ns k : repr_x x m ns -> observe ns k = observed <$> m !! k.
Proof.
  intros Hr. unfold observe. destruct (m !! k) as [a|] eqn:Ha.
  - destruct (read_value_repr _ _ _ _ _ Hr Ha) as (e & He & Ht & Hv & Hrd).
    rewrite He. simpl. by rewrite Ht, Hv, Hrd.
  - destruct (NsIndex.get (NsLog.index ns) k) eqn:He; [|done].
    destruct (proj2 (rp_dom _ _ _ Hr k)) as [a Ha']; [eauto|]. congruence.
Qed.

Definition reachable (cfg : LogConfig) (ns : NsLog.t) : Prop :=
  exists tr, runs (fresh cfg) tr ns.

Lemma reachable_sim cfg ns : reachable cfg ns -> exists s, sim s ns.
Proof.
  intros [tr Hr]. destruct (runs_simulated _ _ _ Hr _ (sim_fresh cfg)) as (s & _ & Hs). eauto.
Qed.

(** A write that took effect, as a client sees it. *)
Definition wrote (key value meta : bytes) (exp : option Z) (ts : Z) (ns ns' : NsLog.t) : Prop :=
  observe ns' key = Some (Ok (value, meta), exp, ts) /\
  forall k, k <> key -> observe ns' k = observe ns k.

Lemma wrote_repr x x' m ns ns' key value meta exp ts :
  repr_x x m ns -> repr_x x' (<[key := mkA value meta exp ts]> m) ns' ->
  wrote key value meta exp ts ns ns'.
Proof.
  intros Hr Hr'. split.
  - rewrite (observe_repr _ _ _ _ Hr'), lookup_insert_eq. done.
  - intros k Hk. rewrite (observe_repr _ _ _ _ Hr'), (observe_repr _ _ _ _ Hr).
    by rewrite lookup_insert_ne.
Qed.

(** C6: The log refines a map.  Every sequence of calls on a fresh namespace, with
    any clock readings and any failing writes, fsyncs and openings of files, is a run
    with the same results of the abstract machine, whose state is one map; and afterwards every key reads
    exactly what the map holds for it, inline or through the blob store. *)
Theorem log_refines_map cfg tr ns :
  runs (fresh cfg) tr ns ->
  exists s, aruns (mkAS ∅ 0 false) tr s /\ NsLog.last_revision ns = as_last s /\
    forall k, observe ns k = observed <$> as_map s !! k.
Proof.
  intros Hr. destruct (runs_simulated _ _ _ Hr _ (sim_fresh cfg)) as (s & Ha & Hs).
  exists s. split; [done|]. split; [by rewrite (sim_last _ _ Hs)|].
  destruct (sim_repr _ _ Hs) as [x Hx]. intros k. by eapply observe_repr.
Qed.

(** C19: A write succeeds when nothing fails, is read back with its value, metadata,
    expiry and a revision above every earlier one, and changes no other key. *)
Theorem put_full_total cfg ns key value meta exp clock :
  reachable cfg ns -> write_ok ns key value meta exp clock -> healthy ns ->
  exists ts ns', NsLog.put_full key value meta exp clock no_faults ns = (Ok ts, ns') /\
    NsLog.last_revision ns < ts /\ wrote key value meta exp ts ns ns'.
Proof.
  intros Hreach Hwo Hh. destruct (reachable_sim _ _ Hreach) as (s & [[x Hx] _ _ _]).
  destruct (NsLog.put_full key value meta exp clock no_faults ns) as [r ns'] eqn:Hp.
  destruct (put_full_repr _ _ _ _ _ _ _ _ _ _ _ Hx Hwo Hp)
    as [(Hfr & _)|(ts & Hfr & Hlt & Hlast & Hres)]; [by rewrite (he_thawed _ Hh) in Hfr|].
  assert (exists ts', r = Ok ts') as [ts' ->].
  { unfold NsLog.put_full in Hp. apply guard_inv in Hp as [(Hf & _)|(_ & ns1 & Hb & _)];
      [by rewrite (he_thawed _ Hh) in Hf|].
    eapply put_record_ok in Hb; [done|by apply repr_in_flight|by destruct Hwo|by destruct Hh]. }
  destruct Hres as [[_ [e [=]]]|[Hr [[= ->]|[e [=]]]]].
  exists ts, ns'. split_and!; try done. by eapply wrote_repr.
Qed.

(** C24: A conditional write is a compare-and-swap: it writes, as an unconditional
    one does, when the condition holds of the key's live revision (absent when the
    key has expired), and otherwise it changes nothing at all. *)
Theorem put_cond_cas cfg ns key value meta exp cond now clock :
  reachable cfg ns -> write_ok ns key value meta exp clock -> healthy ns ->
  if cond_check cond (NsLog.live_rev (NsLog.index ns) key now)
  then exists ts ns',
    NsLog.put_full_cond key value meta exp cond now clock no_faults ns = (Ok (Some ts), ns') /\
    NsLog.last_revision ns < ts /\ wrote key value meta exp ts ns ns'
  else NsLog.put_full_cond key value meta exp cond now clock no_faults ns = (Ok None, ns).
Proof.
  intros Hreach Hwo Hh. destruct (reachable_sim _ _ Hreach) as (s & [[x Hx] _ _ Hn]).
  rewrite (live_rev_repr _ _ _ key now Hx).
  destruct (NsLog.put_full_cond key value meta exp cond now clock no_faults ns) as [r ns'] eqn:Hp.
  pose proof Hp as Hp0.
  destruct (put_full_cond_repr _ _ _ _ _ _ _ _ _ _ _ _ _ Hx Hwo Hn Hp)
    as [(Hfr & _)|[(_ & Hc & -> & ->)|(ts & Hfr & Hc & Hlt & Hlast & Hres)]].
  - by rewrite (he_thawed _ Hh) in Hfr.
  - by rewrite Hc.
  - rewrite Hc. assert (exists o, r = Ok o) as [o ->].
    { apply guard_inv in Hp0 as [(Hf & _)|(_ & ns1 & Hb & _)];
        [by rewrite (he_thawed _ Hh) in Hf|].
      st_step Hb self ns2 Hg; unfold st_get in Hg; [|discriminate Hg]. injection Hg as <- <-.
      change (NsLog.index (NsLog.set_in_flight _ ns)) with (NsLog.index ns) in Hb.
      rewrite (live_rev_repr _ _ _ key now Hx), Hc in Hb.
      st_step Hb ts' ns2 Hput;
        (eapply put_record_ok in Hput; [|by apply repr_in_flight|by destruct Hwo|by destruct Hh]);
        destruct Hput as [t Ht]; [injection Hb as <- _; eauto|discriminate Ht]. }
    destruct Hres as [[_ [e [=]]]|[Hr [[= ->]|[e [=]]]]].
    exists ts, ns'. split_and!; try done. by eapply wrote_repr.
Qed.

Lemma put_cond_false key value meta exp cond now clock io ns :
  NsLog.frozen ns = false -> 0 <= NsLog.in_flight_writes ns ->
  cond_check cond (NsLog.live_rev (NsLog.index ns) key now) = false ->
  NsLog.put_full_cond key value meta exp cond now clock io ns = (Ok None, ns).
Proof.
  intros Hfr Hn Hc. unfold NsLog.put_full_cond, NsLog.with_write_guard.
  rewrite Hfr. unfold mbind, st_mbind, st_bind, st_get. simpl. rewrite Hc. simpl.
  f_equal. by apply set_in_flight_undo.
Qed.

(** C18: No lost update.  After a compare-and-swap against a revision has succeeded,
    no second one against the same revision does, whatever its value, its time and
    the failures around it: it returns [None] and changes nothing. *)
Theorem cas_at_most_once cfg ns key v1 meta1 exp1 rev now1 clock1 io1 ts ns1
    v2 meta2 exp2 now2 clock2 io2 :
  reachable cfg ns -> write_ok ns key v1 meta1 exp1 clock1 ->
  NsLog.put_full_cond key v1 meta1 exp1 (Revision rev) now1 clock1 io1 ns = (Ok (Some ts), ns1) ->
  rev < ts /\
  NsLog.put_full_cond key v2 meta2 exp2 (Revision rev) now2 clock2 io2 ns1 = (Ok None, ns1).
Proof.
  intros Hreach Hwo Hp. destruct (reachable_sim _ _ Hreach) as (s & [[x Hx] _ _ Hn]).
  destruct (run_stable (PutCond key v1 meta1 exp1 (Revision rev) now1 clock1 io1) ns
    (Ok (OOpt (Some ts))) ns1 Hn) as [Hi Hf]; [simpl; by rewrite Hp|].
  destruct (put_full_cond_repr _ _ _ _ _ _ _ _ _ _ _ _ _ Hx Hwo Hn Hp)
    as [(_ & [=] & _)|[(_ & _ & [=] & _)|(ts' & Hfr & Hc & Hlt & Hlast & Hres)]].
  destruct Hres as [[_ [e [=]]]|[Hr [[= <-]|[e [=]]]]].
  assert (rev <= NsLog.last_tstamp ns) as Hrev.
  { unfold cond_check in Hc. apply bool_decide_eq_true in Hc. unfold alive in Hc.
    destruct (as_map s !! key) as [a|] eqn:Ha; [|done].
    assert (a_rev a = rev) as <- by (repeat case_match; congruence).
    by eapply rp_rev. }
  split; [lia|]. apply put_cond_false; [congruence|lia|].
  rewrite (live_rev_repr _ _ _ key now2 Hr). unfold alive. rewrite lookup_insert_eq. simpl.
  repeat case_match; simplify_eq; apply bool_decide_eq_false; congruence || (intros [= ?]; lia).
Qed.

(** Calls that can leave a blob reference without a key: a flush, and a batch or a
    delete that fails. *)
Definition tidy (c : call) (r : eresult out) : bool :=
  match c with
  | Flush _ => false
  | PutMany _ _ _ _ | Tombstone _ _ _ | TombstoneCond _ _ _ _ _ => is_ok r
  | _ => true
  end.

Lemma tidy_step c x m ns r ns' :
  repr_x x m ns -> 0 <= NsLog.in_flight_writes ns -> call_ok c ns -> run c ns = (r, ns') ->
  tidy c r = true -> exists m', repr_x x m' ns'.
Proof.
  intros Hx Hn Hok H Ht. destruct c; try (apply ret_inv in H as (r0 & H & ->)).
  - destruct (put_full_repr _ _ _ _ _ _ _ _ _ _ _ Hx Hok H)
      as [(_ & _ & ->)|(? & _ & _ & _ & [[? _]|[? _]])]; eauto.
  - destruct (put_full_cond_repr _ _ _ _ _ _ _ _ _ _ _ _ _ Hx Hok Hn H)
      as [(_ & _ & ->)|[(_ & _ & _ & ->)|(? & _ & _ & _ & _ & [[? _]|[? _]])]]; eauto.
  - destruct Hok as [Hpo [C Hco]]. destruct (put_many_repr _ _ _ _ _ _ _ _ _ _ Hx Hpo Hco H)
      as [(_ & _ & ->)|(_ & _ & [(? & e & _ & ->)|(? & _ & _ & ? & _)])]; eauto.
    discriminate Ht.
  - destruct (tombstone_repr _ _ _ _ _ _ _ _ Hx Hok Hn H)
      as [(_ & _ & ->)|[(_ & _ & _ & _ & ?)|(_ & _ & _ & Hr)]]; eauto.
    destruct r0; [destruct Hr; eauto|discriminate Ht].
  - destruct (tombstone_cond_repr _ _ _ _ _ _ _ _ _ _ Hx Hok Hn H)
      as [(_ & _ & ->)|[(_ & _ & _ & ->)|(_ & _ & _ & Hr)]]; eauto.
    destruct r0; [destruct Hr; eauto|discriminate Ht].
  - destruct Hok as (Hok & Hexp & Hin). apply (rp_dom _ _ _ Hx) in Hin as [a Ha].
    destruct (ttl_update_repr _ _ _ _ _ _ _ _ _ _ Hx Hok Hexp Ha H)
      as [(_ & _ & ->)|(_ & _ & Hr)]; [eauto|]. destruct r0; [destruct Hr|]; eauto.
  - destruct (sync_repr _ _ _ _ _ _ Hx H) as (_ & _ & ?). eauto.
  - destruct (rotate_repr _ _ _ _ _ _ Hx H) as (_ & ?). eauto.
  - destruct (seal_repr _ _ _ _ _ _ _ Hx H) as (_ & ?). eauto.
  - destruct (reopen_repr _ _ _ _ _ _ Hx H) as (_ & ?). eauto.
  - destruct (Reclaim.reclaim_repr _ _ _ _ _ _ _ Hx H) as (? & _). eauto.
  - discriminate Ht.
  - injection H as <- <-. exists m. by eapply repr_same.
  - injection H as <- <-. exists m. by eapply repr_same.
Qed.

Lemma tidy_runs ns tr ns' :
  runs ns tr ns' -> Forall (fun p => tidy p.1 p.2 = true) tr ->
  forall x m, repr_x x m ns -> 0 <= NsLog.in_flight_writes ns -> exists m', repr_x x m' ns'.
Proof.
  induction 1 as [|ns c r ns1 tr ns2 Hok Hrun _ IH]; intros Ht x m Hx Hn; [eauto|].
  apply Forall_cons_1 in Ht as [Ht Hts].
  destruct (tidy_step _ _ _ _ _ _ Hx Hn Hok Hrun Ht) as [m1 Hx1].
  destruct (run_stable _ _ _ _ Hn Hrun) as [Hi _]. eapply IH; [done..|lia].
Qed.

Lemma users_size vs h : users vs h <= Z.of_nat (size vs).
Proof. unfold users. pose proof (map_filter_subseteq (fun kv => kv.2 = h) vs) as Hs. apply map_subseteq_size in Hs. lia. Qed.

(** Every blob that a key needs is referenced and present. *)
Definition blobs_held (ns : NsLog.t) : Prop :=
  forall k h, NsIndex.get_valsep (NsLog.index ns) k = Some h ->
    0 < ValueStore.refcount (NsLog.values ns) h /\
    exists b, ValueStore.get (NsLog.values ns) h = Ok b /\ ValueStore.content_hash b = h.

Lemma repr_blobs_held x m ns : repr_x x m ns -> blobs_held ns.
Proof.
  intros Hm k h Hk. pose proof (rp_refs _ _ _ Hm h) as Hh. pose proof (rp_x _ _ _ Hm h) as Hxh.
  assert (0 < ValueStore.refcount (NsLog.values ns) h) as Hp by (pose proof (users_pos _ _ _ Hk); lia).
  split; [done|]. unfold ValueStore.refcount in Hp.
  destruct (ValueStore.refs (NsLog.values ns) !! h) as [c|] eqn:Hc; [|simpl in Hp; lia].
  destruct (rp_values _ _ _ Hm h c Hc) as (_ & b & Hb & Hch). exists b. unfold ValueStore.get. by rewrite Hb.
Qed.

(** C26: Reference counts never fall short, and are exact in tidy runs.  After any calls
    on a fresh namespace, failing ones and flushes included, no blob has fewer
    references than keys whose value it holds, and the blob of a live key is on disk
    with the content its hash names.  When no call was a flush, a failed batch or a
    failed delete (single writes may fail), every count is the number of those keys;
    and while fewer than 2^32 - 1 values are stored as blobs the counts are far enough
    from wrapping that a [put] at 32 bits is the one of the model. *)
Theorem refcounts_exact cfg tr ns :
  runs (fresh cfg) tr ns ->
  (forall h, users (NsIndex.valsep (NsLog.index ns)) h <= ValueStore.refcount (NsLog.values ns) h) /\
  blobs_held ns /\
  (Forall (fun p => tidy p.1 p.2 = true) tr ->
   (forall h, ValueStore.refcount (NsLog.values ns) h = users (NsIndex.valsep (NsLog.index ns)) h) /\
   (Z.of_nat (size (NsIndex.valsep (NsLog.index ns))) < u32_max ->
    forall v fault, ValueStore.put32 (NsLog.values ns) v fault = ValueStore.put (NsLog.values ns) v fault)).
Proof.
  intros Hr. destruct (reachable_sim cfg ns) as (s & [[x Hx] _ _ _]); [by exists tr|]. split_and!.
  - intros h. rewrite (rp_refs _ _ _ Hx h). pose proof (rp_x _ _ _ Hx h). lia.
  - by eapply repr_blobs_held.
  - intros Ht. destruct (repr_fresh cfg) as [Hx0 Hn]. destruct (tidy_runs _ _ _ Hr Ht _ _ Hx0 Hn) as [m Hm].
    assert (forall h, ValueStore.refcount (NsLog.values ns) h = users (NsIndex.valsep (NsLog.index ns)) h) as Hc.
    { intros h. rewrite (rp_refs _ _ _ Hm h). unfold none. lia. }
    split; [exact Hc|]. intros Hs v fault. apply ValueStore.put32_put. rewrite Hc.
    pose proof (users_size (NsIndex.valsep (NsLog.index ns)) (ValueStore.content_hash v)).
    pose proof (users_nonneg (NsIndex.valsep (NsLog.index ns)) (ValueStore.content_hash v)). lia.
Qed.

(** A log that can be compacted. *)
Record compactable (ns : NsLog.t) : Prop := {
  cm_clean : LogFile.clean (NsLog.active ns);
  cm_idle : NsLog.reclaim_in_progress ns = false;
  cm_fanout : (2 <= fanout (NsLog.config ns))%nat;
  cm_id : 0 <= LogFile.file_id (NsLog.active ns);
  cm_room : Reclaim.top ns + Z.of_nat (size (NsLog.sealed ns)) + 2 <= u32_max;
}.

(** C29: Compaction is invisible and ends.  Without failures it succeeds, whatever runs
    and levels the log has; every key reads as before, with the same value,
    metadata, expiry and revision; and afterwards no level has as many runs as the
    fanout. *)
Theorem reclaim_preserves cfg ns :
  reachable cfg ns -> compactable ns ->
  exists report ns', Reclaim.reclaim no_faults [] ns = (Ok report, ns') /\
    (forall k, observe ns' k = observe ns k) /\
    NsLog.last_revision ns' = NsLog.last_revision ns /\
    forall lvl, 0 <= lvl <= u8_max ->
      (length (Reclaim.runs_at ns' lvl) < fanout (NsLog.config ns))%nat.
Proof.
  intros Hreach []. destruct (reachable_sim _ _ Hreach) as (s & [[x Hx] _ _ _]).
  destruct (Reclaim.reclaim_ok x _ ns Hx) as (report & ns' & Hrec & Hn & Hcfg & _); try done.
  destruct (Reclaim.reclaim_repr _ _ _ _ _ _ _ Hx Hrec) as (Hx' & Hl & _).
  exists report, ns'. split_and!; [done| |done|].
  - intros k. by rewrite (observe_repr _ _ _ _ Hx'), (observe_repr _ _ _ _ Hx).
  - intros lvl Hlvl. rewrite <- Hcfg in *. apply Reclaim.full_level_None; [done..|lia].
Qed.

(** ** The contract of a call, as a decision *)

#[export] Instance collision_free_dec ns v : Decision (collision_free ns v).
Proof.
  unfold collision_free.
  destruct (ValueStore.blobs (NsLog.values ns) !! ValueStore.content_hash v) as [b|];
    [|left; intros ? [=]].
  destruct (decide (b = v)) as [Heq|Hne]; [left; by intros ? [= <-]|].
  destruct (decide (ValueStore.content_hash b = ValueStore.content_hash v)) as [Hh|Hh].
  - right. intros Hc. by apply Hne, Hc.
  - left. intros ? [= <-]. done.
Defined.

Definition write_okb (ns : NsLog.t) (k v mt : bytes) (exp : option Z) (clock : Z) : bool :=
  bool_decide (is_u64 clock /\ 0 <= NsLog.last_tstamp ns < u64_max /\
    is_u64 (default 0 exp) /\ fits k (stored_field ns v) mt /\ collision_free ns v).

Lemma write_okb_ok ns k v mt exp clock :
  write_okb ns k v mt exp clock = true -> write_ok ns k v mt exp clock.
Proof.
  intros (Hc & Hl & He & Hf & Hcf)%bool_decide_eq_true. split; try done. by intros ms ->.
Qed.

Definition delete_okb (ns : NsLog.t) (k : bytes) (clock : Z) : bool :=
  bool_decide (is_u64 clock /\ 0 <= NsLog.last_tstamp ns < u64_max /\ fits k [] []).

Lemma delete_okb_ok ns k clock : delete_okb ns k clock = true -> delete_ok ns k clock.
Proof. intros (Hc & Hl & Hf)%bool_decide_eq_true. by split. Qed.

(** The bound of a batch's clocks is the largest reading. *)
Definition batch_okb (ns : NsLog.t) (ps : list (bytes * bytes)) (clock : list Z) : bool :=
  let C := foldr Z.max (NsLog.last_tstamp ns) clock in
  forallb (fun p => bool_decide (fits p.1 (stored_field ns p.2) [] /\ collision_free ns p.2)) ps &&
  forallb (fun p => forallb (fun q => bool_decide
    (p.2 = q.2 \/ ValueStore.content_hash p.2 <> ValueStore.content_hash q.2)) ps) ps &&
  forallb (fun t => bool_decide (0 <= t <= C)) clock &&
  bool_decide (0 <= NsLog.last_tstamp ns <= C /\ C + Z.of_nat (length ps) <= u64_max).

Lemma batch_okb_ok ns ps clock :
  batch_okb ns ps clock = true ->
  pairs_ok ns ps /\ exists C, clock_ok C (length ps) (NsLog.last_tstamp ns) clock.
Proof.
  intros H. apply andb_prop in H as [H [Hlast Hroom]%bool_decide_eq_true].
  apply andb_prop in H as [H Hclk%Is_true_true_2%forallb_True]. apply andb_prop in H as [Hps Hdis].
  assert (forall p, p ∈ ps -> fits p.1 (stored_field ns p.2) [] /\ collision_free ns p.2) as Hall.
  { intros p Hp%list_elem_of_In. eapply forallb_forall in Hps; [|done].
    by apply bool_decide_eq_true in Hps. }
  split; [split|].
  - intros k v Hp. by apply (Hall (k, v)).
  - intros k v Hp. by apply (Hall (k, v)).
  - intros k v k' v' Hp%list_elem_of_In Hp'%list_elem_of_In Hh.
    eapply forallb_forall in Hdis; [|exact Hp]. eapply forallb_forall in Hdis; [|exact Hp'].
    apply bool_decide_eq_true in Hdis as [Heq|Hne]; [done|]. by destruct Hne.
  - eexists. split; [done| |done]. eapply Forall_impl; [exact Hclk|].
    intros t. simpl. apply bool_decide_unpack.
Qed.

Definition call_okb (c : call) (ns : NsLog.t) : bool :=
  match c with
  | Put k v mt exp clock _ | PutCond k v mt exp _ _ clock _ => write_okb ns k v mt exp clock
  | PutMany ps clock _ _ => batch_okb ns ps clock
  | Tombstone k clock _ | TombstoneCond k _ _ clock _ => delete_okb ns k clock
  | TtlUpdate k exp clock _ =>
      delete_okb ns k clock && bool_decide (is_u64 (default 0 exp)) &&
      bool_decide (is_Some (NsIndex.get (NsLog.index ns) k))
  | Compact _ _ => bool_decide (2 <= fanout (NsLog.config ns))%nat
  | _ => true
  end.

Lemma call_okb_ok c ns : call_okb c ns = true -> call_ok c ns.
Proof.
  destruct c; simpl; try done; auto using write_okb_ok, delete_okb_ok, batch_okb_ok.
  2: apply bool_decide_eq_true.
  intros H. apply andb_prop in H as [H Hin%bool_decide_eq_true].
  apply andb_prop in H as [H He%bool_decide_eq_true].
  split_and!; [by apply delete_okb_ok | by intros ms -> | done].
Qed.

(** Runs calls one after the other while their contracts hold. *)
Fixpoint exec (cs : list call) (ns : NsLog.t) : option (list (call * eresult out) * NsLog.t) :=
  match cs with
  | [] => Some ([], ns)
  | c :: cs =>
      if call_okb c ns then
        let '(r, ns1) := run c ns in
        '(tr, ns2) ← exec cs ns1; Some ((c, r) :: tr, ns2)
      else None
  end.

Lemma exec_runs cs : forall ns tr ns', exec cs ns = Some (tr, ns') -> runs ns tr ns'.
Proof.
  induction cs as [|c cs IH]; simpl; intros ns tr ns' H; [injection H as <- <-; constructor|].
  destruct (call_okb c ns) eqn:Hok; [|done]. destruct (run c ns) as [r ns1] eqn:Hrun.
  destruct (exec cs ns1) as [[tr1 ns2]|] eqn:Hex; [|done]. injection H as <- <-.
  econstructor; eauto using call_okb_ok.
Qed.

Definition final (cfg : LogConfig) (cs : list call) : NsLog.t :=
  match exec cs (fresh cfg) with Some (_, ns) => ns | None => fresh cfg end.

Definition trace (cfg : LogConfig) (cs : list call) : list (call * eresult out) :=
  match exec cs (fresh cfg) with Some (tr, _) => tr | None => [] end.

Lemma final_runs cfg cs : runs (fresh cfg) (trace cfg cs) (final cfg cs).
Proof.
  unfold trace, final. destruct (exec cs (fresh cfg)) as [[tr ns]|] eqn:H; [|constructor].
  by eapply exec_runs.
Qed.
End Contract.

(** ** A concrete log *)

(** Values of four bytes and more go to the blob store, files of 120 bytes and more
    are sealed. *)
Definition ex_cfg : LogConfig := mkLogConfig 120 8 4.

Definition ex_calls : list call :=
  [ Put [97] [1; 2] [7] None 1000 no_faults;
    Put [98] [1; 2; 3; 4; 5] [] (Some 9000) 1000 no_faults;
    PutMany [([99], [9]); ([97], [1; 2; 3; 4; 5])] [1001; 1002] [None; None] no_faults;
    TtlUpdate [97] (Some 5000) 1003 no_faults;
    PutCond [99] [8] [] None (Revision 1002) 1004 1004 no_faults;
    Tombstone [98] 1005 no_faults;
    Rotate no_faults ].
Definition ex_ns : NsLog.t := final ex_cfg ex_calls.

Lemma ex_reachable : reachable ex_cfg ex_ns.
Proof. eexists. apply final_runs. Qed.

Lemma ex_healthy : healthy ex_ns.
Proof. split; vm_compute; repeat split; by try discriminate. Qed.


Lemma log_refines_map_witness :
  exists s, aruns (mkAS ∅ 0 false) (trace ex_cfg ex_calls) s /\
    NsLog.last_revision ex_ns = as_last s /\
    forall k, observe ex_ns k = observed <$> as_map s !! k.
Proof. exact (log_refines_map ex_cfg (trace ex_cfg ex_calls) ex_ns (final_runs _ _)). Defined.

(** The run is the intended one: it is not cut short, files were sealed, and the
    keys hold what the calls wrote. *)
Lemma ex_run :
  snd <$> trace ex_cfg ex_calls
  = [ Ok (ORev 1000); Ok (ORev 1001); Ok (OMany [1002; 1003]); Ok (ORev 1004);
      Ok (OOpt (Some 1005)); Ok (OOpt (Some 1006)); Ok OUnit ] /\
  NsLog.sealed_file_count ex_ns = 2%nat /\
  observe ex_ns [97] = Some (Ok ([1; 2; 3; 4; 5], []), Some 5000, 1003) /\
  observe ex_ns [98] = None /\
  observe ex_ns [99] = Some (Ok ([8], []), None, 1005).
Proof. repeat split; vm_compute; reflexivity. Qed.

Lemma put_full_total_witness :
  exists ts ns', NsLog.put_full [97] [4; 4; 4; 4] [] None 2000 no_faults ex_ns = (Ok ts, ns') /\
    NsLog.last_revision ex_ns < ts /\ wrote [97] [4; 4; 4; 4] [] None ts ex_ns ns'.
Proof.
  refine (put_full_total ex_cfg ex_ns _ _ _ _ _ ex_reachable _ ex_healthy).
  apply write_okb_ok. vm_compute. reflexivity.
Defined.

Lemma put_cond_cas_witness :
  exists ts ns',
    NsLog.put_full_cond [99] [4; 4; 4; 4] [] None (Revision 1005) 2000 2000 no_faults ex_ns
    = (Ok (Some ts), ns') /\
    NsLog.last_revision ex_ns < ts /\ wrote [99] [4; 4; 4; 4] [] None ts ex_ns ns'.
Proof.
  assert (write_ok ex_ns [99] [4; 4; 4; 4] [] None 2000) as Hw
    by (apply write_okb_ok; vm_compute; reflexivity).
  assert (cond_check (Revision 1005) (NsLog.live_rev (NsLog.index ex_ns) [99] 2000) = true) as Hc
    by (vm_compute; reflexivity).
  pose proof (put_cond_cas ex_cfg ex_ns [99] [4; 4; 4; 4] [] None (Revision 1005) 2000 2000
    ex_reachable Hw ex_healthy) as H.
  rewrite Hc in H. exact H.
Defined.

Definition ex_cas := NsLog.put_full_cond [99] [7] [] None (Revision 1005) 2000 2000 no_faults ex_ns.

Lemma cas_at_most_once_witness :
  1005 < 2000 /\
  NsLog.put_full_cond [99] [6; 6; 6; 6] [] None (Revision 1005) 2001 2001 no_faults ex_cas.2
  = (Ok None, ex_cas.2).
Proof.
  refine (cas_at_most_once ex_cfg ex_ns [99] [7] [] None 1005 2000 2000 no_faults 2000 ex_cas.2
    [6; 6; 6; 6] [] None 2001 2001 no_faults ex_reachable _ _).
  - apply write_okb_ok. vm_compute. reflexivity.
  - vm_compute. reflexivity.
Defined.

Lemma refcounts_exact_witness :
  ValueStore.refcount (NsLog.values ex_ns) (ValueStore.content_hash [1; 2; 3; 4; 5]) = 1.
Proof.
  assert (Forall (fun p => tidy p.1 p.2 = true) (trace ex_cfg ex_calls)) as Ht
    by (vm_compute; repeat constructor).
  destruct (refcounts_exact ex_cfg (trace ex_cfg ex_calls) ex_ns (final_runs _ _)) as (_ & _ & Hex).
  rewrite (proj1 (Hex Ht)). vm_compute. reflexivity.
Defined.

(** Files of 60 bytes and more are sealed, two runs of a level are merged. *)
Definition ex_tiers : LogConfig := mkLogConfig 60 2 4.
Definition ex_tier_calls : list call :=
  [ Put [97] [1; 2] [7] None 1000 no_faults; Rotate no_faults;
    Put [98] [1; 2; 3; 4; 5] [] (Some 9000) 1000 no_faults; Rotate no_faults;
    Put [97] [1; 2; 3] [7] None 1000 no_faults; Compact no_faults [];
    Put [99] [1; 2; 3; 4; 5] [7] None 1002 no_faults; Rotate no_faults;
    Tombstone [98] 1005 no_faults ].
Definition ex_tier_ns : NsLog.t := final ex_tiers ex_tier_calls.

Lemma reclaim_preserves_witness :
  exists report ns', Reclaim.reclaim no_faults [] ex_tier_ns = (Ok report, ns') /\
    (forall k, observe ns' k = observe ex_tier_ns k) /\
    NsLog.last_revision ns' = NsLog.last_revision ex_tier_ns /\
    forall lvl, 0 <= lvl <= u8_max ->
      (length (Reclaim.runs_at ns' lvl) < fanout (NsLog.config ex_tier_ns))%nat.
Proof.
  refine (reclaim_preserves ex_tiers ex_tier_ns (ex_intro _ _ (final_runs ex_tiers ex_tier_calls)) _).
  split; [split; vm_compute; reflexivity|vm_compute; reflexivity|apply (bool_decide_unpack _); vm_compute; exact I|
    apply (bool_decide_unpack _); vm_compute; exact I|].
  apply Z.leb_le. vm_compute. reflexivity.
Defined.

(** The run really merges: four runs in two merges, to the one run of a higher level. *)
Lemma ex_tier_run :
  snd <$> trace ex_tiers ex_tier_calls
  = [ Ok (ORev 1000); Ok OUnit; Ok (ORev 1001); Ok OUnit; Ok (ORev 1002); Ok OUnit;
      Ok (ORev 1003); Ok OUnit; Ok (OOpt (Some 1005)) ] /\
  (Reclaim.reclaim no_faults [] ex_tier_ns).1 = Ok (mkReport 2 97 4 0 8).
Proof. split; vm_compute; reflexivity. Qed.
