(* ===== verification/NsJournal.v ===== *)
(** * The log as a journal

    What the data files of a namespace say about its index, in every state that
    calls reach: the sealed files hold their records and a footer, the active file
    holds records, and applying the footers and then the records the way
    [open_namespace] does gives the index of the running log ([journal]).  The
    last part fails for a sealed file with deletes or expiry changes in it, since a
    footer lists the keys of its file only; [only_puts] is the condition. *)

From stdpp Require Import base tactics list gmap sorting strings.
From Stdlib Require Import ZArith Lia.
From S2P Require Import Prelude Record Index LogFile ValueStore Recover NsLog NsRepr NsSpec Reclaim NsBatch NsSim.

Open Scope Z_scope.

(** A sealed file: its records and the entries of its footer. *)
Record sfile := mkS { sf_id : Z; sf_recs : list rec; sf_entries : list FooterEntry.t }.

Section Journal.
Context {crc_impl : CrcFast} {blake : Blake3}.

Definition sf_data (s : sfile) : bytes := recs_bytes (sf_recs s) ++ LogFile.footer (sf_entries s).
Definition sf_file (s : sfile) : LogFile.t := LogFile.open (sf_id s) (sf_data s).

Definition sealed_of (hist : list sfile) : gmap Z LogFile.t :=
  list_to_map ((fun s => (sf_id s, sf_file s)) <$> hist).

(** The index that the footers give. *)
Definition base (hist : list sfile) : NsIndex.t :=
  foldl (fun idx s => apply_footer_entries idx (sf_id s) (sf_entries s)) NsIndex.new hist.

(** The recovered index [j] has the entries and the expiries of [i].  It can hold
    more content hashes: a replayed inline record does not clear the hash of the
    separated value it replaces. *)
Record follows (i j : NsIndex.t) : Prop := {
  fo_map : NsIndex.map i = NsIndex.map j;
  fo_ttl : NsIndex.ttl i = NsIndex.ttl j;
  fo_valsep : NsIndex.valsep i ⊆ NsIndex.valsep j;
}.

Lemma follows_lookup i j :
  follows i j <->
  forall k, NsIndex.map i !! k = NsIndex.map j !! k /\ NsIndex.ttl i !! k = NsIndex.ttl j !! k /\
    forall h, NsIndex.valsep i !! k = Some h -> NsIndex.valsep j !! k = Some h.
Proof.
  split.
  - intros [-> -> Hv] k. split_and!; [done..|]. intros h Hh. by eapply lookup_weaken.
  - intros H. split; [apply map_eq; apply H.. |]. apply map_subseteq_spec.
    intros k h. apply H.
Qed.

(** ** One record more *)

Lemma follows_put i j fid off r sep :
  rec_wf r -> is_put r -> put_valsep r = sep -> (forall h, sep = Some h -> length h = 16%nat) ->
  follows i j ->
  follows (NsIndex.set_valsep (NsIndex.insert i (r_key r)
             (IndexEntry_new fid off (zlen (rec_bytes r)) (r_tstamp r)) (rec_ttl r)) (r_key r) sep)
    (apply_rec fid off j r).
Proof.
  intros Hwf Hput <- Hlen [Hm Ht Hv]. rewrite apply_rec_put; [|done..|].
  2: { intros Hs. apply Hlen. unfold put_valsep. by rewrite Hs. }
  destruct (put_valsep r) as [h|]; split; simpl; try (by rewrite ?Hm, ?Ht).
  - by apply insert_mono.
  - etransitivity; [apply delete_subseteq|done].
Qed.

Lemma follows_remove i j fid off r :
  has_flag (r_flags r) flags.TOMBSTONE = true -> follows i j ->
  follows (NsIndex.remove i (r_key r)).2 (apply_rec fid off j r).
Proof.
  intros Hf [Hm Ht Hv]. rewrite apply_rec_tombstone by done.
  split; simpl; [by rewrite Hm | by rewrite Ht | by apply delete_mono].
Qed.

Lemma follows_ttl i j fid off r :
  has_flag (r_flags r) flags.TOMBSTONE = false -> has_flag (r_flags r) flags.TTL_UPDATE = true ->
  is_Some (NsIndex.get i (r_key r)) -> follows i j ->
  follows (NsIndex.set_ttl i (r_key r) (rec_ttl r)) (apply_rec fid off j r).
Proof.
  intros Hf Hu Hs [Hm Ht Hv]. rewrite apply_rec_ttl; [|done..|].
  - split; simpl; [done | by rewrite Ht | done].
  - unfold NsIndex.get in *. by rewrite <- Hm.
Qed.

Lemma apply_recs_snoc fid off idx rs r :
  apply_recs fid off idx (rs ++ [r])
  = apply_rec fid (off + zlen (recs_bytes rs)) (apply_recs fid off idx rs) r.
Proof. by rewrite apply_recs_app. Qed.

(** ** What a file of puts does to a key *)

(** [i] and [j] agree on the key, or [j] has a record of the file [fid] for it. *)
Definition same_or_in (fid : Z) (i j : NsIndex.t) (k : bytes) : Prop :=
  (NsIndex.map j !! k = NsIndex.map i !! k /\ NsIndex.ttl j !! k = NsIndex.ttl i !! k /\
   NsIndex.valsep j !! k = NsIndex.valsep i !! k) \/
  exists e, NsIndex.map j !! k = Some e /\ file_id e = fid.

Lemma same_or_in_rec fid off i r k :
  rec_wf r -> is_put r -> same_or_in fid i (apply_rec fid off i r) k.
Proof.
  intros Hwf [Ht Hu]. unfold apply_rec, apply_record.
  rewrite decide_False by apply key_in_body. rewrite take_key.
  change (rflags (rec_header r)) with (r_flags r). rewrite Ht, Hu.
  rewrite decide_False by (by apply rec_len_u32).
  destruct (decide (k = r_key r)) as [->|Hne].
  - right. exists (IndexEntry_new fid off (record_len (rec_header r)) (tstamp_ms (rec_header r))).
    split; [|reflexivity].
    repeat case_match; simpl; rewrite lookup_insert_eq; reflexivity.
  - left. repeat case_match; simpl; rewrite ?lookup_insert_ne, ?lookup_delete_ne by done; done.
Qed.

Lemma same_or_in_recs fid rs : forall off i k,
  Forall rec_wf rs -> Forall is_put rs -> same_or_in fid i (apply_recs fid off i rs) k.
Proof.
  induction rs as [|r rs IH]; intros off i k Hwf Hput; simpl; [by left|].
  apply Forall_cons in Hwf as [Hr Hwf]. apply Forall_cons in Hput as [Hp Hput].
  destruct (IH (off + zlen (rec_bytes r)) (apply_rec fid off i r) k Hwf Hput)
    as [(Hm & Ht & Hv)|Hin]; [|by right].
  unfold same_or_in. rewrite Hm, Ht, Hv.
  exact (same_or_in_rec fid off i r k Hr Hp).
Qed.

(** ** Applying a footer *)

Lemma apply_footer_miss fid es : forall i k,
  k ∉ FooterEntry.key <$> es ->
  let j := apply_footer_entries i fid es in
  NsIndex.map j !! k = NsIndex.map i !! k /\ NsIndex.ttl j !! k = NsIndex.ttl i !! k /\
  NsIndex.valsep j !! k = NsIndex.valsep i !! k.
Proof.
  induction es as [|e es IH]; intros i k Hk; [done|].
  rewrite fmap_cons, not_elem_of_cons in Hk. destruct Hk as [Hne Hk].
  cbn [apply_footer_entries foldl].
  destruct (IH (NsIndex.set_valsep (NsIndex.insert i (FooterEntry.key e)
    (IndexEntry_new fid (FooterEntry.record_offset e) (FooterEntry.record_size e)
      (FooterEntry.tstamp_ms e)) (FooterEntry.expires_at_ms e)) (FooterEntry.key e)
      (FooterEntry.value_hash e)) k Hk) as (Hm & Ht & Hv).
  unfold apply_footer_entries in *. rewrite Hm, Ht, Hv. simpl.
  rewrite !NsIndex.lookup_set_sidecar, !lookup_insert_ne by done.
  by rewrite !decide_False by done.
Qed.

Lemma apply_footer_hit fid es : forall i e,
  NoDup (FooterEntry.key <$> es) -> e ∈ es ->
  let j := apply_footer_entries i fid es in
  NsIndex.map j !! FooterEntry.key e
    = Some (IndexEntry_new fid (FooterEntry.record_offset e) (FooterEntry.record_size e)
        (FooterEntry.tstamp_ms e)) /\
  NsIndex.ttl j !! FooterEntry.key e = FooterEntry.expires_at_ms e /\
  NsIndex.valsep j !! FooterEntry.key e = FooterEntry.value_hash e.
Proof.
  induction es as [|e0 es IH]; intros i e Hnd He; [by apply not_elem_of_nil in He|].
  rewrite fmap_cons in Hnd. apply NoDup_cons in Hnd as [Hn Hnd].
  apply elem_of_cons in He as [->|He]; [|by apply IH].
  match goal with |- context [apply_footer_entries i fid (e0 :: es)] =>
    change (apply_footer_entries i fid (e0 :: es)) with
      (apply_footer_entries (NsIndex.set_valsep (NsIndex.insert i (FooterEntry.key e0)
        (IndexEntry_new fid (FooterEntry.record_offset e0) (FooterEntry.record_size e0)
          (FooterEntry.tstamp_ms e0)) (FooterEntry.expires_at_ms e0)) (FooterEntry.key e0)
          (FooterEntry.value_hash e0)) fid es) end.
  destruct (apply_footer_miss fid es (NsIndex.set_valsep (NsIndex.insert i (FooterEntry.key e0)
        (IndexEntry_new fid (FooterEntry.record_offset e0) (FooterEntry.record_size e0)
          (FooterEntry.tstamp_ms e0)) (FooterEntry.expires_at_ms e0)) (FooterEntry.key e0)
          (FooterEntry.value_hash e0)) _ Hn) as (Hm & Ht & Hv).
  cbv zeta. rewrite Hm, Ht, Hv. simpl.
  by rewrite lookup_insert_eq, !NsIndex.lookup_set_sidecar, !decide_True by done.
Qed.

(** The keys of an index, each once. *)
Lemma iter_elem idx k e : (k, e) ∈ NsIndex.iter idx <-> NsIndex.map idx !! k = Some e.
Proof. unfold NsIndex.iter. apply btree_iter_elem. Qed.

Lemma footer_for_elem idx fid fe :
  fe ∈ NsLog.footer_for idx fid ->
  NsIndex.map idx !! FooterEntry.key fe
    = Some (IndexEntry_new fid (FooterEntry.record_offset fe) (FooterEntry.record_size fe)
        (FooterEntry.tstamp_ms fe)) /\
  NsIndex.ttl idx !! FooterEntry.key fe = FooterEntry.expires_at_ms fe /\
  NsIndex.valsep idx !! FooterEntry.key fe = FooterEntry.value_hash fe.
Proof.
  unfold NsLog.footer_for. intros ([k e] & -> & [Hf Hin]%list_elem_of_filter)%list_elem_of_fmap.
  apply iter_elem in Hin. simpl in *. split_and!; [|done..].
  rewrite Hin. unfold IndexEntry_new. subst fid. by destruct e.
Qed.

Lemma footer_for_keys idx fid k e :
  NsIndex.map idx !! k = Some e -> file_id e = fid ->
  exists fe, fe ∈ NsLog.footer_for idx fid /\ FooterEntry.key fe = k.
Proof.
  intros Hk Hf. eexists. split.
  - apply list_elem_of_fmap. exists (k, e). split; [reflexivity|].
    apply list_elem_of_filter. split; [done|]. by apply iter_elem.
  - done.
Qed.

Lemma footer_for_nodup idx fid : NoDup (FooterEntry.key <$> NsLog.footer_for idx fid).
Proof.
  unfold NsLog.footer_for. rewrite <- list_fmap_compose.
  apply NoDup_fst_filter, btree_iter_NoDup.
Qed.

(** ** The journal *)

(** The fields of an index that a footer of the file [fid], with records up to
    [top], stores have their machine widths. *)
Definition bounded (fid top : Z) (idx : NsIndex.t) : Prop :=
  forall k e, NsIndex.map idx !! k = Some e ->
    is_u32 (zlen k) /\ is_u32 (record_size e) /\ is_u64 (ie_tstamp_ms e) /\
    file_id e <= fid /\ (file_id e = fid -> 0 <= record_offset e <= top) /\
    (forall ms, NsIndex.ttl idx !! k = Some ms -> is_u64 ms) /\
    (forall h, NsIndex.valsep idx !! k = Some h -> length h = 16%nat).

(** [j] has changed [i] at keys of the file [fid] and removed keys, no other. *)
Definition changed_in (fid : Z) (i j : NsIndex.t) : Prop :=
  forall k e, NsIndex.map j !! k = Some e -> file_id e <> fid ->
    NsIndex.map i !! k = Some e /\ NsIndex.valsep j !! k = NsIndex.valsep i !! k.

(** The hashes of the keys outside the file [fid] are those that the footers give. *)
Definition hashes_of (fid : Z) (hist : list sfile) (idx : NsIndex.t) : Prop :=
  forall k e, NsIndex.map idx !! k = Some e -> file_id e <> fid ->
    NsIndex.valsep idx !! k = NsIndex.valsep (base hist) !! k.

Lemma changed_in_hashes fid hist i j : changed_in fid i j -> hashes_of fid hist i -> hashes_of fid hist j.
Proof. intros Hc Hh k e Hk Hne. destruct (Hc k e Hk Hne) as [Hi ->]. by eapply Hh. Qed.

Lemma changed_in_refl fid i : changed_in fid i i.
Proof. done. Qed.

Lemma changed_in_trans fid i j l : changed_in fid i j -> changed_in fid j l -> changed_in fid i l.
Proof.
  intros Hij Hjl k e Hk Hne. destruct (Hjl k e Hk Hne) as [Hj ->]. by apply Hij.
Qed.

Lemma changed_in_put fid i k e exp sep :
  file_id e = fid -> changed_in fid i (NsIndex.set_valsep (NsIndex.insert i k e exp) k sep).
Proof.
  intros He k' e'. simpl. rewrite lookup_insert, NsIndex.lookup_set_sidecar.
  destruct (decide (k = k')) as [<-|Hne]; [intros [= <-]; done|done].
Qed.

Lemma changed_in_remove fid i k : changed_in fid i (NsIndex.remove i k).2.
Proof. intros k' e'. simpl. rewrite !lookup_delete. by destruct (decide (k = k')). Qed.

Definition all_puts (hist : list sfile) : Prop := Forall (fun s => Forall is_put (sf_recs s)) hist.

Record journal (hist : list sfile) (rs : list rec) (idx : NsIndex.t) (act : LogFile.t)
    (sealed : gmap Z LogFile.t) : Prop := {
  jr_sorted : StronglySorted Z.lt (sf_id <$> hist);
  jr_below : Forall (fun s => 0 <= sf_id s < LogFile.file_id act) hist;
  jr_id : 0 <= LogFile.file_id act;
  jr_sealed : sealed = sealed_of hist;
  jr_srecs : Forall (fun s => Forall rec_wf (sf_recs s)) hist;
  jr_entries : Forall (fun s => is_u64 (zlen (sf_data s)) -> Forall FooterEntry.wf (sf_entries s)) hist;
  jr_recs : Forall rec_wf rs;
  jr_file : LogFile.file_inv act;
  jr_data : LogFile.clean act -> LogFile.data act = recs_bytes rs;
  jr_index : LogFile.clean act -> all_puts hist ->
    follows idx (apply_recs (LogFile.file_id act) 0 (base hist) rs);
  jr_bounds : bounded (LogFile.file_id act) (zlen (LogFile.data act)) idx;
  jr_hashes : LogFile.clean act -> all_puts hist -> hashes_of (LogFile.file_id act) hist idx;
}.

Lemma journal_fresh : journal [] [] NsIndex.new (LogFile.open 0 []) ∅.
Proof.
  split; try done; try (by constructor); try (by right).
Qed.

Lemma bounded_weaken fid top top' idx :
  top <= top' -> bounded fid top idx -> bounded fid top' idx.
Proof.
  intros Ht Hb k e Hk. destruct (Hb k e Hk) as (? & ? & ? & ? & Ho & ? & ?).
  split_and!; try done; intros Hf; specialize (Ho Hf); lia.
Qed.

(** A failed append: only the file changes. *)
Lemma journal_failed hist rs idx idx' act act' sealed :
  journal hist rs idx act sealed -> bounded (LogFile.file_id act) (zlen (LogFile.data act)) idx' ->
  LogFile.file_id act' = LogFile.file_id act -> LogFile.poisoned act' = true ->
  zlen (LogFile.data act) <= zlen (LogFile.data act') ->
  journal hist rs idx' act' sealed.
Proof.
  intros [] Hb Hid Hp Hlen. split; rewrite ?Hid; try done.
  - by left.
  - intros [_ Hc]. congruence.
  - intros [_ Hc]. congruence.
  - by eapply bounded_weaken.
  - intros [_ Hc]. congruence.
Qed.

(** A successful append of the records [rs'], with the index change they stand for. *)
Lemma journal_append hist rs rs' idx idx' act act' sealed :
  journal hist rs idx act sealed -> LogFile.clean act -> Forall rec_wf rs' ->
  act' = LogFile.open (LogFile.file_id act) (LogFile.data act ++ recs_bytes rs') ->
  (forall j, follows idx j ->
     follows idx' (apply_recs (LogFile.file_id act) (zlen (recs_bytes rs)) j rs')) ->
  bounded (LogFile.file_id act) (zlen (LogFile.data act')) idx' -> changed_in (LogFile.file_id act) idx idx' ->
  journal hist (rs ++ rs') idx' act' sealed.
Proof.
  intros [] Hc Hwf -> Hfo Hb Hch. split; simpl; try done.
  - by apply Forall_app.
  - by right.
  - intros _. by rewrite recs_bytes_app, jr_data0.
  - intros _ Hall. rewrite apply_recs_app, Z.add_0_l. by apply Hfo, jr_index0.
  - intros _ Hall. eapply changed_in_hashes; [exact Hch|by apply jr_hashes0].
Qed.

Lemma bounded_put fid top top' idx k e exp sep :
  bounded fid top idx -> top <= top' ->
  is_u32 (zlen k) -> is_u32 (record_size e) -> is_u64 (ie_tstamp_ms e) ->
  file_id e = fid -> 0 <= record_offset e <= top' -> exp_u64 exp -> (forall h, sep = Some h -> length h = 16%nat) ->
  bounded fid top' (NsIndex.set_valsep (NsIndex.insert idx k e exp) k sep).
Proof.
  intros Hb Htop Hk Hs Ht Hid Ho Hexp Hsep k' e'. simpl. rewrite lookup_insert.
  rewrite !NsIndex.lookup_set_sidecar. destruct (decide (k = k')) as [<-|Hne].
  - intros [= <-]. split_and!; try done. lia.
  - apply (bounded_weaken _ _ _ _ Htop Hb).
Qed.

Lemma bounded_remove fid top idx k :
  bounded fid top idx -> bounded fid top (NsIndex.remove idx k).2.
Proof.
  intros Hb k' e'. simpl. rewrite !lookup_delete. destruct (decide (k = k')); [done|]. apply Hb.
Qed.

Lemma bounded_ttl fid top top' idx k exp :
  bounded fid top idx -> top <= top' -> exp_u64 exp -> bounded fid top' (NsIndex.set_ttl idx k exp).
Proof.
  intros Hb Htop Hexp k' e'. simpl. intros Hk.
  destruct (bounded_weaken _ _ _ _ Htop Hb k' e' Hk) as (? & ? & ? & ? & ? & ? & ?).
  split_and!; try done. rewrite NsIndex.lookup_set_sidecar. case_decide; [apply Hexp|done].
Qed.

(** ** Sealing *)

(** Applying the footer of a file of puts has the effect of its records. *)
Lemma follows_seal hist fid rs idx :
  Forall rec_wf rs -> Forall is_put rs ->
  follows idx (apply_recs fid 0 (base hist) rs) ->
  follows idx (apply_footer_entries (base hist) fid (NsLog.footer_for idx fid)).
Proof.
  intros Hwf Hput Hf. apply follows_lookup. intros k.
  destruct (proj1 (follows_lookup _ _) Hf k) as (Hm & Ht & Hv).
  destruct (decide (k ∈ FooterEntry.key <$> NsLog.footer_for idx fid)) as [Hin|Hout].
  - apply list_elem_of_fmap in Hin as (fe & -> & Hfe).
    destruct (apply_footer_hit fid _ (base hist) fe (footer_for_nodup idx fid) Hfe)
      as (Hm' & Ht' & Hv').
    destruct (footer_for_elem _ _ _ Hfe) as (Hm2 & Ht2 & Hv2).
    rewrite Hm', Ht', Hv', Hm2, Ht2, Hv2. done.
  - destruct (apply_footer_miss fid _ (base hist) k Hout) as (Hm' & Ht' & Hv').
    rewrite Hm', Ht', Hv'.
    destruct (same_or_in_recs fid rs 0 (base hist) k Hwf Hput)
      as [(Hm2 & Ht2 & Hv2)|(e & He & Hid)].
    + rewrite <- Hm2, <- Ht2, <- Hv2. done.
    + destruct Hout. rewrite <- Hm in He.
      destruct (footer_for_keys _ _ _ _ He Hid) as (fe & Hfe & <-).
      by apply list_elem_of_fmap_2.
Qed.

(** A footer gives the hashes of the keys of its file. *)
Lemma hashes_seal hist fid idx k e :
  hashes_of fid hist idx -> NsIndex.map idx !! k = Some e ->
  NsIndex.valsep idx !! k = NsIndex.valsep (apply_footer_entries (base hist) fid (NsLog.footer_for idx fid)) !! k.
Proof.
  intros Hh Hk. destruct (decide (k ∈ FooterEntry.key <$> NsLog.footer_for idx fid)) as [Hin|Hout].
  - apply list_elem_of_fmap in Hin as (fe & -> & Hfe).
    destruct (apply_footer_hit fid _ (base hist) fe (footer_for_nodup idx fid) Hfe) as (_ & _ & ->).
    by destruct (footer_for_elem _ _ _ Hfe) as (_ & _ & ->).
  - destruct (apply_footer_miss fid _ (base hist) k Hout) as (_ & _ & ->). eapply Hh; [done|].
    intros Hid. destruct (footer_for_keys _ _ _ _ Hk Hid) as (fe & Hfe & <-). by apply Hout, list_elem_of_fmap_2.
Qed.

Lemma base_snoc hist s :
  base (hist ++ [s]) = apply_footer_entries (base hist) (sf_id s) (sf_entries s).
Proof. unfold base. by rewrite foldl_app. Qed.

Lemma footer_for_wf fid top idx :
  bounded fid top idx -> top <= u64_max -> Forall FooterEntry.wf (NsLog.footer_for idx fid).
Proof.
  intros Hb Htop. apply Forall_forall. intros fe Hfe.
  destruct (footer_for_elem _ _ _ Hfe) as (Hm & Ht & Hv).
  destruct (Hb _ _ Hm) as (Hk & Hs & Hts & _ & Ho & He & Hh). simpl in *.
  specialize (Ho eq_refl). rewrite Ht in He. rewrite Hv in Hh.
  split; try done. zlia.
Qed.

(** The active file is sealed with its footer and a file with a higher id takes
    its place. *)
Lemma journal_rotate hist rs idx act sealed id' :
  journal hist rs idx act sealed -> LogFile.clean act -> LogFile.file_id act < id' ->
  let s := mkS (LogFile.file_id act) rs (NsLog.footer_for idx (LogFile.file_id act)) in
  journal (hist ++ [s]) [] idx (LogFile.open id' [])
    (<[LogFile.file_id act := sf_file s]> sealed).
Proof.
  intros [] Hc Hid s. set (fid := LogFile.file_id act) in *. split; simpl; try done.
  - rewrite fmap_app. apply StronglySorted_app_2; [|done|repeat constructor].
    intros x y (s' & -> & Hs')%list_elem_of_fmap ->%list_elem_of_singleton.
    rewrite Forall_forall in jr_below0. by apply jr_below0.
  - apply Forall_app. split; [|by repeat constructor].
    eapply Forall_impl; [exact jr_below0|]. simpl. lia.
  - lia.
  - subst sealed. unfold sealed_of. rewrite fmap_app. symmetry. apply list_to_map_snoc.
    rewrite <- list_fmap_compose. unfold compose. simpl.
    intros (s' & Heq & Hs')%list_elem_of_fmap. rewrite Forall_forall in jr_below0.
    destruct (jr_below0 s' Hs'). lia.
  - apply Forall_app. split; [done|]. by constructor.
  - apply Forall_app. split; [done|]. constructor; [|done]. intros Hu. simpl.
    eapply footer_for_wf; [exact jr_bounds0|]. unfold sf_data in Hu. simpl in Hu.
    rewrite zlen_app, <- jr_data0 in Hu by done. zlia.
  - by right.
  - intros _ Hall. rewrite base_snoc. simpl. apply Forall_app in Hall as [Hall Hs].
    apply Forall_cons in Hs as [Hs _]. eapply follows_seal; [done|exact Hs|].
    by apply jr_index0.
  - intros k e Hk. destruct (jr_bounds0 k e Hk) as (? & ? & ? & ? & _ & ? & ?).
    split_and!; try done; lia.
  - intros _ Hall. apply Forall_app in Hall as [Hall _]. intros k e Hk _. rewrite base_snoc.
    eapply hashes_seal; [by apply jr_hashes0|exact Hk].
Qed.

(** ** The records in order *)

Definition all_recs (hist : list sfile) (rs : list rec) : list rec := concat (sf_recs <$> hist) ++ rs.

(** The index that the records of the sealed files give. *)
Definition replayed (hist : list sfile) : NsIndex.t :=
  foldl (fun idx s => apply_recs (sf_id s) 0 idx (sf_recs s)) NsIndex.new hist.

(** A record is a put, a delete or an expiry change, and not two of them. *)
Definition one_kind (r : rec) : Prop :=
  has_flag (r_flags r) flags.TOMBSTONE = true -> has_flag (r_flags r) flags.TTL_UPDATE = false.

(** The records of all files in the order of the files: they are [past] and then
    records newer than [since], their revisions increase up to [last], and the index
    is what they say, deletes and expiry changes included. *)
Record chronicle (past : list rec) (since last : Z) (hist : list sfile) (rs : list rec)
    (idx : NsIndex.t) (act : LogFile.t) : Prop := {
  ch_past : exists new, all_recs hist rs = past ++ new /\ Forall (fun r => since < r_tstamp r) new;
  ch_since : since <= last;
  ch_sorted : StronglySorted Z.lt (r_tstamp <$> all_recs hist rs);
  ch_last : Forall (fun r => r_tstamp r <= last) (all_recs hist rs);
  ch_kind : Forall one_kind (all_recs hist rs);
  ch_index : LogFile.clean act -> follows idx (apply_recs (LogFile.file_id act) 0 (replayed hist) rs);
}.

Lemma chronicle_fresh since last : since <= last -> chronicle [] since last [] [] NsIndex.new (LogFile.open 0 []).
Proof. intros Hl. split; try done; [by exists []|constructor..]. Qed.

Lemma chronicle_later past since last last' hist rs idx act :
  last <= last' -> chronicle past since last hist rs idx act -> chronicle past since last' hist rs idx act.
Proof. intros Hl []. split; try done; [lia|]. eapply Forall_impl; [exact ch_last0|]. simpl. lia. Qed.

Lemma chronicle_failed past since last last' hist rs idx idx' act act' :
  chronicle past since last hist rs idx act -> last <= last' -> LogFile.poisoned act' = true ->
  chronicle past since last' hist rs idx' act'.
Proof.
  intros Hc Hl Hp. apply (chronicle_later _ _ _ _ _ _ _ _ Hl) in Hc as []. split; try done.
  intros [_ Hcl]. congruence.
Qed.

(** Revisions of records that are appended. *)
Definition newer (last : Z) (rs : list rec) (last' : Z) : Prop :=
  StronglySorted Z.lt (r_tstamp <$> rs) /\
  Forall (fun r => last < r_tstamp r <= last' /\ one_kind r) rs.

Lemma newer_one last r last' : last < r_tstamp r <= last' -> one_kind r -> newer last [r] last'.
Proof. intros Hr Hk. split; repeat constructor; (done || by destruct Hr). Qed.

Lemma chronicle_append past since last last' hist rs rs' idx idx' act act' :
  chronicle past since last hist rs idx act -> LogFile.clean act ->
  LogFile.file_id act' = LogFile.file_id act -> newer last rs' last' -> last <= last' ->
  (forall j, follows idx j ->
     follows idx' (apply_recs (LogFile.file_id act) (zlen (recs_bytes rs)) j rs')) ->
  chronicle past since last' hist (rs ++ rs') idx' act'.
Proof.
  intros [(new & Hp & Hnew) Hsi Hs Hl Hk Hi] Hc Hid [Hs' Hn] Hle Hf.
  assert (all_recs hist (rs ++ rs') = all_recs hist rs ++ rs') as Ha by apply app_assoc.
  split; rewrite ?Ha, ?Hid.
  - exists (new ++ rs'). split; [by rewrite app_assoc, <- Hp|]. apply Forall_app. split; [done|].
    eapply Forall_impl; [exact Hn|]. simpl. lia.
  - lia.
  - rewrite fmap_app. apply StronglySorted_app_2; [|done..].
    intros x y (r & -> & Hr)%list_elem_of_fmap (r' & -> & Hr')%list_elem_of_fmap.
    rewrite Forall_forall in Hl, Hn. specialize (Hl r Hr). destruct (Hn r' Hr'). lia.
  - apply Forall_app. split; (eapply Forall_impl; [first [exact Hl|exact Hn]|]); simpl; lia.
  - apply Forall_app. split; [done|]. eapply Forall_impl; [exact Hn|]. by intros r [_ ?].
  - intros _. rewrite apply_recs_app, Z.add_0_l. by apply Hf, Hi.
Qed.

Lemma chronicle_rotate past since last hist rs idx act s id' :
  chronicle past since last hist rs idx act -> LogFile.clean act ->
  sf_id s = LogFile.file_id act -> sf_recs s = rs ->
  chronicle past since last (hist ++ [s]) [] idx (LogFile.open id' []).
Proof.
  intros [Hp Hsi Hs Hl Hk Hi] Hc Hid Hrs.
  assert (all_recs (hist ++ [s]) [] = all_recs hist rs) as Ha.
  { unfold all_recs. rewrite fmap_app, concat_app. csimpl. by rewrite !app_nil_r, Hrs. }
  split; rewrite ?Ha; try done. intros _. unfold replayed. rewrite foldl_app. cbn [foldl apply_recs].
  rewrite Hid, Hrs. by apply Hi.
Qed.

(** ** Every call keeps the journal *)

Context (past : list rec) (since : Z).

(** File ids are 32 bits wide; a namespace that has used them all can no longer
    rotate, and nothing is claimed of it. *)
Definition journaled (ns : NsLog.t) : Prop :=
  LogFile.file_id (NsLog.active ns) < u32_max ->
  exists hist rs, journal hist rs (NsLog.index ns) (NsLog.active ns) (NsLog.sealed ns) /\
    chronicle past since (NsLog.last_tstamp ns) hist rs (NsLog.index ns) (NsLog.active ns).

Lemma journaled_same ns ns' :
  journaled ns -> NsLog.index ns' = NsLog.index ns -> NsLog.active ns' = NsLog.active ns ->
  NsLog.sealed ns' = NsLog.sealed ns -> NsLog.last_tstamp ns <= NsLog.last_tstamp ns' -> journaled ns'.
Proof.
  unfold journaled. intros HJ -> -> -> Hl Hid. destruct (HJ Hid) as (hist & rs & Hj & Hc).
  exists hist, rs. split; [done|]. by eapply chronicle_later.
Qed.

Lemma append_active_cases buf rb io ns r ns' :
  LogFile.file_inv (NsLog.active ns) -> NsLog.append_active buf rb io ns = (r, ns') ->
  (LogFile.clean (NsLog.active ns) /\ r = Ok (zlen (LogFile.data (NsLog.active ns))) /\
   ns' = NsLog.set_active (LogFile.open (LogFile.file_id (NsLog.active ns))
           (LogFile.data (NsLog.active ns) ++ buf)) ns) \/
  (exists e v a, r = Err e /\ ns' = NsLog.set_values v (NsLog.set_active a ns) /\
   LogFile.failed (NsLog.active ns) a).
Proof.
  intros Hi. unfold NsLog.append_active. destruct (LogFile.append _ _ _) as [r1 a] eqn:Ha.
  apply LogFile.append_cases in Ha as [(Hc & -> & ->)|([e ->] & Hf)]; [| |done];
    intros [= <- <-]; [by left|right]. by exists e, (foldl ValueStore.unref (NsLog.values ns) rb), a.
Qed.

(** A failed append, with an index that is still in range. *)
Lemma journaled_failed ns ns' a :
  journaled ns -> LogFile.failed (NsLog.active ns) a ->
  NsLog.active ns' = a -> NsLog.sealed ns' = NsLog.sealed ns ->
  NsLog.last_tstamp ns <= NsLog.last_tstamp ns' ->
  (forall fid top, bounded fid top (NsLog.index ns) -> bounded fid top (NsLog.index ns')) ->
  journaled ns'.
Proof.
  intros HJ (Hp & Hid & x & Hx) Ha Hs Hl Hb Hlt. rewrite Ha, Hid in Hlt.
  destruct (HJ Hlt) as (hist & rs & Hj & Hch). exists hist, rs. rewrite Ha, Hs.
  split; [|by eapply chronicle_failed]. eapply journal_failed; [done| |done|done|].
  - apply Hb. by destruct Hj.
  - rewrite Hx, zlen_app. zlia.
Qed.

Lemma max_or_0_lub ids top : 0 <= top -> (forall i, i ∈ ids -> i <= top) -> NsLog.max_or_0 ids <= top.
Proof.
  intros Ht. induction ids as [|i ids IH]; simpl; intros Hi; [done|].
  apply Z.max_lub; [apply Hi; by left|]. apply IH. intros j Hj. apply Hi. by right.
Qed.

Lemma journal_ids hist rs idx act sealed :
  journal hist rs idx act sealed ->
  NsLog.max_or_0 (map_to_list sealed).*1 <= LogFile.file_id act.
Proof.
  intros []. apply max_or_0_lub; [done|]. subst sealed.
  intros i ([i' f] & -> & Hin%elem_of_map_to_list)%list_elem_of_fmap.
  apply elem_of_list_to_map_2, list_elem_of_fmap in Hin as (s & [= -> ->] & Hs).
  rewrite Forall_forall in jr_below0. specialize (jr_below0 s Hs). simpl. lia.
Qed.

Lemma replaces_inv io : replaces io = true -> f_footer_sync io = None /\ f_open io = None.
Proof. unfold replaces. by destruct (f_footer_sync io), (f_open io). Qed.

Lemma rotate_journaled io ns r ns' :
  replaces io = true -> LogFile.file_inv (NsLog.active ns) -> journaled ns ->
  NsLog.rotate_active io ns = (r, ns') -> journaled ns'.
Proof.
  intros [Hfs Hfo]%replaces_inv Hfi HJ. unfold NsLog.rotate_active. destruct (NsLog.rotate_in_progress ns);
    [by intros [= <- <-]|].
  destruct (NsLog.rotate_active_inner _ _) as [r1 ns1] eqn:H. intros [= <- <-].
  eapply (journaled_same ns1); try done. unfold NsLog.rotate_active_inner in H.
  st_step H u ns2 Hwf; unfold NsLog.write_active_footer in Hwf; cbn in Hwf; rewrite Hfs in Hwf;
    destruct (LogFile.write_footer _ _ _ _ _) as [rf a] eqn:Hf;
    apply LogFile.write_footer_cases in Hf as [(Hc & -> & ->)|([e ->] & Hfail)]; try done;
    injection Hwf as <- <-; [|by eapply (journaled_failed ns); try done].
  unfold NsLog.swap_active in H.
  st_step H self ns3 Hg; unfold st_get in Hg; [|discriminate Hg]. injection Hg as <- <-.
  st_step H id' ns3 Hid; unfold st_lift in Hid; injection Hid as Hid Heq; try subst ns3;
    unfold NsLog.next_file_id in Hid; simpl in Hid; case_decide as Hroom; try discriminate Hid.
  - unfold st_modify, st_lift, mbind, st_mbind, st_bind in H. rewrite Hfo in H. cbn [io_step] in H.
    injection H as <- <-. injection Hid as <-. intros Hlt. simpl in *.
    destruct HJ as (hist & rs & Hj & Hch); [lia|]. do 2 eexists.
    rewrite (jr_data _ _ _ _ _ Hj Hc). split; [eapply journal_rotate; [done..|lia]|].
    by eapply chronicle_rotate.
  - rewrite <- Heq. intros Hlt. simpl in Hlt. destruct (HJ Hlt) as (hist & rs & Hj & _).
    pose proof (journal_ids _ _ _ _ _ Hj). lia.
Qed.

Lemma maybe_rotate_journaled io ns r ns' :
  replaces io = true -> LogFile.file_inv (NsLog.active ns) -> journaled ns ->
  NsLog.maybe_rotate io ns = (r, ns') -> journaled ns'.
Proof.
  intros Hio Hfi HJ. unfold NsLog.maybe_rotate. case_decide; [by apply rotate_journaled|].
  by intros [= <- <-].
Qed.

Lemma is_u32_rec r : rec_wf r -> is_u32 (zlen (rec_bytes r)) /\ is_u32 (zlen (r_key r)).
Proof.
  intros [_ _ Hf]. rewrite rec_bytes_length. unfold fits in Hf. unfold rec_body, HEADER_LEN in *.
  rewrite !zlen_app. zlia.
Qed.

Lemma value_ok_valsep blobs sep r v :
  value_ok blobs sep r v -> put_valsep r = sep /\ forall h, sep = Some h -> length h = 16%nat.
Proof.
  unfold value_ok, put_valsep. destruct (has_flag _ _).
  - intros (-> & Hl & _). split; [done|]. by intros h [= <-].
  - intros [-> _]. done.
Qed.

(** A put in the journal: the record is at the end of the active file, its entry
    in the index. *)
Lemma journaled_put ns ns' r sep :
  journaled ns -> LogFile.clean (NsLog.active ns) -> rec_wf r -> is_put r ->
  put_valsep r = sep -> (forall h, sep = Some h -> length h = 16%nat) -> exp_u64 (rec_ttl r) ->
  let fid := LogFile.file_id (NsLog.active ns) in
  let off := zlen (LogFile.data (NsLog.active ns)) in
  NsLog.active ns' = LogFile.open fid (LogFile.data (NsLog.active ns) ++ rec_bytes r) ->
  NsLog.sealed ns' = NsLog.sealed ns ->
  NsLog.index ns' = NsIndex.set_valsep (NsIndex.insert (NsLog.index ns) (r_key r)
    (IndexEntry_new fid off (zlen (rec_bytes r)) (r_tstamp r)) (rec_ttl r)) (r_key r) sep ->
  NsLog.last_tstamp ns < r_tstamp r <= NsLog.last_tstamp ns' ->
  journaled ns'.
Proof.
  intros HJ Hc Hwf Hput Hsep Hlen Hexp fid off Ha Hs Hi Hts Hlt. rewrite Ha in Hlt. simpl in Hlt.
  destruct (HJ Hlt) as (hist & rs & Hj & Hch). exists hist, (rs ++ [r]). rewrite Ha, Hs, Hi.
  pose proof (is_u32_rec r Hwf) as [Hu1 Hu2].
  eassert (forall j, follows (NsLog.index ns) j -> follows _ (apply_recs fid (zlen (recs_bytes rs)) j [r])) as Hfo.
  { intros j Hf. simpl. rewrite <- (jr_data _ _ _ _ _ Hj Hc). by apply follows_put. }
  split; [|eapply chronicle_append; [exact Hch|done|done|apply newer_one; [done|by intros _; apply Hput]|lia|exact Hfo]].
  eapply journal_append; [exact Hj|done|by constructor| |exact Hfo| |by apply changed_in_put].
  - unfold recs_bytes. simpl. by rewrite app_nil_r.
  - simpl. eapply bounded_put; [by destruct Hj|..]; try done; try (by destruct Hwf);
      subst off; rewrite ?zlen_app; simpl; zlia.
Qed.

Lemma put_record_journaled key value meta exp clock io x m ns r ns' :
  replaces io = true -> repr_x x m ns -> write_ok ns key value meta exp clock -> journaled ns ->
  NsLog.put_record key value meta exp clock io ns = (r, ns') -> journaled ns'.
Proof.
  intros Hio Hr Hwo HJ H. pose proof Hwo as [Hck Hlast Hexpu _ Hcl]. unfold NsLog.put_record in H.
  st_step H ts ns1 Hts; apply next_tstamp_spec in Hts as (ts' & Heq & Hlt & -> & Hu64);
    [|discriminate Heq]. injection Heq as <-.
  specialize (Hu64 Hck (proj2 Hlast) (proj1 Hlast)).
  apply (repr_tstamp _ _ _ ts) in Hr; [|lia].
  destruct (NsLog.expiry_fields 0 exp) as [fl ef] eqn:Hef.
  assert (Hcoll : collision_free (NsLog.set_last_tstamp ts ns) value) by done.
  st_step H p ns2 Hsep;
    pose proof (maybe_separate_spec _ _ _ _ _ _ _ _ Hr Hcoll Hsep) as ([v ->] & _ & Hspec);
    [|eapply (journaled_same ns); try done; simpl; lia].
  destruct p as [sep fl']. destruct Hspec as (_ & Hr2 & Hsepc). simpl in Hsepc.
  destruct (write_rec ns key value meta exp clock ts fl ef Hwo Hu64 Hef sep fl'
    (ValueStore.blobs v) Hsepc) as (Hwf & Hval & Hput & Hexp).
  set (rc := mkRec ts fl' ef key (default value sep) meta) in *.
  assert (Henc0 : encode_into [] ts fl' ef key (default value sep) meta = Ok (rec_bytes rc))
    by exact (encode_into_rec rc Hwf).
  st_step H buf ns3 Henc; unfold st_lift in Henc; rewrite Henc0 in Henc;
    [|discriminate Henc]. injection Henc as <- <-.
  st_step H self ns3 Hget; unfold st_get in Hget; [|discriminate Hget].
  injection Hget as <- <-.
  st_step H off ns4 Happ;
    apply append_active_cases in Happ
      as [(Hc & Heq & Hns)|(e & v' & a & Heq & Hns & Hfail)];
    try discriminate Heq; try apply (rp_files _ _ _ Hr2); cycle 1.
  { rewrite Hns. eapply (journaled_failed ns); try done. simpl. lia. }
  injection Heq as ->. subst ns4.
  st_step H u ns5 Hun; unfold NsLog.add_unsynced, st_modify in Hun; [|discriminate Hun].
  injection Hun as _ <-. rewrite rec_bytes_mod in H by done.
  st_step H old ns6 Hm; unfold NsLog.apply_valsep_insert in Hm; [|discriminate Hm].
  injection Hm as <- <-.
  st_step H u1 ns7 Hm; apply unref_opt_spec in Hm as [Hm ->]; [clear Hm|discriminate Hm].
  match type of H with (_ ?n = _) => assert (journaled n) as HJ2 end.
  { destruct (value_ok_valsep _ _ _ _ Hval) as [Hs1 Hs2].
    eapply (journaled_put ns _ rc sep); try done; [by rewrite Hexp|..];
      destruct (NsIndex.get_valsep _ _); simpl; rewrite ?Hexp; (done || lia). }
  st_step H u2 ns8 Hrot; [injection H as <- <-|];
    (eapply maybe_rotate_journaled; [exact Hio| |exact HJ2|exact Hrot]);
    right; destruct (NsIndex.get_valsep _ _); apply LogFile.clean_open.
Qed.

(** The commit loop of a batch. *)
Lemma commit_pairs_journal fid off blobs lo pairs rs shs :
  items_ok blobs lo pairs rs shs -> forall start top i j olds i' olds',
  0 <= start -> 0 <= off -> off + start + zlen (recs_bytes rs) <= top ->
  bounded fid top i ->
  NsLog.commit_pairs fid off pairs (layout_of start rs) shs i olds = (i', olds') ->
  (follows i j -> follows i' (apply_recs fid (off + start) j rs)) /\ bounded fid top i' /\ changed_in fid i i'.
Proof.
  induction 1 as [|lo [k v] ps r rs sh shs [Hwf Hk _ _ Hval [Hput Httl]] Hits IH];
    intros start top i j olds i' olds' Hst Hoff Htop Hb H; cbn [NsLog.commit_pairs layout_of] in H.
  - injection H as <- <-. done.
  - simpl in Hk. destruct (value_ok_valsep _ _ _ _ Hval) as [Hs1 Hs2].
    destruct (is_u32_rec r Hwf) as [Hu1 Hu2]. rewrite recs_bytes_cons, zlen_app in Htop.
    pose proof (rec_bytes_pos r).
    eapply (IH (start + zlen (rec_bytes r)) top _ (apply_rec fid (off + start) j r)) in H
      as (Hf & Hb' & Hch); [|lia|lia|lia|].
    + split; [|split; [done|]; eapply changed_in_trans; [|exact Hch]; by apply changed_in_put]. intros Hfo. cbn [apply_recs]. rewrite Z.add_assoc in Hf. apply Hf.
      subst k. rewrite <- Httl. by apply follows_put.
    + subst k. eapply bounded_put; try done; simpl; try (by destruct Hwf); zlia.
Qed.

Lemma items_wf blobs lo ps rs shs : items_ok blobs lo ps rs shs -> Forall rec_wf rs.
Proof. induction 1 as [|lo p ps r rs sh shs [] ? IH]; by constructor. Qed.

Lemma items_newer blobs lo ps rs shs last :
  items_ok blobs lo ps rs shs -> Forall (fun r => r_tstamp r <= last) rs -> newer lo rs last.
Proof.
  intros Hits Hl. destruct (items_length _ _ _ _ _ Hits) as (_ & Hlo & Hs). split; [done|].
  assert (Forall is_put rs) as Hput.
  { clear -Hits. induction Hits as [|lo p ps r rs sh shs Hit _ IH]; [done|].
    constructor; [apply (io_put _ _ _ _ _ Hit)|done]. }
  rewrite Forall_fmap in Hlo. apply Forall_forall. intros r Hr. rewrite Forall_forall in Hlo, Hl, Hput.
  specialize (Hlo r Hr). specialize (Hl r Hr). simpl in Hlo. split; [lia|intros _; by apply Hput].
Qed.

Lemma put_many_journaled pairs clock bfs io C x m ns r ns' :
  replaces io = true -> repr_x x m ns -> pairs_ok ns pairs ->
  clock_ok C (length pairs) (NsLog.last_tstamp ns) clock -> journaled ns ->
  NsLog.put_many pairs clock bfs io ns = (r, ns') -> journaled ns'.
Proof.
  intros Hio Hr Hpo Hco HJ H. apply guard_inv in H as [(_ & _ & ->)|(_ & ns1 & Hb & ->)]; [done|].
  eapply (journaled_same ns1); try done.
  apply (repr_in_flight _ _ _ (NsLog.in_flight_writes ns + 1)) in Hr.
  set (ns0 := NsLog.set_in_flight (NsLog.in_flight_writes ns + 1) ns) in *.
  assert (Hpo0 : pairs_ok ns0 pairs) by (by destruct Hpo).
  assert (Hl0 : NsLog.last_tstamp ns0 = NsLog.last_tstamp ns) by done.
  assert (HJ0 : journaled ns0) by done. rewrite <- Hl0 in Hco. clearbody ns0. clear Hl0 Hpo HJ ns.
  destruct (decide (pairs = [])); [by injection Hb as <- <-|].
  st_step Hb p ns2 Henc;
    eapply encode_pairs_spec in Henc as ((v & ts & ->) & Hle & _ & Hres); try done;
    [|by apply (journaled_same ns0)].
  destruct p as [[buf layout] hashes].
  destruct Hres as (rs & shs & -> & -> & -> & Hits & Hts & Hr2). cbn [app] in Hb.
  change (zlen []) with 0 in Hb.
  st_step Hb self ns3 Hg; unfold st_get in Hg; [|discriminate Hg]. injection Hg as <- <-.
  st_step Hb off ns4 Happ;
    apply append_active_cases in Happ
      as [(Hc & Heq & Hns)|(e & v' & a & Heq & Hns & Hfail)];
    try discriminate Heq; try apply (rp_files _ _ _ Hr2); cycle 1.
  { rewrite Hns. by eapply (journaled_failed ns0). }
  injection Heq as ->. subst ns4. simpl in Hc, Hts.
  st_step Hb u ns5 Hun; unfold NsLog.add_unsynced, st_modify in Hun; [|discriminate Hun].
  injection Hun as _ <-.
  st_step Hb self ns6 Hg; unfold st_get in Hg; [|discriminate Hg]. injection Hg as <- <-.
  cbn in Hb. destruct (NsLog.commit_pairs _ _ _ _ _ _ _) as [idx olds] eqn:Hcom.
  st_step Hb u1 ns6 Hm; unfold st_modify in Hm; [|discriminate Hm]. injection Hm as _ <-.
  st_step Hb u2 ns6 Hm; unfold st_modify in Hm; [|discriminate Hm]. injection Hm as _ <-.
  match type of Hb with (_ ?n = _) => assert (journaled n) as HJ2 end.
  { intros Hlt. simpl in *. destruct (HJ0 Hlt) as (hist & rs0 & Hj & Hch). exists hist, (rs0 ++ rs).
    pose proof (jr_bounds _ _ _ _ _ Hj) as Hbd.
    set (d := LogFile.data (NsLog.active ns0)) in *.
    apply (bounded_weaken _ _ (zlen (d ++ recs_bytes rs))) in Hbd; [|rewrite zlen_app; zlia].
    pose proof (fun j => commit_pairs_journal _ (zlen d) _ _ _ _ _ Hits 0 (zlen (d ++ recs_bytes rs)) _ j
      _ _ _ ltac:(lia) ltac:(zlia) ltac:(rewrite zlen_app; lia) Hbd Hcom) as Hcj.
    assert (forall j, follows (NsLog.index ns0) j -> follows idx
      (apply_recs (LogFile.file_id (NsLog.active ns0)) (zlen (recs_bytes rs0)) j rs)) as Hfo.
    { intros j Hf. rewrite <- (jr_data _ _ _ _ _ Hj Hc). fold d.
      rewrite <- (Z.add_0_r (zlen d)). by apply Hcj. }
    split; [eapply journal_append; [exact Hj|done|by eapply items_wf|done|exact Hfo|apply (Hcj NsIndex.new)..]|].
    eapply chronicle_append; [exact Hch|done|done| |exact Hle|exact Hfo].
    by eapply items_newer. }
  st_step Hb u3 ns6 Hrot; [injection Hb as <- <-|];
    (eapply maybe_rotate_journaled; [exact Hio| |exact HJ2|exact Hrot]); right; apply LogFile.clean_open.
Qed.

(** A record that changes the index of the active file's journal. *)
Lemma journaled_rec ns ns' r :
  journaled ns -> LogFile.clean (NsLog.active ns) -> rec_wf r ->
  NsLog.active ns' = LogFile.open (LogFile.file_id (NsLog.active ns))
    (LogFile.data (NsLog.active ns) ++ rec_bytes r) ->
  NsLog.sealed ns' = NsLog.sealed ns ->
  (forall fid off j, follows (NsLog.index ns) j -> follows (NsLog.index ns') (apply_rec fid off j r)) ->
  (forall fid top top', top <= top' ->
     bounded fid top (NsLog.index ns) -> bounded fid top' (NsLog.index ns')) ->
  (forall fid, changed_in fid (NsLog.index ns) (NsLog.index ns')) ->
  NsLog.last_tstamp ns < r_tstamp r <= NsLog.last_tstamp ns' -> one_kind r ->
  journaled ns'.
Proof.
  intros HJ Hc Hwf Ha Hs Hf Hb Hch' Hts Hk Hlt. rewrite Ha in Hlt. destruct (HJ Hlt) as (hist & rs & Hj & Hch).
  exists hist, (rs ++ [r]). rewrite Ha, Hs.
  split; [|eapply chronicle_append; [done..|by apply newer_one|lia|]; intros j Hfo; by apply Hf].
  eapply journal_append; [exact Hj|done|by constructor| | | |by apply Hch'].
  - unfold recs_bytes. simpl. by rewrite app_nil_r.
  - intros j Hfo. simpl. by apply Hf.
  - eapply Hb; [|by destruct Hj]. simpl. rewrite zlen_app. zlia.
Qed.

Lemma append_tombstone_journaled key old clock io ns0 ns r ns' :
  journaled ns0 -> NsLog.active ns = NsLog.active ns0 -> NsLog.sealed ns = NsLog.sealed ns0 ->
  NsLog.index ns = (NsIndex.remove (NsLog.index ns0) key).2 ->
  NsLog.last_tstamp ns = NsLog.last_tstamp ns0 ->
  LogFile.file_inv (NsLog.active ns0) -> is_u64 clock -> 0 <= NsLog.last_tstamp ns < u64_max ->
  fits key [] [] -> NsLog.append_tombstone key old clock io ns = (r, ns') -> journaled ns'.
Proof.
  intros HJ Ha Hs Hi Hla Hfi Hck Hlast Hfit H. unfold NsLog.append_tombstone in H.
  st_step H ts ns1 Hts; apply next_tstamp_spec in Hts as (ts' & Heq & Hlt & -> & Hu64);
    [|discriminate Heq]. injection Heq as <-.
  specialize (Hu64 Hck (proj2 Hlast) (proj1 Hlast)).
  pose proof (tombstone_rec_wf ts key Hu64 Hfit) as Hwf.
  st_step H buf ns2 Henc; unfold st_lift in Henc;
    rewrite encode_into_eq, decide_True in Henc by done; [|discriminate Henc].
  injection Henc as <- <-.
  st_step H off ns3 Happ;
    apply append_active_cases in Happ
      as [(Hc & Heq & Hns)|(e & v' & a & Heq & Hns & Hfail)];
    try discriminate Heq; try (simpl; by rewrite Ha); cbn in *; rewrite Ha in *; cycle 1.
  { rewrite Hns. eapply (journaled_failed ns0); try done; simpl; [lia|]. rewrite Hi.
    intros fid top. apply bounded_remove. }
  st_step H u ns5 Hun; unfold NsLog.add_unsynced, st_modify in Hun; [|discriminate Hun].
  injection Hun as _ <-.
  st_step H u1 ns7 Hm; apply unref_opt_spec in Hm as [Hm ->]; [|discriminate Hm].
  injection H as _ <-. subst ns3.
  eapply (journaled_rec ns0 _ (mkRec ts flags.TOMBSTONE 0 key [] [])); try done;
    [by destruct old..| | | |destruct old; simpl; lia].
  - intros fid o j Hf.
    replace (NsLog.index _) with (NsIndex.remove (NsLog.index ns0) key).2
      by (destruct old; simpl; by rewrite Hi).
    by apply (follows_remove _ _ fid o (mkRec ts flags.TOMBSTONE 0 key [] [])).
  - intros fid top top' Ht Hb.
    replace (NsLog.index _) with (NsIndex.remove (NsLog.index ns0) key).2
      by (destruct old; simpl; by rewrite Hi).
    eapply bounded_weaken; [exact Ht|]. by apply bounded_remove.
  - intros fid. match goal with |- changed_in _ _ (NsLog.index ?n) =>
      replace (NsLog.index n) with (NsIndex.remove (NsLog.index ns0) key).2 by (destruct old; simpl; by rewrite Hi) end.
    apply changed_in_remove.
Qed.

Lemma remove_absent i k :
  NsIndex.inv i -> NsIndex.map i !! k = None -> (NsIndex.remove i k).2 = i.
Proof.
  intros Hi Hk. unfold NsIndex.remove. simpl. rewrite Hk, !delete_id; [by destruct i|..]; try done.
  - by apply NsIndex.valsep_absent.
  - by apply NsIndex.ttl_absent.
Qed.

(** The end of both deletes. *)
Lemma delete_journaled key old clock io x m ns r ns' :
  repr_x x m ns -> delete_ok ns key clock -> journaled ns ->
  let ns0 := NsLog.set_in_flight (NsLog.in_flight_writes ns + 1) ns in
  (ts ← NsLog.append_tombstone key old clock io; mret (Some ts) : NsLog.M (option Z))
    (NsLog.set_index (NsIndex.remove (NsLog.index ns) key).2 ns0) = (r, ns') ->
  journaled ns'.
Proof.
  intros Hr [Hc Hl Hf] HJ ns0 H.
  st_step H ts ns3 Ht; [injection H as _ <-|];
    apply (append_tombstone_journaled key old clock io ns) in Ht; try done;
    by destruct (rp_files _ _ _ Hr).
Qed.

Lemma tombstone_journaled key clock io x m ns r ns' :
  repr_x x m ns -> delete_ok ns key clock -> journaled ns ->
  NsLog.tombstone key clock io ns = (r, ns') -> journaled ns'.
Proof.
  intros Hr Hok HJ H. apply guard_inv in H as [(_ & _ & ->)|(_ & ns1 & Hb & ->)]; [done|].
  eapply (journaled_same ns1); try done.
  st_step Hb self ns2 Hg; unfold st_get in Hg; [|discriminate Hg]. injection Hg as <- <-.
  change (NsLog.index (NsLog.set_in_flight _ ns)) with (NsLog.index ns) in Hb.
  rewrite (surjective_pairing (NsIndex.remove (NsLog.index ns) key)) in Hb.
  st_step Hb u ns2 Hm; unfold st_modify in Hm; [|discriminate Hm]. injection Hm as _ <-.
  destruct (NsIndex.remove (NsLog.index ns) key).1 as [e|] eqn:Hrem.
  - by eapply delete_journaled.
  - injection Hb as _ <-. eapply (journaled_same ns); try done. cbn [NsLog.set_index NsLog.index].
    apply remove_absent; [by destruct Hr|done].
Qed.

Lemma tombstone_cond_journaled key rev now clock io x m ns r ns' :
  repr_x x m ns -> delete_ok ns key clock -> journaled ns ->
  NsLog.tombstone_cond key rev now clock io ns = (r, ns') -> journaled ns'.
Proof.
  intros Hr Hok HJ H. apply guard_inv in H as [(_ & _ & ->)|(_ & ns1 & Hb & ->)]; [done|].
  eapply (journaled_same ns1); try done.
  st_step Hb self ns2 Hg; unfold st_get in Hg; [|discriminate Hg]. injection Hg as <- <-.
  change (NsLog.index (NsLog.set_in_flight _ ns)) with (NsLog.index ns) in Hb.
  cbv zeta in Hb. destruct (decide (_ <> Some rev)); [by injection Hb as _ <-|].
  rewrite (surjective_pairing (NsIndex.remove (NsLog.index ns) key)) in Hb.
  st_step Hb u ns2 Hm; unfold st_modify in Hm; [|discriminate Hm]. injection Hm as _ <-.
  by eapply delete_journaled.
Qed.

Lemma ttl_update_journaled key exp clock io x m ns r ns' :
  repr_x x m ns -> delete_ok ns key clock -> exp_u64 exp ->
  is_Some (NsIndex.get (NsLog.index ns) key) -> journaled ns ->
  NsLog.ttl_update key exp clock io ns = (r, ns') -> journaled ns'.
Proof.
  intros Hr [Hck Hlast Hfit] Hexp Hin HJ H.
  apply guard_inv in H as [(_ & _ & ->)|(_ & ns1 & Hb & ->)]; [done|].
  eapply (journaled_same ns1); try done.
  st_step Hb ts ns2 Hts; apply next_tstamp_spec in Hts as (ts' & Heq & Hlt & -> & Hu64);
    [|discriminate Heq]. injection Heq as <-.
  specialize (Hu64 Hck (proj2 Hlast) (proj1 Hlast)).
  destruct (NsLog.expiry_fields flags.TTL_UPDATE exp) as [fl ef] eqn:Hef.
  set (rc := mkRec ts fl ef key [] []).
  assert (Hflags : has_flag fl flags.TOMBSTONE = false /\ has_flag fl flags.TTL_UPDATE = true /\
    rec_ttl rc = exp /\ is_u64 ef).
  { destruct exp as [ms|]; injection Hef as <- <-; split_and!; try done. by apply Hexp. }
  destruct Hflags as (Hf1 & Hf2 & Hf3 & Hef').
  assert (Hwf : rec_wf rc) by done.
  st_step Hb buf ns3 Henc; unfold st_lift in Henc;
    rewrite encode_into_eq, decide_True in Henc by done; [|discriminate Henc].
  injection Henc as <- <-.
  st_step Hb off ns3 Happ;
    apply append_active_cases in Happ
      as [(Hc & Heq & Hns)|(e & v' & a & Heq & Hns & Hfail)];
    try discriminate Heq; try (by destruct (rp_files _ _ _ Hr)); cbn in *; cycle 1.
  { rewrite Hns. eapply (journaled_failed ns); try done. simpl. lia. }
  subst ns3.
  st_step Hb u ns5 Hun; unfold NsLog.add_unsynced, st_modify in Hun; [|discriminate Hun].
  injection Hun as _ <-.
  st_step Hb u1 ns6 Hm; unfold st_modify in Hm; [|discriminate Hm]. injection Hm as _ <-.
  injection Hb as _ <-. eapply (journaled_rec ns _ rc); try done; simpl; try lia.
  - intros fid o j Hf. rewrite <- Hf3. by apply (follows_ttl _ _ fid o rc).
  - intros fid top top' Ht Hb. by eapply bounded_ttl.
  - unfold one_kind. simpl. congruence.
Qed.

(** A flush drops the records. *)
Definition is_flush (c : call) : bool := match c with Flush _ => true | _ => false end.

Lemma journal_step c s ns r ns' :
  sim s ns -> journaled ns -> call_ok c ns -> in_service c = true ->
  (is_flush c = true -> past = []) -> since <= NsLog.last_tstamp ns ->
  run c ns = (r, ns') -> journaled ns'.
Proof.
  intros [[x Hx] _ _ Hn] HJ Hok Hin Hfl Hsi H.
  assert (LogFile.file_inv (NsLog.active ns)) as Hfi by (by destruct (rp_files _ _ _ Hx)).
  assert (repr_x x (as_map s) (NsLog.set_in_flight (NsLog.in_flight_writes ns + 1) ns)) as Hx'
    by (by apply repr_in_flight).
  destruct c; try discriminate Hin; try (apply ret_inv in H as (r0 & H & ->)); simpl in Hok.
  - apply guard_inv in H as [(_ & _ & ->)|(_ & ns1 & Hb & ->)]; [done|].
    eapply (journaled_same ns1); try done. eapply put_record_journaled; [exact Hin|exact Hx'| |done|exact Hb].
    by destruct Hok.
  - apply guard_inv in H as [(_ & _ & ->)|(_ & ns1 & Hb & ->)]; [done|].
    eapply (journaled_same ns1); try done.
    st_step Hb self ns2 Hg; unfold st_get in Hg; [|discriminate Hg]. injection Hg as <- <-.
    destruct (cond_check _ _); [|by injection Hb as _ <-].
    st_step Hb ts ns3 Hp; [injection Hb as _ <-|];
      (eapply put_record_journaled; [exact Hin|exact Hx'| |done|exact Hp]); by destruct Hok.
  - destruct Hok as [Hpo [C Hco]]. exact (put_many_journaled _ _ _ _ C _ _ _ _ _ Hin Hx Hpo Hco HJ H).
  - exact (tombstone_journaled _ _ _ _ _ _ _ _ Hx Hok HJ H).
  - exact (tombstone_cond_journaled _ _ _ _ _ _ _ _ _ _ Hx Hok HJ H).
  - destruct Hok as (Hok & Hexp & Hs). exact (ttl_update_journaled _ _ _ _ _ _ _ _ _ Hx Hok Hexp Hs HJ H).
  - apply sync_cases in H as [[_ ->]|(k & _ & _ & ->)]; [|done].
    eapply (journaled_same ns); try done; unfold synced; simpl; case_decide; done.
  - by eapply rotate_journaled.
  - unfold NsLog.flush in H. destruct (NsLog.reclaim_in_progress ns); [by injection H as _ <-|].
    injection H as _ <-. intros _. exists [], []. rewrite Hfl by done. split; [exact journal_fresh|].
    apply chronicle_fresh. simpl. case_decide; lia.
  - injection H as _ <-. by eapply (journaled_same ns).
  - injection H as _ <-. by eapply (journaled_same ns).
Qed.

Lemma runs_journaled ns tr ns' :
  runs ns tr ns' -> forallb (fun p => in_service p.1) tr = true ->
  (forall p, p ∈ tr -> is_flush p.1 = true -> past = []) ->
  forall s, sim s ns -> since <= NsLog.last_tstamp ns -> journaled ns ->
  journaled ns' /\ exists s', sim s' ns'.
Proof.
  induction 1 as [|ns c r ns1 tr ns2 Hok Hrun _ IH]; simpl; intros Hin Hfl s Hs Hsi HJ; [eauto|].
  apply andb_prop in Hin as [Hc Htr].
  destruct (simulation _ _ _ _ _ Hs Hok Hrun) as (s1 & [Hle _] & Hs1).
  apply (IH Htr) with (s := s1); [intros p Hp; apply Hfl; by right|done| |].
  { destruct Hs as [_ Hl _ _], Hs1 as [_ Hl1 _ _]. lia. }
  eapply (journal_step c s ns r ns1); try done. apply (Hfl (c, r)). by left.
Qed.
End Journal.
