(* ===== verification/NsRecover.v ===== *)
(** * Crash recovery and restart

    Reopening the directory of a namespace after a crash in the middle of a write
    ([crash_recovery]) or after a clean shutdown ([clean_restart]) gives every key
    what it had.  Both hold when no sealed file has a delete or an expiry change in
    it, and that condition is needed: [delete_lost_after_seal] is a run of the code
    in which a deleted key returns. *)

From stdpp Require Import base tactics list gmap sorting strings.
From Stdlib Require Import ZArith Lia.
From S2P Require Import Prelude Record Index LogFile ValueStore Recover NsLog NsRepr NsSpec Reclaim NsBatch NsSim NsContract NsJournal.

Open Scope Z_scope.

Section Recovery.
Context {crc_impl : CrcFast} {blake : Blake3}.

(** ** Files of puts *)

(** Every record that a scan of the file up to [limit] finds has a header with [P]. *)
Fixpoint headers_loop (P : RecordHeader -> bool) (fuel : nat) (file : LogFile.t) (limit offset : Z) : bool :=
  match fuel with
  | O => false
  | S fuel =>
      if decide (offset < limit) then
        match read_valid file offset with
        | None => true
        | Some (hdr, _) => P hdr && headers_loop P fuel file limit (offset + record_len hdr)
        end
      else true
  end.

Definition headers (P : RecordHeader -> bool) (file : LogFile.t) (limit : Z) : bool :=
  headers_loop P (S (length (LogFile.data file))) file limit 0.

(** No record of the file is a delete or an expiry change. *)
Definition only_puts (file : LogFile.t) : bool :=
  headers (fun hdr => negb (has_flag (rflags hdr) flags.TOMBSTONE) &&
                      negb (has_flag (rflags hdr) flags.TTL_UPDATE)) file (LogFile.size file).

Lemma headers_loop_recs P file limit rest rs : forall fuel pre,
  Forall rec_wf rs -> LogFile.data file = pre ++ recs_bytes rs ++ rest ->
  zlen (pre ++ recs_bytes rs) <= limit ->
  headers_loop P fuel file limit (zlen pre) = true -> Forall (fun r => P (rec_header r) = true) rs.
Proof.
  induction rs as [|r rs IH]; intros fuel pre Hwf Hd Hlim H; [constructor|].
  apply Forall_cons in Hwf as [Hr Hwf]. rewrite recs_bytes_cons, <- app_assoc in Hd.
  destruct fuel as [|fuel]; [discriminate H|]. cbn [headers_loop] in H.
  pose proof (rec_bytes_pos r). rewrite recs_bytes_cons, app_assoc in Hlim.
  rewrite decide_True in H by (rewrite !zlen_app in Hlim; zlia).
  rewrite (read_valid_rec file pre r (recs_bytes rs ++ rest)) in H by done.
  rewrite rec_header_len, <- zlen_app in H. apply andb_prop in H as [Hp H].
  constructor; [done|]. eapply IH; [done| |exact Hlim|exact H]. by rewrite <- app_assoc.
Qed.

Lemma headers_recs P file limit rest rs :
  Forall rec_wf rs -> LogFile.data file = recs_bytes rs ++ rest -> zlen (recs_bytes rs) <= limit ->
  headers P file limit = true -> Forall (fun r => P (rec_header r) = true) rs.
Proof. intros Hwf Hd Hlim H. by eapply (headers_loop_recs P file limit rest rs _ []). Qed.

Lemma only_puts_recs file rest rs :
  Forall rec_wf rs -> LogFile.data file = recs_bytes rs ++ rest ->
  only_puts file = true -> Forall is_put rs.
Proof.
  intros Hwf Hd H. eapply Forall_impl; [eapply headers_recs; [done|done| |exact H]|].
  { unfold LogFile.size. rewrite Hd, zlen_app. zlia. }
  by intros r [?%negb_true_iff ?%negb_true_iff]%andb_prop.
Qed.

(** ** Opening the files of a journal *)

Definition dir_of (hist : list sfile) : list (Z * bytes) := (fun s => (sf_id s, sf_data s)) <$> hist.

Lemma list_data_files_sorted (l : list (Z * bytes)) :
  StronglySorted Z.lt l.*1 -> list_data_files (list_to_map l) = l.
Proof.
  intros Hs. apply merge_sort_by_key; [done|]. by apply map_to_list_to_map, StronglySorted_lt_NoDup.
Qed.

Lemma read_footer_sf s :
  is_u64 (zlen (sf_data s)) -> Forall FooterEntry.wf (sf_entries s) ->
  LogFile.read_footer (LogFile.open (sf_id s) (sf_data s)) = Ok (Some (sf_entries s)).
Proof.
  intros Hlen Hwf. apply LogFile.read_footer_sealed; [done|].
  unfold sf_data, LogFile.footer in Hlen. rewrite !zlen_app in Hlen. zlia.
Qed.

Lemma open_sealed_hist hist : forall acc idx,
  Forall (fun s => is_u64 (zlen (sf_data s)) /\ Forall FooterEntry.wf (sf_entries s)) hist ->
  open_sealed (dir_of hist) acc idx
  = Ok (acc ++ (sf_file <$> hist),
        foldl (fun idx s => apply_footer_entries idx (sf_id s) (sf_entries s)) idx hist).
Proof.
  induction hist as [|s hist IH]; intros acc idx Hall; [csimpl; by rewrite app_nil_r|].
  apply Forall_cons in Hall as [[Hlen Hwf] Hall].
  change (dir_of (s :: hist)) with ((sf_id s, sf_data s) :: dir_of hist).
  cbn [open_sealed]. rewrite (read_footer_sf s) by done.
  cbn [mbind result_bind]. rewrite IH by done. by rewrite <- app_assoc.
Qed.

(** The directory of the journal, with the active file as [d]. *)
Lemma dir_of_journal hist rs idx act sealed d :
  journal hist rs idx act sealed ->
  list_data_files (<[LogFile.file_id act := d]> (LogFile.data <$> sealed))
  = dir_of hist ++ [(LogFile.file_id act, d)].
Proof.
  intros [Hs Hb _ -> _ _ _ _ _ _ _ _].
  assert (LogFile.file_id act ∉ (dir_of hist).*1) as Hni.
  { unfold dir_of. rewrite <- list_fmap_compose. intros (s & Heq & Hin)%list_elem_of_fmap.
    rewrite Forall_forall in Hb. specialize (Hb s Hin). simpl in *. lia. }
  replace (<[_ := d]> _) with (list_to_map (M := gmap Z bytes) (dir_of hist ++ [(LogFile.file_id act, d)])).
  - apply list_data_files_sorted. rewrite fmap_app. unfold dir_of. rewrite <- list_fmap_compose.
    apply StronglySorted_app_2; [|exact Hs|repeat constructor].
    intros x y (s & -> & Hin)%list_elem_of_fmap ->%list_elem_of_singleton.
    rewrite Forall_forall in Hb. specialize (Hb s Hin). simpl. lia.
  - rewrite list_to_map_snoc by done. f_equal. unfold sealed_of, dir_of.
    rewrite <- list_to_map_fmap. f_equal. rewrite <- list_fmap_compose. done.
Qed.

Lemma journal_lookup hist rs idx act sealed s :
  journal hist rs idx act sealed -> s ∈ hist -> sealed !! sf_id s = Some (sf_file s).
Proof.
  intros [Hs _ _ -> _ _ _ _ _ _ _ _] Hin. unfold sealed_of. apply elem_of_list_to_map_1.
  - rewrite <- list_fmap_compose. by apply StronglySorted_lt_NoDup.
  - by apply (list_elem_of_fmap_2 (fun s => (sf_id s, sf_file s))).
Qed.

(** The footers of a directory whose files are smaller than 2^64 bytes. *)
Lemma journal_wf hist rs idx act sealed :
  journal hist rs idx act sealed ->
  (forall id f, sealed !! id = Some f -> is_u64 (LogFile.size f)) ->
  Forall (fun s => is_u64 (zlen (sf_data s)) /\ Forall FooterEntry.wf (sf_entries s)) hist.
Proof.
  intros Hj Hd. apply Forall_forall. intros s Hin.
  assert (is_u64 (zlen (sf_data s))) as Hu
    by exact (Hd _ _ (journal_lookup _ _ _ _ _ _ Hj Hin)).
  split; [done|]. destruct Hj as [_ _ _ _ _ He _ _ _ _ _ _]. rewrite Forall_forall in He. by apply He.
Qed.

Lemma open_namespace_crash hist rs idx act sealed tail :
  journal hist rs idx act sealed -> LogFile.clean act -> torn_tail tail ->
  (forall id f, sealed !! id = Some f -> is_u64 (LogFile.size f)) ->
  LogFile.read_footer (LogFile.open (LogFile.file_id act) (LogFile.data act ++ tail)) = Ok None ->
  open_namespace (<[LogFile.file_id act := LogFile.data act ++ tail]> (LogFile.data <$> sealed))
  = Ok (mkOpenedFiles (sf_file <$> hist) (LogFile.open (LogFile.file_id act) (LogFile.data act))
          (apply_recs (LogFile.file_id act) 0 (base hist) rs)).
Proof.
  intros Hj Hc Ht Hd Hrf. unfold open_namespace.
  rewrite (dir_of_journal _ _ _ _ _ _ Hj), rev_unit, rev_involutive.
  rewrite open_sealed_hist by (by eapply journal_wf). cbn [mbind result_bind app].
  rewrite Hrf. cbn [mbind result_bind]. fold (base hist).
  rewrite (jr_data _ _ _ _ _ Hj Hc), (replay_active_recs _ rs tail); [done| |done].
  by destruct Hj.
Qed.

(** The index that the whole list of sealed files gives, for a directory that was
    shut down cleanly. *)
Lemma open_namespace_sealed hist rs idx act sealed :
  let s := mkS (LogFile.file_id act) rs (NsLog.footer_for idx (LogFile.file_id act)) in
  journal hist rs idx act sealed -> LogFile.clean act -> is_u64 (zlen (sf_data s)) ->
  LogFile.file_id act < u32_max ->
  (forall id f, sealed !! id = Some f -> is_u64 (LogFile.size f)) ->
  open_namespace (<[LogFile.file_id act := sf_data s]> (LogFile.data <$> sealed))
  = Ok (mkOpenedFiles (sf_file <$> hist ++ [s]) (LogFile.open (LogFile.file_id act + 1) [])
          (base (hist ++ [s]))).
Proof.
  intros s Hj Hc Hu Hid Hd. unfold open_namespace.
  rewrite (dir_of_journal _ _ _ _ _ _ Hj), rev_unit, rev_involutive.
  rewrite open_sealed_hist by (by eapply journal_wf). cbn [mbind result_bind app].
  assert (Forall FooterEntry.wf (sf_entries s)) as Hwf.
  { eapply footer_for_wf; [apply (jr_bounds _ _ _ _ _ Hj)|].
    rewrite (jr_data _ _ _ _ _ Hj Hc). unfold sf_data in Hu. rewrite zlen_app in Hu.
    simpl in Hu. zlia. }
  pose proof (read_footer_sf s Hu Hwf) as Hrf.
  change (sf_id s) with (LogFile.file_id act) in Hrf. rewrite Hrf. cbn [mbind result_bind]. rewrite decide_True by lia. cbn [mbind result_bind ok_or].
  by rewrite base_snoc, fmap_app.
Qed.

(** ** The reopened log *)

Lemma incr_refs_spec (l : list (bytes * ContentHash)) : forall v,
  ValueStore.blobs (foldl (fun v kh => ValueStore.incr_ref v kh.2) v l) = ValueStore.blobs v /\
  forall h, is_Some (ValueStore.refs v !! h) \/ h ∈ l.*2 ->
    is_Some (ValueStore.refs (foldl (fun v kh => ValueStore.incr_ref v kh.2) v l) !! h).
Proof.
  induction l as [|[k h0] l IH]; intros v; csimpl; [split; [done|]; intros h [?|[]%not_elem_of_nil]; done|].
  destruct (IH (ValueStore.incr_ref v h0)) as [Hb Hr]. split; [by rewrite Hb|].
  intros h Hh. apply Hr. simpl. rewrite lookup_insert.
  destruct (decide (h0 = h)) as [->|Hne]; [left; eauto|]. set_solver.
Qed.

(** A log with the entries, the files and the referenced blobs of [ns] answers
    every read as [ns] does. *)
Lemma observe_reopened x m ns ns' B k :
  repr_x x m ns -> follows (NsLog.index ns) (NsLog.index ns') -> files_extend ns ns' ->
  ValueStore.blobs (NsLog.values ns) ⊆ B ->
  (forall k h, NsIndex.valsep (NsLog.index ns') !! k = Some h ->
     ValueStore.blobs (NsLog.values ns') !! h = B !! h) ->
  observe ns' k = observe ns k.
Proof.
  intros Hr [Hm Ht Hv] Hfe HB Hbl. unfold observe, NsIndex.get, NsIndex.get_ttl.
  rewrite <- Hm, <- Ht. destruct (NsIndex.map (NsLog.index ns) !! k) as [e|] eqn:He; [|done].
  simpl. do 3 f_equal.
  destruct (proj2 (rp_dom _ _ _ Hr k)) as [a Ha]; [eauto|].
  destruct (rp_entry _ _ _ Hr k a e Ha He) as (_ & _ & r & Hat & Hwf & _ & _ & _ & Hval).
  rewrite (read_value_rec ns e r _ _ Hat Hwf Hval).
  eapply read_value_rec; [by eapply rec_at_extend|done|].
  instantiate (1 := NsIndex.get_valsep (NsLog.index ns) k).
  unfold value_ok in *. destruct (has_flag _ _); [|done].
  destruct Hval as (Hs & Hl & Hb & Hch). split_and!; try done.
  rewrite (Hbl k); [by eapply lookup_weaken|]. by eapply lookup_weaken.
Qed.

Lemma open_opened dir B cfg o :
  open_namespace dir = Ok o ->
  exists ns', NsLog.open dir B cfg = Ok ns' /\
    NsLog.index ns' = of_index o /\ NsLog.active ns' = of_active o /\
    NsLog.sealed ns' = list_to_map ((fun f => (LogFile.file_id f, f)) <$> of_sealed o) /\
    NsLog.last_tstamp ns'
      = NsLog.max_or_0 ((fun ke => ie_tstamp_ms ke.2) <$> NsIndex.iter (of_index o)) /\
    forall k h, NsIndex.valsep (of_index o) !! k = Some h ->
      ValueStore.blobs (NsLog.values ns') !! h = B !! h.
Proof.
  intros Ho. unfold NsLog.open. rewrite Ho. cbn [mbind result_bind]. eexists.
  split; [reflexivity|]. split_and!; [done..|]. intros k h Hk.
  cbn [NsLog.values]. rewrite ValueStore.sweep_orphans_blobs.
  destruct (incr_refs_spec (NsIndex.valsep_iter (of_index o)) (ValueStore.new B)) as [Hb Hr].
  destruct (Hr h) as [c Hc].
  { right. apply list_elem_of_fmap. exists (k, h). split; [done|]. by apply elem_of_map_to_list. }
  by rewrite Hc, Hb.
Qed.

(** The revisions of the reopened log: between those of the keys and the last one. *)
Lemma reopened_tstamp x m ns ns' :
  repr_x x m ns -> 0 <= NsLog.last_tstamp ns -> follows (NsLog.index ns) (NsLog.index ns') ->
  NsLog.last_tstamp ns'
    = NsLog.max_or_0 ((fun ke => ie_tstamp_ms ke.2) <$> NsIndex.iter (NsLog.index ns')) ->
  NsLog.last_revision ns' <= NsLog.last_revision ns /\
  forall k v exp rev, observe ns k = Some (v, exp, rev) -> rev <= NsLog.last_revision ns'.
Proof.
  intros Hr H0 [Hm _ _] Hl. unfold NsLog.last_revision. rewrite Hl. split.
  - apply max_or_0_lub; [done|]. intros i ([k e] & -> & Hin)%list_elem_of_fmap. simpl.
    apply iter_elem in Hin. rewrite <- Hm in Hin.
    destruct (proj2 (rp_dom _ _ _ Hr k)) as [a Ha]; [eauto|].
    destruct (rp_entry _ _ _ Hr k a e Ha Hin) as (_ & -> & _). by eapply rp_rev.
  - intros k v exp rev Hk. unfold observe, NsIndex.get in Hk.
    destruct (NsIndex.map (NsLog.index ns) !! k) as [e|] eqn:He; [|discriminate Hk].
    simpl in Hk. injection Hk as _ _ <-. apply max_or_0_le, list_elem_of_fmap.
    exists (k, e). split; [done|]. apply iter_elem. by rewrite <- Hm.
Qed.

Lemma sealed_of_files hist :
  list_to_map ((fun f => (LogFile.file_id f, f)) <$> (sf_file <$> hist)) = sealed_of hist.
Proof. unfold sealed_of. by rewrite <- list_fmap_compose. Qed.

(** No call leaves a negative revision. *)
Lemma runs_last ns tr ns' : runs ns tr ns' -> forall s, sim s ns -> 0 <= NsLog.last_tstamp ns ->
  0 <= NsLog.last_tstamp ns'.
Proof.
  induction 1 as [|ns c r ns1 tr ns2 Hok Hrun _ IH]; intros s Hs Hl; [done|].
  destruct (simulation _ _ _ _ _ Hs Hok Hrun) as (s1 & [Hle _] & Hs1).
  apply (IH s1 Hs1). destruct Hs as [_ Hls _ _], Hs1 as [_ Hls1 _ _]. lia.
Qed.

(** The directory after a crash that left [tail] of an unfinished write in the
    active file. *)
Definition crash_disk (ns : NsLog.t) (tail : bytes) : gmap Z bytes :=
  <[LogFile.file_id (NsLog.active ns) := LogFile.data (NsLog.active ns) ++ tail]>
    (LogFile.data <$> NsLog.sealed ns).

(** The sealed files: smaller than 2^64 bytes, and without deletes and expiry
    changes. *)
Definition plain_sealed (ns : NsLog.t) : Prop :=
  forall id f, NsLog.sealed ns !! id = Some f -> is_u64 (LogFile.size f) /\ only_puts f = true.

Lemma plain_all_puts hist rs idx act sealed :
  journal hist rs idx act sealed ->
  (forall id f, sealed !! id = Some f -> is_u64 (LogFile.size f) /\ only_puts f = true) ->
  all_puts hist.
Proof.
  intros Hj Hp. pose proof (jr_srecs _ _ _ _ _ Hj) as Hwf.
  apply Forall_forall. intros s Hin. rewrite Forall_forall in Hwf.
  eapply (only_puts_recs (sf_file s)); [by apply Hwf|done|].
  apply (Hp (sf_id s)). by eapply journal_lookup.
Qed.

Lemma fresh_journaled cfg : journaled [] 0 (fresh cfg).
Proof. intros _. exists [], []. split; [exact journal_fresh|by apply chronicle_fresh]. Qed.

(** The journal of a log in service. *)
Lemma fresh_runs_journaled cfg tr ns :
  runs (fresh cfg) tr ns -> forallb (fun p => in_service p.1) tr = true ->
  LogFile.file_id (NsLog.active ns) < u32_max ->
  exists s hist rs, sim s ns /\
    journal hist rs (NsLog.index ns) (NsLog.active ns) (NsLog.sealed ns) /\
    chronicle [] 0 (NsLog.last_tstamp ns) hist rs (NsLog.index ns) (NsLog.active ns).
Proof.
  intros Hr Hin Hid.
  destruct (runs_journaled [] 0 _ _ _ Hr Hin (fun _ _ _ => eq_refl) _ (sim_fresh cfg) ltac:(done) (fresh_journaled cfg))
    as [HJ [s Hs]].
  destruct (HJ Hid) as (hist & rs & Hj & Hc). by exists s, hist, rs.
Qed.

(** C7: Crash recovery.  A log that was serving calls (no shutdown seal, reopening or
    compaction; calls may have failed in writes and syncs, but not in the fsync of a
    footer or in the opening of the next file) crashes in the middle of writing a
    record: its active file, which is not poisoned, ends in any proper prefix of a
    record.  Reopening the directory succeeds, cuts exactly that prefix, and finds every
    key with its value, metadata, expiry and revision; new revisions are above those of
    all keys.  More blob files than the log had may be on disk.  The sealed files are
    smaller than 2^64 bytes and hold no deletes or expiry changes, a file id is left,
    and the torn file does not end in the bytes of a footer (see
    [value_forges_footer]). *)
Theorem crash_recovery cfg cfg' tr ns tail B :
  runs (fresh cfg) tr ns -> forallb (fun p => in_service p.1) tr = true ->
  plain_sealed ns -> LogFile.file_id (NsLog.active ns) < u32_max ->
  LogFile.poisoned (NsLog.active ns) = false -> torn_tail tail ->
  LogFile.read_footer (LogFile.open (LogFile.file_id (NsLog.active ns))
    (LogFile.data (NsLog.active ns) ++ tail)) = Ok None ->
  ValueStore.blobs (NsLog.values ns) ⊆ B ->
  exists ns', NsLog.open (crash_disk ns tail) B cfg' = Ok ns' /\
    NsLog.disk ns' = NsLog.disk ns /\ (forall k, observe ns' k = observe ns k) /\
    NsLog.last_revision ns' <= NsLog.last_revision ns /\
    forall k v exp rev, observe ns k = Some (v, exp, rev) -> rev <= NsLog.last_revision ns'.
Proof.
  intros Hr Hin Hpl Hid Hp Ht Hrf HB.
  destruct (fresh_runs_journaled _ _ _ Hr Hin Hid) as (s & hist & rs & [[x Hx] _ _ _] & Hj & _).
  pose proof (runs_last _ _ _ Hr _ (sim_fresh cfg) ltac:(done)) as H0.
  destruct (jr_file _ _ _ _ _ Hj) as [Hbad|Hc]; [congruence|].
  pose proof (jr_index _ _ _ _ _ Hj Hc (plain_all_puts _ _ _ _ _ Hj Hpl)) as Hf.
  pose proof (open_namespace_crash _ _ _ _ _ _ Hj Hc Ht
    (fun id f H => proj1 (Hpl id f H)) Hrf) as Ho.
  destruct (open_opened _ B cfg' _ Ho) as (ns' & Hopen & Hi & Ha & Hse & Hl & Hbl).
  cbn [of_index of_active of_sealed] in *. rewrite sealed_of_files in Hse.
  rewrite <- (jr_sealed _ _ _ _ _ Hj) in Hse.
  rewrite <- Hi in Hf, Hbl, Hl.
  exists ns'. split; [exact Hopen|]. split; [|split].
  - unfold NsLog.disk. by rewrite Ha, Hse.
  - intros k. eapply (observe_reopened x); [exact Hx|exact Hf| |exact HB|exact Hbl].
    apply (files_extend_active _ _ []); rewrite ?Ha, ?app_nil_r; done.
  - by apply (reopened_tstamp x (as_map s)).
Qed.

Lemma seal_inv hook io ns ns1 :
  LogFile.file_inv (NsLog.active ns) ->
  NsLog.seal_active_for_shutdown hook io ns = (Ok tt, ns1) ->
  LogFile.clean (NsLog.active ns) /\ NsLog.sealed ns1 = NsLog.sealed ns /\
  NsLog.active ns1 = LogFile.open (LogFile.file_id (NsLog.active ns))
    (LogFile.data (NsLog.active ns) ++
     LogFile.footer (NsLog.footer_for (NsLog.index ns) (LogFile.file_id (NsLog.active ns)))).
Proof.
  intros Hfi H. destruct hook; [discriminate H|]. apply seal_step in H as [(k & _ & [=] & _)|H].
  set (ns2 := if decide _ then _ else _) in H.
  assert (NsLog.active ns2 = NsLog.active ns /\ NsLog.index ns2 = NsLog.index ns /\
    NsLog.sealed ns2 = NsLog.sealed ns) as (Ha & Hi & Hs) by (subst ns2; by case_decide).
  unfold NsLog.write_active_footer in H. rewrite Ha, Hi in H.
  destruct (LogFile.write_footer _ _ _ _ _) as [rf a] eqn:Hwf.
  apply LogFile.write_footer_cases in Hwf as [(Hc & -> & ->)|([e ->] & _)];
    [|simplify_eq|done].
  injection H as _ H. rewrite <- H. done.
Qed.

(** The files of a log that was sealed and reopened. *)
Lemma reopened_files_extend hist rs ns ns' sf id' :
  journal hist rs (NsLog.index ns) (NsLog.active ns) (NsLog.sealed ns) ->
  LogFile.clean (NsLog.active ns) ->
  sf_id sf = LogFile.file_id (NsLog.active ns) -> sf_recs sf = rs ->
  NsLog.active ns' = LogFile.open id' [] -> NsLog.sealed ns' = sealed_of (hist ++ [sf]) ->
  LogFile.file_id (NsLog.active ns) < id' -> files_extend ns ns'.
Proof.
  intros Hj Hc Hsid Hsr Ha Hs Hlt id f. pose proof Hj as [_ Hb _ Hse _ _ _ _ Hd _ _ _].
  assert (NsLog.sealed ns' = <[sf_id sf := sf_file sf]> (NsLog.sealed ns)) as Hs'.
  { rewrite Hs, Hse. unfold sealed_of. rewrite fmap_app. apply list_to_map_snoc.
    rewrite <- list_fmap_compose. intros (s' & Heq & Hin)%list_elem_of_fmap.
    rewrite Forall_forall in Hb. specialize (Hb s' Hin). simpl in *. lia. }
  unfold NsLog.locate_file. rewrite Ha, Hs'. simpl. rewrite Hsid.
  destruct (decide (LogFile.file_id (NsLog.active ns) = id)) as [<-|Hne].
  - intros [= <-]. rewrite decide_False by lia. rewrite lookup_insert_eq.
    do 2 eexists. split; [done|]. simpl. unfold sf_data. by rewrite Hsr, Hd.
  - intros Hf. assert (id < id') as Hid.
    { rewrite Hse in Hf. apply elem_of_list_to_map_2, list_elem_of_fmap in Hf as (s' & [= -> ->] & Hin).
      rewrite Forall_forall in Hb. specialize (Hb s' Hin). lia. }
    rewrite decide_False by lia. rewrite lookup_insert_ne by done. exists f, [].
    by rewrite app_nil_r.
Qed.

(** ** A log that was shut down, opened again *)

Lemma users_iter (vs : gmap bytes ContentHash) h :
  users vs h = zlen (filter (fun kv => kv.2 = h) (map_to_list vs)).
Proof.
  unfold users, zlen. f_equal. rewrite <- length_map_to_list. apply Permutation_length, NoDup_Permutation.
  - apply NoDup_map_to_list.
  - apply NoDup_filter, NoDup_map_to_list.
  - intros [k h']. rewrite list_elem_of_filter, !elem_of_map_to_list, map_lookup_filter_Some. tauto.
Qed.

Lemma incr_refs_count (l : list (bytes * ContentHash)) h : forall v,
  ValueStore.refcount (foldl (fun v kh => ValueStore.incr_ref v kh.2) v l) h
  = ValueStore.refcount v h + zlen (filter (fun kh => kh.2 = h) l).
Proof.
  induction l as [|[k h0] l IH]; intros v; cbn [foldl]; [unfold zlen; cbn; lia|]. rewrite IH, filter_cons. cbn [snd].
  assert (ValueStore.refcount (ValueStore.incr_ref v h0) h
    = ValueStore.refcount v h + if decide (h0 = h) then 1 else 0) as ->.
  { unfold ValueStore.refcount at 1. simpl. rewrite lookup_insert. case_decide as Hh; [subst; done|].
    unfold ValueStore.refcount. lia. }
  case_decide; [rewrite zlen_cons; lia|lia].
Qed.

Lemma refs_counted (l : list (bytes * ContentHash)) : forall v,
  (forall h c, ValueStore.refs v !! h = Some c -> 0 < c) ->
  forall h c, ValueStore.refs (foldl (fun v kh => ValueStore.incr_ref v kh.2) v l) !! h = Some c -> 0 < c.
Proof.
  induction l as [|[k h0] l IH]; intros v Hv; cbn [foldl]; [done|]. apply IH. intros h c. simpl.
  intros [[<- <-]|[_ Hc]]%lookup_insert_Some; [|by eapply Hv].
  unfold ValueStore.refcount. destruct (ValueStore.refs v !! h0) as [c0|] eqn:E; simpl; [specialize (Hv _ _ E); lia|lia].
Qed.

(** The blobs of a log that was opened with the index [idx]: each referenced by the
    keys that have its hash. *)
Lemma opened_values idx B :
  let v := (ValueStore.sweep_orphans (foldl (fun v kh => ValueStore.incr_ref v kh.2) (ValueStore.new B)
              (NsIndex.valsep_iter idx))).2 in
  (forall k h, NsIndex.valsep idx !! k = Some h ->
     exists b, B !! h = Some b /\ ValueStore.content_hash b = h) ->
  ValueStore.inv v /\ (forall h, ValueStore.refcount v h = users (NsIndex.valsep idx) h) /\
  (forall k h, NsIndex.valsep idx !! k = Some h -> ValueStore.blobs v !! h = B !! h).
Proof.
  intros v Hb. set (v0 := foldl _ _ _) in v.
  assert (forall h, ValueStore.refcount v h = users (NsIndex.valsep idx) h) as Hrc.
  { intros h. change (ValueStore.refcount v h) with (ValueStore.refcount v0 h). subst v0.
    rewrite incr_refs_count, users_iter. cbn. done. }
  assert (ValueStore.blobs v0 = B) as Hb0 by apply incr_refs_spec.
  assert (forall h, is_Some (ValueStore.refs v0 !! h) -> ValueStore.blobs v !! h = B !! h) as Hbl.
  { intros h [c Hc]. unfold v. rewrite ValueStore.sweep_orphans_blobs, Hc. by rewrite Hb0. }
  assert (forall h, ValueStore.refcount v0 h <> 0 -> exists k, NsIndex.valsep idx !! k = Some h) as Huse.
  { intros h Hn. change (ValueStore.refcount v h <> 0) in Hn. rewrite Hrc in Hn.
    unfold users in Hn. destruct (map_choose (filter (fun kv => kv.2 = h) (NsIndex.valsep idx))) as (k & h' & Hk).
    { intros He. rewrite He, map_size_empty in Hn. done. }
    apply map_lookup_filter_Some in Hk as [Hk Heq]. cbn in Heq. subst h'. by exists k. }
  split_and!; [|done|].
  - intros h c Hc. change (ValueStore.refs v0 !! h = Some c) in Hc.
    assert (0 < c) as Hpos. { eapply (refs_counted _ (ValueStore.new B)); [|exact Hc]. intros h' c'. cbn. by rewrite lookup_empty. }
    split; [done|]. destruct (Huse h) as [k Hk]; [unfold ValueStore.refcount; rewrite Hc; simpl; lia|].
    destruct (Hb k h Hk) as (b & HB & Hh). exists b. rewrite Hbl by eauto. done.
  - intros k h Hk. apply Hbl. destruct (ValueStore.refs v0 !! h) as [c|] eqn:Hc; [eauto|].
    pose proof (users_pos _ _ _ Hk) as Hp. rewrite <- Hrc in Hp.
    change (ValueStore.refcount v h) with (ValueStore.refcount v0 h) in Hp.
    unfold ValueStore.refcount in Hp. rewrite Hc in Hp. simpl in Hp. lia.
Qed.

Lemma apply_footer_inv fid es : forall idx, NsIndex.inv idx -> NsIndex.inv (apply_footer_entries idx fid es).
Proof.
  induction es as [|e es IH]; intros idx Hi; [done|]. apply IH, NsIndex.inv_set_valsep; [by apply NsIndex.inv_insert|].
  intros _. simpl. rewrite lookup_insert_eq. eauto.
Qed.

Lemma base_inv hist : NsIndex.inv (base hist).
Proof.
  induction hist as [|s hist IH] using rev_ind; [apply NsIndex.inv_new|]. rewrite base_snoc. by apply apply_footer_inv.
Qed.

(** An index with the same keys, and the same hashes where there is a key, is the same. *)
Lemma follows_eq i j : NsIndex.inv i -> NsIndex.inv j -> follows i j ->
  (forall k e, NsIndex.map i !! k = Some e -> NsIndex.valsep i !! k = NsIndex.valsep j !! k) -> i = j.
Proof.
  intros [Hci _ Hvi] [Hcj _ Hvj] [Hm Ht _] Hv. assert (NsIndex.valsep i = NsIndex.valsep j) as Hve.
  { apply map_eq. intros k. destruct (NsIndex.map i !! k) as [e|] eqn:E; [by eapply Hv|].
    assert (k ∉ dom (NsIndex.map i)) as Hn by (by apply not_elem_of_dom).
    assert (k ∉ dom (NsIndex.map j)) as Hn' by (by rewrite <- Hm).
    transitivity (@None ContentHash); [|symmetry]; apply not_elem_of_dom; set_solver. }
  destruct i, j. simpl in *. by subst.
Qed.

(** The log that opens on the directory of a log that was shut down. *)
Record reopened (m : gmap bytes aentry) (cfg : LogConfig) (ns ns' : NsLog.t) : Prop := {
  ro_index : NsLog.index ns' = NsLog.index ns;
  ro_active : NsLog.active ns' = LogFile.open (LogFile.file_id (NsLog.active ns) + 1) [];
  ro_files : files_extend ns ns';
  ro_repr : repr m ns';
  ro_config : NsLog.config ns' = cfg;
  ro_frozen : NsLog.frozen ns' = false;
  ro_flight : NsLog.in_flight_writes ns' = 0;
  ro_last : NsLog.last_tstamp ns'
    = NsLog.max_or_0 ((fun ke => ie_tstamp_ms ke.2) <$> NsIndex.iter (NsLog.index ns'));
}.

(** The entries that the opened log finds are those of the log that was shut down. *)
Lemma entry_reopened x m ns ns' B k a e :
  repr_x x m ns -> NsLog.index ns' = NsLog.index ns -> files_extend ns ns' ->
  ValueStore.blobs (NsLog.values ns) ⊆ B ->
  (forall k h, NsIndex.valsep (NsLog.index ns') !! k = Some h ->
     ValueStore.blobs (NsLog.values ns') !! h = B !! h) ->
  m !! k = Some a -> NsIndex.get (NsLog.index ns) k = Some e -> entry_ok ns' k e a.
Proof.
  intros Hr Hi Hfe HB Hbl Ha He.
  destruct (rp_entry _ _ _ Hr k a e Ha He) as (Ht & Hrev & r & Hat & Hwf & Hk & Hts & Hmt & Hval).
  unfold entry_ok. rewrite Hi. split_and!; [done..|]. exists r. split_and!; [by eapply rec_at_extend|done..|].
  unfold value_ok in *. destruct (has_flag _ _); [|done]. destruct Hval as (Hs & Hl & Hb & Hch).
  split_and!; [done..| |done]. rewrite (Hbl k); [by eapply lookup_weaken|]. by rewrite Hi.
Qed.

(** Every hash of the index is that of a blob. *)
Lemma valsep_blob x m ns k h : repr_x x m ns -> NsIndex.valsep (NsLog.index ns) !! k = Some h ->
  exists b, ValueStore.blobs (NsLog.values ns) !! h = Some b /\ ValueStore.content_hash b = h.
Proof.
  intros Hr Hk. pose proof (users_pos _ _ _ Hk) as Hp. pose proof (rp_refs _ _ _ Hr h) as Hrc.
  pose proof (rp_x _ _ _ Hr h) as H0. unfold ValueStore.refcount in Hrc.
  destruct (ValueStore.refs (NsLog.values ns) !! h) as [c|] eqn:Hc; simpl in Hrc; [|lia].
  destruct (rp_values _ _ _ Hr h c Hc) as (_ & b & Hb & Hh). eauto.
Qed.

Lemma restart_reopens hist rs x m ns hook io ns1 B cfg :
  repr_x x m ns -> 0 <= NsLog.last_tstamp ns ->
  journal hist rs (NsLog.index ns) (NsLog.active ns) (NsLog.sealed ns) ->
  plain_sealed ns -> only_puts (NsLog.active ns) = true ->
  LogFile.file_id (NsLog.active ns) < u32_max ->
  NsLog.seal_active_for_shutdown hook io ns = (Ok tt, ns1) ->
  is_u64 (LogFile.size (NsLog.active ns1)) ->
  ValueStore.blobs (NsLog.values ns) ⊆ B ->
  exists ns', NsLog.open (NsLog.disk ns1) B cfg = Ok ns' /\ reopened m cfg ns ns'.
Proof.
  intros Hx H0 Hj Hpl Hpa Hid Hseal Hu HB.
  set (sf := mkS (LogFile.file_id (NsLog.active ns)) rs
    (NsLog.footer_for (NsLog.index ns) (LogFile.file_id (NsLog.active ns)))).
  destruct (seal_inv _ _ _ _ (jr_file _ _ _ _ _ Hj) Hseal) as (Hc & Hs1 & Ha1).
  rewrite (jr_data _ _ _ _ _ Hj Hc) in Ha1. change (NsLog.active ns1 = sf_file sf) in Ha1.
  pose proof (open_namespace_sealed _ _ _ _ _ Hj Hc) as Ho. fold sf in Ho.
  rewrite Ha1 in Hu. specialize (Ho Hu Hid (fun id f H => proj1 (Hpl id f H))).
  assert (NsLog.index ns = base (hist ++ [sf])) as Hidx.
  { pose proof (plain_all_puts _ _ _ _ _ Hj Hpl) as Hall. apply follows_eq; [apply Hx|apply base_inv| |].
    - rewrite base_snoc. eapply follows_seal; [apply (jr_recs _ _ _ _ _ Hj)| |by apply (jr_index _ _ _ _ _ Hj Hc)].
      eapply (only_puts_recs (NsLog.active ns) [] rs); [apply (jr_recs _ _ _ _ _ Hj)| |done].
      by rewrite app_nil_r, (jr_data _ _ _ _ _ Hj Hc).
    - intros k e Hk. rewrite base_snoc. eapply hashes_seal; [by apply (jr_hashes _ _ _ _ _ Hj Hc)|exact Hk]. }
  assert (NsLog.disk ns1 = <[LogFile.file_id (NsLog.active ns) := sf_data sf]> (LogFile.data <$> NsLog.sealed ns)) as Hdisk
    by (unfold NsLog.disk; by rewrite Ha1, Hs1).
  rewrite <- Hidx in Ho. unfold NsLog.open. rewrite Hdisk, Ho. cbn [mbind result_bind of_index of_active of_sealed].
  eexists. split; [reflexivity|]. set (ns' := NsLog.mk _ _ _ _ _ _ _ _ _ _ _ _ _).
  destruct (opened_values (NsLog.index ns) B) as (Hvi & Hrc & Hbl).
  { intros k h Hk. destruct (valsep_blob _ _ _ _ _ Hx Hk) as (b & Hb & Hh). exists b. split; [by eapply lookup_weaken|done]. }
  assert (files_extend ns ns') as Hfe.
  { eapply (reopened_files_extend _ _ _ _ sf _ Hj Hc eq_refl eq_refl); [reflexivity|apply sealed_of_files|lia]. }
  split; try done. split; try done.
  - apply (rp_index _ _ _ Hx).
  - intros h. unfold none. rewrite Z.add_0_r. apply Hrc.
  - split; [right; apply LogFile.clean_open|]. cbn [NsLog.sealed ns']. rewrite sealed_of_files.
    intros id f (s & [= -> ->] & _)%elem_of_list_to_map_2%list_elem_of_fmap. done.
  - apply (rp_dom _ _ _ Hx).
  - intros k a e Ha He. by eapply (entry_reopened x m ns ns' B).
  - intros k a Ha. cbn [NsLog.last_tstamp ns']. destruct (proj1 (rp_dom _ _ _ Hx k)) as [e He]; [eauto|].
    destruct (rp_entry _ _ _ Hx k a e Ha He) as (_ & <- & _). apply max_or_0_le, list_elem_of_fmap.
    exists (k, e). split; [done|]. by apply iter_elem.
Qed.

(** Clean restart.  After a shutdown that sealed the active file, reopening the
    directory finds the same keys with the same values, metadata, expiries and
    revisions, and starts a new active file. *)
Theorem clean_restart cfg cfg' tr ns hook io ns1 B :
  runs (fresh cfg) tr ns -> forallb (fun p => in_service p.1) tr = true ->
  plain_sealed ns -> only_puts (NsLog.active ns) = true ->
  LogFile.file_id (NsLog.active ns) < u32_max ->
  NsLog.seal_active_for_shutdown hook io ns = (Ok tt, ns1) ->
  is_u64 (LogFile.size (NsLog.active ns1)) ->
  ValueStore.blobs (NsLog.values ns) ⊆ B ->
  exists ns', NsLog.open (NsLog.disk ns1) B cfg' = Ok ns' /\
    LogFile.data (NsLog.active ns') = [] /\ (forall k, observe ns' k = observe ns k) /\
    NsLog.last_revision ns' <= NsLog.last_revision ns /\
    forall k v exp rev, observe ns k = Some (v, exp, rev) -> rev <= NsLog.last_revision ns'.
Proof.
  intros Hr Hin Hpl Hpa Hid Hseal Hu HB.
  destruct (fresh_runs_journaled _ _ _ Hr Hin Hid) as (s & hist & rs & [[x Hx] _ _ _] & Hj & _).
  pose proof (runs_last _ _ _ Hr _ (sim_fresh cfg) ltac:(done)) as H0.
  destruct (restart_reopens hist rs x (as_map s) ns hook io ns1 B cfg') as (ns' & Hopen & Hre); [done..|].
  exists ns'. split; [done|]. split; [by rewrite (ro_active _ _ _ _ Hre)|]. split.
  - intros k. by rewrite (observe_repr _ _ _ _ Hx), (observe_repr _ _ _ _ (ro_repr _ _ _ _ Hre)).
  - apply (reopened_tstamp x (as_map s)); [done..| |apply Hre]. by rewrite (ro_index _ _ _ _ Hre).
Qed.
End Recovery.

(** ** Witnesses *)

(** Records without deletes and expiry changes, over two files. *)
Definition ex_puts : list call :=
  [ Put [97] [1; 2] [7] None 1000 no_faults;
    Put [98] [1; 2; 3; 4; 5] [] (Some 9000) 1000 no_faults;
    Put [97] [1; 2; 3] [7] None 1000 no_faults;
    Put [99] [1; 2; 3; 4; 5] [7] None 1002 no_faults ].
Definition ex_before : NsLog.t := final ex_cfg ex_puts.
Definition ex_torn : bytes := take 40 (rec_bytes (mkRec 2000 flags.NO_EXPIRY 0 [98] [9; 9; 9] [])).

Lemma ex_torn_tail : torn_tail ex_torn.
Proof.
  exists (mkRec 2000 flags.NO_EXPIRY 0 [98] [9; 9; 9] []), 40%nat.
  split; [split; apply (bool_decide_unpack _); vm_compute; exact I|].
  split; [apply (bool_decide_unpack _); vm_compute; exact I|done].
Qed.

Lemma ex_plain : plain_sealed ex_before.
Proof.
  assert (Hall : map_Forall (fun _ f => is_u64 (LogFile.size f) /\ only_puts f = true)
    (NsLog.sealed ex_before)).
  { apply (bool_decide_unpack _). vm_compute. exact I. }
  exact Hall.
Qed.

Lemma crash_recovery_witness :
  exists ns', NsLog.open (crash_disk ex_before ex_torn)
      (ValueStore.blobs (NsLog.values ex_before)) ex_cfg = Ok ns' /\
    NsLog.disk ns' = NsLog.disk ex_before /\ (forall k, observe ns' k = observe ex_before k) /\
    NsLog.last_revision ns' <= NsLog.last_revision ex_before /\
    forall k v exp rev, observe ex_before k = Some (v, exp, rev) -> rev <= NsLog.last_revision ns'.
Proof.
  refine (crash_recovery ex_cfg ex_cfg (trace ex_cfg ex_puts) ex_before ex_torn _
    (final_runs _ _) _ ex_plain _ _ ex_torn_tail _ _).
  - vm_compute. reflexivity.
  - apply (bool_decide_unpack _). vm_compute. exact I.
  - vm_compute. reflexivity.
  - vm_compute. reflexivity.
  - reflexivity.
Defined.

Definition ex_sealed : NsLog.t := (NsLog.seal_active_for_shutdown false no_faults ex_before).2.

Lemma clean_restart_witness :
  exists ns', NsLog.open (NsLog.disk ex_sealed)
      (ValueStore.blobs (NsLog.values ex_before)) ex_cfg = Ok ns' /\
    LogFile.data (NsLog.active ns') = [] /\ (forall k, observe ns' k = observe ex_before k) /\
    NsLog.last_revision ns' <= NsLog.last_revision ex_before /\
    forall k v exp rev, observe ex_before k = Some (v, exp, rev) -> rev <= NsLog.last_revision ns'.
Proof.
  refine (clean_restart ex_cfg ex_cfg (trace ex_cfg ex_puts) ex_before false no_faults ex_sealed _
    (final_runs _ _) _ ex_plain _ _ _ _ _).
  - vm_compute. reflexivity.
  - vm_compute. reflexivity.
  - apply (bool_decide_unpack _). vm_compute. exact I.
  - vm_compute. reflexivity.
  - apply (bool_decide_unpack _). vm_compute. exact I.
  - reflexivity.
Defined.

(** ** What the conditions exclude *)

(** What a key reads as after the directory of [ns] is opened again. *)
Definition observe_reopen (ns : NsLog.t) (cfg : LogConfig) (k : bytes)
    : eresult (option (eresult (bytes * bytes) * option Z * Z)) :=
  ns' ← NsLog.open (NsLog.disk ns) (ValueStore.blobs (NsLog.values ns)) cfg;
  Ok (observe ns' k).

(** A key is written, its file is sealed, the key is deleted, and the file with the
    delete is sealed. *)
Definition ex_delete : list call :=
  [ Put [97] [1; 2] [] None 1000 no_faults; Rotate no_faults;
    Tombstone [97] 1001 no_faults; Rotate no_faults ].

(** A delete does not survive the seal of its file.  The footer of a file lists
    the keys whose record is in it and not its deletes, and reopening applies
    footers only: the key that was deleted returns with its old value. *)
Theorem delete_lost_after_seal :
  let ns := final ex_cfg ex_delete in
  snd <$> trace ex_cfg ex_delete
    = [Ok (ORev 1000); Ok OUnit; Ok (OOpt (Some 1001)); Ok OUnit] /\
  observe ns [97] = None /\
  observe_reopen ns ex_cfg [97] = Ok (Some (Ok ([1; 2], []), None, 1000)).
Proof. split_and!; vm_compute; reflexivity. Qed.

(** A separated value is overwritten by an inline one and its blob is collected. *)
Definition ex_stale : list call :=
  [ Put [97] [1; 2; 3; 4] [] None 1000 no_faults;
    Put [97] [5] [] None 1001 no_faults; Sync no_faults ].

(** A write that was acknowledged after a restart cannot be read.  Replaying the
    inline record leaves the content hash of the value it replaced in the index,
    the count of that blob is one again though its file is gone, and a later write
    of the same content does not create the file. *)
Theorem stale_hash_loses_blob :
  let ns := final ex_cfg ex_stale in
  let put := NsLog.put_full [98] [1; 2; 3; 4] [] None 2000 no_faults in
  snd <$> trace ex_cfg ex_stale = [Ok (ORev 1000); Ok (ORev 1001); Ok OUnit] /\
  (ns' ← NsLog.open (NsLog.disk ns) (ValueStore.blobs (NsLog.values ns)) ex_cfg;
   ts ← (put ns').1; Ok (ts, observe (put ns').2 [98]))
  = Ok (2000, Some (Err (Io (OtherIo "NotFound")), None, 2000)).
Proof. split; vm_compute; reflexivity. Qed.

(** The trailer of an empty footer as the value of a key. *)
Definition ex_forged : list call :=
  [ Put [97] [1; 2] [] None 1000 no_faults;
    Put [98] (LogFile.footer []) [] None 1001 no_faults ].

(** A value can pass for a footer.  When the last record of the active file ends in
    the 24 bytes of an empty footer, a restart takes the file for a sealed one
    without keys: every key whose record it holds is gone. *)
Theorem value_forges_footer :
  let cfg := mkLogConfig 1000 8 1000 in
  let ns := final cfg ex_forged in
  snd <$> trace cfg ex_forged = [Ok (ORev 1000); Ok (ORev 1001)] /\
  observe ns [97] = Some (Ok ([1; 2], []), None, 1000) /\
  observe_reopen ns cfg [97] = Ok None /\ observe_reopen ns cfg [98] = Ok None.
Proof. split_and!; vm_compute; reflexivity. Qed.

(** The merge of two runs runs out of space, and a write follows. *)
Definition ex_failed_merge : list call :=
  [ Put [97] [1; 2] [] None 1000 no_faults; Rotate no_faults;
    Put [98] [3] [] None 1001 no_faults;
    Compact no_faults [mkMF None [Some 3%nat] None None None None [] None];
    Put [99] [4] [] None 1002 no_faults; Sync no_faults ].

(** After a compaction that failed, acknowledged writes do not survive a restart.
    The footer of the active file is written and the file stays the active one, so
    the next records follow the footer; replay takes the footer for a damaged
    record and truncates the file there. *)
Theorem failed_reclaim_loses_writes :
  let cfg := mkLogConfig 1000 2 1000 in
  let ns := final cfg ex_failed_merge in
  snd <$> trace cfg ex_failed_merge
    = [Ok (ORev 1000); Ok OUnit; Ok (ORev 1001); Err (Io LogFile.ENOSPC); Ok (ORev 1002); Ok OUnit] /\
  observe ns [99] = Some (Ok ([4], []), None, 1002) /\
  observe_reopen ns cfg [99] = Ok None /\
  observe_reopen ns cfg [98] = Ok (Some (Ok ([3], []), None, 1001)).
Proof. split_and!; vm_compute; reflexivity. Qed.

(** Two puts, the second of which seals the file at 60 bytes; the fsync of the footer
    fails.  The first key is deleted, and the log is synced. *)
Definition ex_unsynced_footer : list call :=
  [ Put [97] [1; 2] [] None 1000 no_faults;
    Put [98] [3] [] None 1001 (mkFaults None None None None (Some (OtherIo "EIO")) None None);
    Tombstone [97] 1002 no_faults; Sync no_faults ].

(** After a rotation whose fsync failed, an acknowledged and synced delete does not
    survive a restart.  The file has its footer, is not poisoned and stays the active
    one, so the record of the delete follows the footer, where replay truncates the
    file: the deleted key is back. *)
Theorem unsynced_footer_loses_delete :
  let cfg := mkLogConfig 60 8 1000 in
  let ns := final cfg ex_unsynced_footer in
  snd <$> trace cfg ex_unsynced_footer
    = [Ok (ORev 1000); Err (Io (OtherIo "EIO")); Ok (OOpt (Some 1002)); Ok OUnit] /\
  observe ns [97] = None /\ NsLog.unsynced_bytes ns = 0 /\
  observe_reopen ns cfg [97] = Ok (Some (Ok ([1; 2], []), None, 1000)).
Proof. split_and!; vm_compute; reflexivity. Qed.
