(* ===== verification/Ascii.v ===== *)
(** * ASCII

    Byte-string literals, letter case and decimal numbers: the parts of the
    standard library that the protocol parser and the engine use on keys, options
    and counters. *)

From stdpp Require Import base tactics list strings.
From Stdlib Require Import ZArith Lia Ascii.
From S2P Require Import Prelude.

Open Scope Z_scope.

Declare Scope lit_scope.
Delimit Scope lit_scope with lit.

(** [b"..."]. *)
Fixpoint lit (s : string) : bytes :=
  match s with
  | EmptyString => []
  | String c s => Z.of_nat (nat_of_ascii c) :: lit s
  end.

Arguments lit _%_string_scope.

(** Equality of slices, as the arms of a match on byte strings decide it. *)
Fixpoint bytes_eqb (a b : bytes) : bool :=
  match a, b with
  | [], [] => true
  | x :: a, y :: b => (x =? y) && bytes_eqb a b
  | _, _ => false
  end.

Infix "=b" := bytes_eqb (at level 70, no associativity) : lit_scope.
Open Scope lit_scope.

Lemma bytes_eqb_spec a b : (a =b b) = true <-> a = b.
Proof.
  revert b. induction a as [|x a IH]; intros [|y b]; simpl; try done.
  rewrite andb_true_iff, Z.eqb_eq, IH. naive_solver.
Qed.

Lemma bytes_eqb_refl a : (a =b a) = true.
Proof. by apply bytes_eqb_spec. Qed.

(** Decides the comparisons of two known byte strings in the goal. *)
Ltac lit_eval :=
  repeat match goal with
  | |- context [bytes_eqb ?a ?b] =>
      let v := eval vm_compute in (bytes_eqb a b) in
      let H := fresh in
      assert (bytes_eqb a b = v) as H by (vm_compute; reflexivity);
      rewrite H; clear H; cbv iota
  end.

(** [u8::to_ascii_uppercase]. *)
Definition byte_upper (c : Z) : Z := if (97 <=? c) && (c <=? 122) then c - 32 else c.
Definition make_ascii_uppercase (b : bytes) : bytes := byte_upper <$> b.

Lemma byte_upper_idem c : byte_upper (byte_upper c) = byte_upper c.
Proof.
  unfold byte_upper. destruct ((97 <=? c) && (c <=? 122)) eqn:H; [|by rewrite H].
  bool_to_prop. destruct (Z.leb_spec 97 (c - 32)); [lia|done].
Qed.

Lemma upper_idem b : make_ascii_uppercase (make_ascii_uppercase b) = make_ascii_uppercase b.
Proof.
  unfold make_ascii_uppercase. rewrite <- list_fmap_compose. apply list_fmap_ext.
  intros _ c _. apply byte_upper_idem.
Qed.

Lemma upper_length b : length (make_ascii_uppercase b) = length b.
Proof. apply length_fmap. Qed.

(** ** Decimal numbers *)

Definition checked_mul_u64 (a b : Z) : option Z :=
  if decide (a * b <= u64_max) then Some (a * b) else None.

(** [u8::wrapping_sub]. *)
Definition wrapping_sub_u8 (a b : Z) : Z := (a - b) mod 256.

(** [u64::wrapping_neg] and the cast of a [u64] to [i64]. *)
Definition wrapping_neg_u64 (n : Z) : Z := (- n) mod 2 ^ 64.
Definition as_i64 (n : Z) : Z := if n <=? i64_max then n else n - 2 ^ 64.

Definition is_digit (c : Z) : Prop := 48 <= c <= 57.
#[export] Instance is_digit_dec c : Decision (is_digit c) := _.

(** The number a string of digits stands for. *)
Definition dec_val (b : bytes) : Z := foldl (fun n c => n * 10 + (c - 48)) 0 b.

(** [to_string] of an integer. *)
Fixpoint dec_loop (fuel : nat) (n : Z) (acc : bytes) : bytes :=
  match fuel with
  | O => acc
  | S fuel =>
      let acc := (48 + n mod 10) :: acc in
      if n / 10 =? 0 then acc else dec_loop fuel (n / 10) acc
  end.

(** A [u64] has at most twenty digits. *)
Definition show_u64 (n : Z) : bytes := dec_loop 20 n [].
Definition show_i64 (n : Z) : bytes := if n <? 0 then 45 :: show_u64 (- n) else show_u64 n.

Lemma foldl_dec_acc b : forall n,
  foldl (fun n c => n * 10 + (c - 48)) n b = n * 10 ^ zlen b + dec_val b.
Proof.
  unfold dec_val. induction b as [|c b IH]; intros n; cbn [foldl].
  - change (zlen []) with 0. lia.
  - rewrite IH, (IH (0 * 10 + (c - 48))), zlen_cons. pose proof (zlen_nonneg b).
    rewrite (Z.add_comm 1), Z.pow_add_r by lia. lia.
Qed.

Lemma dec_val_cons c b : dec_val (c :: b) = (c - 48) * 10 ^ zlen b + dec_val b.
Proof. unfold dec_val at 1. cbn [foldl]. rewrite foldl_dec_acc. lia. Qed.

Lemma dec_val_nonneg b : Forall is_digit b -> 0 <= dec_val b.
Proof.
  induction 1 as [|c b Hc Hb IH]; [done|]. rewrite dec_val_cons. unfold is_digit in Hc.
  pose proof (Z.pow_nonneg 10 (zlen b)). nia.
Qed.

Lemma dec_loop_spec fuel : forall n acc,
  0 <= n < 10 ^ Z.of_nat fuel -> Forall is_digit acc -> (0 < fuel)%nat ->
  exists ds, dec_loop fuel n acc = ds ++ acc /\ ds <> [] /\ Forall is_digit ds /\ dec_val ds = n.
Proof.
  induction fuel as [|fuel IH]; intros n acc Hn Hacc Hf; [lia|]. cbn [dec_loop].
  pose proof (Z.mod_pos_bound n 10 ltac:(lia)) as Hm.
  assert (is_digit (48 + n mod 10)) as Hd by (unfold is_digit; lia).
  destruct (Z.eqb_spec (n / 10) 0) as [H0|H0].
  - exists [48 + n mod 10]. split_and!; [done..|by constructor|].
    rewrite dec_val_cons. change (zlen []) with 0. change (dec_val []) with 0.
    rewrite (Z.div_mod n 10) at 2 by lia. lia.
  - rewrite Nat2Z.inj_succ, Z.pow_succ_r in Hn by lia.
    destruct fuel as [|fuel]; [cbn in Hn; rewrite Z.div_small in H0; lia|].
    destruct (IH (n / 10) ((48 + n mod 10) :: acc)) as (ds & -> & Hne & Hds & Hv).
    + split; [apply Z.div_pos; lia|]. apply Z.div_lt_upper_bound; lia.
    + by constructor.
    + lia.
    + exists (ds ++ [48 + n mod 10]). rewrite <- app_assoc. split_and!; [done| | |].
      * by destruct ds.
      * apply Forall_app. split; [done|]. by constructor.
      * unfold dec_val. rewrite foldl_app. fold (dec_val ds). rewrite Hv. simpl.
        rewrite (Z.div_mod n 10) at 3 by lia. lia.
Qed.

Lemma show_u64_spec n :
  is_u64 n -> show_u64 n <> [] /\ Forall is_digit (show_u64 n) /\ dec_val (show_u64 n) = n.
Proof.
  intros Hn. destruct (dec_loop_spec 20 n []) as (ds & Heq & Hne & Hd & Hv).
  - change (Z.of_nat 20) with 20. assert (2 ^ 64 < 10 ^ 20) by reflexivity. zlia.
  - constructor.
  - lia.
  - unfold show_u64. by rewrite Heq, app_nil_r.
Qed.
