(* ===== verification/Command.v ===== *)
(** * The command parser, [crates/proto]

    [Command::parse] turns a RESP value into a command.  The file models the
    parser with its option loops and its integer conversions, defines the
    canonical RESP form of a command ([print]) and proves that parsing it gives the
    command back, that integers are accepted exactly when they are decimal and in
    range, and that the letter case of names and options does not matter. *)

From stdpp Require Import base tactics list strings.
From Stdlib Require Import ZArith Lia.
From S2P Require Import Prelude Ascii.

Open Scope Z_scope.
Open Scope lit_scope.

(** ** RESP values *)

(** The constructors of [beyond_resp::Value] that the sources build or match on;
    [OtherValue] stands for the remaining ones. *)
Inductive Value :=
| SimpleString (b : bytes)
| SimpleError (b : bytes)
| Integer (n : Z)
| BulkString (b : bytes)
| Null
| Array (v : list Value)
| Map (v : list (Value * Value))
| Push (v : list Value)
| OtherValue (tag : Z).

Inductive ProtoError :=
| WrongArity (cmd : string)
| InvalidInteger (raw : bytes)
| InvalidExpiry (raw : bytes)
| Syntax (token : bytes)
| UnknownCommand (cmd : bytes)
| InvalidFormat (reason : string)
| DbIndexOutOfRange.

Notation presult := (result ProtoError).

Inductive SetCondition :=
| Always
| Nx
| Xx
| Rev (rev : Z).

Inductive SetTtl :=
| Seconds (n : Z)
| Millis (n : Z)
| UnixSecs (n : Z)
| UnixMillis (n : Z).

Record SetArgs := mkSetArgs {
  sa_ttl : option SetTtl;
  sa_condition : SetCondition;
  sa_get : bool;
  sa_keep_ttl : bool;
  sa_meta : option bytes;
}.

Record ScanArgs := mkScanArgs { pattern : option bytes; count : Z }.

Inductive GetExTtl :=
| GetExSet (ttl : SetTtl)
| GetExPersist.

Module Command.
Inductive t :=
| Get (key : bytes)
| Set_ (key value : bytes) (args : SetArgs)
| Del (keys : list bytes)
| Exists (keys : list bytes)
| Expire (key : bytes) (secs : Z)
| PExpire (key : bytes) (millis : Z)
| ExpireAt (key : bytes) (unix_secs : Z)
| PExpireAt (key : bytes) (unix_millis : Z)
| Ttl (key : bytes)
| PTtl (key : bytes)
| Persist (key : bytes)
| Keys (pattern : option bytes)
| Scan (cursor : bytes) (args : ScanArgs)
| MGet (keys : list bytes)
| MSet (pairs : list (bytes * bytes))
| GetSet (key value : bytes)
| SetNx (key value : bytes)
| GetDel (key : bytes)
| GetEx (key : bytes) (ttl : option GetExTtl)
| Incr (key : bytes)
| IncrBy (key : bytes) (delta : Z)
| Decr (key : bytes)
| DecrBy (key : bytes) (delta : Z)
| Hello (version : option Z)
| Ping (message : option bytes)
| Select (db : Z)
| DbSize
| FlushDb
| BgRewriteAof
| Quit
| Reset
| Watch (keys : list bytes) (since : option Z)
| PWatch (prefix : bytes) (since : option Z)
| Unwatch
| Revision (key : bytes)
| SetRev (key value : bytes) (revision : Z) (ttl : option SetTtl)
| DelRev (key : bytes) (revision : Z)
| GetMeta (key : bytes).
End Command.
Import Command.

Definition bulk (v : Value) : presult bytes :=
  match v with
  | BulkString b => Ok b
  | SimpleString b => Ok b
  | _ => Err (InvalidFormat "expected bulk string")
  end.

(** ** Replies *)

Module response.
Definition ok : Value := SimpleString (lit "OK").
Definition nil : Value := Null.
Definition integer (n : Z) : Value := Integer n.
Definition bulk (b : bytes) : Value := BulkString b.
Definition error (kind msg : bytes) : Value := SimpleError (kind ++ lit " " ++ msg).
Definition err_wrong_type : Value :=
  SimpleError (lit "WRONGTYPE Operation against a key holding the wrong kind of value").
Definition array (items : list Value) : Value := Array items.
Definition scan_reply (cursor : bytes) (keys : list bytes) : Value :=
  Array [BulkString cursor; Array (BulkString <$> keys)].

(** [pkg_version] is the version the package is built with. *)
Definition hello_reply (pkg_version : bytes) (version : Z) : Value :=
  Map [ (SimpleString (lit "server"), SimpleString (lit "beyond-kv"));
        (SimpleString (lit "version"), SimpleString pkg_version);
        (SimpleString (lit "proto"), Integer version);
        (SimpleString (lit "mode"), SimpleString (lit "standalone"));
        (SimpleString (lit "role"), SimpleString (lit "master")) ].
End response.

(** ** Integers *)

(** The loop of both conversions. *)
Fixpoint atoi_loop (b : bytes) (n : Z) : option Z :=
  match b with
  | [] => Some n
  | byte :: b =>
      let d := wrapping_sub_u8 byte 48 in
      if decide (d > 9) then None else
      n ← checked_mul_u64 n 10;
      n ← checked_add_u64 n d;
      atoi_loop b n
  end.

Definition atoi_u64 (b : bytes) : option Z :=
  match b with [] => None | _ => atoi_loop b 0 end.

Definition atoi_i64 (b : bytes) : option Z :=
  match b with
  | [] => None
  | first :: rest =>
      let '(neg, digits) :=
        if first =? 45 then (true, rest) else if first =? 43 then (false, rest) else (false, b) in
      match digits with
      | [] => None
      | _ =>
          n ← atoi_loop digits 0;
          if (neg : bool)
          then if decide (n > i64_max + 1) then None else Some (as_i64 (wrapping_neg_u64 n))
          else if decide (n <= i64_max) then Some n else None
      end
  end.

Definition parse_u64 (v : Value) : presult Z :=
  b ← bulk v; ok_or (atoi_u64 b) (InvalidInteger b).

Definition parse_i64 (v : Value) : presult Z :=
  b ← bulk v; ok_or (atoi_i64 b) (InvalidInteger b).

(** ** Options *)

(** An option, uppercased in a buffer of [n] bytes. *)
Definition option_name (n : nat) (opt : bytes) : presult bytes :=
  if decide (length opt <= n)%nat then Ok (make_ascii_uppercase opt) else Err (Syntax opt).

(** The value of [EX] and [PX]: a positive integer. *)
Definition parse_relative (v : Value) : presult Z :=
  raw ← bulk v;
  v ← ok_or (atoi_u64 raw) (InvalidInteger raw);
  if decide (v = 0) then Err (InvalidExpiry raw) else Ok v.

Fixpoint set_options (rest : list Value) (a : SetArgs) : presult SetArgs :=
  match rest with
  | [] => Ok a
  | v :: rest =>
      opt ← bulk v;
      opt_up ← option_name 7 opt;
      if opt_up =b lit "EX" then
        match rest with
        | [] => Err (WrongArity "SET")
        | v :: rest =>
            n ← parse_relative v;
            set_options rest (mkSetArgs (Some (Seconds n)) (sa_condition a) (sa_get a)
              (sa_keep_ttl a) (sa_meta a))
        end
      else if opt_up =b lit "PX" then
        match rest with
        | [] => Err (WrongArity "SET")
        | v :: rest =>
            n ← parse_relative v;
            set_options rest (mkSetArgs (Some (Millis n)) (sa_condition a) (sa_get a)
              (sa_keep_ttl a) (sa_meta a))
        end
      else if opt_up =b lit "EXAT" then
        match rest with
        | [] => Err (WrongArity "SET")
        | v :: rest =>
            n ← parse_u64 v;
            set_options rest (mkSetArgs (Some (UnixSecs n)) (sa_condition a) (sa_get a)
              (sa_keep_ttl a) (sa_meta a))
        end
      else if opt_up =b lit "PXAT" then
        match rest with
        | [] => Err (WrongArity "SET")
        | v :: rest =>
            n ← parse_u64 v;
            set_options rest (mkSetArgs (Some (UnixMillis n)) (sa_condition a) (sa_get a)
              (sa_keep_ttl a) (sa_meta a))
        end
      else if opt_up =b lit "NX" then
        set_options rest (mkSetArgs (sa_ttl a) Nx (sa_get a) (sa_keep_ttl a) (sa_meta a))
      else if opt_up =b lit "XX" then
        set_options rest (mkSetArgs (sa_ttl a) Xx (sa_get a) (sa_keep_ttl a) (sa_meta a))
      else if opt_up =b lit "GET" then
        set_options rest (mkSetArgs (sa_ttl a) (sa_condition a) true (sa_keep_ttl a) (sa_meta a))
      else if opt_up =b lit "KEEPTTL" then
        set_options rest (mkSetArgs (sa_ttl a) (sa_condition a) (sa_get a) true (sa_meta a))
      else if opt_up =b lit "REV" then
        match rest with
        | [] => Err (WrongArity "SET")
        | v :: rest =>
            n ← parse_u64 v;
            set_options rest (mkSetArgs (sa_ttl a) (Rev n) (sa_get a) (sa_keep_ttl a) (sa_meta a))
        end
      else if opt_up =b lit "META" then
        match rest with
        | [] => Err (WrongArity "SET")
        | v :: rest =>
            m ← bulk v;
            set_options rest (mkSetArgs (sa_ttl a) (sa_condition a) (sa_get a) (sa_keep_ttl a)
              (Some m))
        end
      else Err (Syntax opt)
  end.

(** Arguments after the name of the command, [args[1..]]. *)
Definition parse_set (args : list Value) : presult t :=
  match args with
  | k :: v :: rest =>
      key ← bulk k;
      value ← bulk v;
      a ← set_options rest (mkSetArgs None Always false false None);
      Ok (Set_ key value a)
  | _ => Err (WrongArity "SET")
  end.

Fixpoint setrev_options (rest : list Value) (ttl : option SetTtl) : presult (option SetTtl) :=
  match rest with
  | [] => Ok ttl
  | v :: rest =>
      opt ← bulk v;
      opt_up ← option_name 4 opt;
      if opt_up =b lit "EX" then
        match rest with
        | [] => Err (WrongArity "SETREV")
        | v :: rest => n ← parse_relative v; setrev_options rest (Some (Seconds n))
        end
      else if opt_up =b lit "PX" then
        match rest with
        | [] => Err (WrongArity "SETREV")
        | v :: rest => n ← parse_relative v; setrev_options rest (Some (Millis n))
        end
      else if opt_up =b lit "EXAT" then
        match rest with
        | [] => Err (WrongArity "SETREV")
        | v :: rest => n ← parse_u64 v; setrev_options rest (Some (UnixSecs n))
        end
      else if opt_up =b lit "PXAT" then
        match rest with
        | [] => Err (WrongArity "SETREV")
        | v :: rest => n ← parse_u64 v; setrev_options rest (Some (UnixMillis n))
        end
      else Err (Syntax opt)
  end.

Definition parse_setrev (args : list Value) : presult t :=
  match args with
  | k :: v :: r :: rest =>
      key ← bulk k;
      value ← bulk v;
      revision ← parse_u64 r;
      ttl ← setrev_options rest None;
      Ok (SetRev key value revision ttl)
  | _ => Err (WrongArity "SETREV")
  end.

Fixpoint getex_options (rest : list Value) (ttl : option GetExTtl) : presult (option GetExTtl) :=
  match rest with
  | [] => Ok ttl
  | v :: rest =>
      opt ← bulk v;
      opt_up ← option_name 7 opt;
      if opt_up =b lit "EX" then
        match rest with
        | [] => Err (WrongArity "GETEX")
        | v :: rest => n ← parse_relative v; getex_options rest (Some (GetExSet (Seconds n)))
        end
      else if opt_up =b lit "PX" then
        match rest with
        | [] => Err (WrongArity "GETEX")
        | v :: rest => n ← parse_relative v; getex_options rest (Some (GetExSet (Millis n)))
        end
      else if opt_up =b lit "EXAT" then
        match rest with
        | [] => Err (WrongArity "GETEX")
        | v :: rest => n ← parse_u64 v; getex_options rest (Some (GetExSet (UnixSecs n)))
        end
      else if opt_up =b lit "PXAT" then
        match rest with
        | [] => Err (WrongArity "GETEX")
        | v :: rest => n ← parse_u64 v; getex_options rest (Some (GetExSet (UnixMillis n)))
        end
      else if opt_up =b lit "PERSIST" then getex_options rest (Some GetExPersist)
      else Err (Syntax opt)
  end.

Definition parse_getex (args : list Value) : presult t :=
  match args with
  | k :: rest =>
      key ← bulk k;
      ttl ← getex_options rest None;
      Ok (GetEx key ttl)
  | [] => Err (WrongArity "GETEX")
  end.

Fixpoint scan_options (rest : list Value) (pat : option bytes) (cnt : Z)
    : presult (option bytes * Z) :=
  match rest with
  | [] => Ok (pat, cnt)
  | v :: rest =>
      opt ← bulk v;
      opt_up ← option_name 5 opt;
      if opt_up =b lit "MATCH" then
        match rest with
        | [] => Err (WrongArity "SCAN")
        | v :: rest => p ← bulk v; scan_options rest (Some p) cnt
        end
      else if opt_up =b lit "COUNT" then
        match rest with
        | [] => Err (WrongArity "SCAN")
        | v :: rest => n ← parse_u64 v; scan_options rest pat n
        end
      else Err (Syntax opt)
  end.

Definition parse_scan (args : list Value) : presult t :=
  match args with
  | c :: rest =>
      cursor ← bulk c;
      '(pat, cnt) ← scan_options rest None 10;
      Ok (Scan cursor (mkScanArgs pat cnt))
  | [] => Err (WrongArity "SCAN")
  end.

(** ** Argument shapes *)

Definition one_key (cmd : string) (args : list Value) (f : bytes -> t) : presult t :=
  match args with
  | [k] => key ← bulk k; Ok (f key)
  | _ => Err (WrongArity cmd)
  end.

Definition key_u64 (cmd : string) (args : list Value) (f : bytes -> Z -> t) : presult t :=
  match args with
  | [k; n] => key ← bulk k; n ← parse_u64 n; Ok (f key n)
  | _ => Err (WrongArity cmd)
  end.

Definition key_i64 (cmd : string) (args : list Value) (f : bytes -> Z -> t) : presult t :=
  match args with
  | [k; n] => key ← bulk k; n ← parse_i64 n; Ok (f key n)
  | _ => Err (WrongArity cmd)
  end.

Definition key_value (cmd : string) (args : list Value) (f : bytes -> bytes -> t) : presult t :=
  match args with
  | [k; v] => key ← bulk k; value ← bulk v; Ok (f key value)
  | _ => Err (WrongArity cmd)
  end.

(** [iter().map(bulk).collect()]. *)
Fixpoint bulks (args : list Value) : presult (list bytes) :=
  match args with
  | [] => Ok []
  | v :: args => b ← bulk v; bs ← bulks args; Ok (b :: bs)
  end.

Definition key_list (cmd : string) (args : list Value) (f : list bytes -> t) : presult t :=
  match args with
  | [] => Err (WrongArity cmd)
  | _ => keys ← bulks args; Ok (f keys)
  end.

(** [chunks(2)] of an even number of arguments. *)
Fixpoint bulk_pairs (args : list Value) : presult (list (bytes * bytes)) :=
  match args with
  | k :: v :: args =>
      key ← bulk k; value ← bulk v; rest ← bulk_pairs args; Ok ((key, value) :: rest)
  | _ => Ok []
  end.

Definition parse_mset (args : list Value) : presult t :=
  if (bool_decide (length args < 2)%nat || negb (Nat.even (length args)))%bool
  then Err (WrongArity "MSET")
  else pairs ← bulk_pairs args; Ok (MSet pairs).

Definition opt_bulk (args : list Value) : presult (option bytes) :=
  match args with [] => Ok None | v :: _ => b ← bulk v; Ok (Some b) end.

Definition parse_hello (args : list Value) : presult t :=
  match args with
  | [] => Ok (Hello None)
  | v :: _ =>
      raw ← bulk v;
      n ← ok_or (atoi_u64 raw) (InvalidInteger raw);
      if decide (n <= u8_max) then Ok (Hello (Some n)) else Err (InvalidInteger raw)
  end.

(** [SINCE] in a buffer of five bytes: a longer word is not an option here. *)
Definition is_since (b : bytes) : bool :=
  bool_decide (length b <= 5)%nat && (make_ascii_uppercase b =b lit "SINCE").

Definition parse_watch (args : list Value) : presult t :=
  match args with
  | [] => Err (WrongArity "WATCH")
  | [k] => keys ← bulks [k]; Ok (Watch keys None)
  | _ =>
      let len := length args in
      maybe_since ← bulk (nth (len - 2) args Null);
      if is_since maybe_since then
        since ← parse_u64 (nth (len - 1) args Null);
        keys ← bulks (take (len - 2) args);
        Ok (Watch keys (Some since))
      else
        keys ← bulks args; Ok (Watch keys None)
  end.

Definition parse_pwatch (args : list Value) : presult t :=
  match args with
  | [] => Err (WrongArity "PWATCH")
  | p :: rest =>
      prefix ← bulk p;
      match rest with
      | s :: n :: _ =>
          maybe_since ← bulk s;
          if is_since maybe_since
          then since ← parse_u64 n; Ok (PWatch prefix (Some since))
          else Ok (PWatch prefix None)
      | _ => Ok (PWatch prefix None)
      end
  end.

(** ** [Command::parse] *)

Definition parse_name (name_bytes name : bytes) (args : list Value) : presult t :=
  if name =b lit "GET" then one_key "GET" args Get
  else if name =b lit "SET" then parse_set args
  else if name =b lit "DEL" then key_list "DEL" args Del
  else if name =b lit "EXISTS" then key_list "EXISTS" args Exists
  else if name =b lit "EXPIRE" then key_u64 "EXPIRE" args Expire
  else if name =b lit "PEXPIRE" then key_u64 "PEXPIRE" args PExpire
  else if name =b lit "EXPIREAT" then key_u64 "EXPIREAT" args ExpireAt
  else if name =b lit "PEXPIREAT" then key_u64 "PEXPIREAT" args PExpireAt
  else if name =b lit "TTL" then one_key "TTL" args Ttl
  else if name =b lit "PTTL" then one_key "PTTL" args PTtl
  else if name =b lit "PERSIST" then one_key "PERSIST" args Persist
  else if name =b lit "KEYS" then p ← opt_bulk args; Ok (Keys p)
  else if name =b lit "SCAN" then parse_scan args
  else if name =b lit "MGET" then key_list "MGET" args MGet
  else if name =b lit "MSET" then parse_mset args
  else if name =b lit "GETSET" then key_value "GETSET" args GetSet
  else if name =b lit "SETNX" then key_value "SETNX" args SetNx
  else if name =b lit "GETDEL" then one_key "GETDEL" args GetDel
  else if name =b lit "GETEX" then parse_getex args
  else if name =b lit "INCR" then one_key "INCR" args Incr
  else if name =b lit "INCRBY" then key_i64 "INCRBY" args IncrBy
  else if name =b lit "DECR" then one_key "DECR" args Decr
  else if name =b lit "DECRBY" then key_i64 "DECRBY" args DecrBy
  else if name =b lit "HELLO" then parse_hello args
  else if name =b lit "PING" then m ← opt_bulk args; Ok (Ping m)
  else if name =b lit "SELECT" then
    match args with [n] => db ← parse_u64 n; Ok (Select db) | _ => Err (WrongArity "SELECT") end
  else if name =b lit "DBSIZE" then Ok DbSize
  else if name =b lit "BGREWRITEAOF" then Ok BgRewriteAof
  else if name =b lit "FLUSHDB" then
    match args with [] => Ok FlushDb | _ => Err (WrongArity "FLUSHDB") end
  else if name =b lit "QUIT" then Ok Quit
  else if name =b lit "RESET" then Ok Reset
  else if name =b lit "WATCH" then parse_watch args
  else if name =b lit "PWATCH" then parse_pwatch args
  else if name =b lit "UNWATCH" then Ok Unwatch
  else if name =b lit "REVISION" then one_key "REVISION" args Revision
  else if name =b lit "SETREV" then parse_setrev args
  else if name =b lit "DELREV" then key_u64 "DELREV" args DelRev
  else if name =b lit "GETMETA" then one_key "GETMETA" args GetMeta
  else if name =b lit "COMMAND" then Ok (Ping None)
  else Err (UnknownCommand name_bytes).

Definition parse (value : Value) : presult t :=
  match value with
  | Array (v0 :: args) =>
      name_bytes ← bulk v0;
      if decide (length name_bytes <= 16)%nat
      then parse_name name_bytes (make_ascii_uppercase name_bytes) args
      else Err (UnknownCommand name_bytes)
  | _ => Err (InvalidFormat "expected non-empty array")
  end.

(** ** The RESP form of a command *)

Section Print.
(** The letter case in which names and options are written. *)
Variable u : bytes -> bytes.

Definition word (s : string) : Value := BulkString (u (lit s)).
Definition num (n : Z) : Value := BulkString (show_u64 n).

Definition print_ttl (t : SetTtl) : list Value :=
  match t with
  | Seconds n => [word "EX"; num n]
  | Millis n => [word "PX"; num n]
  | UnixSecs n => [word "EXAT"; num n]
  | UnixMillis n => [word "PXAT"; num n]
  end.

Definition print_opt {A} (f : A -> list Value) (o : option A) : list Value :=
  match o with Some a => f a | None => [] end.

Definition print_set_args (a : SetArgs) : list Value :=
  print_opt print_ttl (sa_ttl a) ++
  match sa_condition a with
  | Always => [] | Nx => [word "NX"] | Xx => [word "XX"] | Rev n => [word "REV"; num n]
  end ++
  (if sa_get a then [word "GET"] else []) ++
  (if sa_keep_ttl a then [word "KEEPTTL"] else []) ++
  print_opt (fun m => [word "META"; BulkString m]) (sa_meta a).

Definition print_since (o : option Z) : list Value :=
  print_opt (fun n => [word "SINCE"; num n]) o.

Definition print_args (c : t) : list Value :=
  match c with
  | Get k => [word "GET"; BulkString k]
  | Set_ k v a => word "SET" :: BulkString k :: BulkString v :: print_set_args a
  | Del ks => word "DEL" :: (BulkString <$> ks)
  | Exists ks => word "EXISTS" :: (BulkString <$> ks)
  | Expire k n => [word "EXPIRE"; BulkString k; num n]
  | PExpire k n => [word "PEXPIRE"; BulkString k; num n]
  | ExpireAt k n => [word "EXPIREAT"; BulkString k; num n]
  | PExpireAt k n => [word "PEXPIREAT"; BulkString k; num n]
  | Ttl k => [word "TTL"; BulkString k]
  | PTtl k => [word "PTTL"; BulkString k]
  | Persist k => [word "PERSIST"; BulkString k]
  | Keys p => word "KEYS" :: print_opt (fun p => [BulkString p]) p
  | Scan c (mkScanArgs p n) =>
      word "SCAN" :: BulkString c ::
        print_opt (fun p => [word "MATCH"; BulkString p]) p ++ [word "COUNT"; num n]
  | MGet ks => word "MGET" :: (BulkString <$> ks)
  | MSet ps => word "MSET" :: ps ≫= (fun p => [BulkString p.1; BulkString p.2])
  | GetSet k v => [word "GETSET"; BulkString k; BulkString v]
  | SetNx k v => [word "SETNX"; BulkString k; BulkString v]
  | GetDel k => [word "GETDEL"; BulkString k]
  | GetEx k o =>
      word "GETEX" :: BulkString k ::
        print_opt (fun g => match g with GetExSet t => print_ttl t | GetExPersist => [word "PERSIST"] end) o
  | Incr k => [word "INCR"; BulkString k]
  | IncrBy k n => [word "INCRBY"; BulkString k; BulkString (show_i64 n)]
  | Decr k => [word "DECR"; BulkString k]
  | DecrBy k n => [word "DECRBY"; BulkString k; BulkString (show_i64 n)]
  | Hello o => word "HELLO" :: print_opt (fun n => [num n]) o
  | Ping o => word "PING" :: print_opt (fun m => [BulkString m]) o
  | Select n => [word "SELECT"; num n]
  | DbSize => [word "DBSIZE"]
  | FlushDb => [word "FLUSHDB"]
  | BgRewriteAof => [word "BGREWRITEAOF"]
  | Quit => [word "QUIT"]
  | Reset => [word "RESET"]
  | Watch ks o => word "WATCH" :: (BulkString <$> ks) ++ print_since o
  | PWatch p o => word "PWATCH" :: BulkString p :: print_since o
  | Unwatch => [word "UNWATCH"]
  | Revision k => [word "REVISION"; BulkString k]
  | SetRev k v r o =>
      word "SETREV" :: BulkString k :: BulkString v :: num r :: print_opt print_ttl o
  | DelRev k n => [word "DELREV"; BulkString k; num n]
  | GetMeta k => [word "GETMETA"; BulkString k]
  end.

Definition print (c : t) : Value := Array (print_args c).
End Print.

(** ** Commands in range *)

Definition ttl_wf (t : SetTtl) : Prop :=
  match t with
  | Seconds n | Millis n => is_u64 n /\ n <> 0
  | UnixSecs n | UnixMillis n => is_u64 n
  end.

Definition opt_wf {A} (P : A -> Prop) (o : option A) : Prop :=
  match o with Some a => P a | None => True end.

(** A watch without [SINCE] must not have that word as the last key but one. *)
Definition wf (c : t) : Prop :=
  match c with
  | Set_ _ _ a => opt_wf ttl_wf (sa_ttl a) /\ match sa_condition a with Rev n => is_u64 n | _ => True end
  | Del ks | Exists ks | MGet ks => ks <> []
  | Expire _ n | PExpire _ n | ExpireAt _ n | PExpireAt _ n | Select n | DelRev _ n => is_u64 n
  | Scan _ a => is_u64 (count a)
  | MSet ps => ps <> []
  | GetEx _ o => opt_wf (fun g => match g with GetExSet t => ttl_wf t | GetExPersist => True end) o
  | IncrBy _ n | DecrBy _ n => is_i64 n
  | Hello o => opt_wf is_u8 o
  | Watch ks o =>
      ks <> [] /\ opt_wf is_u64 o /\
      (o = None -> forall k k', drop (length ks - 2) ks = [k; k'] -> is_since k = false)
  | PWatch _ o => opt_wf is_u64 o
  | SetRev _ _ r o => is_u64 r /\ opt_wf ttl_wf o
  | _ => True
  end.

(** ** Integers are exact *)

Lemma wrapping_sub_digit c : is_u8 c -> (wrapping_sub_u8 c 48 > 9 <-> ~ is_digit c).
Proof.
  intros Hc. unfold wrapping_sub_u8, is_digit. destruct (decide (c < 48)).
  - rewrite <- (Z.mod_unique (c - 48) 256 (-1) (c - 48 + 256)) by zlia. zlia.
  - rewrite Z.mod_small by zlia. zlia.
Qed.

Lemma atoi_loop_spec b : is_bytes b -> forall n r, is_u64 n ->
  atoi_loop b n = Some r <->
  Forall is_digit b /\ n * 10 ^ zlen b + dec_val b = r /\ r <= u64_max.
Proof.
  induction 1 as [|c b Hc Hb IH]; intros n r Hn; cbn [atoi_loop].
  - change (zlen []) with 0. change (dec_val []) with 0. split.
    + intros [= ->]. split_and!; [constructor|lia|zlia].
    + intros (_ & <- & _). f_equal. lia.
  - rewrite dec_val_cons, zlen_cons. pose proof (zlen_nonneg b).
    rewrite (Z.add_comm 1), Z.pow_add_r, Z.pow_1_r by lia.
    pose proof (Z.pow_pos_nonneg 10 (zlen b) ltac:(lia) ltac:(lia)) as Hp.
    destruct (decide (wrapping_sub_u8 c 48 > 9)) as [Hd|Hd]; rewrite wrapping_sub_digit in Hd by done.
    { split; [done|]. intros (Hf & _). by apply Forall_cons in Hf as [? _]. }
    apply dec_stable in Hd.
    assert (wrapping_sub_u8 c 48 = c - 48) as ->
      by (unfold wrapping_sub_u8; unfold is_digit in Hd; apply Z.mod_small; lia).
    unfold is_digit in Hd. unfold checked_mul_u64, checked_add_u64.
    pose proof (dec_val_nonneg b) as H1.
    assert ((n * 10 + (c - 48)) * 1 <= (n * 10 + (c - 48)) * 10 ^ zlen b)
      by (apply Z.mul_le_mono_nonneg_l; zlia).
    destruct (decide (n * 10 <= u64_max)); cbn [mbind option_bind].
    2: { split; [done|]. intros (Hf & Heq & Hle). apply Forall_cons in Hf as [_ Hf%H1]. lia. }
    destruct (decide (n * 10 + (c - 48) <= u64_max)); cbn [mbind option_bind].
    2: { split; [done|]. intros (Hf & Heq & Hle). apply Forall_cons in Hf as [_ Hf%H1]. lia. }
    rewrite IH by zlia. rewrite Forall_cons.
    split; intros (Hf & Heq & Hle).
    + split_and!; [unfold is_digit; lia | done | rewrite <- Heq; lia | done].
    + destruct Hf. split_and!; [done | rewrite <- Heq; lia | done].
Qed.

(** [atoi_u64] accepts exactly the non-empty strings of decimal digits whose value
    fits a [u64], and returns that value; it never wraps. *)
Theorem atoi_u64_exact b n :
  is_bytes b ->
  (atoi_u64 b = Some n <-> b <> [] /\ Forall is_digit b /\ n = dec_val b /\ n <= u64_max).
Proof.
  intros Hb. unfold atoi_u64. destruct b as [|c b]; [naive_solver|].
  rewrite atoi_loop_spec by (done || zlia). naive_solver lia.
Qed.

Lemma atoi_digits b n :
  is_bytes b -> b <> [] ->
  atoi_loop b 0 = Some n <-> Forall is_digit b /\ n = dec_val b /\ n <= u64_max.
Proof. intros Hb Hne. rewrite atoi_loop_spec by (done || zlia). naive_solver lia. Qed.

Lemma as_i64_neg n : 0 <= n <= i64_max + 1 -> as_i64 (wrapping_neg_u64 n) = - n.
Proof.
  intros Hn. unfold as_i64, wrapping_neg_u64. destruct (decide (n = 0)) as [->|H0]; [done|].
  rewrite <- (Z.mod_unique (- n) (2 ^ 64) (-1) (2 ^ 64 - n)) by zlia.
  destruct (Z.leb_spec (2 ^ 64 - n) i64_max); zlia.
Qed.

(** The sign and the digits of a signed number. *)
Definition signed (b : bytes) : bool * bytes :=
  match b with
  | c :: ds => if c =? 45 then (true, ds) else if c =? 43 then (false, ds) else (false, b)
  | [] => (false, [])
  end.

Lemma atoi_i64_signed b :
  atoi_i64 b =
  let '(neg, ds) := signed b in
  match ds with
  | [] => None
  | _ => n ← atoi_loop ds 0;
         if (neg : bool)
         then if decide (n > i64_max + 1) then None else Some (as_i64 (wrapping_neg_u64 n))
         else if decide (n <= i64_max) then Some n else None
  end.
Proof. by destruct b. Qed.

(** [atoi_i64] accepts exactly an optional sign followed by decimal digits whose
    signed value fits an [i64], the least one included, and returns that value. *)
Theorem atoi_i64_exact b n :
  is_bytes b ->
  let '(neg, ds) := signed b in
  let v := if neg : bool then - dec_val ds else dec_val ds in
  atoi_i64 b = Some n <-> ds <> [] /\ Forall is_digit ds /\ n = v /\ is_i64 v.
Proof.
  intros Hb. rewrite atoi_i64_signed.
  assert (is_bytes (signed b).2) as Hds.
  { destruct b as [|c b]; [done|]. apply Forall_cons in Hb as [Hc Hb]. simpl.
    repeat case_match; simpl; try done. by constructor. }
  destruct (signed b) as [neg ds]. simpl in Hds.
  destruct ds as [|d ds]; [naive_solver|]. set (l := d :: ds) in *.
  destruct (atoi_loop l 0) as [m|] eqn:Hm; cbn [mbind option_bind].
  - apply (atoi_digits l) in Hm as (Hf & -> & Hle); [|done..]. pose proof (dec_val_nonneg l Hf).
    destruct neg; [destruct (decide (dec_val l > i64_max + 1))|destruct (decide (dec_val l <= i64_max))];
      rewrite ?as_i64_neg by lia; (split; [|intros (_ & _ & -> & Hi)]); try done; try zlia;
      try (intros [= <-]; split_and!; [done..|zlia]).
  - split; [done|]. intros (_ & Hf & -> & Hi).
    assert (atoi_loop l 0 = Some (dec_val l)) as Hs; [|congruence].
    apply (atoi_digits l); [done..|]. pose proof (dec_val_nonneg l Hf).
    split_and!; [done..|]. destruct neg; zlia.
Qed.

Lemma digits_bytes b : Forall is_digit b -> is_bytes b.
Proof. intros H. eapply Forall_impl; [exact H|]. intros c. unfold is_digit. zlia. Qed.

Lemma atoi_show_u64 n : is_u64 n -> atoi_u64 (show_u64 n) = Some n.
Proof.
  intros Hn. destruct (show_u64_spec n Hn) as (Hne & Hd & Hv).
  unfold atoi_u64. destruct (show_u64 n) eqn:Hs; [done|]. rewrite <- Hs in *.
  apply atoi_digits; [by apply digits_bytes|by rewrite Hs|]. split_and!; [done..|zlia].
Qed.

Lemma atoi_show_i64 n : is_i64 n -> atoi_i64 (show_i64 n) = Some n.
Proof.
  intros Hn. rewrite atoi_i64_signed. unfold show_i64. destruct (Z.ltb_spec n 0) as [Hneg|Hpos].
  - destruct (show_u64_spec (- n)) as (Hne & Hd & Hv); [zlia|]. cbn [signed].
    rewrite Z.eqb_refl. destruct (show_u64 (- n)) as [|d ds] eqn:Hs; [done|]. rewrite <- Hs in *.
    assert (atoi_loop (show_u64 (- n)) 0 = Some (- n)) as ->.
    { apply atoi_digits; [by apply digits_bytes|by rewrite Hs|]. split_and!; [done..|zlia]. }
    cbn [mbind option_bind]. rewrite decide_False by zlia. rewrite as_i64_neg by zlia. f_equal. lia.
  - destruct (show_u64_spec n) as (Hne & Hd & Hv); [zlia|].
    destruct (show_u64 n) as [|d ds] eqn:Hs; [done|].
    apply Forall_cons in Hd as Hd'. destruct Hd' as [Hd0 _]. unfold is_digit in Hd0. cbn [signed].
    rewrite !(proj2 (Z.eqb_neq _ _)) by lia. rewrite <- Hs in *.
    assert (atoi_loop (show_u64 n) 0 = Some n) as ->.
    { apply atoi_digits; [by apply digits_bytes|by rewrite Hs|]. split_and!; [done..|zlia]. }
    cbn [mbind option_bind]. by rewrite decide_True by zlia.
Qed.

(** ** Parsing what was printed *)

Section RoundTrip.
Variable u : bytes -> bytes.
Hypothesis recased : forall b, make_ascii_uppercase (u b) = make_ascii_uppercase b.

Lemma recased_length b : length (u b) = length b.
Proof. by rewrite <- upper_length, recased, upper_length. Qed.

Lemma option_word n s :
  bool_decide (length (lit s) <= n)%nat = true -> make_ascii_uppercase (lit s) = lit s ->
  option_name n (u (lit s)) = Ok (lit s).
Proof.
  intros Hn Hs. apply bool_decide_eq_true in Hn. unfold option_name.
  rewrite recased_length, decide_True by done. by rewrite recased, Hs.
Qed.

Lemma parse_word s args :
  bool_decide (length (lit s) <= 16)%nat = true -> make_ascii_uppercase (lit s) = lit s ->
  parse (Array (word u s :: args)) = parse_name (u (lit s)) (lit s) args.
Proof.
  intros Hn Hs. apply bool_decide_eq_true in Hn. cbn [parse bulk word mbind result_bind].
  rewrite recased_length, decide_True by done. by rewrite recased, Hs.
Qed.

Lemma parse_u64_num n : is_u64 n -> parse_u64 (num n) = Ok n.
Proof. intros Hn. unfold parse_u64. simpl. by rewrite atoi_show_u64. Qed.

Lemma parse_i64_show n : is_i64 n -> parse_i64 (BulkString (show_i64 n)) = Ok n.
Proof. intros Hn. unfold parse_i64. simpl. by rewrite atoi_show_i64. Qed.

Lemma parse_relative_num n : is_u64 n -> n <> 0 -> parse_relative (num n) = Ok n.
Proof.
  intros Hn H0. unfold parse_relative. simpl. rewrite atoi_show_u64 by done. simpl.
  by rewrite decide_False.
Qed.

Lemma bulks_fmap ks : bulks (BulkString <$> ks) = Ok ks.
Proof. induction ks as [|k ks IH]; csimpl; [done|]. by rewrite IH. Qed.

Lemma bulk_pairs_bind ps :
  bulk_pairs (ps ≫= (fun p => [BulkString p.1; BulkString p.2])) = Ok ps.
Proof. induction ps as [|[k v] ps IH]; csimpl; [done|]. by rewrite IH. Qed.

(** Runs one iteration of an option loop on a printed option. *)
Ltac option_step :=
  cbn [bulk word mbind result_bind];
  rewrite option_word by reflexivity; cbn [mbind result_bind]; lit_eval;
  rewrite ?parse_relative_num, ?parse_u64_num
    by (match goal with H : _ |- _ => solve [apply H] end);
  cbn [bulk mbind result_bind].

Lemma set_ttl_step t rest a :
  ttl_wf t ->
  set_options (print_ttl u t ++ rest) a
  = set_options rest (mkSetArgs (Some t) (sa_condition a) (sa_get a) (sa_keep_ttl a) (sa_meta a)).
Proof. intros Hwf. destruct t; cbn [print_ttl app set_options]; option_step; done. Qed.

Definition print_condition (c : SetCondition) : list Value :=
  match c with
  | Always => [] | Nx => [word u "NX"] | Xx => [word u "XX"] | Rev n => [word u "REV"; num n]
  end.

Lemma set_condition_step c rest t g k m :
  match c with Rev n => is_u64 n | _ => True end ->
  set_options (print_condition c ++ rest) (mkSetArgs t Always g k m)
  = set_options rest (mkSetArgs t c g k m).
Proof. intros Hwf. destruct c; cbn [print_condition app set_options]; [done|option_step..]; done. Qed.

Lemma set_get_step (g : bool) rest t c k m :
  set_options ((if g then [word u "GET"] else []) ++ rest) (mkSetArgs t c false k m)
  = set_options rest (mkSetArgs t c g k m).
Proof. destruct g; cbn [app set_options]; [option_step|]; done. Qed.

Lemma set_keep_step (k : bool) rest t c g m :
  set_options ((if k then [word u "KEEPTTL"] else []) ++ rest) (mkSetArgs t c g false m)
  = set_options rest (mkSetArgs t c g k m).
Proof. destruct k; cbn [app set_options]; [option_step|]; done. Qed.

Lemma set_meta_step m t c g k :
  set_options (print_opt (fun m => [word u "META"; BulkString m]) m) (mkSetArgs t c g k None)
  = Ok (mkSetArgs t c g k m).
Proof. destruct m; cbn [print_opt set_options]; [option_step|]; done. Qed.

Lemma set_options_print a :
  opt_wf ttl_wf (sa_ttl a) -> match sa_condition a with Rev n => is_u64 n | _ => True end ->
  set_options (print_set_args u a) (mkSetArgs None Always false false None) = Ok a.
Proof.
  destruct a as [ttl cond get keep meta]. unfold print_set_args.
  cbn [sa_ttl sa_condition sa_get sa_keep_ttl sa_meta]. intros Ht Hc. fold (print_condition cond).
  destruct ttl as [t|]; cbn [print_opt app]; [rewrite set_ttl_step by done|];
    cbn [sa_ttl sa_condition sa_get sa_keep_ttl sa_meta];
    by rewrite set_condition_step, set_get_step, set_keep_step, set_meta_step.
Qed.

Lemma setrev_options_print o :
  opt_wf ttl_wf o -> setrev_options (print_opt (print_ttl u) o) None = Ok o.
Proof.
  intros Hwf. destruct o as [[]|]; cbn [print_opt print_ttl setrev_options]; [option_step..|]; done.
Qed.

Lemma is_since_word : is_since (u (lit "SINCE")) = true.
Proof.
  unfold is_since. rewrite recased_length, recased. apply andb_true_intro. split; [|reflexivity].
  apply bool_decide_eq_true. vm_compute. lia.
Qed.

Lemma getex_options_print o :
  opt_wf (fun g => match g with GetExSet t => ttl_wf t | GetExPersist => True end) o ->
  getex_options (print_opt (fun g => match g with
    | GetExSet t => print_ttl u t | GetExPersist => [word u "PERSIST"] end) o) None = Ok o.
Proof.
  intros Hwf. destruct o as [[[]|]|]; cbn [print_opt print_ttl getex_options]; [option_step..|]; done.
Qed.

Lemma scan_options_print p n :
  is_u64 n ->
  scan_options (print_opt (fun p => [word u "MATCH"; BulkString p]) p ++ [word u "COUNT"; num n])
    None 10 = Ok (p, n).
Proof.
  intros Hn. destruct p; cbn [print_opt app scan_options]; [option_step; cbn [scan_options]|];
    option_step; done.
Qed.

Lemma parse_watch_since ks n :
  ks <> [] -> is_u64 n ->
  parse_watch ((BulkString <$> ks) ++ [word u "SINCE"; num n]) = Ok (Watch ks (Some n)).
Proof.
  intros Hne Hn. set (args := _ ++ _).
  assert (length args = length ks + 2)%nat as Hlen
    by (unfold args; rewrite length_app, length_fmap; done).
  assert (parse_watch args =
    maybe_since ← bulk (nth (length args - 2) args Null);
    if is_since maybe_since then
      since ← parse_u64 (nth (length args - 1) args Null);
      keys ← bulks (take (length args - 2) args);
      Ok (Watch keys (Some since))
    else keys ← bulks args; Ok (Watch keys None)) as ->.
  { destruct ks as [|k ks]; [done|]. unfold args. destruct ks; reflexivity. }
  rewrite Hlen. replace (length ks + 2 - 2)%nat with (length (BulkString <$> ks))
    by (rewrite length_fmap; lia).
  replace (length ks + 2 - 1)%nat with (length (BulkString <$> ks) + 1)%nat
    by (rewrite length_fmap; lia).
  unfold args. rewrite take_app_length, app_nth2_plus, app_nth2 by lia. rewrite Nat.sub_diag.
  cbn [nth bulk word mbind result_bind]. rewrite is_since_word.
  rewrite parse_u64_num by done. cbn [mbind result_bind]. by rewrite bulks_fmap.
Qed.

Lemma parse_watch_plain ks :
  ks <> [] -> (forall k k', drop (length ks - 2) ks = [k; k'] -> is_since k = false) ->
  parse_watch (BulkString <$> ks) = Ok (Watch ks None).
Proof.
  intros Hne Hs. destruct ks as [|k0 [|k1 ks]]; [done|done|].
  set (l := k0 :: k1 :: ks) in *.
  assert (parse_watch (BulkString <$> l) =
    maybe_since ← bulk (nth (length (BulkString <$> l) - 2) (BulkString <$> l) Null);
    if is_since maybe_since then
      since ← parse_u64 (nth (length (BulkString <$> l) - 1) (BulkString <$> l) Null);
      keys ← bulks (take (length (BulkString <$> l) - 2) (BulkString <$> l));
      Ok (Watch keys (Some since))
    else keys ← bulks (BulkString <$> l); Ok (Watch keys None)) as -> by reflexivity.
  assert (exists k k', drop (length l - 2) l = [k; k']) as (k & k' & Hd).
  { assert (length (drop (length l - 2) l) = 2)%nat as H2 by (rewrite length_drop; simpl; lia).
    destruct (drop (length l - 2) l) as [|k [|k' [|]]]; try discriminate H2. eauto. }
  rewrite length_fmap.
  assert (nth (length l - 2) (BulkString <$> l) Null = BulkString k) as ->.
  { rewrite <- (take_drop (length l - 2) l) at 2. rewrite Hd, fmap_app, app_nth2;
      rewrite length_fmap, length_take; [|lia].
    replace (length l - 2 - _)%nat with 0%nat by lia. done. }
  cbn [bulk mbind result_bind]. rewrite (Hs k k' Hd), bulks_fmap. done.
Qed.

Lemma key_list_print cmd ks f : ks <> [] -> key_list cmd (BulkString <$> ks) f = Ok (f ks).
Proof. intros Hne. destruct ks as [|k ks]; [done|]. unfold key_list. by rewrite bulks_fmap. Qed.

Lemma parse_mset_print ps :
  ps <> [] ->
  parse_mset (ps ≫= (fun p => [BulkString p.1; BulkString p.2])) = Ok (MSet ps).
Proof.
  intros Hne. unfold parse_mset. rewrite bulk_pairs_bind.
  assert (length (ps ≫= (fun p => [BulkString p.1; BulkString p.2])) = 2 * length ps)%nat as ->.
  { clear. induction ps as [|p ps IH]; csimpl; [done|]. rewrite IH. lia. }
  rewrite Nat.even_mul. simpl. rewrite bool_decide_eq_false_2; [done|].
  destruct ps; [done|]. simpl. lia.
Qed.

Lemma parse_hello_print o :
  opt_wf is_u8 o -> parse_hello (print_opt (fun n => [num n]) o) = Ok (Hello o).
Proof.
  intros Ho. destruct o as [n|]; [|done]. cbn [print_opt parse_hello num bulk mbind result_bind].
  cbn [opt_wf] in Ho. rewrite atoi_show_u64 by zlia. cbn [ok_or mbind result_bind].
  by rewrite decide_True by zlia.
Qed.

Lemma parse_pwatch_print p o :
  opt_wf is_u64 o -> parse_pwatch (BulkString p :: print_since u o) = Ok (PWatch p o).
Proof.
  intros Ho. destruct o as [n|]; [|done].
  cbn [print_since print_opt parse_pwatch word bulk mbind result_bind].
  by rewrite is_since_word, parse_u64_num.
Qed.
End RoundTrip.

(** C39: Parsing inverts printing.  Every well-formed command is read back from its RESP
    form, whatever the letter case of its name and its options.  Well-formed ([wf]) means
    that numbers are in the range of their type, times to live are not zero, lists of
    keys and pairs are not empty, and a [WATCH] without [SINCE] does not have the word
    since as the last key but one, where it would be read as the option. *)
Theorem parse_print u c :
  (forall b, make_ascii_uppercase (u b) = make_ascii_uppercase b) -> wf c ->
  parse (print u c) = Ok c.
Proof.
  intros Hu Hwf. unfold print.
  destruct c; cbn [print_args]; try (destruct args);
    (rewrite parse_word by (exact Hu || reflexivity)); unfold parse_name; lit_eval;
    cbn [wf] in Hwf;
    try (unfold one_key, key_u64, key_i64, key_value; cbn [bulk mbind result_bind];
         rewrite ?parse_u64_num, ?parse_i64_show by done; reflexivity);
    try (by apply key_list_print).
  - destruct Hwf as [Ht Hc]. cbn [parse_set bulk mbind result_bind].
    by rewrite set_options_print.
  - by destruct pattern0.
  - cbn [parse_scan bulk mbind result_bind]. by rewrite scan_options_print.
  - by apply parse_mset_print.
  - cbn [parse_getex bulk mbind result_bind]. by rewrite getex_options_print.
  - by apply parse_hello_print.
  - by destruct message.
  - destruct Hwf as (Hne & Hs & Hp). destruct since as [n|].
    + by apply parse_watch_since.
    + cbn [print_since print_opt]. rewrite app_nil_r. apply parse_watch_plain; eauto.
  - by apply parse_pwatch_print.
  - destruct Hwf as [Hr Ht]. cbn [parse_setrev bulk mbind result_bind].
    rewrite parse_u64_num by done. cbn [mbind result_bind]. by rewrite setrev_options_print.
Qed.

(** The letter case of a command name does not matter: two spellings of it give the
    same result, or both are unknown. *)
Lemma parse_name_case n n' args :
  make_ascii_uppercase n = make_ascii_uppercase n' ->
  parse (Array (BulkString n :: args)) = parse (Array (BulkString n' :: args)) \/
  (parse (Array (BulkString n :: args)) = Err (UnknownCommand n) /\
   parse (Array (BulkString n' :: args)) = Err (UnknownCommand n')).
Proof.
  intros Hu. assert (length n = length n') as Hlen
    by (rewrite <- (upper_length n), Hu; apply upper_length).
  cbn [parse bulk mbind result_bind]. rewrite <- Hlen, <- Hu.
  destruct (decide (length n <= 16)%nat); [|by right]. unfold parse_name.
  repeat match goal with |- context [if ?c then _ else _] => destruct c; [by left|] end.
  by right.
Qed.

(** ** Witnesses *)

Lemma atoi_u64_exact_witness : atoi_u64 (lit "18446744073709551615") = Some u64_max.
Proof.
  apply (atoi_u64_exact (lit "18446744073709551615") u64_max).
  - apply (bool_decide_unpack _). vm_compute. exact I.
  - split_and!; [discriminate | apply (bool_decide_unpack _); vm_compute; exact I
      | vm_compute; reflexivity | lia].
Defined.

Lemma atoi_i64_exact_witness : atoi_i64 (lit "-9223372036854775808") = Some i64_min.
Proof.
  apply (atoi_i64_exact (lit "-9223372036854775808") i64_min).
  - apply (bool_decide_unpack _). vm_compute. exact I.
  - split_and!; [discriminate | apply (bool_decide_unpack _); vm_compute; exact I
      | vm_compute; reflexivity |].
    apply (bool_decide_unpack _). vm_compute. exact I.
Defined.

Definition byte_lower (c : Z) : Z := if (65 <=? c) && (c <=? 90) then c + 32 else c.

Lemma upper_lower b : make_ascii_uppercase (byte_lower <$> b) = make_ascii_uppercase b.
Proof.
  unfold make_ascii_uppercase. rewrite <- list_fmap_compose. apply list_fmap_ext.
  intros _ c _. unfold compose, byte_lower.
  destruct ((65 <=? c) && (c <=? 90)) eqn:H; [|done]. bool_to_prop. unfold byte_upper.
  destruct (Z.leb_spec 97 (c + 32)), (Z.leb_spec (c + 32) 122), (Z.leb_spec 97 c); simpl; lia.
Qed.

(** [set k v px 1500 rev 7 get keepttl meta m]. *)
Lemma parse_print_witness :
  parse (Array (BulkString <$>
    [lit "set"; lit "k"; lit "v"; lit "px"; lit "1500"; lit "rev"; lit "7"; lit "get";
     lit "keepttl"; lit "meta"; lit "m"]))
  = Ok (Set_ (lit "k") (lit "v")
      (mkSetArgs (Some (Millis 1500)) (Rev 7) true true (Some (lit "m")))).
Proof.
  refine (parse_print (fmap byte_lower) (Set_ (lit "k") (lit "v")
      (mkSetArgs (Some (Millis 1500)) (Rev 7) true true (Some (lit "m")))) upper_lower _).
  split; [split; [|discriminate]|]; apply (bool_decide_unpack _); vm_compute; exact I.
Defined.
