(* ===== verification/Glob.v ===== *)
(** * Glob patterns, [glob_match] of [crates/engine/src/store.rs]

    [KEYS] and [SCAN] filter keys with a greedy matcher that remembers the last
    star.  The file models the matcher with its fast paths, gives the meaning of a
    pattern as an inductive relation ([matches]) over the parsed tokens, and proves
    that the matcher decides it unless a star of the pattern is reached at a byte [*]
    of the key ([meets]); such a key can be missed ([star_key_missed]). *)

From stdpp Require Import base tactics list strings.
From Stdlib Require Import ZArith Lia.
From S2P Require Import Prelude Ascii.

Open Scope Z_scope.
Open Scope lit_scope.

(** ** [match_bracket] *)

(** The loop from the position of [rest], with [first] telling whether it is
    [class_start]; [None] when the pattern ends without a closing bracket. *)
Fixpoint bracket_loop (rest : bytes) (first : bool) (i : Z) (matched : bool) (ch : Z)
    : option (bool * Z) :=
  match rest with
  | [] => None
  | a :: rest1 =>
      if (a =? 93) && negb first then Some (matched, i + 1) else
      match rest1 with
      | d :: e :: rest3 =>
          if (d =? 45) && negb (e =? 93)
          then bracket_loop rest3 false (i + 3) (((a <=? ch) && (ch <=? e)) || matched) ch
          else bracket_loop rest1 false (i + 1) ((ch =? a) || matched) ch
      | _ => bracket_loop rest1 false (i + 1) ((ch =? a) || matched) ch
      end
  end.

(** [bracket] starts with [[]; the result is the outcome and the bytes consumed. *)
Definition match_bracket (bracket : bytes) (ch : Z) : bool * Z :=
  let rest := tail bracket in
  let negate := match rest with c :: _ => (c =? 94) || (c =? 33) | [] => false end in
  let '(rest, i) := if negate then (tail rest, 2) else (rest, 1) in
  match bracket_loop rest true i false ch with
  | None => (ch =? 91, 1)
  | Some (matched, i) => (if negate then negb matched else matched, i)
  end.

(** ** [glob_match] *)

(** Crate [memchr]: the position of the first of three bytes. *)
Class Memchr := {
  memchr3 : Z -> Z -> Z -> bytes -> option nat;
  memchr3_none : forall a b c h, memchr3 a b c h = None -> Forall (fun x => x <> a /\ x <> b /\ x <> c) h;
  memchr3_some : forall a b c h n, memchr3 a b c h = Some n ->
    (exists x, h !! n = Some x /\ (x = a \/ x = b \/ x = c)) /\
    Forall (fun x => x <> a /\ x <> b /\ x <> c) (take n h);
}.

(** The last loop and the final test. *)
Fixpoint only_stars (p : bytes) : bool :=
  match p with
  | c :: p => if c =? 42 then only_stars p else false
  | [] => true
  end.

(** The main loop.  [p] is [pattern[pi..]] and [s] is [s[si..]]; [star] holds
    [pattern[star_pi + 1..]] and [s[star_si..]].  [None] is lack of fuel. *)
Fixpoint glob_loop (fuel : nat) (p s : bytes) (star : option (bytes * bytes)) : option bool :=
  match s with
  | [] => Some (only_stars p)
  | c :: s' =>
      match fuel with
      | O => None
      | S fuel =>
          let backtrack :=
            match star with
            | Some (q, ss) => glob_loop fuel q (tail ss) (Some (q, tail ss))
            | None => Some false
            end in
          match p with
          | [] => backtrack
          | a :: p' =>
              if a =? 91 then
                let '(ok, consumed) := match_bracket p c in
                if ok then glob_loop fuel (drop (Z.to_nat consumed) p) s' star else backtrack
              else if (a =? 63) || (a =? c) then glob_loop fuel p' s' star
              else if a =? 42 then glob_loop fuel p' s (Some (p', s))
              else backtrack
          end
      end
  end.

(** Enough iterations: a backtrack shortens the string after the star, every other
    step the pattern. *)
Definition glob_fuel (p s : bytes) : nat := (length s + 2) * (length p + 1).

Definition glob_match `{Memchr} (pattern s : bytes) : option bool :=
  match memchr3 42 63 91 pattern with
  | None => Some (pattern =b s)
  | Some O => glob_loop (glob_fuel pattern s) pattern s None
  | Some n =>
      if decide (length s < n)%nat then Some false
      else if negb (take n s =b take n pattern) then Some false
      else if bool_decide (drop n pattern = [42]) then Some true
      else glob_loop (glob_fuel pattern s) (drop n pattern) (drop n s) None
  end.

(** ** The meaning of a pattern *)

(** A class: whether it is negated, its ranges, and the rest of the pattern. *)
Fixpoint class_ranges (rest : bytes) (first : bool) : option (list (Z * Z) * bytes) :=
  match rest with
  | [] => None
  | a :: rest1 =>
      if (a =? 93) && negb first then Some ([], rest1) else
      match rest1 with
      | d :: e :: rest3 =>
          if (d =? 45) && negb (e =? 93)
          then '(rs, rest) ← class_ranges rest3 false; Some ((a, e) :: rs, rest)
          else '(rs, rest) ← class_ranges rest1 false; Some ((a, a) :: rs, rest)
      | _ => '(rs, rest) ← class_ranges rest1 false; Some ((a, a) :: rs, rest)
      end
  end.

Definition in_ranges (rs : list (Z * Z)) (c : Z) : bool :=
  existsb (fun r => (r.1 <=? c) && (c <=? r.2)) rs.

Definition parse_class (rest : bytes) : option (bool * list (Z * Z) * bytes) :=
  match rest with
  | c :: rest' =>
      if (c =? 94) || (c =? 33)
      then '(rs, q) ← class_ranges rest' true; Some (true, rs, q)
      else '(rs, q) ← class_ranges rest true; Some (false, rs, q)
  | [] => None
  end.

(** The bytes that the first token of the pattern accepts, and the rest of the
    pattern; [None] for a star and at the end. *)
Definition single (p : bytes) : option ((Z -> bool) * bytes) :=
  match p with
  | [] => None
  | a :: p' =>
      if a =? 42 then None
      else if a =? 63 then Some (fun _ => true, p')
      else if a =? 91 then
        match parse_class p' with
        | None => Some (fun c => c =? 91, p')
        | Some (neg, rs, q) => Some (fun c => xorb neg (in_ranges rs c), q)
        end
      else Some (fun c => c =? a, p')
  end.

Inductive matches : bytes -> bytes -> Prop :=
| matches_nil : matches [] []
| matches_skip p s : matches p s -> matches (42 :: p) s
| matches_take p c s : matches (42 :: p) s -> matches (42 :: p) (c :: s)
| matches_one p f q c s : single p = Some (f, q) -> f c = true -> matches q s -> matches p (c :: s).

(** Reading the pattern along the key, some star of the pattern is reached just where
    the key has the byte [*].  The loop tests for an equal byte before it tests for a
    star, and so takes that star for a literal. *)
Inductive meets : bytes -> bytes -> Prop :=
| meets_here p s : meets (42 :: p) (42 :: s)
| meets_later p s t : suffix t s -> meets p t -> meets (42 :: p) s
| meets_one p f q c s : single p = Some (f, q) -> f c = true -> meets q s -> meets p (c :: s).

(** ** Classes *)

(** What one iteration of the loop that consumed [n] bytes contributes. *)
Definition class_spec (rest : bytes) (first : bool) : Prop :=
  match class_ranges rest first with
  | None => forall i m ch, bracket_loop rest first i m ch = None
  | Some (rs, q) => exists k, (0 < k <= length rest)%nat /\ q = drop k rest /\
      forall i m ch, bracket_loop rest first i m ch = Some (in_ranges rs ch || m, i + Z.of_nat k)
  end.

Lemma class_spec_step n a rest lo hi first :
  drop n (a :: rest) = drop (n - 1) rest -> (0 < n <= S (length rest))%nat ->
  class_spec (drop (n - 1) rest) false ->
  class_ranges (a :: rest) first
    = ('(rs, q) ← class_ranges (drop (n - 1) rest) false; Some ((lo, hi) :: rs, q)) ->
  (forall i m ch, bracket_loop (a :: rest) first i m ch
    = bracket_loop (drop (n - 1) rest) false (i + Z.of_nat n) (((lo <=? ch) && (ch <=? hi)) || m) ch) ->
  class_spec (a :: rest) first.
Proof.
  intros Hd Hn IH Hc Hb. unfold class_spec in *. rewrite Hc.
  destruct (class_ranges (drop (n - 1) rest) false) as [[rs q]|]; cbn [mbind option_bind].
  - destruct IH as (k & Hk & -> & Hl). exists (n + k)%nat.
    rewrite length_drop in Hk. split_and!; [lia | simpl; lia | |].
    + rewrite <- drop_drop, Hd. done.
    + intros i m ch. rewrite Hb, Hl. f_equal. f_equal; [|lia].
      change (in_ranges ((lo, hi) :: rs) ch)
        with (((lo <=? ch) && (ch <=? hi)) || in_ranges rs ch).
      by destruct ((lo <=? ch) && (ch <=? hi)), (in_ranges rs ch), m.
  - intros i m ch. by rewrite Hb.
Qed.

Lemma class_spec_all rest first : class_spec rest first.
Proof.
  remember (length rest) as n eqn:Hn. revert rest first Hn.
  induction (lt_wf n) as [n _ IH]. intros [|a rest1] first ->; [done|].
  assert (IH' : forall k, class_spec (drop k rest1) false).
  { intros k. eapply IH; [|done]. simpl. rewrite length_drop. lia. }
  destruct ((a =? 93) && negb first) eqn:Hclose.
  { unfold class_spec. cbn [class_ranges bracket_loop]. rewrite Hclose.
    exists 1%nat. split_and!; [lia|simpl; lia|done|done]. }
  assert (Hone : forall m ch, ((ch =? a) || m) = (((a <=? ch) && (ch <=? a)) || m)).
  { intros m ch. f_equal. destruct (Z.eqb_spec ch a), (Z.leb_spec a ch), (Z.leb_spec ch a);
      simpl; try done; lia. }
  destruct rest1 as [|d [|e rest3]].
  - apply (class_spec_step 1 a [] a a); [done|simpl; lia|apply (IH' 0%nat)| |];
      intros; cbn [class_ranges bracket_loop]; rewrite Hclose; [done|]. by rewrite ?Hone.
  - apply (class_spec_step 1 a [d] a a); [done|simpl; lia|apply (IH' 0%nat)| |];
      intros; cbn [class_ranges bracket_loop]; rewrite Hclose; [done|]. by rewrite ?Hone.
  - destruct ((d =? 45) && negb (e =? 93)) eqn:Hrange.
    + apply (class_spec_step 3 a (d :: e :: rest3) a e); [done|simpl; lia|apply (IH' 2%nat)| |];
        intros; cbn [class_ranges bracket_loop]; rewrite Hclose, Hrange; done.
    + apply (class_spec_step 1 a (d :: e :: rest3) a a); [done|simpl; lia|apply (IH' 0%nat)| |];
        intros; cbn [class_ranges bracket_loop]; rewrite Hclose, Hrange; [done|].
      by rewrite ?Hone.
Qed.

(** The matcher of a class accepts what the parsed class says. *)
Lemma match_bracket_spec p : forall c,
  exists f q, single (91 :: p) = Some (f, q) /\ (match_bracket (91 :: p) c).1 = f c /\
    drop (Z.to_nat (match_bracket (91 :: p) c).2) (91 :: p) = q /\
    0 < (match_bracket (91 :: p) c).2.
Proof.
  intros c. unfold single, parse_class, match_bracket. cbn [tail].
  change (91 =? 42) with false. change (91 =? 63) with false. change (91 =? 91) with true. cbv iota.
  destruct p as [|a p]; [by do 2 eexists|].
  destruct ((a =? 94) || (a =? 33)); cbn [tail].
  - pose proof (class_spec_all p true) as Hs. unfold class_spec in Hs.
    destruct (class_ranges p true) as [[rs q]|]; cbn [mbind option_bind].
    + destruct Hs as (k & Hk & -> & Hl). rewrite Hl. do 2 eexists. split; [done|].
      simpl. rewrite orb_false_r. split_and!; [done| |lia].
      replace (Z.to_nat (2 + Z.of_nat k)) with (S (S k)) by lia. done.
    + rewrite Hs. by do 2 eexists.
  - pose proof (class_spec_all (a :: p) true) as Hs. unfold class_spec in Hs.
    destruct (class_ranges (a :: p) true) as [[rs q]|]; cbn [mbind option_bind].
    + destruct Hs as (k & Hk & -> & Hl). rewrite Hl. do 2 eexists. split; [done|].
      simpl. rewrite orb_false_r. split_and!; [by destruct (in_ranges rs c)| |lia].
      replace (Z.to_nat (1 + Z.of_nat k)) with (S k) by lia. done.
    + rewrite Hs. by do 2 eexists.
Qed.

(** ** What the loop keeps *)

Lemma single_shorter p f q : single p = Some (f, q) -> (length q < length p)%nat.
Proof.
  destruct p as [|a p]; [done|]. unfold single.
  destruct (a =? 42) eqn:H42; [done|]. destruct (a =? 63) eqn:H63; [intros [= _ <-]; simpl; lia|].
  destruct (Z.eqb_spec a 91) as [->|Hne]; [|intros [= _ <-]; simpl; lia].
  destruct (match_bracket_spec p 0) as (f' & q' & Hs & _ & Hd & Hpos). unfold single in Hs.
  change (91 =? 42) with false in Hs. change (91 =? 63) with false in Hs.
  change (91 =? 91) with true in Hs. cbv iota in Hs. rewrite Hs. intros [= _ <-].
  rewrite <- Hd. rewrite length_drop. cbn [length]. lia.
Qed.

(** The pattern [p] is what is left of [q] after [k] single tokens. *)
Inductive singles : nat -> bytes -> bytes -> Prop :=
| singles_0 p : singles 0 p p
| singles_S k q p f r : singles k q p -> single p = Some (f, r) -> singles (S k) q r.

Lemma matches_single p f q s :
  single p = Some (f, q) -> matches p s -> exists c s', s = c :: s' /\ f c = true /\ matches q s'.
Proof.
  intros Hs H. destruct H as [|p s H|p c s H|p f' q' c s Hs' Hf H]; try (by vm_compute in Hs).
  rewrite Hs in Hs'. injection Hs' as <- <-. eauto.
Qed.

Lemma matches_singles k q p t :
  singles k q p -> matches q t -> (k <= length t)%nat /\ matches p (drop k t).
Proof.
  induction 1 as [p|k q p f r Hs IH Hp]; intros Hm; [split; [lia|done]|].
  destruct (IH Hm) as [Hlen Hm'].
  destruct (matches_single _ _ _ _ Hp Hm') as (c & s' & Heq & _ & Hr).
  assert (length (drop k t) = S (length s')) as Hl by (by rewrite Heq).
  rewrite length_drop in Hl. split; [lia|].
  replace (S k) with (k + 1)%nat by lia. rewrite <- drop_drop, Heq. done.
Qed.

(** A star matches what a suffix of the string matches. *)
Lemma matches_star_suffix p s t : matches (42 :: p) t -> suffix t s -> matches (42 :: p) s.
Proof.
  intros Hm [u ->]. induction u as [|c u IH]; [done|]. by apply matches_take.
Qed.

Lemma matches_star_inv p s : matches (42 :: p) s -> exists t, suffix t s /\ matches p t.
Proof.
  remember (42 :: p) as p0 eqn:Hp. induction 1 as [|p' s H IH|p' c s H IH|p' f q c s Hs Hf H IH];
    simplify_eq.
  - by exists s.
  - destruct IH as (t & Ht & Hm); [done|]. exists t. split; [|done]. by apply suffix_cons_r.
Qed.

Lemma matches_star_nil p : matches (42 :: p) [] <-> matches p [].
Proof.
  split; [|by apply matches_skip]. intros (t & Ht & Hm)%matches_star_inv.
  by apply suffix_nil_inv in Ht as ->.
Qed.

Lemma only_stars_matches p : only_stars p = true <-> matches p [].
Proof.
  induction p as [|a p IH]; simpl; [split; [constructor|done]|].
  destruct (Z.eqb_spec a 42) as [->|Hne].
  - by rewrite matches_star_nil.
  - split; [done|]. intros H. inversion H; simplify_eq.
Qed.

(** ** The loop *)

Definition backtrack (fuel : nat) (star : option (bytes * bytes)) : option bool :=
  match star with
  | Some (q, ss) => glob_loop fuel q (tail ss) (Some (q, tail ss))
  | None => Some false
  end.

(** One iteration on a token that is not a star. *)
Lemma glob_loop_single fuel p c s star f q :
  single p = Some (f, q) ->
  glob_loop (S fuel) p (c :: s) star
  = if f c then glob_loop fuel q s star else backtrack fuel star.
Proof.
  intros Hs. destruct p as [|a p]; [done|]. cbn [glob_loop].
  destruct (Z.eqb_spec a 91) as [->|Hne].
  - destruct (match_bracket_spec p c) as (f' & q' & Hs' & Hok & Hd & _).
    rewrite Hs in Hs'. injection Hs' as <- <-.
    destruct (match_bracket (91 :: p) c) as [ok consumed]. simpl in Hok, Hd. subst ok.
    rewrite Hd. done.
  - unfold single in Hs. apply Z.eqb_neq in Hne.
    destruct (a =? 42) eqn:H42; [done|]. destruct (a =? 63) eqn:H63.
    + by injection Hs as <- <-.
    + rewrite Hne in Hs. injection Hs as <- <-. rewrite (Z.eqb_sym c a). simpl.
      by destruct (a =? c).
Qed.

Lemma glob_loop_star fuel p c s star :
  c <> 42 ->
  glob_loop (S fuel) (42 :: p) (c :: s) star = glob_loop fuel p (c :: s) (Some (p, c :: s)).
Proof.
  intros Hc. cbn [glob_loop]. change (42 =? 91) with false. change (42 =? 63) with false.
  change (42 =? 42) with true. cbv iota. by rewrite (proj2 (Z.eqb_neq 42 c)).
Qed.

Lemma glob_loop_star_lit fuel p s star :
  glob_loop (S fuel) (42 :: p) (42 :: s) star = glob_loop fuel p s star.
Proof. reflexivity. Qed.

(** The three shapes of a pattern. *)
Lemma single_cases p : p = [] \/ (exists p', p = 42 :: p') \/ exists f q, single p = Some (f, q).
Proof.
  destruct p as [|a p]; [by left|right]. unfold single.
  destruct (Z.eqb_spec a 42) as [->|]; [left; eauto|right].
  destruct (a =? 63); [eauto|]. destruct (a =? 91); [|eauto].
  destruct (parse_class p) as [[[]]|]; eauto.
Qed.

Definition star_len (n : nat) (star : option (bytes * bytes)) : nat :=
  match star with Some (_, ss) => length ss | None => S n end.

(** The loop ends: enough fuel is one unit for each pair of a position of the star
    and a position in the pattern. *)
Lemma glob_loop_total N L fuel : forall p s star,
  (length p <= L)%nat -> (length s <= N)%nat ->
  match star with
  | Some (q, ss) => (length q <= L)%nat /\ (length s <= length ss <= N)%nat
  | None => True
  end ->
  (star_len N star * (L + 1) + length p + 1 <= fuel)%nat ->
  is_Some (glob_loop fuel p s star).
Proof.
  induction fuel as [|fuel IH]; intros p s star Hp Hs Hstar Hf; [lia|].
  destruct s as [|c s]; [by cbn; eauto|]. cbn [length] in Hs.
  assert (is_Some (backtrack fuel star)) as Hback.
  { destruct star as [[q ss]|]; simpl; [|eauto]. destruct Hstar as [Hq Hss].
    destruct ss as [|d ss]; [cbn [length] in Hss; lia|]. cbn [tail length star_len] in *.
    apply IH; [done|lia|split; lia|]. cbn [star_len]. lia. }
  destruct (single_cases p) as [->|[[p' ->]|(f & q & Hq)]].
  - exact Hback.
  - cbn [length] in Hp, Hf. destruct (decide (c = 42)) as [->|Hc].
    + rewrite glob_loop_star_lit. apply IH; [lia|lia| |lia].
      destruct star as [[q ss]|]; [|done]. cbn [length] in Hstar. split; lia.
    + rewrite glob_loop_star by done. apply IH; [lia|simpl; lia|split; simpl; lia|].
      assert (length (c :: s) <= star_len N star)%nat as Hle.
      { destruct star as [[q ss]|]; cbn [star_len length] in *; lia. }
      cbn [star_len]. nia.
  - rewrite (glob_loop_single _ _ _ _ _ _ _ Hq). pose proof (single_shorter _ _ _ Hq).
    destruct (f c); [|done]. apply IH; [lia|lia| |lia].
    destruct star as [[q' ss]|]; [|done]. cbn [length] in Hstar. split; lia.
Qed.

(** Accepting is right, for any string. *)
Lemma glob_loop_sound (G : Prop) fuel : forall p s star,
  (matches p s -> G) ->
  match star with Some (q, ss) => matches (42 :: q) ss -> G | None => True end ->
  glob_loop fuel p s star = Some true -> G.
Proof.
  induction fuel as [|fuel IH]; intros p s star Hp Hstar H.
  { destruct s; [|done]. injection H as H. by apply Hp, only_stars_matches. }
  destruct s as [|c s]; [injection H as H; by apply Hp, only_stars_matches|].
  assert (backtrack fuel star = Some true -> G) as Hback.
  { destruct star as [[q ss]|]; simpl; [|done]. apply IH.
    - intros Hm. apply Hstar. eapply matches_star_suffix; [by apply matches_skip|].
      destruct ss; [done|]. by apply suffix_cons_r.
    - intros Hm. apply Hstar. eapply matches_star_suffix; [done|].
      destruct ss; [done|]. by apply suffix_cons_r. }
  destruct (single_cases p) as [->|[[p' ->]|(f & q & Hq)]].
  - by apply Hback.
  - destruct (decide (c = 42)) as [->|Hc].
    + rewrite glob_loop_star_lit in H. eapply IH; [|exact Hstar|exact H].
      intros Hm. by apply Hp, matches_take, matches_skip.
    + rewrite glob_loop_star in H by done.
      apply (IH p' (c :: s) (Some (p', c :: s))); [|exact Hp|exact H].
      intros Hm. by apply Hp, matches_skip.
  - rewrite (glob_loop_single _ _ _ _ _ _ _ Hq) in H. destruct (f c) eqn:Hfc; [|by apply Hback].
    eapply IH; [|exact Hstar|exact H]. intros Hm. apply Hp. by eapply matches_one.
Qed.

(** Rejecting is right when no star meets a star.  When a star was seen, the tokens
    after it have matched from its position on ([singles]), so that a match of the
    whole is a match at that position or at a later one. *)
Definition trying (q ss p s : bytes) : Prop :=
  exists k, singles k q p /\ (k <= length ss)%nat /\ s = drop k ss /\ (matches q ss -> matches p s).

Lemma trying_refl q ss : trying q ss q ss.
Proof. exists 0%nat. split_and!; [constructor|lia|done|done]. Qed.

Lemma trying_step q ss p f r c s :
  trying q ss p (c :: s) -> single p = Some (f, r) -> trying q ss r s.
Proof.
  intros (k & Hk & Hle & Hs & Hm) Hp. exists (S k).
  assert (length (drop k ss) = S (length s)) as Hl by (by rewrite <- Hs).
  rewrite length_drop in Hl. split_and!; [by econstructor|lia| |].
  - replace (S k) with (k + 1)%nat by lia. by rewrite <- drop_drop, <- Hs.
  - intros H. destruct (matches_single _ _ _ _ Hp (Hm H)) as (c' & s' & [= <- <-] & _ & Hr). done.
Qed.

(** A match of the star at a suffix of [ss] is a match of what is left at a suffix of [s]. *)
Lemma trying_suffix q ss p s t :
  trying q ss p s -> suffix t ss -> matches q t -> exists t', suffix t' s /\ matches p t'.
Proof.
  intros (k & Hk & Hle & -> & _) [u ->] Hm.
  destruct (matches_singles _ _ _ _ Hk Hm) as [Hlen Hp]. exists (drop k t). split; [|done].
  exists (take (length (drop k (u ++ t)) - length (drop k t)) (drop k (u ++ t))).
  rewrite <- (take_drop (length (drop k (u ++ t)) - length (drop k t)) (drop k (u ++ t))) at 1.
  f_equal. rewrite drop_drop, !length_drop, length_app.
  replace (k + (length u + length t - k - (length t - k)))%nat with (length u + k)%nat by lia.
  rewrite <- drop_drop. by rewrite drop_app_length.
Qed.

Lemma suffix_tail (t ss : bytes) : suffix t ss -> t = ss \/ suffix t (tail ss).
Proof.
  intros [[|c u] ->]; [by left|right]. simpl. by exists u.
Qed.

Lemma suffix_of_tail (ss : bytes) : suffix (tail ss) ss.
Proof. destruct ss as [|c ss]; [done|]. by exists [c]. Qed.

(** No star of what is left to try is reached at a star byte. *)
Definition apart (p s : bytes) (star : option (bytes * bytes)) : Prop :=
  ~ meets p s /\
  match star with Some (q, ss) => forall t, suffix t ss -> ~ meets q t | None => True end.

Lemma apart_back p s q ss : apart p s (Some (q, ss)) -> apart q (tail ss) (Some (q, tail ss)).
Proof.
  intros [_ Ha]. split; [apply Ha, suffix_of_tail|]. intros t Ht. apply Ha.
  etrans; [exact Ht|apply suffix_of_tail].
Qed.

Lemma apart_one p f q c s star :
  apart p (c :: s) star -> single p = Some (f, q) -> f c = true -> apart q s star.
Proof. intros [Hn Ha] Hp Hf. split; [|done]. intros Hm. by eapply Hn, meets_one. Qed.

Lemma apart_star p c s star :
  apart (42 :: p) (c :: s) star -> c <> 42 /\ apart p (c :: s) (Some (p, c :: s)).
Proof.
  intros [Hn _]. split; [intros ->; apply Hn, meets_here|].
  assert (forall t, suffix t (c :: s) -> ~ meets p t) as Ha.
  { intros t Ht Hm. by eapply Hn, meets_later. }
  split; [by apply Ha|exact Ha].
Qed.

Definition waiting (G : Prop) (p s : bytes) (star : option (bytes * bytes)) : Prop :=
  match star with
  | Some (q, ss) => trying q ss p s /\ (G -> matches (42 :: q) ss)
  | None => G -> matches p s
  end.

(** Nothing of the string is left. *)
Lemma waiting_nil G p star : waiting G p [] star -> G -> matches p [].
Proof.
  destruct star as [[q ss]|]; [|done]. intros (Ht & HG) (t & Hs & Hm)%HG%matches_star_inv.
  destruct (trying_suffix _ _ _ _ _ Ht Hs Hm) as (t' & ->%suffix_nil_inv & Hp). done.
Qed.

(** The current position of the star is ruled out. *)
Lemma waiting_back G p s q ss :
  waiting G p s (Some (q, ss)) -> ~ matches p s -> waiting G q (tail ss) (Some (q, tail ss)).
Proof.
  intros (Ht & HG) Hno. split; [apply trying_refl|].
  intros (t & Hs & Hm)%HG%matches_star_inv. apply suffix_tail in Hs as [->|Hs].
  - destruct Ht as (k & _ & _ & _ & Hq). by destruct Hno; apply Hq.
  - eapply matches_star_suffix; [by apply matches_skip|done].
Qed.

Lemma glob_loop_complete (G : Prop) fuel : forall p s star,
  apart p s star -> waiting G p s star ->
  glob_loop fuel p s star = Some false -> ~ G.
Proof.
  induction fuel as [|fuel IH]; intros p s star Ha Hw H HG;
    (destruct s as [|c s]; [injection H as H; apply (waiting_nil _ _ _ Hw), only_stars_matches in HG;
                            congruence|]); [done|].
  assert (~ matches p (c :: s) -> backtrack fuel star = Some false -> False) as Hback.
  { intros Hno Hb. destruct star as [[q ss]|]; [|by apply Hno, Hw].
    eapply IH; [by eapply apart_back|by eapply waiting_back|exact Hb|exact HG]. }
  destruct (single_cases p) as [->|[[p' ->]|(f & q & Hq)]].
  - apply Hback; [|done]. intros Hm. inversion Hm; simplify_eq.
  - apply apart_star in Ha as [Hc Ha]. rewrite glob_loop_star in H by done.
    eapply IH; [exact Ha| |exact H|exact HG].
    split; [apply trying_refl|]. intros _. destruct star as [[q ss]|]; [|by apply Hw].
    destruct Hw as (Ht & HGs). destruct (matches_star_inv _ _ (HGs HG)) as (t & Hsuf & Hm).
    destruct (trying_suffix _ _ _ _ _ Ht Hsuf Hm) as (t' & Hs' & Hp).
    by eapply matches_star_suffix.
  - rewrite (glob_loop_single _ _ _ _ _ _ _ Hq) in H. destruct (f c) eqn:Hfc.
    + eapply IH; [by eapply apart_one| |exact H|exact HG]. destruct star as [[q' ss]|].
      * destruct Hw as (Ht & HGs). split; [by eapply trying_step|done].
      * intros HG'. destruct (matches_single _ _ _ _ Hq (Hw HG')) as (c' & s' & [= <- <-] & _ & Hr). done.
    + apply Hback; [|done]. intros Hm.
      destruct (matches_single _ _ _ _ Hq Hm) as (c' & s' & [= <- <-] & Hf & _). congruence.
Qed.

(** Stars meet only where both sides have one. *)
Lemma class_ranges_rest rest : forall first rs q, class_ranges rest first = Some (rs, q) -> suffix q rest.
Proof.
  intros first rs q Hc. pose proof (class_spec_all rest first) as Hs. unfold class_spec in Hs.
  rewrite Hc in Hs. destruct Hs as (k & _ & -> & _). apply suffix_drop.
Qed.

Lemma single_rest p f q : single p = Some (f, q) -> suffix q p.
Proof.
  destruct p as [|a p]; [done|]. unfold single.
  destruct (a =? 42); [done|]. destruct (a =? 63); [intros [= _ <-]; by apply suffix_cons_r|].
  destruct (a =? 91); [|intros [= _ <-]; by apply suffix_cons_r].
  destruct (parse_class p) as [[[neg rs] r]|] eqn:Hp; intros [= _ <-]; apply suffix_cons_r; [|done].
  unfold parse_class in Hp. destruct p as [|d p]; [done|].
  destruct ((d =? 94) || (d =? 33)); apply bind_Some in Hp as ([rs' q'] & Hc%class_ranges_rest & [= _ _ <-]);
    [by apply suffix_cons_r|done].
Qed.

Lemma meets_stars p s : meets p s -> 42 ∈ p /\ 42 ∈ s.
Proof.
  induction 1 as [p s|p s t [u ->] _ [IHp IHs]|p f q c s [u ->]%single_rest _ _ [IHp IHs]].
  - split; apply list_elem_of_here.
  - split; [by apply list_elem_of_here|]. apply elem_of_app. by right.
  - split; [apply elem_of_app; by right|by apply list_elem_of_further].
Qed.

(** ** The fast paths *)

Definition is_meta (c : Z) : bool := (c =? 42) || (c =? 63) || (c =? 91).

Lemma single_lit a p : is_meta a = false -> single (a :: p) = Some (fun c => c =? a, p).
Proof.
  intros H. apply orb_false_iff in H as [[H1 H2]%orb_false_iff H3]. unfold single.
  by rewrite H1, H2, H3.
Qed.

Lemma matches_lit a p s : is_meta a = false -> matches (a :: p) s <-> exists s', s = a :: s' /\ matches p s'.
Proof.
  intros Ha. apply (single_lit a p) in Ha. split.
  - intros (c & s' & -> & Hc & Hm)%(matches_single _ _ _ _ Ha). apply Z.eqb_eq in Hc as ->. eauto.
  - intros (s' & -> & Hm). eapply matches_one; [exact Ha|apply Z.eqb_refl|done].
Qed.

Lemma literal_meta a : a <> 42 /\ a <> 63 /\ a <> 91 -> is_meta a = false.
Proof. unfold is_meta. lia. Qed.

(** A pattern without a metacharacter. *)
Lemma matches_literal p s : Forall (fun x => x <> 42 /\ x <> 63 /\ x <> 91) p -> matches p s <-> p = s.
Proof.
  intros H. revert s. induction H as [|a p Ha%literal_meta _ IH]; intros s.
  - split; [intros Hm; inversion Hm; simplify_eq; done|intros <-; constructor].
  - rewrite matches_lit by done. split.
    + intros (s' & -> & ->%IH); done.
    + intros <-. exists p. split; [done|]. by apply IH.
Qed.

(** The literal prefix before the first metacharacter. *)
Lemma matches_prefix p s n :
  (n <= length p)%nat -> Forall (fun x => x <> 42 /\ x <> 63 /\ x <> 91) (take n p) ->
  matches p s <-> (n <= length s)%nat /\ take n s = take n p /\ matches (drop n p) (drop n s).
Proof.
  revert p s. induction n as [|n IH]; intros p s Hn H.
  { rewrite !drop_0, !take_0. split; [intros; split_and!; [lia|done|done]|]. by intros (_ & _ & ?). }
  destruct p as [|a p]; [simpl in Hn; lia|]. simpl in Hn, H.
  apply Forall_cons in H as [Ha%literal_meta H]. rewrite matches_lit by done. split.
  - intros (s' & -> & (Hl & Ht & Hd)%IH); [|lia|done]. simpl. split_and!; [lia|by rewrite Ht|done].
  - intros (Hl & Ht & Hd). destruct s as [|c s]; [simpl in Hl; lia|].
    simpl in Ht. injection Ht as -> Ht. exists s. split; [done|].
    apply IH; [lia|done|]. simpl in Hl, Hd. split_and!; [lia|done|done].
Qed.

Lemma meets_prefix p s n :
  Forall (fun x => x <> 42 /\ x <> 63 /\ x <> 91) (take n p) -> take n s = take n p ->
  meets (drop n p) (drop n s) -> meets p s.
Proof.
  revert p s. induction n as [|n IH]; intros p s H Ht Hm; [by rewrite !drop_0 in Hm|].
  destruct p as [|a p], s as [|c s]; try done. injection Ht as -> Ht.
  apply Forall_cons in H as [Ha%literal_meta H].
  eapply meets_one; [by apply single_lit|apply Z.eqb_refl|]. by apply IH.
Qed.

Lemma memchr3_Some `{Memchr} p s n :
  memchr3 42 63 91 p = Some n ->
  matches p s <-> (n <= length s)%nat /\ take n s = take n p /\ matches (drop n p) (drop n s).
Proof.
  intros [(x & Hx%lookup_lt_Some & _) Hl]%memchr3_some. apply matches_prefix; [lia|done].
Qed.

Lemma matches_all s : matches [42] s.
Proof. eapply matches_star_suffix; [apply matches_skip; constructor|]. exists s. by rewrite app_nil_r. Qed.

Lemma glob_loop_correct fuel p s :
  (glob_fuel p s <= fuel)%nat ->
  exists b, glob_loop fuel p s None = Some b /\ (b = true -> matches p s) /\
    (~ meets p s -> matches p s -> b = true).
Proof.
  intros Hf. destruct (glob_loop_total (length s) (length p) fuel p s None) as [b Hb];
    [lia|lia|done|unfold glob_fuel in Hf; cbn [star_len]; nia|].
  exists b. split; [done|]. split.
  - intros ->. by eapply (glob_loop_sound (matches p s)); [| |exact Hb].
  - intros Hn Hm. destruct b; [done|].
    by destruct (glob_loop_complete (matches p s) fuel p s None (conj Hn I) (fun H => H) Hb).
Qed.

(** C40: The matcher always answers; when it accepts, the pattern matches; and when the
    pattern matches it accepts, unless a star of the pattern is reached at a byte [*] of
    the key ([meets]).  That takes a star on both sides: a key without the byte [*] and a
    pattern without it are always decided. *)
Theorem glob_match_correct `{Memchr} (pattern s : bytes) :
  (exists b, glob_match pattern s = Some b /\
    (b = true -> matches pattern s) /\
    (~ meets pattern s -> matches pattern s -> b = true)) /\
  (meets pattern s -> 42 ∈ pattern /\ 42 ∈ s).
Proof.
  split; [|apply meets_stars].
  unfold glob_match. destruct (memchr3 42 63 91 pattern) as [n|] eqn:Hn.
  2: { eexists. split; [done|]. apply memchr3_none in Hn. rewrite bytes_eqb_spec, matches_literal; done. }
  pose proof (memchr3_Some _ s _ Hn) as Hm. apply memchr3_some in Hn as [_ Hlit].
  destruct n as [|n]; [by apply glob_loop_correct|]. set (k := S n) in *. clearbody k. setoid_rewrite Hm.
  destruct (decide (length s < k)%nat); [exists false; naive_solver lia|].
  destruct (take k s =b take k pattern) eqn:Ht; simpl.
  2: { exists false. split_and!; [done..|]. intros _ (_ & Heq & _).
       apply bytes_eqb_spec in Heq. congruence. }
  apply bytes_eqb_spec in Ht. case_bool_decide as Hd.
  { exists true. split_and!; [done| |done]. intros _. rewrite Hd. split_and!; [lia|done|apply matches_all]. }
  destruct (glob_loop_correct (glob_fuel pattern s) (drop k pattern) (drop k s))
    as (b & Hb & Hs & Hc).
  { unfold glob_fuel. rewrite !length_drop. apply Nat.mul_le_mono; lia. }
  exists b. split_and!; [done|intros Hbt; split_and!; [lia|done|by apply Hs]|].
  intros Hn (_ & _ & Hmd). apply Hc; [|done]. intros Hmeet. by apply Hn, (meets_prefix _ _ k).
Qed.

(** A key that contains a star can be missed: the pattern [*] matches every key, the
    matcher takes the star of the pattern for the literal byte and rejects [*a]. *)
Theorem star_key_missed `{Memchr} :
  matches (lit "*") (lit "*a") /\ glob_match (lit "*") (lit "*a") = Some false.
Proof.
  split; [apply matches_all|]. unfold glob_match.
  destruct (memchr3 42 63 91 (lit "*")) as [n|] eqn:Hn.
  - apply memchr3_some in Hn as [(x & Hx%lookup_lt_Some & _) _].
    change (length (lit "*")) with 1%nat in Hx. destruct n as [|n]; [vm_compute; reflexivity|lia].
  - apply memchr3_none, Forall_cons in Hn as [[Hn _] _]. by destruct Hn.
Qed.

(** ** A concrete [memchr3] *)

#[export] Program Instance memchr_list : Memchr := {
  memchr3 a b c h := fst <$> list_find (fun x => x = a \/ x = b \/ x = c) h
}.
Next Obligation.
  intros a b c h Hn%fmap_None%list_find_None. eapply Forall_impl; [exact Hn|]. simpl. tauto.
Qed.
Next Obligation.
  intros a b c h n Hn. apply fmap_Some in Hn as ([m x] & (Hx & Hm & Hf)%list_find_Some & ->).
  split; [eauto|]. apply Forall_lookup_2. intros i y [Hy Hi]%lookup_take_Some. simpl.
  specialize (Hf i y Hy Hi). tauto.
Qed.

(** The question mark takes a star byte of the key as any other: [a?[x-z]*] and [a*yb]. *)
Lemma glob_match_correct_witness :
  exists b, glob_match (lit "a?[x-z]*") (lit "a*yb") = Some b /\ b = true /\
    matches (lit "a?[x-z]*") (lit "a*yb").
Proof.
  destruct (glob_match_correct (lit "a?[x-z]*") (lit "a*yb")) as [(b & Hb & Hs & _) _].
  assert (b = true) as -> by (vm_compute in Hb; congruence). eauto.
Defined.
