(* ===== verification/Cache.v ===== *)
(** * The S3-FIFO cache, [crates/engine/src/cache.rs]

    [MemCache] keeps the entries in a map, their eviction order in two queues that
    may hold stale slots, and the keys that left the small queue in a bounded
    ghost set.  The file models every operation and proves that the byte count is
    the sum of the entries and never above the limit after a write, that the
    eviction loops end, and that a read returns what was last written for its key. *)

From stdpp Require Import base tactics list gmap.
From Stdlib Require Import ZArith Lia.
From S2P Require Import Prelude.

Open Scope Z_scope.

(** [metadata] is an [Option<Arc<serde_json::Value>>]; the cache only clones it. *)
Record CacheEntry (M : Type) := mkCE {
  ce_value : bytes;
  ce_expires_at_ms : option Z;
  ce_metadata : option M;
  ce_freq : Z;
  ce_size : Z;
  ce_revision : Z;
}.
Arguments mkCE {M}.
Arguments ce_value {M}.
Arguments ce_expires_at_ms {M}.
Arguments ce_metadata {M}.
Arguments ce_freq {M}.
Arguments ce_size {M}.
Arguments ce_revision {M}.

Module MemCache.
Section Cache.
Context {M : Type}.

Record t := mk {
  entries : gmap bytes (CacheEntry M);
  small : list bytes;
  main : list bytes;
  ghost : gset bytes;
  ghost_queue : list bytes;
  ghost_max : Z;
  current_bytes : Z;
  max_bytes : Z;
  stale_slots : Z;
}.

Definition set_entries (e : gmap bytes (CacheEntry M)) (c : t) : t :=
  mk e (small c) (main c) (ghost c) (ghost_queue c) (ghost_max c) (current_bytes c)
     (max_bytes c) (stale_slots c).
Definition set_small (q : list bytes) (c : t) : t :=
  mk (entries c) q (main c) (ghost c) (ghost_queue c) (ghost_max c) (current_bytes c)
     (max_bytes c) (stale_slots c).
Definition set_main (q : list bytes) (c : t) : t :=
  mk (entries c) (small c) q (ghost c) (ghost_queue c) (ghost_max c) (current_bytes c)
     (max_bytes c) (stale_slots c).
Definition set_ghost (g : gset bytes) (q : list bytes) (c : t) : t :=
  mk (entries c) (small c) (main c) g q (ghost_max c) (current_bytes c)
     (max_bytes c) (stale_slots c).
Definition set_bytes (b : Z) (c : t) : t :=
  mk (entries c) (small c) (main c) (ghost c) (ghost_queue c) (ghost_max c) b
     (max_bytes c) (stale_slots c).
Definition set_stale (n : Z) (c : t) : t :=
  mk (entries c) (small c) (main c) (ghost c) (ghost_queue c) (ghost_max c) (current_bytes c)
     (max_bytes c) n.

Definition new (max_bytes : Z) : t :=
  let ghost_max := Z.max (max_bytes / 640) 64 in
  mk ∅ [] [] ∅ [] ghost_max 0 max_bytes 0.

Definition set_freq (f : Z) (e : CacheEntry M) : CacheEntry M :=
  mkCE (ce_value e) (ce_expires_at_ms e) (ce_metadata e) f (ce_size e) (ce_revision e).

Definition expired (e : CacheEntry M) (now_ms : Z) : bool :=
  match ce_expires_at_ms e with Some ms => ms <=? now_ms | None => false end.

(** An expired entry is dropped by the read that finds it. *)
Definition get (self : t) (key : bytes) (now_ms : Z)
    : option (bytes * option Z * option M * Z) * t :=
  match entries self !! key with
  | None => (None, self)
  | Some entry =>
      if expired entry now_ms then
        (None, set_bytes (sat_sub (current_bytes self) (ce_size entry))
                 (set_entries (delete key (entries self)) self))
      else
        (Some (ce_value entry, ce_expires_at_ms entry, ce_metadata entry, ce_revision entry),
         set_entries (<[key := set_freq 1 entry]> (entries self)) self)
  end.

(** ** Eviction *)

(** The draining loop of [ghost_insert]. *)
Fixpoint ghost_drain (queue : list bytes) (set : gset bytes) (ghost_max : Z)
    : gset bytes * list bytes :=
  if decide (Z.of_nat (size set) >= ghost_max) then
    match queue with
    | old :: queue => ghost_drain queue (set ∖ {[old]}) ghost_max
    | [] => (set, [])
    end
  else (set, queue).

Definition ghost_insert (key : bytes) (self : t) : t :=
  let '(set, queue) := ghost_drain (ghost_queue self) (ghost self) (ghost_max self) in
  if decide (key ∈ set) then set_ghost set queue self
  else set_ghost ({[key]} ∪ set) (queue ++ [key]) self.

Definition ghost_remove (key : bytes) (self : t) : t :=
  set_ghost (ghost self ∖ {[key]}) (ghost_queue self) self.

(** Drops the entry of a key and its bytes. *)
Definition drop_entry (key : bytes) (entry : CacheEntry M) (self : t) : t :=
  set_bytes (sat_sub (current_bytes self) (ce_size entry))
    (set_entries (delete key (entries self)) self).

(** Phase 1 of [evict_one], with [queue] the rest of the small queue. *)
Fixpoint evict_small (queue : list bytes) (self : t) : bool * t :=
  match queue with
  | [] => (false, set_small [] self)
  | key :: queue =>
      match entries self !! key with
      | None => evict_small queue self
      | Some entry =>
          if decide (ce_freq entry > 0) then
            evict_small queue
              (set_main (main self ++ [key])
                 (set_entries (<[key := set_freq 0 entry]> (entries self)) self))
          else
            let self := set_small queue self in
            let self := set_entries (delete key (entries self)) self in
            let self := ghost_insert key self in
            (true, set_bytes (sat_sub (current_bytes self) (ce_size entry)) self)
      end
  end.

(** Phase 2.  Every iteration drops a slot or clears a frequency. *)
Fixpoint evict_main (fuel : nat) (self : t) : bool * t :=
  match main self, fuel with
  | [], _ => (false, self)
  | _, O => (false, self)
  | key :: queue, S fuel =>
      match entries self !! key with
      | None => evict_main fuel (set_main queue self)
      | Some entry =>
          if decide (ce_freq entry > 0) then
            evict_main fuel
              (set_main (queue ++ [key])
                 (set_entries (<[key := set_freq 0 entry]> (entries self)) self))
          else (true, drop_entry key entry (set_main queue self))
      end
  end.

Definition evict_one (self : t) : bool * t :=
  let '(evicted, self) := evict_small (small self) self in
  if evicted then (true, self)
  else evict_main (length (main self) + size (entries self)) self.

(** Every successful eviction removes an entry. *)
Fixpoint evict_loop (fuel : nat) (self : t) : t :=
  if decide (current_bytes self > max_bytes self) then
    match fuel with
    | O => self
    | S fuel =>
        let '(evicted, self) := evict_one self in
        if evicted then evict_loop fuel self else self
    end
  else self.

Definition evict_to_limit (self : t) : t := evict_loop (S (size (entries self))) self.

(** ** Writes *)

Definition entry_size (key value : bytes) (meta_size : Z) : Z :=
  Z.max (zlen key + zlen value + meta_size) 1.

(** The update of an entry in place, shared by [try_update] and [insert]. *)
Definition update_entry (key value : bytes) (expires_at_ms : option Z) (metadata : option M)
    (size revision : Z) (e : CacheEntry M) (self : t) : t :=
  let self := set_entries
    (<[key := mkCE value expires_at_ms metadata 1 size revision]> (entries self)) self in
  evict_to_limit (set_bytes (sat_sub (current_bytes self) (ce_size e) + size) self).

Definition try_update (self : t) (key value : bytes) (expires_at_ms : option Z)
    (metadata : option M) (meta_size revision : Z) : bool * t :=
  let size := entry_size key value meta_size in
  match entries self !! key with
  | None => (false, self)
  | Some e => (true, update_entry key value expires_at_ms metadata size revision e self)
  end.

Definition insert (self : t) (key value : bytes) (expires_at_ms : option Z)
    (metadata : option M) (meta_size revision : Z) : t :=
  let size := entry_size key value meta_size in
  match entries self !! key with
  | Some e => update_entry key value expires_at_ms metadata size revision e self
  | None =>
      let in_main := bool_decide (key ∈ ghost self) in
      let entry := mkCE value expires_at_ms metadata 0 size revision in
      let self := set_entries (<[key := entry]> (entries self)) self in
      let self := set_bytes (current_bytes self + size) self in
      let self :=
        if in_main then
          let self := ghost_remove key self in set_main (main self ++ [key]) self
        else set_small (small self ++ [key]) self in
      evict_to_limit self
  end.

(** ** Removal *)

Definition has_entry (self : t) (key : bytes) : bool := bool_decide (is_Some (entries self !! key)).

Definition compact_queues (self : t) : t :=
  set_stale 0
    (set_main (filter (fun k => is_Some (entries self !! k)) (main self))
      (set_small (filter (fun k => is_Some (entries self !! k)) (small self)) self)).

Definition compact_if_stale (self : t) : t :=
  let queue_len := zlen (small self) + zlen (main self) in
  if decide (stale_slots self > queue_len / 2) then compact_queues self else self.

Definition remove (self : t) (key : bytes) : t :=
  match entries self !! key with
  | None => self
  | Some entry =>
      let self := drop_entry key entry self in
      compact_if_stale (set_stale (stale_slots self + 1) self)
  end.

(** The sizes of all entries. *)
Definition total (m : gmap bytes (CacheEntry M)) : Z :=
  map_fold (fun _ e z => ce_size e + z) 0 m.

(** The entries that satisfy [P] go at once, [remove_by_prefix] and [sweep_expired]. *)
Definition drop_where (P : bytes * CacheEntry M -> Prop) `{!forall x, Decision (P x)} (self : t)
    : Z * t :=
  let gone := filter P (entries self) in
  let n := Z.of_nat (size gone) in
  let freed := total gone in
  let self := set_entries (filter (fun x => ~ P x) (entries self)) self in
  let self := if decide (freed > 0) then set_bytes (sat_sub (current_bytes self) freed) self else self in
  (n, if decide (n > 0) then compact_if_stale (set_stale (stale_slots self + n) self) else self).

Definition remove_by_prefix (self : t) (prefix : bytes) : t :=
  (drop_where (fun x => take (length prefix) x.1 = prefix) self).2.

Definition sweep_expired (self : t) (now_ms : Z) : Z * t :=
  drop_where (fun x => expired x.2 now_ms = true) self.

Definition len (self : t) : nat := size (entries self).
Definition is_empty (self : t) : bool := bool_decide (entries self = ∅).
Definition bytes_used (self : t) : Z := current_bytes self.

(** ** Sums *)

Lemma total_comm (j1 j2 : bytes) (z1 z2 : CacheEntry M) (y : Z) :
  ce_size z1 + (ce_size z2 + y) = ce_size z2 + (ce_size z1 + y).
Proof. lia. Qed.

Lemma total_insert m k e : m !! k = None -> total (<[k := e]> m) = ce_size e + total m.
Proof. intros Hk. unfold total. rewrite map_fold_insert_L; [done| |done]. intros; lia. Qed.

Lemma total_delete m k e : m !! k = Some e -> total m = ce_size e + total (delete k m).
Proof. intros Hk. unfold total. rewrite (map_fold_delete_L _ _ k e m); [done| |done]. intros; lia. Qed.

Lemma total_update m k e e' :
  m !! k = Some e -> total (<[k := e']> m) = total m - ce_size e + ce_size e'.
Proof.
  intros Hk. rewrite <- insert_delete_eq, total_insert by apply lookup_delete_eq.
  rewrite (total_delete m k e) by done. lia.
Qed.

Definition sized (m : gmap bytes (CacheEntry M)) : Prop :=
  forall k e, m !! k = Some e -> 1 <= ce_size e.

Lemma total_nonneg m : sized m -> 0 <= total m.
Proof.
  unfold total. apply (map_fold_weak_ind (fun z m => sized m -> 0 <= z)); [done|].
  intros k e m' z Hk IH Hs. specialize (Hs k e (lookup_insert_eq _ _ _)) as He.
  assert (sized m') as Hs'.
  { intros k' e' Hk'. apply (Hs k'). rewrite lookup_insert_ne; [done|]. intros ->. congruence. }
  specialize (IH Hs'). lia.
Qed.

Lemma total_size m k e : sized m -> m !! k = Some e -> ce_size e <= total m.
Proof.
  intros Hs Hk. rewrite (total_delete m k e Hk).
  assert (sized (delete k m)) as Hs'
    by (intros k' e' [_ Hk']%lookup_delete_Some; by eapply Hs).
  pose proof (total_nonneg _ Hs'). lia.
Qed.

Lemma total_filter (P : bytes * CacheEntry M -> Prop) `{!forall x, Decision (P x)} m :
  total m = total (filter P m) + total (filter (fun x => ~ P x) m).
Proof.
  induction m as [|k e m Hk IH] using map_ind.
  { by rewrite !map_filter_empty. }
  assert (filter P m !! k = None) by (apply map_lookup_filter_None; by left).
  assert (filter (fun x => ~ P x) m !! k = None) by (apply map_lookup_filter_None; by left).
  rewrite total_insert by done. destruct (decide (P (k, e))) as [HP|HP].
  - rewrite map_filter_insert_True, total_insert by done.
    rewrite map_filter_insert_False by tauto. rewrite delete_id by done. lia.
  - rewrite map_filter_insert_False by done. rewrite (delete_id m) by done.
    rewrite map_filter_insert_True, total_insert by done. lia.
Qed.

(** ** The invariant *)

Record inv (c : t) : Prop := {
  inv_bytes : current_bytes c = total (entries c);
  inv_sized : sized (entries c);
  inv_slots : forall k, is_Some (entries c !! k) -> k ∈ small c ++ main c;
  inv_max : 0 <= max_bytes c;
  inv_ghost_max : ghost_max c = Z.max (max_bytes c / 640) 64;
  inv_ghost : forall k, k ∈ ghost c -> k ∈ ghost_queue c;
  inv_ghost_size : Z.of_nat (size (ghost c)) <= ghost_max c;
}.

(** What a reader sees of an entry. *)
Definition data (e : CacheEntry M) : bytes * option Z * option M * Z :=
  (ce_value e, ce_expires_at_ms e, ce_metadata e, ce_revision e).

(** The entries of [c'] are among those of [c], up to their frequency. *)
Definition within (c' c : t) : Prop :=
  forall k e', entries c' !! k = Some e' -> exists e, entries c !! k = Some e /\ data e = data e'.

#[local] Instance within_refl : Reflexive within.
Proof. intros c k e' H. eauto. Qed.
#[local] Instance within_trans : Transitive within.
Proof.
  intros a b c Hab Hbc k e H. destruct (Hab k e H) as (e1 & H1 & D1).
  destruct (Hbc k e1 H1) as (e2 & H2 & D2). exists e2. split; [done|congruence].
Qed.

Lemma cache_inv_new max : 0 <= max -> inv (new max).
Proof.
  intros Hm. split; unfold new; cbn -[Z.max Z.div size]; try done.
  - intros k [e He]. by rewrite lookup_empty in He.
  - rewrite size_empty. lia.
Qed.

(** The drain leaves room for one key. *)
Lemma ghost_drain_spec queue : forall set gmax set' queue',
  0 < gmax -> (forall k, k ∈ set -> k ∈ queue) -> ghost_drain queue set gmax = (set', queue') ->
  Z.of_nat (size set') < gmax /\ forall k, k ∈ set' -> k ∈ queue'.
Proof.
  induction queue as [|old queue IH]; intros set gmax set' queue' Hg Hs H;
    cbn [ghost_drain] in H; destruct (decide _) as [Hge|Hlt]; try (injection H as <- <-; split; [lia|done]).
  - injection H as <- <-. split; [|done]. replace set with (∅ : gset bytes); [rewrite size_empty; lia|].
    symmetry. apply set_eq. intros k. split; [|by intros ?%not_elem_of_empty].
    intros Hk%Hs. by apply not_elem_of_nil in Hk.
  - eapply IH; [done| |exact H]. intros k [Hk Hne]%elem_of_difference.
    apply Hs, elem_of_cons in Hk as [->|Hk]; [|done]. by rewrite elem_of_singleton in Hne.
Qed.

Lemma ghost_insert_spec key c :
  0 < ghost_max c -> (forall k, k ∈ ghost c -> k ∈ ghost_queue c) ->
  exists g q, ghost_insert key c = set_ghost g q c /\
    Z.of_nat (size g) <= ghost_max c /\ forall k, k ∈ g -> k ∈ q.
Proof.
  intros Hg Hs. unfold ghost_insert.
  destruct (ghost_drain _ _ _) as [set queue] eqn:Hd.
  destruct (ghost_drain_spec _ _ _ _ _ Hg Hs Hd) as [Hlt Hin].
  case_decide as Hk; do 2 eexists; (split; [reflexivity|]); (split; [|]); try done; try lia.
  - rewrite size_union by set_solver. rewrite size_singleton. lia.
  - set_solver.
Qed.

(** ** Eviction keeps it *)

Lemma inv_touch c k e f :
  inv c -> entries c !! k = Some e ->
  let c' := set_entries (<[k := set_freq f e]> (entries c)) c in
  inv c' /\ within c' c /\ size (entries c') = size (entries c).
Proof.
  intros [] Hk c'. split_and!.
  - split; simpl; try done.
    + rewrite (total_update _ _ e) by done. simpl. lia.
    + intros k' e'. rewrite lookup_insert. case_decide as Hd; [|apply inv_sized0].
      intros [= <-]. simpl. by eapply inv_sized0.
    + intros k'. rewrite lookup_insert. case_decide as Hd; [|apply inv_slots0].
      subst k'. intros _. apply inv_slots0. eauto.
  - intros k' e'. simpl. rewrite lookup_insert. case_decide as Hd; [|eauto].
    subst k'. intros [= <-]. eauto.
  - simpl. apply map_size_insert_Some. eauto.
Qed.

(** Removing an entry, with any change of the queues that keeps the other keys. *)
Lemma inv_drop c k e q1 q2 g gq n :
  inv c -> entries c !! k = Some e ->
  (forall k', k' <> k -> k' ∈ small c ++ main c -> k' ∈ q1 ++ q2) ->
  Z.of_nat (size g) <= ghost_max c -> (forall k, k ∈ g -> k ∈ gq) ->
  let c' := mk (delete k (entries c)) q1 q2 g gq (ghost_max c)
              (sat_sub (current_bytes c) (ce_size e)) (max_bytes c) n in
  inv c' /\ within c' c /\ (size (entries c') < size (entries c))%nat.
Proof.
  intros [] Hk Hq Hg Hgq c'. split_and!.
  - split; simpl; try done.
    + rewrite inv_bytes0. pose proof (total_size _ _ _ inv_sized0 Hk).
      rewrite (total_delete _ _ _ Hk) at 1. rewrite (total_delete _ _ _ Hk) in H. unfold sat_sub. lia.
    + intros k' e' [_ Hk']%lookup_delete_Some. by eapply inv_sized0.
    + intros k' [e' [Hne Hk']%lookup_delete_Some]. apply Hq; [done|]. apply inv_slots0. eauto.
  - intros k' e'. simpl. intros [_ Hk']%lookup_delete_Some. eauto.
  - simpl. rewrite map_size_delete_Some by eauto.
    assert (size (entries c) <> 0%nat) by (apply map_size_ne_0_lookup; eauto). lia.
Qed.

Definition evicted_spec (c : t) (b : bool) (c' : t) : Prop :=
  inv c' /\ within c' c /\ max_bytes c' = max_bytes c /\
  if b then (size (entries c') < size (entries c))%nat else size (entries c') = size (entries c).

Lemma evict_small_spec queue : forall c b c',
  inv (set_small queue c) -> evict_small queue c = (b, c') ->
  evicted_spec c b c' /\ (b = false -> small c' = []).
Proof.
  induction queue as [|key queue IH]; intros c b c' Hi H; cbn [evict_small] in H.
  { injection H as <- <-. split; [|done]. split_and!; try done. intros k e He. eauto. }
  destruct (entries c !! key) as [entry|] eqn:Hk.
  - destruct (decide (ce_freq entry > 0)).
    + destruct (inv_touch _ key entry 0 Hi Hk) as (Hi1 & Hw & Hsz).
      eapply IH in H as [(Hi2 & Hw2 & Hm & Hs) Hsm].
      * split; [|done]. simpl in *. split_and!; [done| |done|by destruct b; rewrite <- Hsz].
        etransitivity; [exact Hw2|]. exact Hw.
      * destruct Hi1. split; try done. intros k Hk'. simpl in *.
        specialize (inv_slots0 k Hk'). set_solver.
    + injection H as <- <-. split; [|done]. cbn.
      destruct (ghost_insert_spec key (set_entries (delete key (entries c)) (set_small queue c)))
        as (g & q & -> & Hg & Hgq); [pose proof (inv_ghost_max _ Hi); simpl in *; lia|by destruct Hi|].
      cbn in *.
      destruct (inv_drop _ key entry queue (main c) g q (stale_slots c) Hi Hk) as (Hi1 & Hw & Hs);
        [set_solver|done|done|]. split_and!; done.
  - eapply IH; [|exact H]. destruct Hi. split; try done. simpl in *.
    intros k Hk'. specialize (inv_slots0 k Hk'). apply elem_of_cons in inv_slots0 as [->|Hin]; [|done].
    destruct Hk' as [e He]. congruence.
Qed.

(** The entries that have been read since their slot was last looked at. *)
Definition hot (c : t) : nat := size (filter (fun x => ce_freq x.2 > 0) (entries c)).

Lemma hot_touch c k e :
  entries c !! k = Some e -> ce_freq e > 0 ->
  hot (set_entries (<[k := set_freq 0 e]> (entries c)) c) = (hot c - 1)%nat /\ (0 < hot c)%nat.
Proof.
  intros Hk Hf. unfold hot. simpl. rewrite map_filter_insert_False by (simpl; lia).
  rewrite map_filter_delete.
  assert (is_Some (filter (fun x : bytes * CacheEntry M => ce_freq x.2 > 0) (entries c) !! k)) as Hs
    by (exists e; by apply map_lookup_filter_Some_2).
  rewrite map_size_delete_Some by done. split; [lia|].
  apply map_size_ne_0_lookup_2 in Hs. lia.
Qed.

Lemma evict_main_spec fuel : forall c b c',
  inv c -> small c = [] -> (length (main c) + hot c <= fuel)%nat -> evict_main fuel c = (b, c') ->
  evicted_spec c b c' /\ (b = false -> entries c' = ∅).
Proof.
  induction fuel as [|fuel IH]; intros c b c' Hi Hsm Hf H; cbn [evict_main] in H;
    destruct (main c) as [|key queue] eqn:Hmain.
  1,3: injection H as <- <-; split; [by split_and!|]; intros _; apply map_empty; intros k;
    apply eq_None_not_Some; intros Hk%(inv_slots _ Hi); rewrite Hsm, Hmain in Hk;
    by apply not_elem_of_nil in Hk.
  { simpl in Hf. lia. }
  simpl in Hf. destruct (entries c !! key) as [entry|] eqn:Hk.
  - destruct (decide (ce_freq entry > 0)) as [Hfr|Hfr].
    + destruct (inv_touch _ key entry 0 Hi Hk) as (Hi1 & Hw & Hsz).
      destruct (hot_touch c key entry Hk Hfr) as [Hh1 Hh2].
      eapply IH in H as [(Hi2 & Hw2 & Hm & Hs) He].
      * split; [|done]. simpl in *. split_and!; [done| |done|by destruct b; rewrite <- Hsz].
        etransitivity; [exact Hw2|exact Hw].
      * destruct Hi1. split; try done. simpl in *. intros k Hk'. specialize (inv_slots0 k Hk').
        rewrite Hsm, Hmain in *. set_solver.
      * done.
      * change (hot (set_main _ ?x)) with (hot x). rewrite Hh1. simpl. rewrite length_app. simpl. lia.
    + injection H as <- <-. split; [|done].
      destruct (inv_drop _ key entry [] queue (ghost c) (ghost_queue c) (stale_slots c) Hi Hk)
        as (Hi1 & Hw & Hs); [rewrite Hsm, Hmain; set_solver|by destruct Hi..|].
      assert (drop_entry key entry (set_main queue c) = mk (delete key (entries c)) [] queue (ghost c)
        (ghost_queue c) (ghost_max c) (sat_sub (current_bytes c) (ce_size entry)) (max_bytes c)
        (stale_slots c)) as -> by (rewrite <- Hsm; reflexivity).
      split_and!; done.
  - eapply IH in H as [(Hi2 & Hw2 & Hm & Hs) He]; [by split; [split_and!|]| |done|simpl in *; unfold hot in *; simpl; lia].
    destruct Hi. split; try done. simpl. rewrite Hsm in *. intros k Hk'.
    specialize (inv_slots0 k Hk'). rewrite Hmain in inv_slots0.
    apply elem_of_cons in inv_slots0 as [->|Hin]; [|done]. destruct Hk' as [e He']. congruence.
Qed.

Lemma hot_le c : (hot c <= size (entries c))%nat.
Proof. unfold hot. apply map_subseteq_size, map_filter_subseteq. Qed.

Lemma evict_one_spec c b c' :
  inv c -> evict_one c = (b, c') -> evicted_spec c b c' /\ (b = false -> entries c' = ∅).
Proof.
  intros Hi. unfold evict_one. destruct (evict_small (small c) c) as [b1 c1] eqn:H1.
  assert (inv (set_small (small c) c)) as Hi' by (by destruct c).
  destruct (evict_small_spec _ _ _ _ Hi' H1) as [(Hi1 & Hw1 & Hm1 & Hs1) Hsm].
  destruct b1; [intros [= <- <-]; by split; [split_and!|]|]. intros H2.
  apply evict_main_spec in H2 as [(Hi2 & Hw2 & Hm2 & Hs2) He]; [|done|by apply Hsm|].
  - split; [|done]. split_and!; [done|by etransitivity|congruence|].
    rewrite Hs1 in Hs2. done.
  - pose proof (hot_le c1). lia.
Qed.

(** The loop ends below the limit. *)
Lemma evict_loop_spec fuel : forall c,
  inv c -> (size (entries c) < fuel)%nat ->
  let c' := evict_loop fuel c in
  inv c' /\ within c' c /\ max_bytes c' = max_bytes c /\ current_bytes c' <= max_bytes c'.
Proof.
  induction fuel as [|fuel IH]; intros c Hi Hf; [lia|]. cbn [evict_loop].
  destruct (decide (current_bytes c > max_bytes c)) as [Hgt|Hle]; [|split_and!; [done..|lia]].
  destruct (evict_one c) as [b c1] eqn:H1.
  destruct (evict_one_spec _ _ _ Hi H1) as [(Hi1 & Hw1 & Hm1 & Hs1) He].
  destruct b.
  - destruct (IH c1 Hi1 ltac:(lia)) as (Hi2 & Hw2 & Hm2 & Hle).
    split_and!; [done|by etransitivity|congruence|done].
  - split_and!; [done..|]. rewrite (inv_bytes _ Hi1), He by done.
    unfold total. rewrite map_fold_empty. by destruct Hi1.
Qed.

Lemma evict_to_limit_spec c :
  inv c ->
  let c' := evict_to_limit c in
  inv c' /\ within c' c /\ max_bytes c' = max_bytes c /\ current_bytes c' <= max_bytes c'.
Proof. intros Hi. apply evict_loop_spec; [done|lia]. Qed.

(** ** Every operation *)

Inductive op :=
| Get (key : bytes) (now_ms : Z)
| TryUpdate (key value : bytes) (expires_at_ms : option Z) (metadata : option M)
    (meta_size revision : Z)
| Insert (key value : bytes) (expires_at_ms : option Z) (metadata : option M)
    (meta_size revision : Z)
| Remove (key : bytes)
| RemoveByPrefix (prefix : bytes)
| SweepExpired (now_ms : Z).

Definition run (o : op) (c : t) : t :=
  match o with
  | Get k now => (get c k now).2
  | TryUpdate k v exp md ms rev => (try_update c k v exp md ms rev).2
  | Insert k v exp md ms rev => insert c k v exp md ms rev
  | Remove k => remove c k
  | RemoveByPrefix p => remove_by_prefix c p
  | SweepExpired now => (sweep_expired c now).2
  end.

(** What was last written for each key: [try_update] writes when the key is there. *)
Definition written (o : op) (c : t) (w : gmap bytes (bytes * option Z * option M * Z))
    : gmap bytes (bytes * option Z * option M * Z) :=
  match o with
  | Insert k v exp md _ rev => <[k := (v, exp, md, rev)]> w
  | TryUpdate k v exp md _ rev =>
      if decide (is_Some (entries c !! k)) then <[k := (v, exp, md, rev)]> w else w
  | Remove k => delete k w
  | RemoveByPrefix p => filter (fun x => take (length p) x.1 <> p) w
  | Get _ _ | SweepExpired _ => w
  end.

(** The cache holds nothing but what was written. *)
Definition coherent (c : t) (w : gmap bytes (bytes * option Z * option M * Z)) : Prop :=
  forall k e, entries c !! k = Some e -> w !! k = Some (data e).

Lemma coherent_within c c' w : within c' c -> coherent c w -> coherent c' w.
Proof. intros Hw Hc k e' He. destruct (Hw k e' He) as (e & H & <-). by apply Hc. Qed.

Record good (max : Z) (c : t) (w : gmap bytes (bytes * option Z * option M * Z)) : Prop := {
  good_inv : inv c;
  good_max : max_bytes c = max;
  good_limit : current_bytes c <= max;
  good_coherent : coherent c w;
}.

(** A write: the entry goes in, then the loop evicts. *)
Lemma good_write max c c1 w k e :
  inv c1 -> max_bytes c1 = max -> entries c1 = <[k := e]> (entries c) -> coherent c w ->
  good max (evict_to_limit c1) (<[k := data e]> w).
Proof.
  intros Hi Hm He Hc. destruct (evict_to_limit_spec c1 Hi) as (Hi2 & Hw & Hm2 & Hle).
  split; [done|congruence|lia|]. eapply coherent_within; [exact Hw|]. intros k' e'. rewrite He, !lookup_insert.
  case_decide; [by intros [= <-]|]. apply Hc.
Qed.

Lemma inv_update c k e v exp md sz rev :
  inv c -> entries c !! k = Some e -> 1 <= sz ->
  inv (set_bytes (sat_sub (current_bytes c) (ce_size e) + sz)
        (set_entries (<[k := mkCE v exp md 1 sz rev]> (entries c)) c)).
Proof.
  intros [] Hk Hsz. pose proof (total_size _ _ _ inv_sized0 Hk). split; simpl; try done.
  - rewrite (total_update _ _ e) by done. simpl. unfold sat_sub. lia.
  - intros k' e'. rewrite lookup_insert. case_decide; [by intros [= <-]|]. apply inv_sized0.
  - intros k'. rewrite lookup_insert. case_decide as Hd; [|apply inv_slots0].
    subst k'. intros _. apply inv_slots0. eauto.
Qed.

Lemma entry_size_pos k v ms : 1 <= entry_size k v ms.
Proof. unfold entry_size. lia. Qed.

Lemma cache_inv_insert c k e (in_main : bool) :
  inv c -> entries c !! k = None -> 1 <= ce_size e ->
  let c1 := set_bytes (current_bytes c + ce_size e) (set_entries (<[k := e]> (entries c)) c) in
  inv (if in_main
       then set_main (main c1 ++ [k]) (ghost_remove k c1)
       else set_small (small c1 ++ [k]) c1).
Proof.
  intros [] Hk Hsz c1.
  assert (total (<[k := e]> (entries c)) = ce_size e + total (entries c)) as Ht by (by apply total_insert).
  assert (sized (<[k := e]> (entries c))) as Hs.
  { intros k' e'. rewrite lookup_insert. case_decide; [by intros [= <-]|]. apply inv_sized0. }
  assert (forall k', is_Some (<[k := e]> (entries c) !! k') -> k' = k \/ k' ∈ small c ++ main c) as Hsl.
  { intros k'. rewrite lookup_insert. case_decide; [by left|]. right. by apply inv_slots0. }
  destruct in_main; (split; simpl; try done; try lia).
  - intros k' [->|Hin]%Hsl; set_solver.
  - intros k' [Hk' _]%elem_of_difference. by apply inv_ghost0.
  - assert (ghost c ∖ {[k]} ⊆ ghost c) as Hsub by set_solver.
    apply subseteq_size in Hsub. lia.
  - intros k' [->|Hin]%Hsl; set_solver.
Qed.

(** Dropping entries, with the queues compacted or not. *)
Lemma inv_compact c : inv c -> inv (compact_if_stale c).
Proof.
  intros []. unfold compact_if_stale. case_decide; [|done]. split; simpl; try done.
  intros k Hk. specialize (inv_slots0 k Hk) as [H1|H1]%elem_of_app; apply elem_of_app.
  - left. by apply list_elem_of_filter.
  - right. by apply list_elem_of_filter.
Qed.

Lemma compact_same c :
  entries (compact_if_stale c) = entries c /\ current_bytes (compact_if_stale c) = current_bytes c
  /\ max_bytes (compact_if_stale c) = max_bytes c.
Proof. unfold compact_if_stale. by case_decide. Qed.

Lemma inv_stale c n : inv c -> inv (set_stale n c).
Proof. by intros []. Qed.

Lemma good_remove max c w k : good max c w -> good max (remove c k) (delete k w).
Proof.
  intros [Hi Hx Hl Hc]. unfold remove. destruct (entries c !! k) as [e|] eqn:Hk.
  - destruct (compact_same (set_stale (stale_slots (drop_entry k e c) + 1) (drop_entry k e c)))
      as (He & Hb & Hm).
    split.
    + apply inv_compact, inv_stale. apply (inv_drop c k e (small c) (main c) (ghost c)
        (ghost_queue c) (stale_slots c)) in Hi; [|done|..]; by destruct Hi.
    + by rewrite Hm.
    + rewrite Hb. simpl. unfold sat_sub. destruct Hi.
      pose proof (total_nonneg _ inv_sized0). pose proof (inv_sized0 _ _ Hk). lia.
    + intros k' e'. rewrite He. simpl. rewrite !lookup_delete. case_decide; [done|]. apply Hc.
  - split; [done..|]. intros k' e' H. rewrite lookup_delete_ne by congruence. by apply Hc.
Qed.

Lemma inv_drop_where (P : bytes * CacheEntry M -> Prop) `{!forall x, Decision (P x)} c :
  inv c ->
  inv (drop_where P c).2 /\ entries (drop_where P c).2 = filter (fun x => ~ P x) (entries c)
  /\ current_bytes (drop_where P c).2 <= current_bytes c /\ max_bytes (drop_where P c).2 = max_bytes c.
Proof.
  intros Hi. unfold drop_where.
  set (c1 := set_entries (filter (fun x => ~ P x) (entries c)) c).
  set (c2 := if decide (total (filter P (entries c)) > 0) then _ else _). cbn [snd].
  assert (inv c2 /\ entries c2 = filter (fun x => ~ P x) (entries c)
    /\ current_bytes c2 <= current_bytes c /\ max_bytes c2 = max_bytes c) as (Hi2 & He & Hb & Hm).
  { destruct Hi. pose proof (total_filter P (entries c)) as Ht.
    assert (sized (filter P (entries c))) as Hs1.
    { intros k e [He _]%map_lookup_filter_Some. by eapply inv_sized0. }
    assert (sized (filter (fun x => ~ P x) (entries c))) as Hs2.
    { intros k e [He _]%map_lookup_filter_Some. by eapply inv_sized0. }
    pose proof (total_nonneg _ Hs1). pose proof (total_nonneg _ Hs2).
    assert (forall k, is_Some (filter (fun x => ~ P x) (entries c) !! k) -> k ∈ small c ++ main c) as Hsl.
    { intros k [e [He _]%map_lookup_filter_Some]. apply inv_slots0. eauto. }
    subst c2 c1. case_decide; split_and!; try done; simpl; try (unfold sat_sub; lia);
      (split; simpl; try done; unfold sat_sub; lia). }
  case_decide; [|done].
  destruct (compact_same (set_stale (stale_slots c2 + Z.of_nat (size (filter P (entries c)))) c2))
    as (He' & Hb' & Hm').
  split_and!; [by apply inv_compact, inv_stale|by rewrite He'|by rewrite Hb'|by rewrite Hm'].
Qed.

Lemma good_get max c w k now : good max c w -> good max (get c k now).2 w.
Proof.
  intros [Hi Hx Hl Hc]. unfold get. destruct (entries c !! k) as [e|] eqn:Hk; [|done].
  destruct (expired e now); cbn [snd].
  - split.
    + apply (inv_drop c k e (small c) (main c) (ghost c) (ghost_queue c) (stale_slots c)) in Hi;
        [|done|..]; by destruct Hi.
    + done.
    + simpl. unfold sat_sub. destruct Hi.
      pose proof (total_nonneg _ inv_sized0). pose proof (inv_sized0 _ _ Hk). lia.
    + intros k' e'. simpl. intros [_ H]%lookup_delete_Some. by apply Hc.
  - destruct (inv_touch c k e 1 Hi Hk) as (Hi' & Hw & _). split; [done..|].
    eapply coherent_within; [exact Hw|done].
Qed.

Lemma good_run max o c w : good max c w -> good max (run o c) (written o c w).
Proof.
  intros Hg. destruct o as [k now|k v exp md ms rev|k v exp md ms rev|k|p|now]; cbn [run written].
  - by apply good_get.
  - unfold try_update. destruct Hg as [Hi Hx Hl Hc]. destruct (entries c !! k) as [e|] eqn:Hk; cbn [snd].
    + rewrite decide_True by eauto. eapply (good_write max c _ w k (mkCE v exp md 1 _ rev)); [|done..].
      apply (inv_update c k e); [done..|apply entry_size_pos].
    + by rewrite decide_False by (by intros []).
  - unfold insert. destruct Hg as [Hi Hx Hl Hc]. destruct (entries c !! k) as [e|] eqn:Hk.
    + eapply (good_write max c _ w k (mkCE v exp md 1 _ rev)); [|done..].
      apply (inv_update c k e); [done..|apply entry_size_pos].
    + eapply (good_write max c _ w k (mkCE v exp md 0 (entry_size k v ms) rev));
        [|by case_bool_decide..|done].
      by apply (cache_inv_insert c k (mkCE v exp md 0 (entry_size k v ms) rev)); [..|apply entry_size_pos].
  - by apply good_remove.
  - unfold remove_by_prefix. destruct Hg as [Hi Hx Hl Hc].
    destruct (inv_drop_where (fun x => take (length p) x.1 = p) c Hi) as (Hi' & He & Hb & Hm).
    split; [done|lia|lia|]. intros k e. rewrite He. intros [H1 H2]%map_lookup_filter_Some.
    apply map_lookup_filter_Some. split; [by apply Hc|done].
  - unfold sweep_expired. destruct Hg as [Hi Hx Hl Hc].
    destruct (inv_drop_where (fun x => expired x.2 now = true) c Hi) as (Hi' & He & Hb & Hm).
    split; [done|lia|lia|]. intros k e. rewrite He. intros [H1 H2]%map_lookup_filter_Some. by apply Hc.
Qed.

(** A sequence of calls, with what they wrote. *)
Fixpoint exec (ops : list op) (c : t) (w : gmap bytes (bytes * option Z * option M * Z))
    : t * gmap bytes (bytes * option Z * option M * Z) :=
  match ops with
  | [] => (c, w)
  | o :: ops => exec ops (run o c) (written o c w)
  end.

Definition after (max : Z) (ops : list op) : t := (exec ops (new max) ∅).1.
Definition last_written (max : Z) (ops : list op) : gmap bytes (bytes * option Z * option M * Z) :=
  (exec ops (new max) ∅).2.

Lemma exec_app ops ops' : forall c w,
  exec (ops ++ ops') c w = exec ops' (exec ops c w).1 (exec ops c w).2.
Proof. induction ops as [|o ops IH]; intros c w; [done|]. apply IH. Qed.

Lemma good_exec max ops : forall c w, good max c w -> good max (exec ops c w).1 (exec ops c w).2.
Proof. induction ops as [|o ops IH]; intros c w Hg; [done|]. by apply IH, good_run. Qed.

Lemma good_after max ops : 0 <= max -> good max (after max ops) (last_written max ops).
Proof. intros Hm. apply good_exec. split; [by apply cache_inv_new|done|done|]. by intros k e. Qed.

(** ** Correctness *)

(** C37: After any sequence of calls the byte count of the cache is the sum of the
    sizes of its entries, it is within the limit, and so is the ghost set: both
    eviction loops end, and they end below the limit. *)
Theorem cache_bounded (max : Z) (ops : list op) (Hmax : 0 <= max) :
  bytes_used (after max ops) = total (entries (after max ops)) /\
  bytes_used (after max ops) <= max /\
  Z.of_nat (size (ghost (after max ops))) <= Z.max (max / 640) 64.
Proof.
  destruct (good_after max ops Hmax) as [[] Hx Hl _].
  rewrite inv_ghost_max0, Hx in inv_ghost_size0. done.
Qed.

(** C38: Whatever was evicted, swept, updated or removed before, a read of the cache
    returns what was last written for its key and has not expired, or nothing; it
    never returns a removed or an older value. *)
Theorem cache_coherent (max : Z) (ops : list op) (key : bytes) (now : Z)
    (v : bytes) (exp : option Z) (md : option M) (rev : Z) (Hmax : 0 <= max)
    (Hget : (get (after max ops) key now).1 = Some (v, exp, md, rev)) :
  last_written max ops !! key = Some (v, exp, md, rev) /\ (forall ms, exp = Some ms -> now < ms).
Proof.
  destruct (good_after max ops Hmax) as [_ _ _ Hc]. unfold get in Hget.
  destruct (entries (after max ops) !! key) as [e|] eqn:Hk; [|done].
  destruct (expired e now) eqn:He; [done|]. injection Hget as <- <- <- <-. split.
  - by apply Hc.
  - intros ms Hms. unfold expired in He. rewrite Hms in He. lia.
Qed.

(** A write that fits evicts nothing: the key then reads as the value just
    written (or as absent once its expiry has passed), and every other entry stays. *)
Theorem insert_fits (max : Z) (ops : list op) (key v : bytes) (exp : option Z) (md : option M)
    (ms rev now : Z) (Hmax : 0 <= max)
    (Hfit : bytes_used (after max ops) + entry_size key v ms <= max) :
  let c := insert (after max ops) key v exp md ms rev in
  (get c key now).1 =
    (if match exp with Some e => e <=? now | None => false end then None else Some (v, exp, md, rev)) /\
  (forall k, k <> key -> entries c !! k = entries (after max ops) !! k).
Proof.
  destruct (good_after max ops Hmax) as [Hi Hx _ _]. intros c.
  assert (exists e, entries c = <[key := e]> (entries (after max ops)) /\ data e = (v, exp, md, rev))
    as (e & He & Hd).
  { subst c. unfold insert, update_entry, evict_to_limit, bytes_used in *.
    pose proof (entry_size_pos key v ms). pose proof (total_nonneg _ (inv_sized _ Hi)) as Ht.
    rewrite <- (inv_bytes _ Hi) in Ht.
    destruct (entries (after max ops) !! key) as [e|] eqn:Hk; [|case_bool_decide];
      cbn [evict_loop]; rewrite decide_False by
        (simpl; try pose proof (inv_sized _ Hi _ _ Hk); unfold sat_sub; lia); by eexists. }
  unfold get. rewrite He, lookup_insert_eq. unfold expired. injection Hd as <- <- <- <-. split.
  - by destruct (match ce_expires_at_ms e with Some _ => _ | None => _ end).
  - intros k Hne. by rewrite lookup_insert_ne.
Qed.
End Cache.
Arguments t : clear implicits.
Arguments op : clear implicits.

(** ** The ghost queue

    [ghost_remove] leaves the key in the queue, and [ghost_insert] only pops the
    queue when the set is full. *)

Definition key_a : bytes := [97].
Definition key_b : bytes := [98].

Definition nine : bytes := [1; 2; 3; 4; 5; 6; 7; 8; 9].

(** A key of one byte, put twice. *)
Definition turn (x : bytes) : list (op unit) :=
  [Insert x nine None None 0 0; Insert x nine None None 0 0].

(** Two keys that take turns in a cache with room for one. *)
Fixpoint turns (n : nat) : list (op unit) :=
  match n with
  | O => []
  | S n => turn key_b ++ turn key_a ++ turns n
  end.

Definition ten (f : Z) : CacheEntry unit := mkCE nine None None f 10 0.

Definition alone (x : bytes) (q : list bytes) : t unit :=
  mk {[x := ten 0]} [] [x] ∅ q 64 10 10 0.

Ltac fields := cbn [entries small main ghost ghost_queue ghost_max current_bytes max_bytes stale_slots
  set_entries set_small set_main set_ghost set_bytes set_stale app ce_freq ce_size].

Lemma evict_loop_done fuel (c : t unit) : current_bytes c <= max_bytes c -> evict_loop fuel c = c.
Proof. intros H. destruct fuel; cbn [evict_loop]; by rewrite decide_False by lia. Qed.

Lemma entry_size_ten y : zlen y = 1 -> entry_size y nine 0 = 10.
Proof. unfold entry_size. by intros ->. Qed.

(** The new key is the coldest of the small queue, and it is alone in it. *)
Lemma insert_refused x y q :
  x <> y -> zlen y = 1 ->
  insert (alone x q) y nine None None 0 0 = mk {[x := ten 0]} [] [x] {[y]} (q ++ [y]) 64 10 10 0.
Proof.
  intros Hne Hy. unfold insert, alone. rewrite entry_size_ten by done. fields.
  rewrite lookup_singleton_ne by done. rewrite bool_decide_false by set_solver. fields.
  unfold evict_to_limit. cbn [evict_loop]. fields. rewrite decide_True by lia. unfold evict_one. fields.
  cbn [evict_small]. fields. rewrite lookup_insert_eq. fields. rewrite decide_False by lia.
  unfold ghost_insert. fields. rewrite delete_insert_id by (by rewrite lookup_singleton_ne).
  assert (ghost_drain q ∅ 64 = (∅, q)) as -> by (by destruct q). rewrite decide_False by set_solver. fields.
  rewrite evict_loop_done by done. by rewrite (right_id_L ∅ (∪)).
Qed.

(** Put again, it enters the main queue and the other key goes. *)
Lemma insert_promoted x y q :
  x <> y -> zlen y = 1 ->
  insert (mk {[x := ten 0]} [] [x] {[y]} q 64 10 10 0) y nine None None 0 0 = alone y q.
Proof.
  intros Hne Hy. unfold insert, alone. rewrite entry_size_ten by done. fields.
  rewrite lookup_singleton_ne by done. rewrite bool_decide_true by set_solver. unfold ghost_remove. fields.
  unfold evict_to_limit. cbn [evict_loop]. fields. rewrite decide_True by lia. unfold evict_one. fields.
  cbn [evict_small]. fields. cbn [length Nat.add evict_main]. fields.
  rewrite lookup_insert_ne, lookup_singleton_eq by done. unfold ten. fields. rewrite decide_False by lia.
  unfold drop_entry. fields. rewrite delete_insert_ne, delete_singleton_eq by done.
  rewrite evict_loop_done by done. by rewrite difference_diag_L.
Qed.

Lemma turn_swap x y q w :
  x <> y -> zlen y = 1 -> (exec (turn y) (alone x q) w).1 = alone y (q ++ [y]).
Proof.
  intros Hne Hy. cbn [turn exec run fst]. by rewrite insert_refused, insert_promoted.
Qed.

(** The first two turns. *)
Definition warm_up : list (op unit) := turn key_b ++ turn key_a.

Lemma first_turn w : (exec (turn key_b) (new 10) w).1 = mk {[key_b := ten 1]} [key_b] [] ∅ [] 64 10 10 0.
Proof.
  cbn [turn exec run fst]. unfold insert at 2. rewrite entry_size_ten by done. unfold new. fields.
  rewrite lookup_empty, bool_decide_false by set_solver. fields.
  unfold evict_to_limit at 1. rewrite evict_loop_done by done.
  unfold insert. rewrite entry_size_ten by done. fields. rewrite lookup_insert_eq.
  unfold update_entry, evict_to_limit. fields. rewrite evict_loop_done by done.
  by rewrite insert_insert_eq.
Qed.

Lemma warm_up_end : (exec warm_up (new 10) ∅).1 = alone key_a [key_a].
Proof.
  unfold warm_up. rewrite exec_app, first_turn. cbn [turn exec run fst].
  rewrite <- (insert_promoted key_b key_a [key_a]) by done. reflexivity.
Qed.

Lemma turns_end n : forall q w,
  exists q', (exec (turns n) (alone key_a q) w).1 = alone key_a q' /\ (length q' = length q + 2 * n)%nat.
Proof.
  induction n as [|n IH]; intros q w; [exists q; split; [done|lia]|].
  cbn [turns]. rewrite !exec_app, !turn_swap by done.
  destruct (IH ((q ++ [key_b]) ++ [key_a]) (exec (turn key_a) (alone key_b (q ++ [key_b]))
    (exec (turn key_b) (alone key_a q) w).2).2) as (q' & -> & Hq).
  exists q'. split; [done|]. rewrite Hq, !length_app. simpl. lia.
Qed.

(** The ghost queue is not bounded: two keys of ten bytes that take turns in a
    cache of ten bytes leave an empty ghost set and a ghost queue as long as wanted. *)
Theorem ghost_queue_unbounded (n : nat) :
  exists ops, ghost (after (M := unit) 10 ops) = ∅ /\
    (n <= length (ghost_queue (after (M := unit) 10 ops)))%nat.
Proof.
  exists (warm_up ++ turns n). unfold after. rewrite exec_app, warm_up_end.
  destruct (turns_end n [key_a] (exec warm_up (new 10) ∅).2) as (q' & -> & Hq).
  simpl in *. split; [done|lia].
Qed.

(** ** Concrete runs *)

Definition ex_ops : list (op unit) :=
  [Insert key_a [1; 2] None None 0 1; Insert key_b [3; 4] (Some 50) None 0 2; Get key_a 10;
   Insert [99] [5; 6] None None 0 3; Remove key_b].

Lemma cache_bounded_witness :
  0 <= 8 /\ bytes_used (after 8 ex_ops) <= 8.
Proof. split; [lia|]. apply (cache_bounded 8 ex_ops); lia. Defined.

Lemma cache_coherent_witness :
  0 <= 8 /\ (get (after 8 ex_ops) key_a 60).1 = Some ([1; 2], None, None, 1) /\
  last_written 8 ex_ops !! key_a = Some ([1; 2], None, None, 1).
Proof.
  split; [lia|]. split; [vm_compute; reflexivity|].
  apply (cache_coherent 8 ex_ops key_a 60 [1; 2] None None 1); [lia|vm_compute; reflexivity].
Defined.

Lemma insert_fits_witness :
  bytes_used (after 20 ex_ops) + entry_size [100] [7] 0 <= 20 /\
  (get (insert (after 20 ex_ops) [100] [7] (Some 90) None 0 4) [100] 60).1
    = Some ([7], Some 90, None, 4).
Proof.
  split; [apply (bool_decide_unpack _); vm_compute; exact I|].
  apply (insert_fits 20 ex_ops [100] [7] (Some 90) None 0 4 60);
    [lia|apply (bool_decide_unpack _); vm_compute; exact I].
Defined.
End MemCache.
