(* ===== verification/Watch.v ===== *)
(** * Watch subscriptions, [crates/engine/src/watch.rs]

    [WatchRegistry] holds the senders of the live subscriptions, by exact key and
    by prefix.  A write sends its event to every subscription that matches and
    drops the senders whose channel is full or closed.  The channels are those of
    crate [futures_channel] and are an interface ([Mpsc]); the file proves that an
    event reaches exactly the subscriptions it matches, and that the number of
    subscriptions stays within its limit without turning a caller away while a
    dead subscription could make room. *)

From stdpp Require Import base tactics list gmap strings.
From Stdlib Require Import ZArith Lia.
From S2P Require Import Prelude Ascii.

Open Scope Z_scope.

(** Crate [serde_json]: a parsed document, its printer and its parser. *)
Class SerdeJson := {
  json : Type;
  json_to_vec : json -> eresult bytes;
  json_from_slice : bytes -> eresult json;
}.

Inductive WatchEvent `{SerdeJson} :=
| EvSet (key value : bytes) (metadata : option json) (expires_at_ms : option Z) (revision : Z)
| EvDel (key : bytes) (revision : Z).

Definition event_revision `{SerdeJson} (e : WatchEvent) : Z :=
  match e with EvSet _ _ _ _ r | EvDel _ r => r end.

Inductive KeyFilter :=
| Exact (k : bytes)
| Prefix (p : bytes).

#[export] Instance KeyFilter_eq_dec : EqDecision KeyFilter.
Proof. solve_decision. Defined.

(** [<[u8]>::starts_with]. *)
Definition starts_with (key p : bytes) : bool := bool_decide (take (length p) key = p).

Definition filter_matches (f : KeyFilter) (key : bytes) : bool :=
  match f with
  | Exact k => bool_decide (k = key)
  | Prefix p => starts_with key p
  end.

(** ** Channels *)

(** Crate [futures_channel]: the bounded channels of a process and their senders.
    [sent] are the events a channel has accepted, in order. *)
Class Mpsc `{SerdeJson} := {
  chans : Type;
  channel : Z -> chans -> nat * chans;
  is_closed : chans -> nat -> bool;
  try_send : chans -> nat -> WatchEvent -> bool * chans;
  allocated : chans -> nat -> bool;
  sent : chans -> nat -> list WatchEvent;
  channel_new : forall n cs c cs', channel n cs = (c, cs') ->
    allocated cs c = false /\ allocated cs' c = true /\ is_closed cs' c = false /\ sent cs' c = [];
  channel_old : forall n cs c cs' d, channel n cs = (c, cs') -> d <> c ->
    allocated cs' d = allocated cs d /\ is_closed cs' d = is_closed cs d /\ sent cs' d = sent cs d;
  try_send_self : forall cs c ev b cs', try_send cs c ev = (b, cs') ->
    sent cs' c = (if b then sent cs c ++ [ev] else sent cs c);
  try_send_other : forall cs c ev b cs' d, try_send cs c ev = (b, cs') -> d <> c ->
    sent cs' d = sent cs d /\ forall ev', (try_send cs' d ev').1 = (try_send cs d ev').1;
  try_send_closed : forall cs c ev, is_closed cs c = true -> (try_send cs c ev).1 = false;
  try_send_alloc : forall cs c ev d, allocated (try_send cs c ev).2 d = allocated cs d;
}.

Definition WATCH_CHANNEL_CAPACITY : Z := 512.
Definition MAX_TOTAL_SUBSCRIPTIONS : Z := 65536.

Module WatchRegistry.
Section Ops.
Context `{Mpsc}.

Record t := mk {
  keys : gmap (bytes * bytes) (list nat);
  prefixes : list ((bytes * bytes) * nat);
}.

Definition new : t := mk ∅ [].

(** The senders of a list that are not closed. *)
Definition live_senders (cs : chans) (senders : list nat) : list nat :=
  filter (fun tx => is_closed cs tx = false) senders.

Definition live_prefixes (cs : chans) (l : list ((bytes * bytes) * nat)) : list ((bytes * bytes) * nat) :=
  filter (fun p => is_closed cs p.2 = false) l.

Definition total_subscriptions (self : t) : nat :=
  map_fold (fun _ senders n => length senders + n)%nat O (keys self) + length (prefixes self).

(** The pruning of [ensure_capacity]: keys without a live sender go. *)
Definition prune (self : t) (cs : chans) : t :=
  mk (filter (fun kv => kv.2 <> []) (live_senders cs <$> keys self))
     (live_prefixes cs (prefixes self)).

Definition ensure_capacity (self : t) (cs : chans) : eresult unit * t :=
  if decide (Z.of_nat (total_subscriptions self) < MAX_TOTAL_SUBSCRIPTIONS) then (Ok tt, self) else
  let self := prune self cs in
  if decide (MAX_TOTAL_SUBSCRIPTIONS <= Z.of_nat (total_subscriptions self))
  then (Err (CapacityExceeded "watch subscription limit reached"), self)
  else (Ok tt, self).

Definition subscribe_key (self : t) (cs : chans) (ns key : bytes) : eresult nat * t * chans :=
  let self :=
    match keys self !! (ns, key) with
    | Some senders => mk (<[(ns, key) := live_senders cs senders]> (keys self)) (prefixes self)
    | None => self
    end in
  let '(r, self) := ensure_capacity self cs in
  match r with
  | Err e => (Err e, self, cs)
  | Ok _ =>
      let '(tx, cs) := channel WATCH_CHANNEL_CAPACITY cs in
      let senders := default [] (keys self !! (ns, key)) in
      (Ok tx, mk (<[(ns, key) := senders ++ [tx]]> (keys self)) (prefixes self), cs)
  end.

Definition subscribe_prefix (self : t) (cs : chans) (ns prefix : bytes) : eresult nat * t * chans :=
  let self := mk (keys self) (live_prefixes cs (prefixes self)) in
  let '(r, self) := ensure_capacity self cs in
  match r with
  | Err e => (Err e, self, cs)
  | Ok _ =>
      let '(tx, cs) := channel WATCH_CHANNEL_CAPACITY cs in
      (Ok tx, mk (keys self) (prefixes self ++ [((ns, prefix), tx)]), cs)
  end.

(** [retain_mut] with [try_send]: the senders that took the event. *)
Fixpoint send_all (senders : list nat) (ev : WatchEvent) (cs : chans) : list nat * chans :=
  match senders with
  | [] => ([], cs)
  | tx :: senders =>
      let '(ok, cs) := try_send cs tx ev in
      let '(kept, cs) := send_all senders ev cs in
      (if ok then tx :: kept else kept, cs)
  end.

Fixpoint send_prefixes (l : list ((bytes * bytes) * nat)) (ns key : bytes) (ev : WatchEvent) (cs : chans)
    : list ((bytes * bytes) * nat) * chans :=
  match l with
  | [] => ([], cs)
  | ((wns, prefix), tx) :: l =>
      if (bool_decide (wns = ns) && starts_with key prefix)%bool then
        let '(ok, cs) := try_send cs tx ev in
        let '(kept, cs) := send_prefixes l ns key ev cs in
        (if ok then ((wns, prefix), tx) :: kept else kept, cs)
      else
        let '(kept, cs) := send_prefixes l ns key ev cs in
        (((wns, prefix), tx) :: kept, cs)
  end.

(** The exact-key half of [notify]. *)
Definition send_keys (self : t) (cs : chans) (ns key : bytes) (ev : WatchEvent)
    : gmap (bytes * bytes) (list nat) * chans :=
  match keys self !! (ns, key) with
  | Some senders =>
      let '(kept, cs) := send_all senders ev cs in
      (if decide (kept = []) then delete (ns, key) (keys self) else <[(ns, key) := kept]> (keys self), cs)
  | None => (keys self, cs)
  end.

Definition notify (self : t) (cs : chans) (ns key : bytes) (ev : WatchEvent) : t * chans :=
  if (bool_decide (keys self = ∅) && bool_decide (prefixes self = []))%bool then (self, cs) else
  let '(keys, cs) := send_keys self cs ns key ev in
  let '(prefixes, cs) := send_prefixes (prefixes self) ns key ev cs in
  (mk keys prefixes, cs).

(** ** Who is subscribed *)

Definition registered (self : t) (ns : bytes) (f : KeyFilter) (c : nat) : Prop :=
  match f with
  | Exact k => exists l, keys self !! (ns, k) = Some l /\ c ∈ l
  | Prefix p => ((ns, p), c) ∈ prefixes self
  end.

(** Every sender belongs to one subscription and to a channel that exists. *)
Record inv (self : t) (cs : chans) : Prop := {
  inv_one : forall ns f ns' f' c, registered self ns f c -> registered self ns' f' c -> ns = ns' /\ f = f';
  inv_keys : forall k l, keys self !! k = Some l -> NoDup l;
  inv_prefixes : NoDup (prefixes self).*2;
  inv_alloc : forall ns f c, registered self ns f c -> allocated cs c = true;
}.

Lemma NoDup_snd_filter {A B} (P : A * B -> Prop) `{!forall x, Decision (P x)} (l : list (A * B)) :
  NoDup l.*2 -> NoDup (filter P l).*2.
Proof.
  induction l as [|x l IH]; csimpl; [done|]. intros [Hx Hnd]%NoDup_cons. rewrite filter_cons.
  case_decide; csimpl; [|by apply IH]. apply NoDup_cons. split; [|by apply IH].
  intros (y & Heq & [_ Hy]%list_elem_of_filter)%list_elem_of_fmap. apply Hx. rewrite Heq.
  by apply list_elem_of_fmap_2.
Qed.

(** ** Sending *)

Definition accepts (cs : chans) (c : nat) (ev : WatchEvent) : bool := (try_send cs c ev).1.

(** The channels of [l] got the event if they take it, the others are as before. *)
Definition delivered (ev : WatchEvent) (cs cs' : chans) (P : nat -> Prop) : Prop :=
  (forall c, P c -> sent cs' c = if accepts cs c ev then sent cs c ++ [ev] else sent cs c) /\
  (forall c, ~ P c -> sent cs' c = sent cs c /\ forall ev', accepts cs' c ev' = accepts cs c ev') /\
  (forall c, allocated cs' c = allocated cs c).

Lemma delivered_none ev cs : delivered ev cs cs (fun _ => False).
Proof. by split_and!. Qed.

Lemma delivered_one ev cs c : delivered ev cs (try_send cs c ev).2 (fun d => d = c).
Proof.
  unfold delivered, accepts. destruct (try_send cs c ev) as [b cs1] eqn:Hs. simpl. split_and!.
  - intros d ->. rewrite (try_send_self _ _ _ _ _ Hs). by rewrite Hs.
  - intros d Hd. by apply (try_send_other _ _ _ _ _ _ Hs).
  - intros d. pose proof (try_send_alloc cs c ev d) as Ha. by rewrite Hs in Ha.
Qed.

Lemma delivered_trans ev cs1 cs2 cs3 (P Q R : nat -> Prop) :
  delivered ev cs1 cs2 P -> delivered ev cs2 cs3 Q ->
  (forall c, P c -> ~ Q c) -> (forall c, R c <-> P c \/ Q c) -> (forall c, Decision (P c)) ->
  delivered ev cs1 cs3 R.
Proof.
  intros (P1 & P2 & P3) (Q1 & Q2 & Q3) Hd Hr Hdec. split_and!.
  - intros c [Hp|Hq]%Hr.
    + destruct (Q2 c (Hd c Hp)) as [-> _]. by apply P1.
    + rewrite (Q1 c Hq). destruct (P2 c) as [-> ->]; [|done]. intros Hp. by eapply Hd.
  - intros c Hn. rewrite Hr in Hn. destruct (P2 c) as [Hs1 Ha1]; [tauto|].
    destruct (Q2 c) as [Hs2 Ha2]; [tauto|]. split; [congruence|]. intros ev'. congruence.
  - intros c. by rewrite Q3, P3.
Qed.

Lemma filter_accepts_ext (l : list nat) ev cs cs' :
  (forall c, c ∈ l -> accepts cs' c ev = accepts cs c ev) ->
  filter (fun c => accepts cs' c ev = true) l = filter (fun c => accepts cs c ev = true) l.
Proof.
  induction l as [|c l IH]; intros Hc; [done|]. rewrite !filter_cons, (Hc c) by set_solver.
  rewrite IH; [done|]. set_solver.
Qed.

Lemma send_all_spec senders ev : forall cs,
  NoDup senders ->
  (send_all senders ev cs).1 = filter (fun c => accepts cs c ev = true) senders /\
  delivered ev cs (send_all senders ev cs).2 (fun c => c ∈ senders).
Proof.
  induction senders as [|tx senders IH]; intros cs Hnd; cbn [send_all].
  { split; [done|]. destruct (delivered_none ev cs) as (? & ? & ?). split_and!; try done.
    intros c Hc. by apply not_elem_of_nil in Hc. }
  apply NoDup_cons in Hnd as [Htx Hnd].
  pose proof (delivered_one ev cs tx) as H1. destruct (try_send cs tx ev) as [b cs1] eqn:Hs.
  destruct (IH cs1 Hnd) as [Hk Hd]. destruct (send_all senders ev cs1) as [kept cs2]. cbn [fst snd] in *.
  split.
  - assert (accepts cs tx ev = b) as Ha by (unfold accepts; by rewrite Hs).
    rewrite filter_cons. assert (kept = filter (fun c => accepts cs c ev = true) senders) as ->.
    { rewrite Hk. apply filter_accepts_ext. intros c Hc. apply (proj1 (proj2 H1)). intros ->. done. }
    destruct b; [by rewrite decide_True|by rewrite decide_False by congruence].
  - eapply delivered_trans; [exact H1|exact Hd| | |].
    + by intros c ->.
    + intros c. apply elem_of_cons.
    + intros c. apply _.
Qed.

Lemma send_prefixes_spec l ns key ev : forall cs,
  NoDup l.*2 ->
  let P := fun p : (bytes * bytes) * nat => p.1.1 = ns /\ starts_with key p.1.2 = true in
  (send_prefixes l ns key ev cs).1 = filter (fun p => ~ P p \/ accepts cs p.2 ev = true) l /\
  delivered ev cs (send_prefixes l ns key ev cs).2 (fun c => c ∈ (filter P l).*2).
Proof.
  induction l as [|[[wns p] tx] l IH]; intros cs Hnd P; cbn [send_prefixes].
  { split; [done|]. destruct (delivered_none ev cs) as (? & ? & ?). split_and!; try done.
    intros c Hc. by apply not_elem_of_nil in Hc. }
  csimpl in Hnd. apply NoDup_cons in Hnd as [Htx Hnd].
  assert (forall cs', (forall c, c ∈ l.*2 -> accepts cs' c ev = accepts cs c ev) ->
    filter (fun q => ~ P q \/ accepts cs' q.2 ev = true) l
    = filter (fun q => ~ P q \/ accepts cs q.2 ev = true) l) as Hext.
  { intros cs' Hc. clear -Hc. induction l as [|q l IHl]; [done|]. rewrite !filter_cons.
    rewrite (Hc q.2) by (csimpl; set_solver). rewrite IHl; [done|]. intros c Hin. apply Hc. csimpl. set_solver. }
  rewrite !filter_cons. destruct (bool_decide (wns = ns) && starts_with key p)%bool eqn:Hm.
  - apply andb_prop in Hm as [Hns%bool_decide_eq_true Hp].
    assert (P ((wns, p), tx)) as HP by done. rewrite (decide_True _ _ HP).
    pose proof (delivered_one ev cs tx) as H1. destruct (try_send cs tx ev) as [b cs1] eqn:Hs.
    destruct (IH cs1 Hnd) as [Hk Hd]. destruct (send_prefixes l ns key ev cs1) as [kept cs2]. cbn [fst snd] in *.
    assert (forall c, c ∈ l.*2 -> accepts cs1 c ev = accepts cs c ev) as Hc.
    { intros c Hc. apply (proj1 (proj2 H1)). intros ->. done. }
    rewrite Hext in Hk by done. split.
    + assert (accepts cs tx ev = b) as Ha by (unfold accepts; by rewrite Hs).
      rewrite <- Hk. destruct b; [by rewrite decide_True by tauto|].
      rewrite decide_False; [done|]. intros [?|?]; [done|congruence].
    + eapply delivered_trans; [exact H1|exact Hd| | |intros c; apply _].
      * intros c -> Hin. apply Htx. apply list_elem_of_fmap in Hin as (q & -> & Hq).
        apply list_elem_of_filter in Hq as [_ Hq]. by apply list_elem_of_fmap_2.
      * intros c. csimpl. apply elem_of_cons.
  - assert (~ P ((wns, p), tx)) as HP.
    { intros [Hns Hp]. simpl in *. subst wns. rewrite bool_decide_true in Hm by done. simpl in Hm. congruence. }
    rewrite (decide_False _ _ HP). destruct (IH cs Hnd) as [Hk Hd].
    destruct (send_prefixes l ns key ev cs) as [kept cs2]. cbn [fst snd] in *.
    split; [|done]. rewrite decide_True by tauto. by rewrite Hk.
Qed.

(** ** Delivery *)

(** The event of a write to [key] concerns the subscription. *)
Definition concerns (ns key n : bytes) (f : KeyFilter) : Prop := n = ns /\ filter_matches f key = true.

#[local] Instance concerns_dec ns key n f : Decision (concerns ns key n f) := _.

(** The senders of the subscriptions concerned. *)
Definition targets (self : t) (ns key : bytes) (c : nat) : Prop :=
  c ∈ default [] (keys self !! (ns, key)) \/
  c ∈ (filter (fun p : (bytes * bytes) * nat => p.1.1 = ns /\ starts_with key p.1.2 = true) (prefixes self)).*2.

Lemma targets_registered self ns key c :
  targets self ns key c <-> exists n f, registered self n f c /\ concerns ns key n f.
Proof.
  split.
  - intros [Hc|(q & -> & [[Hn Hp] Hq]%list_elem_of_filter)%list_elem_of_fmap].
    + destruct (keys self !! (ns, key)) as [l|] eqn:Hl; [|by apply not_elem_of_nil in Hc].
      exists ns, (Exact key). split; [by exists l|]. split; [done|]. by apply bool_decide_eq_true.
    + destruct q as [[n p] tx]. simpl in *. by exists n, (Prefix p).
  - intros (n & [k|p] & Hr & -> & Hm); simpl in *.
    + apply bool_decide_eq_true in Hm as ->. destruct Hr as (l & Hl & Hc). left. by rewrite Hl.
    + right. apply list_elem_of_fmap. exists ((ns, p), c). split; [done|]. by apply list_elem_of_filter.
Qed.

Lemma targets_iff self cs ns key n f c :
  inv self cs -> registered self n f c -> targets self ns key c <-> concerns ns key n f.
Proof.
  intros Hi Hr. rewrite targets_registered. split; [|by eauto].
  intros (n' & f' & Hr' & Hc). by destruct (inv_one _ _ Hi _ _ _ _ _ Hr Hr') as [-> ->].
Qed.

Lemma send_keys_spec self cs ns key ev :
  inv self cs ->
  delivered ev cs (send_keys self cs ns key ev).2 (fun c => c ∈ default [] (keys self !! (ns, key))) /\
  (forall n k c, (exists l, (send_keys self cs ns key ev).1 !! (n, k) = Some l /\ c ∈ l) <->
     registered self n (Exact k) c /\ (concerns ns key n (Exact k) -> accepts cs c ev = true)) /\
  (forall k l, (send_keys self cs ns key ev).1 !! k = Some l -> NoDup l).
Proof.
  intros Hi. unfold send_keys. destruct (keys self !! (ns, key)) as [l|] eqn:Hl.
  - destruct (send_all_spec l ev cs (inv_keys _ _ Hi _ _ Hl)) as [Hkept Hd].
    destruct (send_all l ev cs) as [kept cs1]. cbn [fst snd default] in *. split; [done|].
    assert (forall x, (if decide (kept = []) then delete (ns, key) (keys self) else <[(ns, key) := kept]> (keys self)) !! x
      = if decide ((ns, key) = x) then (if decide (kept = []) then None else Some kept) else keys self !! x) as Hlk.
    { intros x. destruct (decide (kept = [])); [rewrite lookup_delete|rewrite lookup_insert]; done. }
    split.
    + intros n k c. rewrite Hlk. unfold registered, concerns. simpl.
      destruct (decide ((ns, key) = (n, k))) as [[= <- <-]|Hne].
      * rewrite Hl. split.
        -- intros (l0 & Hl0 & Hc). destruct (decide (kept = [])); [done|]. injection Hl0 as <-.
           rewrite Hkept in Hc. apply list_elem_of_filter in Hc as [Ha Hc]. eauto.
        -- intros ((l0 & [= <-] & Hc) & Ha). specialize (Ha (conj eq_refl (bool_decide_eq_true_2 _ eq_refl))).
           assert (c ∈ kept) as Hin by (rewrite Hkept; by apply list_elem_of_filter).
           destruct (decide (kept = [])) as [->|]; [by apply not_elem_of_nil in Hin|eauto].
      * split; [|by intros [? _]]. intros Hc. split; [done|]. intros [-> ->%bool_decide_eq_true]. done.
    + intros k l0. rewrite Hlk. destruct (decide ((ns, key) = k)); [|apply (inv_keys _ _ Hi)].
      destruct (decide (kept = [])); [done|]. intros [= <-]. rewrite Hkept. by apply NoDup_filter, (inv_keys _ _ Hi _ _ Hl).
  - destruct (delivered_none ev cs) as (? & ? & ?). split_and!; [|..|by apply (inv_keys _ _ Hi)].
    + split_and!; try done. intros c Hc. by apply not_elem_of_nil in Hc.
    + intros n k c. unfold registered, concerns. simpl. split; [|by intros [? _]].
      intros (l0 & Hl0 & Hc). split; [eauto|]. intros [-> <-%bool_decide_eq_true]. congruence.
Qed.

Lemma nobody_registered self n f c :
  keys self = ∅ -> prefixes self = [] -> ~ registered self n f c.
Proof.
  intros Hk Hp. destruct f as [k|p]; simpl; [rewrite Hk|rewrite Hp].
  - intros (l & Hl & _). by rewrite lookup_empty in Hl.
  - apply not_elem_of_nil.
Qed.

(** A sender of a prefix is not one of an exact key. *)
Lemma prefix_not_key self cs ns key n p c :
  inv self cs -> ((n, p), c) ∈ prefixes self -> c ∉ default [] (keys self !! (ns, key)).
Proof.
  intros Hi Hp Hc. destruct (keys self !! (ns, key)) as [l|] eqn:Hl; [|by apply not_elem_of_nil in Hc].
  assert (registered self ns (Exact key) c) as Hreg by (by exists l).
  by destruct (inv_one _ _ Hi _ _ _ (Prefix p) _ Hreg Hp).
Qed.

(** What [notify] does to the channels and to the registry. *)
Lemma notify_spec self cs ns key ev :
  inv self cs ->
  let r := notify self cs ns key ev in
  delivered ev cs r.2 (targets self ns key) /\
  (forall n f c, registered r.1 n f c <->
     registered self n f c /\ (concerns ns key n f -> accepts cs c ev = true)) /\
  (forall k l, keys r.1 !! k = Some l -> NoDup l) /\ NoDup (prefixes r.1).*2.
Proof.
  intros Hi. unfold notify.
  destruct (bool_decide (keys self = ∅) && bool_decide (prefixes self = []))%bool eqn:Hemp.
  { apply andb_prop in Hemp as [Hk%bool_decide_eq_true Hp%bool_decide_eq_true]. cbn [fst snd].
    assert (forall n f c, ~ registered self n f c) as Hno by (intros; by apply nobody_registered).
    split_and!; [split_and!; try done| |by destruct Hi..].
    - by intros c (n & f & ?%Hno & _)%targets_registered.
    - intros n f c. split; [by intros ?%Hno|by intros []]. }
  destruct (send_keys_spec self cs ns key ev Hi) as (Hd1 & Hr1 & Hnd1).
  destruct (send_keys self cs ns key ev) as [keys1 cs1]. cbn [fst snd] in *.
  destruct (send_prefixes_spec (prefixes self) ns key ev cs1 (inv_prefixes _ _ Hi)) as [Hkept Hd2].
  destruct (send_prefixes (prefixes self) ns key ev cs1) as [kept cs2]. cbn [fst snd] in *.
  set (P := fun p : (bytes * bytes) * nat => p.1.1 = ns /\ starts_with key p.1.2 = true) in *.
  split_and!.
  - eapply delivered_trans; [exact Hd1|exact Hd2| |done|intros c; apply _].
    intros c Hc ([[n p] tx] & -> & [_ Hq]%list_elem_of_filter)%list_elem_of_fmap. by eapply prefix_not_key.
  - intros n [k|p] c; [apply Hr1|]. unfold registered, concerns. simpl. rewrite Hkept, list_elem_of_filter. simpl.
    assert (((n, p), c) ∈ prefixes self -> accepts cs1 c ev = accepts cs c ev) as Hacc.
    { intros Hin. by rewrite (proj2 (proj1 (proj2 Hd1) c (prefix_not_key _ _ _ _ _ _ _ Hi Hin))). }
    split.
    + intros [Ha Hin]. split; [done|]. intros HP. rewrite <- Hacc by done. by destruct Ha as [Ha|Ha].
    + intros [Hin Ha]. split; [|done]. destruct (decide (P ((n, p), c))) as [HP|HP]; [|by left].
      right. rewrite Hacc by done. by apply Ha.
  - done.
  - simpl. rewrite Hkept. apply NoDup_snd_filter, (inv_prefixes _ _ Hi).
Qed.

Lemma inv_notify self cs ns key ev :
  inv self cs -> inv (notify self cs ns key ev).1 (notify self cs ns key ev).2.
Proof.
  intros Hi. destruct (notify_spec self cs ns key ev Hi) as ((_ & _ & Ha) & Hr & Hk & Hp). split; try done.
  - intros n f n' f' c [H1 _]%Hr [H2 _]%Hr. by eapply (inv_one _ _ Hi).
  - intros n f c [H1 _]%Hr. rewrite Ha. by eapply (inv_alloc _ _ Hi).
Qed.

(** ** Subscribing *)

Definition senders_total (m : gmap (bytes * bytes) (list nat)) : nat :=
  map_fold (fun _ senders n => length senders + n)%nat O m.

Lemma senders_total_insert m k l :
  (senders_total (<[k := l]> m) + length (default [] (m !! k)) = senders_total m + length l)%nat.
Proof.
  assert (forall m, m !! k = None -> senders_total (<[k := l]> m) = (length l + senders_total m)%nat) as Hins.
  { intros m' Hm'. unfold senders_total. rewrite map_fold_insert_L; [done|intros; lia|done]. }
  destruct (m !! k) as [l0|] eqn:Hk; simpl.
  - rewrite <- insert_delete_eq, Hins by apply lookup_delete_eq.
    assert (senders_total m = length l0 + senders_total (delete k m))%nat as ->; [|lia].
    unfold senders_total. rewrite (map_fold_delete_L _ _ k l0 m); [done| |done]. intros; lia.
  - rewrite Hins by done. lia.
Qed.

Lemma senders_total_mono m m' :
  (forall k, length (default [] (m' !! k)) <= length (default [] (m !! k)))%nat ->
  (senders_total m' <= senders_total m)%nat.
Proof.
  revert m. induction m' as [|k l m' Hk IH] using map_ind; intros m Hle.
  { unfold senders_total. rewrite map_fold_empty. lia. }
  pose proof (senders_total_insert m' k l) as H1. rewrite Hk in H1. simpl in H1.
  pose proof (senders_total_insert (delete k m) k (default [] (m !! k))) as H2.
  rewrite lookup_delete_eq in H2. simpl in H2.
  assert (senders_total (<[k := default [] (m !! k)]> (delete k m)) <= senders_total m)%nat as H3.
  { destruct (m !! k) as [l0|] eqn:Hm; simpl; [by rewrite insert_delete_id|].
    rewrite delete_id by done. pose proof (senders_total_insert m k []) as H4. rewrite Hm in H4. simpl in H4. lia. }
  assert (senders_total m' <= senders_total (delete k m))%nat as H4.
  { apply IH. intros k'. specialize (Hle k'). destruct (decide (k = k')) as [<-|Hne]; [rewrite Hk; simpl; lia|].
    rewrite lookup_insert_ne in Hle by done. by rewrite lookup_delete_ne. }
  specialize (Hle k). rewrite lookup_insert_eq in Hle. simpl in Hle. lia.
Qed.

(** [self'] is [self] without some of its closed senders. *)
Record pruned (cs : chans) (self self' : t) : Prop := {
  pr_total : (total_subscriptions self' <= total_subscriptions self)%nat;
  pr_keys : forall k l, keys self' !! k = Some l ->
    exists l0, keys self !! k = Some l0 /\ (l = l0 \/ l = live_senders cs l0);
  pr_prefixes : prefixes self' = prefixes self \/ prefixes self' = live_prefixes cs (prefixes self);
  pr_live : forall n f c, registered self n f c -> is_closed cs c = false -> registered self' n f c;
}.

Lemma pruned_registered cs self self' n f c :
  pruned cs self self' -> registered self' n f c -> registered self n f c.
Proof.
  intros Hp. destruct f as [k|p]; simpl.
  - intros (l & Hl & Hc). destruct (pr_keys _ _ _ Hp _ _ Hl) as (l0 & Hl0 & [->| ->]); [eauto|].
    apply list_elem_of_filter in Hc as [_ Hc]. eauto.
  - destruct (pr_prefixes _ _ _ Hp) as [->| ->]; [done|]. by intros [_ ?]%list_elem_of_filter.
Qed.

Lemma inv_pruned cs self self' : pruned cs self self' -> inv self cs -> inv self' cs.
Proof.
  intros Hp Hi. split.
  - intros n f n' f' c H1 H2. by eapply (inv_one _ _ Hi); eapply pruned_registered.
  - intros k l Hl. destruct (pr_keys _ _ _ Hp _ _ Hl) as (l0 & Hl0 & [->| ->]); [by eapply (inv_keys _ _ Hi)|].
    by apply NoDup_filter, (inv_keys _ _ Hi _ _ Hl0).
  - destruct (pr_prefixes _ _ _ Hp) as [->| ->]; [by apply (inv_prefixes _ _ Hi)|].
    apply NoDup_snd_filter, (inv_prefixes _ _ Hi).
  - intros n f c Hr. eapply (inv_alloc _ _ Hi). by eapply pruned_registered.
Qed.

Lemma pruned_refl cs self : pruned cs self self.
Proof. split; eauto. Qed.

Lemma live_live cs l : live_senders cs (live_senders cs l) = live_senders cs l.
Proof. unfold live_senders. rewrite list_filter_filter. apply list_filter_iff. tauto. Qed.

Lemma live_prefixes_live cs l : live_prefixes cs (live_prefixes cs l) = live_prefixes cs l.
Proof. unfold live_prefixes. rewrite list_filter_filter. apply list_filter_iff. tauto. Qed.

Lemma pruned_trans cs s1 s2 s3 : pruned cs s1 s2 -> pruned cs s2 s3 -> pruned cs s1 s3.
Proof.
  intros [t1 k1 p1 l1] [t2 k2 p2 l2]. split; [lia| | |by auto].
  - intros k l Hl. destruct (k2 k l Hl) as (l' & Hl' & Hor). destruct (k1 k l' Hl') as (l0 & Hl0 & Hor0).
    exists l0. split; [done|]. destruct Hor as [->| ->], Hor0 as [->| ->]; rewrite ?live_live; auto.
  - destruct p2 as [->| ->], p1 as [->| ->]; rewrite ?live_prefixes_live; auto.
Qed.

Lemma pruned_key cs self k l :
  keys self !! k = Some l ->
  pruned cs self (mk (<[k := live_senders cs l]> (keys self)) (prefixes self)).
Proof.
  intros Hl. split; [|..|by left|].
  - unfold total_subscriptions. simpl. fold (senders_total (keys self)).
    fold (senders_total (<[k := live_senders cs l]> (keys self))).
    pose proof (senders_total_insert (keys self) k (live_senders cs l)) as H1. rewrite Hl in H1. simpl in H1.
    pose proof (length_filter (fun tx => is_closed cs tx = false) l) as H2. unfold live_senders in *. lia.
  - intros k' l'. simpl. rewrite lookup_insert. case_decide as Hd; [subst k'; intros [= <-]; eauto|eauto].
  - intros n [k'|p] c; simpl; [|done]. intros (l' & Hl' & Hc) Ho. rewrite lookup_insert. case_decide as Hd; [|eauto].
    subst k. rewrite Hl in Hl'. injection Hl' as ->. eexists. split; [done|]. by apply list_elem_of_filter.
Qed.

Lemma pruned_prefixes cs self : pruned cs self (mk (keys self) (live_prefixes cs (prefixes self))).
Proof.
  split; [|by eauto|by right|].
  - unfold total_subscriptions. simpl. pose proof (length_filter (fun p => is_closed cs p.2 = false) (prefixes self)).
    unfold live_prefixes. lia.
  - intros n [k|p] c; simpl; [done|]. intros Hp Ho. by apply list_elem_of_filter.
Qed.

Lemma prune_lookup cs self k :
  keys (prune self cs) !! k =
  (l ← keys self !! k; if decide (live_senders cs l = []) then None else Some (live_senders cs l)).
Proof.
  simpl. rewrite map_lookup_filter, lookup_fmap. destruct (keys self !! k) as [l|]; simpl; [|done].
  case_guard; case_decide; done.
Qed.

Lemma pruned_prune cs self : pruned cs self (prune self cs).
Proof.
  split; [|..|by right|].
  - unfold total_subscriptions. fold (senders_total (keys (prune self cs))). fold (senders_total (keys self)).
    apply Nat.add_le_mono; [|apply length_filter]. apply senders_total_mono. intros k. rewrite prune_lookup.
    destruct (keys self !! k) as [l|]; simpl; [|done]. case_decide; simpl; [lia|]. apply length_filter.
  - intros k l. rewrite prune_lookup. destruct (keys self !! k) as [l0|]; simpl; [|done].
    case_decide; [done|]. intros [= <-]. eauto.
  - intros n [k|p] c; [|by intros Hp Ho; apply list_elem_of_filter].
    intros (l & Hl & Hc) Ho. unfold registered. rewrite prune_lookup, Hl. simpl.
    assert (c ∈ live_senders cs l) as Hin by (by apply list_elem_of_filter).
    case_decide as Hd; [|eauto]. rewrite Hd in Hin. by apply not_elem_of_nil in Hin.
Qed.

Lemma prune_open cs self n f c : registered (prune self cs) n f c -> is_closed cs c = false.
Proof.
  destruct f as [k|p].
  - intros (l & Hl & Hc). rewrite prune_lookup in Hl. destruct (keys self !! (n, k)) as [l0|]; simpl in Hl; [|done].
    case_decide; [done|]. injection Hl as <-. by apply list_elem_of_filter in Hc as [? _].
  - by intros [? _]%list_elem_of_filter.
Qed.

Lemma ensure_capacity_spec self cs :
  let r := ensure_capacity self cs in
  pruned cs self r.2 /\
  match r.1 with
  | Ok _ => (Z.of_nat (total_subscriptions r.2) < MAX_TOTAL_SUBSCRIPTIONS)
  | Err e => e = CapacityExceeded "watch subscription limit reached" /\
      (MAX_TOTAL_SUBSCRIPTIONS <= Z.of_nat (total_subscriptions r.2)) /\
      forall n f c, registered r.2 n f c -> is_closed cs c = false
  end.
Proof.
  unfold ensure_capacity. destruct (decide _) as [Hlt|Hge]; [split; [apply pruned_refl|done]|].
  destruct (decide _) as [Hf|Hf]; (split; [apply pruned_prune|]); cbn [fst snd].
  - split_and!; [done..|]. intros n f c. apply prune_open.
  - lia.
Qed.

Definition subscribe (self : t) (cs : chans) (ns : bytes) (f : KeyFilter) : eresult nat * t * chans :=
  match f with
  | Exact k => subscribe_key self cs ns k
  | Prefix p => subscribe_prefix self cs ns p
  end.

(** The registry with one more sender. *)
Definition with_sender (self : t) (ns : bytes) (f : KeyFilter) (tx : nat) : t :=
  match f with
  | Exact k => mk (<[(ns, k) := default [] (keys self !! (ns, k)) ++ [tx]]> (keys self)) (prefixes self)
  | Prefix p => mk (keys self) (prefixes self ++ [((ns, p), tx)])
  end.

(** Both subscriptions prune, check and add. *)
Lemma subscribe_eq self cs ns f :
  exists s1, pruned cs self s1 /\
    subscribe self cs ns f =
    match (ensure_capacity s1 cs).1 with
    | Err e => (Err e, (ensure_capacity s1 cs).2, cs)
    | Ok _ => let '(tx, cs') := channel WATCH_CHANNEL_CAPACITY cs in
              (Ok tx, with_sender (ensure_capacity s1 cs).2 ns f tx, cs')
    end.
Proof.
  destruct f as [k|p]; simpl.
  - unfold subscribe_key. destruct (keys self !! (ns, k)) as [l|] eqn:Hl; eexists;
      (split; [first [by apply pruned_key | apply pruned_refl]|]); by destruct (ensure_capacity _ cs) as [[] ?].
  - unfold subscribe_prefix. eexists. split; [apply pruned_prefixes|]. by destruct (ensure_capacity _ cs) as [[] ?].
Qed.

Lemma with_sender_registered self ns f tx n g c :
  registered (with_sender self ns f tx) n g c <-> registered self n g c \/ (n, g, c) = (ns, f, tx).
Proof.
  destruct f as [k|p], g as [k'|p']; simpl; try (split; [by left|by intros [?|[=]]]).
  - rewrite lookup_insert. destruct (decide ((ns, k) = (n, k'))) as [[= <- <-]|Hne].
    + split.
      * intros (l & [= <-] & [Hc| ->%list_elem_of_singleton]%elem_of_app); [|by right]. left.
        destruct (keys self !! (ns, k)) as [l|]; [eauto|by apply not_elem_of_nil in Hc].
      * intros Hor. eexists. split; [done|]. apply elem_of_app.
        destruct Hor as [(l & -> & Hc)|[= ->]]; [by left|right; by apply list_elem_of_singleton].
    + split; [by left|]. intros [?|[= -> -> ->]]; done.
  - rewrite elem_of_app, list_elem_of_singleton. naive_solver.
Qed.

Lemma with_sender_total self ns f tx :
  total_subscriptions (with_sender self ns f tx) = S (total_subscriptions self).
Proof.
  unfold total_subscriptions. destruct f as [k|p]; simpl.
  - pose proof (senders_total_insert (keys self) (ns, k) (default [] (keys self !! (ns, k)) ++ [tx])) as H1.
    rewrite length_app in H1. simpl in H1. unfold senders_total in H1. lia.
  - rewrite length_app. simpl. lia.
Qed.

Lemma inv_with_sender self cs cs' ns f n tx :
  inv self cs -> channel n cs = (tx, cs') -> inv (with_sender self ns f tx) cs'.
Proof.
  intros Hi Hch. destruct (channel_new _ _ _ _ Hch) as (Hno & Hyes & _).
  assert (forall m g c, registered self m g c -> c <> tx) as Hfresh.
  { intros m g c Hr ->. apply (inv_alloc _ _ Hi) in Hr. congruence. }
  split.
  - intros m g m' g' c [H1|E1]%with_sender_registered [H2|E2]%with_sender_registered; simplify_eq;
      [by eapply (inv_one _ _ Hi)|by apply Hfresh in H1|by apply Hfresh in H2|done].
  - intros k l. destruct f as [k'|p]; simpl; [|by apply (inv_keys _ _ Hi)]. rewrite lookup_insert.
    case_decide as Hd; [|by apply (inv_keys _ _ Hi)]. intros [= <-]. subst k.
    destruct (keys self !! (ns, k')) as [l|] eqn:Hl; simpl; [|apply NoDup_singleton].
    apply NoDup_app. split_and!; [by apply (inv_keys _ _ Hi _ _ Hl)| |apply NoDup_singleton].
    intros c Hc ->%list_elem_of_singleton. by eapply (Hfresh ns (Exact k') tx); [exists l|].
  - destruct f as [k'|p]; simpl; [by apply (inv_prefixes _ _ Hi)|]. rewrite fmap_app. apply NoDup_app.
    split_and!; [by apply (inv_prefixes _ _ Hi)| |apply NoDup_singleton].
    intros c ([[m q] c'] & -> & Hin)%list_elem_of_fmap. simpl. intros ->%list_elem_of_singleton.
    by eapply (Hfresh m (Prefix q) tx).
  - intros m g c [Hr|[= -> -> ->]]%with_sender_registered; [|done].
    destruct (channel_old _ _ _ _ c Hch (Hfresh _ _ _ Hr)) as (-> & _). by eapply (inv_alloc _ _ Hi).
Qed.

(** The states the registry reaches, with the channels. *)
Inductive reachable : t -> chans -> Prop :=
| reach_new cs : reachable new cs
| reach_subscribe self cs ns f r self' cs' :
    reachable self cs -> subscribe self cs ns f = (r, self', cs') -> reachable self' cs'
| reach_notify self cs ns key ev :
    reachable self cs -> reachable (notify self cs ns key ev).1 (notify self cs ns key ev).2
| reach_receivers self cs cs' :
    reachable self cs -> (forall c, allocated cs' c = allocated cs c) -> reachable self cs'.

Lemma reachable_subscribe self cs ns f :
  reachable self cs -> reachable (subscribe self cs ns f).1.2 (subscribe self cs ns f).2.
Proof. intros Hr. eapply (reach_subscribe _ _ ns f (subscribe self cs ns f).1.1 _ _ Hr). by rewrite <- !surjective_pairing. Qed.

Lemma send_all_length senders ev : forall cs, (length (send_all senders ev cs).1 <= length senders)%nat.
Proof.
  induction senders as [|tx l IH]; intros cs; cbn [send_all]; [done|].
  destruct (try_send cs tx ev) as [b cs1]. specialize (IH cs1).
  destruct (send_all l ev cs1) as [kept cs2]. simpl in *. destruct b; simpl; lia.
Qed.

Lemma send_prefixes_length l ns key ev : forall cs,
  (length (send_prefixes l ns key ev cs).1 <= length l)%nat.
Proof.
  induction l as [|[[n p] tx] l IH]; intros cs; cbn [send_prefixes]; [done|].
  destruct (bool_decide (n = ns) && starts_with key p)%bool.
  - destruct (try_send cs tx ev) as [b cs1]. specialize (IH cs1).
    destruct (send_prefixes l ns key ev cs1) as [kept cs2]. simpl in *. destruct b; simpl; lia.
  - specialize (IH cs). destruct (send_prefixes l ns key ev cs) as [kept cs2]. simpl in *. lia.
Qed.

Lemma notify_total self cs ns key ev :
  (total_subscriptions (notify self cs ns key ev).1 <= total_subscriptions self)%nat.
Proof.
  unfold notify. destruct (_ && _)%bool; [done|].
  assert (senders_total (send_keys self cs ns key ev).1 <= senders_total (keys self))%nat as Hk.
  { unfold send_keys. destruct (keys self !! (ns, key)) as [l|] eqn:Hl; [|done].
    pose proof (send_all_length l ev cs) as Hlen. destruct (send_all l ev cs) as [kept cs1]. simpl in *.
    apply senders_total_mono. intros k. case_decide.
    - rewrite lookup_delete. case_decide; simpl; lia.
    - rewrite lookup_insert. case_decide as Hd; [|done]. subst k. by rewrite Hl. }
  destruct (send_keys self cs ns key ev) as [keys1 cs1].
  pose proof (send_prefixes_length (prefixes self) ns key ev cs1) as Hp.
  destruct (send_prefixes (prefixes self) ns key ev cs1) as [kept cs2].
  unfold total_subscriptions, senders_total in *. simpl in *. lia.
Qed.

Lemma subscribe_error self cs ns f e :
  (subscribe self cs ns f).1.1 = Err e -> e = CapacityExceeded "watch subscription limit reached".
Proof.
  destruct (subscribe_eq self cs ns f) as (s1 & _ & ->). destruct (ensure_capacity_spec s1 cs) as [_ Hr].
  destruct (ensure_capacity s1 cs) as [[[]|e'] s2]; cbn [fst snd] in *; [by destruct (channel _ _)|].
  intros [= <-]. by destruct Hr.
Qed.

(** What a subscription does, from any registry. *)
Lemma subscribe_spec self cs ns f :
  inv self cs ->
  let '(r, self', cs') := subscribe self cs ns f in
  inv self' cs' /\
  (forall n g d, registered self n g d -> is_closed cs d = false -> registered self' n g d) /\
  (forall n g d, registered self' n g d -> registered self n g d \/ r = Ok d /\ n = ns /\ g = f) /\
  match r with
  | Ok c => (Z.of_nat (total_subscriptions self') <= MAX_TOTAL_SUBSCRIPTIONS) /\
            registered self' ns f c /\ allocated cs c = false /\ sent cs' c = []
  | Err e => cs' = cs /\ (MAX_TOTAL_SUBSCRIPTIONS <= Z.of_nat (total_subscriptions self') <= Z.of_nat (total_subscriptions self)) /\
             forall n g d, registered self' n g d -> is_closed cs d = false
  end.
Proof.
  intros Hi. destruct (subscribe_eq self cs ns f) as (s1 & Hp1 & ->).
  destruct (ensure_capacity_spec s1 cs) as [Hp2 Hr]. destruct (ensure_capacity s1 cs) as [r s2]. cbn [fst snd] in *.
  pose proof (pruned_trans _ _ _ _ Hp1 Hp2) as Hp. pose proof (inv_pruned _ _ _ Hp Hi) as Hi2.
  destruct r as [[]|e].
  - destruct (channel WATCH_CHANNEL_CAPACITY cs) as [tx cs'] eqn:Hch.
    destruct (channel_new _ _ _ _ Hch) as (Hno & _ & _ & Hs). split_and!; try done.
    + by eapply inv_with_sender.
    + intros n g d Hd Ho. apply with_sender_registered. left. by eapply (pr_live _ _ _ Hp).
    + intros n g d [Hd|[= -> -> ->]]%with_sender_registered; [left; by eapply pruned_registered|by right].
    + rewrite with_sender_total. lia.
    + apply with_sender_registered. by right.
  - destruct Hr as (-> & Hge & Ho). split_and!; try done.
    + apply (pr_live _ _ _ Hp).
    + intros n g d Hd. left. by eapply pruned_registered.
    + pose proof (pr_total _ _ _ Hp); lia.
Qed.

Lemma reachable_inv self cs :
  reachable self cs -> inv self cs /\ (Z.of_nat (total_subscriptions self) <= MAX_TOTAL_SUBSCRIPTIONS).
Proof.
  induction 1 as [cs|self cs ns f r self' cs' _ [Hi Ht] Hs|self cs ns key ev _ [Hi Ht]|self cs cs' _ [Hi Ht] Ha].
  - split; [|unfold total_subscriptions, MAX_TOTAL_SUBSCRIPTIONS; simpl; rewrite map_fold_empty; simpl; lia].
    split.
    + intros n f n' f' c Hr. by apply nobody_registered in Hr.
    + intros k l Hl. change (keys new) with (∅ : gmap (bytes * bytes) (list nat)) in Hl.
      by rewrite lookup_empty in Hl.
    + apply NoDup_nil_2.
    + intros n f c Hr. by apply nobody_registered in Hr.
  - pose proof (subscribe_spec self cs ns f Hi) as Hsp. rewrite Hs in Hsp. destruct Hsp as (Hi' & _ & _ & Hr).
    split; [done|]. destruct r; [by destruct Hr|]. destruct Hr as (_ & ? & _). lia.
  - split; [by apply inv_notify|]. pose proof (notify_total self cs ns key ev). lia.
  - split; [|done]. destruct Hi. split; try done. intros n f c Hr. rewrite Ha. eauto.
Qed.

(** C36: A write is announced to exactly the subscriptions that watch its key.  In every
    state of the registry, the channels of the subscriptions whose namespace and
    key or prefix match take the event once, at the end of what they were sent,
    or refuse it because they are full or closed and are dropped; no other channel
    sees it and no other subscription is lost. *)
Theorem notify_exact self cs ns key ev n f c :
  reachable self cs -> registered self n f c ->
  let '(self', cs') := notify self cs ns key ev in
  if decide (concerns ns key n f) then
    if accepts cs c ev then sent cs' c = sent cs c ++ [ev] /\ registered self' n f c
    else sent cs' c = sent cs c /\ ~ registered self' n f c
  else sent cs' c = sent cs c /\ registered self' n f c.
Proof.
  intros [Hi _]%reachable_inv Hr.
  destruct (notify_spec self cs ns key ev Hi) as ((Hd1 & Hd2 & _) & Hreg & _).
  destruct (notify self cs ns key ev) as [self' cs']. cbn [fst snd] in *.
  specialize (Hreg n f c). destruct (decide (concerns ns key n f)) as [Hc|Hc].
  - pose proof (proj2 (targets_iff _ _ _ _ _ _ _ Hi Hr) Hc) as Ht. specialize (Hd1 c Ht).
    destruct (accepts cs c ev) eqn:Ha; (split; [done|]); rewrite Hreg.
    + split; [done|]. intros _. congruence.
    + intros [_ Hno]. specialize (Hno Hc). congruence.
  - split; [|rewrite Hreg; split; [done|tauto]].
    apply Hd2. intros Ht. by apply Hc, (targets_iff _ _ _ _ _ _ _ Hi Hr).
Qed.

(** The limit on subscriptions is kept and is not applied too early.  The registry
    never holds more than the limit; a subscription fails only when it is full of
    senders whose receivers are all still there, and then changes no channel; when
    it succeeds every live subscription is kept. *)
Theorem subscribe_capacity self cs ns f :
  reachable self cs ->
  let '(r, self', cs') := subscribe self cs ns f in
  (Z.of_nat (total_subscriptions self') <= MAX_TOTAL_SUBSCRIPTIONS) /\
  (forall n g d, registered self n g d -> is_closed cs d = false -> registered self' n g d) /\
  match r with
  | Ok c => registered self' ns f c /\ sent cs' c = [] /\ forall n g, ~ registered self n g c
  | Err e => e = CapacityExceeded "watch subscription limit reached" /\ cs' = cs /\
      Z.of_nat (total_subscriptions self') = MAX_TOTAL_SUBSCRIPTIONS /\
      forall n g d, registered self' n g d -> is_closed cs d = false
  end.
Proof.
  intros [Hi Ht]%reachable_inv. pose proof (subscribe_spec self cs ns f Hi) as Hs.
  pose proof (subscribe_error self cs ns f) as He.
  destruct (subscribe self cs ns f) as [[r self'] cs'] eqn:Hsub. destruct Hs as (Hi' & Hl & _ & Hr).
  destruct r as [c|e].
  - destruct Hr as (Htot & Hreg & Hno & Hsent). split_and!; try done.
    intros n g Hc. apply (inv_alloc _ _ Hi) in Hc. congruence.
  - destruct Hr as (-> & [Hge Hle] & Ho). split_and!; try done; [lia| |lia]. by apply He.
Qed.
End Ops.

(** ** A process with channels as lists *)

(** Documents kept as their bytes. *)
#[local] Instance bytes_json : SerdeJson := {
  json := bytes;
  json_to_vec := Ok;
  json_from_slice := Ok;
}.

Record list_chan := mkChan { cap : nat; receiver_gone : bool; accepted : list WatchEvent }.

Definition chan_full (c : list_chan) : bool := bool_decide (cap c <= length (accepted c))%nat.

(** A channel takes [cap] events and one more for its sender, until its receiver
    is dropped; nothing is received here. *)
Definition list_try_send (cs : list list_chan) (c : nat) (ev : WatchEvent) : bool * list list_chan :=
  match cs !! c with
  | Some ch =>
      if (receiver_gone ch || chan_full ch)%bool then (false, cs)
      else (true, <[c := mkChan (cap ch) false (accepted ch ++ [ev])]> cs)
  | None => (false, cs)
  end.

#[local] Program Instance list_mpsc : Mpsc := {
  chans := list list_chan;
  channel n cs := (length cs, cs ++ [mkChan (S (Z.to_nat n)) false []]);
  is_closed cs c := default true (receiver_gone <$> cs !! c);
  try_send := list_try_send;
  allocated cs c := bool_decide (c < length cs)%nat;
  sent cs c := default [] (accepted <$> cs !! c);
}.
Next Obligation.
  intros n cs c cs' [= <- <-]. rewrite list_lookup_middle, length_app by done. simpl. split_and!; try done.
  - apply bool_decide_eq_false. lia.
  - apply bool_decide_eq_true. lia.
Qed.
Next Obligation.
  intros n cs c cs' d [= <- <-] Hne. rewrite length_app. simpl.
  destruct (decide (d < length cs)%nat) as [Hd|Hd].
  - rewrite lookup_app_l by done. split_and!; try done. apply bool_decide_ext. lia.
  - rewrite (lookup_ge_None_2 _ d) by (rewrite length_app; simpl; lia).
    rewrite (lookup_ge_None_2 cs d) by lia. split_and!; try done. apply bool_decide_ext. lia.
Qed.
Next Obligation.
  intros cs c ev b cs'. unfold list_try_send. destruct (cs !! c) as [ch|] eqn:Hc; [|by intros [= <- <-]; rewrite Hc].
  destruct (_ || _)%bool; intros [= <- <-]; [by rewrite Hc|].
  rewrite list_lookup_insert_eq by (by eapply lookup_lt_Some). done.
Qed.
Next Obligation.
  intros cs c ev b cs' d. unfold list_try_send. destruct (cs !! c) as [ch|]; [|by intros [= <- <-]].
  destruct (_ || _)%bool; intros [= <- <-]; [done|]. intros Hne.
  rewrite list_lookup_insert_ne by done. split; [done|]. intros ev'. destruct (cs !! d) as [ch'|]; [|done].
  by destruct (_ || _)%bool.
Qed.
Next Obligation.
  intros cs c ev. unfold list_try_send. destruct (cs !! c) as [ch|]; simpl; [|done]. by intros ->.
Qed.
Next Obligation.
  intros cs c ev d. unfold list_try_send. destruct (cs !! c) as [ch|]; [|done].
  destruct (_ || _)%bool; [done|]. cbn [snd]. by rewrite length_insert.
Qed.

(** Two subscriptions of namespace ["a"], to the key ["k"] and to the prefix ["x"]. *)
Definition ex_sub1 : t * @chans _ list_mpsc :=
  let r := subscribe new ([] : @chans _ list_mpsc) (lit "a") (Exact (lit "k")) in (r.1.2, r.2).
Definition ex_subs : t * @chans _ list_mpsc :=
  let r := subscribe ex_sub1.1 ex_sub1.2 (lit "a") (Prefix (lit "x")) in (r.1.2, r.2).

Lemma ex_subs_reachable : reachable ex_subs.1 ex_subs.2.
Proof. exact (reachable_subscribe _ _ _ _ (reachable_subscribe _ _ _ _ (reach_new []))). Qed.

Lemma notify_exact_witness :
  let '(self', cs') := notify ex_subs.1 ex_subs.2 (lit "a") (lit "xy") (EvDel (lit "xy") 7) in
  sent cs' 1%nat = [EvDel (lit "xy") 7] /\ registered self' (lit "a") (Prefix (lit "x")) 1%nat.
Proof.
  assert (registered ex_subs.1 (lit "a") (Prefix (lit "x")) 1%nat) as Hr.
  { unfold registered. apply (bool_decide_unpack _). vm_compute. exact I. }
  exact (notify_exact ex_subs.1 ex_subs.2 (lit "a") (lit "xy") (EvDel (lit "xy") 7)
    (lit "a") (Prefix (lit "x")) 1%nat ex_subs_reachable Hr).
Defined.

Lemma subscribe_capacity_witness :
  let '(r, self', cs') := subscribe ex_subs.1 ex_subs.2 (lit "b") (Exact (lit "k")) in
  r = Ok 2%nat /\ registered self' (lit "b") (Exact (lit "k")) 2%nat /\ sent cs' 2%nat = [].
Proof.
  pose proof (subscribe_capacity ex_subs.1 ex_subs.2 (lit "b") (Exact (lit "k")) ex_subs_reachable) as Hc.
  destruct (subscribe ex_subs.1 ex_subs.2 (lit "b") (Exact (lit "k"))) as [[r self'] cs'] eqn:Hs.
  assert (r = Ok 2%nat) as -> by (change r with (r, self', cs').1.1; rewrite <- Hs; vm_compute; reflexivity).
  destruct Hc as (_ & _ & Hreg & Hsent & _). exact (conj eq_refl (conj Hreg Hsent)).
Defined.

End WatchRegistry.
