(* ===== verification/Stream.v ===== *)
(** * The change stream, [crates/engine/src/log/mod.rs]

    What a subscriber is sent before the live events: [current_entries] reads the
    live keys of a namespace, [scan_since] replays the records of its files that
    are newer than a revision.  The theorems: the snapshot is exactly the live
    keys; and a client that had the state at a revision and applies the replay
    since then has the current state. *)

From stdpp Require Import base tactics list gmap sorting strings.
From Stdlib Require Import ZArith Lia.
From S2P Require Import Prelude Record Index LogFile ValueStore Recover NsLog NsRepr NsSpec Reclaim NsBatch NsSim NsContract NsJournal NsRecover Watch.

Open Scope Z_scope.

Module Stream.
Section Stream.
Context {crc_impl : CrcFast} {blake : Blake3} `{SerdeJson}.

(** Metadata that does not parse is dropped with a warning. *)
Definition parse_meta (meta_bytes : bytes) : option json :=
  if decide (meta_bytes = []) then None else
  match json_from_slice meta_bytes with
  | Ok v => Some v
  | Err _ => None
  end.

(** ** Snapshot *)

Definition live_matching (idx : NsIndex.t) (f : KeyFilter) (now : Z)
    : list (bytes * IndexEntry * option Z) :=
  (fun ke => (ke.1, ke.2, NsIndex.get_ttl idx ke.1)) <$>
    filter (fun ke => (filter_matches f ke.1 && negb (NsIndex.is_expired idx ke.1 now))%bool = true)
      (NsIndex.iter idx).

(** The slots are positions of [live], so the lookup succeeds. *)
Definition entry_event (live : list (bytes * IndexEntry * option Z)) (r : nat * bytes * bytes)
    : option WatchEvent :=
  let '(slot, value, meta_bytes) := r in
  '(key, entry, expires_at_ms) ← live !! slot;
  Some (EvSet key value (parse_meta meta_bytes) expires_at_ms (ie_tstamp_ms entry)).

Definition current_entries (self : NsLog.t) (f : KeyFilter) (now : Z) : eresult (list WatchEvent) :=
  let live := live_matching (NsLog.index self) f now in
  if decide (live = []) then Ok [] else
  let misses := imap (fun i l => (i, l.1.2)) live in
  read_results ← NsLog.bulk_read self misses;
  Ok (omap (M:=list) (entry_event live) read_results).

(** ** Replay *)

(** The value of a put record: the field itself, or the blob it names.  [None]
    skips the event. *)
Definition scan_value (values : ValueStore.t) (fl : Z) (field : bytes) : option bytes :=
  if has_flag fl flags.VALUE_SEP then
    if decide (zlen field <> 16) then None else
    match ValueStore.get values field with
    | Ok b => if decide (ValueStore.content_hash b = field) then Some b else None
    | Err _ => None
    end
  else Some field.

(** The event of a record that passed its checks. *)
Definition record_event (values : ValueStore.t) (f : KeyFilter) (hdr : RecordHeader) (body : bytes)
    : option WatchEvent :=
  let key := take (Z.to_nat (key_size hdr)) body in
  if negb (filter_matches f key) then None else
  if has_flag (rflags hdr) flags.TOMBSTONE then Some (EvDel key (tstamp_ms hdr)) else
  let val_start := key_size hdr in
  let val_end := val_start + val_size hdr in
  let meta_end := val_end + meta_size hdr in
  value ← scan_value values (rflags hdr) (NsLog.range body val_start val_end);
  let metadata := parse_meta (NsLog.range body val_end meta_end) in
  let expires_at_ms := if has_flag (rflags hdr) flags.NO_EXPIRY then None else Some (expires_at_ms hdr) in
  Some (EvSet key value metadata expires_at_ms (tstamp_ms hdr)).

(** Every iteration advances by at least a header, so the size of the file is
    enough fuel. *)
Fixpoint scan_loop (fuel : nat) (file : LogFile.t) (end_offset : Z) (f : KeyFilter)
    (since_revision : Z) (values : ValueStore.t) (offset : Z) (events : list WatchEvent)
    : list WatchEvent :=
  match fuel with
  | O => events
  | S fuel =>
      if decide (offset + HEADER_LEN <= end_offset) then
        match LogFile.read_exact file offset HEADER_LEN with
        | Err _ => events
        | Ok hdr_bytes =>
            match parse_header hdr_bytes offset with
            | Err _ => events
            | Ok hdr =>
                if decide (key_size hdr = 0) then events else
                let record_len := record_len hdr in
                if decide (offset + record_len > end_offset) then events else
                let is_ttl := has_flag (rflags hdr) flags.TTL_UPDATE in
                if (bool_decide (tstamp_ms hdr > since_revision) && negb is_ttl)%bool then
                  match LogFile.read_exact file (offset + HEADER_LEN) (body_len hdr) with
                  | Err _ => events
                  | Ok body =>
                      match verify_crc hdr hdr_bytes body offset with
                      | Err _ => events
                      | Ok _ =>
                          let events := events ++ option_list (record_event values f hdr body) in
                          scan_loop fuel file end_offset f since_revision values (offset + record_len) events
                      end
                  end
                else scan_loop fuel file end_offset f since_revision values (offset + record_len) events
            end
        end
      else events
  end.

Definition scan_file_records (file : LogFile.t) (end_offset : Z) (f : KeyFilter)
    (since_revision : Z) (values : ValueStore.t) (events : list WatchEvent) : eresult (list WatchEvent) :=
  Ok (scan_loop (S (Z.to_nat end_offset)) file end_offset f since_revision values 0 events).

(** The sealed files in ascending order of their id, then the active file. *)
Definition files_in_order (self : NsLog.t) : list LogFile.t :=
  (merge_sort (by_key fst) (map_to_list (NsLog.sealed self))).*2 ++ [NsLog.active self].

Fixpoint scan_files (self : NsLog.t) (files : list LogFile.t) (f : KeyFilter) (since_revision : Z)
    (events : list WatchEvent) : eresult (list WatchEvent) :=
  match files with
  | [] => Ok events
  | file :: files =>
      let end_ := LogFile.data_end_offset file in
      events ← scan_file_records file end_ f since_revision (NsLog.values self) events;
      scan_files self files f since_revision events
  end.

Definition scan_since (self : NsLog.t) (f : KeyFilter) (since_revision : Z)
    : eresult (list WatchEvent) :=
  events ← scan_files self (files_in_order self) f since_revision [];
  Ok (merge_sort (by_key event_revision) events).

(** ** What a scan finds *)

(** The event of a record of a file. *)
Definition rec_event (values : ValueStore.t) (f : KeyFilter) (since : Z) (r : rec) : option WatchEvent :=
  if (bool_decide (r_tstamp r > since) && negb (has_flag (r_flags r) flags.TTL_UPDATE))%bool
  then record_event values f (rec_header r) (rec_body r) else None.

Lemma record_event_rec values f r :
  record_event values f (rec_header r) (rec_body r) =
  if negb (filter_matches f (r_key r)) then None else
  if has_flag (r_flags r) flags.TOMBSTONE then Some (EvDel (r_key r) (r_tstamp r)) else
  value ← scan_value values (r_flags r) (r_value r);
  Some (EvSet (r_key r) value (parse_meta (r_meta r)) (rec_ttl r) (r_tstamp r)).
Proof.
  unfold record_event. rewrite take_key.
  change (key_size (rec_header r)) with (zlen (r_key r)).
  change (val_size (rec_header r)) with (zlen (r_value r)).
  change (meta_size (rec_header r)) with (zlen (r_meta r)).
  rewrite (range_at _ (r_key r) (r_value r) (r_meta r) (zlen (r_key r)) (zlen (r_key r) + zlen (r_value r))) by done.
  rewrite (range_at _ (r_key r ++ r_value r) (r_meta r) [] (zlen (r_key r) + zlen (r_value r)))
    by (unfold rec_body; rewrite ?app_nil_r, ?zlen_app, <- ?app_assoc; done || lia).
  done.
Qed.

(** Reading the header and the body of a record that is there. *)
Lemma read_exact_rec file pre r post :
  rec_wf r -> LogFile.data file = pre ++ rec_bytes r ++ post ->
  exists hd, LogFile.read_exact file (zlen pre) HEADER_LEN = Ok hd /\
    parse_header hd (zlen pre) = Ok (rec_header r) /\
    LogFile.read_exact file (zlen pre + HEADER_LEN) (body_len (rec_header r)) = Ok (rec_body r) /\
    verify_crc (rec_header r) hd (rec_body r) (zlen pre) = Ok tt.
Proof.
  intros Hwf Hd. destruct (rec_bytes_split r) as (hd & Heq & Hhd & Hcrc). exists hd.
  unfold LogFile.read_exact. rewrite Hd, Heq, <- !app_assoc, <- Hhd. split_and!; [|..|done].
  - by rewrite sub_mid.
  - rewrite <- (app_nil_r hd). by apply (parse_rec_header r hd []).
  - rewrite rec_body_len, <- zlen_app, app_assoc. by rewrite sub_mid.
Qed.

Lemma scan_loop_recs file end_offset f since values rest rs : forall fuel pre events,
  Forall rec_wf rs -> Forall (fun r => r_key r <> []) rs ->
  LogFile.data file = pre ++ recs_bytes rs ++ rest -> end_offset = zlen pre + zlen (recs_bytes rs) ->
  (length rs < fuel)%nat ->
  scan_loop fuel file end_offset f since values (zlen pre) events
  = events ++ omap (rec_event values f since) rs.
Proof.
  induction rs as [|r rs IH]; intros fuel pre events Hwf Hk Hd He Hfuel;
    (destruct fuel as [|fuel]; simpl in Hfuel; [lia|]); cbn [scan_loop].
  - rewrite decide_False; [by rewrite app_nil_r|]. change (zlen (recs_bytes [])) with 0 in He.
    unfold HEADER_LEN. lia.
  - apply Forall_cons in Hwf as [Hr Hwf]. apply Forall_cons in Hk as [Hkr Hk].
    rewrite recs_bytes_cons, <- app_assoc in Hd. rewrite recs_bytes_cons, zlen_app in He.
    pose proof (rec_bytes_length r). pose proof (zlen_nonneg (rec_body r)).
    pose proof (zlen_nonneg (recs_bytes rs)).
    rewrite decide_True by lia.
    destruct (read_exact_rec file pre r (recs_bytes rs ++ rest) Hr Hd) as (hd & -> & -> & -> & ->).
    rewrite decide_False.
    2: { change (key_size (rec_header r)) with (zlen (r_key r)). intros Hz. apply Hkr.
         destruct (r_key r); [done|]. rewrite zlen_cons in Hz. zlia. }
    cbv zeta. rewrite rec_header_len, decide_False by lia. rewrite <- zlen_app.
    assert (forall evs, scan_loop fuel file end_offset f since values (zlen (pre ++ rec_bytes r)) evs
      = evs ++ omap (rec_event values f since) rs) as IH'.
    { intros evs. apply IH; try done; [by rewrite <- app_assoc|rewrite zlen_app; lia|lia]. }
    rewrite !IH'.
    assert (omap (rec_event values f since) (r :: rs)
      = option_list (rec_event values f since r) ++ omap (rec_event values f since) rs) as ->
      by (cbn; by destruct (rec_event values f since r)).
    unfold rec_event at 3. change (tstamp_ms (rec_header r)) with (r_tstamp r).
    change (rflags (rec_header r)) with (r_flags r). destruct (_ && _)%bool; [|done]. by rewrite <- app_assoc.
Qed.

(** The file holds the records, and a scan sees where they end. *)
Definition holds (file : LogFile.t) (rs : list rec) : Prop :=
  Forall rec_wf rs /\ Forall (fun r => r_key r <> []) rs /\
  LogFile.data_end_offset file = zlen (recs_bytes rs) /\
  exists rest, LogFile.data file = recs_bytes rs ++ rest.

Lemma scan_files_recs self f since files rss : Forall2 holds files rss -> forall events,
  scan_files self files f since events
  = Ok (events ++ omap (rec_event (NsLog.values self) f since) (concat rss)).
Proof.
  induction 1 as [|file rs files rss (Hwf & Hk & He & rest & Hd) _ IH]; intros events; cbn [scan_files concat].
  - by rewrite app_nil_r.
  - unfold scan_file_records. rewrite He.
    rewrite (scan_loop_recs file _ f since (NsLog.values self) rest rs _ []); try done.
    + cbn [mbind result_bind]. by rewrite IH, omap_app, app_assoc.
    + pose proof (recs_bytes_length_le rs). zlia.
Qed.

Lemma omap_sorted {A B} (h : A -> option B) (g : A -> Z) (g' : B -> Z) (l : list A) :
  (forall x y, h x = Some y -> g' y = g x) ->
  StronglySorted Z.lt (g <$> l) -> StronglySorted Z.lt (g' <$> omap h l).
Proof.
  intros Hg. induction l as [|x l IH]; csimpl; [constructor|]. intros [Hs Hf]%StronglySorted_inv.
  destruct (h x) as [y|] eqn:Hx; [|by apply IH]. csimpl. constructor; [by apply IH|].
  apply Forall_forall. intros z (y' & -> & (x' & Hx' & Hy')%list_elem_of_omap)%list_elem_of_fmap.
  rewrite (Hg _ _ Hx), (Hg _ _ Hy'). rewrite Forall_forall in Hf. by apply Hf, list_elem_of_fmap_2.
Qed.

Lemma rec_event_spec values f since r ev :
  rec_event values f since r = Some ev ->
  event_revision ev = r_tstamp r /\ since < r_tstamp r /\ filter_matches f (r_key r) = true /\
  has_flag (r_flags r) flags.TTL_UPDATE = false.
Proof.
  unfold rec_event. rewrite record_event_rec.
  destruct (_ && _)%bool eqn:Ht; [|done].
  apply andb_prop in Ht as [Ht%bool_decide_eq_true Hu%negb_true_iff].
  destruct (filter_matches f (r_key r)) eqn:Hf; [|done]. cbn [negb].
  intros Hev. split_and!; try done; [|lia].
  destruct (has_flag (r_flags r) flags.TOMBSTONE); [by injection Hev as <-|].
  destruct (scan_value _ _ _); [by injection Hev as <-|done].
Qed.

(** No record with an empty key: a scan stops there. *)
Definition keyed (file : LogFile.t) : bool :=
  headers (fun hdr => bool_decide (key_size hdr <> 0)) file (LogFile.data_end_offset file).

(** What a replay needs of the files: the sealed ones are smaller than 2^64 bytes,
    no record has an empty key, and the active file does not end like a footer. *)
Record scannable (ns : NsLog.t) : Prop := {
  sc_sealed : forall id file, NsLog.sealed ns !! id = Some file -> is_u64 (LogFile.size file) /\ keyed file = true;
  sc_active : keyed (NsLog.active ns) = true;
  sc_clean : LogFile.poisoned (NsLog.active ns) = false;
  sc_end : LogFile.data_end_offset (NsLog.active ns) = LogFile.size (NsLog.active ns);
}.

Lemma keyed_recs file rest rs :
  Forall rec_wf rs -> LogFile.data file = recs_bytes rs ++ rest ->
  LogFile.data_end_offset file = zlen (recs_bytes rs) -> keyed file = true ->
  Forall (fun r => r_key r <> []) rs.
Proof.
  intros Hwf Hd He Hk. eapply Forall_impl; [eapply headers_recs; [done|done| |exact Hk]; lia|].
  intros r Hr%bool_decide_eq_true Hnil. apply Hr.
  change (key_size (rec_header r)) with (zlen (r_key r)). by rewrite Hnil.
Qed.

Lemma journal_clean hist rs ns :
  journal hist rs (NsLog.index ns) (NsLog.active ns) (NsLog.sealed ns) -> scannable ns ->
  LogFile.clean (NsLog.active ns).
Proof. intros Hj Hs. destruct (jr_file _ _ _ _ _ Hj) as [Hb|]; [|done]. rewrite (sc_clean _ Hs) in Hb. done. Qed.

Lemma holds_journal hist rs ns :
  journal hist rs (NsLog.index ns) (NsLog.active ns) (NsLog.sealed ns) -> scannable ns ->
  Forall2 holds (files_in_order ns) ((sf_recs <$> hist) ++ [rs]).
Proof.
  intros Hj Hs. pose proof (journal_clean _ _ _ Hj Hs) as Hc. unfold files_in_order.
  assert ((merge_sort (by_key fst) (map_to_list (NsLog.sealed ns))).*2 = sf_file <$> hist) as ->.
  { rewrite (merge_sort_by_key fst ((fun s => (sf_id s, sf_file s)) <$> hist)).
    - by rewrite <- list_fmap_compose.
    - rewrite <- list_fmap_compose. by destruct Hj.
    - rewrite (jr_sealed _ _ _ _ _ Hj). apply map_to_list_to_map. rewrite <- list_fmap_compose.
      apply StronglySorted_lt_NoDup. by destruct Hj. }
  apply Forall2_app.
  - apply Forall2_fmap_2, Forall_Forall2_diag, Forall_forall. intros s Hin.
    pose proof (journal_lookup _ _ _ _ _ _ Hj Hin) as Hlk.
    destruct (sc_sealed _ Hs _ _ Hlk) as [Hu Hk].
    assert (Forall rec_wf (sf_recs s)) as Hwf.
    { pose proof (jr_srecs _ _ _ _ _ Hj) as Hall. rewrite Forall_forall in Hall. by apply Hall. }
    assert (LogFile.data_end_offset (sf_file s) = zlen (recs_bytes (sf_recs s))) as He.
    { apply LogFile.data_end_sealed. unfold LogFile.size in Hu. simpl in Hu. unfold sf_data, LogFile.footer in Hu.
      rewrite !zlen_app in Hu. zlia. }
    split_and!; [done|by apply (keyed_recs (sf_file s) (LogFile.footer (sf_entries s)))|done|by eexists].
  - constructor; [|constructor]. pose proof (jr_recs _ _ _ _ _ Hj) as Hwf.
    pose proof (jr_data _ _ _ _ _ Hj Hc) as Hd.
    assert (LogFile.data_end_offset (NsLog.active ns) = zlen (recs_bytes rs)) as He.
    { rewrite (sc_end _ Hs). unfold LogFile.size. by rewrite Hd. }
    split_and!; [done| |done|exists []; by rewrite app_nil_r].
    apply (keyed_recs (NsLog.active ns) []); [done|by rewrite app_nil_r|done|apply (sc_active _ Hs)].
Qed.

Lemma scan_since_recs past lo last hist rs ns f since :
  journal hist rs (NsLog.index ns) (NsLog.active ns) (NsLog.sealed ns) ->
  chronicle past lo last hist rs (NsLog.index ns) (NsLog.active ns) -> scannable ns ->
  scan_since ns f since = Ok (omap (rec_event (NsLog.values ns) f since) (all_recs hist rs)).
Proof.
  intros Hj Hch Hs. unfold scan_since.
  rewrite (scan_files_recs ns f since _ _ (holds_journal _ _ _ Hj Hs)). cbn [mbind result_bind app].
  rewrite concat_app. csimpl. rewrite app_nil_r. fold (all_recs hist rs).
  f_equal. apply merge_sort_by_key; [|done].
  eapply omap_sorted; [|apply (ch_sorted _ _ _ _ _ _ _ Hch)].
  intros r ev Hev. by apply rec_event_spec in Hev as [-> _].
Qed.

(** ** The last write of a key *)

(** A put or a delete of the key. *)
Definition writes (k : bytes) (r : rec) : Prop :=
  r_key r = k /\ has_flag (r_flags r) flags.TTL_UPDATE = false.

#[local] Instance writes_dec k r : Decision (writes k r).
Proof. unfold writes. apply _. Defined.

Definition last_write (k : bytes) (rs : list rec) : option rec := last (filter (writes k) rs).

Lemma last_write_app k rs1 rs2 :
  last_write k (rs1 ++ rs2) =
  match last_write k rs2 with Some r => Some r | None => last_write k rs1 end.
Proof. unfold last_write. by rewrite filter_app, last_app. Qed.

Lemma last_write_snoc k rs r :
  last_write k (rs ++ [r]) = if decide (writes k r) then Some r else last_write k rs.
Proof.
  rewrite last_write_app. unfold last_write at 1. rewrite filter_cons, filter_nil. by case_decide.
Qed.

Lemma last_write_elem k rs r : last_write k rs = Some r -> r ∈ rs /\ writes k r.
Proof. intros Hl%last_Some_elem_of. by apply list_elem_of_filter in Hl as [??]. Qed.

Lemma apply_rec_map fid off idx r k :
  rec_wf r -> one_kind r ->
  NsIndex.map (apply_rec fid off idx r) !! k =
  if decide (writes k r) then
    if has_flag (r_flags r) flags.TOMBSTONE then None
    else Some (IndexEntry_new fid off (zlen (rec_bytes r)) (r_tstamp r))
  else NsIndex.map idx !! k.
Proof.
  intros Hwf Hone. destruct (has_flag (r_flags r) flags.TOMBSTONE) eqn:Ht.
  { rewrite apply_rec_tombstone by done. simpl. rewrite lookup_delete.
    destruct (decide (writes k r)) as [[Hk _]|Hn]; [by rewrite decide_True|].
    rewrite decide_False; [done|]. intros Hk. apply Hn. split; [done|by apply Hone]. }
  unfold apply_rec, apply_record. rewrite decide_False by apply key_in_body. rewrite take_key.
  change (rflags (rec_header r)) with (r_flags r). rewrite Ht.
  destruct (has_flag (r_flags r) flags.TTL_UPDATE) eqn:Hu.
  { rewrite (decide_False (P := writes k r)) by (intros [_ ?]; congruence).
    by destruct (NsIndex.get idx (r_key r)). }
  rewrite decide_False by (by apply rec_len_u32). rewrite rec_header_len.
  destruct (decide (writes k r)) as [[<- _]|Hn].
  - by repeat case_match; simpl; rewrite lookup_insert_eq.
  - assert (r_key r <> k) by (intros ?; by apply Hn).
    by repeat case_match; simpl; rewrite lookup_insert_ne.
Qed.

(** The entry that the records of a file leave for a key. *)
Lemma apply_recs_map fid idx k rs :
  Forall rec_wf rs -> Forall one_kind rs ->
  let j := apply_recs fid 0 idx rs in
  match last_write k rs with
  | None => NsIndex.map j !! k = NsIndex.map idx !! k
  | Some r =>
      if has_flag (r_flags r) flags.TOMBSTONE then NsIndex.map j !! k = None
      else exists pre post, rs = pre ++ r :: post /\
        NsIndex.map j !! k = Some (IndexEntry_new fid (zlen (recs_bytes pre)) (zlen (rec_bytes r)) (r_tstamp r))
  end.
Proof.
  induction rs as [|r rs IH] using rev_ind; [done|]. intros [Hwf Hr]%Forall_app [Hone Hor]%Forall_app.
  apply Forall_cons in Hr as [Hr _], Hor as [Hor _]. cbv zeta in *. rewrite apply_recs_snoc, Z.add_0_l, last_write_snoc.
  rewrite (apply_rec_map _ _ _ r k Hr Hor). case_decide.
  - destruct (has_flag _ _); [done|]. by exists rs, [].
  - specialize (IH Hwf Hone). destruct (last_write k rs) as [r'|]; [|done].
    destruct (has_flag _ _); [done|]. destruct IH as (pre & post & -> & Hm).
    exists pre, (post ++ [r]). by rewrite <- app_assoc.
Qed.

(** The entry is that of the record [r] of one of the files. *)
Definition placed (hist : list sfile) (e : IndexEntry) (r : rec) : Prop :=
  exists s pre post, s ∈ hist /\ sf_recs s = pre ++ r :: post /\
    e = IndexEntry_new (sf_id s) (zlen (recs_bytes pre)) (zlen (rec_bytes r)) (r_tstamp r).

Lemma replayed_lookup hist k :
  Forall (fun s => Forall rec_wf (sf_recs s)) hist -> Forall one_kind (concat (sf_recs <$> hist)) ->
  match last_write k (concat (sf_recs <$> hist)) with
  | None => NsIndex.map (replayed hist) !! k = None
  | Some r =>
      if has_flag (r_flags r) flags.TOMBSTONE then NsIndex.map (replayed hist) !! k = None
      else exists e, NsIndex.map (replayed hist) !! k = Some e /\ placed hist e r
  end.
Proof.
  induction hist as [|s hist IH] using rev_ind; [done|].
  rewrite fmap_app, concat_app, last_write_app. csimpl. rewrite app_nil_r.
  intros [Hwf Hs]%Forall_app [Hone Hos]%Forall_app. apply Forall_cons in Hs as [Hs _].
  unfold replayed. rewrite foldl_app. cbn [foldl]. fold (replayed hist).
  pose proof (apply_recs_map (sf_id s) (replayed hist) k (sf_recs s) Hs Hos) as Hm. cbv zeta in Hm.
  destruct (last_write k (sf_recs s)) as [r|].
  - destruct (has_flag _ _); [done|]. destruct Hm as (pre & post & Heq & Hm). eexists. split; [exact Hm|].
    exists s, pre, post. split_and!; [|done..]. apply elem_of_app. right. by left.
  - rewrite Hm. specialize (IH Hwf Hone). destruct (last_write k (concat (sf_recs <$> hist))) as [r|]; [|done].
    destruct (has_flag _ _); [done|]. destruct IH as (e & He & s' & pre & post & Hin & Heq & ->).
    eexists. split; [done|]. exists s', pre, post. split_and!; [|done..]. apply elem_of_app. by left.
Qed.

Lemma sub_recs pre r post rest :
  sub (recs_bytes (pre ++ r :: post) ++ rest) (zlen (recs_bytes pre)) (zlen (rec_bytes r)) = Some (rec_bytes r).
Proof. rewrite recs_bytes_app, recs_bytes_cons, <- !app_assoc. by apply sub_mid. Qed.

Lemma log_lookup past lo last hist rs ns k :
  journal hist rs (NsLog.index ns) (NsLog.active ns) (NsLog.sealed ns) ->
  chronicle past lo last hist rs (NsLog.index ns) (NsLog.active ns) -> LogFile.clean (NsLog.active ns) ->
  match last_write k (all_recs hist rs) with
  | None => NsIndex.get (NsLog.index ns) k = None
  | Some r =>
      if has_flag (r_flags r) flags.TOMBSTONE then NsIndex.get (NsLog.index ns) k = None
      else exists e, NsIndex.get (NsLog.index ns) k = Some e /\ rec_at ns e r /\
             ie_tstamp_ms e = r_tstamp r /\ rec_wf r
  end.
Proof.
  intros Hj Hch Hc. set (act := mkS (LogFile.file_id (NsLog.active ns)) rs []).
  assert (all_recs hist rs = concat (sf_recs <$> hist ++ [act])) as Hall.
  { unfold all_recs. rewrite fmap_app, concat_app. csimpl. by rewrite app_nil_r. }
  assert (NsIndex.map (NsLog.index ns) = NsIndex.map (replayed (hist ++ [act]))) as Hmap.
  { unfold replayed. rewrite foldl_app. apply (fo_map _ _ (ch_index _ _ _ _ _ _ _ Hch Hc)). }
  assert (Forall (fun s => Forall rec_wf (sf_recs s)) (hist ++ [act])) as Hwf.
  { apply Forall_app. split; [apply (jr_srecs _ _ _ _ _ Hj)|]. constructor; [apply (jr_recs _ _ _ _ _ Hj)|done]. }
  pose proof (ch_kind _ _ _ _ _ _ _ Hch) as Hk. rewrite Hall in Hk |- *.
  pose proof (replayed_lookup (hist ++ [act]) k Hwf Hk) as Hl. unfold NsIndex.get. rewrite Hmap.
  destruct (last_write k _) as [r|]; [|done]. destruct (has_flag _ _); [done|].
  destruct Hl as (e & He & s & pre & post & Hin & Hs & ->). eexists. split; [exact He|].
  assert (rec_wf r) as Hr.
  { rewrite Forall_forall in Hwf. specialize (Hwf s Hin). rewrite Hs in Hwf.
    by apply Forall_app in Hwf as [_ [??]%Forall_cons]. }
  split_and!; [|done..]. unfold rec_at, NsLog.locate_file. cbn [file_id record_offset record_size IndexEntry_new].
  apply elem_of_app in Hin as [Hin| ->%list_elem_of_singleton].
  - pose proof (jr_below _ _ _ _ _ Hj) as Hb. rewrite Forall_forall in Hb. specialize (Hb s Hin).
    rewrite decide_False by lia. exists (sf_file s). split_and!; [by eapply journal_lookup|done|].
    simpl. unfold sf_data. rewrite Hs. apply sub_recs.
  - simpl. rewrite decide_True by done. eexists. split_and!; [done..|].
    rewrite (jr_data _ _ _ _ _ Hj Hc). simpl in Hs. rewrite Hs, <- (app_nil_r (recs_bytes _)). apply sub_recs.
Qed.

(** ** Revisions identify writes *)

Definition same_write (a0 a : aentry) : Prop :=
  a_value a0 = a_value a /\ a_meta a0 = a_meta a /\ a_rev a0 = a_rev a.

Lemma put_all_old lo k a ws : forall m,
  Forall (fun w : bytes * bytes * Z => lo < w.2) ws ->
  put_all m ws !! k = Some a -> a_rev a <= lo -> m !! k = Some a.
Proof.
  induction ws as [|w ws IH]; intros m Hf Hk Ha; [done|]. apply Forall_cons in Hf as [Hw Hf].
  apply IH in Hk; [|done..]. rewrite lookup_insert in Hk. case_decide; [|done].
  injection Hk as <-. simpl in Ha. lia.
Qed.

(** An entry with a revision from before a call is as it was before the call. *)
Lemma spec_old c s r s' k a :
  spec c s r s' -> as_map s' !! k = Some a -> a_rev a <= as_last s ->
  exists a0, as_map s !! k = Some a0 /\ same_write a0 a.
Proof.
  assert (as_map s !! k = Some a -> exists a0, as_map s !! k = Some a0 /\ same_write a0 a) as Hsame.
  { intros Hm. by exists a. }
  assert (forall k' a', as_last s < a_rev a' -> <[k' := a']> (as_map s) !! k = Some a -> a_rev a <= as_last s ->
    exists a0, as_map s !! k = Some a0 /\ same_write a0 a) as Hput.
  { intros k' a' Hlt Hi Hle. rewrite lookup_insert in Hi. case_decide; [|by apply Hsame].
    injection Hi as ->. lia. }
  assert (forall k', delete k' (as_map s) !! k = Some a -> exists a0, as_map s !! k = Some a0 /\ same_write a0 a) as Hdel.
  { intros k' [_ Hd]%lookup_delete_Some. by apply Hsame. }
  intros (_ & _ & He) Hk Ha. destruct (_ && _)%bool; [destruct He as [_ ->]; by apply Hsame|].
  destruct c; simpl in He; unfold failed, effected, quiet in He.
  - destruct He as (Hlt & [[_ Hm]|[Hm _]]); rewrite Hm in Hk; [by apply Hsame|by eapply Hput; [|exact Hk|]].
  - destruct (cond_check _ _); [|destruct He as [[_ Hm] _]; rewrite Hm in Hk; by apply Hsame].
    destruct He as (Hlt & [[_ Hm]|[Hm _]]); rewrite Hm in Hk; [by apply Hsame|by eapply Hput; [|exact Hk|]].
  - destruct He as [[_ Hm]|(tss & Hlen & Hf & Hm & _)]; rewrite Hm in Hk; [by apply Hsame|].
    apply Hsame. eapply put_all_old; [|exact Hk|exact Ha].
    apply Forall_forall. intros w Hw. rewrite Forall_forall in Hf. apply Hf.
    rewrite <- (snd_zip pairs tss) by lia. by apply list_elem_of_fmap_2.
  - destruct (as_map s !! key); [destruct He as (_ & Hm & _)|destruct He as (_ & Hm)]; rewrite Hm in Hk;
      [by eapply Hdel|by apply Hsame].
  - destruct (decide _); [destruct He as (_ & Hm & _)|destruct He as ((_ & Hm) & _)]; rewrite Hm in Hk;
      [by eapply Hdel|by apply Hsame].
  - destruct He as (Hlt & [[_ Hm]|(a' & Ha' & _ & Hm)]); rewrite Hm in Hk; [by apply Hsame|].
    rewrite lookup_insert in Hk. case_decide as Hd; [|by apply Hsame]. subst k. injection Hk as <-. by exists a'.
  - destruct He as ((Hm & _) & _). rewrite Hm in Hk. by apply Hsame.
  - destruct He as (Hm & _). rewrite Hm in Hk. by apply Hsame.
  - destruct He as (Hm & _). rewrite Hm in Hk. by apply Hsame.
  - destruct He as (Hm & _). rewrite Hm in Hk. by apply Hsame.
  - destruct He as (Hm & _). rewrite Hm in Hk. by apply Hsame.
  - destruct He as [[_ Hm]|(_ & _ & Hm)]; rewrite Hm in Hk; [by apply Hsame|]. by rewrite lookup_empty in Hk.
  - destruct He as (_ & Hm). rewrite Hm in Hk. by apply Hsame.
  - destruct He as (_ & Hm). rewrite Hm in Hk. by apply Hsame.
Qed.

Lemma aruns_old s tr s' k : aruns s tr s' -> forall a,
  as_map s' !! k = Some a -> a_rev a <= as_last s ->
  exists a0, as_map s !! k = Some a0 /\ same_write a0 a.
Proof.
  induction 1 as [|s c r s1 tr s2 Hspec _ IH]; intros a Ha Hrev; [by exists a|].
  destruct (IH a Ha) as (a1 & Ha1 & Hv & Hm & Hr); [destruct Hspec; lia|].
  destruct (spec_old _ _ _ _ _ _ Hspec Ha1) as (a0 & Ha0 & ? & ? & ?); [lia|].
  exists a0. split; [done|]. split_and!; congruence.
Qed.

(** ** A client that follows the stream *)

(** What a reader has of a key: value, metadata and revision. *)
Definition view (ns : NsLog.t) (k : bytes) : option (bytes * option json * Z) :=
  match observe ns k with
  | Some (Ok (v, mt), _, rev) => Some (v, parse_meta mt, rev)
  | _ => None
  end.

Definition event_key (ev : WatchEvent) : bytes :=
  match ev with EvSet k _ _ _ _ | EvDel k _ => k end.

(** What the client makes of an event. *)
Definition follow (k : bytes) (cur : option (bytes * option json * Z)) (ev : WatchEvent)
    : option (bytes * option json * Z) :=
  match ev with
  | EvSet key v mt _ rev => if decide (key = k) then Some (v, mt, rev) else cur
  | EvDel key _ => if decide (key = k) then None else cur
  end.

Lemma view_repr x m ns k :
  repr_x x m ns -> view ns k = (fun a => (a_value a, parse_meta (a_meta a), a_rev a)) <$> m !! k.
Proof. intros Hr. unfold view. rewrite (observe_repr _ _ _ _ Hr). by destruct (m !! k). Qed.

(** Events of a key replace one another, so the last one counts. *)
Lemma follow_recs values f since k rs cur :
  filter_matches f k = true -> Forall (fun r => since < r_tstamp r) rs ->
  (forall r, last_write k rs = Some r -> has_flag (r_flags r) flags.TOMBSTONE = false ->
     is_Some (scan_value values (r_flags r) (r_value r))) ->
  foldl (follow k) cur (omap (rec_event values f since) rs) =
  match last_write k rs with
  | None => cur
  | Some r =>
      if has_flag (r_flags r) flags.TOMBSTONE then None
      else (fun v => (v, parse_meta (r_meta r), r_tstamp r)) <$> scan_value values (r_flags r) (r_value r)
  end.
Proof.
  intros Hf. induction rs as [|r rs IH] using rev_ind; intros Hn Hv; [done|].
  apply Forall_app in Hn as [Hn [Hr _]%Forall_cons]. rewrite last_write_snoc in Hv |- *.
  rewrite omap_app, foldl_app. cbn [omap list_omap]. unfold rec_event at 2. rewrite record_event_rec.
  rewrite bool_decide_true by lia. cbn [andb].
  destruct (decide (writes k r)) as [[Hk Hu]|Hw].
  - rewrite Hu, Hk, Hf. cbn [negb]. specialize (Hv r eq_refl).
    destruct (has_flag (r_flags r) flags.TOMBSTONE); cbn; [by rewrite decide_True|].
    destruct (Hv eq_refl) as [v ->]. cbn. by rewrite decide_True.
  - rewrite <- (IH Hn Hv). destruct (has_flag (r_flags r) flags.TTL_UPDATE) eqn:Hu; [done|]. cbn [negb].
    assert (r_key r <> k) as Hk by (intros Hk; by apply Hw).
    destruct (filter_matches f (r_key r)); [|done]. cbn [negb].
    destruct (has_flag (r_flags r) flags.TOMBSTONE); cbn; [by rewrite decide_False|].
    destruct (scan_value _ _ _); cbn; [by rewrite decide_False|done].
Qed.

Lemma scan_value_deref ns field fl v :
  NsLog.deref ns field fl = Ok v -> scan_value (NsLog.values ns) fl field = Some v.
Proof.
  unfold NsLog.deref, scan_value. destruct (has_flag _ _); simpl; [|by intros [= ->]].
  destruct (decide (zlen field <> 16)); [done|]. destruct (ValueStore.get _ _) as [b|]; simpl; [|done].
  destruct (decide (ValueStore.content_hash b <> field)) as [|Hd]; [done|]. intros [= ->].
  rewrite decide_True; [done|]. by apply dec_stable.
Qed.

(** The view of a key whose last write is the record [r]. *)
Lemma view_last x m past lo last hist rs ns k :
  repr_x x m ns -> journal hist rs (NsLog.index ns) (NsLog.active ns) (NsLog.sealed ns) ->
  chronicle past lo last hist rs (NsLog.index ns) (NsLog.active ns) -> LogFile.clean (NsLog.active ns) ->
  match last_write k (all_recs hist rs) with
  | None => m !! k = None
  | Some r =>
      if has_flag (r_flags r) flags.TOMBSTONE then m !! k = None
      else exists a, m !! k = Some a /\ a_rev a = r_tstamp r /\ r_meta r = a_meta a /\
             scan_value (NsLog.values ns) (r_flags r) (r_value r) = Some (a_value a)
  end.
Proof.
  intros Hr Hj Hch Hc. pose proof (log_lookup _ _ _ _ _ ns k Hj Hch Hc) as Hl.
  assert (NsIndex.get (NsLog.index ns) k = None -> m !! k = None) as Hnone.
  { intros Hi. destruct (m !! k) eqn:Hm; [|done]. destruct (proj1 (rp_dom _ _ _ Hr k)); [eauto|congruence]. }
  destruct (last_write k _) as [r|]; [|by apply Hnone]. destruct (has_flag _ _); [by apply Hnone|].
  destruct Hl as (e & He & Hat & Hts & Hwf).
  destruct (proj2 (rp_dom _ _ _ Hr k)) as [a Ha]; [eauto|].
  destruct (read_value_repr _ _ _ _ _ Hr Ha) as (e' & He' & _ & Hrev & Hrd).
  rewrite He in He'. injection He' as <-. exists a. split_and!; [done|congruence|..];
    unfold NsLog.read_value in Hrd; rewrite (rec_at_read _ _ _ Hat) in Hrd; cbn [mbind result_bind] in Hrd;
    rewrite (extract_value_meta_rec r Hwf) in Hrd; cbn [mbind result_bind] in Hrd;
    destruct (NsLog.deref ns (r_value r) (r_flags r)) as [v|] eqn:Hd; try discriminate Hrd;
    injection Hrd as -> Hmeta; [done|by apply scan_value_deref].
Qed.

Lemma omap_past values f since rs :
  Forall (fun r => r_tstamp r <= since) rs -> omap (rec_event values f since) rs = [].
Proof.
  induction 1 as [|r rs Hr _ IH]; [done|]. cbn. unfold rec_event at 1.
  by rewrite bool_decide_false by lia.
Qed.

Lemma rec_event_key values f since r ev : rec_event values f since r = Some ev -> event_key ev = r_key r.
Proof.
  unfold rec_event. rewrite record_event_rec. repeat case_match; try done; [by intros [= <-]|].
  destruct (scan_value _ _ _); by intros [= <-].
Qed.

(** The journal of a log that served more calls, none of them a flush: the old
    records and the new ones. *)
Lemma journal_since s0 hist0 rs0 ns0 tr ns :
  sim s0 ns0 -> journal hist0 rs0 (NsLog.index ns0) (NsLog.active ns0) (NsLog.sealed ns0) ->
  chronicle [] 0 (NsLog.last_tstamp ns0) hist0 rs0 (NsLog.index ns0) (NsLog.active ns0) ->
  runs ns0 tr ns -> forallb (fun p => in_service p.1 && negb (is_flush p.1))%bool tr = true ->
  LogFile.file_id (NsLog.active ns) < u32_max ->
  let past := all_recs hist0 rs0 in let since := NsLog.last_tstamp ns0 in
  exists s hist rs new, aruns s0 tr s /\ sim s ns /\
    journal hist rs (NsLog.index ns) (NsLog.active ns) (NsLog.sealed ns) /\
    chronicle past since (NsLog.last_tstamp ns) hist rs (NsLog.index ns) (NsLog.active ns) /\
    all_recs hist rs = past ++ new /\
    Forall (fun r => r_tstamp r <= since) past /\ Forall (fun r => since < r_tstamp r) new.
Proof.
  intros Hs0 Hj0 Hch0 Hr Hin Hid past since.
  destruct (runs_simulated _ _ _ Hr _ Hs0) as (s & Har & Hs).
  assert (journaled past since ns0) as HJ0.
  { intros _. exists hist0, rs0. split; [done|]. destruct Hch0. split; try done.
    exists []. by rewrite app_nil_r. }
  rewrite forallb_forall in Hin.
  destruct (runs_journaled past since _ _ _ Hr) with (s := s0) as [HJ _]; try done.
  - apply forallb_forall. intros p Hp. by apply Hin, andb_prop in Hp as [? _].
  - intros p Hp%list_elem_of_In Hfl. apply Hin, andb_prop in Hp as [_ Hp]. by rewrite Hfl in Hp.
  - destruct (HJ Hid) as (hist & rs & Hj & Hch). destruct (ch_past _ _ _ _ _ _ _ Hch) as (new & Hnew & Hn).
    exists s, hist, rs, new. split_and!; try done. apply (ch_last _ _ _ _ _ _ _ Hch0).
Qed.

(** The replay since the revision of a moment brings the view of that moment up to date. *)
Lemma replay_complete cfg tr0 ns0 tr ns f :
  runs (fresh cfg) tr0 ns0 -> forallb (fun p => in_service p.1) tr0 = true ->
  runs ns0 tr ns -> forallb (fun p => in_service p.1 && negb (is_flush p.1))%bool tr = true ->
  LogFile.file_id (NsLog.active ns0) < u32_max -> LogFile.file_id (NsLog.active ns) < u32_max ->
  LogFile.poisoned (NsLog.active ns0) = false -> scannable ns ->
  exists events, scan_since ns f (NsLog.last_revision ns0) = Ok events /\
    StronglySorted Z.lt (event_revision <$> events) /\
    (forall ev, ev ∈ events ->
       NsLog.last_revision ns0 < event_revision ev /\ filter_matches f (event_key ev) = true) /\
    forall k, filter_matches f k = true -> foldl (follow k) (view ns0 k) events = view ns k.
Proof.
  intros Hr0 Hin0 Hr Hin Hid0 Hid Hp0 Hsc.
  destruct (fresh_runs_journaled _ _ _ Hr0 Hin0 Hid0) as (s0 & hist0 & rs0 & Hs0 & Hj0 & Hch0).
  assert (LogFile.clean (NsLog.active ns0)) as Hc0.
  { destruct (jr_file _ _ _ _ _ Hj0) as [Hb|]; [congruence|done]. }
  destruct (journal_since _ _ _ _ _ _ Hs0 Hj0 Hch0 Hr Hin Hid)
    as (s & hist & rs & new & Har & Hs & Hj & Hch & Hall & Hpast & Hnew).
  destruct Hs0 as [[x0 Hx0] Hl0 _ _], Hs as [[x Hx] _ _ _].
  pose proof (journal_clean _ _ _ Hj Hsc) as Hc. set (since := NsLog.last_revision ns0).
  assert (omap (rec_event (NsLog.values ns) f since) (all_recs hist rs)
    = omap (rec_event (NsLog.values ns) f since) new) as Hev.
  { rewrite Hall, omap_app. rewrite <- (app_nil_l (omap _ new)) at 2. f_equal. by apply omap_past. }
  exists (omap (rec_event (NsLog.values ns) f since) new).
  split; [by rewrite <- Hev, (scan_since_recs _ _ _ _ _ _ f since Hj Hch Hsc)|]. split_and!.
  - rewrite <- Hev. eapply omap_sorted; [|apply (ch_sorted _ _ _ _ _ _ _ Hch)].
    intros r ev Her. by apply rec_event_spec in Her as [-> _].
  - intros ev (r & Hin' & Her)%list_elem_of_omap. rewrite (rec_event_key _ _ _ _ _ Her).
    apply rec_event_spec in Her as (-> & ? & ? & _). done.
  - intros k Hf. pose proof (view_last _ _ _ _ _ _ _ _ k Hx Hj Hch Hc) as Hv.
    pose proof (view_last _ _ _ _ _ _ _ _ k Hx0 Hj0 Hch0 Hc0) as Hv0.
    rewrite Hall, last_write_app in Hv. rewrite (view_repr _ _ _ _ Hx), (view_repr _ _ _ _ Hx0).
    rewrite follow_recs; [|done..|].
    2: { intros r Hr' Ht. rewrite Hr', Ht in Hv. destruct Hv as (a & _ & _ & _ & ->). eauto. }
    destruct (last_write k new) as [r|] eqn:Hlw.
    + destruct (has_flag _ _); [by rewrite Hv|]. destruct Hv as (a & -> & Hrev & Hm & ->). simpl.
      by rewrite Hrev, Hm.
    + destruct (last_write k (all_recs hist0 rs0)) as [r|] eqn:Hlp; [|by rewrite Hv, Hv0].
      destruct (has_flag _ _); [by rewrite Hv, Hv0|]. destruct Hv as (a & Ha & Hrev & _).
      apply last_write_elem in Hlp as [Hlp _]. rewrite Forall_forall in Hpast. specialize (Hpast r Hlp).
      destruct (aruns_old _ _ _ k Har a Ha) as (a0 & -> & Hsv & Hsm & Hsr); [lia|].
      rewrite Ha. simpl. by rewrite Hsv, Hsm, Hsr.
Qed.

(** A subscriber that reconnects catches up.  It had the state of the
    namespace at some moment, and asks for the replay since the revision of that
    moment after any further calls, some of which may have failed in their writes and
    syncs.  The replay is
    ordered by revision, has only events newer than that and only of keys it asked
    for, and applying it gives the present value, metadata and revision of each of
    these keys, deletes included. *)
Theorem catch_up cfg tr0 ns0 tr ns f :
  runs (fresh cfg) tr0 ns0 -> forallb (fun p => in_service p.1) tr0 = true ->
  runs ns0 tr ns -> forallb (fun p => in_service p.1 && negb (is_flush p.1))%bool tr = true ->
  LogFile.file_id (NsLog.active ns0) < u32_max -> LogFile.file_id (NsLog.active ns) < u32_max ->
  LogFile.poisoned (NsLog.active ns0) = false -> scannable ns ->
  exists events, scan_since ns f (NsLog.last_revision ns0) = Ok events /\
    StronglySorted Z.lt (event_revision <$> events) /\
    (forall ev, ev ∈ events ->
       NsLog.last_revision ns0 < event_revision ev /\ filter_matches f (event_key ev) = true) /\
    forall k, filter_matches f k = true -> foldl (follow k) (view ns0 k) events = view ns k.
Proof. apply replay_complete. Qed.

(** ** The snapshot *)

(** The values of a list of misses, in order. *)
Definition reads (self : NsLog.t) (miss : nat * IndexEntry) (r : nat * bytes * bytes) : Prop :=
  r.1.1 = miss.1 /\ NsLog.read_value self miss.2 = Ok (r.1.2, r.2).

Lemma bulk_read_ok self misses out :
  Forall2 (reads self) misses out -> NsLog.bulk_read self misses = Ok out.
Proof.
  intros Hall. unfold NsLog.bulk_read. case_decide as Hnil; [subst; by inversion Hall|]. clear Hnil.
  assert (exists ex, NsLog.extract_all self misses = Ok ex /\ NsLog.deref_all self ex = Ok out) as (ex & -> & Hd);
    [|done].
  induction Hall as [|[slot e] [[slot' v] mt] misses out [Hs Hr] _ (ex & Hex & Hd)]; [by exists []|].
  simpl in Hs, Hr. subst slot'. unfold NsLog.read_value in Hr. cbn [NsLog.extract_all].
  destruct (NsLog.read_record self e) as [b|]; [|discriminate Hr]. cbn [mbind result_bind] in *.
  destruct (NsLog.extract_value_meta b) as [[[value meta] fl]|]; [|discriminate Hr]. cbn [mbind result_bind] in *.
  rewrite Hex. eexists. split; [reflexivity|]. cbn [NsLog.deref_all].
  destruct (NsLog.deref self value fl) as [v'|]; [|discriminate Hr]. cbn [mbind result_bind] in *.
  injection Hr as -> ->. by rewrite Hd.
Qed.

Definition is_live (exp : option Z) (now : Z) : Prop := match exp with Some ms => now < ms | None => True end.

Lemma live_matching_elem idx f now k e exp :
  (k, e, exp) ∈ live_matching idx f now <->
  NsIndex.get idx k = Some e /\ exp = NsIndex.get_ttl idx k /\ filter_matches f k = true /\ is_live exp now.
Proof.
  unfold live_matching. rewrite list_elem_of_fmap. setoid_rewrite list_elem_of_filter. setoid_rewrite andb_true_iff.
  setoid_rewrite negb_true_iff. unfold NsIndex.is_expired.
  assert (forall o, match o with Some ms => ms <=? now | None => false end = false <-> is_live o now) as Hl.
  { intros [ms|]; simpl; [lia|done]. }
  split.
  - intros ([k' e'] & [= -> -> ->] & [[Hf He] Hin]). apply iter_elem in Hin. by apply Hl in He.
  - intros (He & -> & Hf & Hlv). exists (k, e). split_and!; try done; [by apply Hl|by apply iter_elem].
Qed.

Lemma live_matching_NoDup idx f now : NoDup (live_matching idx f now).*1.*1.
Proof.
  unfold live_matching. rewrite <- !list_fmap_compose.
  apply (NoDup_fst_filter _ (NsIndex.iter idx)), btree_iter_NoDup.
Qed.

Definition read_or_nil (self : NsLog.t) (e : IndexEntry) : bytes * bytes :=
  match NsLog.read_value self e with Ok p => p | Err _ => ([], []) end.

(** The event of a live key. *)
Definition live_event (self : NsLog.t) (l : bytes * IndexEntry * option Z) : WatchEvent :=
  let '(k, e, exp) := l in
  EvSet k (read_or_nil self e).1 (parse_meta (read_or_nil self e).2) exp (ie_tstamp_ms e).

Lemma slots_events self live l : forall pre,
  live = pre ++ l ->
  omap (entry_event live) (imap (fun i x => ((length pre + i)%nat, (read_or_nil self x.1.2).1, (read_or_nil self x.1.2).2)) l)
  = live_event self <$> l.
Proof.
  induction l as [|[[k e] exp] l IH]; intros pre Hl; [done|]. rewrite imap_cons. csimpl.
  rewrite Nat.add_0_r. subst live. rewrite list_lookup_middle by done. cbn. f_equal.
  rewrite <- (IH (pre ++ [(k, e, exp)])) by (by rewrite <- app_assoc). f_equal.
  apply imap_ext. intros i x _. rewrite length_app. simpl.
  by replace (length pre + 1 + i)%nat with (length pre + S i)%nat by lia.
Qed.

Lemma current_entries_ok x m ns f now :
  repr_x x m ns -> current_entries ns f now = Ok (live_event ns <$> live_matching (NsLog.index ns) f now).
Proof.
  intros Hr. unfold current_entries. set (live := live_matching (NsLog.index ns) f now).
  case_decide as Hnil; [by rewrite Hnil|].
  rewrite (bulk_read_ok ns _ (imap (fun i x => (i, (read_or_nil ns x.1.2).1, (read_or_nil ns x.1.2).2)) live)).
  - cbn [mbind result_bind]. f_equal. by apply (slots_events ns live live []).
  - apply Forall2_same_length_lookup_2; [by rewrite !length_imap|].
    intros i y z Hy Hz. rewrite list_lookup_imap in Hy. rewrite list_lookup_imap in Hz.
    destruct (live !! i) as [[[k e] exp]|] eqn:Hi; [|discriminate Hy]. injection Hy as <-. injection Hz as <-.
    apply list_elem_of_lookup_2, live_matching_elem in Hi as (He & _).
    destruct (proj2 (rp_dom _ _ _ Hr k)) as [a Ha]; [eauto|].
    destruct (read_value_repr _ _ _ _ _ Hr Ha) as (e' & He' & _ & _ & Hrd). rewrite He in He'. injection He' as <-.
    split; [done|]. simpl. unfold read_or_nil. rewrite Hrd. done.
Qed.

(** The snapshot a new subscriber gets is the live state: one event for every
    key that matches and has not expired, with its value, metadata, expiry and
    revision, and none for any other key. *)
Theorem snapshot_exact cfg ns f now :
  reachable cfg ns ->
  exists events, current_entries ns f now = Ok events /\ NoDup (event_key <$> events) /\
    forall ev, ev ∈ events <->
      exists k v mt exp rev, ev = EvSet k v (parse_meta mt) exp rev /\
        observe ns k = Some (Ok (v, mt), exp, rev) /\ filter_matches f k = true /\ is_live exp now.
Proof.
  intros (s & [[x Hx] _ _ _])%reachable_sim. eexists. split; [by eapply current_entries_ok|]. split.
  - replace (event_key <$> _) with (live_matching (NsLog.index ns) f now).*1.*1; [apply live_matching_NoDup|].
    rewrite <- !list_fmap_compose. apply list_fmap_ext. by intros i [[k e] exp] _.
  - intros ev. rewrite list_elem_of_fmap. split.
    + intros ([[k e] exp] & -> & (He & -> & Hf & Hl)%live_matching_elem). unfold observe, read_or_nil. simpl.
      destruct (proj2 (rp_dom _ _ _ Hx k)) as [a Ha]; [eauto|].
      destruct (read_value_repr _ _ _ _ _ Hx Ha) as (e' & He' & _ & _ & Hrd). rewrite He in He'. injection He' as <-.
      exists k, (a_value a), (a_meta a), (NsIndex.get_ttl (NsLog.index ns) k), (ie_tstamp_ms e).
      rewrite He. simpl. unfold read_or_nil. by rewrite Hrd.
    + intros (k & v & mt & exp & rev & -> & Ho & Hf & Hl). unfold observe in Ho.
      destruct (NsIndex.get (NsLog.index ns) k) as [e|] eqn:He; [|discriminate Ho]. injection Ho as Hrd Hexp Hrev.
      exists (k, e, exp). split; [|by apply live_matching_elem]. simpl. unfold read_or_nil. by rewrite Hrd, Hrev.
Qed.
End Stream.

(** ** Witnesses *)

#[local] Existing Instance WatchRegistry.bytes_json.

(** After [ex_puts]: a key is deleted, one is overwritten, a file is sealed and a key
    is added. *)
Definition ex_more : list call :=
  [ Tombstone [98] 2000 no_faults; Put [97] [4; 5; 6; 7; 8] [9] None 2001 no_faults;
    Rotate no_faults; Put [100] [1] [] (Some 9000) 2002 no_faults; TtlUpdate [97] (Some 9000) 2003 no_faults ].
Definition ex_later : list (call * eresult out) * NsLog.t :=
  match exec ex_more ex_before with Some p => p | None => ([], ex_before) end.

Lemma ex_later_runs : runs ex_before ex_later.1 ex_later.2.
Proof.
  unfold ex_later. destruct (exec ex_more ex_before) as [[tr ns]|] eqn:He; [|constructor].
  exact (exec_runs _ _ _ _ He).
Qed.

Lemma ex_scannable : scannable ex_later.2.
Proof.
  assert (map_Forall (fun _ f => is_u64 (LogFile.size f) /\ keyed f = true) (NsLog.sealed ex_later.2)) as Hall.
  { apply (bool_decide_unpack _). vm_compute. exact I. }
  split; [exact Hall|vm_compute; reflexivity..].
Qed.

Lemma catch_up_witness :
  exists events, scan_since ex_later.2 (Prefix []) (NsLog.last_revision ex_before) = Ok events /\
    StronglySorted Z.lt (event_revision <$> events) /\
    (forall ev, ev ∈ events ->
       NsLog.last_revision ex_before < event_revision ev /\ filter_matches (Prefix []) (event_key ev) = true) /\
    forall k, filter_matches (Prefix []) k = true ->
      foldl (follow k) (view ex_before k) events = view ex_later.2 k.
Proof.
  refine (catch_up ex_cfg (trace ex_cfg ex_puts) ex_before ex_later.1 ex_later.2 (Prefix [])
    (final_runs _ _) _ ex_later_runs _ _ _ _ ex_scannable).
  - vm_compute. reflexivity.
  - vm_compute. reflexivity.
  - apply (bool_decide_unpack _). vm_compute. exact I.
  - apply (bool_decide_unpack _). vm_compute. exact I.
  - vm_compute. reflexivity.
Defined.

(** The events of that replay. *)
Lemma ex_replay :
  scan_since ex_later.2 (Prefix []) (NsLog.last_revision ex_before)
  = Ok [ EvDel [98] 2000; EvSet [97] [4; 5; 6; 7; 8] (Some [9]) None 2001; EvSet [100] [1] None (Some 9000) 2002 ].
Proof. vm_compute. reflexivity. Qed.

Lemma snapshot_exact_witness :
  exists events, current_entries ex_ns (Prefix []) 2000 = Ok events /\ NoDup (event_key <$> events) /\
    forall ev, ev ∈ events <->
      exists k v mt exp rev, ev = EvSet k v (parse_meta mt) exp rev /\
        observe ex_ns k = Some (Ok (v, mt), exp, rev) /\ filter_matches (Prefix []) k = true /\ is_live exp 2000.
Proof. exact (snapshot_exact ex_cfg ex_ns (Prefix []) 2000 ex_reachable). Defined.

(** ** What the conditions exclude *)

(** A key is written; later it is deleted and the log is compacted. *)
Definition ex_compacted : list call :=
  [ Put [97] [1; 2] [] None 1000 no_faults; Rotate no_faults; Tombstone [97] 1001 no_faults;
    Compact no_faults [] ].

(** Compaction takes deletes out of the replay.  A subscriber had the key at
    revision 1000; the key was deleted at 1001 and the log compacted, which drops
    the record of the delete.  The replay since 1000 is empty, so the subscriber
    keeps a key that does not exist. *)
Theorem compaction_drops_deletes :
  let cfg := mkLogConfig 1000 2 1000 in
  let before := final cfg (take 1 ex_compacted) in
  let ns := final cfg ex_compacted in
  snd <$> trace cfg ex_compacted = [Ok (ORev 1000); Ok OUnit; Ok (OOpt (Some 1001)); Ok OUnit] /\
  NsLog.last_revision before = 1000 /\ view before [97] = Some ([1; 2], None, 1000) /\ view ns [97] = None /\
  scan_since ns (Exact [97]) 1000 = Ok [].
Proof. split_and!; vm_compute; reflexivity. Qed.

(** A write with an empty key, and one of another key behind it. *)
Definition ex_empty_key : list call :=
  [ Put [] [1] [] None 1000 no_faults; Put [97] [2] [] None 1001 no_faults ].

(** A record with an empty key hides the records behind it.  Writes of the empty
    key are accepted, and the replay takes the record for the end of the file: a
    subscriber of another key never learns of a later write to it. *)
Theorem empty_key_stops_replay :
  let cfg := mkLogConfig 1000 2 1000 in
  let ns := final cfg ex_empty_key in
  snd <$> trace cfg ex_empty_key = [Ok (ORev 1000); Ok (ORev 1001)] /\
  view ns [97] = Some ([2], None, 1001) /\ scan_since ns (Exact [97]) 1000 = Ok [].
Proof. split_and!; vm_compute; reflexivity. Qed.
End Stream.
