(* ===== verification/Store.v ===== *)
(** * The store of a shard, [crates/engine/src/store.rs]

    [ShardStore] is what the server calls: one [NamespaceLog] per namespace, opened
    on first use, one cache in front of all of them, and the watch registry.  The
    file translates every operation.  A shard runs on one thread; an operation is
    one step here, except [get], which is the two halves before and after its read
    of the disk.

    The clock, the outcome of file-system writes and the channels of the
    subscribers are the environment: [clock_at n] is the [n]-th reading of the
    clock, [io_at n] what the file system does to the writes of the [n]-th call on a
    log, and the state counts the readings and calls so far. *)

From stdpp Require Import base tactics list gmap strings.
From Stdlib Require Import ZArith Lia.
From S2P Require Import Prelude Record Index LogFile ValueStore Recover NsLog Reclaim Ascii Glob Cache Watch Stream.

Open Scope Z_scope.

(** ** [crates/engine/src/types.rs] *)

(** A [Duration] is its number of milliseconds, an [Instant] a number of
    milliseconds of the monotonic clock. *)
Record Entry `{SerdeJson} := mkEntry {
  e_value : bytes;
  e_expires_at : option Z;
  e_metadata : option json;
  e_revision : Z;
}.

Arguments mkEntry {_}.

Record SetOptions `{SerdeJson} := mkSetOptions {
  o_ttl : option Z;
  o_metadata : option json;
  o_keep_ttl : bool;
}.

Arguments mkSetOptions {_}.

Inductive TtlResult := NoExpiry | NotFound | Remaining (ms : Z).

Inductive GetExOp := SetTtl (d : Z) | Persist.

Record ScanPage := mkScanPage { next_cursor : bytes; page_keys : list bytes }.

(** ** Helpers *)

Definition DEFAULT_NS : bytes := lit "default".
Definition MAX_NAMESPACES : nat := 1024.

Definition ns_name (db : Z) : bytes :=
  if decide (db = 0) then DEFAULT_NS else lit "db" ++ show_u64 db.

Definition is_ascii_alphanumeric (b : Z) : bool :=
  ((48 <=? b) && (b <=? 57)) || ((65 <=? b) && (b <=? 90)) || ((97 <=? b) && (b <=? 122)).

Definition is_valid_ns_name (name : bytes) : bool :=
  negb (bool_decide (name = [])) && (zlen name <=? 64) &&
  forallb (fun b => is_ascii_alphanumeric b || (b =? 95) || (b =? 45)) name.

Definition cache_key (ns key : bytes) : bytes := ns ++ [0] ++ key.

(** [with_cache_key]: up to 128 bytes the key is built in a buffer on the stack. *)
Definition with_cache_key {A} (ns key : bytes) (f : bytes -> A) : A :=
  let total := zlen ns + 1 + zlen key in
  if decide (total <= 128) then
    let buf := replicate 128 0 in
    let buf := patch buf 0 ns in
    let buf := patch buf (zlen ns) [0] in
    let buf := patch buf (zlen ns + 1) key in
    f (take (Z.to_nat total) buf)
  else f (ns ++ [0] ++ key).

Definition instant_from_ms (expires_at_ms : option Z) (now_ms now_instant : Z) : option Z :=
  (fun ms => now_instant + sat_sub ms now_ms) <$> expires_at_ms.

Definition metadata_from_bytes `{SerdeJson} (meta : bytes) : eresult (option json) :=
  if decide (meta = []) then Ok None else
  v ← json_from_slice meta; Ok (Some v).

Definition meta_to_bytes `{SerdeJson} (metadata : option json) : eresult bytes :=
  match metadata with
  | None => Ok []
  | Some m => json_to_vec m
  end.

Definition validate_ttl (d now : Z) : eresult Z :=
  if decide (u64_max < d) then Err (CapacityExceeded "ttl exceeds u64::MAX milliseconds") else
  if decide (u64_max < now + d)
  then Err (CapacityExceeded "ttl would overflow absolute expiry timestamp")
  else Ok (now + d).

(** [opts.ttl.map(validate_ttl).transpose()]. *)
Definition validate_opt_ttl (ttl : option Z) (now : Z) : eresult (option Z) :=
  match ttl with
  | None => Ok None
  | Some d => ms ← validate_ttl d now; Ok (Some ms)
  end.

(** [ms <= now] for an expiry that is set. *)
Definition past (expires_at_ms : option Z) (now : Z) : bool :=
  match expires_at_ms with Some ms => ms <=? now | None => false end.

(** [str::parse::<i64>] on the bytes of a value; bytes that are not UTF-8 do not
    parse either. *)
Definition parse_digits (b : bytes) : option Z :=
  if decide (b = []) then None else
  if forallb (fun c => (48 <=? c) && (c <=? 57)) b then Some (dec_val b) else None.

Definition parse_i64 (b : bytes) : option Z :=
  n ← match b with
      | 45 :: b => Z.opp <$> parse_digits b
      | 43 :: b => parse_digits b
      | _ => parse_digits b
      end;
  if decide (is_i64 n) then Some n else None.

(** ** The store *)

Module ShardStore.
Section Store.
Context {crc_impl : CrcFast} {blake : Blake3} `{Mpsc} `{Memchr}.

Record t := mk {
  config : LogConfig;
  data_dir : gmap bytes (gmap Z bytes * gmap ContentHash bytes);
  namespaces : gmap bytes NsLog.t;
  cache : MemCache.t json;
  watchers : WatchRegistry.t;
  cache_hit_count : Z;
  cache_miss_count : Z;
  channels : chans;
  ticks : nat;
  calls : nat;
}.

Definition set_namespaces (m : gmap bytes NsLog.t) (s : t) : t :=
  mk (config s) (data_dir s) m (cache s) (watchers s) (cache_hit_count s) (cache_miss_count s)
     (channels s) (ticks s) (calls s).
Definition set_cache (c : MemCache.t json) (s : t) : t :=
  mk (config s) (data_dir s) (namespaces s) c (watchers s) (cache_hit_count s) (cache_miss_count s)
     (channels s) (ticks s) (calls s).
Definition set_watchers (w : WatchRegistry.t) (cs : chans) (s : t) : t :=
  mk (config s) (data_dir s) (namespaces s) (cache s) w (cache_hit_count s) (cache_miss_count s)
     cs (ticks s) (calls s).
Definition set_counts (hits misses : Z) (s : t) : t :=
  mk (config s) (data_dir s) (namespaces s) (cache s) (watchers s) hits misses
     (channels s) (ticks s) (calls s).
Definition set_ticks (n : nat) (s : t) : t :=
  mk (config s) (data_dir s) (namespaces s) (cache s) (watchers s) (cache_hit_count s) (cache_miss_count s)
     (channels s) n (calls s).
Definition set_calls (n : nat) (s : t) : t :=
  mk (config s) (data_dir s) (namespaces s) (cache s) (watchers s) (cache_hit_count s) (cache_miss_count s)
     (channels s) (ticks s) n.

Abbreviation M := (ST t EngineError).

Context (clock_at : nat -> Z) (instant_at : nat -> Z) (io_at : nat -> faults).

Definition now_ms : M Z := fun s => (Ok (clock_at (ticks s)), set_ticks (S (ticks s)) s).
Definition instant_now : M Z := fun s => (Ok (instant_at (ticks s)), s).
Definition next_io : M faults := fun s => (Ok (io_at (calls s)), set_calls (S (calls s)) s).

(** A method of the log of an open namespace.  [ensure_ns] hands out the [Rc] that
    is in the map, so the namespace is there. *)
Definition in_ns {A} (ns : bytes) (m : NsLog.M A) : M A := fun s =>
  match namespaces s !! ns with
  | Some nslog =>
      let '(r, nslog) := m nslog in (r, set_namespaces (<[ns := nslog]> (namespaces s)) s)
  | None => (Err (InvalidNamespace ns), s)
  end.

(** A write method: it reads the clock and writes to files. *)
Definition log {A} (ns : bytes) (m : Z -> faults -> NsLog.M A) : M A :=
  clock ← now_ms; io ← next_io; in_ns ns (m clock io).

Definition index_of (ns : bytes) : M NsIndex.t := in_ns ns (fun l => (Ok (NsLog.index l), l)).

Definition with_cache {A} (f : MemCache.t json -> A * MemCache.t json) : M A := fun s =>
  let '(r, c) := f (cache s) in (Ok r, set_cache c s).

Definition cache_get (ns key : bytes) (now : Z) : M (option (bytes * option Z * option json * Z)) :=
  with_cache (fun c => with_cache_key ns key (fun ck => MemCache.get c ck now)).

Definition cache_remove (ns key : bytes) : M unit :=
  with_cache (fun c => (tt, with_cache_key ns key (fun ck => MemCache.remove c ck))).

Definition cache_insert (ns key value : bytes) (expires_at_ms : option Z) (metadata : option json)
    (meta_len revision : Z) : M unit :=
  with_cache (fun c =>
    (tt, MemCache.insert c (cache_key ns key) value expires_at_ms metadata meta_len revision)).

Definition count_hit : M unit := fun s =>
  (Ok tt, set_counts ((cache_hit_count s + 1) mod 2 ^ 64) (cache_miss_count s) s).
Definition count_miss : M unit := fun s =>
  (Ok tt, set_counts (cache_hit_count s) ((cache_miss_count s + 1) mod 2 ^ 64) s).

Definition notify (ns key : bytes) (ev : WatchEvent) : M unit := fun s =>
  let '(w, cs) := WatchRegistry.notify (watchers s) (channels s) ns key ev in
  (Ok tt, set_watchers w cs s).

(** ** Opening *)

(** The configuration, with the values of [KV_COMPACTION_FANOUT] and
    [KV_VALUE_SEP_THRESHOLD] when they are set and are numbers. *)
Definition config_from_env (fanout_var threshold_var : option Z) : LogConfig :=
  let c := default_config in
  let c := match fanout_var with
           | Some n => if decide (2 <= n)
                       then mkLogConfig (rotate_threshold c) (Z.to_nat n) (value_sep_threshold c) else c
           | None => c
           end in
  match threshold_var with
  | Some n => mkLogConfig (rotate_threshold c) (fanout c) n
  | None => c
  end.

(** The directories are opened together; the first error in their order is the
    result. *)
Fixpoint open_dirs (config : LogConfig) (dirs : list (bytes * (gmap Z bytes * gmap ContentHash bytes)))
    (namespaces : gmap bytes NsLog.t) : eresult (gmap bytes NsLog.t) :=
  match dirs with
  | [] => Ok namespaces
  | (name, (files, blobs)) :: dirs =>
      nslog ← NsLog.open files blobs config;
      open_dirs config dirs (<[name := nslog]> namespaces)
  end.

Definition open (data_dir : gmap bytes (gmap Z bytes * gmap ContentHash bytes)) (memory_bytes : Z)
    (fanout_var threshold_var : option Z) (cs : chans) : eresult t :=
  let config := config_from_env fanout_var threshold_var in
  let dirs := filter (fun d => is_valid_ns_name d.1 = true) (map_to_list data_dir) in
  namespaces ← open_dirs config dirs ∅;
  namespaces ←
    match namespaces !! DEFAULT_NS with
    | Some _ => Ok namespaces
    | None => nslog ← NsLog.open ∅ ∅ config; Ok (<[DEFAULT_NS := nslog]> namespaces)
    end;
  Ok (mk config data_dir namespaces (MemCache.new memory_bytes) WatchRegistry.new 0 0 cs 0 0).

(** [ensure_ns] waits while the directory is read, and other tasks run meanwhile: the
    look at the map before ([Ok true] when the namespace is open), the opening, and the
    second look at the map after it. *)
Definition ensure_lookup (ns : bytes) : M bool := fun s =>
  if negb (is_valid_ns_name ns) then (Err (InvalidNamespace ns), s) else
  match namespaces s !! ns with
  | Some _ => (Ok true, s)
  | None =>
      if decide (MAX_NAMESPACES <= size (namespaces s))%nat
      then (Err (CapacityExceeded "namespace limit reached"), s) else (Ok false, s)
  end.

Definition ensure_open (ns : bytes) : M NsLog.t := fun s =>
  let '(files, blobs) := default (∅, ∅) (data_dir s !! ns) in
  (NsLog.open files blobs (config s), s).

Definition ensure_insert (ns : bytes) (nslog : NsLog.t) : M unit := fun s =>
  match namespaces s !! ns with
  | Some _ => (Ok tt, s)
  | None =>
      if decide (MAX_NAMESPACES <= size (namespaces s))%nat
      then (Err (CapacityExceeded "namespace limit reached"), s)
      else (Ok tt, set_namespaces (<[ns := nslog]> (namespaces s)) s)
  end.

(** The whole of it, for a task that no other one interrupts. *)
Definition ensure_ns (ns : bytes) : M unit :=
  is_open ← ensure_lookup ns;
  if (is_open : bool) then mret tt else nslog ← ensure_open ns; ensure_insert ns nslog.

Lemma ensure_ns_eq ns s :
  ensure_ns ns s =
  if negb (is_valid_ns_name ns) then (Err (InvalidNamespace ns), s) else
  match namespaces s !! ns with
  | Some _ => (Ok tt, s)
  | None =>
      if decide (MAX_NAMESPACES <= size (namespaces s))%nat
      then (Err (CapacityExceeded "namespace limit reached"), s) else
      let '(files, blobs) := default (∅, ∅) (data_dir s !! ns) in
      match NsLog.open files blobs (config s) with
      | Err e => (Err e, s)
      | Ok nslog => (Ok tt, set_namespaces (<[ns := nslog]> (namespaces s)) s)
      end
  end.
Proof.
  unfold ensure_ns, ensure_lookup, mbind, st_mbind, st_bind. destruct (negb _); [done|].
  destruct (namespaces s !! ns) eqn:Hns; [done|]. case_decide as Hsz; [done|]. unfold ensure_open.
  destruct (default _ _) as [files blobs]. destruct (NsLog.open _ _ _) as [l|e]; [|done].
  unfold ensure_insert. by rewrite Hns, ?decide_False.
Qed.

(** ** The cache *)

Definition upsert_cache (ns key value : bytes) (expires_at_ms : option Z) (metadata : option json)
    (meta_len revision : Z) : M unit :=
  updated ← with_cache (fun c => with_cache_key ns key (fun ck =>
    MemCache.try_update c ck value expires_at_ms metadata meta_len revision));
  if (updated : bool) then mret tt
  else cache_insert ns key value expires_at_ms metadata meta_len revision.

(** The end of every write of a value: the cache and the subscribers. *)
Definition publish (ns key value : bytes) (expires_at_ms : option Z) (metadata : option json)
    (meta_len revision : Z) : M unit :=
  upsert_cache ns key value expires_at_ms metadata meta_len revision;;
  notify ns key (EvSet key value metadata expires_at_ms revision).

(** ** Reads *)

Definition cached_entry (c : bytes * option Z * option json * Z) (now now_instant : Z) : Entry :=
  let '(value, expires_at_ms, metadata, revision) := c in
  mkEntry value (instant_from_ms expires_at_ms now now_instant) metadata revision.

(** A key that is found expired is deleted. *)
Definition lazy_delete (ns key : bytes) : M unit :=
  log ns (NsLog.tombstone key);;
  cache_remove ns key.

Definition get_inline (ns key : bytes) (now now_instant : Z) : M (option Entry) :=
  hit ← cache_get ns key now;
  match hit with
  | Some c => mret (Some (cached_entry c now now_instant))
  | None =>
      idx ← index_of ns;
      match NsIndex.get idx key with
      | None => mret None
      | Some entry =>
          let expires_at_ms := NsIndex.get_ttl idx key in
          if past expires_at_ms now then lazy_delete ns key;; mret None else
          '(value, meta_bytes) ← in_ns ns (fun l => (NsLog.read_value l entry, l));
          metadata ← st_lift (metadata_from_bytes meta_bytes);
          mret (Some (mkEntry value (instant_from_ms expires_at_ms now now_instant) metadata
                        (ie_tstamp_ms entry)))
      end
  end.

Definition ttl_raw (ns key : bytes) : M TtlResult :=
  ensure_ns ns;;
  now ← now_ms;
  idx ← index_of ns;
  match NsIndex.get idx key with
  | None => mret NotFound
  | Some _ =>
      match NsIndex.get_ttl idx key with
      | None => mret NoExpiry
      | Some ms =>
          if decide (ms <= now) then lazy_delete ns key;; mret NotFound
          else mret (Remaining (sat_sub ms now))
      end
  end.

(** [get] up to its read of the disk: the answer, or the index entry to read. *)
Definition get_lookup (ns key : bytes) (now now_instant : Z)
    : M (option Entry + IndexEntry * option Z) :=
  hit ← cache_get ns key now;
  match hit with
  | Some c => count_hit;; mret (inl (Some (cached_entry c now now_instant)))
  | None =>
      count_miss;;
      idx ← index_of ns;
      match NsIndex.get idx key with
      | None => mret (inl None)
      | Some entry =>
          let expires_at_ms := NsIndex.get_ttl idx key in
          if past expires_at_ms now then lazy_delete ns key;; mret (inl None)
          else mret (inr (entry, expires_at_ms))
      end
  end.

(** The rest: the read, and the cache. *)
Definition get_fill (ns key : bytes) (now now_instant : Z) (entry : IndexEntry)
    (expires_at_ms : option Z) : M (option Entry) :=
  '(value, meta_bytes) ← in_ns ns (fun l => (NsLog.read_value l entry, l));
  metadata ← st_lift (metadata_from_bytes meta_bytes);
  cache_insert ns key value expires_at_ms metadata (zlen meta_bytes) (ie_tstamp_ms entry);;
  mret (Some (mkEntry value (instant_from_ms expires_at_ms now now_instant) metadata (ie_tstamp_ms entry))).

Definition get (ns key : bytes) : M (option Entry) :=
  now ← now_ms;
  now_instant ← instant_now;
  ensure_ns ns;;
  found ← get_lookup ns key now now_instant;
  match found with
  | inl r => mret r
  | inr (entry, expires_at_ms) => get_fill ns key now now_instant entry expires_at_ms
  end.

(** The loop of [mget] over the keys: the results that the cache has, the entries to
    read with their expiry, and the keys found expired. *)
Fixpoint mget_lookup (ns : bytes) (keys : list bytes) (i : nat) (now now_instant : Z)
    (results : list (option Entry)) (misses : list (nat * IndexEntry))
    (miss_meta : list (option Z * Z)) (expired_keys : list bytes)
    : M (list (option Entry) * list (nat * IndexEntry) * list (option Z * Z) * list bytes) :=
  match keys with
  | [] => mret (results, misses, miss_meta, expired_keys)
  | key :: keys =>
      hit ← cache_get ns key now;
      match hit with
      | Some c =>
          count_hit;;
          mget_lookup ns keys (S i) now now_instant (<[i := Some (cached_entry c now now_instant)]> results)
            misses miss_meta expired_keys
      | None =>
          count_miss;;
          idx ← index_of ns;
          match NsIndex.get idx key with
          | None => mget_lookup ns keys (S i) now now_instant results misses miss_meta expired_keys
          | Some entry =>
              let ttl := NsIndex.get_ttl idx key in
              if past ttl now
              then mget_lookup ns keys (S i) now now_instant results misses miss_meta (expired_keys ++ [key])
              else mget_lookup ns keys (S i) now now_instant results (misses ++ [(i, entry)])
                     (miss_meta ++ [(ttl, ie_tstamp_ms entry)]) expired_keys
          end
      end
  end.

(** [join_all] of tombstones: all of them are written, then the results are
    looked at. *)
Fixpoint tombstones (ns : bytes) (keys : list bytes) : M (list (eresult (option Z))) := fun s =>
  match keys with
  | [] => (Ok [], s)
  | key :: keys =>
      let '(r, s) := log ns (NsLog.tombstone key) s in
      (rs ← tombstones ns keys; mret (r :: rs)) s
  end.

Fixpoint first_error {A} (rs : list (eresult A)) : eresult unit :=
  match rs with
  | [] => Ok tt
  | r :: rs => _ ← r; first_error rs
  end.

Fixpoint mget_fill (ns : bytes) (keys : list bytes) (now now_instant : Z)
    (read : list ((nat * bytes * bytes) * (option Z * Z))) (results : list (option Entry))
    : M (list (option Entry)) :=
  match read with
  | [] => mret results
  | ((slot, value, meta_bytes), (ttl, revision)) :: read =>
      metadata ← st_lift (metadata_from_bytes meta_bytes);
      cache_insert ns (default [] (keys !! slot)) value ttl metadata (zlen meta_bytes) revision;;
      mget_fill ns keys now now_instant read
        (<[slot := Some (mkEntry value (instant_from_ms ttl now now_instant) metadata revision)]> results)
  end.

Definition mget (ns : bytes) (keys : list bytes) : M (list (option Entry)) :=
  now ← now_ms;
  now_instant ← instant_now;
  ensure_ns ns;;
  '(results, misses, miss_meta, expired_keys) ←
    mget_lookup ns keys 0 now now_instant (replicate (length keys) None) [] [] [];
  tombs ← tombstones ns expired_keys;
  st_lift (first_error tombs);;
  if decide (misses = []) then mret results else
  read ← in_ns ns (fun l => (NsLog.bulk_read l misses, l));
  mget_fill ns keys now now_instant (zip read miss_meta) results.

(** ** Writes *)

Definition set (ns key value : bytes) (opts : SetOptions) : M unit :=
  ensure_ns ns;;
  now ← now_ms;
  expires_at_ms ←
    (if o_keep_ttl opts then idx ← index_of ns; mret (NsIndex.get_ttl idx key)
     else st_lift (validate_opt_ttl (o_ttl opts) now));
  meta_bytes ← st_lift (meta_to_bytes (o_metadata opts));
  revision ← log ns (NsLog.put_full key value meta_bytes expires_at_ms);
  publish ns key value expires_at_ms (o_metadata opts) (zlen meta_bytes) revision.

Definition set_conditional (ns key value : bytes) (opts : SetOptions) (require_live : bool) : M bool :=
  ensure_ns ns;;
  now ← now_ms;
  let cond := if require_live then KeyPresent else KeyAbsent in
  expires_at_ms ←
    (if o_keep_ttl opts then idx ← index_of ns; mret (NsIndex.get_ttl idx key)
     else st_lift (validate_opt_ttl (o_ttl opts) now));
  meta_bytes ← st_lift (meta_to_bytes (o_metadata opts));
  written ← log ns (NsLog.put_full_cond key value meta_bytes expires_at_ms cond now);
  match written with
  | None => mret false
  | Some revision =>
      publish ns key value expires_at_ms (o_metadata opts) (zlen meta_bytes) revision;;
      mret true
  end.

Definition setnx (ns key value : bytes) (opts : SetOptions) : M bool :=
  set_conditional ns key value opts false.
Definition setxx (ns key value : bytes) (opts : SetOptions) : M bool :=
  set_conditional ns key value opts true.

Definition setrev (ns key value : bytes) (opts : SetOptions) (expected_rev : Z) : M (option Z) :=
  ensure_ns ns;;
  now ← now_ms;
  expires_at_ms ← st_lift (validate_opt_ttl (o_ttl opts) now);
  meta_bytes ← st_lift (meta_to_bytes (o_metadata opts));
  written ← log ns (NsLog.put_full_cond key value meta_bytes expires_at_ms (Revision expected_rev) now);
  match written with
  | None => mret None
  | Some revision =>
      publish ns key value expires_at_ms (o_metadata opts) (zlen meta_bytes) revision;;
      mret (Some revision)
  end.

(** [put_many] reads the clock and writes a blob for each pair. *)
Definition log_many (ns : bytes) (pairs : list (bytes * bytes)) : M (list Z) := fun s =>
  let clock := clock_at <$> seq (ticks s) (length pairs) in
  let blob_faults := (fun n => f_blob (io_at n)) <$> seq (S (calls s)) (length pairs) in
  let io := io_at (calls s) in
  in_ns ns (NsLog.put_many pairs clock blob_faults io)
    (set_calls (S (calls s) + length pairs) (set_ticks (ticks s + length pairs) s)).

Fixpoint upsert_all (ns : bytes) (l : list ((bytes * bytes) * Z)) : M unit :=
  match l with
  | [] => mret tt
  | ((key, value), revision) :: l => upsert_cache ns key value None None 0 revision;; upsert_all ns l
  end.

Fixpoint notify_all (ns : bytes) (l : list ((bytes * bytes) * Z)) : M unit :=
  match l with
  | [] => mret tt
  | ((key, value), revision) :: l =>
      notify ns key (EvSet key value None None revision);; notify_all ns l
  end.

Definition mset (ns : bytes) (pairs : list (bytes * bytes)) : M unit :=
  ensure_ns ns;;
  revisions ← log_many ns pairs;
  upsert_all ns (zip pairs revisions);;
  notify_all ns (zip pairs revisions).

Fixpoint remove_all (ns : bytes) (keys : list bytes) : M unit :=
  match keys with
  | [] => mret tt
  | key :: keys => cache_remove ns key;; remove_all ns keys
  end.

(** The counting loop of [del]. *)
Fixpoint del_loop (ns : bytes) (l : list ((bytes * eresult (option Z)) * bool)) (count : Z) : M Z :=
  match l with
  | [] => mret count
  | ((key, tomb_result), expired) :: l =>
      tomb ← st_lift tomb_result;
      match tomb with
      | Some revision =>
          if expired then del_loop ns l count
          else notify ns key (EvDel key revision);; del_loop ns l (count + 1)
      | None => del_loop ns l count
      end
  end.

Definition del (ns : bytes) (keys : list bytes) : M Z :=
  ensure_ns ns;;
  now ← now_ms;
  idx ← index_of ns;
  let was_expired := (fun k => NsIndex.is_expired idx k now) <$> keys in
  tombstone_results ← tombstones ns keys;
  remove_all ns keys;;
  del_loop ns (zip (zip keys tombstone_results) was_expired) 0.

Definition present_and_live (idx : NsIndex.t) (key : bytes) (now : Z) : bool :=
  bool_decide (is_Some (NsIndex.get idx key)) && negb (NsIndex.is_expired idx key now).

Definition exists_ (ns : bytes) (keys : list bytes) : M Z :=
  ensure_ns ns;;
  now ← now_ms;
  idx ← index_of ns;
  mret (zlen (filter (fun k => present_and_live idx k now = true) keys)).

(** The new expiry in the log, out of the cache and to the subscribers. *)
Definition change_ttl (ns key : bytes) (new_ms : option Z) (entry : option Entry) : M unit :=
  revision ← log ns (NsLog.ttl_update key new_ms);
  cache_remove ns key;;
  match entry with
  | Some e => notify ns key (EvSet key (e_value e) (e_metadata e) new_ms revision)
  | None => mret tt
  end.

Definition expire (ns key : bytes) (ttl : Z) : M bool :=
  ensure_ns ns;;
  now ← now_ms;
  now_instant ← instant_now;
  idx ← index_of ns;
  if negb (present_and_live idx key now) then cache_remove ns key;; mret false else
  new_ms ← st_lift (validate_ttl ttl now);
  entry ← get_inline ns key now now_instant;
  change_ttl ns key (Some new_ms) entry;;
  mret true.

Definition persist (ns key : bytes) : M bool :=
  ensure_ns ns;;
  now ← now_ms;
  now_instant ← instant_now;
  idx ← index_of ns;
  let present := bool_decide (is_Some (NsIndex.get idx key)) in
  let has_ttl := bool_decide (is_Some (NsIndex.get_ttl idx key)) in
  if negb present || negb has_ttl || NsIndex.is_expired idx key now then mret false else
  entry ← get_inline ns key now now_instant;
  change_ttl ns key None entry;;
  mret true.

(** The inline read of [getex]; [None] returns from it. *)
Definition getex_read (ns key : bytes) (now now_instant : Z) : M (option Entry) :=
  hit ← cache_get ns key now;
  match hit with
  | Some c => mret (Some (cached_entry c now now_instant))
  | None =>
      idx ← index_of ns;
      match NsIndex.get idx key with
      | None => mret None
      | Some entry =>
          let expires_at_ms := NsIndex.get_ttl idx key in
          if past expires_at_ms now then log ns (NsLog.tombstone key);; mret None
          else get_fill ns key now now_instant entry expires_at_ms
      end
  end.

Definition getex (ns key : bytes) (op : option GetExOp) : M (option Entry) :=
  match op with
  | None => get ns key
  | Some op =>
      now ← now_ms;
      now_instant ← instant_now;
      ensure_ns ns;;
      found ← getex_read ns key now now_instant;
      match found with
      | None => mret None
      | Some found =>
          new_ms ← match op with
                   | SetTtl ttl => ms ← st_lift (validate_ttl ttl now); mret (Some ms)
                   | Persist => mret None
                   end;
          log ns (NsLog.ttl_update key new_ms);;
          cache_remove ns key;;
          mret (Some found)
      end
  end.

Definition ttl (ns key : bytes) : M TtlResult :=
  r ← ttl_raw ns key;
  mret (match r with Remaining ms => Remaining (ms / 1000) | other => other end).

Definition pttl (ns key : bytes) : M TtlResult := ttl_raw ns key.

Definition getset (ns key value : bytes) : M (option Entry) :=
  now ← now_ms;
  now_instant ← instant_now;
  ensure_ns ns;;
  old ← get_inline ns key now now_instant;
  revision ← log ns (NsLog.put_full key value [] None);
  publish ns key value None None 0 revision;;
  mret old.

Definition getdel (ns key : bytes) : M (option Entry) :=
  now ← now_ms;
  now_instant ← instant_now;
  ensure_ns ns;;
  old ← get_inline ns key now now_instant;
  tomb_rev ← log ns (NsLog.tombstone key);
  cache_remove ns key;;
  match old, tomb_rev with
  | Some _, Some revision => notify ns key (EvDel key revision)
  | _, _ => mret tt
  end;;
  mret old.

Definition delrev (ns key : bytes) (expected_rev : Z) : M (option unit) :=
  now ← now_ms;
  ensure_ns ns;;
  deleted ← log ns (NsLog.tombstone_cond key expected_rev now);
  match deleted with
  | None => mret None
  | Some revision =>
      cache_remove ns key;;
      notify ns key (EvDel key revision);;
      mret (Some tt)
  end.

(** ** Counters *)

(** The value, expiry and revision that an increment starts from. *)
Definition incr_read (ns key : bytes) (now : Z) : M (option bytes * option Z * WriteCondition) :=
  hit ← cache_get ns key now;
  match hit with
  | Some (value, ttl_ms, _, rev) => mret (Some value, ttl_ms, Revision rev)
  | None =>
      idx ← index_of ns;
      match NsIndex.get idx key with
      | None => mret (None, None, KeyAbsent)
      | Some e =>
          let ttl_ms := NsIndex.get_ttl idx key in
          if past ttl_ms now then lazy_delete ns key;; mret (None, None, KeyAbsent)
          else
            '(value, _) ← in_ns ns (fun l => (NsLog.read_value l e, l));
            mret (Some value, ttl_ms, Revision (ie_tstamp_ms e))
      end
  end.

Definition incr_value (current : option bytes) (delta : Z) : eresult Z :=
  current_int ← match current with
                | None => Ok 0
                | Some v => ok_or (parse_i64 v) (InvalidInput "value is not an integer or out of range")
                end;
  ok_or (checked_add_i64 current_int delta) (InvalidInput "increment or decrement would overflow").

Fixpoint incr_loop (attempts : nat) (ns key : bytes) (delta : Z) : M Z :=
  match attempts with
  | O => st_err (Conflict "incr: too many concurrent modifications on the same key")
  | S attempts =>
      now ← now_ms;
      '(current, expires_at_ms, cond) ← incr_read ns key now;
      new_val ← st_lift (incr_value current delta);
      let new_bytes := show_i64 new_val in
      written ← log ns (NsLog.put_full_cond key new_bytes [] expires_at_ms cond now);
      match written with
      | None => incr_loop attempts ns key delta
      | Some revision => publish ns key new_bytes expires_at_ms None 0 revision;; mret new_val
      end
  end.

Definition incr (ns key : bytes) (delta : Z) : M Z :=
  ensure_ns ns;;
  incr_loop 64 ns key delta.

(** ** Subscriptions *)

Definition watch_subscribe (ns : bytes) (f : KeyFilter) (since : Z) : M (list WatchEvent * nat) := fun s =>
  let '(r, w, cs) := WatchRegistry.subscribe (watchers s) (channels s) ns f in
  (rx ← st_lift r;
   ensure_ns ns;;
   initial ← (if decide (since = 0) then
                now ← now_ms; in_ns ns (fun l => (Stream.current_entries l f now, l))
              else in_ns ns (fun l => (Stream.scan_since l f since, l)));
   mret (initial, rx)) (set_watchers w cs s).

(** ** Maintenance *)

Definition sweep_cache : M Z :=
  now ← now_ms;
  with_cache (fun c => MemCache.sweep_expired c now).

Definition cache_len (s : t) : nat := MemCache.len (cache s).
Definition cache_bytes_used (s : t) : Z := MemCache.bytes_used (cache s).
Definition namespace_count (s : t) : nat := size (namespaces s).
Definition sealed_segment_count (s : t) : nat :=
  map_fold (fun _ l n => NsLog.sealed_file_count l + n)%nat O (namespaces s).
Definition last_revision_per_namespace (s : t) : list Z :=
  (fun nl => NsLog.last_revision nl.2) <$> map_to_list (namespaces s).

(** A method on the log of every open namespace; all of them run, the results are
    looked at afterwards. *)
Fixpoint each_ns {A} (names : list bytes) (m : bytes -> faults -> NsLog.M A) : M (list (eresult A)) := fun s =>
  match names with
  | [] => (Ok [], s)
  | ns :: names =>
      let '(r, s) := (io ← next_io; in_ns ns (m ns io)) s in
      (rs ← each_ns names m; mret (r :: rs)) s
  end.

Definition open_names (s : t) : list bytes := (map_to_list (namespaces s)).*1.

Definition sync_logs : M unit :=
  s ← st_get;
  results ← each_ns (open_names s) (fun _ io => NsLog.sync io);
  st_lift (first_error results).

(** [hook ns] is the outcome of the fail-once test file. *)
Definition seal_all_for_shutdown (hook : bytes -> bool) : M unit :=
  s ← st_get;
  each_ns (open_names s) (fun _ _ => st_modify NsLog.freeze);;
  results ← each_ns (open_names s) (fun ns io => NsLog.seal_active_for_shutdown (hook ns) io);
  st_lift (first_error results).

Definition resume_after_abort : M unit :=
  s ← st_get;
  results ← each_ns (open_names s) (fun _ io => NsLog.reopen_active_after_seal io);
  st_lift (first_error results);;
  each_ns (open_names s) (fun _ _ => st_modify NsLog.unfreeze);;
  mret tt.

(** [merges] is the outcome of the file operations of the merges. *)
Definition reclaim (ns : bytes) (merges : list merge_faults) : M unit :=
  ensure_ns ns;;
  io ← next_io;
  in_ns ns (Reclaim.reclaim io merges);;
  mret tt.

Record ReclaimSummary := mkSummary { namespaces_reclaimed : Z; files_freed : Z; summary_live_bytes : Z }.

Fixpoint summarize (results : list (eresult ReclaimReport)) (summary : ReclaimSummary) : eresult ReclaimSummary :=
  match results with
  | [] => Ok summary
  | result :: results =>
      report ← result;
      summarize results (mkSummary (namespaces_reclaimed summary + 1)
        (files_freed summary + dead_files_dropped report) (live_bytes report))
  end.

Definition reclaim_if_needed (threshold : nat) (merges : bytes -> list merge_faults) : M ReclaimSummary :=
  if decide (threshold = 0)%nat then mret (mkSummary 0 0 0) else
  s ← st_get;
  let to_reclaim := (filter (fun nl => threshold < NsLog.sealed_file_count nl.2)%nat
                       (map_to_list (namespaces s))).*1 in
  results ← each_ns to_reclaim (fun ns io => Reclaim.reclaim io (merges ns));
  st_lift (summarize results (mkSummary 0 0 0)).

(** ** Scanning and flushing *)

Definition scan (ns cursor : bytes) (pattern : option bytes) (count : Z) : M ScanPage :=
  ensure_ns ns;;
  now ← now_ms;
  let resume_after :=
    match cursor with
    | 1 :: key => Some key
    | _ => None
    end in
  idx ← index_of ns;
  let matches := fun k => match pattern with None => true | Some p => default false (glob_match p k) end in
  let '(keys, last_key) := NsIndex.scan idx resume_after (Z.to_nat count) now matches in
  mret (mkScanPage (match last_key with None => lit "0" | Some k => 1 :: k end) keys).

Definition db_size (ns : bytes) : M Z :=
  ensure_ns ns;;
  idx ← index_of ns;
  mret (NsIndex.live_len idx).

Fixpoint notify_dels (ns : bytes) (keys : list bytes) (revision : Z) : M unit :=
  match keys with
  | [] => mret tt
  | key :: keys => notify ns key (EvDel key revision);; notify_dels ns keys revision
  end.

Definition flush_db (ns : bytes) : M unit :=
  ensure_ns ns;;
  with_cache (fun c => (tt, MemCache.remove_by_prefix c (ns ++ [0])));;
  now ← now_ms;
  idx ← index_of ns;
  let live_keys := (filter (fun ke => NsIndex.is_expired idx ke.1 now = false) (NsIndex.iter idx)).*1 in
  clock ← now_ms;
  revision ← in_ns ns (NsLog.flush clock);
  in_ns ns (st_modify (fun l => NsLog.set_values (ValueStore.clear (NsLog.values l)) l));;
  notify_dels ns live_keys revision.
End Store.
End ShardStore.
