(* ===== verification/StoreInv.v ===== *)
(** * The store between its operations

    The state of [ShardStore] as a map from namespaces to their contents, with a
    cache that repeats a part of them, and the effect of the steps that the
    operations are made of. *)

From stdpp Require Import base tactics list gmap strings.
From Stdlib Require Import ZArith Lia.
From S2P Require Import Prelude Record Index LogFile ValueStore Recover NsLog NsRepr NsSpec Reclaim NsBatch NsSim NsOk Ascii Glob Cache Watch Stream Store.

Open Scope Z_scope.

(** ** Cache keys *)

Lemma take_patched {A} (a b rest : list A) n : n = zlen a + zlen b -> take (Z.to_nat n) (a ++ b ++ rest) = a ++ b.
Proof. intros ->. rewrite app_assoc, <- zlen_app. unfold zlen. by rewrite Nat2Z.id, take_app_length. Qed.

Lemma patch_head {A} (b b' c : list A) : length b = length b' -> patch (b ++ c) 0 b' = b' ++ c.
Proof. intros Hb. by apply (patch_mid [] b b' c 0). Qed.

(** The buffer on the stack holds the same key. *)
Lemma with_cache_key_eq {A} ns key (f : bytes -> A) : with_cache_key ns key f = f (cache_key ns key).
Proof.
  unfold with_cache_key, cache_key. case_decide as Ht; [|done]. f_equal.
  set (r := 128 - (zlen ns + 1 + zlen key)).
  assert (replicate 128 0 = replicate (length ns) 0 ++ [0] ++ replicate (length key) 0 ++ replicate (Z.to_nat r) 0)
    as ->.
  { rewrite <- !replicate_add. change [0] with (replicate 1 0). rewrite <- !replicate_add. f_equal.
    subst r. unfold zlen in *. lia. }
  rewrite patch_head by (by rewrite length_replicate). rewrite (patch_mid ns [0] [0]) by done.
  rewrite (app_assoc ns [0]), (patch_mid (ns ++ [0]) (replicate (length key) 0) key)
    by (rewrite ?zlen_app, ?length_replicate; done).
  rewrite take_patched, <- app_assoc; [done|]. rewrite zlen_app. done.
Qed.

Lemma valid_no_zero ns : is_valid_ns_name ns = true -> 0 ∉ ns.
Proof.
  unfold is_valid_ns_name. intros [_ Hall]%andb_true_iff Hin.
  rewrite forallb_forall in Hall. specialize (Hall 0 (proj1 (list_elem_of_In _ _) Hin)). done.
Qed.

Lemma cache_key_prefix ns ns' k k' :
  0 ∉ ns -> 0 ∉ ns' -> ns ++ [0] ++ k = ns' ++ [0] ++ k' -> ns = ns' /\ k = k'.
Proof.
  revert ns'. induction ns as [|c ns IH]; intros [|c' ns'] Hn Hn'; simpl; intros [=]; subst.
  - done.
  - exfalso. apply Hn'. left.
  - exfalso. apply Hn. left.
  - destruct (IH ns') as [-> ->]; [by intros ?; apply Hn; right|by intros ?; apply Hn'; right|done|done].
Qed.

Lemma cache_key_inj ns ns' k k' :
  is_valid_ns_name ns = true -> is_valid_ns_name ns' = true ->
  cache_key ns k = cache_key ns' k' -> ns = ns' /\ k = k'.
Proof. intros Hn%valid_no_zero Hn'%valid_no_zero. by apply cache_key_prefix. Qed.

(** ** Contents *)

Record space := mkSpace { sp_map : gmap bytes aentry; sp_last : Z }.

Abbreviation contents := (gmap bytes space).

Definition at_ns (A : contents) (ns : bytes) : space := default (mkSpace ∅ 0) (A !! ns).

Section Inv.
Context {crc_impl : CrcFast} {blake : Blake3} `{Mpsc} `{Memchr} {logs : Provenance}.
Import ShardStore.

(** The metadata of an entry parses, and its expiry is in range. *)
Definition meta_of (a : aentry) : option json :=
  match metadata_from_bytes (a_meta a) with Ok md => md | Err _ => None end.

Definition sound (a : aentry) : Prop :=
  metadata_from_bytes (a_meta a) = Ok (meta_of a) /\ exp_u64 (a_expires a).

(** What the cache has for an entry. *)
Definition cached (a : aentry) : bytes * option Z * option json * Z :=
  (a_value a, a_expires a, meta_of a, a_rev a).

Definition represents (sp : space) (l : NsLog.t) : Prop :=
  holds (sp_map sp) l /\ sp_last sp = NsLog.last_tstamp l /\ map_Forall (fun _ => sound) (sp_map sp).

Record logs_ok (A : contents) (s : t) : Prop := {
  lo_open : forall ns l, namespaces s !! ns = Some l ->
    is_valid_ns_name ns = true /\ represents (at_ns A ns) l;
  lo_closed : forall ns, namespaces s !! ns = None -> at_ns A ns = mkSpace ∅ 0;
  lo_disk : forall ns, is_valid_ns_name ns = true -> namespaces s !! ns = None -> data_dir s !! ns = None;
  lo_prov : forall ns l, namespaces s !! ns = Some l -> prov l;
  lo_config : (2 <= fanout (config s))%nat;
}.

(** Every entry that the cache may hold is that of a key. *)
Definition mirrors (A : contents) (w : gmap bytes (bytes * option Z * option json * Z)) : Prop :=
  forall ck d, w !! ck = Some d ->
    exists ns key a, ck = cache_key ns key /\ is_valid_ns_name ns = true /\
      sp_map (at_ns A ns) !! key = Some a /\ d = cached a.

Definition pub (s : t) : WatchRegistry.t * chans := (watchers s, channels s).

(** The store has the contents [A], and its cache agrees with them. *)
Definition store_ok (max : Z) (A : contents) (s : t) : Prop :=
  logs_ok A s /\ exists w, MemCache.good max (cache s) w /\ mirrors A w.

Lemma at_upd A ns sp : at_ns (<[ns := sp]> A) ns = sp.
Proof. unfold at_ns. by rewrite lookup_insert_eq. Qed.

Lemma at_upd_ne A ns ns' sp : ns <> ns' -> at_ns (<[ns := sp]> A) ns' = at_ns A ns'.
Proof. intros. unfold at_ns. by rewrite lookup_insert_ne. Qed.

(** An entry that is not at [ns], [key] stays when the namespace is left alone elsewhere. *)
Lemma mirrors_remove A ns key w sp' :
  is_valid_ns_name ns = true -> mirrors A w ->
  (forall k, k <> key -> sp_map sp' !! k = sp_map (at_ns A ns) !! k) ->
  mirrors (<[ns := sp']> A) (delete (cache_key ns key) w).
Proof.
  intros Hv Hm Hsp ck d [Hne Hw]%lookup_delete_Some. destruct (Hm ck d Hw) as (ns' & k' & a & -> & Hv' & Ha & ->).
  exists ns', k', a. split_and!; [done..| |done]. destruct (decide (ns = ns')) as [<-|Hn].
  - rewrite at_upd, Hsp; [done|]. intros ->. done.
  - by rewrite at_upd_ne.
Qed.

Lemma mirrors_insert A ns key w sp' a :
  is_valid_ns_name ns = true -> mirrors A w ->
  (forall k, k <> key -> sp_map sp' !! k = sp_map (at_ns A ns) !! k) -> sp_map sp' !! key = Some a ->
  mirrors (<[ns := sp']> A) (<[cache_key ns key := cached a]> w).
Proof.
  intros Hv Hm Hsp Ha ck d. rewrite <- insert_delete_eq.
  intros [[<- <-]|[Hne Hw]]%lookup_insert_Some.
  - exists ns, key, a. by rewrite at_upd.
  - eapply mirrors_remove; [done..|]. exact Hw.
Qed.

Lemma mirrors_get A w ns key d :
  is_valid_ns_name ns = true -> mirrors A w -> w !! cache_key ns key = Some d ->
  exists a, sp_map (at_ns A ns) !! key = Some a /\ d = cached a.
Proof.
  intros Hv Hm Hw. destruct (Hm _ _ Hw) as (ns' & k' & a & Heq & Hv' & Ha & ->).
  apply cache_key_inj in Heq as [<- <-]; [|done..]. eauto.
Qed.

(** A cached key that stays as it is. *)
Lemma mirrors_same A ns sp' w :
  mirrors A w -> sp_map sp' = sp_map (at_ns A ns) -> mirrors (<[ns := sp']> A) w.
Proof.
  intros Hm Hsp ck d Hw. destruct (Hm ck d Hw) as (ns' & k' & a & -> & Hv' & Ha & ->).
  exists ns', k', a. split_and!; [done..| |done]. destruct (decide (ns = ns')) as [<-|Hn].
  - by rewrite at_upd, Hsp.
  - by rewrite at_upd_ne.
Qed.

Lemma represents_get sp l key :
  represents sp l ->
  match sp_map sp !! key with
  | Some a => exists e, NsIndex.get (NsLog.index l) key = Some e /\
      NsIndex.get_ttl (NsLog.index l) key = a_expires a /\ ie_tstamp_ms e = a_rev a /\
      NsLog.read_value l e = Ok (a_value a, a_meta a)
  | None => NsIndex.get (NsLog.index l) key = None /\ NsIndex.get_ttl (NsLog.index l) key = None
  end.
Proof.
  intros ([[x Hx] _ _ _] & _ & _). simpl in Hx. destruct (sp_map sp !! key) as [a|] eqn:Ha.
  - by eapply read_value_repr.
  - assert (NsIndex.get (NsLog.index l) key = None) as Hn.
    { apply eq_None_not_Some. intros Hs%(rp_dom _ _ _ Hx). rewrite Ha in Hs. by destruct Hs. }
    split; [done|]. unfold NsIndex.get, NsIndex.get_ttl in *. apply not_elem_of_dom.
    apply not_elem_of_dom in Hn. pose proof (NsIndex.inv_ttl _ (rp_index _ _ _ Hx)). set_solver.
Qed.

(** ** Steps

    The clock and the file system are those of a run in which no write fails. *)

Context (max : Z) (clock_at instant_at : nat -> Z) (io_at : nat -> faults).
Context (Hclock : forall n, sane (clock_at n)) (Hio : forall n, io_at n = no_faults).

(** The namespace [ns] is open as the log [l], with room for [n] revisions; the
    room is not known when [n] is negative.  The cache may hold what is in [w] and the subscribers are in the state [p]. *)
Record on (ns : bytes) (n : Z) (A : contents) (w : gmap bytes (bytes * option Z * option json * Z))
    (p : WatchRegistry.t * chans) (l : NsLog.t) (s : t) : Prop := {
  on_logs : logs_ok A s;
  on_open : namespaces s !! ns = Some l;
  on_ready : 0 <= n -> ready n l;
  on_cache : MemCache.good max (cache s) w;
  on_pub : pub s = p;
}.

Lemma on_valid ns n A w p l s : on ns n A w p l s -> is_valid_ns_name ns = true.
Proof. intros []. by eapply lo_open. Qed.

Lemma on_represents ns n A w p l s : on ns n A w p l s -> represents (at_ns A ns) l.
Proof. intros []. by eapply lo_open. Qed.

Lemma on_weaken ns n n' A w p l s : on ns n A w p l s -> 0 <= n' <= n -> on ns n' A w p l s.
Proof. intros [] Hn. split; try done. intros _. eapply ready_weaken; [|done]. apply on_ready0. lia. Qed.

Lemma on_store_ok ns n A w p l s : on ns n A w p l s -> mirrors A w -> store_ok max A s.
Proof. intros [] Hm. split; [done|]. by exists w. Qed.

(** Only the counters differ. *)
Definition same_state (s s' : t) : Prop :=
  config s' = config s /\ namespaces s' = namespaces s /\ data_dir s' = data_dir s /\ cache s' = cache s /\ pub s' = pub s.

Lemma logs_ok_same A s s' : same_state s s' -> logs_ok A s -> logs_ok A s'.
Proof. intros (Hcf & Hn & Hd & _) [Ho Hcl Hdk Hpr Hfan]. by split; rewrite ?Hn, ?Hd, ?Hcf. Qed.

Lemma on_same ns n A w p l s s' : same_state s s' -> on ns n A w p l s -> on ns n A w p l s'.
Proof.
  intros Hsame [Hlogs Hopen Hrd Hcache Hpub]. pose proof Hsame as (_ & Hn & Hd & Hc & Hp).
  split; [by eapply logs_ok_same|congruence|done|congruence..].
Qed.

Lemma wp_now s (Q : eresult Z -> t -> Prop) :
  Q (Ok (clock_at (ticks s))) (set_ticks (S (ticks s)) s) -> wp (now_ms clock_at) s Q.
Proof. done. Qed.

Lemma wp_instant s (Q : eresult Z -> t -> Prop) :
  Q (Ok (instant_at (ticks s))) s -> wp (instant_now instant_at) s Q.
Proof. done. Qed.

Lemma wp_count_hit ns n A w p l s (Q : eresult unit -> t -> Prop) :
  on ns n A w p l s -> (forall s', on ns n A w p l s' -> Q (Ok tt) s') -> wp count_hit s Q.
Proof. intros Hon HQ. apply HQ. by eapply on_same; [|exact Hon]. Qed.

Lemma wp_count_miss ns n A w p l s (Q : eresult unit -> t -> Prop) :
  on ns n A w p l s -> (forall s', on ns n A w p l s' -> Q (Ok tt) s') -> wp count_miss s Q.
Proof. intros Hon HQ. apply HQ. by eapply on_same; [|exact Hon]. Qed.

Lemma in_ns_eq {B} ns (m : NsLog.M B) s l r l' :
  namespaces s !! ns = Some l -> m l = (r, l') ->
  in_ns ns m s = (r, set_namespaces (<[ns := l']> (namespaces s)) s).
Proof. intros Ho Hm. unfold in_ns. by rewrite Ho, Hm. Qed.

Lemma set_same_namespace ns l s :
  namespaces s !! ns = Some l -> set_namespaces (<[ns := l]> (namespaces s)) s = s.
Proof. intros Ho. rewrite insert_id by done. by destruct s. Qed.

Lemma wp_index ns n A w p l s (Q : eresult NsIndex.t -> t -> Prop) :
  on ns n A w p l s -> Q (Ok (NsLog.index l)) s -> wp (index_of ns) s Q.
Proof.
  intros Hon HQ. unfold index_of. eapply wp_eq; [by eapply in_ns_eq; [apply Hon|]|].
  by rewrite set_same_namespace by apply Hon.
Qed.

Lemma wp_query {B} ns n A w p l s (f : NsLog.t -> eresult B) (Q : eresult B -> t -> Prop) :
  on ns n A w p l s -> Q (f l) s -> wp (in_ns ns (fun l => (f l, l))) s Q.
Proof.
  intros Hon HQ. eapply wp_eq; [by eapply in_ns_eq; [apply Hon|]|].
  by rewrite set_same_namespace by apply Hon.
Qed.

(** *** The cache *)

Lemma on_set_cache ns n A w w' p l s c :
  on ns n A w p l s -> MemCache.good max c w' -> on ns n A w' p l (set_cache c s).
Proof. intros [[] ? ? ? ?] Hg. by split. Qed.

Lemma wp_cache_get ns n A w p l s key now (Q : eresult (option _) -> t -> Prop) :
  on ns n A w p l s -> mirrors A w ->
  (forall c, on ns n A w p l (set_cache c s) ->
     (on ns n A (delete (cache_key ns key) w) p l (set_cache c s) -> Q (Ok None) (set_cache c s)) /\
     forall a, sp_map (at_ns A ns) !! key = Some a -> past (a_expires a) now = false ->
       Q (Ok (Some (cached a))) (set_cache c s)) ->
  wp (cache_get ns key now) s Q.
Proof.
  intros Hon Hm HQ. unfold cache_get, with_cache, wp. cbv beta. rewrite with_cache_key_eq.
  pose proof (MemCache.good_get _ _ _ (cache_key ns key) now (on_cache _ _ _ _ _ _ _ Hon)) as Hg.
  destruct (MemCache.get (cache s) (cache_key ns key) now) as [r c] eqn:Hget. cbn [fst snd] in *.
  destruct (HQ c) as [HN HS]; [by eapply on_set_cache|].
  assert (MemCache.entries c !! cache_key ns key = None ->
    on ns n A (delete (cache_key ns key) w) p l (set_cache c s)) as Hgone.
  { intros Hno. eapply on_set_cache; [done|]. destruct Hg as [Hi Hx Hl Hc]. split; try done.
    intros k' e' He'. rewrite lookup_delete_ne by congruence. by apply Hc. }
  unfold MemCache.get in Hget. destruct (MemCache.entries (cache s) !! cache_key ns key) as [e|] eqn:He;
    [|injection Hget as <- <-; by apply HN, Hgone].
  destruct (MemCache.expired e now) eqn:Hex; injection Hget as <- <-.
  { apply HN, Hgone. simpl. by rewrite lookup_delete_eq. }
  apply (MemCache.good_coherent _ _ _ (on_cache _ _ _ _ _ _ _ Hon)) in He.
  destruct (mirrors_get _ _ _ _ _ (on_valid _ _ _ _ _ _ _ Hon) Hm He) as (a & Ha & Hd).
  unfold MemCache.data in Hd. rewrite Hd. apply HS; [done|].
  unfold MemCache.expired in Hex. injection Hd as _ He2 _ _. by rewrite He2 in Hex.
Qed.

Lemma wp_cache_remove ns n A w p l s key (Q : eresult unit -> t -> Prop) :
  on ns n A w p l s ->
  (forall c, on ns n A (delete (cache_key ns key) w) p l (set_cache c s) -> Q (Ok tt) (set_cache c s)) ->
  wp (cache_remove ns key) s Q.
Proof.
  intros Hon HQ. unfold cache_remove, with_cache, wp. cbv beta. rewrite with_cache_key_eq. apply HQ.
  eapply on_set_cache; [done|]. apply MemCache.good_remove, Hon.
Qed.

Lemma wp_cache_insert ns n A w p l s key v exp md ml rev (Q : eresult unit -> t -> Prop) :
  on ns n A w p l s ->
  (forall c, on ns n A (<[cache_key ns key := (v, exp, md, rev)]> w) p l (set_cache c s) ->
     Q (Ok tt) (set_cache c s)) ->
  wp (cache_insert ns key v exp md ml rev) s Q.
Proof.
  intros Hon HQ. apply HQ. eapply on_set_cache; [done|].
  apply (MemCache.good_run _ (MemCache.Insert (cache_key ns key) v exp md ml rev)), Hon.
Qed.

Lemma wp_upsert ns n A w p l s key v exp md ml rev (Q : eresult unit -> t -> Prop) :
  on ns n A w p l s ->
  (forall c, on ns n A (<[cache_key ns key := (v, exp, md, rev)]> w) p l (set_cache c s) ->
     Q (Ok tt) (set_cache c s)) ->
  wp (upsert_cache ns key v exp md ml rev) s Q.
Proof.
  intros Hon HQ. unfold upsert_cache. apply wp_bind. unfold with_cache, wp at 1. cbv beta.
  rewrite with_cache_key_eq.
  pose proof (MemCache.good_run _ (MemCache.TryUpdate (cache_key ns key) v exp md ml rev) _ _
    (on_cache _ _ _ _ _ _ _ Hon)) as Hg. cbn [MemCache.run MemCache.written] in Hg.
  unfold MemCache.try_update in *.
  destruct (MemCache.entries (cache s) !! cache_key ns key) as [e|] eqn:He; cbn [fst snd] in *.
  - rewrite decide_True in Hg by eauto. apply HQ. by eapply on_set_cache.
  - rewrite decide_False in Hg by (by intros []). eapply wp_cache_insert; [by eapply on_set_cache|].
    intros c Hc. by apply HQ.
Qed.

(** *** Subscribers *)

Definition emit (ns : bytes) (p : WatchRegistry.t * chans) (evs : list (bytes * WatchEvent))
    : WatchRegistry.t * chans :=
  foldl (fun p ke => WatchRegistry.notify p.1 p.2 ns ke.1 ke.2) p evs.

Lemma wp_notify ns n A w p l s key ev (Q : eresult unit -> t -> Prop) :
  on ns n A w p l s ->
  (forall s', ticks s' = ticks s -> on ns n A w (emit ns p [(key, ev)]) l s' -> Q (Ok tt) s') ->
  wp (notify ns key ev) s Q.
Proof.
  intros [[] Hopen Hrd Hcache <-] HQ. unfold notify, wp.
  destruct (WatchRegistry.notify (watchers s) (channels s) ns key ev) as [w' cs] eqn:Hn. apply HQ; [done|].
  split; try done.
Qed.

Lemma emit_app ns p evs evs' : emit ns p (evs ++ evs') = emit ns (emit ns p evs) evs'.
Proof. apply foldl_app. Qed.

Lemma wp_publish ns n A w p l s key v exp md ml rev (Q : eresult unit -> t -> Prop) :
  on ns n A w p l s ->
  (forall s', on ns n A (<[cache_key ns key := (v, exp, md, rev)]> w)
      (emit ns p [(key, EvSet key v md exp rev)]) l s' -> Q (Ok tt) s') ->
  wp (publish ns key v exp md ml rev) s Q.
Proof.
  intros Hon HQ. unfold publish. apply wp_bind. eapply wp_upsert; [done|]. intros c Hc. cbv beta iota.
  eapply wp_notify; [done|]. intros s' _ Hs'. by apply HQ.
Qed.

(** *** The log *)

Lemma on_log ns n n' A w p l s l' m last s' :
  on ns n A w p l s -> holds m l' -> prov l' -> NsLog.last_tstamp l' = last -> (0 <= n' -> ready n' l') ->
  map_Forall (fun _ => sound) m ->
  same_state (set_namespaces (<[ns := l']> (namespaces s)) s) s' ->
  on ns n' (<[ns := mkSpace m last]> A) w p l' s'.
Proof.
  intros Hon Hh Hp Hl Hrd Hs Hsame. pose proof (on_valid _ _ _ _ _ _ _ Hon) as Hv.
  eapply (on_same _ _ _ _ _ _ (set_namespaces (<[ns := l']> (namespaces s)) s)); [done|].
  destruct Hon as [[Ho Hcl Hdk Hpr Hfan] Hopen _ Hcache Hpub]. split; try done; simpl.
  - split; simpl.
    + intros ns' l0 [[<- <-]|[Hne Hl0]]%lookup_insert_Some.
      * rewrite at_upd. split; [done|]. by split_and!.
      * rewrite at_upd_ne by done. by apply Ho.
    + intros ns' [Hno Hne]%lookup_insert_None. rewrite at_upd_ne by done. by apply Hcl.
    + intros ns' Hv' [Hno Hne]%lookup_insert_None. by apply Hdk.
    + intros ns' l0 [[<- <-]|[Hne Hl0]]%lookup_insert_Some; [done|by eapply Hpr].
    + done.
  - by rewrite lookup_insert_eq.
Qed.

(** A call of a log in service keeps what is known of it. *)
Lemma on_call ns n A w p l s c r l' :
  on ns n A w p l s -> call_ok c l -> in_service c = true -> run c l = (r, l') -> prov l'.
Proof.
  intros Hon Hok Hc Hrun. destruct (on_represents _ _ _ _ _ _ _ Hon) as (Hh & _).
  eapply prov_call; [|exact Hh|done..]. eapply (lo_prov _ _ (on_logs _ _ _ _ _ _ _ Hon)), Hon.
Qed.

Lemma log_eq {B} ns (m : Z -> faults -> NsLog.M B) s l r l' :
  namespaces s !! ns = Some l -> m (clock_at (ticks s)) no_faults l = (r, l') ->
  exists s', log clock_at io_at ns m s = (r, s') /\
    same_state (set_namespaces (<[ns := l']> (namespaces s)) s) s'.
Proof.
  intros Ho Hm. unfold log. erewrite st_bind_ok by reflexivity. erewrite st_bind_ok by reflexivity.
  rewrite Hio. simpl. eexists. split; [by eapply (in_ns_eq ns _ (set_calls _ (set_ticks _ s)))|done].
Qed.

Lemma sound_map_insert ns n A w p l s k a :
  on ns n A w p l s -> sound a -> map_Forall (fun _ => sound) (<[k := a]> (sp_map (at_ns A ns))).
Proof. intros Hon Ha. apply map_Forall_insert_2; [done|]. by apply (on_represents _ _ _ _ _ _ _ Hon). Qed.

Lemma sound_map_delete ns n A w p l s k :
  on ns n A w p l s -> map_Forall (fun _ => sound) (delete k (sp_map (at_ns A ns))).
Proof. intros Hon. apply map_Forall_delete. by apply (on_represents _ _ _ _ _ _ _ Hon). Qed.

Lemma on_put ns n A w p l s k v mt exp md ts l' s' :
  on ns n A w p l s -> exp_u64 exp -> metadata_from_bytes mt = Ok md ->
  holds (<[k := mkA v mt exp ts]> (sp_map (at_ns A ns))) l' -> prov l' -> NsLog.last_tstamp l' = ts ->
  same_state (set_namespaces (<[ns := l']> (namespaces s)) s) s' ->
  on ns (-1) (<[ns := mkSpace (<[k := mkA v mt exp ts]> (sp_map (at_ns A ns))) ts]> A) w p l' s'.
Proof.
  intros Hon He Hmd Hh Hp Hl Hs. eapply on_log; [done..|lia| |done].
  eapply sound_map_insert; [done|]. split; [|done]. unfold meta_of. simpl. by rewrite Hmd.
Qed.

Lemma wp_put ns n A w p l s k v mt exp md (Q : eresult Z -> t -> Prop) :
  on ns n A w p l s -> 0 <= n -> storable l k v mt -> exp_u64 exp -> metadata_from_bytes mt = Ok md ->
  (forall ts l' s', sp_last (at_ns A ns) < ts ->
     on ns (-1) (<[ns := mkSpace (<[k := mkA v mt exp ts]> (sp_map (at_ns A ns))) ts]> A) w p l' s' ->
     Q (Ok ts) s') ->
  wp (log clock_at io_at ns (NsLog.put_full k v mt exp)) s Q.
Proof.
  intros Hon Hn Hst He Hmd HQ. destruct (on_represents _ _ _ _ _ _ _ Hon) as (Hh & Hl & _).
  destruct (put_runs _ _ k v mt exp (clock_at (ticks s)) n Hh (on_ready _ _ _ _ _ _ _ Hon Hn) (Hclock _) He Hst)
    as (ts & l' & Hput & Hlt & Hl' & Hh').
  destruct (log_eq ns (NsLog.put_full k v mt exp) s l _ _ (on_open _ _ _ _ _ _ _ Hon) Hput) as (s' & Hs & Hsame).
  eapply wp_eq; [exact Hs|]. eapply (HQ ts l'); [lia|]. eapply on_put; try done.
  eapply (on_call _ _ _ _ _ _ _ (Put k v mt exp (clock_at (ticks s)) no_faults)); [exact Hon| |done|].
  - eapply ready_write_ok; [by apply (on_ready _ _ _ _ _ _ _ Hon)|done..].
  - unfold run, ret. by rewrite Hput.
Qed.

Lemma wp_put_cond ns n A w p l s k v mt exp md cond now (Q : eresult (option Z) -> t -> Prop) :
  on ns n A w p l s -> 0 <= n -> storable l k v mt -> exp_u64 exp -> metadata_from_bytes mt = Ok md ->
  (forall ts l' s', sp_last (at_ns A ns) < ts -> cond_check cond (alive (sp_map (at_ns A ns)) k now) = true ->
     on ns (-1) (<[ns := mkSpace (<[k := mkA v mt exp ts]> (sp_map (at_ns A ns))) ts]> A) w p l' s' ->
     Q (Ok (Some ts)) s') ->
  (forall l' s', cond_check cond (alive (sp_map (at_ns A ns)) k now) = false ->
     on ns (-1) (<[ns := at_ns A ns]> A) w p l' s' -> Q (Ok None) s') ->
  wp (log clock_at io_at ns (NsLog.put_full_cond k v mt exp cond now)) s Q.
Proof.
  intros Hon Hn Hst He Hmd HQ HQ'. destruct (on_represents _ _ _ _ _ _ _ Hon) as (Hh & Hl & Hall).
  destruct (put_cond_runs _ _ k v mt exp cond now (clock_at (ticks s)) n Hh (on_ready _ _ _ _ _ _ _ Hon Hn)
    (Hclock _) He Hst) as (r & l' & Hput & Hr).
  destruct (log_eq ns (fun c io => NsLog.put_full_cond k v mt exp cond now c io) s l _ _
    (on_open _ _ _ _ _ _ _ Hon) Hput) as (s' & Hs & Hsame).
  assert (prov l') as Hp.
  { eapply (on_call _ _ _ _ _ _ _ (PutCond k v mt exp cond now (clock_at (ticks s)) no_faults)); [exact Hon| |done|].
    - eapply ready_write_ok; [by apply (on_ready _ _ _ _ _ _ _ Hon)|done..].
    - unfold run, ret. by rewrite Hput. }
  eapply wp_eq; [exact Hs|]. destruct r as [ts|].
  - destruct Hr as (Hc & Hlt & Hl' & Hh'). eapply (HQ ts l'); [lia|done|]. by eapply on_put.
  - destruct Hr as (Hc & Hl' & Hh'). eapply (HQ' l'); [done|].
    destruct (at_ns A ns) as [m last]. simpl in *. eapply on_log; [done..|lia|lia|done|done].
Qed.

(** What a delete leaves. *)
Definition after_delete (k : bytes) (sp sp' : space) : Prop :=
  sp_map sp' = delete k (sp_map sp) /\ sp_last sp <= sp_last sp'.

Lemma wp_tombstone ns n A w p l s k (Q : eresult (option Z) -> t -> Prop) :
  on ns (1 + n) A w p l s -> 0 <= n -> fits k [] [] ->
  (forall r sp l' s', after_delete k (at_ns A ns) sp -> appended l l' ->
     match sp_map (at_ns A ns) !! k with
     | Some _ => exists ts, r = Some ts /\ sp_last (at_ns A ns) < ts /\ sp_last sp = ts
     | None => r = None
     end ->
     on ns n (<[ns := sp]> A) w p l' s' -> Q (Ok r) s') ->
  wp (log clock_at io_at ns (NsLog.tombstone k)) s Q.
Proof.
  intros Hon Hn Hf HQ. destruct (on_represents _ _ _ _ _ _ _ Hon) as (Hh & Hl & Hall).
  destruct (tombstone_runs _ _ k (clock_at (ticks s)) n Hh (on_ready _ _ _ _ _ _ _ Hon ltac:(lia)) Hn (Hclock _) Hf)
    as (r & l' & Ht & Hh' & Hrd & Hsb & Hle & Hr).
  destruct (log_eq ns (NsLog.tombstone k) s l _ _ (on_open _ _ _ _ _ _ _ Hon) Ht) as (s' & Hs & Hsame).
  eapply wp_eq; [exact Hs|].
  eapply (HQ r (mkSpace (delete k (sp_map (at_ns A ns))) (NsLog.last_tstamp l')) l'); [|done|..].
  - split; [done|simpl; lia].
  - destruct (sp_map (at_ns A ns) !! k); [|done]. destruct Hr as (ts & -> & Hlt & Hl').
    exists ts. split_and!; [done|lia|done].
  - eapply on_log; [done..| |done|done|by eapply sound_map_delete|done].
    eapply (on_call _ _ _ _ _ _ _ (Tombstone k (clock_at (ticks s)) no_faults)); [exact Hon| |done|].
    + eapply ready_delete_ok; [apply (on_ready _ _ _ _ _ _ _ Hon); lia|done..].
    + unfold run, ret. by rewrite Ht.
Qed.

Lemma wp_tombstone_cond ns n A w p l s k rev now (Q : eresult (option Z) -> t -> Prop) :
  on ns n A w p l s -> 0 <= n -> fits k [] [] ->
  (forall ts l' s', sp_last (at_ns A ns) < ts -> alive (sp_map (at_ns A ns)) k now = Some rev ->
     on ns (-1) (<[ns := mkSpace (delete k (sp_map (at_ns A ns))) ts]> A) w p l' s' ->
     Q (Ok (Some ts)) s') ->
  (forall l' s', alive (sp_map (at_ns A ns)) k now <> Some rev ->
     on ns (-1) (<[ns := at_ns A ns]> A) w p l' s' -> Q (Ok None) s') ->
  wp (log clock_at io_at ns (NsLog.tombstone_cond k rev now)) s Q.
Proof.
  intros Hon Hn Hf HQ HQ'. destruct (on_represents _ _ _ _ _ _ _ Hon) as (Hh & Hl & Hall).
  destruct (tombstone_cond_runs _ _ k rev now (clock_at (ticks s)) n Hh (on_ready _ _ _ _ _ _ _ Hon Hn) (Hclock _) Hf)
    as (r & l' & Ht & Hr).
  destruct (log_eq ns (NsLog.tombstone_cond k rev now) s l _ _ (on_open _ _ _ _ _ _ _ Hon) Ht)
    as (s' & Hs & Hsame).
  assert (prov l') as Hp.
  { eapply (on_call _ _ _ _ _ _ _ (TombstoneCond k rev now (clock_at (ticks s)) no_faults)); [exact Hon| |done|].
    - eapply ready_delete_ok; [by apply (on_ready _ _ _ _ _ _ _ Hon)|done..].
    - unfold run, ret. by rewrite Ht. }
  eapply wp_eq; [exact Hs|]. case_decide as Hd.
  - destruct Hr as (ts & -> & Hlt & Hl' & Hh'). eapply (HQ ts l'); [lia|done|].
    eapply on_log; [done..|lia|by eapply sound_map_delete|done].
  - destruct Hr as (-> & Hl' & Hh'). eapply (HQ' l'); [done|].
    destruct (at_ns A ns) as [m last]. simpl in *. eapply on_log; [done..|lia|lia|done|done].
Qed.

Definition with_expiry (exp : option Z) (a : aentry) : aentry := mkA (a_value a) (a_meta a) exp (a_rev a).

Lemma wp_ttl_update ns n A w p l s k exp a (Q : eresult Z -> t -> Prop) :
  on ns n A w p l s -> 0 <= n -> fits k [] [] -> exp_u64 exp -> sp_map (at_ns A ns) !! k = Some a ->
  (forall ts l' s', sp_last (at_ns A ns) < ts ->
     on ns (-1) (<[ns := mkSpace (<[k := with_expiry exp a]> (sp_map (at_ns A ns))) ts]> A) w p l' s' ->
     Q (Ok ts) s') ->
  wp (log clock_at io_at ns (NsLog.ttl_update k exp)) s Q.
Proof.
  intros Hon Hn Hf He Ha HQ. destruct (on_represents _ _ _ _ _ _ _ Hon) as (Hh & Hl & Hall).
  destruct (ttl_update_runs _ _ k exp (clock_at (ticks s)) n a Hh (on_ready _ _ _ _ _ _ _ Hon Hn) (Hclock _) Hf He Ha)
    as (ts & l' & Ht & Hlt & Hl' & Hh').
  destruct (log_eq ns (NsLog.ttl_update k exp) s l _ _ (on_open _ _ _ _ _ _ _ Hon) Ht) as (s' & Hs & Hsame).
  eapply wp_eq; [exact Hs|]. eapply (HQ ts l'); [lia|]. eapply on_log; [done..| |done|lia| |done].
  - eapply (on_call _ _ _ _ _ _ _ (TtlUpdate k exp (clock_at (ticks s)) no_faults)); [exact Hon| |done|].
    + split; [eapply ready_delete_ok; [by apply (on_ready _ _ _ _ _ _ _ Hon)|done..]|]. split; [done|].
      pose proof (represents_get _ _ k (on_represents _ _ _ _ _ _ _ Hon)) as Hg. rewrite Ha in Hg.
      destruct Hg as (e & Hge & _). eauto.
    + unfold run, ret. by rewrite Ht.
  - eapply sound_map_insert; [done|]. split; [|done]. apply (Hall k a Ha).
Qed.
End Inv.
