(* ===== verification/StoreSpec.v ===== *)
(** * What the operations of the store do

    [ShardStore] refines a map from namespaces to maps: every operation returns
    what the map says, changes the map as its specification says, and sends the
    events of the change, whatever the cache, the files and the opened namespaces
    look like. *)

From stdpp Require Import base tactics list gmap strings.
From Stdlib Require Import ZArith Lia.
From S2P Require Import Prelude Record Index LogFile ValueStore Recover NsLog NsRepr NsSpec Reclaim NsBatch NsSim NsOk Ascii Glob Cache Watch Stream Store StoreInv.

Open Scope Z_scope.

(** ** The map *)

(** The entry of a key that has not expired. *)
Definition find (now : Z) (m : gmap bytes aentry) (k : bytes) : option aentry :=
  a ← m !! k; if past (a_expires a) now then None else Some a.

(** A key that is read when it has expired goes. *)
Definition purge (now : Z) (k : bytes) (m : gmap bytes aentry) : gmap bytes aentry :=
  match m !! k with
  | Some a => if past (a_expires a) now then delete k m else m
  | None => m
  end.

Definition purged (now : Z) (k : bytes) (sp sp' : space) : Prop :=
  sp_map sp' = purge now k (sp_map sp) /\ sp_last sp <= sp_last sp' /\
  (purge now k (sp_map sp) = sp_map sp -> sp' = sp).

Lemma alive_find m k now : alive m k now = a_rev <$> find now m k.
Proof.
  unfold alive, find. destruct (m !! k) as [a|]; [|done]. simpl. unfold past.
  destruct (a_expires a) as [ms|]; [|done]. case_decide; destruct (Z.leb_spec ms now); done || lia.
Qed.

Lemma find_Some now m k a : find now m k = Some a <-> m !! k = Some a /\ past (a_expires a) now = false.
Proof.
  unfold find. destruct (m !! k) as [b|]; simpl; [|by split; [|intros []]].
  destruct (past (a_expires b) now) eqn:Hp; (split; [by intros [= <-]|]); intros [[= <-] ?]; [congruence|done].
Qed.

Lemma find_None now m k :
  find now m k = None -> m !! k = None \/ exists a, m !! k = Some a /\ past (a_expires a) now = true.
Proof.
  unfold find. destruct (m !! k) as [b|]; simpl; [|by left].
  destruct (past (a_expires b) now) eqn:Hp; [|done]. right. by exists b.
Qed.

Lemma purge_live now m k a : find now m k = Some a -> purge now k m = m.
Proof. intros [Ha Hp]%find_Some. unfold purge. by rewrite Ha, Hp. Qed.

Lemma purge_absent now m k : m !! k = None -> purge now k m = m.
Proof. intros Ha. unfold purge. by rewrite Ha. Qed.

Lemma purge_expired now m k a : m !! k = Some a -> past (a_expires a) now = true -> purge now k m = delete k m.
Proof. intros Ha Hp. unfold purge. by rewrite Ha, Hp. Qed.

Lemma purge_other now m k k' : k' <> k -> purge now k m !! k' = m !! k'.
Proof.
  intros Hne. unfold purge. destruct (m !! k) as [a|]; [|done]. destruct (past _ _); [|done].
  by rewrite lookup_delete_ne.
Qed.

(** A purge leaves nothing to see. *)
Lemma purge_find now m k : purge now k m !! k = find now m k.
Proof.
  unfold purge, find. destruct (m !! k) as [a|] eqn:Ha; simpl; [|done].
  destruct (past _ _); [by rewrite lookup_delete_eq|done].
Qed.

Definition present (a : option aentry) : bool := match a with Some _ => true | None => false end.

Section Spec.
Context {crc_impl : CrcFast} {blake : Blake3} `{Mpsc} `{Memchr} {logs : Provenance}.
Context (max : Z) (clock_at instant_at : nat -> Z) (io_at : nat -> faults).
Context (Hclock : forall n, sane (clock_at n)) (Hio : forall n, io_at n = no_faults).
Import ShardStore.

Definition entry_of (now inst : Z) (a : aentry) : Entry :=
  mkEntry (a_value a) (instant_from_ms (a_expires a) now inst) (meta_of a) (a_rev a).

(** ** Opening a namespace *)

(** The log an operation on [ns] gets. *)
Definition target (s : t) (ns : bytes) : NsLog.t := default (fresh (config s)) (namespaces s !! ns).

Record usable (ns : bytes) (n : Z) (s : t) : Prop := {
  us_name : is_valid_ns_name ns = true;
  us_slot : is_Some (namespaces s !! ns) \/ (size (namespaces s) < MAX_NAMESPACES)%nat;
  us_count : 0 <= n;
  us_ready : ready n (target s ns);
}.

Lemma represents_fresh cfg : represents (mkSpace ∅ 0) (fresh cfg).
Proof. split; [apply sim_fresh|]. split; [done|]. apply map_Forall_empty. Qed.

Lemma wp_ensure ns n A w s0 s (Q : eresult unit -> t -> Prop) :
  logs_ok A s0 -> MemCache.good max (cache s0) w -> usable ns n s0 ->
  same_state s0 s -> config s = config s0 ->
  (forall s', ticks s' = ticks s -> on max ns n A w (pub s0) (target s0 ns) s' -> Q (Ok tt) s') ->
  wp (ensure_ns ns) s Q.
Proof.
  intros Hlogs Hg [Hv Hslot Hn Hrd] Hsame Hcfg HQ. pose proof Hlogs as [Ho Hcl Hdk Hpr Hfan].
  pose proof (logs_ok_same _ _ _ Hsame Hlogs) as Hlogs'. destruct Hsame as (_ & Hns & Hdd & Hca & Hpu).
  unfold wp, target in *. rewrite ensure_ns_eq, Hv, Hns, Hdd, Hcfg. cbn [negb].
  destruct (namespaces s0 !! ns) as [l|] eqn:Hl.
  { cbn [fst snd]. apply HQ; [done|]. split; [done|by rewrite Hns|done|by rewrite Hca|done]. }
  rewrite decide_False by (destruct Hslot as [[]|]; [done|lia]). rewrite Hdk by done.
  change (default (∅, ∅) None) with (∅ : gmap Z bytes, ∅ : gmap ContentHash bytes).
  cbv beta iota. rewrite open_fresh. cbn [fst snd]. apply HQ; [done|].
  split; [|apply lookup_insert_eq|done|by cbn [cache set_namespaces]; rewrite Hca|done].
  split; cbn [namespaces set_namespaces data_dir]; rewrite ?Hdd.
  - intros ns' l' [[<- <-]|[Hne Hl']]%lookup_insert_Some; [|by apply Ho].
    split; [done|]. rewrite Hcl by done. apply represents_fresh.
  - intros ns' [Hno Hne]%lookup_insert_None. by apply Hcl.
  - intros ns' Hv' [Hno Hne]%lookup_insert_None. by apply Hdk.
  - intros ns' l' [[_ <-]|[_ Hl']]%lookup_insert_Some; [by apply prov_fresh|by eapply Hpr].
  - cbn [config set_namespaces]. by rewrite Hcfg.
Qed.

(** A name that is not valid is refused, and so is one more namespace than the limit. *)
Lemma ensure_invalid ns s :
  is_valid_ns_name ns = false -> ensure_ns ns s = (Err (InvalidNamespace ns), s).
Proof. intros Hv. by rewrite ensure_ns_eq, Hv. Qed.

Lemma logs_ok_ext A A' s : (forall ns, at_ns A ns = at_ns A' ns) -> logs_ok A s -> logs_ok A' s.
Proof. intros HA [Ho Hc Hd Hp Hf]. split; [|intros ns; rewrite <- HA; apply Hc|done..]. intros ns l. rewrite <- HA. apply Ho. Qed.

Lemma mirrors_ext A A' w : (forall ns, at_ns A ns = at_ns A' ns) -> mirrors A w -> mirrors A' w.
Proof.
  intros HA Hm ck d Hw. destruct (Hm ck d Hw) as (ns & k & a & Hck & Hv & Ha & Hd).
  exists ns, k, a. by rewrite <- HA.
Qed.

Lemma at_id A ns ns' : at_ns (<[ns := at_ns A ns]> A) ns' = at_ns A ns'.
Proof. destruct (decide (ns = ns')) as [<-|Hne]; [apply at_upd|by apply at_upd_ne]. Qed.

Lemma on_id ns n A w p l s : on max ns n A w p l s -> on max ns n (<[ns := at_ns A ns]> A) w p l s.
Proof. intros []. split; try done. eapply logs_ok_ext; [|done]. intros. by rewrite at_id. Qed.

Lemma mirrors_id A ns w : mirrors A w -> mirrors (<[ns := at_ns A ns]> A) w.
Proof. apply mirrors_ext. intros. by rewrite at_id. Qed.

Lemma mirrors_delete A w ck : mirrors A w -> mirrors A (delete ck w).
Proof. intros Hm ck' d [_ Hw]%lookup_delete_Some. by apply Hm. Qed.

(** ** Reads *)

(** A delete with the cache entry gone before or after it. *)
Lemma mirrors_deleted A w ns k sp' :
  is_valid_ns_name ns = true -> mirrors A w -> after_delete k (at_ns A ns) sp' ->
  mirrors (<[ns := sp']> A) (delete (cache_key ns k) w).
Proof.
  intros Hv Hm [Hsp _]. eapply mirrors_remove; [done..|]. intros k' Hne. by rewrite Hsp, lookup_delete_ne.
Qed.

Lemma mirrors_deleted_again A w ns k sp' :
  is_valid_ns_name ns = true -> mirrors A (delete (cache_key ns k) w) -> after_delete k (at_ns A ns) sp' ->
  mirrors (<[ns := sp']> A) (delete (cache_key ns k) w).
Proof.
  intros Hv Hm Hd. pose proof (mirrors_deleted _ _ _ _ _ Hv Hm Hd) as Hm'. by rewrite delete_delete_eq in Hm'.
Qed.

Lemma wp_lazy_delete ns n A w p l s k (Q : eresult unit -> t -> Prop) :
  on max ns (1 + n) A w p l s -> mirrors A w -> 0 <= n -> fits k [] [] ->
  (forall sp w' l' s', after_delete k (at_ns A ns) sp -> appended l l' ->
     on max ns n (<[ns := sp]> A) w' p l' s' -> mirrors (<[ns := sp]> A) w' -> Q (Ok tt) s') ->
  wp (lazy_delete clock_at io_at ns k) s Q.
Proof.
  intros Hon Hm Hn Hf HQ. pose proof (on_valid _ _ _ _ _ _ _ _ Hon) as Hv.
  unfold lazy_delete. apply wp_bind. eapply wp_tombstone; [done..|].
  intros r sp l' s' Hd Hsb _ Hon'. cbv beta iota. eapply wp_cache_remove; [done|]. intros c Hc.
  eapply HQ; [done..|]. by apply mirrors_deleted.
Qed.

(** The outcome of every read: the live entry of the key, and no expired one left. *)
Definition read_post {B : Type} (ns : bytes) (n : Z) (A : contents) (p : WatchRegistry.t * chans) (l : NsLog.t)
    (now : Z) (k : bytes) (res : option aentry -> eresult B) (Q : eresult B -> t -> Prop) : Prop :=
  forall sp w l' s', purged now k (at_ns A ns) sp -> appended l l' ->
    on max ns n (<[ns := sp]> A) w p l' s' -> mirrors (<[ns := sp]> A) w ->
    Q (res (find now (sp_map (at_ns A ns)) k)) s'.

Lemma appended_refl l : appended l l.
Proof. split_and!; [done..|apply files_extend_refl]. Qed.

Lemma purged_live now k sp : find now (sp_map sp) k <> None -> purged now k sp sp.
Proof. destruct (find now (sp_map sp) k) as [a|] eqn:Hf; [|done]. intros _.
  split_and!; [by erewrite purge_live|lia|done].
Qed.

Lemma purged_absent now k sp : sp_map sp !! k = None -> purged now k sp sp.
Proof. intros Hf. split_and!; [by rewrite purge_absent|lia|done]. Qed.

Lemma purged_expired now k sp sp' a :
  sp_map sp !! k = Some a -> past (a_expires a) now = true -> after_delete k sp sp' -> purged now k sp sp'.
Proof.
  intros Ha Hp [Hsp Hl]. erewrite <- purge_expired in Hsp by done. split_and!; [done..|].
  intros Heq. erewrite purge_expired in Heq by done. rewrite <- Heq, lookup_delete_eq in Ha. done.
Qed.

(** The entry of the index for a key, when its read missed the cache. *)
Lemma read_cases ns n A w p l s now k :
  on max ns n A w p l s ->
  (NsIndex.get (NsLog.index l) k = None /\ sp_map (at_ns A ns) !! k = None /\
   find now (sp_map (at_ns A ns)) k = None) \/
  (exists e a, NsIndex.get (NsLog.index l) k = Some e /\ sp_map (at_ns A ns) !! k = Some a /\
     NsIndex.get_ttl (NsLog.index l) k = a_expires a /\ ie_tstamp_ms e = a_rev a /\
     NsLog.read_value l e = Ok (a_value a, a_meta a) /\ metadata_from_bytes (a_meta a) = Ok (meta_of a) /\
     find now (sp_map (at_ns A ns)) k = if past (a_expires a) now then None else Some a).
Proof.
  intros Hon%on_represents. pose proof (represents_get _ _ k Hon) as Hg. destruct Hon as (_ & _ & Hs).
  unfold find. destruct (sp_map (at_ns A ns) !! k) as [a|] eqn:Ha; [right|by left; destruct Hg].
  destruct Hg as (e & He & Ht & Hr & Hrd). exists e, a. simpl. split_and!; try done. apply (Hs k a Ha).
Qed.

Lemma expired_past ns n A w p l s k now :
  on max ns n A w p l s ->
  NsIndex.is_expired (NsLog.index l) k now =
  match sp_map (at_ns A ns) !! k with Some a => past (a_expires a) now | None => false end.
Proof.
  intros Hon%on_represents. pose proof (represents_get _ _ k Hon) as Hg.
  unfold NsIndex.is_expired, NsIndex.get_ttl in *. destruct (sp_map (at_ns A ns) !! k) as [a|].
  - destruct Hg as (e & _ & -> & _). done.
  - by destruct Hg as [_ ->].
Qed.

Lemma present_get ns n A w p l s k :
  on max ns n A w p l s ->
  bool_decide (is_Some (NsIndex.get (NsLog.index l) k)) = present (sp_map (at_ns A ns) !! k).
Proof.
  intros Hon%on_represents. pose proof (represents_get _ _ k Hon) as Hg.
  destruct (sp_map (at_ns A ns) !! k) as [a|].
  - destruct Hg as (e & -> & _). done.
  - by destruct Hg as [-> _].
Qed.

Lemma present_and_live_find ns n A w p l s k now :
  on max ns n A w p l s ->
  present_and_live (NsLog.index l) k now = present (find now (sp_map (at_ns A ns)) k).
Proof.
  intros Hon. unfold present_and_live, find.
  rewrite (present_get _ _ _ _ _ _ _ _ Hon), (expired_past _ _ _ _ _ _ _ _ _ Hon).
  destruct (sp_map (at_ns A ns) !! k) as [a|]; simpl; [|done]. by destruct (past _ _).
Qed.

Lemma past_false_find now m k a : m !! k = Some a -> past (a_expires a) now = false -> find now m k = Some a.
Proof. intros. by apply find_Some. Qed.

Lemma on_next ns n A w p l s : on max ns (1 + n) A w p l s -> 0 <= n -> on max ns n A w p l s.
Proof. intros Hon Hn. eapply on_weaken; [exact Hon|lia]. Qed.

Lemma read_unchanged {B : Type} ns n A w p l s now k (res : option aentry -> eresult B) Q :
  read_post ns n A p l now k res Q -> on max ns n A w p l s -> mirrors A w ->
  purged now k (at_ns A ns) (at_ns A ns) -> Q (res (find now (sp_map (at_ns A ns)) k)) s.
Proof. intros HQ Hon Hm Hp. eapply HQ; [exact Hp|apply appended_refl|by apply on_id|by apply mirrors_id]. Qed.

Lemma wp_get_inline ns n A w p l s k now inst (Q : eresult (option Entry) -> t -> Prop) :
  on max ns (1 + n) A w p l s -> mirrors A w -> 0 <= n -> fits k [] [] ->
  read_post ns n A p l now k (fun a => Ok (entry_of now inst <$> a)) Q ->
  wp (get_inline clock_at io_at ns k now inst) s Q.
Proof.
  intros Hon Hm Hn Hf HQ. unfold get_inline. apply wp_bind. eapply wp_cache_get; [done..|].
  intros c Hc. split; cbv beta iota.
  2: { intros a Ha Hp. pose proof (past_false_find _ _ _ _ Ha Hp) as Hfd.
       eapply read_unchanged in HQ; [|by apply on_next|done|by apply purged_live; rewrite Hfd].
       by rewrite Hfd in HQ. }
  intros Hc'. apply wp_bind. eapply wp_index; [exact Hc'|]. cbv beta iota.
  apply (mirrors_delete _ _ (cache_key ns k)) in Hm.
  destruct (read_cases _ _ _ _ _ _ _ now k Hc') as [(-> & Ha & Hfd)|(e & a & -> & Ha & -> & Hr & Hrd & Hmd & Hfd)].
  { eapply read_unchanged in HQ; [|by apply on_next|done|by apply purged_absent]. by rewrite Hfd in HQ. }
  cbv zeta. destruct (past (a_expires a) now) eqn:Hp.
  - apply wp_bind. eapply wp_lazy_delete; [exact Hc'|done..|].
    intros sp w' l' s' Hd Hsb Hon' Hm'. cbv beta iota.
    eapply HQ in Hm'; [|by eapply purged_expired|done..]. by rewrite Hfd in Hm'.
  - apply wp_bind. eapply wp_query; [exact Hc'|]. rewrite Hrd. cbv beta iota.
    apply wp_bind. unfold st_lift, wp at 1. rewrite Hmd. cbv beta iota.
    eapply read_unchanged in HQ; [|by apply on_next|done|by apply purged_live; rewrite Hfd].
    rewrite Hfd in HQ. unfold wp. simpl. by rewrite Hr.
Qed.

(** The read of a live key that was not in the cache puts it there. *)
Lemma wp_get_fill ns n A w p l s k now inst e a (Q : eresult (option Entry) -> t -> Prop) :
  on max ns n A w p l s -> mirrors A w -> sp_map (at_ns A ns) !! k = Some a ->
  ie_tstamp_ms e = a_rev a -> NsLog.read_value l e = Ok (a_value a, a_meta a) ->
  metadata_from_bytes (a_meta a) = Ok (meta_of a) ->
  (forall w' s', on max ns n (<[ns := at_ns A ns]> A) w' p l s' -> mirrors (<[ns := at_ns A ns]> A) w' ->
     Q (Ok (Some (entry_of now inst a))) s') ->
  wp (get_fill ns k now inst e (a_expires a)) s Q.
Proof.
  intros Hon Hm Ha Hr Hrd Hmd HQ. pose proof (on_valid _ _ _ _ _ _ _ _ Hon) as Hv.
  unfold get_fill. apply wp_bind. eapply wp_query; [exact Hon|]. rewrite Hrd. cbv beta iota.
  apply wp_bind. unfold st_lift, wp at 1. rewrite Hmd. cbv beta iota.
  apply wp_bind. eapply wp_cache_insert; [exact Hon|]. intros c Hc. cbv beta iota.
  rewrite Hr in *. eapply HQ; [by apply on_id|]. by eapply mirrors_insert.
Qed.

(** [get] after the namespace is open. *)
Lemma wp_get_open ns n A w p l s k now inst (Q : eresult (option Entry) -> t -> Prop) :
  on max ns (1 + n) A w p l s -> mirrors A w -> 0 <= n -> fits k [] [] ->
  read_post ns n A p l now k (fun a => Ok (entry_of now inst <$> a)) Q ->
  wp (found ← get_lookup clock_at io_at ns k now inst;
      match found with
      | inl r => mret r
      | inr (entry, expires_at_ms) => get_fill ns k now inst entry expires_at_ms
      end) s Q.
Proof.
  intros Hon Hm Hn Hf HQ. apply wp_bind. unfold get_lookup. apply wp_bind. eapply wp_cache_get; [done..|].
  intros c Hc. split; cbv beta iota.
  2: { intros a Ha Hp. pose proof (past_false_find _ _ _ _ Ha Hp) as Hfd. apply wp_bind.
       eapply wp_count_hit; [exact Hc|]. clear Hc. intros s' Hc. cbv beta iota.
       eapply read_unchanged in HQ; [|by apply on_next|done|by apply purged_live; rewrite Hfd].
       by rewrite Hfd in HQ. }
  intros Hc'. apply wp_bind. eapply wp_count_miss; [exact Hc'|]. clear Hc Hc'. intros s1 Hc'. cbv beta iota.
  apply wp_bind. eapply wp_index; [exact Hc'|]. cbv beta iota.
  apply (mirrors_delete _ _ (cache_key ns k)) in Hm.
  destruct (read_cases _ _ _ _ _ _ _ now k Hc') as [(-> & Ha & Hfd)|(e & a & -> & Ha & -> & Hr & Hrd & Hmd & Hfd)].
  { eapply read_unchanged in HQ; [|by apply on_next|done|by apply purged_absent]. by rewrite Hfd in HQ. }
  cbv zeta. destruct (past (a_expires a) now) eqn:Hp.
  - apply wp_bind. eapply wp_lazy_delete; [exact Hc'|done..|].
    intros sp w' l' s' Hd Hsb Hon' Hm'. cbv beta iota.
    eapply HQ in Hm'; [|by eapply purged_expired|done..]. by rewrite Hfd in Hm'.
  - unfold wp at 1. cbn [fst snd mret st_mret st_ret].
    eapply wp_get_fill; [by apply on_next|done..|]. intros w' s' Hon' Hm'.
    eapply HQ in Hm'; [|by apply purged_live; rewrite Hfd|apply appended_refl|done]. by rewrite Hfd in Hm'.
Qed.

Lemma wp_getex_read ns n A w p l s k now inst (Q : eresult (option Entry) -> t -> Prop) :
  on max ns (1 + n) A w p l s -> mirrors A w -> 0 <= n -> fits k [] [] ->
  read_post ns n A p l now k (fun a => Ok (entry_of now inst <$> a)) Q ->
  wp (getex_read clock_at io_at ns k now inst) s Q.
Proof.
  intros Hon Hm Hn Hf HQ. pose proof (on_valid _ _ _ _ _ _ _ _ Hon) as Hv.
  unfold getex_read. apply wp_bind. eapply wp_cache_get; [done..|].
  intros c Hc. split; cbv beta iota.
  2: { intros a Ha Hp. pose proof (past_false_find _ _ _ _ Ha Hp) as Hfd.
       eapply read_unchanged in HQ; [|by apply on_next|done|by apply purged_live; rewrite Hfd].
       by rewrite Hfd in HQ. }
  intros Hc'. apply wp_bind. eapply wp_index; [exact Hc'|]. cbv beta iota.
  apply (mirrors_delete _ _ (cache_key ns k)) in Hm.
  destruct (read_cases _ _ _ _ _ _ _ now k Hc') as [(-> & Ha & Hfd)|(e & a & -> & Ha & -> & Hr & Hrd & Hmd & Hfd)].
  { eapply read_unchanged in HQ; [|by apply on_next|done|by apply purged_absent]. by rewrite Hfd in HQ. }
  cbv zeta. destruct (past (a_expires a) now) eqn:Hp.
  - apply wp_bind. eapply wp_tombstone; [exact Hclock|exact Hio|exact Hc'|done..|].
    intros r sp l' s' Hd Hsb _ Hon'. cbv beta iota.
    pose proof (mirrors_deleted_again _ _ _ _ _ Hv Hm Hd) as Hm'.
    eapply HQ in Hm'; [|by eapply purged_expired|done..]. by rewrite Hfd in Hm'.
  - eapply wp_get_fill; [by apply on_next|done..|]. intros w' s' Hon' Hm'.
    eapply HQ in Hm'; [|by apply purged_live; rewrite Hfd|apply appended_refl|done]. by rewrite Hfd in Hm'.
Qed.

(** What an increment starts from. *)
Definition counter (a : option aentry) : option bytes * option Z * WriteCondition :=
  match a with
  | Some a => (Some (a_value a), a_expires a, Revision (a_rev a))
  | None => (None, None, KeyAbsent)
  end.

Lemma wp_incr_read ns n A w p l s k now (Q : eresult _ -> t -> Prop) :
  on max ns (1 + n) A w p l s -> mirrors A w -> 0 <= n -> fits k [] [] ->
  read_post ns n A p l now k (fun a => Ok (counter a)) Q ->
  wp (incr_read clock_at io_at ns k now) s Q.
Proof.
  intros Hon Hm Hn Hf HQ. unfold incr_read. apply wp_bind. eapply wp_cache_get; [done..|].
  intros c Hc. split; cbv beta iota.
  2: { intros a Ha Hp. pose proof (past_false_find _ _ _ _ Ha Hp) as Hfd.
       eapply read_unchanged in HQ; [|by apply on_next|done|by apply purged_live; rewrite Hfd].
       by rewrite Hfd in HQ. }
  intros Hc'. apply wp_bind. eapply wp_index; [exact Hc'|]. cbv beta iota.
  apply (mirrors_delete _ _ (cache_key ns k)) in Hm.
  destruct (read_cases _ _ _ _ _ _ _ now k Hc') as [(-> & Ha & Hfd)|(e & a & -> & Ha & -> & Hr & Hrd & Hmd & Hfd)].
  { eapply read_unchanged in HQ; [|by apply on_next|done|by apply purged_absent]. by rewrite Hfd in HQ. }
  cbv zeta. destruct (past (a_expires a) now) eqn:Hp.
  - apply wp_bind. eapply wp_lazy_delete; [exact Hc'|done..|].
    intros sp w' l' s' Hd Hsb Hon' Hm'. cbv beta iota.
    eapply HQ in Hm'; [|by eapply purged_expired|done..]. by rewrite Hfd in Hm'.
  - apply wp_bind. eapply wp_query; [exact Hc'|]. rewrite Hrd. cbv beta iota.
    eapply read_unchanged in HQ; [|by apply on_next|done|by apply purged_live; rewrite Hfd].
    rewrite Hfd in HQ. unfold wp. simpl. by rewrite Hr.
Qed.
End Spec.
