(* ===== verification/StoreMany.v ===== *)
(** * Loops of the store over keys

    The loops of [mget], [del], [mset] and [flush_db]. *)

From stdpp Require Import base tactics list gmap strings.
From Stdlib Require Import ZArith Lia.
From S2P Require Import Prelude Record Index LogFile ValueStore Recover NsLog NsRepr NsSpec Reclaim NsBatch NsSim NsOk Ascii Glob Cache Watch Stream Store StoreInv StoreSpec.

Open Scope Z_scope.

(** The keys of [ks] that have expired go. *)
Definition purge_all (now : Z) (ks : list bytes) (m : gmap bytes aentry) : gmap bytes aentry :=
  filter (fun x => x.1 ∉ ks \/ past (a_expires x.2) now = false) m.

Definition delete_all (ks : list bytes) (m : gmap bytes aentry) : gmap bytes aentry :=
  filter (fun x => x.1 ∉ ks) m.

(** The keys that a delete counts: a key given twice is deleted once, and one that
    has expired is not counted. *)
Fixpoint removed (now : Z) (m : gmap bytes aentry) (ks : list bytes) : list bytes :=
  match ks with
  | [] => []
  | k :: ks =>
      match find now m k with
      | Some _ => k :: removed now (delete k m) ks
      | None => removed now (delete k m) ks
      end
  end.

Lemma delete_all_nil m : delete_all [] m = m.
Proof. apply map_filter_id. intros k a _. set_solver. Qed.

Lemma delete_all_cons k ks m : delete_all (k :: ks) m = delete_all ks (delete k m).
Proof.
  apply map_eq. intros k'. unfold delete_all. apply option_eq. intros a.
  rewrite !map_lookup_filter_Some, lookup_delete_Some. set_solver.
Qed.

Lemma delete_keys_lookup ks m k : delete_all ks m !! k = if decide (k ∈ ks) then None else m !! k.
Proof.
  apply option_eq. intros a. unfold delete_all. rewrite map_lookup_filter_Some. case_decide; set_solver.
Qed.

Lemma purge_all_expired now ks ex m :
  (forall k a, m !! k = Some a -> k ∈ ex <-> k ∈ ks /\ past (a_expires a) now = true) ->
  delete_all ex m = purge_all now ks m.
Proof.
  intros Hex. apply map_filter_ext. intros k a Ha. simpl. rewrite (Hex k a Ha).
  destruct (past (a_expires a) now); naive_solver.
Qed.

Section Many.
Context {crc_impl : CrcFast} {blake : Blake3} `{Mpsc} `{Memchr} {logs : Provenance}.
Context (max : Z) (clock_at instant_at : nat -> Z) (io_at : nat -> faults).
Import ShardStore.

Lemma appended_trans l1 l2 l3 : appended l1 l2 -> appended l2 l3 -> appended l1 l3.
Proof.
  intros (Hc & Hb & Hf) (Hc' & Hb' & Hf'). split_and!; [congruence..|by eapply files_extend_trans].
Qed.

(** What is left in the cache is of keys that did not change. *)
Lemma mirrors_unchanged A ns w w' sp' :
  is_valid_ns_name ns = true -> mirrors A w ->
  (forall ck d, w' !! ck = Some d -> w !! ck = Some d /\
     forall k, ck = cache_key ns k -> sp_map sp' !! k = sp_map (at_ns A ns) !! k) ->
  mirrors (<[ns := sp']> A) w'.
Proof.
  intros Hv Hm Hw ck d [Hd Hk]%Hw. destruct (Hm ck d Hd) as (ns' & k' & a & -> & Hv' & Ha & ->).
  exists ns', k', a. split_and!; [done..| |done]. destruct (decide (ns = ns')) as [<-|Hn].
  - rewrite at_upd, Hk; done.
  - by rewrite at_upd_ne.
Qed.

(** ** Tombstones *)

(** The results of tombstones in order: a revision for a key that is there. *)
Fixpoint tombed (lo : Z) (m : gmap bytes aentry) (ks : list bytes) (rs : list (eresult (option Z))) : Prop :=
  match ks, rs with
  | [], [] => True
  | k :: ks, r :: rs =>
      match m !! k with Some _ => exists ts, r = Ok (Some ts) /\ lo < ts | None => r = Ok None end /\
      tombed lo (delete k m) ks rs
  | _, _ => False
  end.

Lemma tombed_lower lo lo' ks : forall m rs, lo' <= lo -> tombed lo m ks rs -> tombed lo' m ks rs.
Proof.
  induction ks as [|k ks IH]; intros m [|r rs] Hle; cbn [tombed]; [done..|]. intros [Hr Ht]. split; [|by apply IH].
  destruct (m !! k); [|done]. destruct Hr as (ts & -> & Hlt). exists ts. split; [done|lia].
Qed.

Lemma tombed_ok lo ks : forall m rs, tombed lo m ks rs -> first_error rs = Ok tt.
Proof.
  induction ks as [|k ks IH]; intros m [|r rs]; cbn [tombed first_error]; [done..|]. intros [Hr Ht].
  destruct (m !! k); [destruct Hr as (ts & -> & _)|rewrite Hr]; cbn [mbind result_bind]; by eapply IH.
Qed.

(** ** [del] *)

Lemma wp_remove_all ns ks : forall n A w p l s (Q : eresult unit -> t -> Prop),
  on max ns n A w p l s ->
  (forall w' s', (forall ck d, w' !! ck = Some d -> w !! ck = Some d /\ forall k, k ∈ ks -> ck <> cache_key ns k) ->
     on max ns n A w' p l s' -> Q (Ok tt) s') ->
  wp (remove_all ns ks) s Q.
Proof.
  induction ks as [|k ks IH]; intros n A w p l s Q Hon HQ; cbn [remove_all].
  - eapply (HQ w); [|exact Hon]. intros ck d Hd. split; [done|]. set_solver.
  - apply wp_bind. eapply wp_cache_remove; [exact Hon|]. intros c Hc. cbv beta iota.
    eapply IH; [exact Hc|]. intros w' s' Hw Hon'. eapply (HQ w'); [|exact Hon'].
    intros ck d [[Hne Hd]%lookup_delete_Some Hks]%Hw. split; [done|].
    intros k' [->|Hin]%elem_of_cons; [congruence|by apply Hks].
Qed.

Lemma wp_del_loop ns now (expired : bytes -> bool) ks : forall rs c lo m n A w p l s (Q : eresult Z -> t -> Prop),
  on max ns n A w p l s -> tombed lo m ks rs ->
  (forall k a, m !! k = Some a -> expired k = past (a_expires a) now) ->
  (forall tss s', length tss = length (removed now m ks) -> Forall (fun ts => lo < ts) tss ->
     on max ns n A w (emit ns p (zip_with (fun k ts => (k, EvDel k ts)) (removed now m ks) tss)) l s' ->
     Q (Ok (c + zlen (removed now m ks))) s') ->
  wp (del_loop ns (zip (zip ks rs) (expired <$> ks)) c) s Q.
Proof.
  induction ks as [|k ks IH]; intros [|r rs] c lo m n A w p l s Q Hon Ht He HQ; cbn [tombed] in Ht; try done.
  - specialize (HQ [] s). cbn [removed] in HQ. rewrite Z.add_0_r in HQ. by apply HQ.
  - destruct Ht as [Hr Ht]. cbn [fmap list_fmap zip zip_with del_loop]. apply wp_bind.
    assert (forall k' a, delete k m !! k' = Some a -> expired k' = past (a_expires a) now) as He'.
    { intros k' a [_ Ha]%lookup_delete_Some. by apply He. }
    cbn [removed] in HQ. unfold find in HQ. destruct (m !! k) as [a|] eqn:Hk; cbn [mbind option_bind] in HQ.
    + destruct Hr as (ts & -> & Hlt). unfold st_lift, wp at 1. cbn [fst snd]. rewrite (He _ _ Hk).
      destruct (past (a_expires a) now); [by eapply IH|].
      apply wp_bind. eapply wp_notify; [exact Hon|]. intros s1 _ Hon1. cbv beta iota.
      eapply IH; [exact Hon1|exact Ht|done|]. intros tss s' Hlen Hall Hon'. rewrite <- emit_app in Hon'.
      specialize (HQ (ts :: tss) s'). rewrite zlen_cons in HQ.
      replace (c + (1 + zlen (removed now (delete k m) ks)))
        with (c + 1 + zlen (removed now (delete k m) ks)) in HQ by lia.
      apply HQ; [by simpl; rewrite Hlen|by constructor|exact Hon'].
    + rewrite Hr. unfold st_lift, wp at 1. cbn [fst snd]. by eapply IH.
Qed.

(** ** [mset] *)

(** The cache after the pairs of a batch. *)
Definition cache_pairs (ns : bytes) (l : list (bytes * bytes * Z))
    (w : gmap bytes (bytes * option Z * option json * Z)) : gmap bytes (bytes * option Z * option json * Z) :=
  foldl (fun w x => <[cache_key ns x.1.1 := (x.1.2, None, None, x.2)]> w) w l.

Lemma mirrors_pairs A ns last l : is_valid_ns_name ns = true -> forall m w,
  mirrors (<[ns := mkSpace m last]> A) w ->
  mirrors (<[ns := mkSpace (put_all m l) last]> A) (cache_pairs ns l w).
Proof.
  intros Hv. induction l as [|[[k v] ts] l IH]; intros m w Hm; [done|]. unfold cache_pairs, put_all. cbn [foldl fst snd].
  apply IH. rewrite <- (insert_insert_eq A ns _ (mkSpace m last)).
  change (v, None, None, ts) with (cached (mkA v [] None ts)).
  eapply mirrors_insert; [done..| |simpl; by rewrite lookup_insert_eq].
  intros k' Hk. simpl. by rewrite at_upd, lookup_insert_ne.
Qed.

Lemma wp_upsert_all ns l0 : forall n A w p l s (Q : eresult unit -> t -> Prop),
  on max ns n A w p l s ->
  (forall s', on max ns n A (cache_pairs ns l0 w) p l s' -> Q (Ok tt) s') ->
  wp (upsert_all ns l0) s Q.
Proof.
  induction l0 as [|[[k v] ts] l0 IH]; intros n A w p l s Q Hon HQ; cbn [upsert_all]; [by apply HQ|].
  apply wp_bind. eapply wp_upsert; [exact Hon|]. intros c Hc. cbv beta iota. by eapply IH.
Qed.

Lemma wp_notify_all ns ps : forall tss n A w p l s (Q : eresult unit -> t -> Prop),
  on max ns n A w p l s ->
  (forall s', on max ns n A w (emit ns p (zip_with (fun kv ts => (kv.1, EvSet kv.1 kv.2 None None ts)) ps tss)) l s' ->
     Q (Ok tt) s') ->
  wp (notify_all ns (zip ps tss)) s Q.
Proof.
  induction ps as [|[k v] ps IH]; intros [|ts tss] n A w p l s Q Hon HQ; cbn [zip zip_with notify_all] in *;
    try (by apply HQ).
  apply wp_bind. eapply wp_notify; [exact Hon|]. intros s1 _ Hon1. cbv beta iota.
  eapply IH; [exact Hon1|]. intros s' Hon'. apply HQ. by rewrite <- emit_app in Hon'.
Qed.

(** ** [flush_db] *)

Lemma wp_notify_dels ns ks ts : forall n A w p l s (Q : eresult unit -> t -> Prop),
  on max ns n A w p l s ->
  (forall s', on max ns n A w (emit ns p ((fun k => (k, EvDel k ts)) <$> ks)) l s' -> Q (Ok tt) s') ->
  wp (notify_dels ns ks ts) s Q.
Proof.
  induction ks as [|k ks IH]; intros n A w p l s Q Hon HQ; cbn [notify_dels]; [by apply HQ|].
  apply wp_bind. eapply wp_notify; [exact Hon|]. intros s1 _ Hon1. cbv beta iota.
  eapply IH; [exact Hon1|]. intros s' Hon'. apply HQ. by rewrite <- emit_app in Hon'.
Qed.

Lemma wp_flush_cache ns n A w p l s (Q : eresult unit -> t -> Prop) :
  on max ns n A w p l s -> mirrors A w ->
  (forall w' s', ticks s' = ticks s -> (forall sp, mirrors (<[ns := sp]> A) w') ->
     on max ns n A w' p l s' -> Q (Ok tt) s') ->
  wp (with_cache (fun c => (tt, MemCache.remove_by_prefix c (ns ++ [0])))) s Q.
Proof.
  intros Hon Hm HQ. pose proof (on_valid _ _ _ _ _ _ _ _ Hon) as Hv.
  eapply (HQ (filter (fun x => take (length (ns ++ [0])) x.1 <> ns ++ [0]) w)); [done| |].
  - intros sp. eapply mirrors_unchanged; [done..|]. intros ck d [Hd Hne]%map_lookup_filter_Some.
    split; [done|]. intros k ->. exfalso. apply Hne. cbn [fst]. unfold cache_key.
    by rewrite app_assoc, take_app_length.
  - eapply on_set_cache; [exact Hon|].
    apply (MemCache.good_run _ (MemCache.RemoveByPrefix (ns ++ [0]))), Hon.
Qed.

(** The keys that a flush reports. *)
Lemma live_keys_spec ns n A w p l s now :
  on max ns n A w p l s ->
  let ks := (filter (fun ke => NsIndex.is_expired (NsLog.index l) ke.1 now = false) (NsIndex.iter (NsLog.index l))).*1 in
  NoDup ks /\ forall k, k ∈ ks <-> find now (sp_map (at_ns A ns)) k <> None.
Proof.
  intros Hon ks. subst ks. split.
  - apply NoDup_filter_fst, btree_iter_NoDup.
  - intros k. rewrite list_elem_of_fmap. setoid_rewrite list_elem_of_filter.
    pose proof (expired_past _ _ _ _ _ _ _ _ k now Hon) as He.
    pose proof (present_get _ _ _ _ _ _ _ _ k Hon) as Hp. unfold find.
    destruct (sp_map (at_ns A ns) !! k) as [a|] eqn:Ha; cbn [present mbind option_bind] in *.
    + apply bool_decide_eq_true in Hp as [e Hget]. destruct (past (a_expires a) now).
      * split; [|done]. intros ([k' e'] & -> & Hx & _). simpl in *. congruence.
      * split; [done|]. intros _. exists (k, e). split_and!; [done..|]. by apply btree_iter_elem.
    + apply bool_decide_eq_false in Hp. split; [|done]. intros ([k' e'] & -> & _ & Hin). exfalso. apply Hp.
      exists e'. by apply btree_iter_elem in Hin.
Qed.

(** ** [mget] *)

Section Mget.
Context (ns : bytes) (K : list bytes) (now inst : Z) (A : contents) (l : NsLog.t).
Let m := sp_map (at_ns A ns).

(** What a slot is to hold. *)
Definition wanted (k : bytes) : option Entry := entry_of now inst <$> find now m k.

(** An entry to be read, with the expiry and the revision noted beside it. *)
Definition to_read (se : nat * IndexEntry) (tr : option Z * Z) : Prop :=
  exists k a, K !! se.1 = Some k /\ find now m k = Some a /\ metadata_from_bytes (a_meta a) = Ok (meta_of a) /\
    NsLog.read_value l se.2 = Ok (a_value a, a_meta a) /\ tr = (a_expires a, a_rev a).

(** After [i] keys: the results are known or to be read, and the expired keys are
    out of the cache. *)
Record mget_inv (i : nat) (results : list (option Entry)) (misses : list (nat * IndexEntry))
    (meta : list (option Z * Z)) (ex : list bytes) (w : gmap bytes (bytes * option Z * option json * Z)) : Prop := {
  mi_length : length results = length K;
  mi_known : forall j k, (j < i)%nat -> K !! j = Some k ->
    results !! j = Some (wanted k) \/ exists e, (j, e) ∈ misses;
  mi_todo : forall j, (i <= j < length K)%nat -> results !! j = Some None;
  mi_reads : Forall2 to_read misses meta;
  mi_expired : forall k, k ∈ ex -> k ∈ K /\ w !! cache_key ns k = None /\
    exists a, m !! k = Some a /\ past (a_expires a) now = true;
  mi_all : forall j k a, (j < i)%nat -> K !! j = Some k -> m !! k = Some a ->
    past (a_expires a) now = true -> k ∈ ex;
  mi_count : (length ex <= i)%nat;
}.

Lemma mget_inv_start w : mget_inv 0 (replicate (length K) None) [] [] [] w.
Proof.
  split; [by rewrite length_replicate|lia| |constructor|set_solver|lia|done].
  intros j Hj. apply lookup_replicate. split; [done|lia].
Qed.

(** A key whose result is known now. *)
Lemma mget_inv_known i results misses meta ex w w' k :
  mget_inv i results misses meta ex w -> K !! i = Some k ->
  (forall ck d, w' !! ck = Some d -> w !! ck = Some d) ->
  (forall a, m !! k = Some a -> past (a_expires a) now = false) ->
  mget_inv (S i) (<[i := wanted k]> results) misses meta ex w'.
Proof.
  intros [Hl Hk Ht Hr He Ha Hc] Hi Hw Hlive. pose proof (lookup_lt_Some _ _ _ Hi) as Hlt. split; try done.
  - by rewrite length_insert.
  - intros j k' Hj Hk'. destruct (decide (j = i)) as [->|Hne].
    + rewrite Hk' in Hi. injection Hi as ->. left. apply list_lookup_insert_eq. lia.
    + rewrite list_lookup_insert_ne by done. apply Hk; [lia|done].
  - intros j Hj. rewrite list_lookup_insert_ne by lia. apply Ht. lia.
  - intros k' Hin. destruct (He k' Hin) as (HK & Hno & Hex). split_and!; [done| |done].
    apply eq_None_not_Some. intros [d Hd]. apply Hw in Hd. congruence.
  - intros j k' a Hj Hk' Hm Hp. destruct (decide (j = i)) as [->|Hne].
    + assert (k' = k) as -> by congruence. rewrite (Hlive a Hm) in Hp. done.
    + apply (Ha j k' a); [lia|done..].
  - lia.
Qed.

Lemma mget_inv_none i results misses meta ex w w' k :
  mget_inv i results misses meta ex w -> K !! i = Some k ->
  (forall ck d, w' !! ck = Some d -> w !! ck = Some d) -> m !! k = None ->
  mget_inv (S i) results misses meta ex w'.
Proof.
  intros Hinv Hi Hw Hm. assert (wanted k = None) as Hwk by (unfold wanted, find; by rewrite Hm).
  pose proof (mget_inv_known _ _ _ _ _ _ w' k Hinv Hi Hw ltac:(congruence)) as Hn.
  rewrite Hwk, list_insert_id in Hn; [done|]. apply Hinv. pose proof (lookup_lt_Some _ _ _ Hi). lia.
Qed.

Lemma mget_inv_expired i results misses meta ex w k a :
  mget_inv i results misses meta ex w -> K !! i = Some k ->
  m !! k = Some a -> past (a_expires a) now = true ->
  mget_inv (S i) results misses meta (ex ++ [k]) (delete (cache_key ns k) w).
Proof.
  intros [Hl Hk Ht Hr He Ha Hc] Hi Hm Hp. pose proof (lookup_lt_Some _ _ _ Hi) as Hlt. split; try done.
  - intros j k' Hj Hk'. destruct (decide (j = i)) as [->|Hne]; [|apply Hk; [lia|done]].
    assert (k' = k) as -> by congruence. left. unfold wanted, find. rewrite Hm. simpl. rewrite Hp. apply Ht. lia.
  - intros j Hj. apply Ht. lia.
  - intros k' [Hin|Hin]%elem_of_app.
    + destruct (He k' Hin) as (HK & Hno & Hex). split_and!; [done| |done]. apply lookup_delete_None. by right.
    + apply list_elem_of_singleton in Hin as ->. split_and!; [|by rewrite lookup_delete_eq|by eauto].
      by eapply list_elem_of_lookup_2.
  - intros j k' a' Hj Hk' Hm' Hp'. apply elem_of_app. destruct (decide (j = i)) as [->|Hne].
    + right. assert (k' = k) as -> by congruence. by left.
    + left. apply (Ha j k' a'); [lia|done..].
  - rewrite length_app. simpl. lia.
Qed.

Lemma mget_inv_miss i results misses meta ex w w' k e a :
  mget_inv i results misses meta ex w -> K !! i = Some k ->
  (forall ck d, w' !! ck = Some d -> w !! ck = Some d) ->
  find now m k = Some a -> metadata_from_bytes (a_meta a) = Ok (meta_of a) ->
  NsLog.read_value l e = Ok (a_value a, a_meta a) -> ie_tstamp_ms e = a_rev a ->
  mget_inv (S i) results (misses ++ [(i, e)]) (meta ++ [(a_expires a, ie_tstamp_ms e)]) ex w'.
Proof.
  intros [Hl Hk Ht Hr He Ha Hc] Hi Hw Hfd Hmd Hrd Hrev. pose proof (lookup_lt_Some _ _ _ Hi) as Hlt.
  split; try done.
  - intros j k' Hj Hk'. destruct (decide (j = i)) as [->|Hne].
    + right. exists e. apply elem_of_app. right. by left.
    + destruct (Hk j k') as [?|[e' Hin]]; [lia|done|by left|]. right. exists e'. apply elem_of_app. by left.
  - intros j Hj. apply Ht. lia.
  - apply Forall2_app; [done|]. constructor; [|constructor]. exists k, a. rewrite Hrev. by split_and!.
  - intros k' Hin. destruct (He k' Hin) as (HK & Hno & Hex). split_and!; [done| |done].
    apply eq_None_not_Some. intros [d Hd]. apply Hw in Hd. congruence.
  - intros j k' a' Hj Hk' Hm' Hp'. destruct (decide (j = i)) as [->|Hne].
    + assert (k' = k) as -> by congruence. apply find_Some in Hfd as [Hm Hp]. congruence.
    + apply (Ha j k' a'); [lia|done..].
  - lia.
Qed.

Lemma drop_cons_lookup (i : nat) (k : bytes) keys : drop i K = k :: keys -> K !! i = Some k /\ drop (S i) K = keys.
Proof.
  intros Hd. split.
  - rewrite <- (Nat.add_0_r i), <- lookup_drop, Hd. done.
  - change (S i) with (1 + i)%nat. rewrite Nat.add_comm, <- drop_drop, Hd. done.
Qed.

Lemma wp_mget_lookup keys : forall i results misses meta ex n w p s (Q : eresult _ -> t -> Prop),
  drop i K = keys -> mget_inv i results misses meta ex w -> on max ns n A w p l s -> mirrors A w ->
  (forall i' results misses meta ex w s', (length K <= i')%nat -> (length ex <= length K)%nat ->
     mget_inv i' results misses meta ex w -> on max ns n A w p l s' -> mirrors A w ->
     Q (Ok (results, misses, meta, ex)) s') ->
  (i <= length K)%nat ->
  wp (mget_lookup ns keys i now inst results misses meta ex) s Q.
Proof.
  induction keys as [|k keys IH]; intros i results misses meta ex n w p s Q Hd Hinv Hon Hm HQ Hle;
    cbn [mget_lookup].
  - assert (length K <= i)%nat as Hi.
    { pose proof (length_drop K i) as Hl. rewrite Hd in Hl. simpl in Hl. lia. }
    eapply HQ; [exact Hi|pose proof (mi_count _ _ _ _ _ _ Hinv); lia|exact Hinv|done..].
  - destruct (drop_cons_lookup i k keys Hd) as [Hi Hd']. pose proof (lookup_lt_Some _ _ _ Hi) as Hlt.
    assert (forall ck d, delete (cache_key ns k) w !! ck = Some d -> w !! ck = Some d) as Hsub
      by (by intros ck d [_ ?]%lookup_delete_Some).
    apply wp_bind. eapply wp_cache_get; [exact Hon|done|]. intros c Hc. split; cbv beta iota.
    2: { intros a Ha Hp. apply wp_bind. eapply wp_count_hit; [exact Hc|]. intros s1 Hon1. cbv beta iota.
         pose proof (past_false_find _ _ _ _ Ha Hp) as Hfd.
         change (cached_entry (cached a) now inst) with (entry_of now inst a).
         assert (Some (entry_of now inst a) = wanted k) as -> by (unfold wanted, m; by rewrite Hfd).
         eapply (IH _ _ _ _ _ n w); [done|eapply mget_inv_known; [exact Hinv|done|done|]|done..|lia].
         unfold m. intros a' Ha'. congruence. }
    intros Hc'. apply wp_bind. eapply wp_count_miss; [exact Hc'|]. clear Hc Hc'. intros s1 Hon1. cbv beta iota.
    apply wp_bind. eapply wp_index; [exact Hon1|]. cbv beta iota.
    apply (mirrors_delete _ _ (cache_key ns k)) in Hm.
    destruct (read_cases max _ _ _ _ _ _ _ now k Hon1)
      as [(-> & Ha & Hfd)|(e & a & -> & Ha & -> & Hr & Hrd & Hmd & Hfd)].
    + eapply IH; [done|by eapply mget_inv_none|done..|lia].
    + cbv zeta. destruct (past (a_expires a) now) eqn:Hp.
      * eapply IH; [done|by eapply mget_inv_expired|done..|lia].
      * eapply IH; [done|by eapply mget_inv_miss|done..|lia].
Qed.

Lemma reads_exist misses meta :
  Forall2 to_read misses meta ->
  exists reads : list (nat * bytes * bytes),
    Forall2 (fun se r => r.1.1 = se.1 /\ NsLog.read_value l se.2 = Ok (r.1.2, r.2)) misses reads.
Proof.
  induction 1 as [|[slot e] tr misses meta (k & a & _ & _ & _ & Hrd & _) _ [reads Hr]]; [by exists []|].
  exists ((slot, a_value a, a_meta a) :: reads). by constructor.
Qed.

(** The reads fill the slots that are missing. *)
Lemma wp_mget_fill : forall misses meta l' (reads : list (nat * bytes * bytes)) results n w p s
    (Q : eresult (list (option Entry)) -> t -> Prop),
  Forall2 to_read misses meta ->
  Forall2 (fun se r => r.1.1 = se.1 /\ NsLog.read_value l se.2 = Ok (r.1.2, r.2)) misses reads ->
  length results = length K ->
  (forall j k, K !! j = Some k -> results !! j = Some (wanted k) \/ exists e, (j, e) ∈ misses) ->
  forall sp, (forall k a, find now m k = Some a -> sp_map sp !! k = Some a) ->
  on max ns n (<[ns := sp]> A) w p l' s -> mirrors (<[ns := sp]> A) w ->
  (forall w' s', on max ns n (<[ns := sp]> A) w' p l' s' -> mirrors (<[ns := sp]> A) w' ->
     Q (Ok (wanted <$> K)) s') ->
  wp (mget_fill ns K now inst (zip reads meta) results) s Q.
Proof.
  induction misses as [|[slot e] misses IH];
    intros [|[ttl rev] meta] l' reads results n w p s Q Hto Hreads Hlen Hknown sp Hsp Hon Hm HQ;
    [|by inversion Hto..|].
  - inversion Hreads. subst. cbn [zip zip_with mget_fill].
    assert (results = wanted <$> K) as ->; [|by eapply HQ].
    apply list_eq. intros j. rewrite list_lookup_fmap. destruct (K !! j) as [k|] eqn:Hj; simpl.
    + destruct (Hknown j k Hj) as [?|[e Hin]]; [done|]. by apply elem_of_nil in Hin.
    + apply lookup_ge_None. apply lookup_ge_None in Hj. lia.
  - inversion Hreads as [|? [[slot' v] mb] ? reads' [Hslot Hread] Hreads']. subst. simpl in Hslot, Hread. subst slot'.
    apply Forall2_cons in Hto as [(k & a & HK & Hfd & Hmd & Hrd & [= -> ->]) Hto]. simpl in HK, Hrd.
    rewrite Hrd in Hread. injection Hread as <- <-. cbn [zip zip_with mget_fill].
    pose proof (on_valid _ _ _ _ _ _ _ _ Hon) as Hv.
    apply wp_bind. unfold st_lift, wp at 1. rewrite Hmd. cbn [fst snd].
    apply wp_bind. rewrite HK. cbn [default from_option]. eapply wp_cache_insert; [exact Hon|]. intros c Hc. cbv beta iota.
    change (mkEntry (a_value a) (instant_from_ms (a_expires a) now inst) (meta_of a) (a_rev a))
      with (entry_of now inst a).
    assert (Some (entry_of now inst a) = wanted k) as -> by (unfold wanted; by rewrite Hfd).
    eapply IH; [exact Hto|exact Hreads'|by rewrite length_insert| |exact Hsp|exact Hc| |exact HQ].
    + intros j k' Hj. destruct (decide (j = slot)) as [->|Hne].
      * left. assert (k' = k) as -> by congruence. apply list_lookup_insert_eq.
        pose proof (lookup_lt_Some _ _ _ Hj). lia.
      * rewrite list_lookup_insert_ne by done. destruct (Hknown j k' Hj) as [?|[e' Hin]]; [by left|right].
        apply elem_of_cons in Hin as [[= -> ->]|Hin]; [done|by exists e'].
    + rewrite <- (insert_insert_eq A ns sp sp). eapply (mirrors_insert _ _ _ _ _ a); [done|exact Hm|by rewrite at_upd|].
      by apply Hsp.
Qed.
End Mget.

(** ** The writes of the loops *)

Context (Hclock : forall n, sane (clock_at n)) (Hio : forall n, io_at n = no_faults).

Lemma wp_tombstones ns ks : forall n A w p l s (Q : eresult _ -> t -> Prop),
  on max ns (zlen ks + n) A w p l s -> 0 <= n -> Forall (fun k => fits k [] []) ks ->
  (forall rs sp l' s', tombed (sp_last (at_ns A ns)) (sp_map (at_ns A ns)) ks rs ->
     sp_map sp = delete_all ks (sp_map (at_ns A ns)) -> sp_last (at_ns A ns) <= sp_last sp -> appended l l' ->
     on max ns n (<[ns := sp]> A) w p l' s' -> Q (Ok rs) s') ->
  wp (tombstones clock_at io_at ns ks) s Q.
Proof.
  induction ks as [|k ks IH]; intros n A w p l s Q Hon Hn Hf HQ.
  - eapply (HQ [] (at_ns A ns) l s); [done|by rewrite delete_all_nil|lia|apply appended_refl|by apply on_id].
  - apply Forall_cons in Hf as [Hk Hf]. cbn [tombstones].
    assert (wp (log clock_at io_at ns (NsLog.tombstone k)) s
      (fun r s1 => wp (rs ← tombstones clock_at io_at ns ks; mret (r :: rs)) s1 Q) ->
      wp (fun s => let '(r, s) := log clock_at io_at ns (NsLog.tombstone k) s in
            (rs ← tombstones clock_at io_at ns ks; mret (r :: rs)) s) s Q) as Hstep.
    { unfold wp. by destruct (log clock_at io_at ns (NsLog.tombstone k) s). }
    apply Hstep. clear Hstep. rewrite zlen_cons in Hon.
    replace (1 + zlen ks + n) with (1 + (zlen ks + n)) in Hon by lia.
    eapply (wp_tombstone max _ _ Hclock Hio _ (zlen ks + n)); [exact Hon|pose proof (zlen_nonneg ks); lia|done|].
    intros r sp l' s' [Hsp Hle] Hap Hr Hon'. apply wp_bind. eapply IH; [exact Hon'|done..|].
    rewrite at_upd. intros rs sp2 l2 s2 Ht Hsp2 Hle2 Hap2 Hon2. rewrite insert_insert_eq in Hon2. cbv beta iota.
    eapply (HQ (Ok r :: rs) sp2 l2);
      [|by rewrite Hsp2, Hsp, delete_all_cons|lia|by eapply appended_trans|exact Hon2].
    cbn [tombed]. split.
    + destruct (sp_map (at_ns A ns) !! k); [|by rewrite Hr]. destruct Hr as (ts & -> & Hlt & _). by exists ts.
    + rewrite <- Hsp. by eapply tombed_lower.
Qed.

Lemma wp_log_many ns n A w p l s ps (Q : eresult (list Z) -> t -> Prop) :
  on max ns n A w p l s -> 0 <= n -> pairs_ok l ps -> NsLog.last_tstamp l < 2 ^ 63 -> zlen ps < 2 ^ 63 ->
  (forall tss sp l' s', length tss = length ps -> Forall (fun ts => sp_last (at_ns A ns) < ts) tss ->
     sp_map sp = put_all (sp_map (at_ns A ns)) (zip ps tss) -> sp_last (at_ns A ns) <= sp_last sp ->
     on max ns (-1) (<[ns := sp]> A) w p l' s' -> Q (Ok tss) s') ->
  wp (log_many clock_at io_at ns ps) s Q.
Proof.
  intros Hon Hn Hpo Hl63 Hps HQ. destruct (on_represents _ _ _ _ _ _ _ _ Hon) as (Hh & Hl & Hs).
  unfold log_many, wp. rewrite Hio.
  destruct (put_many_runs (sp_map (at_ns A ns)) l ps (clock_at <$> seq (ticks s) (length ps))
    ((fun i => f_blob (io_at i)) <$> seq (S (calls s)) (length ps)) n) as (tss & l' & Hput & Hlen & Hall & Hle & Hh');
    [done|by eapply on_ready|by apply Forall_fmap, Forall_true|..|done|done|done|].
  { apply Forall_fmap, Forall_true. intros i. simpl. by rewrite Hio. }
  rewrite (in_ns_eq ns _ (set_calls _ (set_ticks _ s)) l _ _ (on_open _ _ _ _ _ _ _ _ Hon) Hput). cbn [fst snd].
  eapply (HQ tss (mkSpace (put_all (sp_map (at_ns A ns)) (zip ps tss)) (NsLog.last_tstamp l')) l');
    [done|by rewrite Hl|done|simpl; lia|].
  eapply on_log; [exact Hon|exact Hh'| |done|lia| |done].
  { eapply (on_call _ _ _ _ _ _ _ _ (PutMany ps (clock_at <$> seq (ticks s) (length ps))
      ((fun i => f_blob (io_at i)) <$> seq (S (calls s)) (length ps)) no_faults));
      [exact Hon| |done|by unfold run, ret; rewrite Hput]. split; [done|]. exists (2 ^ 63).
    eapply sane_clock; [by eapply on_ready|by apply Forall_fmap, Forall_true|done..]. }
  clear -Hs.
  revert Hs. generalize (sp_map (at_ns A ns)) as m, (zip ps tss) as z. intros m z. revert m.
  induction z as [|[[k v] ts] z IH]; intros m Hs; [done|]. apply (IH (<[k := mkA v [] None ts]> m)).
  apply map_Forall_insert_2; [|done]. split; [done|]. by intros ? [=].
Qed.

End Many.
