(* ===== verification/StoreRefine.v ===== *)
(** * The store refines a map of maps

    The operations of [ShardStore] as calls ([op], [run_op]), what each of them
    does to the namespace it is given ([spec_op]), and the proof that they do it.
    [store_refines_map] of [StoreRun] is the statement for sequences of calls. *)

From stdpp Require Import base tactics list gmap strings.
From Stdlib Require Import ZArith Lia.
From S2P Require Import Prelude Record Index LogFile ValueStore Recover NsLog NsRepr NsSpec Reclaim NsBatch NsSim NsOk Ascii Glob Cache Watch Stream Store StoreInv StoreSpec StoreMany.

Open Scope Z_scope.

Section Refine.
Context {crc_impl : CrcFast} {blake : Blake3} `{Mpsc} `{Memchr} {logs : Provenance}.
Context (max : Z) (clock_at instant_at : nat -> Z) (io_at : nat -> faults).
Import ShardStore.

Abbreviation M := (ST t EngineError).

Inductive op :=
| OpGet (k : bytes)
| OpMget (ks : list bytes)
| OpSet (k v : bytes) (o : SetOptions)
| OpSetnx (k v : bytes) (o : SetOptions)
| OpSetxx (k v : bytes) (o : SetOptions)
| OpSetrev (k v : bytes) (o : SetOptions) (rev : Z)
| OpMset (ps : list (bytes * bytes))
| OpDel (ks : list bytes)
| OpExists (ks : list bytes)
| OpExpire (k : bytes) (d : Z)
| OpPersist (k : bytes)
| OpGetex (k : bytes) (o : option GetExOp)
| OpTtl (k : bytes)
| OpPttl (k : bytes)
| OpGetset (k v : bytes)
| OpGetdel (k : bytes)
| OpDelrev (k : bytes) (rev : Z)
| OpIncr (k : bytes) (d : Z)
| OpDbSize
| OpFlush.

Inductive reply :=
| REntry (e : option Entry)
| REntries (es : list (option Entry))
| RUnit
| RBool (b : bool)
| RRev (rev : option Z)
| RCount (n : Z)
| RTtl (t : TtlResult).

Definition returns {B} (f : B -> reply) (m : M B) : M reply := b ← m; mret (f b).

Definition run_op (ns : bytes) (o : op) : M reply :=
  match o with
  | OpGet k => returns REntry (get clock_at instant_at io_at ns k)
  | OpMget ks => returns REntries (mget clock_at instant_at io_at ns ks)
  | OpSet k v o => returns (fun _ => RUnit) (set clock_at io_at ns k v o)
  | OpSetnx k v o => returns RBool (setnx clock_at io_at ns k v o)
  | OpSetxx k v o => returns RBool (setxx clock_at io_at ns k v o)
  | OpSetrev k v o rev => returns RRev (setrev clock_at io_at ns k v o rev)
  | OpMset ps => returns (fun _ => RUnit) (mset clock_at io_at ns ps)
  | OpDel ks => returns RCount (del clock_at io_at ns ks)
  | OpExists ks => returns RCount (exists_ clock_at ns ks)
  | OpExpire k d => returns RBool (expire clock_at instant_at io_at ns k d)
  | OpPersist k => returns RBool (persist clock_at instant_at io_at ns k)
  | OpGetex k o => returns REntry (getex clock_at instant_at io_at ns k o)
  | OpTtl k => returns RTtl (ttl clock_at io_at ns k)
  | OpPttl k => returns RTtl (pttl clock_at io_at ns k)
  | OpGetset k v => returns REntry (getset clock_at instant_at io_at ns k v)
  | OpGetdel k => returns REntry (getdel clock_at instant_at io_at ns k)
  | OpDelrev k rev => returns (fun d => RBool (bool_decide (is_Some d))) (delrev clock_at io_at ns k rev)
  | OpIncr k d => returns RCount (incr clock_at io_at ns k d)
  | OpDbSize => returns RCount (db_size ns)
  | OpFlush => returns (fun _ => RUnit) (flush_db clock_at ns)
  end.

(** ** The specification *)

Abbreviation events := (list (bytes * WatchEvent)).

(** The namespace and the subscribers are left alone. *)
Definition kept (r0 : eresult reply) (sp : space) (r : eresult reply) (sp' : space) (evs : events) : Prop :=
  r = r0 /\ sp' = sp /\ evs = [].

(** Only expired keys go. *)
Definition read_only (r0 : reply) (m' : gmap bytes aentry) (sp : space) (r : eresult reply) (sp' : space)
    (evs : events) : Prop :=
  r = Ok r0 /\ sp_map sp' = m' /\ sp_last sp <= sp_last sp' /\ evs = [].

(** A value is written under a new revision. *)
Definition stored (k v mt : bytes) (exp : option Z) (md : option json) (r0 : Z -> reply)
    (sp : space) (r : eresult reply) (sp' : space) (evs : events) : Prop :=
  exists ts, sp_last sp < ts /\ r = Ok (r0 ts) /\
    sp' = mkSpace (<[k := mkA v mt exp ts]> (sp_map sp)) ts /\ evs = [(k, EvSet k v md exp ts)].

(** The expiry and the metadata that a write will have; an error stops it. *)
Definition planned (keep : bool) (k : bytes) (o : SetOptions) (now : Z) (sp : space)
    (S : option Z -> bytes -> Prop) (E : EngineError -> Prop) : Prop :=
  match (if keep then Ok (a ← sp_map sp !! k; a_expires a) else validate_opt_ttl (o_ttl o) now) with
  | Err e => E e
  | Ok exp => match meta_to_bytes (o_metadata o) with Err e => E e | Ok mt => S exp mt end
  end.

Definition spec_set (k v : bytes) (o : SetOptions) (keep : bool) (allowed : bool)
    (yes : Z -> reply) (no : reply) (now : Z) (sp : space) (r : eresult reply) (sp' : space) (evs : events) : Prop :=
  planned keep k o now sp
    (fun exp mt => if allowed then stored k v mt exp (o_metadata o) yes sp r sp' evs
                   else kept (Ok no) sp r sp' evs)
    (fun e => kept (Err e) sp r sp' evs).

(** A new expiry; the revision of the value stays. *)
Definition retimed (k : bytes) (a : aentry) (exp : option Z) (r0 : reply) (notified : bool)
    (sp : space) (r : eresult reply) (sp' : space) (evs : events) : Prop :=
  exists ts, sp_last sp < ts /\ r = Ok r0 /\
    sp' = mkSpace (<[k := with_expiry exp a]> (sp_map sp)) ts /\
    evs = if notified then [(k, EvSet k (a_value a) (meta_of a) exp ts)] else [].

Definition ttl_of (now : Z) (a : option aentry) : TtlResult :=
  match a with
  | None => NotFound
  | Some a => match a_expires a with None => NoExpiry | Some ms => Remaining (sat_sub ms now) end
  end.

Definition in_seconds (r : TtlResult) : TtlResult :=
  match r with Remaining ms => Remaining (ms / 1000) | other => other end.

Definition spec_op (o : op) (now inst : Z) (sp : space) (r : eresult reply) (sp' : space) (evs : events) : Prop :=
  let m := sp_map sp in
  let live k := find now m k in
  match o with
  | OpGet k | OpGetex k None => read_only (REntry (entry_of now inst <$> live k)) (purge now k m) sp r sp' evs
  | OpMget ks =>
      read_only (REntries ((fun k => entry_of now inst <$> live k) <$> ks)) (purge_all now ks m) sp r sp' evs
  | OpSet k v o => spec_set k v o (o_keep_ttl o) true (fun _ => RUnit) RUnit now sp r sp' evs
  | OpSetnx k v o =>
      spec_set k v o (o_keep_ttl o) (negb (present (live k))) (fun _ => RBool true) (RBool false) now sp r sp' evs
  | OpSetxx k v o =>
      spec_set k v o (o_keep_ttl o) (present (live k)) (fun _ => RBool true) (RBool false) now sp r sp' evs
  | OpSetrev k v o rev =>
      spec_set k v o false (bool_decide (a_rev <$> live k = Some rev)) (fun ts => RRev (Some ts)) (RRev None)
        now sp r sp' evs
  | OpMset ps =>
      exists tss, length tss = length ps /\ Forall (fun ts => sp_last sp < ts) tss /\ r = Ok RUnit /\
        sp_map sp' = put_all m (zip ps tss) /\ sp_last sp <= sp_last sp' /\
        evs = zip_with (fun kv ts => (kv.1, EvSet kv.1 kv.2 None None ts)) ps tss
  | OpDel ks =>
      exists tss, length tss = length (removed now m ks) /\ Forall (fun ts => sp_last sp < ts) tss /\
        r = Ok (RCount (zlen (removed now m ks))) /\ sp_map sp' = delete_all ks m /\ sp_last sp <= sp_last sp' /\
        evs = zip_with (fun k ts => (k, EvDel k ts)) (removed now m ks) tss
  | OpExists ks => kept (Ok (RCount (zlen (filter (fun k => live k <> None) ks)))) sp r sp' evs
  | OpExpire k d =>
      match live k with
      | None => kept (Ok (RBool false)) sp r sp' evs
      | Some a =>
          match validate_ttl d now with
          | Err e => kept (Err e) sp r sp' evs
          | Ok ms => retimed k a (Some ms) (RBool true) true sp r sp' evs
          end
      end
  | OpPersist k =>
      match live k with
      | Some a =>
          if decide (a_expires a = None) then kept (Ok (RBool false)) sp r sp' evs
          else retimed k a None (RBool true) true sp r sp' evs
      | None => kept (Ok (RBool false)) sp r sp' evs
      end
  | OpGetex k (Some o) =>
      match live k with
      | None => read_only (REntry None) (purge now k m) sp r sp' evs
      | Some a =>
          match (match o with SetTtl d => ms ← validate_ttl d now; Ok (Some ms) | Persist => Ok None end) with
          | Err e => kept (Err e) sp r sp' evs
          | Ok exp => retimed k a exp (REntry (Some (entry_of now inst a))) false sp r sp' evs
          end
      end
  | OpTtl k => read_only (RTtl (in_seconds (ttl_of now (live k)))) (purge now k m) sp r sp' evs
  | OpPttl k => read_only (RTtl (ttl_of now (live k))) (purge now k m) sp r sp' evs
  | OpGetset k v => stored k v [] None None (fun _ => REntry (entry_of now inst <$> live k)) sp r sp' evs
  | OpGetdel k =>
      exists ts, sp_last sp <= ts /\ r = Ok (REntry (entry_of now inst <$> live k)) /\
        sp' = mkSpace (delete k m) ts /\
        match live k with
        | Some _ => sp_last sp < ts /\ evs = [(k, EvDel k ts)]
        | None => evs = []
        end
  | OpDelrev k rev =>
      if decide (a_rev <$> live k = Some rev)
      then exists ts, sp_last sp < ts /\ r = Ok (RBool true) /\ sp' = mkSpace (delete k m) ts /\ evs = [(k, EvDel k ts)]
      else kept (Ok (RBool false)) sp r sp' evs
  | OpIncr k d =>
      match incr_value (a_value <$> live k) d with
      | Err e => r = Err e /\ sp_map sp' = purge now k m /\ sp_last sp <= sp_last sp' /\ evs = []
      | Ok n => stored k (show_i64 n) [] (a ← live k; a_expires a) None (fun _ => RCount n) sp r sp' evs
      end
  | OpDbSize => kept (Ok (RCount (Z.of_nat (size m)))) sp r sp' evs
  | OpFlush =>
      exists ts ks, sp_last sp < ts /\ r = Ok RUnit /\ sp' = mkSpace ∅ ts /\
        NoDup ks /\ (forall k, k ∈ ks <-> live k <> None) /\ evs = (fun k => (k, EvDel k ts)) <$> ks
  end.

(** ** What the caller provides *)

(** The metadata prints as something that reads back, and the record fits. *)
Definition write_fits (s : t) (ns k v : bytes) (o : SetOptions) : Prop :=
  (forall d, o_ttl o = Some d -> 0 <= d) /\
  forall mt, meta_to_bytes (o_metadata o) = Ok mt ->
    storable (target s ns) k v mt /\ metadata_from_bytes mt = Ok (o_metadata o).

Definition op_ok (ns : bytes) (o : op) (s : t) : Prop :=
  match o with
  | OpGet k | OpTtl k | OpPttl k | OpPersist k => usable ns 1 s /\ fits k [] []
  | OpGetdel k => usable ns 2 s /\ fits k [] []
  | OpDelrev k _ => usable ns 0 s /\ fits k [] []
  | OpMget ks | OpDel ks => usable ns (zlen ks) s /\ Forall (fun k => fits k [] []) ks
  | OpSet k v o | OpSetnx k v o | OpSetxx k v o | OpSetrev k v o _ => usable ns 0 s /\ write_fits s ns k v o
  | OpMset ps => usable ns 0 s /\ pairs_ok (target s ns) ps /\
      NsLog.last_tstamp (target s ns) < 2 ^ 63 /\ zlen ps < 2 ^ 63
  | OpExists _ | OpDbSize => usable ns 0 s
  | OpExpire k d => usable ns 1 s /\ fits k [] [] /\ 0 <= d
  | OpGetex k o => usable ns 1 s /\ fits k [] [] /\ match o with Some (SetTtl d) => 0 <= d | _ => True end
  | OpGetset k v => usable ns 1 s /\ fits k [] [] /\ storable (target s ns) k v []
  | OpIncr k _ => usable ns 1 s /\ fits k [] [] /\ forall n, is_i64 n -> storable (target s ns) k (show_i64 n) []
  | OpFlush => usable ns 0 s /\ NsLog.reclaim_in_progress (target s ns) = false
  end.

(** ** The operations do it *)

Context (Hclock : forall n, sane (clock_at n)) (Hio : forall n, io_at n = no_faults).

Definition post (A : contents) (ns : bytes) (p : WatchRegistry.t * chans)
    (S : eresult reply -> space -> events -> Prop) (r : eresult reply) (s' : t) : Prop :=
  exists sp' evs, S r sp' evs /\ store_ok max (<[ns := sp']> A) s' /\ pub s' = emit ns p evs.

Lemma post_intro ns n A A' w p l s' sp' evs S r :
  on max ns n A' w (emit ns p evs) l s' -> mirrors A' w -> A' = <[ns := sp']> A -> S r sp' evs ->
  post A ns p S r s'.
Proof.
  intros Hon Hm -> HS. exists sp', evs. split; [done|]. split; [by eapply on_store_ok|]. apply Hon.
Qed.

(** Nothing happened to the namespace. *)
Lemma post_kept ns n A w p l s' r0 r :
  on max ns n A w p l s' -> mirrors A w -> r = r0 -> post A ns p (kept r0 (at_ns A ns)) r s'.
Proof.
  intros Hon Hm ->. eapply (post_intro _ _ _ _ _ _ _ _ _ []); [by apply on_id, Hon|by apply mirrors_id|done|done].
Qed.

Lemma insert_purge now k a m : <[k := a]> (purge now k m) = <[k := a]> m.
Proof.
  unfold purge. destruct (m !! k) as [b|]; [|done]. destruct (past _ _); [|done]. by rewrite insert_delete_eq.
Qed.

Lemma delete_purge now k m : delete k (purge now k m) = delete k m.
Proof.
  unfold purge. destruct (m !! k) as [b|]; [|done]. destruct (past _ _); [|done]. by rewrite delete_delete_eq.
Qed.

Ltac step_now := apply wp_bind, wp_now; cbv beta iota.
Ltac step_instant := apply wp_bind, wp_instant; cbv beta iota.
Ltac step_ret := unfold wp, mret, st_mret, st_ret; cbn [fst snd].
Ltac step_ensure Hl Hg Hu := apply wp_bind; eapply (wp_ensure max _ _ _ _ _ _ _ Hl Hg Hu); [done..|].

Lemma get_refines A s ns k :
  store_ok max A s -> op_ok ns (OpGet k) s ->
  wp (run_op ns (OpGet k)) s
    (post A ns (pub s) (spec_op (OpGet k) (clock_at (ticks s)) (instant_at (S (ticks s))) (at_ns A ns))).
Proof.
  intros [Hl (w & Hg & Hm)] [Hu Hf]. cbn [run_op]. unfold returns, get. apply wp_bind.
  step_now. step_instant. step_ensure Hl Hg Hu. intros s1 _ Hon. cbv beta iota.
  eapply (wp_get_open max _ _ Hclock Hio _ 0); [done..|].
  intros sp w' l' s' Hp _ Hon' Hm'. cbv beta iota.
  eapply (post_intro _ _ _ _ _ _ _ _ sp []); [exact Hon'|done|done|]. by destruct Hp as (? & ? & _).
Qed.

(** A value written to the log, the cache and the subscribers. *)
Lemma post_stored ns A sp1 w p l s' k v mt exp md ts r0 :
  is_valid_ns_name ns = true -> sp_last (at_ns A ns) < ts ->
  (forall x, <[k := x]> (sp_map sp1) = <[k := x]> (sp_map (at_ns A ns))) ->
  metadata_from_bytes mt = Ok md -> mirrors (<[ns := sp1]> A) w ->
  on max ns (-1) (<[ns := mkSpace (<[k := mkA v mt exp ts]> (sp_map sp1)) ts]> A)
    (<[cache_key ns k := (v, exp, md, ts)]> w) (emit ns p [(k, EvSet k v md exp ts)]) l s' ->
  post A ns p (stored k v mt exp md r0 (at_ns A ns)) (Ok (r0 ts)) s'.
Proof.
  intros Hv Hts Hsp Hmd Hm Hon. eapply (post_intro _ _ _ _ _ _ _ _ _ [_]); [exact Hon| |done|].
  - rewrite <- (insert_insert_eq A ns _ sp1).
    assert ((v, exp, md, ts) = cached (mkA v mt exp ts)) as ->
      by (unfold cached, meta_of; simpl; by rewrite Hmd).
    eapply mirrors_insert; [done..| |simpl; by rewrite lookup_insert_eq].
    intros k' Hk. simpl. by rewrite at_upd, lookup_insert_ne.
  - exists ts. rewrite Hsp. split_and!; done.
Qed.

Lemma getset_refines A s ns k v :
  store_ok max A s -> op_ok ns (OpGetset k v) s ->
  wp (run_op ns (OpGetset k v)) s
    (post A ns (pub s) (spec_op (OpGetset k v) (clock_at (ticks s)) (instant_at (S (ticks s))) (at_ns A ns))).
Proof.
  intros [Hl (w & Hg & Hm)] (Hu & Hf & Hst). cbn [run_op]. unfold returns, getset. apply wp_bind.
  step_now. step_instant. step_ensure Hl Hg Hu. intros s1 _ Hon. cbv beta iota.
  apply wp_bind. eapply (wp_get_inline max _ _ Hclock Hio _ 0); [done..|].
  intros sp w' l' s' Hp Hsb Hon' Hm'. cbv beta iota.
  apply wp_bind. eapply wp_put; [done|done|exact Hon'|done|by eapply storable_same|by intros ? [=]|done|].
  intros ts l2 s2 Hts Hon2. rewrite at_upd in Hts, Hon2. rewrite insert_insert_eq in Hon2. cbv beta iota.
  apply wp_bind. eapply wp_publish; [exact Hon2|]. intros s3 Hon3. cbv beta iota.
  destruct Hp as (Hsp & Hle & _). 
  eapply (post_stored ns A sp w' _ _ _ k v [] None None ts (fun _ => REntry _)); [apply Hu|lia| |done|exact Hm'|exact Hon3].
  intros x. by rewrite Hsp, insert_purge.
Qed.

(** *** Sets *)

Lemma validate_u64 d now ms : 0 <= d -> sane now -> validate_ttl d now = Ok ms -> is_u64 ms.
Proof.
  unfold validate_ttl, sane. intros Hd Hn Hv. repeat case_decide; try done. injection Hv as <-. zlia.
Qed.

Lemma validate_opt_u64 ttl now exp :
  (forall d, ttl = Some d -> 0 <= d) -> sane now -> validate_opt_ttl ttl now = Ok exp -> exp_u64 exp.
Proof.
  intros Hd Hn Hv ms ->. destruct ttl as [d|]; [|done]. simpl in Hv. inv_binds.
  eapply validate_u64; [by apply Hd|done|by simplify_eq].
Qed.

(** The expiry of a write that may keep the one that is there. *)
Lemma wp_expiry ns n A w p l s k (keep : bool) ttl now (Q : eresult (option Z) -> t -> Prop) :
  on max ns n A w p l s -> (forall d, ttl = Some d -> 0 <= d) -> sane now ->
  match (if keep then Ok (a ← sp_map (at_ns A ns) !! k; a_expires a) else validate_opt_ttl ttl now) with
  | Ok exp => exp_u64 exp -> Q (Ok exp) s
  | Err e => Q (Err e) s
  end ->
  wp (if keep then idx ← index_of ns; mret (NsIndex.get_ttl idx k)
      else st_lift (validate_opt_ttl ttl now)) s Q.
Proof.
  intros Hon Hd Hn HQ. destruct keep.
  - apply wp_bind. eapply wp_index; [exact Hon|]. cbv beta iota. unfold wp, mret, st_mret, st_ret. cbn [fst snd].
    apply on_represents in Hon. pose proof (represents_get _ _ k Hon) as Hg. destruct Hon as (_ & _ & Hs).
    destruct (sp_map (at_ns A ns) !! k) as [a|] eqn:Ha; simpl in HQ.
    + destruct Hg as (e & _ & -> & _). apply HQ. apply (Hs k a Ha).
    + destruct Hg as [_ ->]. apply HQ. by intros ? [=].
  - unfold wp, st_lift. cbn [fst snd]. destruct (validate_opt_ttl ttl now) as [exp|e] eqn:Hv; [|done].
    apply HQ. by eapply validate_opt_u64.
Qed.

Lemma set_refines A s ns k v o :
  store_ok max A s -> op_ok ns (OpSet k v o) s ->
  wp (run_op ns (OpSet k v o)) s
    (post A ns (pub s) (spec_op (OpSet k v o) (clock_at (ticks s)) (instant_at (S (ticks s))) (at_ns A ns))).
Proof.
  intros [Hl (w & Hg & Hm)] (Hu & Hd & Hmt). cbn [run_op]. unfold returns, set. apply wp_bind.
  step_ensure Hl Hg Hu. intros s1 Ht Hon. cbv beta iota. step_now. rewrite Ht.
  eapply (on_same _ _ _ _ _ _ _ _ (set_ticks (S (ticks s)) s1)) in Hon; [|done].
  apply wp_bind. eapply wp_expiry; [exact Hon|exact Hd|apply Hclock|].
  unfold spec_op, spec_set, planned.
  destruct (if o_keep_ttl o then _ else _) as [exp|e]; [|cbv beta iota; by eapply post_kept].
  intros Hexp. cbv beta iota. apply wp_bind. unfold st_lift, wp at 1. cbn [fst snd].
  destruct (meta_to_bytes (o_metadata o)) as [mt|e] eqn:Hmb; [|by eapply post_kept].
  destruct (Hmt mt eq_refl) as [Hst Hmd].
  apply wp_bind. eapply wp_put; [done|done|exact Hon|done|done|done|done|].
  intros ts l2 s2 Hts Hon2. cbv beta iota. eapply wp_publish; [exact Hon2|]. intros s3 Hon3. cbv beta iota.
  eapply (post_stored ns A (at_ns A ns) w _ _ _ k v mt exp _ ts (fun _ => RUnit));
    [apply Hu|done|done|done|by apply mirrors_id|exact Hon3].
Qed.

(** The writes with a condition. *)
Lemma wp_put_if {B : Type} (g : B -> reply) A s1 ns k v o exp mt w p cond now (allowed : bool) (yes : Z -> B) (no : B) l
    (f : option Z -> M B) :
  on max ns 0 A w p l s1 -> mirrors A w -> exp_u64 exp -> storable l k v mt ->
  metadata_from_bytes mt = Ok (o_metadata o) -> is_valid_ns_name ns = true ->
  cond_check cond (alive (sp_map (at_ns A ns)) k now) = allowed ->
  f None = mret no ->
  (forall ts, f (Some ts) = (publish ns k v exp (o_metadata o) (zlen mt) ts;; mret (yes ts))) ->
  let Q := post A ns p (fun r sp' evs =>
       if allowed then stored k v mt exp (o_metadata o) (fun ts => g (yes ts)) (at_ns A ns) r sp' evs
       else kept (Ok (g no)) (at_ns A ns) r sp' evs) in
  wp (written ← log clock_at io_at ns (NsLog.put_full_cond k v mt exp cond now); f written) s1
    (fun r s' => match r with Ok b => wp (mret (g b)) s' Q | Err e => Q (Err e) s' end).
Proof.
  intros Hon Hm Hexp Hst Hmd Hv Hc Hno Hyes Q. apply wp_bind. eapply wp_put_cond; [done|done|exact Hon|done..| |].
  - intros ts l2 s2 Hts Hc' Hon2. cbv beta iota. rewrite Hc in Hc'. subst Q allowed. rewrite Hyes.
    apply wp_bind. eapply wp_publish; [exact Hon2|]. intros s3 Hon3. cbv beta iota.
    rewrite Hc'. eapply (post_stored ns A (at_ns A ns) w _ _ _ _ _ _ _ _ _ (fun ts => g (yes ts)));
      [done|done|done|done|by apply mirrors_id|exact Hon3].
  - intros l2 s2 Hc' Hon2. cbv beta iota. rewrite Hc in Hc'. subst Q. rewrite Hno, Hc'.
    eapply (post_intro _ _ _ _ _ _ _ _ _ []); [exact Hon2|by apply mirrors_id|done|done].
Qed.

Lemma set_conditional_refines A s ns k v o (live : bool) :
  store_ok max A s -> usable ns 0 s -> write_fits s ns k v o ->
  let found := present (find (clock_at (ticks s)) (sp_map (at_ns A ns)) k) in
  wp (returns RBool (set_conditional clock_at io_at ns k v o live)) s
    (post A ns (pub s) (spec_set k v o (o_keep_ttl o) (if live then found else negb found)
       (fun _ => RBool true) (RBool false) (clock_at (ticks s)) (at_ns A ns))).
Proof.
  intros [Hl (w & Hg & Hm)] Hu [Hd Hmt] found. unfold returns, set_conditional. apply wp_bind.
  step_ensure Hl Hg Hu. intros s1 Ht Hon. cbv beta iota. step_now. rewrite Ht.
  eapply (on_same _ _ _ _ _ _ _ _ (set_ticks (S (ticks s)) s1)) in Hon; [|done].
  cbv zeta. apply wp_bind. eapply wp_expiry; [exact Hon|exact Hd|apply Hclock|]. unfold spec_set, planned.
  destruct (if o_keep_ttl o then _ else _) as [exp|e]; [|cbv beta iota; by eapply post_kept].
  intros Hexp. cbv beta iota. apply wp_bind. unfold st_lift, wp at 1. cbn [fst snd].
  destruct (meta_to_bytes (o_metadata o)) as [mt|e] eqn:Hmb; [|by eapply post_kept].
  destruct (Hmt mt eq_refl) as [Hst Hmd].
  eapply (wp_put_if RBool _ _ _ _ _ _ _ _ _ _ _ _ _ (fun _ => true) false); [exact Hon|done..|apply Hu| |done|done].
  subst found. rewrite alive_find. by destruct live, (find _ _ _).
Qed.

Lemma setrev_refines A s ns k v o rev :
  store_ok max A s -> op_ok ns (OpSetrev k v o rev) s ->
  wp (run_op ns (OpSetrev k v o rev)) s
    (post A ns (pub s) (spec_op (OpSetrev k v o rev) (clock_at (ticks s)) (instant_at (S (ticks s))) (at_ns A ns))).
Proof.
  intros [Hl (w & Hg & Hm)] [Hu [Hd Hmt]]. cbn [run_op]. unfold returns, setrev. apply wp_bind.
  step_ensure Hl Hg Hu. intros s1 Ht Hon. cbv beta iota. step_now. rewrite Ht.
  eapply (on_same _ _ _ _ _ _ _ _ (set_ticks (S (ticks s)) s1)) in Hon; [|done].
  cbv zeta. apply wp_bind. eapply (wp_expiry _ _ _ _ _ _ _ k false); [exact Hon|exact Hd|apply Hclock|].
  unfold spec_op, spec_set, planned. cbv zeta.
  destruct (validate_opt_ttl _ _) as [exp|e]; [|cbv beta iota; by eapply post_kept].
  intros Hexp. cbv beta iota. apply wp_bind. unfold st_lift, wp at 1. cbn [fst snd].
  destruct (meta_to_bytes (o_metadata o)) as [mt|e] eqn:Hmb; [|by eapply post_kept].
  destruct (Hmt mt eq_refl) as [Hst Hmd].
  eapply (wp_put_if RRev _ _ _ _ _ _ _ _ _ _ _ _ _ Some None); [exact Hon|done..|apply Hu| |done|done].
  by rewrite alive_find.
Qed.

(** *** Deletes of one key *)

Lemma getdel_refines A s ns k :
  store_ok max A s -> op_ok ns (OpGetdel k) s ->
  wp (run_op ns (OpGetdel k)) s
    (post A ns (pub s) (spec_op (OpGetdel k) (clock_at (ticks s)) (instant_at (S (ticks s))) (at_ns A ns))).
Proof.
  intros [Hl (w & Hg & Hm)] [Hu Hf]. cbn [run_op]. unfold returns, getdel. apply wp_bind.
  step_now. step_instant. step_ensure Hl Hg Hu. intros s1 _ Hon. cbv beta iota.
  apply wp_bind. eapply (wp_get_inline max _ _ Hclock Hio _ 1); [done..|].
  intros sp w' l' s' (Hsp & Hle & _) Hsb Hon' Hm'. cbv beta iota.
  apply wp_bind. eapply (wp_tombstone max _ _ Hclock Hio _ 0); [exact Hon'|done..|].
  intros r sp2 l2 s2 Hd _ Hr Hon2. rewrite at_upd in Hr. cbv beta iota.
  apply wp_bind. eapply wp_cache_remove; [exact Hon2|]. intros c Hon3. cbv beta iota.
  eapply mirrors_deleted in Hm'; [|apply Hu|exact Hd]. rewrite insert_insert_eq in Hm', Hon3.
  destruct Hd as [Hsp2 Hle2]. rewrite at_upd in Hsp2, Hle2. rewrite Hsp in Hr, Hsp2. rewrite purge_find in Hr.
  rewrite delete_purge in Hsp2. unfold spec_op. cbv zeta.
  destruct (find (clock_at (ticks s)) (sp_map (at_ns A ns)) k) as [a|]; cbn [fmap option_fmap option_map].
  - destruct Hr as (ts & -> & Hts & Hl2). apply wp_bind. eapply wp_notify; [exact Hon3|]. intros s3 _ Hon4.
    cbv beta iota. eapply (post_intro _ _ _ _ _ _ _ _ sp2 [_]); [exact Hon4|done|done|].
    exists ts. destruct sp2 as [m2 last2]. simpl in *. subst. split_and!; [lia|done..|lia|done].
  - subst r. apply wp_bind. eapply (post_intro _ _ _ _ _ _ _ _ sp2 []); [exact Hon3|done|done|].
    exists (sp_last sp2). destruct sp2 as [m2 last2]. simpl in *. subst. split_and!; [lia|done..].
Qed.

Lemma delrev_refines A s ns k rev :
  store_ok max A s -> op_ok ns (OpDelrev k rev) s ->
  wp (run_op ns (OpDelrev k rev)) s
    (post A ns (pub s) (spec_op (OpDelrev k rev) (clock_at (ticks s)) (instant_at (S (ticks s))) (at_ns A ns))).
Proof.
  intros [Hl (w & Hg & Hm)] [Hu Hf]. cbn [run_op]. unfold returns, delrev. apply wp_bind.
  step_now. step_ensure Hl Hg Hu. intros s1 _ Hon. cbv beta iota.
  apply wp_bind. unfold spec_op. cbv zeta.
  destruct (decide (a_rev <$> find (clock_at (ticks s)) (sp_map (at_ns A ns)) k = Some rev)) as [Hd|Hd];
    rewrite <- alive_find in Hd;
    (eapply (wp_tombstone_cond max _ _ Hclock Hio _ 0); [exact Hon|done..| |]); try done.
  - intros ts l2 s2 Hts _ Hon2. cbv beta iota.
    apply wp_bind. eapply wp_cache_remove; [exact Hon2|]. intros c Hon3. cbv beta iota.
    apply wp_bind. eapply wp_notify; [exact Hon3|]. intros s3 _ Hon4. cbv beta iota.
    eapply (post_intro _ _ _ _ _ _ _ _ _ [_]); [exact Hon4| |done|by exists ts].
    apply mirrors_deleted; [apply Hu|done|]. split; [done|simpl; lia].
  - intros l2 s2 _ Hon2. cbv beta iota.
    eapply (post_intro _ _ _ _ _ _ _ _ _ []); [exact Hon2|by apply mirrors_id|done|done].
Qed.

(** *** Expiry *)

(** The new expiry goes to the log, the old entry leaves the cache. *)
Lemma change_ttl_refines ns A sp1 w p l s k exp a e :
  on max ns 0 (<[ns := sp1]> A) w p l s -> mirrors (<[ns := sp1]> A) w -> fits k [] [] -> exp_u64 exp ->
  is_valid_ns_name ns = true -> sp_map sp1 = sp_map (at_ns A ns) -> sp_last (at_ns A ns) <= sp_last sp1 ->
  sp_map (at_ns A ns) !! k = Some a -> e_value e = a_value a -> e_metadata e = meta_of a ->
  wp (change_ttl clock_at io_at ns k exp (Some e)) s
    (fun r s' => r = Ok tt /\ post A ns p (retimed k a exp (RBool true) true (at_ns A ns)) (Ok (RBool true)) s').
Proof.
  intros Hon Hm Hf He Hv Hsp Hle Ha Hev Hem. unfold change_ttl.
  apply wp_bind. eapply (wp_ttl_update max _ _ Hclock Hio _ 0);
    [exact Hon|done|done|done|by rewrite at_upd, Hsp|].
  intros ts l2 s2 Hts Hon2. rewrite at_upd in Hts, Hon2. rewrite insert_insert_eq in Hon2. cbv beta iota.
  apply wp_bind. eapply wp_cache_remove; [exact Hon2|]. intros c Hon3. cbv beta iota.
  eapply wp_notify; [exact Hon3|]. intros s3 _ Hon4. split; [done|]. rewrite Hev, Hem in Hon4.
  eapply (post_intro _ _ _ _ _ _ _ _ _ [_]); [exact Hon4| |done|].
  - rewrite <- (insert_insert_eq A ns _ sp1). eapply mirrors_remove; [done..|].
    intros k' Hk. simpl. by rewrite at_upd, lookup_insert_ne.
  - exists ts. rewrite Hsp. split_and!; [lia|done..].
Qed.

Lemma expire_refines A s ns k d :
  store_ok max A s -> op_ok ns (OpExpire k d) s ->
  wp (run_op ns (OpExpire k d)) s
    (post A ns (pub s) (spec_op (OpExpire k d) (clock_at (ticks s)) (instant_at (S (ticks s))) (at_ns A ns))).
Proof.
  intros [Hl (w & Hg & Hm)] (Hu & Hf & Hd). cbn [run_op]. unfold returns, expire. apply wp_bind.
  step_ensure Hl Hg Hu. intros s1 Ht Hon. cbv beta iota. step_now. step_instant. cbn [ticks set_ticks]. rewrite Ht.
  eapply (on_same _ _ _ _ _ _ _ _ (set_ticks (S (ticks s)) s1)) in Hon; [|done].
  apply wp_bind. eapply wp_index; [exact Hon|]. cbv beta iota.
  rewrite (present_and_live_find _ _ _ _ _ _ _ _ _ _ Hon). unfold spec_op. cbv zeta.
  destruct (find (clock_at (ticks s)) (sp_map (at_ns A ns)) k) as [a|] eqn:Hfd; cbn [present negb].
  2: { apply wp_bind. eapply wp_cache_remove; [exact Hon|]. intros c Hon2. cbv beta iota.
       eapply post_kept; [exact Hon2|by apply mirrors_delete|done]. }
  apply wp_bind. unfold st_lift, wp at 1. cbn [fst snd].
  destruct (validate_ttl d (clock_at (ticks s))) as [ms|e] eqn:Hv; [|by eapply post_kept].
  apply wp_bind. eapply (wp_get_inline max _ _ Hclock Hio _ 0); [exact Hon|done..|].
  intros sp w' l' s' (Hsp & Hle & _) Hsb Hon' Hm'. rewrite Hfd. erewrite purge_live in Hsp by done. cbv beta iota.
  apply wp_bind. eapply wp_mono; [eapply change_ttl_refines; [exact Hon'|done|done| |apply Hu|done|done| |done|done]|].
  - intros ? [= <-]. by eapply validate_u64.
  - by apply find_Some in Hfd as [? _].
  - by intros r s2 [-> Hpost].
Qed.

Lemma persist_refines A s ns k :
  store_ok max A s -> op_ok ns (OpPersist k) s ->
  wp (run_op ns (OpPersist k)) s
    (post A ns (pub s) (spec_op (OpPersist k) (clock_at (ticks s)) (instant_at (S (ticks s))) (at_ns A ns))).
Proof.
  intros [Hl (w & Hg & Hm)] (Hu & Hf). cbn [run_op]. unfold returns, persist. apply wp_bind.
  step_ensure Hl Hg Hu. intros s1 Ht Hon. cbv beta iota. step_now. step_instant. cbn [ticks set_ticks]. rewrite Ht.
  eapply (on_same _ _ _ _ _ _ _ _ (set_ticks (S (ticks s)) s1)) in Hon; [|done].
  apply wp_bind. eapply wp_index; [exact Hon|]. cbv beta iota zeta.
  rewrite (present_get _ _ _ _ _ _ _ _ _ Hon), (expired_past _ _ _ _ _ _ _ _ _ _ Hon). unfold spec_op. cbv zeta.
  pose proof (represents_get _ _ k (on_represents _ _ _ _ _ _ _ _ Hon)) as Hgk.
  unfold find at 1. destruct (sp_map (at_ns A ns) !! k) as [a|] eqn:Ha; cbn [present negb orb mbind option_bind];
    [|by eapply post_kept].
  destruct Hgk as (_ & _ & -> & _). destruct (past (a_expires a) (clock_at (ticks s))) eqn:Hp.
  { rewrite orb_true_r. by eapply post_kept. }
  case_decide as Hne; [rewrite Hne; by eapply post_kept|].
  rewrite bool_decide_eq_true_2 by (by apply not_eq_None_Some). cbn [negb orb].
  pose proof (past_false_find _ _ _ _ Ha Hp) as Hfd.
  apply wp_bind. eapply (wp_get_inline max _ _ Hclock Hio _ 0); [exact Hon|done..|].
  intros sp w' l' s' (Hsp & Hle & _) Hsb Hon' Hm'. rewrite Hfd. erewrite purge_live in Hsp by done. cbv beta iota.
  apply wp_bind. eapply wp_mono; [eapply change_ttl_refines; [exact Hon'|done|done|by intros ? [=]|apply Hu|done..]|].
  by intros r s2 [-> Hpost].
Qed.

(** The expiry that [getex] sets. *)
Definition getex_plan (o : GetExOp) (now : Z) : eresult (option Z) :=
  match o with SetTtl d => ms ← validate_ttl d now; Ok (Some ms) | Persist => Ok None end.

Lemma wp_getex_plan o now s (Q : eresult (option Z) -> t -> Prop) :
  Q (getex_plan o now) s ->
  wp (match o with SetTtl d => ms ← st_lift (validate_ttl d now); mret (Some ms) | Persist => mret None end) s Q.
Proof.
  intros HQ. destruct o as [d|]; [|done]. apply wp_bind. unfold st_lift, wp at 1. cbn [fst snd].
  unfold getex_plan in HQ. by destruct (validate_ttl d now).
Qed.

Lemma getex_plan_u64 o now exp :
  match o with SetTtl d => 0 <= d | _ => True end -> sane now -> getex_plan o now = Ok exp -> exp_u64 exp.
Proof.
  intros Hd Hn Hp ms ->. destruct o as [d|]; [|done]. unfold getex_plan in Hp. inv_binds.
  eapply validate_u64; [exact Hd|done|by simplify_eq].
Qed.

Lemma getex_refines A s ns k o :
  store_ok max A s -> op_ok ns (OpGetex k o) s ->
  wp (run_op ns (OpGetex k o)) s
    (post A ns (pub s) (spec_op (OpGetex k o) (clock_at (ticks s)) (instant_at (S (ticks s))) (at_ns A ns))).
Proof.
  intros Hok (Hu & Hf & Hd). destruct o as [o|]; [|by apply (get_refines A s ns k)].
  destruct Hok as [Hl (w & Hg & Hm)]. cbn [run_op]. unfold returns, getex. apply wp_bind.
  step_now. step_instant. step_ensure Hl Hg Hu. intros s1 _ Hon. cbv beta iota.
  apply wp_bind. eapply (wp_getex_read max _ _ Hclock Hio _ 0); [exact Hon|done..|].
  intros sp w' l' s' (Hsp & Hle & Hkeep) Hsb Hon' Hm'. cbv beta iota. unfold spec_op. cbv zeta.
  destruct (find (clock_at (ticks s)) (sp_map (at_ns A ns)) k) as [a|] eqn:Hfd; cbn [fmap option_fmap option_map].
  2: { by eapply (post_intro _ _ _ _ _ _ _ _ sp []). }
  erewrite purge_live in Hkeep by done. rewrite (Hkeep eq_refl) in Hon', Hm'. apply find_Some in Hfd as [Ha Hp].
  apply wp_bind, wp_getex_plan. fold (getex_plan o (clock_at (ticks s))).
  destruct (getex_plan o (clock_at (ticks s))) as [exp|e] eqn:Hpl.
  2: { by eapply (post_intro _ _ _ _ _ _ _ _ _ []). }
  cbv beta iota. apply wp_bind. eapply (wp_ttl_update max _ _ Hclock Hio _ 0);
    [exact Hon'|done|done|by eapply getex_plan_u64|by rewrite at_upd|].
  intros ts l2 s2 Hts Hon2. rewrite at_upd in Hts, Hon2. rewrite insert_insert_eq in Hon2. cbv beta iota.
  apply wp_bind. eapply wp_cache_remove; [exact Hon2|]. intros c Hon3. cbv beta iota.
  eapply (post_intro _ _ _ _ _ _ _ _ _ []); [exact Hon3| |done|by exists ts].
  rewrite <- (insert_insert_eq A ns _ (at_ns A ns)). eapply mirrors_remove; [apply Hu|done|].
  intros k' Hk. simpl. by rewrite at_upd, lookup_insert_ne.
Qed.

(** *** Lifetimes *)

Lemma wp_ttl_raw A s ns k (Q : eresult TtlResult -> t -> Prop) :
  store_ok max A s -> usable ns 1 s -> fits k [] [] ->
  (forall sp w l s', purged (clock_at (ticks s)) k (at_ns A ns) sp ->
     on max ns 0 (<[ns := sp]> A) w (pub s) l s' -> mirrors (<[ns := sp]> A) w ->
     Q (Ok (ttl_of (clock_at (ticks s)) (find (clock_at (ticks s)) (sp_map (at_ns A ns)) k))) s') ->
  wp (ttl_raw clock_at io_at ns k) s Q.
Proof.
  intros [Hl (w & Hg & Hm)] Hu Hf HQ. unfold ttl_raw.
  step_ensure Hl Hg Hu. intros s1 Ht Hon. cbv beta iota. step_now. rewrite Ht.
  eapply (on_same _ _ _ _ _ _ _ _ (set_ticks (S (ticks s)) s1)) in Hon; [|done].
  apply wp_bind. eapply wp_index; [exact Hon|]. cbv beta iota.
  pose proof (fun sp l s' H1 H2 H3 => HQ sp w l s' H1 H2 H3) as HQw.
  destruct (read_cases max _ _ _ _ _ _ _ (clock_at (ticks s)) k Hon)
    as [(-> & Ha & Hfd)|(e & a & -> & Ha & -> & _ & _ & _ & Hfd)].
  { rewrite Hfd in HQw. eapply HQw;
      [by apply purged_absent|by apply on_id, (on_next max _ 0)|by apply mirrors_id]. }
  destruct (past (a_expires a) (clock_at (ticks s))) eqn:Hp.
  - rewrite Hfd in HQ. unfold past in Hp. destruct (a_expires a) as [ms|] eqn:He; [|done].
    rewrite decide_True by lia. apply wp_bind.
    eapply (wp_lazy_delete max _ _ Hclock Hio _ 0); [exact Hon|done..|].
    intros sp w' l' s' Hd _ Hon' Hm'. cbv beta iota. eapply HQ; [|exact Hon'|done].
    eapply purged_expired; [done| |done]. unfold past. by rewrite He.
  - assert (purged (clock_at (ticks s)) k (at_ns A ns) (at_ns A ns)) as Hpg by (apply purged_live; by rewrite Hfd).
    rewrite Hfd in HQw. specialize (HQw (at_ns A ns) (target s ns) (set_ticks (S (ticks s)) s1) Hpg
      (on_id _ _ _ _ _ _ _ _ (on_next max _ 0 _ _ _ _ _ Hon ltac:(done))) (mirrors_id _ _ _ Hm)).
    unfold ttl_of in HQw. unfold past in Hp. destruct (a_expires a) as [ms|]; [|done].
    rewrite decide_False by lia. done.
Qed.

Lemma ttl_refines A s ns k :
  store_ok max A s -> op_ok ns (OpTtl k) s ->
  wp (run_op ns (OpTtl k)) s
    (post A ns (pub s) (spec_op (OpTtl k) (clock_at (ticks s)) (instant_at (S (ticks s))) (at_ns A ns))).
Proof.
  intros Hok [Hu Hf]. cbn [run_op]. unfold returns, ttl. apply wp_bind, wp_bind.
  eapply wp_ttl_raw; [done..|]. intros sp w l s' (Hsp & Hle & _) Hon Hm. cbv beta iota.
  by eapply (post_intro _ _ _ _ _ _ _ _ sp []).
Qed.

Lemma pttl_refines A s ns k :
  store_ok max A s -> op_ok ns (OpPttl k) s ->
  wp (run_op ns (OpPttl k)) s
    (post A ns (pub s) (spec_op (OpPttl k) (clock_at (ticks s)) (instant_at (S (ticks s))) (at_ns A ns))).
Proof.
  intros Hok [Hu Hf]. cbn [run_op]. unfold returns, pttl. apply wp_bind.
  eapply wp_ttl_raw; [done..|]. intros sp w l s' (Hsp & Hle & _) Hon Hm. cbv beta iota.
  by eapply (post_intro _ _ _ _ _ _ _ _ sp []).
Qed.

(** *** Counters *)

Lemma incr_value_i64 cur d n : incr_value cur d = Ok n -> is_i64 n.
Proof.
  unfold incr_value. intros Hv. inv_binds. unfold checked_add_i64, ok_or in *.
  case_decide; [|done]. by simplify_eq.
Qed.

Lemma incr_refines A s ns k d :
  store_ok max A s -> op_ok ns (OpIncr k d) s ->
  wp (run_op ns (OpIncr k d)) s
    (post A ns (pub s) (spec_op (OpIncr k d) (clock_at (ticks s)) (instant_at (S (ticks s))) (at_ns A ns))).
Proof.
  intros [Hl (w & Hg & Hm)] (Hu & Hf & Hst). cbn [run_op]. unfold returns, incr. apply wp_bind.
  step_ensure Hl Hg Hu. intros s1 Ht Hon. cbv beta iota.
  change 64%nat with (S 63). cbn [incr_loop]. step_now. rewrite Ht.
  eapply (on_same _ _ _ _ _ _ _ _ (set_ticks (S (ticks s)) s1)) in Hon; [|done].
  apply wp_bind. eapply (wp_incr_read max _ _ Hclock Hio _ 0); [exact Hon|done..|].
  intros sp w' l' s' Hpg Hsb Hon' Hm'. cbv beta iota. unfold spec_op. cbv zeta.
  pose proof (on_represents _ _ _ _ _ _ _ _ Hon) as (_ & _ & Hs). destruct Hpg as (Hsp & Hle & _).
  set (fd := find (clock_at (ticks s)) (sp_map (at_ns A ns)) k) in *.
  assert (counter fd = (a_value <$> fd, a ← fd; a_expires a,
    match fd with Some a => Revision (a_rev a) | None => KeyAbsent end)) as -> by (by destruct fd).
  cbv beta iota. apply wp_bind. unfold st_lift, wp at 1. cbn [fst snd].
  destruct (incr_value (a_value <$> fd) d) as [n|e] eqn:Hv.
  2: { by eapply (post_intro _ _ _ _ _ _ _ _ sp []). }
  assert (exp_u64 (a ← fd; a_expires a)) as Hexp.
  { destruct fd as [a|] eqn:Hfd; [|by intros ? [=]]. apply find_Some in Hfd as [Ha _]. apply (Hs k a Ha). }
  cbv zeta. apply wp_bind. eapply (wp_put_cond max _ _ Hclock Hio _ 0 _ _ _ _ _ _ _ [] _ None);
    [exact Hon'|done|eapply storable_same; [exact Hsb|]; apply Hst; by eapply incr_value_i64|done|done| |].
  - intros ts l2 s2 Hts _ Hon2. rewrite at_upd in Hts, Hon2. rewrite insert_insert_eq in Hon2. cbv beta iota.
    apply wp_bind. eapply wp_publish; [exact Hon2|]. intros s3 Hon3. cbv beta iota.
    eapply (post_stored ns A sp w' _ _ _ k _ [] _ None ts (fun _ => RCount n));
      [apply Hu|lia| |done|exact Hm'|exact Hon3]. intros x. by rewrite Hsp, insert_purge.
  - intros l2 s2 Hc. exfalso. rewrite at_upd, alive_find, Hsp in Hc. clear -Hc. subst fd.
    unfold find in Hc at 2. rewrite purge_find in Hc.
    destruct (find (clock_at (ticks s)) (sp_map (at_ns A ns)) k) as [a|] eqn:Hfd; simpl in Hc; [|done].
    apply find_Some in Hfd as [_ Hp]. rewrite Hp in Hc. simpl in Hc. by rewrite bool_decide_eq_true_2 in Hc.
Qed.

(** *** Counts *)

Lemma exists_refines A s ns ks :
  store_ok max A s -> op_ok ns (OpExists ks) s ->
  wp (run_op ns (OpExists ks)) s
    (post A ns (pub s) (spec_op (OpExists ks) (clock_at (ticks s)) (instant_at (S (ticks s))) (at_ns A ns))).
Proof.
  intros [Hl (w & Hg & Hm)] Hu. cbn [run_op]. unfold returns, exists_. apply wp_bind.
  step_ensure Hl Hg Hu. intros s1 Ht Hon. cbv beta iota. step_now. rewrite Ht.
  eapply (on_same _ _ _ _ _ _ _ _ (set_ticks (S (ticks s)) s1)) in Hon; [|done].
  apply wp_bind. eapply wp_index; [exact Hon|]. cbv beta iota.
  step_ret. eapply post_kept; [exact Hon|done|]. do 3 f_equal. apply list_filter_iff. intros k.
  rewrite (present_and_live_find _ _ _ _ _ _ _ _ _ _ Hon). by destruct (find _ _ _).
Qed.

Lemma db_size_refines A s ns :
  store_ok max A s -> op_ok ns OpDbSize s ->
  wp (run_op ns OpDbSize) s
    (post A ns (pub s) (spec_op OpDbSize (clock_at (ticks s)) (instant_at (S (ticks s))) (at_ns A ns))).
Proof.
  intros [Hl (w & Hg & Hm)] Hu. cbn [run_op]. unfold returns, db_size. apply wp_bind.
  step_ensure Hl Hg Hu. intros s1 Ht Hon. cbv beta iota.
  apply wp_bind. eapply wp_index; [exact Hon|]. cbv beta iota.
  step_ret. eapply post_kept; [exact Hon|done|]. do 2 f_equal.
  destruct (on_represents _ _ _ _ _ _ _ _ Hon) as ([[x Hx] _ _ _] & _). simpl in Hx.
  unfold NsIndex.live_len. rewrite (NsIndex.inv_count _ (rp_index _ _ _ Hx)). f_equal.
  rewrite <- !size_dom. f_equal. apply set_eq. intros k. rewrite !elem_of_dom. symmetry. apply (rp_dom _ _ _ Hx).
Qed.

(** *** Many keys *)

Lemma mset_refines A s ns ps :
  store_ok max A s -> op_ok ns (OpMset ps) s ->
  wp (run_op ns (OpMset ps)) s
    (post A ns (pub s) (spec_op (OpMset ps) (clock_at (ticks s)) (instant_at (S (ticks s))) (at_ns A ns))).
Proof.
  intros [Hl (w & Hg & Hm)] (Hu & Hpo & Hl63 & Hps). cbn [run_op]. unfold returns, mset. apply wp_bind.
  step_ensure Hl Hg Hu. intros s1 _ Hon. cbv beta iota. apply wp_bind.
  eapply (wp_log_many max _ _ Hclock Hio); [exact Hon|done..|].
  intros tss sp l' s2 Hlen Hall Hsp Hle Hon2. cbv beta iota.
  apply wp_bind. eapply wp_upsert_all; [exact Hon2|]. intros s3 Hon3. cbv beta iota.
  eapply wp_notify_all; [exact Hon3|]. intros s4 Hon4. cbv beta iota.
  eapply (post_intro _ _ _ _ _ _ _ _ sp); [exact Hon4| |done|by exists tss].
  destruct sp as [m' last']. simpl in Hsp. subst m'. apply mirrors_pairs; [apply Hu|].
  by apply mirrors_same.
Qed.

Lemma del_refines A s ns ks :
  store_ok max A s -> op_ok ns (OpDel ks) s ->
  wp (run_op ns (OpDel ks)) s
    (post A ns (pub s) (spec_op (OpDel ks) (clock_at (ticks s)) (instant_at (S (ticks s))) (at_ns A ns))).
Proof.
  intros [Hl (w & Hg & Hm)] [Hu Hf]. cbn [run_op]. unfold returns, del. apply wp_bind.
  step_ensure Hl Hg Hu. intros s1 Ht Hon. cbv beta iota. step_now. rewrite Ht.
  eapply (on_same _ _ _ _ _ _ _ _ (set_ticks (S (ticks s)) s1)) in Hon; [|done].
  apply wp_bind. eapply wp_index; [exact Hon|]. cbv beta iota zeta.
  pose proof (fun k => expired_past _ _ _ _ _ _ _ _ k (clock_at (ticks s)) Hon) as Hexp.
  apply wp_bind. rewrite <- (Z.add_0_r (zlen ks)) in Hon.
  eapply (wp_tombstones max _ _ Hclock Hio); [exact Hon|done..|].
  intros rs sp l' s2 Htomb Hsp Hle _ Hon2. cbv beta iota.
  apply wp_bind. eapply wp_remove_all; [exact Hon2|]. intros w' s3 Hw Hon3. cbv beta iota.
  eapply wp_del_loop; [exact Hon3|exact Htomb| |].
  { intros k a Ha. by rewrite Hexp, Ha. }
  intros tss s4 Hlen Hall Hon4. cbv beta iota.
  eapply (post_intro _ _ _ _ _ _ _ _ sp); [exact Hon4| |done|by exists tss].
  eapply mirrors_unchanged; [apply Hu|exact Hm|]. intros ck d [Hd Hne]%Hw. split; [done|]. intros k ->.
  rewrite Hsp, delete_keys_lookup. rewrite decide_False; [done|]. intros Hin. by apply (Hne k).
Qed.

Lemma flush_refines A s ns :
  store_ok max A s -> op_ok ns OpFlush s ->
  wp (run_op ns OpFlush) s
    (post A ns (pub s) (spec_op OpFlush (clock_at (ticks s)) (instant_at (S (ticks s))) (at_ns A ns))).
Proof.
  intros [Hl (w & Hg & Hm)] [Hu Hrc]. cbn [run_op]. unfold returns, flush_db. apply wp_bind.
  step_ensure Hl Hg Hu. intros s1 Ht Hon. cbv beta iota.
  apply wp_bind. eapply wp_flush_cache; [exact Hon|done|]. intros w' s2 Ht2 Hm' Hon2. cbv beta iota.
  step_now. rewrite Ht2, Ht. eapply (on_same _ _ _ _ _ _ _ _ (set_ticks (S (ticks s)) s2)) in Hon2; [|done].
  apply wp_bind. eapply wp_index; [exact Hon2|]. cbv beta iota zeta. step_now.
  pose proof (live_keys_spec _ _ _ _ _ _ _ _ (clock_at (ticks s)) Hon2) as Hlive.
  set (ks := (filter _ _).*1) in *. clearbody ks. cbn [ticks set_ticks].
  eapply (on_same _ _ _ _ _ _ _ _ (set_ticks (S (S (ticks s))) (set_ticks (S (ticks s)) s2))) in Hon2; [|done].
  set (s3 := set_ticks _ _) in *. destruct (on_represents _ _ _ _ _ _ _ _ Hon2) as (Hh & Hlast & _).
  destruct (flush_runs _ _ (clock_at (S (ticks s))) Hh Hrc) as (ts & l' & Hfl & Hts & Hl' & Hh').
  apply wp_bind. eapply wp_eq; [eapply in_ns_eq; [apply Hon2|exact Hfl]|]. cbv beta iota.
  apply wp_bind. eapply wp_eq; [eapply in_ns_eq; [apply lookup_insert_eq|reflexivity]|]. cbv beta iota.
  set (l2 := NsLog.set_values _ l') in *.
  assert (on max ns (-1) (<[ns := mkSpace ∅ ts]> A) w' (pub s) l2
    (set_namespaces (<[ns := l2]> (<[ns := l']> (namespaces s3))) (set_namespaces (<[ns := l']> (namespaces s3)) s3)))
    as Hon3.
  { rewrite insert_insert_eq. eapply on_log; [exact Hon2|exact Hh'| |done|lia|apply map_Forall_empty|done].
    apply prov_values. eapply (on_call _ _ _ _ _ _ _ _ (Flush (clock_at (S (ticks s))))); [exact Hon2|done..|].
    unfold run, ret. by rewrite Hfl. }
  eapply wp_notify_dels; [exact Hon3|]. intros s4 Hon4. cbv beta iota.
  eapply (post_intro _ _ _ _ _ _ _ _ _); [exact Hon4|apply Hm'|done|].
  destruct Hlive as [Hnd Hks]. exists ts, ks. split_and!; [lia|done..].
Qed.

Lemma mget_refines A s ns ks :
  store_ok max A s -> op_ok ns (OpMget ks) s ->
  wp (run_op ns (OpMget ks)) s
    (post A ns (pub s) (spec_op (OpMget ks) (clock_at (ticks s)) (instant_at (S (ticks s))) (at_ns A ns))).
Proof.
  intros [Hl (w & Hg & Hm)] [Hu Hf]. cbn [run_op]. unfold returns, mget. apply wp_bind.
  step_now. step_instant. step_ensure Hl Hg Hu. intros s1 _ Hon. cbv beta iota. cbn [ticks set_ticks].
  apply wp_bind. eapply (wp_mget_lookup max ns ks _ _ A); [reflexivity|apply mget_inv_start|exact Hon|done| |lia].
  intros i results misses meta ex w' s2 Hi Hexl [Hlen Hknown _ Hreads Hex Hall _] Hon2 Hm2. cbv beta iota.
  assert (Forall (fun k => fits k [] []) ex) as Hfex.
  { apply Forall_forall. intros k Hk. rewrite Forall_forall in Hf. apply Hf, Hex, Hk. }
  apply wp_bind. replace (zlen ks) with (zlen ex + (zlen ks - zlen ex)) in Hon2 by lia.
  eapply (wp_tombstones max _ _ Hclock Hio); [exact Hon2|unfold zlen; lia|done|].
  intros rs sp l' s3 Htomb Hsp Hle Hap Hon3. cbv beta iota.
  apply wp_bind. unfold st_lift, wp at 1. rewrite (tombed_ok _ _ _ _ Htomb). cbn [fst snd].
  assert (sp_map sp = purge_all (clock_at (ticks s)) ks (sp_map (at_ns A ns))) as Hpurge.
  { rewrite Hsp. apply purge_all_expired. intros k a Ha. split.
    - intros (Hk & _ & a' & Ha' & Hp)%Hex. split; [done|]. congruence.
    - intros [[j Hj]%list_elem_of_lookup Hp]. apply (Hall j k a); [|done..].
      apply lookup_lt_Some in Hj. lia. }
  assert (mirrors (<[ns := sp]> A) w') as Hm3.
  { eapply mirrors_unchanged; [apply Hu|exact Hm2|]. intros ck d Hd. split; [done|]. intros k ->.
    rewrite Hsp, delete_keys_lookup. rewrite decide_False; [done|]. intros (_ & Hno & _)%Hex. congruence. }
  assert (forall k a, find (clock_at (ticks s)) (sp_map (at_ns A ns)) k = Some a -> sp_map sp !! k = Some a) as Hlive.
  { intros k a [Ha Hp]%find_Some. rewrite Hsp, delete_keys_lookup, decide_False; [done|].
    intros (_ & _ & a' & Ha' & Hp')%Hex. congruence. }
  assert (forall j k, ks !! j = Some k ->
    results !! j = Some (wanted ns (clock_at (ticks s)) (instant_at (S (ticks s))) A k) \/ exists e, (j, e) ∈ misses)
    as Hk by (intros j k Hj; apply Hknown; [apply lookup_lt_Some in Hj; lia|done]).
  destruct (reads_exist _ _ _ _ _ _ _ Hreads) as [reads Hr].
  assert (wp (mget_fill ns ks (clock_at (ticks s)) (instant_at (S (ticks s))) (zip reads meta) results) s3
    (fun r s' => match r with Ok b => wp (mret (REntries b)) s'
       (post A ns (pub s) (spec_op (OpMget ks) (clock_at (ticks s)) (instant_at (S (ticks s))) (at_ns A ns)))
     | Err e => post A ns (pub s) (spec_op (OpMget ks) (clock_at (ticks s)) (instant_at (S (ticks s))) (at_ns A ns))
         (Err e) s' end)) as Hfill.
  { eapply wp_mget_fill; [exact Hreads|exact Hr|done|exact Hk|exact Hlive|exact Hon3|done|].
    intros w4 s4 Hon4 Hm4. step_ret. by eapply (post_intro _ _ _ _ _ _ _ _ sp []). }
  case_decide as Hmiss.
  - subst misses. inversion Hr. subst reads. inversion Hreads. subst meta. exact Hfill.
  - apply wp_bind. eapply wp_query; [exact Hon3|]. erewrite Stream.bulk_read_ok; [exact Hfill|].
    eapply Forall2_impl; [exact Hr|]. intros [slot e] [[slot' v] mb] [Hs Hrd]. split; [done|].
    by eapply read_value_appended.
Qed.
End Refine.
