(* ===== verification/StoreNames.v ===== *)
(** * The open namespaces

    Which namespaces a shard has open, over every method of the store, whatever the
    clock and the file system do and however many openings are under way at once. *)

From stdpp Require Import base tactics list gmap strings.
From Stdlib Require Import ZArith Lia.
From S2P Require Import Prelude Record Index LogFile ValueStore Recover NsLog NsRepr NsSpec Reclaim NsBatch NsSim NsOk Ascii Glob Cache Watch Stream Store StoreInv StoreSpec StoreMany StoreRefine.

Open Scope Z_scope.

Create HintDb names.

Module Names.
Section Names.
Context {crc_impl : CrcFast} {blake : Blake3} `{Mpsc} `{Memchr}.
Context (clock_at instant_at : nat -> Z) (io_at : nat -> faults).
Import ShardStore.

Abbreviation M := (ST t EngineError).

Definition names_valid (s : t) : Prop := forall ns, is_Some (namespaces s !! ns) -> is_valid_ns_name ns = true.

(** From [s] to [s'] namespaces were opened, under valid names and up to the limit. *)
Definition opens (s s' : t) : Prop :=
  (names_valid s -> names_valid s') /\
  (size (namespaces s') <= Nat.max (size (namespaces s)) MAX_NAMESPACES)%nat /\
  dom (namespaces s) ⊆ dom (namespaces s').

#[local] Instance opens_refl : Reflexive opens.
Proof. intros s. split_and!; [done|lia|done]. Qed.
#[local] Instance opens_trans : Transitive opens.
Proof. intros s1 s2 s3 (Hv & Hs & Hd) (Hv' & Hs' & Hd'). split_and!; [by auto|lia|set_solver]. Qed.

Lemma opens_same s s' : namespaces s' = namespaces s -> opens s s'.
Proof. intros Hn. unfold opens, names_valid. rewrite Hn. split_and!; [done|lia|done]. Qed.

Definition only_opens {B} (m : M B) : Prop := forall s, opens s (m s).2.

(** ** The pieces *)

Lemma only_bind {B C} (m : M B) (f : B -> M C) :
  only_opens m -> (forall b, only_opens (f b)) -> only_opens (m ≫= f).
Proof.
  intros Hm Hf s. unfold mbind, st_mbind, st_bind. specialize (Hm s). destruct (m s) as [[b|e] s1]; [|done].
  etransitivity; [exact Hm|apply Hf].
Qed.

Lemma only_ret {B} (b : B) : only_opens (mret b).
Proof. intros s. reflexivity. Qed.
Lemma only_lift {B} (r : eresult B) : only_opens (st_lift r).
Proof. intros s. reflexivity. Qed.
Lemma only_err {B} e : only_opens (st_err e : M B).
Proof. intros s. reflexivity. Qed.
Lemma only_get : only_opens st_get.
Proof. intros s. reflexivity. Qed.
Lemma only_now : only_opens (now_ms clock_at).
Proof. intros s. by apply opens_same. Qed.
Lemma only_instant : only_opens (instant_now instant_at).
Proof. intros s. reflexivity. Qed.
Lemma only_io : only_opens (next_io io_at).
Proof. intros s. by apply opens_same. Qed.
Lemma only_hit : only_opens count_hit.
Proof. intros s. by apply opens_same. Qed.
Lemma only_miss : only_opens count_miss.
Proof. intros s. by apply opens_same. Qed.

Lemma only_cache {B} (f : MemCache.t json -> B * MemCache.t json) : only_opens (with_cache f).
Proof. intros s. unfold with_cache. destruct (f (cache s)). by apply opens_same. Qed.

Lemma only_notify ns key ev : only_opens (notify ns key ev).
Proof. intros s. unfold notify. destruct (WatchRegistry.notify _ _ _ _ _). by apply opens_same. Qed.

Lemma only_in_ns {B} ns (m : NsLog.M B) : only_opens (in_ns ns m).
Proof.
  intros s. unfold in_ns. destruct (namespaces s !! ns) as [l|] eqn:Hl; [|reflexivity].
  destruct (m l) as [r l']. cbn [snd]. unfold opens, names_valid. cbn [namespaces set_namespaces].
  assert (dom (<[ns := l']> (namespaces s)) = dom (namespaces s)) as Hd.
  { apply dom_insert_lookup_L. by eexists. }
  split_and!; [|by rewrite <- !size_dom, Hd; lia|by rewrite Hd].
  intros Hv n. rewrite <- elem_of_dom, Hd, elem_of_dom. apply Hv.
Qed.

Lemma only_insert ns nslog s : is_valid_ns_name ns = true -> opens s (ensure_insert ns nslog s).2.
Proof.
  intros Hv. unfold ensure_insert. destruct (namespaces s !! ns) as [l|] eqn:Hl; [reflexivity|].
  case_decide as Hsz; [reflexivity|]. cbn [snd]. unfold opens, names_valid. cbn [namespaces set_namespaces]. split_and!.
  - intros Hn n. rewrite lookup_insert_is_Some. intros [<-|[_ Hs]]; [done|by apply Hn].
  - rewrite map_size_insert_None by done. lia.
  - set_solver.
Qed.

Lemma lookup_ok ns s b s' : ensure_lookup ns s = (Ok b, s') -> is_valid_ns_name ns = true /\ s' = s.
Proof.
  unfold ensure_lookup. destruct (is_valid_ns_name ns); [|done]. cbn [negb].
  destruct (namespaces s !! ns); [by intros [= _ <-]|]. case_decide; [done|]. by intros [= _ <-].
Qed.

Lemma lookup_err ns s e s' : ensure_lookup ns s = (Err e, s') -> s' = s.
Proof.
  unfold ensure_lookup. destruct (negb _); [by intros [= _ <-]|].
  destruct (namespaces s !! ns); [done|]. case_decide; [by intros [= _ <-]|done].
Qed.

Lemma ensure_open_state ns s : (ensure_open ns s).2 = s.
Proof. unfold ensure_open. by destruct (default _ _). Qed.

Lemma only_ensure ns : only_opens (ensure_ns ns).
Proof.
  intros s. unfold ensure_ns, mbind, st_mbind, st_bind.
  destruct (ensure_lookup ns s) as [[[|]|e] s1] eqn:Hl.
  - apply lookup_ok in Hl as [_ ->]. reflexivity.
  - apply lookup_ok in Hl as [Hv ->]. pose proof (ensure_open_state ns s) as Ho.
    destruct (ensure_open ns s) as [[l|e] s2]; cbn in Ho; subst s2; [|reflexivity]. by apply only_insert.
  - apply lookup_err in Hl as ->. reflexivity.
Qed.

#[local] Hint Resolve only_ret only_lift only_err only_get only_now only_instant only_io only_hit
  only_miss only_cache only_notify only_in_ns only_ensure : names.

(** Splits a method into its pieces. *)
Ltac only_tac :=
  repeat first
    [ solve [auto with names]
    | apply only_bind; [|intros ?]
    | match goal with |- only_opens (match ?x with _ => _ end) => destruct x end ].

(** ** The loops *)

Lemma only_log {B} ns (m : Z -> faults -> NsLog.M B) : only_opens (log clock_at io_at ns m).
Proof. unfold log. only_tac. Qed.
#[local] Hint Resolve only_log : names.

Lemma only_tombstones ns keys : only_opens (tombstones clock_at io_at ns keys).
Proof.
  induction keys as [|key keys IH]; [intros s; reflexivity|]. intros s. cbn [tombstones].
  pose proof (only_log ns (NsLog.tombstone key) s) as Hl.
  destruct (log clock_at io_at ns (NsLog.tombstone key) s) as [r s1].
  etransitivity; [exact Hl|]. apply (only_bind _ _ IH). auto with names.
Qed.

Lemma only_each {B} names (m : bytes -> faults -> NsLog.M B) : only_opens (each_ns io_at names m).
Proof.
  induction names as [|ns names IH]; [intros s; reflexivity|]. intros s. cbn [each_ns].
  assert (only_opens (io ← next_io io_at; in_ns ns (m ns io))) as Hl by only_tac. specialize (Hl s).
  destruct ((io ← next_io io_at; in_ns ns (m ns io)) s) as [r s1].
  etransitivity; [exact Hl|]. apply (only_bind _ _ IH). auto with names.
Qed.
#[local] Hint Resolve only_tombstones only_each : names.

Lemma only_lazy_delete ns key : only_opens (lazy_delete clock_at io_at ns key).
Proof. unfold lazy_delete, cache_remove. only_tac. Qed.
Lemma only_upsert ns key value exp md ml rev : only_opens (upsert_cache ns key value exp md ml rev).
Proof. unfold upsert_cache, cache_insert. only_tac. Qed.
#[local] Hint Resolve only_lazy_delete only_upsert : names.

Lemma only_publish ns key value exp md ml rev : only_opens (publish ns key value exp md ml rev).
Proof. unfold publish. only_tac. Qed.
Lemma only_get_inline ns key now inst : only_opens (get_inline clock_at io_at ns key now inst).
Proof. unfold get_inline, cache_get, index_of. only_tac. Qed.
Lemma only_get_fill ns key now inst e exp : only_opens (get_fill ns key now inst e exp).
Proof. unfold get_fill, cache_insert. only_tac. Qed.
#[local] Hint Resolve only_publish only_get_inline only_get_fill : names.

Lemma only_get_key ns key : only_opens (ShardStore.get clock_at instant_at io_at ns key).
Proof. unfold ShardStore.get, get_lookup, cache_get, index_of. only_tac. Qed.
Lemma only_ttl_raw ns key : only_opens (ttl_raw clock_at io_at ns key).
Proof. unfold ttl_raw, index_of. only_tac. Qed.
#[local] Hint Resolve only_get_key only_ttl_raw : names.

Lemma only_mget_lookup ns now inst keys : forall i results misses meta expired,
  only_opens (mget_lookup ns keys i now inst results misses meta expired).
Proof.
  induction keys as [|key keys IH]; intros; cbn [mget_lookup]; unfold cache_get, index_of; only_tac.
Qed.

Lemma only_mget_fill ns keys now inst read : forall results, only_opens (mget_fill ns keys now inst read results).
Proof.
  induction read as [|[[[slot value] mb] [exp rev]] read IH]; intros; cbn [mget_fill]; unfold cache_insert; only_tac.
Qed.

Lemma only_upsert_all ns l : only_opens (upsert_all ns l).
Proof. induction l as [|[[key value] rev] l IH]; cbn [upsert_all]; only_tac. Qed.
Lemma only_notify_all ns l : only_opens (notify_all ns l).
Proof. induction l as [|[[key value] rev] l IH]; cbn [notify_all]; only_tac. Qed.
Lemma only_notify_dels ns keys rev : only_opens (notify_dels ns keys rev).
Proof. induction keys as [|key keys IH]; cbn [notify_dels]; only_tac. Qed.
Lemma only_remove_all ns keys : only_opens (remove_all ns keys).
Proof. induction keys as [|key keys IH]; cbn [remove_all]; unfold cache_remove; only_tac. Qed.

Lemma only_del_loop ns l : forall count, only_opens (del_loop ns l count).
Proof. induction l as [|[[key r] expired] l IH]; intros; cbn [del_loop]; only_tac. Qed.

Lemma only_log_many ns pairs : only_opens (log_many clock_at io_at ns pairs).
Proof.
  intros s. unfold log_many. etransitivity; [|apply only_in_ns]. by apply opens_same.
Qed.

Lemma only_incr_loop ns key delta attempts : only_opens (incr_loop clock_at io_at attempts ns key delta).
Proof.
  induction attempts as [|attempts IH]; cbn [incr_loop]; unfold incr_read, cache_get, index_of; only_tac.
Qed.
#[local] Hint Resolve only_mget_lookup only_mget_fill only_upsert_all only_notify_all only_notify_dels
  only_remove_all only_del_loop only_log_many only_incr_loop : names.

Lemma only_expiry ns k (keep : bool) (r : eresult (option Z)) :
  only_opens (if keep then idx ← index_of ns; mret (NsIndex.get_ttl idx k) else st_lift r).
Proof. unfold index_of. only_tac. Qed.
#[local] Hint Resolve only_expiry : names.

(** ** The methods *)

(** Every method of the store that can run after [open]. *)
Inductive request :=
| Operation (ns : bytes) (o : op)
| Scan (ns cursor : bytes) (pattern : option bytes) (count : Z)
| Subscribe (ns : bytes) (f : KeyFilter) (since : Z)
| Sweep
| SyncLogs
| SealAll (hook : bytes -> bool)
| Resume
| ReclaimNs (ns : bytes) (merges : list merge_faults)
| ReclaimIfNeeded (threshold : nat) (merges : bytes -> list merge_faults).

Definition serve (r : request) (s : t) : t :=
  match r with
  | Operation ns o => (run_op clock_at instant_at io_at ns o s).2
  | Scan ns cursor pattern count => (scan clock_at ns cursor pattern count s).2
  | Subscribe ns f since => (watch_subscribe clock_at ns f since s).2
  | Sweep => (sweep_cache clock_at s).2
  | SyncLogs => (sync_logs io_at s).2
  | SealAll hook => (seal_all_for_shutdown io_at hook s).2
  | Resume => (resume_after_abort io_at s).2
  | ReclaimNs ns merges => (reclaim io_at ns merges s).2
  | ReclaimIfNeeded threshold merges => (reclaim_if_needed io_at threshold merges s).2
  end.

Lemma only_run_op ns o : only_opens (run_op clock_at instant_at io_at ns o).
Proof.
  destruct o; cbn [run_op]; unfold returns;
    unfold mget, set, setnx, setxx, set_conditional, setrev, mset, del, exists_, expire, persist,
      change_ttl, getex, getex_read, ttl, pttl, getset, getdel, delrev, incr, db_size, flush_db, cache_remove,
      cache_get, index_of;
    only_tac.
Qed.

Lemma serve_opens r s : opens s (serve r s).
Proof.
  destruct r; cbn [serve].
  - apply only_run_op.
  - assert (only_opens (scan clock_at ns cursor pattern count)) as Ho; [|apply Ho].
    unfold scan, index_of. only_tac.
  - unfold watch_subscribe. destruct (WatchRegistry.subscribe _ _ _ _) as [[r w] cs].
    match goal with |- opens s (?m _).2 => assert (only_opens m) as Ho by only_tac end.
    etransitivity; [|apply Ho]. by apply opens_same.
  - assert (only_opens (sweep_cache clock_at)) as Ho; [|apply Ho]. unfold sweep_cache. only_tac.
  - assert (only_opens (sync_logs io_at)) as Ho; [|apply Ho]. unfold sync_logs. only_tac.
  - assert (only_opens (seal_all_for_shutdown io_at hook)) as Ho; [|apply Ho].
    unfold seal_all_for_shutdown. only_tac.
  - assert (only_opens (resume_after_abort io_at)) as Ho; [|apply Ho]. unfold resume_after_abort. only_tac.
  - assert (only_opens (reclaim io_at ns merges)) as Ho; [|apply Ho]. unfold reclaim. only_tac.
  - assert (only_opens (reclaim_if_needed io_at threshold merges)) as Ho; [|apply Ho].
    unfold reclaim_if_needed. only_tac.
Qed.

(** ** Openings under way *)

(** A shard and the namespaces that tasks have opened and not yet put into the map. *)
Record world := mkWorld { shard : t; opening : list (bytes * NsLog.t) }.

(** What happens next: a method that does not have to wait for an opening, the part of
    [ensure_ns] before and at its await, or the part behind it for one of the tasks that
    wait.  Such a task goes on like a method that finds the namespace open. *)
Inductive event := Serve (r : request) | BeginOpen (ns : bytes) | FinishOpen (task : nat).

Definition turn (w : world) (e : event) : world :=
  match e with
  | Serve r => mkWorld (serve r (shard w)) (opening w)
  | BeginOpen ns =>
      match (is_open ← ensure_lookup ns;
             if (is_open : bool) then mret None else nslog ← ensure_open ns; mret (Some nslog)) (shard w) with
      | (Ok (Some nslog), s) => mkWorld s (opening w ++ [(ns, nslog)])
      | (_, s) => mkWorld s (opening w)
      end
  | FinishOpen task =>
      match opening w !! task with
      | Some (ns, nslog) => mkWorld (ensure_insert ns nslog (shard w)).2 (delete task (opening w))
      | None => w
      end
  end.

Definition openings_valid (w : world) : Prop := Forall (fun o => is_valid_ns_name o.1 = true) (opening w).

Lemma turn_opens w e : openings_valid w -> opens (shard w) (shard (turn w e)) /\ openings_valid (turn w e).
Proof.
  intros Hw. destruct e as [r|ns|task]; cbn [turn].
  - split; [apply serve_opens|done].
  - unfold mbind, st_mbind, st_bind. destruct (ensure_lookup ns (shard w)) as [[[|]|e] s1] eqn:Hl.
    + apply lookup_ok in Hl as [_ ->]. by split.
    + apply lookup_ok in Hl as [Hv ->]. pose proof (ensure_open_state ns (shard w)) as Ho.
      destruct (ensure_open ns (shard w)) as [[l|e] s2]; cbn in Ho |- *; subst s2; split; try done.
      apply Forall_app. split; [done|]. by apply Forall_singleton.
    + apply lookup_err in Hl as ->. by split.
  - destruct (opening w !! task) as [[ns nslog]|] eqn:Ht; [|by split].
    split; [apply only_insert; by eapply (Forall_lookup_1 _ _ _ _ Hw) in Ht|]. by apply Forall_delete.
Qed.

Lemma turns_open evs : forall w, openings_valid w ->
  opens (shard w) (shard (foldl turn w evs)) /\ openings_valid (foldl turn w evs).
Proof.
  induction evs as [|e evs IH]; intros w Hw; cbn [foldl]; [by split|].
  destruct (turn_opens w e Hw) as [Ho Hw']. destruct (IH _ Hw') as [Ho' Hw'']. split; [|done].
  by etransitivity.
Qed.

(** A task whose namespace is open by now drops the log it has read. *)
Lemma finish_keeps w task ns l :
  namespaces (shard w) !! ns = Some l -> namespaces (shard (turn w (FinishOpen task))) !! ns = Some l.
Proof.
  intros Hl. cbn [turn]. destruct (opening w !! task) as [[ns' l']|]; [|done]. cbn [shard].
  unfold ensure_insert. destruct (namespaces (shard w) !! ns') as [l1|] eqn:Hl'; [done|]. case_decide; [done|].
  cbn [snd namespaces set_namespaces]. rewrite lookup_insert_ne; [done|congruence].
Qed.

Lemma open_dirs_names cfg dirs : forall nss nss',
  open_dirs cfg dirs nss = Ok nss' -> forall ns, is_Some (nss' !! ns) <-> is_Some (nss !! ns) \/ ns ∈ dirs.*1.
Proof.
  induction dirs as [|[name [files blobs]] dirs IH]; intros nss nss'; cbn [open_dirs].
  - intros [= <-] ns. csimpl. set_solver.
  - intros (l & _ & Ho)%bind_Ok_inv ns. rewrite (IH _ _ Ho ns), lookup_insert_is_Some. csimpl.
    rewrite elem_of_cons. destruct (decide (name = ns)); naive_solver.
Qed.

(** C28: The namespaces of a shard are well formed.  [open] opens every directory with a
    valid name, however many there are, and the default namespace.  After any sequence
    of methods of the store, with any clock, any failing writes and any number of
    openings under way at once, every open namespace has a valid name, the ones opened
    first are still open, and there are no more of them than 1024 or than [open] found.
    When two tasks open the same namespace, the log that was put into the map first
    stays. *)
Theorem namespaces_well_formed (dir : gmap bytes (gmap Z bytes * gmap ContentHash bytes)) (memory_bytes : Z)
    (fanout_var threshold_var : option Z) (cs : chans) (s0 : t) (evs : list event)
    (Hopen : open dir memory_bytes fanout_var threshold_var cs = Ok s0) :
  let w := foldl turn (mkWorld s0 []) evs in
  let s := shard w in
  (forall ns, is_Some (namespaces s0 !! ns) <->
     ns = DEFAULT_NS \/ (is_valid_ns_name ns = true /\ is_Some (dir !! ns))) /\
  (forall ns, is_Some (namespaces s !! ns) -> is_valid_ns_name ns = true) /\
  (forall ns, is_Some (namespaces s0 !! ns) -> is_Some (namespaces s !! ns)) /\
  (size (namespaces s) <= Nat.max (size (namespaces s0)) 1024)%nat /\
  (forall task ns l, namespaces s !! ns = Some l -> namespaces (shard (turn w (FinishOpen task))) !! ns = Some l).
Proof.
  intros w s. assert (forall ns, is_Some (namespaces s0 !! ns) <->
    ns = DEFAULT_NS \/ (is_valid_ns_name ns = true /\ is_Some (dir !! ns))) as Hs0.
  { unfold open in Hopen. apply bind_Ok_inv in Hopen as (nss & Hd & Ho). intros ns.
    apply bind_Ok_inv in Ho as (nss' & Hn & [= <-]). cbn [namespaces].
    assert (is_Some (nss !! ns) <-> is_valid_ns_name ns = true /\ is_Some (dir !! ns)) as Hv.
    { rewrite (open_dirs_names _ _ _ _ Hd), lookup_empty, list_elem_of_fmap.
      setoid_rewrite list_elem_of_filter. split.
      - intros [[]|([n x] & -> & Hval & Hin%elem_of_map_to_list)]; [done|]. split; [done|by eexists].
      - intros [Hval [x Hx]]. right. exists (ns, x). by rewrite elem_of_map_to_list. }
    destruct (nss !! DEFAULT_NS) as [l|] eqn:Hdef; cbn [mbind result_bind] in Hn.
    - injection Hn as <-. rewrite Hv. split; [by right|]. intros [->|?]; [|done]. apply Hv. by eexists.
    - apply bind_Ok_inv in Hn as (l & _ & [= <-]). rewrite lookup_insert_is_Some, Hv.
      destruct (decide (DEFAULT_NS = ns)); naive_solver. }
  destruct (turns_open evs (mkWorld s0 [])) as [(Hv & Hsz & Hd) _]; [constructor|].
  fold w in Hv, Hsz, Hd. fold s in Hv, Hsz, Hd. split_and!; [done| | |exact Hsz|intros task ns l; apply finish_keeps].
  - apply Hv. intros ns [->|[? _]]%Hs0; done.
  - intros ns. rewrite <- !elem_of_dom. apply Hd.
Qed.
End Names.

(** ** A concrete shard *)

#[local] Existing Instance WatchRegistry.bytes_json.
#[local] Existing Instance WatchRegistry.list_mpsc.

(** A directory with a valid name, and one that is not opened. *)
Definition ex_dirs : gmap bytes (gmap Z bytes * gmap ContentHash bytes) :=
  {[lit "db1" := (∅, ∅); lit "not.valid" := (∅, ∅)]}.

Definition ex_opened : ShardStore.t :=
  match ShardStore.open ex_dirs 200 None None [] with
  | Ok s => s
  | Err _ => ShardStore.mk default_config ∅ ∅ (MemCache.new 0) WatchRegistry.new 0 0 [] 0 0
  end.

(** Two tasks open [db7] and a third [db8]; they finish in another order than they began,
    a write goes on in [db7], and a name that is not valid is refused. *)
Definition ex_events : list event :=
  [ BeginOpen (lit "db7"); BeginOpen (lit "db8"); BeginOpen (lit "db7"); FinishOpen 2;
    Serve (Operation (lit "db7") (OpSet (lit "k") (lit "v") (mkSetOptions None None false)));
    FinishOpen 0; FinishOpen 0; Serve (Operation (lit "../x") OpDbSize) ].

Definition ex_turn := turn (fun n => Z.of_nat n) (fun n => Z.of_nat n) (fun _ => no_faults).

(** The write is in the map although the first task finishes after it. *)
Lemma ex_events_run :
  let w := foldl ex_turn (mkWorld ex_opened []) ex_events in
  size (ShardStore.namespaces (shard w)) = 4%nat /\
  (size ∘ NsIndex.map ∘ NsLog.index <$> ShardStore.namespaces (shard w) !! lit "db7") = Some 1%nat.
Proof. vm_compute. split; reflexivity. Qed.

Lemma namespaces_well_formed_witness :
  ShardStore.open ex_dirs 200 None None [] = Ok ex_opened /\
  let s := shard (foldl ex_turn (mkWorld ex_opened []) ex_events) in
  is_Some (ShardStore.namespaces s !! lit "db7") /\ ~ is_Some (ShardStore.namespaces s !! lit "../x") /\
  (size (ShardStore.namespaces s) <= Nat.max (size (ShardStore.namespaces ex_opened)) 1024)%nat.
Proof.
  split; [reflexivity|].
  destruct (namespaces_well_formed (fun n => Z.of_nat n) (fun n => Z.of_nat n) (fun _ => no_faults)
    ex_dirs 200 None None ([] : @chans _ WatchRegistry.list_mpsc) ex_opened ex_events eq_refl) as (_ & Hv & _ & Hs & _).
  intros s. split_and!; [|intros Hx|exact Hs].
  - apply (bool_decide_unpack _). vm_compute. exact I.
  - apply Hv in Hx. discriminate Hx.
Defined.
End Names.
