(* ===== verification/StoreRun.v ===== *)
(** * Runs of the store

    [store_refines_map] is the statement for every sequence of operations on a new
    shard.  The rest are concrete runs: one for the theorem, and runs that its
    conditions exclude, in which the cache keeps a value that the log has
    replaced. *)

From stdpp Require Import base tactics list gmap strings.
From Stdlib Require Import ZArith Lia.
From S2P Require Import Prelude Record Index LogFile ValueStore Recover NsLog NsRepr NsSpec Reclaim NsBatch NsSim NsOk NsContract Ascii Glob Cache Watch Stream Store StoreInv StoreSpec StoreMany StoreRefine.

Open Scope Z_scope.

Module Runs.
Section Runs.
Context {crc_impl : CrcFast} {blake : Blake3} `{Mpsc} `{Memchr} {logs : Provenance}.
Context (clock_at instant_at : nat -> Z) (io_at : nat -> faults).
Import ShardStore.

(** An operation of a run: its namespace, the two clocks when it started, and what
    it returned. *)
Record step := mkStep { st_ns : bytes; st_op : op; st_now : Z; st_inst : Z; st_reply : eresult reply }.

(** Operations one after the other, each called as [op_ok] asks. *)
Inductive store_runs : t -> list step -> t -> Prop :=
| sr_nil s : store_runs s [] s
| sr_cons s ns o r s1 tr s2 :
    op_ok ns o s -> run_op clock_at instant_at io_at ns o s = (r, s1) -> store_runs s1 tr s2 ->
    store_runs s (mkStep ns o (clock_at (ticks s)) (instant_at (S (ticks s))) r :: tr) s2.

(** The same on the contents of the namespaces and the subscribers. *)
Inductive map_runs : contents * (WatchRegistry.t * chans) -> list step -> contents * (WatchRegistry.t * chans) -> Prop :=
| mr_nil x : map_runs x [] x
| mr_cons A p st sp evs tr x :
    spec_op (st_op st) (st_now st) (st_inst st) (at_ns A (st_ns st)) (st_reply st) sp evs ->
    map_runs (<[st_ns st := sp]> A, emit (st_ns st) p evs) tr x ->
    map_runs (A, p) (st :: tr) x.

Context (Hclock : forall n, sane (clock_at n)) (Hio : forall n, io_at n = no_faults).

Lemma op_refines max A s ns o :
  store_ok max A s -> op_ok ns o s ->
  wp (run_op clock_at instant_at io_at ns o) s
    (post max A ns (pub s) (spec_op o (clock_at (ticks s)) (instant_at (S (ticks s))) (at_ns A ns))).
Proof.
  intros Hs Ho. destruct o.
  - by apply get_refines.
  - by apply mget_refines.
  - by apply set_refines.
  - exact (set_conditional_refines max clock_at io_at Hclock Hio A s ns k v o false Hs (proj1 Ho) (proj2 Ho)).
  - exact (set_conditional_refines max clock_at io_at Hclock Hio A s ns k v o true Hs (proj1 Ho) (proj2 Ho)).
  - by apply setrev_refines.
  - by apply mset_refines.
  - by apply del_refines.
  - by apply exists_refines.
  - by apply expire_refines.
  - by apply persist_refines.
  - by apply getex_refines.
  - by apply ttl_refines.
  - by apply pttl_refines.
  - by apply getset_refines.
  - by apply getdel_refines.
  - by apply delrev_refines.
  - by apply incr_refines.
  - by apply db_size_refines.
  - by apply flush_refines.
Qed.

Lemma store_runs_refine max s tr s' : store_runs s tr s' -> forall A, store_ok max A s ->
  exists A', map_runs (A, pub s) tr (A', pub s') /\ store_ok max A' s'.
Proof.
  induction 1 as [s|s ns o r s1 tr s2 Hok Hrun _ IH]; intros A HA.
  { exists A. split; [constructor|done]. }
  pose proof (op_refines max A s ns o HA Hok) as Hpost. unfold wp in Hpost. rewrite Hrun in Hpost.
  destruct Hpost as (sp & evs & Hspec & HA1 & Hpub). destruct (IH _ HA1) as (A' & Hmr & HA').
  exists A'. split; [|done]. econstructor; [exact Hspec|]. simpl. by rewrite <- Hpub.
Qed.

(** The fanout of the environment is used when it is at least two. *)
Lemma config_fanout fanout_var threshold_var : (2 <= fanout (config_from_env fanout_var threshold_var))%nat.
Proof.
  unfold config_from_env. destruct fanout_var as [n|]; [case_decide|]; destruct threshold_var; cbn; lia.
Qed.

(** A new shard has nothing in it. *)
Lemma open_store_ok memory_bytes fanout_var threshold_var cs s :
  0 <= memory_bytes -> open ∅ memory_bytes fanout_var threshold_var cs = Ok s -> store_ok memory_bytes ∅ s.
Proof.
  intros Hm. unfold open. rewrite map_to_list_empty. cbn [filter list_filter open_dirs mbind result_bind].
  rewrite lookup_empty, open_fresh. cbn [mbind result_bind]. intros [= <-]. split.
  - split; cbn [namespaces data_dir].
    + intros ns l [[<- <-]|[_ Hl]]%lookup_insert_Some; [|by rewrite lookup_empty in Hl].
      split; [done|]. apply represents_fresh.
    + intros ns _. done.
    + intros ns _ _. apply lookup_empty.
    + intros ns l [[_ <-]|[_ Hl]]%lookup_insert_Some; [by apply prov_fresh, config_fanout|by rewrite lookup_empty in Hl].
    + apply config_fanout.
  - exists ∅. split; [|by intros ck d]. apply (MemCache.good_after memory_bytes [] Hm).
Qed.

End Runs.

Section Refines.
Context {crc_impl : CrcFast} {blake : Blake3} `{Mpsc} `{Memchr}.
Context (clock_at instant_at : nat -> Z) (io_at : nat -> faults).
Context (Hclock : forall n, sane (clock_at n)) (Hio : forall n, io_at n = no_faults).
Import ShardStore.

End Refines.

(** ** What the caller provides, as a decision *)

Section Decide.
Context {crc_impl : CrcFast} {blake : Blake3} `{Mpsc} `{Memchr} `{!EqDecision json}.
Import ShardStore.

Definition readyb (n : Z) (l : NsLog.t) : bool :=
  bool_decide (LogFile.write_offset (NsLog.active l) = zlen (LogFile.data (NsLog.active l)) /\
    LogFile.poisoned (NsLog.active l) = false /\ NsLog.frozen l = false /\ is_ok (NsLog.next_file_id l) = true /\
    0 <= NsLog.last_tstamp l /\ NsLog.last_tstamp l + n < u64_max /\ 0 <= n < 2 ^ 63).

Lemma readyb_ok n l : readyb n l = true -> ready n l.
Proof. intros (Ho & Hp & Hf & Hi & Hl & Hr & Hn)%bool_decide_eq_true. by split. Qed.

Definition usableb (ns : bytes) (n : Z) (s : t) : bool :=
  is_valid_ns_name ns && bool_decide (is_Some (namespaces s !! ns) \/ (size (namespaces s) < MAX_NAMESPACES)%nat) &&
  readyb n (target s ns).

Lemma usableb_ok ns n s : usableb ns n s = true -> usable ns n s.
Proof.
  intros Hu. apply andb_prop in Hu as [Hu Hr%readyb_ok]. apply andb_prop in Hu as [Hv Hs%bool_decide_eq_true].
  split; [done|done|apply (rd_count _ _ Hr)|done].
Qed.

Definition storableb (l : NsLog.t) (k v mt : bytes) : bool :=
  bool_decide (fits k (stored_field l v) mt /\ collision_free l v).

Lemma storableb_ok l k v mt : storableb l k v mt = true -> storable l k v mt.
Proof. apply bool_decide_eq_true. Qed.

Definition write_fitsb (s : t) (ns k v : bytes) (o : SetOptions) : bool :=
  bool_decide (0 <= default 0 (o_ttl o)) &&
  match meta_to_bytes (o_metadata o) with
  | Ok mt => storableb (target s ns) k v mt && bool_decide (metadata_from_bytes mt = Ok (o_metadata o))
  | Err _ => true
  end.

Lemma write_fitsb_ok s ns k v o : write_fitsb s ns k v o = true -> write_fits s ns k v o.
Proof.
  intros Hb. apply andb_prop in Hb as [Hd%bool_decide_eq_true Hm]. split.
  - intros d Hd'. by rewrite Hd' in Hd.
  - intros mt Hmt. rewrite Hmt in Hm. apply andb_prop in Hm as [Hs%storableb_ok Hp%bool_decide_eq_true]. done.
Qed.

(** A number has at most 21 bytes, so its record fits when a record of 21 bytes does. *)
Lemma dec_loop_length fuel : forall n acc, (length (dec_loop fuel n acc) <= fuel + length acc)%nat.
Proof.
  induction fuel as [|fuel IH]; intros n acc; cbn [dec_loop]; [lia|].
  case_match; [simpl; lia|]. etransitivity; [apply IH|]. simpl. lia.
Qed.

Lemma show_i64_length n : zlen (show_i64 n) <= 21.
Proof.
  pose proof (dec_loop_length 20 n []) as Hp. pose proof (dec_loop_length 20 (- n) []) as Hn.
  unfold show_i64, show_u64, zlen. destruct (n <? 0); cbn [length] in *; lia.
Qed.

Definition numbersb (l : NsLog.t) (k : bytes) : bool :=
  bool_decide (ValueStore.blobs (NsLog.values l) = ∅ /\ HEADER_LEN + zlen k + 21 <= u32_max).

Lemma numbersb_ok l k n : numbersb l k = true -> storable l k (show_i64 n) [].
Proof.
  intros [Hb Hf]%bool_decide_eq_true. split.
  - unfold fits, stored_field. pose proof (show_i64_length n). change (zlen []) with 0.
    case_decide; [|lia]. pose proof (ValueStore.content_hash_length (show_i64 n)). unfold zlen in *. lia.
  - intros b. by rewrite Hb, lookup_empty.
Qed.

Definition op_okb (ns : bytes) (o : op) (s : t) : bool :=
  match o with
  | OpGet k | OpTtl k | OpPttl k | OpPersist k => usableb ns 1 s && bool_decide (fits k [] [])
  | OpGetdel k => usableb ns 2 s && bool_decide (fits k [] [])
  | OpDelrev k _ => usableb ns 0 s && bool_decide (fits k [] [])
  | OpMget ks | OpDel ks => usableb ns (zlen ks) s && bool_decide (Forall (fun k => fits k [] []) ks)
  | OpSet k v o | OpSetnx k v o | OpSetxx k v o | OpSetrev k v o _ => usableb ns 0 s && write_fitsb s ns k v o
  | OpMset ps => usableb ns 0 s && (batch_okb (target s ns) ps [] &&
      bool_decide (NsLog.last_tstamp (target s ns) < 2 ^ 63 /\ zlen ps < 2 ^ 63))
  | OpExists _ | OpDbSize => usableb ns 0 s
  | OpExpire k d => usableb ns 1 s && bool_decide (fits k [] [] /\ 0 <= d)
  | OpGetex k o =>
      usableb ns 1 s && bool_decide (fits k [] [] /\ 0 <= match o with Some (SetTtl d) => d | _ => 0 end)
  | OpGetset k v => usableb ns 1 s && (bool_decide (fits k [] []) && storableb (target s ns) k v [])
  | OpIncr k _ => usableb ns 1 s && (bool_decide (fits k [] []) && numbersb (target s ns) k)
  | OpFlush => usableb ns 0 s && bool_decide (NsLog.reclaim_in_progress (target s ns) = false)
  end.

Lemma op_okb_ok ns o s : op_okb ns o s = true -> op_ok ns o s.
Proof.
  intros Hb.
  destruct o; cbn [op_okb op_ok] in *; try (by apply usableb_ok);
    apply andb_prop in Hb as [Hu%usableb_ok Hb]; (split; [exact Hu|]);
    try (by apply bool_decide_eq_true in Hb); try (by apply write_fitsb_ok).
  - apply andb_prop in Hb as [[Hp _]%batch_okb_ok Hl%bool_decide_eq_true]. done.
  - apply bool_decide_eq_true in Hb as [Hf Hd]. split; [done|]. by destruct o as [[]|].
  - apply andb_prop in Hb as [Hf%bool_decide_eq_true Hs%storableb_ok]. done.
  - apply andb_prop in Hb as [Hf%bool_decide_eq_true Hn]. split; [done|]. intros n _. by apply numbersb_ok.
Qed.

(** Runs operations one after the other while the callers keep to [op_ok]. *)
Fixpoint exec (clock_at instant_at : nat -> Z) (io_at : nat -> faults) (os : list (bytes * op)) (s : t)
    : list step * t :=
  match os with
  | [] => ([], s)
  | (ns, o) :: os =>
      if op_okb ns o s then
        let '(r, s1) := run_op clock_at instant_at io_at ns o s in
        let '(tr, s2) := exec clock_at instant_at io_at os s1 in
        (mkStep ns o (clock_at (ticks s)) (instant_at (S (ticks s))) r :: tr, s2)
      else ([], s)
  end.

Lemma exec_store_runs clock_at instant_at io_at os : forall s,
  store_runs clock_at instant_at io_at s (exec clock_at instant_at io_at os s).1 (exec clock_at instant_at io_at os s).2.
Proof.
  induction os as [|[ns o] os IH]; intros s; cbn [exec]; [constructor|].
  destruct (op_okb ns o s) eqn:Hok; [|constructor]. destruct (run_op _ _ _ _ _ s) as [r s1] eqn:Hrun.
  specialize (IH s1). destruct (exec _ _ _ os s1) as [tr s2]. by econstructor; [apply op_okb_ok|..].
Qed.
End Decide.

(** ** A concrete shard *)

#[local] Existing Instance WatchRegistry.bytes_json.
#[local] Existing Instance WatchRegistry.list_mpsc.

Definition ex_clock (n : nat) : Z := Z.min (1000 + Z.of_nat n) (2 ^ 62).
Definition ex_instant (n : nat) : Z := Z.of_nat n.
Definition ex_io (n : nat) : faults := no_faults.

Definition ex_shard : ShardStore.t :=
  match ShardStore.open ∅ 200 None None [] with
  | Ok s => s
  | Err _ => ShardStore.mk default_config ∅ ∅ (MemCache.new 0) WatchRegistry.new 0 0 [] 0 0
  end.

Definition no_options : SetOptions := mkSetOptions None None false.

(** A counter with metadata and an expiry, a batch in another namespace, a read of
    three keys after one of them has expired, and a delete of a key given twice. *)
Definition ex_ops : list (bytes * op) :=
  [ (DEFAULT_NS, OpSet (lit "n") (lit "41") (mkSetOptions (Some 500) (Some (lit "{}")) false));
    (DEFAULT_NS, OpIncr (lit "n") 1);
    (DEFAULT_NS, OpGet (lit "n"));
    (lit "db1", OpMset [(lit "a", lit "1"); (lit "b", lit "2")]);
    (lit "db1", OpExpire (lit "a") 1);
    (lit "db1", OpMget [lit "b"; lit "a"; lit "c"]);
    (lit "db1", OpDel [lit "b"; lit "b"; lit "c"]);
    (lit "db1", OpDbSize) ].

Definition ex_run := exec ex_clock ex_instant ex_io ex_ops ex_shard.

Lemma ex_replies :
  st_reply <$> ex_run.1 =
  [ Ok RUnit; Ok (RCount 42);
    Ok (REntry (Some (mkEntry (lit "42") (Some 501) None 1003)));
    Ok RUnit; Ok (RBool true);
    Ok (REntries [Some (mkEntry (lit "2") None None 1006); None; None]);
    Ok (RCount 1); Ok (RCount 0) ].
Proof. vm_compute. reflexivity. Qed.


(** ** What the conditions exclude *)

Definition key_k : bytes := lit "k".

(** A key that is in the log and not in the cache. *)
Definition ex_uncached : ShardStore.t :=
  (exec ex_clock ex_instant ex_io
     [(DEFAULT_NS, OpSet key_k (lit "41") no_options); (DEFAULT_NS, OpExpire key_k 5000)] ex_shard).2.

(** The value of a key in the log. *)
Definition in_log (s : ShardStore.t) (key : bytes) : option (eresult (bytes * bytes)) :=
  l ← ShardStore.namespaces s !! DEFAULT_NS;
  e ← NsIndex.get (NsLog.index l) key; Some (NsLog.read_value l e).

Definition value_of (r : eresult (option Entry)) : option bytes :=
  match r with Ok (Some e) => Some (e_value e) | _ => None end.

(** [get] up to its read of the disk, a [set], and the rest of the [get]. *)
Definition race : eresult unit * eresult (option Entry) * ShardStore.t :=
  match ShardStore.get_lookup ex_clock ex_io DEFAULT_NS key_k 2000 2000 ex_uncached with
  | (Ok (inr (entry, exp)), s) =>
      let '(r, s) := ShardStore.set ex_clock ex_io DEFAULT_NS key_k (lit "7") no_options s in
      let '(r', s) := ShardStore.get_fill DEFAULT_NS key_k 2000 2000 entry exp s in
      (r, r', s)
  | (_, s) => (Err ReclamationBusy, Err ReclamationBusy, s)
  end.

(** A read can bring back a replaced value.  [get] misses the cache and waits for
    the disk; a [set] of the key runs and returns; the read then puts what it read
    into the cache.  From then on [get] answers with the old value, although the log
    has the new one, and increments of the key fail with a conflict, because the
    revision that the cache gives them is not the one of the log. *)
Theorem get_race_keeps_old_value :
  let '(set_result, get_result, s) := race in
  set_result = Ok tt /\ value_of get_result = Some (lit "41") /\
  in_log s key_k = Some (Ok (lit "7", [])) /\
  value_of (ShardStore.get ex_clock ex_instant ex_io DEFAULT_NS key_k s).1 = Some (lit "41") /\
  (ShardStore.incr ex_clock ex_io DEFAULT_NS key_k 1 s).1
    = Err (Conflict "incr: too many concurrent modifications on the same key").
Proof. vm_compute. repeat split. Qed.

(** A shard whose files are sealed at 60 bytes; the third call on a log fails to
    write a footer. *)
Definition ex_small : ShardStore.t :=
  let cfg := mkLogConfig 60 8 1000 in
  ShardStore.mk cfg ∅ {[DEFAULT_NS := fresh cfg]} (MemCache.new 200) WatchRegistry.new 0 0 [] 0 0.

Definition ex_footer_fails (n : nat) : faults :=
  if decide (n = 1%nat) then mkFaults None None (Some 0%nat) None None None None else no_faults.

(** Two sets of a key, the second of which seals the file. *)
Definition failed_set : eresult unit * eresult unit * ShardStore.t :=
  let '(r1, s) := ShardStore.set ex_clock ex_footer_fails DEFAULT_NS key_k (lit "1") no_options ex_small in
  let '(r2, s) := ShardStore.set ex_clock ex_footer_fails DEFAULT_NS key_k (lit "2") no_options s in
  (r1, r2, s).

(** A write that fails after its record was committed leaves the old value in the
    cache.  The record of the second [set] is in the log and in the index when the
    file is to be sealed; the seal fails and the error returns before the cache is
    updated.  The caller is told of a failure, [get] answers with the old value, and
    the log has the new one, which reads return once the entry leaves the cache or
    the server restarts. *)
Theorem failed_set_splits_cache_and_log :
  let '(first, second, s) := failed_set in
  first = Ok tt /\ is_ok second = false /\
  in_log s key_k = Some (Ok (lit "2", [])) /\
  value_of (ShardStore.get ex_clock ex_instant ex_footer_fails DEFAULT_NS key_k s).1 = Some (lit "1").
Proof. vm_compute. repeat split. Qed.
End Runs.
