(* ===== verification/StoreEach.v ===== *)
(** * Maintenance of all namespaces

    The methods of [ShardStore] that go through the open namespaces one after the
    other ([sync_logs], [seal_all_for_shutdown], [resume_after_abort],
    [reclaim_if_needed]) are loops of [each_ns].  Here is what such a loop leaves, and
    what a call of maintenance does to a log: the contents stay. *)

From stdpp Require Import base tactics list gmap strings.
From Stdlib Require Import ZArith Lia.
From S2P Require Import Prelude Record Index LogFile ValueStore Recover NsLog NsRepr NsSpec Reclaim NsBatch NsSim NsOk Ascii Glob Cache Watch Stream Store StoreInv.

Open Scope Z_scope.

(** ** A method on every open namespace *)

Section Each.
Context {crc_impl : CrcFast} {blake : Blake3} `{Mpsc} `{Memchr} (io_at : nat -> faults).
Import ShardStore.

(** Only the logs have changed. *)
Definition same_rest (s s' : t) : Prop :=
  config s' = config s /\ data_dir s' = data_dir s /\ cache s' = cache s /\ pub s' = pub s /\
  forall ns, namespaces s !! ns = None <-> namespaces s' !! ns = None.

Lemma same_rest_refl s : same_rest s s.
Proof. done. Qed.

Lemma same_rest_trans s1 s2 s3 : same_rest s1 s2 -> same_rest s2 s3 -> same_rest s1 s3.
Proof. intros (?&?&?&?&Hn1) (?&?&?&?&Hn2). split_and!; try congruence. intros ns. by rewrite Hn1. Qed.

(** Each named log has gone through the method, with its result in the list. *)
Record each_done {A} (m : bytes -> faults -> NsLog.M A) (names : list bytes) (s : t) (rs : list (eresult A)) (s' : t) : Prop := {
  ed_rest : same_rest s s';
  ed_length : length rs = length names;
  ed_named : forall j ns, names !! j = Some ns -> exists n l, namespaces s !! ns = Some l /\
    rs !! j = Some (m ns (io_at n) l).1 /\ namespaces s' !! ns = Some (m ns (io_at n) l).2;
  ed_others : forall ns, ns ∉ names -> namespaces s' !! ns = namespaces s !! ns;
}.

Lemma each_ns_done {A} (m : bytes -> faults -> NsLog.M A) names : forall s,
  NoDup names -> (forall ns, ns ∈ names -> is_Some (namespaces s !! ns)) ->
  exists rs s', each_ns io_at names m s = (Ok rs, s') /\ each_done m names s rs s'.
Proof.
  induction names as [|ns names IH]; intros s Hnd Hin.
  { exists [], s. by split_and!. }
  apply NoDup_cons in Hnd as [Hns Hnd]. destruct (Hin ns) as [l Hl]; [set_solver|].
  set (io := io_at (calls s)). destruct (m ns io l) as [r l'] eqn:Hm.
  set (s1 := set_namespaces (<[ns := l']> (namespaces s)) (set_calls (S (calls s)) s)).
  assert ((io ← next_io io_at; in_ns ns (m ns io)) s = (r, s1)) as Hstep.
  { unfold next_io, in_ns, mbind, st_mbind, st_bind. cbn [namespaces set_calls]. rewrite Hl. fold io. by rewrite Hm. }
  assert (forall ns', namespaces s1 !! ns' = None <-> namespaces s !! ns' = None) as Hdom.
  { intros ns'. cbn. destruct (decide (ns' = ns)) as [->|]; [by rewrite lookup_insert_eq, Hl|by rewrite lookup_insert_ne]. }
  destruct (IH s1 Hnd) as (rs & s2 & Hrun & [Hrest Hlen Hnamed Hothers]).
  { intros ns' Hns'. destruct (namespaces s1 !! ns') eqn:Hn; [by eexists|]. apply Hdom in Hn.
    destruct (Hin ns') as [? ?]; [set_solver|congruence]. }
  exists (r :: rs), s2. split; [cbn [each_ns]; rewrite Hstep; unfold mbind, st_mbind, st_bind; by rewrite Hrun|]. split.
  - eapply same_rest_trans; [|exact Hrest]. split_and!; try done; intros ns'; by rewrite Hdom.
  - cbn. by rewrite Hlen.
  - intros [|j] ns' Hj; [injection Hj as <-|].
    + exists (calls s), l. fold io. rewrite Hm, Hothers by done. cbn. by rewrite lookup_insert_eq.
    + destruct (Hnamed j ns' Hj) as (n & l0 & Hl0 & Hr & Hl'). exists n, l0. split_and!; [|done..].
      cbn in Hl0. rewrite lookup_insert_ne in Hl0; [done|]. intros <-. apply Hns. by eapply list_elem_of_lookup_2.
  - intros ns' Hns'. rewrite Hothers by set_solver. cbn. rewrite lookup_insert_ne; [done|]. set_solver.
Qed.

Lemma open_names_NoDup s : NoDup (open_names s).
Proof. apply NoDup_fst_map_to_list. Qed.

Lemma open_names_elem s ns : ns ∈ open_names s <-> is_Some (namespaces s !! ns).
Proof.
  unfold open_names. rewrite list_elem_of_fmap. split.
  - intros ([ns' l] & -> & Hl%elem_of_map_to_list). by exists l.
  - intros [l Hl]. exists (ns, l). split; [done|]. by apply elem_of_map_to_list.
Qed.

(** On all open namespaces of a store that has the same ones. *)
Lemma each_open {A} (m : bytes -> faults -> NsLog.M A) s0 s :
  (forall ns, namespaces s0 !! ns = None <-> namespaces s !! ns = None) ->
  exists rs s', each_ns io_at (open_names s0) m s = (Ok rs, s') /\ same_rest s s' /\
    (forall r, r ∈ rs -> exists ns n l, namespaces s !! ns = Some l /\ r = (m ns (io_at n) l).1) /\
    (forall ns l, namespaces s !! ns = Some l -> exists n, namespaces s' !! ns = Some (m ns (io_at n) l).2).
Proof.
  intros Hdom. assert (forall ns, ns ∈ open_names s0 <-> is_Some (namespaces s !! ns)) as Hnames.
  { intros ns. rewrite open_names_elem, <- !not_eq_None_Some. by rewrite Hdom. }
  destruct (each_ns_done m (open_names s0) s (open_names_NoDup s0)) as (rs & s' & Hrun & [Hrest Hlen Hnamed _]).
  { intros ns. by rewrite Hnames. }
  exists rs, s'. split_and!; [done|done| |].
  - intros r [j Hj]%list_elem_of_lookup. destruct (lookup_lt_is_Some_2 (open_names s0) j) as [ns Hns].
    { rewrite <- Hlen. by eapply lookup_lt_Some. }
    destruct (Hnamed j ns Hns) as (n & l & Hl & Hr & _). exists ns, n, l. split; [done|congruence].
  - intros ns l Hl. assert (ns ∈ open_names s0) as [j Hj]%list_elem_of_lookup by (apply Hnames; by exists l).
    destruct (Hnamed j ns Hj) as (n & l0 & Hl0 & _ & Hl'). exists n. congruence.
Qed.

Lemma first_error_ok {A} (rs : list (eresult A)) : (forall r, r ∈ rs -> is_ok r = true) -> first_error rs = Ok tt.
Proof.
  induction rs as [|r rs IH]; intros Hall; [done|]. cbn [first_error]. assert (is_ok r = true) as Hr by (apply Hall; set_solver).
  destruct r as [a|e]; [|done]. apply IH. intros r' Hr'. apply Hall. set_solver.
Qed.
End Each.

(** ** Calls of maintenance *)

Section Maintenance.
Context {crc_impl : CrcFast} {blake : Blake3} `{Mpsc} `{Memchr}.
Import ShardStore.

(** The log has the contents [sp], and is frozen or not. *)
Definition lives (frozen : bool) (sp : space) (l : NsLog.t) : Prop :=
  sim (mkAS (sp_map sp) (sp_last sp) frozen) l /\ map_Forall (fun _ => sound) (sp_map sp).

Lemma represents_lives sp l : represents sp l <-> lives false sp l.
Proof.
  unfold represents, lives, holds. split.
  - intros (Hs & -> & Hm). done.
  - intros [Hs Hm]. pose proof (sim_last _ _ Hs) as Hl. cbn in Hl. rewrite <- Hl. done.
Qed.

Definition maintains (c : call) : bool := match c with Sync _ | NsSim.Seal _ _ | Reopen _ | Freeze | Unfreeze => true | _ => false end.

Lemma maintenance_lives c b sp l : maintains c = true -> lives b sp l ->
  lives (match c with Freeze => true | Unfreeze => false | _ => b end) sp (run c l).2.
Proof.
  intros Hc [Hs Hm]. split; [|done]. assert (call_ok c l) as Hok by (by destruct c).
  assert (is_write c = false) as Hw by (by destruct c). destruct (run c l) as [r l'] eqn:Hrun. cbn.
  destruct (simulation _ _ _ _ _ Hs Hok Hrun) as ([m' last' b'] & (_ & Hb & Heff) & Hs'). cbn in Hb.
  assert (m' = sp_map sp /\ last' = sp_last sp) as [-> ->]; [|by rewrite <- Hb].
  rewrite Hw in Heff. cbn [andb] in Heff.
  pose proof (sim_last _ _ Hs) as Hl. pose proof (sim_last _ _ Hs') as Hl'. cbn in Hl, Hl'.
  destruct c; try done; cbn in Heff.
  - by destruct Heff as [[? _] ?].
  - destruct Heff as [_ Hm']. split; [exact Hm'|]. injection Hrun as _ <-. cbn in Hl'. congruence.
  - destruct Heff as [_ Hm']. split; [exact Hm'|]. injection Hrun as _ <-. cbn in Hl'. congruence.
Qed.
End Maintenance.
