(* ===== verification/Routing.v ===== *)
(** * Routing of connections, [crates/server/src/routing.rs] and the accept loops of
    [crates/server/src/main.rs]

    A connection is served by one shard for its lifetime.  The accept loop looks at
    the first bytes that the client sent, takes a key out of them if it can, and
    picks the shard that the key hashes to; otherwise the shards take turns.  The
    file translates the two functions that look for the key, the accept loop and the
    configuration checks, and proves which connections reach the shard of their key. *)

From stdpp Require Import base tactics list strings.
From Stdlib Require Import ZArith Lia.
From S2P Require Import Prelude Ascii Store.

Open Scope Z_scope.
Open Scope lit_scope.

(** The hash of crate [rustc_hash]: [FxHasher::default], [write], [finish]. *)
Class FxHash := {
  fx_hash : bytes -> Z;
  fx_hash_u64 : forall b, is_u64 (fx_hash b);
}.

(** There is at least one shard. *)
Definition shard_for_key `{FxHash} (key : bytes) (n : nat) : nat :=
  Z.to_nat (fx_hash key mod Z.of_nat n).

Lemma shard_for_key_lt `{FxHash} key n : (0 < n)%nat -> (shard_for_key key n < n)%nat.
Proof. intros Hn. unfold shard_for_key. pose proof (Z.mod_pos_bound (fx_hash key) (Z.of_nat n)). lia. Qed.

(** ** Percent encoding *)

Definition hex_val (b : Z) : option Z :=
  if (48 <=? b) && (b <=? 57) then Some (b - 48)
  else if (97 <=? b) && (b <=? 102) then Some (b - 97 + 10)
  else if (65 <=? b) && (b <=? 70) then Some (b - 65 + 10)
  else None.

Definition peek_routing_key_bytes (b : Z) : option Z := hex_val b.

(** The loop over the index, as a recursion on the bytes from the index on. *)
Fixpoint percent_decode_routing (b : bytes) : bytes :=
  match b with
  | [] => []
  | c :: rest =>
      match rest with
      | h :: l :: rest' =>
          if c =? 37 then
            match hex_val h, hex_val l with
            | Some h, Some l => Z.lor (Z.shiftl h 4) l :: percent_decode_routing rest'
            | _, _ => c :: percent_decode_routing rest
            end
          else c :: percent_decode_routing rest
      | _ => c :: percent_decode_routing rest
      end
  end.

(** ** Slices *)

(** [iter().position(p)]. *)
Fixpoint position (p : Z -> bool) (b : bytes) : option Z :=
  match b with
  | [] => None
  | c :: b => if p c then Some 0 else Z.succ <$> position p b
  end.

(** [b[i]], where the index is known to be in range or is compared with it first. *)
Definition byte_at (b : bytes) (i : Z) : option Z := if i <? 0 then None else b !! Z.to_nat i.

(** [&b[i..j]] and [&b[i..]]. *)
Definition range (b : bytes) (i j : Z) : bytes := take (Z.to_nat (j - i)) (drop (Z.to_nat i) b).
Definition from (b : bytes) (i : Z) : bytes := drop (Z.to_nat i) b.

(** [str::parse::<usize>]: an optional plus sign and digits, in range. *)
Definition parse_usize (b : bytes) : option Z :=
  n ← match b with 43 :: b => parse_digits b | _ => parse_digits b end;
  if decide (n <= u64_max) then Some n else None.

Definition starts_with (p b : bytes) : bool := take (length p) b =b p.

(** [windows(p.len()).position(|w| w == p)] for a pattern that is not empty. *)
Fixpoint find_slice (p b : bytes) : option Z :=
  match b with
  | [] => None
  | _ :: b' => if starts_with p b then Some 0 else Z.succ <$> find_slice p b'
  end.

(** [strip_suffix]. *)
Definition strip_suffix (p b : bytes) : option bytes :=
  if (zlen p <=? zlen b) && (from b (zlen b - zlen p) =b p) then Some (range b 0 (zlen b - zlen p)) else None.

Definition is_lf (c : Z) : bool := c =? 10.

(** The end of a line without its carriage return. *)
Definition line_end (b : bytes) (nl : Z) : Z :=
  if (0 <? nl) && bool_decide (byte_at b (nl - 1) = Some 13) then nl - 1 else nl.

(** ** The key of a RESP connection *)

(** [peek_first_bytes]: what has arrived within two milliseconds, up to the size of
    the buffer. *)
Definition peek_first_bytes (arrived : bytes) : bytes := take 4096 arrived.

(** A bulk-string header at [i]: where its line ends, and its length. *)
Definition bulk_header (buf : bytes) (i : Z) : option (Z * Z) :=
  if negb (bool_decide (byte_at buf i = Some 36)) then None else
  let len_start := i + 1 in
  p ← position is_lf (from buf len_start);
  let nl := len_start + p in
  len ← parse_usize (range buf len_start (line_end buf nl));
  Some (nl, len).

Definition peek_resp_key (arrived : bytes) : option bytes :=
  let buf := peek_first_bytes arrived in
  if decide (buf = []) then None else
  if negb (bool_decide (byte_at buf 0 = Some 42)) then None else
  nl1 ← position is_lf buf;
  count ← parse_usize (range buf 1 (line_end buf nl1));
  if decide (count < 2) then None else
  '(nl2, cmd_len) ← bulk_header buf (nl1 + 1);
  let i := (nl2 + 1 + cmd_len + 2) mod 2 ^ 64 in
  '(nl3, key_len) ← bulk_header buf i;
  let key_start := nl3 + 1 in
  key_end ← checked_add_u64 key_start key_len;
  if decide (zlen buf < key_end) then None else
  Some (range buf key_start key_end).

(** ** The key of an HTTP connection *)

(** [splitn(3, ' ')]: the second part. *)
Definition request_path (line : bytes) : option bytes :=
  sp ← position (fun c => c =? 32) line;
  let rest := from line (sp + 1) in
  Some (match position (fun c => c =? 32) rest with
        | Some sp2 => range rest 0 sp2
        | None => rest
        end).

Definition needle : bytes := lit "/v1/kv/".

(** The key in the path of the request line. *)
Definition key_in_path (path : bytes) : option bytes :=
  pos ← find_slice needle path;
  let after := from path (pos + zlen needle) in
  let key_end := default (zlen after) (position (fun c => (c =? 63) || (c =? 32)) after) in
  if decide (key_end = 0) then None else
  let key_slice := range after 0 key_end in
  let key_bytes := default key_slice (strip_suffix (lit "/incr") key_slice) in
  if decide (key_bytes = []) then None else
  Some (percent_decode_routing key_bytes).

Definition peek_http_key (arrived : bytes) : option bytes :=
  let buf := peek_first_bytes arrived in
  if decide (buf = []) then None else
  nl ← position is_lf buf;
  path ← request_path (range buf 0 nl);
  key_in_path path.

(** ** The accept loops, [main.rs] *)

Section Accept.
Context `{FxHash}.

(** [route]: the shard, and the counter of the connections without a key. *)
Definition route (key : option bytes) (n : nat) (rr : Z) : nat * Z :=
  match key with
  | Some k => (shard_for_key k n, rr)
  | None => (Z.to_nat (rr mod Z.of_nat n), (rr + 1) mod 2 ^ 64)
  end.

(** What [try_send] to the worker answers. *)
Inductive try_send := Sent | Full | Disconnected.

Inductive accepted :=
| Dispatched (shard : nat)
| Rejected (shard : nat) (response : bytes)
| WorkerGone (shard : nat).

(** [accept_one]: [woken] says whether the write to the wakeup pipe succeeded. *)
Definition accept_one (peek_key : bytes -> option bytes) (on_reject : bytes) (n : nat)
    (arrived : bytes) (send : nat -> try_send) (woken : bool) (rr : Z) : bool * accepted * Z :=
  let '(idx, rr) := route (peek_key arrived) n rr in
  match send idx with
  | Sent => if woken then (true, Dispatched idx, rr) else (false, WorkerGone idx, rr)
  | Full => (true, Rejected idx on_reject, rr)
  | Disconnected => (false, WorkerGone idx, rr)
  end.

Definition reject_resp : bytes := lit "-ERR server busy, please retry later" ++ [13; 10].
Definition reject_http : bytes :=
  lit "HTTP/1.1 503 Service Unavailable" ++ [13; 10] ++ lit "Content-Length: 0" ++ [13; 10] ++
  lit "Connection: close" ++ [13; 10; 13; 10].

(** One turn of the loop: the two flags as it reads them, and what [accept] returns. *)
Inductive accept_event :=
| NoConnection
| AcceptError
| Connection (arrived : bytes) (send : nat -> try_send) (woken : bool).

Record turn := mkTurn { shutdown : bool; accept_closed : bool; event : accept_event }.

Fixpoint accept_loop (peek_key : bytes -> option bytes) (on_reject : bytes) (n : nat)
    (turns : list turn) (rr : Z) : list accepted :=
  match turns with
  | [] => []
  | t :: turns =>
      if shutdown t then []
      else if accept_closed t then accept_loop peek_key on_reject n turns rr
      else match event t with
           | Connection arrived send woken =>
               let '(continue, what, rr) := accept_one peek_key on_reject n arrived send woken rr in
               if (continue : bool) then what :: accept_loop peek_key on_reject n turns rr else [what]
           | NoConnection | AcceptError => accept_loop peek_key on_reject n turns rr
           end
  end.
End Accept.

(** ** The configuration, [config.rs] and [main.rs] *)

Record Config := mkConfig { threads : option Z; memory_bytes : Z }.

Inductive config_error := ZeroMemory | LessThanThreads (memory threads : Z).

Definition validate (cfg : Config) : result config_error unit :=
  if decide (memory_bytes cfg = 0) then Err ZeroMemory else
  let threads := Z.max (default 1 (threads cfg)) 1 in
  if decide (memory_bytes cfg < threads) then Err (LessThanThreads (memory_bytes cfg) threads) else
  Ok tt.

(** [num_cpus] is the number of processors of the machine. *)
Definition n_threads (cfg : Config) (num_cpus : Z) : Z := Z.max (default num_cpus (threads cfg)) 1.

Definition memory_per_shard (cfg : Config) (num_cpus : Z) : Z := memory_bytes cfg / n_threads cfg num_cpus.

(** ** Lemmas on slices *)

Lemma position_app p a c b :
  Forall (fun x => p x = false) a -> p c = true -> position p (a ++ c :: b) = Some (zlen a).
Proof.
  intros Ha Hc. induction Ha as [|x a Hx _ IH]; cbn [app position]; [by rewrite Hc|].
  rewrite Hx, IH. cbn. by rewrite zlen_cons, Z.add_1_l.
Qed.

Lemma position_none p a : Forall (fun x => p x = false) a -> position p a = None.
Proof. induction 1 as [|x a Hx _ IH]; cbn [position]; [done|]. by rewrite Hx, IH. Qed.

Lemma from_app a b i : i = zlen a -> from (a ++ b) i = b.
Proof. intros ->. unfold from, zlen. by rewrite Nat2Z.id, drop_app_length. Qed.

Lemma range_app a b c i j : i = zlen a -> j = zlen a + zlen b -> range (a ++ b ++ c) i j = b.
Proof.
  intros -> ->. unfold range, zlen. rewrite Nat2Z.id, drop_app_length.
  by replace (Z.to_nat _) with (length b) by lia; rewrite take_app_length.
Qed.

Lemma range_head b c j : j = zlen b -> range (b ++ c) 0 j = b.
Proof. intros ->. by apply (range_app [] b c). Qed.

Lemma byte_at_app a c b i : i = zlen a -> byte_at (a ++ c :: b) i = Some c.
Proof.
  intros ->. unfold byte_at, zlen. destruct (Z.ltb_spec (Z.of_nat (length a)) 0); [lia|].
  by rewrite Nat2Z.id, list_lookup_middle.
Qed.

Lemma line_end_crlf a b nl : nl = zlen a + 1 -> line_end (a ++ 13 :: b) nl = zlen a.
Proof.
  intros ->. unfold line_end. pose proof (zlen_nonneg a). destruct (Z.ltb_spec 0 (zlen a + 1)); [|lia].
  rewrite byte_at_app, bool_decide_true by (done || lia). cbn. lia.
Qed.

Lemma parse_digits_ok ds : ds <> [] -> Forall is_digit ds -> parse_digits ds = Some (dec_val ds).
Proof.
  intros Hne Hd. unfold parse_digits. case_decide; [done|]. 
  assert (forallb (fun c => (48 <=? c) && (c <=? 57)) ds = true) as ->; [|done].
  apply forallb_forall. intros c Hc. rewrite Forall_forall in Hd.
  specialize (Hd c (proj2 (list_elem_of_In _ _) Hc)). unfold is_digit in Hd.
  apply andb_true_intro. split; apply Z.leb_le; lia.
Qed.

Lemma parse_usize_show n : is_u64 n -> parse_usize (show_u64 n) = Some n.
Proof.
  intros Hn. destruct (show_u64_spec n Hn) as (Hne & Hd & Hv). unfold parse_usize.
  pose proof (parse_digits_ok _ Hne Hd) as Hp. rewrite Hv in Hp.
  destruct (show_u64 n) as [|c ds] eqn:Heq; [done|].
  assert (c <> 43) as Hc by (apply Forall_inv in Hd; unfold is_digit in Hd; lia).
  assert ((match c :: ds with 43 :: b => parse_digits b | _ => parse_digits (c :: ds) end) = Some n) as ->.
  { rewrite <- Hp. destruct c as [|c|c]; try done. by repeat (destruct c as [c|c|]; try done). }
  cbn. case_decide; [done|zlia].
Qed.

Lemma digits_not_lf ds : Forall is_digit ds -> Forall (fun x => is_lf x = false) ds.
Proof. intros Hd. eapply Forall_impl; [exact Hd|]. unfold is_digit, is_lf. intros x Hx. apply Z.eqb_neq. lia. Qed.

(** ** What clients send *)

Definition crlf : bytes := [13; 10].

(** The RESP encoding of an array of bulk strings. *)
Definition bulk_string (b : bytes) : bytes := [36] ++ show_u64 (zlen b) ++ crlf ++ b ++ crlf.
Definition wire (args : list bytes) : bytes :=
  [42] ++ show_u64 (zlen args) ++ crlf ++ concat (bulk_string <$> args).

(** The bytes up to the end of the second argument. *)
Definition up_to_key (args : list bytes) (name key : bytes) : bytes :=
  [42] ++ show_u64 (zlen args) ++ crlf ++ bulk_string name ++
  [36] ++ show_u64 (zlen key) ++ crlf ++ key.

Lemma bulk_header_at pre n post :
  is_u64 n ->
  bulk_header (pre ++ [36] ++ show_u64 n ++ crlf ++ post) (zlen pre)
    = Some (zlen pre + zlen (show_u64 n) + 2, n).
Proof.
  intros Hn. destruct (show_u64_spec n Hn) as (Hne & Hd & _). unfold bulk_header, crlf. cbn [app].
  rewrite byte_at_app by done. cbn [bool_decide negb].
  assert (forall c r, pre ++ 36 :: show_u64 n ++ c :: r = (pre ++ [36]) ++ show_u64 n ++ c :: r) as Hs
    by (intros; by rewrite <- app_assoc).
  rewrite bool_decide_true by done. cbn [negb]. rewrite Hs.
  rewrite from_app by (rewrite zlen_app; done).
  assert (show_u64 n ++ 13 :: 10 :: post = (show_u64 n ++ [13]) ++ 10 :: post) as Hd2 by (by rewrite <- app_assoc).
  rewrite Hd2, position_app; [|apply Forall_app; split; [by apply digits_not_lf|by repeat constructor]|done].
  cbn [mbind option_bind]. rewrite <- Hd2, app_assoc, line_end_crlf by (autorewrite with sizes; lia).
  rewrite <- app_assoc, range_app by (autorewrite with sizes; lia).
  rewrite parse_usize_show by done. cbn. do 2 f_equal. autorewrite with sizes. lia.
Qed.

Lemma up_to_key_wire name key rest :
  exists more, wire (name :: key :: rest) = up_to_key (name :: key :: rest) name key ++ more.
Proof.
  exists (crlf ++ concat (bulk_string <$> rest)). unfold wire, up_to_key. cbn [fmap list_fmap concat].
  unfold bulk_string at 2. rewrite <- !app_assoc. done.
Qed.

(** The count of the array. *)
Lemma count_line a post :
  is_u64 a ->
  position is_lf ([42] ++ show_u64 a ++ crlf ++ post) = Some (zlen (show_u64 a) + 2) /\
  range ([42] ++ show_u64 a ++ crlf ++ post) 1 (line_end ([42] ++ show_u64 a ++ crlf ++ post) (zlen (show_u64 a) + 2))
    = show_u64 a.
Proof.
  intros Ha. destruct (show_u64_spec a Ha) as (_ & Hd & _). unfold crlf. split.
  - assert ([42] ++ show_u64 a ++ [13; 10] ++ post = ([42] ++ show_u64 a ++ [13]) ++ 10 :: post) as ->
      by (rewrite <- !app_assoc; done).
    rewrite position_app; [f_equal; autorewrite with sizes; lia| |done].
    apply Forall_app. split; [by repeat constructor|]. apply Forall_app. split; [by apply digits_not_lf|by repeat constructor].
  - assert ([42] ++ show_u64 a ++ [13; 10] ++ post = ([42] ++ show_u64 a) ++ 13 :: 10 :: post) as Hs
      by (rewrite <- !app_assoc; done).
    rewrite Hs, line_end_crlf, <- Hs by (autorewrite with sizes; lia).
    by rewrite range_app by (autorewrite with sizes; lia).
Qed.

Lemma peek_resp_buffer a name key more :
  2 <= a <= u64_max -> zlen name <= 2 ^ 62 -> zlen key <= 2 ^ 62 ->
  let buf := ([42] ++ show_u64 a ++ crlf) ++ [36] ++ show_u64 (zlen name) ++ crlf ++
             name ++ crlf ++ [36] ++ show_u64 (zlen key) ++ crlf ++ key ++ more in
  zlen (show_u64 a) + zlen (show_u64 (zlen name)) + zlen (show_u64 (zlen key)) <= 4096 ->
  peek_first_bytes buf = buf -> peek_resp_key buf = Some key.
Proof.
  intros Ha Hn Hk buf Hs Hbuf. pose proof (zlen_nonneg name). pose proof (zlen_nonneg key).
  pose proof (zlen_nonneg (show_u64 a)). pose proof (zlen_nonneg (show_u64 (zlen name))).
  pose proof (zlen_nonneg (show_u64 (zlen key))).
  assert (is_u64 a) as Ha' by zlia. assert (is_u64 (zlen name)) as Hn' by zlia. assert (is_u64 (zlen key)) as Hk' by zlia.
  unfold peek_resp_key. rewrite Hbuf. case_decide as Hne; [done|].
  assert (byte_at buf 0 = Some 42) as -> by done. rewrite bool_decide_true by done. cbn [negb].
  assert (buf = [42] ++ show_u64 a ++ crlf ++ drop (length ([42] ++ show_u64 a ++ crlf)) buf) as Hb1.
  { unfold buf at 2. rewrite drop_app_length. unfold buf. by rewrite <- !app_assoc. }
  destruct (count_line a (drop (length ([42] ++ show_u64 a ++ crlf)) buf) Ha') as [Hp Hr].
  rewrite <- Hb1 in Hp, Hr. rewrite Hp. cbn [mbind option_bind]. rewrite Hr, parse_usize_show by done.
  cbn [mbind option_bind]. rewrite decide_False by lia.
  pose proof (bulk_header_at ([42] ++ show_u64 a ++ crlf) (zlen name)
    (name ++ crlf ++ [36] ++ show_u64 (zlen key) ++ crlf ++ key ++ more) Hn') as Hh. fold buf in Hh.
  replace (zlen (show_u64 a) + 2 + 1) with (zlen ([42] ++ show_u64 a ++ crlf))
    by (unfold crlf; autorewrite with sizes; lia).
  rewrite Hh. cbn [mbind option_bind]. clear Hh.
  set (pre := ([42] ++ show_u64 a ++ crlf) ++ [36] ++ show_u64 (zlen name) ++ crlf ++ name ++ crlf).
  assert (buf = pre ++ [36] ++ show_u64 (zlen key) ++ crlf ++ key ++ more) as Hb2
    by (unfold buf, pre; by rewrite <- !app_assoc).
  rewrite Z.mod_small by (unfold crlf; autorewrite with sizes; lia).
  replace (zlen ([42] ++ show_u64 a ++ crlf) + zlen (show_u64 (zlen name)) + 2 + 1 + zlen name + 2) with (zlen pre)
    by (unfold pre, crlf; autorewrite with sizes; lia).
  rewrite Hb2, (bulk_header_at pre (zlen key) (key ++ more) Hk'). cbn [mbind option_bind].
  assert (zlen pre <= 2 ^ 63) by (unfold pre, crlf; autorewrite with sizes; lia).
  unfold checked_add_u64. rewrite decide_True by zlia. cbn [mbind option_bind].
  rewrite decide_False by (unfold crlf; autorewrite with sizes; pose proof (zlen_nonneg more); lia).
  assert (pre ++ [36] ++ show_u64 (zlen key) ++ crlf ++ key ++ more
          = (pre ++ [36] ++ show_u64 (zlen key) ++ crlf) ++ key ++ more) as -> by (by rewrite <- !app_assoc).
  f_equal. apply range_app; unfold crlf; autorewrite with sizes; lia.
Qed.

Lemma peek_resp_key_buffer arrived : peek_resp_key arrived = peek_resp_key (peek_first_bytes arrived).
Proof. unfold peek_resp_key, peek_first_bytes. by rewrite take_idemp. Qed.

(** The second argument of a command is found when it ends within the buffer. *)
Lemma resp_key_peeked name key rest more :
  zlen (up_to_key (name :: key :: rest) name key) <= 4096 -> zlen rest <= 2 ^ 63 ->
  peek_resp_key (wire (name :: key :: rest) ++ more) = Some key.
Proof.
  intros Hlen Hrest. destruct (up_to_key_wire name key rest) as [m1 ->].
  assert (exists m2, peek_first_bytes ((up_to_key (name :: key :: rest) name key ++ m1) ++ more)
                     = up_to_key (name :: key :: rest) name key ++ m2) as [m2 Hbuf].
  { unfold peek_first_bytes. rewrite <- app_assoc, take_app_ge by (unfold zlen in Hlen; lia). eauto. }
  rewrite peek_resp_key_buffer, Hbuf.
  assert (peek_first_bytes (up_to_key (name :: key :: rest) name key ++ m2) = up_to_key (name :: key :: rest) name key ++ m2)
    as Hid by (rewrite <- Hbuf; unfold peek_first_bytes; by rewrite take_idemp).
  clear Hbuf. pose proof (zlen_nonneg name). pose proof (zlen_nonneg key). pose proof (zlen_nonneg rest).
  unfold up_to_key, bulk_string in *. rewrite <- !app_assoc in Hid |- *.
  pose proof (peek_resp_buffer (zlen (name :: key :: rest)) name key m2) as Hp. rewrite <- !app_assoc in Hp.
  pose proof (zlen_nonneg (show_u64 (zlen (name :: key :: rest)))). pose proof (zlen_nonneg (show_u64 (zlen name))).
  pose proof (zlen_nonneg (show_u64 (zlen key))).
  set (sa := show_u64 (zlen (name :: key :: rest))) in *. unfold crlf in *. autorewrite with sizes in Hlen.
  apply Hp; [rewrite !zlen_cons; zlia|lia|lia|lia|done].
Qed.

(** ** Which connections reach the shard of their key *)

Section Routed.
Context `{FxHash}.

Definition opened (arrived : bytes) : turn := mkTurn false false (Connection arrived (fun _ => Sent) true).

(** A request line: method, path, optional query. *)
Definition request_line (method path : bytes) (query : option bytes) : bytes :=
  method ++ [32] ++ path ++ (match query with Some q => [63] ++ q | None => [] end) ++ lit " HTTP/1.1".

Definition no_byte (c : Z) (b : bytes) : Prop := Forall (fun x => (x =? c) = false) b.

Lemma request_path_line method path query more :
  no_byte 32 method -> no_byte 32 path -> (forall q, query = Some q -> no_byte 32 q) ->
  request_path (request_line method path query ++ more)
    = Some (path ++ match query with Some q => [63] ++ q | None => [] end).
Proof.
  intros Hm Hp Hq. unfold request_path, request_line. set (qs := match query with Some _ => _ | None => _ end).
  assert ((method ++ [32] ++ path ++ qs ++ lit " HTTP/1.1") ++ more
          = method ++ 32 :: (path ++ qs) ++ 32 :: lit "HTTP/1.1" ++ more) as ->
    by (rewrite <- !app_assoc; done).
  rewrite position_app by done. cbn [mbind option_bind].
  assert (forall r, method ++ 32 :: r = (method ++ [32]) ++ r) as -> by (intros; by rewrite <- app_assoc).
  rewrite from_app by (autorewrite with sizes; lia). f_equal.
  rewrite position_app; [by apply range_head| |done].
  apply Forall_app. split; [done|]. subst qs. destruct query as [q|]; [|constructor]. constructor; [done|by apply Hq].
Qed.

Lemma find_slice_head p b : p <> [] -> find_slice p (p ++ b) = Some 0.
Proof.
  intros Hp. destruct p as [|c p]; [done|]. cbn [app find_slice]. unfold starts_with.
  change (c :: p ++ b) with ((c :: p) ++ b). by rewrite take_app_length, bytes_eqb_refl.
Qed.

Lemma find_slice_absent b : no_byte 47 b -> find_slice needle b = None.
Proof.
  induction 1 as [|c b Hc _ IH]; [done|]. cbn [find_slice]. rewrite IH.
  assert (starts_with needle (c :: b) = false) as ->; [|done].
  unfold starts_with. change (length needle) with 7%nat. change needle with (47 :: lit "v1/kv/").
  cbn [take bytes_eqb]. by rewrite Hc.
Qed.

Definition with_query (path : bytes) (query : option bytes) : bytes :=
  path ++ match query with Some q => [63] ++ q | None => [] end.

Lemma peek_request_line method path query more :
  no_byte 32 method -> no_byte 10 method -> no_byte 32 path -> no_byte 10 path ->
  (forall q, query = Some q -> no_byte 32 q /\ no_byte 10 q) ->
  zlen (request_line method path query) + 2 <= 4096 ->
  peek_http_key (request_line method path query ++ crlf ++ more) = key_in_path (with_query path query).
Proof.
  intros Hm Hm' Hs Hs' Hq Hlen. set (line := request_line method path query) in *.
  assert (peek_first_bytes (line ++ crlf ++ more) = (line ++ [13]) ++ 10 :: take (4096 - length line - 2) more) as Hb.
  { unfold peek_first_bytes, crlf. unfold zlen in Hlen. rewrite take_app_ge by lia.
    destruct (4096 - length line)%nat as [|[|n]] eqn:Hn; [lia..|]. rewrite <- app_assoc. cbn [app take].
    by replace (S (S n) - 2)%nat with n by lia. }
  assert (no_byte 10 line) as Hl.
  { unfold line, request_line. repeat (apply Forall_app; split); try done; try (by repeat constructor).
    destruct query as [q|]; [|constructor]. constructor; [done|by apply Hq]. }
  unfold peek_http_key. rewrite Hb. case_decide as Hd; [by destruct line|].
  rewrite position_app by (done || (apply Forall_app; split; [done|by repeat constructor])).
  cbn [mbind option_bind]. rewrite range_head by done. unfold line.
  rewrite request_path_line; [done|exact Hm|exact Hs|intros q Hqq; apply (Hq q Hqq)].
Qed.

(** The key that the handlers of [/v1/kv/] take from the path. *)
Definition path_key (seg : bytes) : bytes := percent_decode_routing (default seg (strip_suffix (lit "/incr") seg)).

Lemma key_in_kv_path seg query :
  no_byte 32 seg -> no_byte 63 seg -> default seg (strip_suffix (lit "/incr") seg) <> [] ->
  key_in_path (with_query (needle ++ seg) query) = Some (path_key seg).
Proof.
  intros Hs Hs'' Hne. unfold key_in_path, with_query.
  rewrite <- app_assoc, find_slice_head by done. cbn [mbind option_bind]. rewrite from_app by done.
  assert (forall qs, qs = [] \/ head qs = Some 63 ->
    default (zlen (seg ++ qs)) (position (fun c => (c =? 63) || (c =? 32)) (seg ++ qs)) = zlen seg) as Hpos.
  { assert (Forall (fun c => ((c =? 63) || (c =? 32)) = false) seg) as Hf.
    { unfold no_byte in *. apply Forall_forall. intros c Hc. rewrite Forall_forall in Hs, Hs''.
      specialize (Hs c Hc). specialize (Hs'' c Hc). by rewrite Hs, Hs''. }
    intros [|c qs] [Hqs|Hqs]; try done; [by rewrite app_nil_r, position_none|].
    injection Hqs as ->. by rewrite position_app. }
  rewrite Hpos by (destruct query; [by right|by left]). rewrite range_head by done.
  assert (seg <> []) as Hseg by (intros ->; by apply Hne).
  case_decide as Hz; [exfalso; apply Hseg; destruct seg; [done|rewrite zlen_cons in Hz; pose proof (zlen_nonneg seg); lia]|].
  case_decide; done.
Qed.

Lemma no_key_in_watch_path seg : no_byte 47 seg -> key_in_path (with_query (lit "/v1/watch/" ++ seg) None) = None.
Proof.
  intros Hs. unfold key_in_path, with_query. rewrite app_nil_r.
  assert (find_slice needle (lit "/v1/watch/" ++ seg) = None) as ->; [|done].
  pose proof (find_slice_absent _ Hs) as Hn. cbn [lit app].
  do 9 (cbn [find_slice]; unfold starts_with at 1; cbn [needle lit length take bytes_eqb];
        match goal with |- context [if ?c then _ else _] => assert (c = false) as -> by (vm_compute; reflexivity) end).
  assert (starts_with needle (47 :: seg) = false) as Hf.
  { apply not_true_is_false. intros Hc. apply bytes_eqb_spec in Hc.
    destruct seg as [|a [|b [|c seg]]]; [done..|]. cbn in Hc. injection Hc as -> -> -> _.
    unfold no_byte in Hs. rewrite !Forall_cons in Hs. by destruct Hs as (_ & _ & Hc & _). }
  cbn [find_slice].
  match goal with |- context [if ?c then _ else _] => assert (c = false) as -> by exact Hf end.
  match goal with |- context [find_slice ?p seg] => change (find_slice p seg) with (find_slice needle seg) end.
  by rewrite Hn.
Qed.

Lemma accept_keyed peek_key on_reject n arrived key rr :
  peek_key arrived = Some key ->
  accept_loop peek_key on_reject n [opened arrived] rr = [Dispatched (shard_for_key key n)].
Proof. intros Hk. cbn. unfold accept_one. by rewrite Hk. Qed.

(** C34: RESP connections are served by the shard of their first key.  When the first
    command of a connection has at least two arguments and the second one ends
    within the 4096 bytes that the accept loop looks at, however the bytes continue,
    the connection is dispatched to the shard that this argument hashes to; the inbox
    of the worker has room. *)
Theorem resp_connections_routed (n : nat) (rr : Z) (name key : bytes) (rest : list bytes) (more : bytes)
    (Hfits : zlen (up_to_key (name :: key :: rest) name key) <= 4096) (Hrest : zlen rest <= 2 ^ 63) :
  accept_loop peek_resp_key reject_resp n [opened (wire (name :: key :: rest) ++ more)] rr
    = [Dispatched (shard_for_key key n)].
Proof. apply accept_keyed. by apply resp_key_peeked. Qed.

Lemma round_robin peek_key on_reject n a b rr :
  (2 <= n)%nat -> 0 <= rr < u64_max -> peek_key a = None -> peek_key b = None ->
  exists i j, accept_loop peek_key on_reject n [opened a; opened b] rr = [Dispatched i; Dispatched j] /\ i <> j.
Proof.
  intros Hn Hrr Ha Hb. cbn. unfold accept_one. rewrite Ha, Hb. cbn.
  exists (Z.to_nat (rr mod Z.of_nat n)), (Z.to_nat ((rr + 1) mod 2 ^ 64 mod Z.of_nat n)). split; [done|].
  rewrite (Z.mod_small (rr + 1)) by zlia. intros Heq.
  pose proof (Z.mod_pos_bound rr (Z.of_nat n)). pose proof (Z.mod_pos_bound (rr + 1) (Z.of_nat n)).
  assert (rr mod Z.of_nat n = (rr + 1) mod Z.of_nat n) as Hm by lia.
  assert ((1 + rr - rr) mod Z.of_nat n = 0) as Hz.
  { rewrite Zminus_mod, Z.add_comm, <- Hm, Z.sub_diag. by apply Z.mod_0_l; lia. }
  replace (1 + rr - rr) with 1 in Hz by lia. rewrite Z.mod_small in Hz; lia.
Qed.

Lemma tls_not_peeked hello : head hello = Some 22 -> peek_resp_key hello = None.
Proof. by destruct hello as [|c hello]; [|intros [= ->]]. Qed.

Lemma watch_not_peeked seg more :
  no_byte 32 seg -> no_byte 10 seg -> no_byte 47 seg -> zlen seg <= 4000 ->
  peek_http_key (request_line (lit "GET") (lit "/v1/watch/" ++ seg) None ++ crlf ++ more) = None.
Proof.
  intros Hs Hl Hsl Hlen. rewrite peek_request_line; [by apply no_key_in_watch_path|by repeat constructor..| | | |].
  - apply Forall_app. split; [by repeat constructor|done].
  - apply Forall_app. split; [by repeat constructor|done].
  - done.
  - unfold request_line. rewrite !zlen_app. change (zlen (lit "GET")) with 3. change (zlen [32]) with 1.
    change (zlen (lit "/v1/watch/")) with 10. change (zlen (lit " HTTP/1.1")) with 9. change (zlen []) with 0. lia.
Qed.

(** What the routing does not see.  (1) Of a TLS connection the accept loop sees
    the handshake, so with two or more shards two such connections in a row are
    served by different shards, whatever keys they use, and a key that one of them
    writes is not there for the other.  (2) A connection that starts with [HELLO 3],
    which [WATCH] asks for, is routed by the key [3].  (3) A connection that opens an
    event stream on [/v1/watch/] is not routed by its key, although the handler
    subscribes on the shard that serves the connection only. *)
Theorem connections_misrouted (n : nat) (rr : Z) (tls1 tls2 more seg1 seg2 : bytes)
    (Hn : (2 <= n)%nat) (Hrr : 0 <= rr < u64_max)
    (Htls1 : head tls1 = Some 22) (Htls2 : head tls2 = Some 22)
    (Hseg1 : no_byte 32 seg1 /\ no_byte 10 seg1 /\ no_byte 47 seg1 /\ zlen seg1 <= 4000)
    (Hseg2 : no_byte 32 seg2 /\ no_byte 10 seg2 /\ no_byte 47 seg2 /\ zlen seg2 <= 4000) :
  (exists i j, accept_loop peek_resp_key reject_resp n [opened tls1; opened tls2] rr
     = [Dispatched i; Dispatched j] /\ i <> j) /\
  accept_loop peek_resp_key reject_resp n [opened (wire [lit "HELLO"; lit "3"] ++ more)] rr
    = [Dispatched (shard_for_key (lit "3") n)] /\
  (exists i j,
     accept_loop peek_http_key reject_http n
       [opened (request_line (lit "GET") (lit "/v1/watch/" ++ seg1) None ++ crlf ++ more);
        opened (request_line (lit "GET") (lit "/v1/watch/" ++ seg2) None ++ crlf ++ more)] rr
     = [Dispatched i; Dispatched j] /\ i <> j).
Proof.
  split_and!.
  - by apply round_robin; try apply tls_not_peeked.
  - apply accept_keyed, resp_key_peeked; [by vm_compute|done].
  - by apply round_robin; try (apply watch_not_peeked; apply Hseg1 || apply Hseg2).
Qed.
End Routed.

(** ** The memory of a shard *)

(** The check keeps its promise when the number of threads is given... *)
Lemma validate_memory cfg t num_cpus :
  threads cfg = Some t -> 0 <= memory_bytes cfg -> validate cfg = Ok tt -> 1 <= memory_per_shard cfg num_cpus.
Proof.
  unfold validate, memory_per_shard, n_threads. intros -> Hm. cbn. repeat case_decide; try done. intros _.
  apply Z.div_le_lower_bound; lia.
Qed.

(** ... and not when it is left to the number of processors. *)
Lemma validate_default_threads :
  validate (mkConfig None 4) = Ok tt /\ memory_per_shard (mkConfig None 4) 8 = 0.
Proof. done. Qed.

(** ** Examples *)

(** Stands for the hash in the examples. *)
Definition sum_hash : FxHash.
Proof.
  refine {| fx_hash b := fold_right Z.add 0 b mod 2 ^ 64 |}.
  intros b. pose proof (Z.mod_pos_bound (fold_right Z.add 0 b) (2 ^ 64)). zlia.
Defined.

#[local] Existing Instance sum_hash.

Lemma resp_connections_routed_witness :
  accept_loop peek_resp_key reject_resp 4 [opened (wire [lit "SET"; lit "user:7"; lit "x"] ++ wire [lit "PING"])] 0
    = [Dispatched (shard_for_key (lit "user:7") 4)].
Proof. apply (resp_connections_routed 4 0 (lit "SET") (lit "user:7") [lit "x"]); by vm_compute. Defined.

Lemma connections_misrouted_witness :
  exists i j, accept_loop peek_http_key reject_http 4
    [opened (request_line (lit "GET") (lit "/v1/watch/" ++ lit "k") None ++ crlf ++ []);
     opened (request_line (lit "GET") (lit "/v1/watch/" ++ lit "k") None ++ crlf ++ [])] 0
  = [Dispatched i; Dispatched j] /\ i <> j.
Proof.
  assert (no_byte 32 (lit "k") /\ no_byte 10 (lit "k") /\ no_byte 47 (lit "k") /\ zlen (lit "k") <= 4000) as Hk
    by (split_and!; by repeat constructor).
  apply (connections_misrouted 4 0 [22] [22] [] (lit "k") (lit "k")); [lia|split; [lia|done]|done|done|done|done].
Defined.
