(* ===== verification/Wakeup.v ===== *)
(** * Inboxes with a wakeup pipe

    Requests reach a worker thread through a queue, and a byte in a pipe interrupts
    its sleep.  The cross-shard requests ([cross_shard.rs]), the handoff commands
    ([handoff.rs]) and the new connections ([lib.rs]) all travel this way.  The file
    models the threads as the interleavings of their steps and proves that no
    request is lost, that they are taken up in order, and that under a fair scheduler
    every one of them is. *)

From stdpp Require Import base tactics list.
From Stdlib Require Import Lia.
From S2P Require Import Prelude.

Open Scope nat_scope.

(** What the worker is doing: in [wakeup.read], or taking requests from the queue. *)
Inductive phase := Reading | Draining | Stopped.

(** How the three inboxes differ: whether a write to a full pipe is dropped or waits,
    how many requests the queue takes, and what the worker does when it finds the
    queue empty and all senders gone. *)
Record inbox := mkInbox { nonblocking : bool; bound : option nat; on_disconnect : phase }.

(** Every request is sent by a new clone of the sender, which the channel of crate
    [futures_channel] always has a slot for. *)
Definition cross_shard_inbox : inbox := mkInbox true None Stopped.
Definition handoff_inbox : inbox := mkInbox false (Some 8) Stopped.
Definition accept_inbox : inbox := mkInbox false (Some 64) Reading.

Module Wakeup.
Section Wakeup.
Context {A : Type} (cfg : inbox) (capacity : nat).

(** [unpoked] counts the senders between their send and their write to the pipe;
    [sent] and [started] record the requests: a request is started when it is taken from
    the queue and given to its handler (for the cross-shard requests, to a new task). *)
Record t := mk {
  queue : list A;
  pipe : nat;
  unpoked : nat;
  worker : phase;
  closed : bool;
  sent : list A;
  started : list A;
}.

Definition init : t := mk [] 0 0 Reading false [] [].

Inductive action :=
| Send (a : A)
| Poke
| Close
| Read (n : nat)
| Take
| Idle
| Eof.

Definition has_room (q : list A) : bool :=
  match bound cfg with None => true | Some b => bool_decide (length q < b) end.

(** The senders. *)
Definition send (a : A) (s : t) : option t :=
  if closed s || negb (has_room (queue s)) then None
  else Some (mk (queue s ++ [a]) (pipe s) (S (unpoked s)) (worker s) (closed s) (sent s ++ [a]) (started s)).

Definition poke_wakeup (s : t) : option t :=
  match unpoked s with
  | O => None
  | S n =>
      if decide (pipe s < capacity)
      then Some (mk (queue s) (S (pipe s)) n (worker s) (closed s) (sent s) (started s))
      else if nonblocking cfg
      then Some (mk (queue s) (pipe s) n (worker s) (closed s) (sent s) (started s))
      else None
  end.

(** All senders and writers are dropped. *)
Definition close (s : t) : option t :=
  if decide (unpoked s = 0)
  then Some (mk (queue s) (pipe s) 0 (worker s) true (sent s) (started s)) else None.

(** The worker: the read of up to 64 bytes, ... *)
Definition read (n : nat) (s : t) : option t :=
  match worker s with
  | Reading =>
      if decide (1 <= n /\ n <= 64 /\ n <= pipe s)
      then Some (mk (queue s) (pipe s - n) (unpoked s) Draining (closed s) (sent s) (started s)) else None
  | _ => None
  end.

(** ... the read that returns 0 because the pipe is closed, ... *)
Definition eof (s : t) : option t :=
  match worker s with
  | Reading =>
      if closed s && bool_decide (pipe s = 0)
      then Some (mk (queue s) (pipe s) (unpoked s) Stopped (closed s) (sent s) (started s)) else None
  | _ => None
  end.

(** ... a request, ... *)
Definition take (s : t) : option t :=
  match worker s, queue s with
  | Draining, a :: q => Some (mk q (pipe s) (unpoked s) Draining (closed s) (sent s) (started s ++ [a]))
  | _, _ => None
  end.

(** ... and the empty queue. *)
Definition idle (s : t) : option t :=
  match worker s, queue s with
  | Draining, [] =>
      Some (mk [] (pipe s) (unpoked s) (if closed s then on_disconnect cfg else Reading)
              (closed s) (sent s) (started s))
  | _, _ => None
  end.

Definition act (a : action) (s : t) : option t :=
  match a with
  | Send r => send r s
  | Poke => poke_wakeup s
  | Close => close s
  | Read n => read n s
  | Take => take s
  | Idle => idle s
  | Eof => eof s
  end.

(** ** Invariant *)

Context (Hcap : 0 < capacity).

(** No wakeup is lost: when requests wait and the worker sleeps, a byte is in the pipe
    or on its way.  A worker that has stopped has left nothing behind. *)
Record inv (s : t) : Prop := {
  inv_fifo : sent s = started s ++ queue s;
  inv_wake : worker s = Reading -> queue s <> [] -> 0 < pipe s + unpoked s;
  inv_stop : worker s = Stopped -> closed s = true /\ queue s = [];
  inv_closed : closed s = true -> unpoked s = 0;
}.

Lemma inv_init : inv init.
Proof. by split. Qed.

Lemma inv_act a s s' : inv s -> act a s = Some s' -> inv s'.
Proof.
  intros [Hf Hw Hs Hc] Ha.
  destruct a; cbn in Ha;
    unfold send, poke_wakeup, close, read, eof, take, idle in Ha;
    repeat case_match; simplify_eq; split; cbn in *; try done; try (by intros; lia); bool_to_prop.
  all: try (rewrite Hf, <- app_assoc; done).
  all: try naive_solver lia.
  all: repeat match goal with
       | H : (_ || _)%bool = false |- _ => apply orb_false_iff in H as [? ?]
       | H : (_ && _)%bool = true |- _ => apply andb_prop in H as [? ?]
       | H : bool_decide _ = true |- _ => apply bool_decide_eq_true in H
       end.
  all: try naive_solver congruence.
  intros _. split; [done|]. destruct (queue s) eqn:Hq; [done|]. specialize (Hw eq_refl). naive_solver lia.
Qed.

(** ** Executions *)

(** An infinite run: in each instant one thread takes a step or none does. *)
Context (e : nat -> t) (l : nat -> option action).
Context (Hinit : e 0 = init).
Context (Hstep : forall n, match l n with Some a => act a (e n) = Some (e (S n)) | None => e (S n) = e n end).

Definition enabled (who : action -> Prop) (s : t) : Prop := exists a, who a /\ is_Some (act a s).

(** A thread that can take a step takes one, unless it no longer can. *)
Definition fair (who : action -> Prop) : Prop :=
  forall n, enabled who (e n) -> exists k, n <= k /\ ((exists a, who a /\ l k = Some a) \/ ~ enabled who (e k)).

Definition by_worker (a : action) : Prop :=
  match a with Read _ | Take | Idle | Eof => True | _ => False end.
Definition by_sender (a : action) : Prop := a = Poke.

Lemma inv_always n : inv (e n).
Proof.
  induction n as [|n IH]; [rewrite Hinit; apply inv_init|]. specialize (Hstep n).
  destruct (l n) as [a|]; [by eapply inv_act|by rewrite Hstep].
Qed.

Context (Hopen : forall n, closed (e n) = false).

(** A state that lasts until a thread takes a step that it can take in it. *)
Lemma leads_to who (P Q : t -> Prop) :
  fair who -> (forall s, inv s -> P s -> enabled who s) ->
  (forall s a s', inv s -> P s -> act a s = Some s' -> closed s' = false -> Q s' \/ P s' /\ ~ who a) ->
  forall n, P (e n) -> exists k, n <= k /\ Q (e k).
Proof.
  intros Hfair Hen Hlast n HP. destruct (Hfair n) as (k & Hk & Hor); [by apply Hen; [apply inv_always|]|].
  assert (forall d, (exists j, n <= j /\ Q (e j)) \/ P (e (n + d))) as Hd.
  { induction d as [|d [IH|IH]]; [right; by rewrite Nat.add_0_r|by left|]. rewrite Nat.add_succ_r.
    pose proof (Hstep (n + d)) as Hs. destruct (l (n + d)) as [a|]; [|right; by rewrite Hs].
    destruct (Hlast _ _ _ (inv_always _) IH Hs (Hopen _)) as [HQ|[HP' _]]; [left|by right].
    exists (S (n + d)). split; [lia|done]. }
  destruct (Hd (k - n)) as [|HPk]; [done|]. replace (n + (k - n)) with k in HPk by lia.
  destruct Hor as [(a & Ha & Hl)|Hne]; [|exfalso; by apply Hne, Hen; [apply inv_always|]].
  pose proof (Hstep k) as Hs. rewrite Hl in Hs. exists (S k). split; [lia|].
  by destruct (Hlast _ _ _ (inv_always _) HPk Hs (Hopen _)) as [|[_ Hno]].
Qed.

Context (Hworker : fair by_worker) (Hsender : fair by_sender).

(** The stations of a request that is not started yet, [c] of them having been
    started so far. *)
Definition waiting (c : nat) (s : t) : Prop := queue s <> [] /\ length (started s) = c.
Definition taken (c : nat) (s : t) : Prop := length (started s) = S c.
Definition draining (c : nat) (s : t) : Prop := worker s = Draining /\ waiting c s.
Definition woken (c : nat) (s : t) : Prop := worker s = Reading /\ 0 < pipe s /\ waiting c s.
Definition asleep (c : nat) (s : t) : Prop := worker s = Reading /\ pipe s = 0 /\ waiting c s.

Ltac act_cases a Ha :=
  destruct a; cbn in Ha; unfold send, poke_wakeup, close, read, eof, take, idle in Ha;
  repeat case_match; simplify_eq; cbn in *; repeat match goal with H : (_ && _)%bool = true |- _ => apply andb_prop in H as [? ?] end;
  try congruence.

Ltac keeps s := right; split; [|first [done | by intros []]]; split_and!; first [done | lia | by destruct (queue s)].

Lemma draining_taken c n : draining c (e n) -> exists k, n <= k /\ taken c (e k).
Proof.
  apply (leads_to by_worker); [done| |].
  - intros s _ (Hw & Hq & _). exists Take. split; [done|]. cbn. unfold take. rewrite Hw. by destruct (queue s).
  - intros s a s' _ (Hw & Hq & Hc) Ha Hop. unfold draining, waiting, taken in *.
    act_cases a Ha; try (left; rewrite length_app; cbn; lia); keeps s.
Qed.

Lemma woken_draining c n : woken c (e n) -> exists k, n <= k /\ draining c (e k).
Proof.
  apply (leads_to by_worker); [done| |].
  - intros s _ (Hw & Hp & _). exists (Read 1). split; [done|]. cbn. unfold read. rewrite Hw, decide_True by lia. done.
  - intros s a s' _ (Hw & Hp & Hq & Hc) Ha Hop. unfold woken, draining, waiting in *.
    act_cases a Ha; try (by left); keeps s.
Qed.

Lemma asleep_woken c n : asleep c (e n) -> exists k, n <= k /\ woken c (e k).
Proof.
  apply (leads_to by_sender); [done| |].
  - intros s Hi (Hw & Hp & Hq & _). exists Poke. split; [done|]. cbn. unfold poke_wakeup.
    pose proof (inv_wake _ Hi Hw Hq). destruct (unpoked s); [lia|]. by rewrite decide_True by lia.
  - intros s a s' _ (Hw & Hp & Hq & Hc) Ha Hop. unfold woken, asleep, waiting in *.
    act_cases a Ha; try lia; try (left; split_and!; done || lia); keeps s.
Qed.

Lemma waiting_taken c n : waiting c (e n) -> exists k, n <= k /\ taken c (e k).
Proof.
  intros Hq. pose proof (inv_always n) as Hi. pose proof (Hopen n) as Ho.
  assert (forall k, n <= k -> draining c (e k) -> exists j, n <= j /\ taken c (e j)) as Hd.
  { intros k Hk (j & Hj & Ht)%draining_taken. exists j. split; [lia|done]. }
  assert (forall k, n <= k -> woken c (e k) -> exists j, n <= j /\ taken c (e j)) as Hw.
  { intros k Hk (j & Hj & Ht)%woken_draining. apply (Hd j); [lia|done]. }
  destruct (worker (e n)) eqn:Hp.
  - destruct (pipe (e n)) eqn:Hb.
    + destruct (asleep_woken c n) as (k & Hk & Ht); [done|]. by apply (Hw k).
    + apply (Hw n); [lia|]. split_and!; [done|lia|apply Hq..].
  - by apply (Hd n).
  - destruct (inv_stop _ Hi Hp). congruence.
Qed.

Lemma sent_act a s s' m r : act a s = Some s' -> sent s !! m = Some r -> sent s' !! m = Some r.
Proof. intros Ha Hm. act_cases a Ha; try done; by apply lookup_app_l_Some. Qed.

Lemma sent_run i m r d : sent (e i) !! m = Some r -> sent (e (i + d)) !! m = Some r.
Proof.
  intros Hm. induction d as [|d IH]; [by rewrite Nat.add_0_r|]. rewrite Nat.add_succ_r.
  pose proof (Hstep (i + d)) as Hs. destruct (l (i + d)) as [a|]; [by eapply sent_act|by rewrite Hs].
Qed.

Lemma handled_eventually m : forall c i r, c + length (started (e i)) = S m -> sent (e i) !! m = Some r ->
  exists j, started (e j) !! m = Some r.
Proof.
  induction c as [|c IH]; intros i r Hc Hm; pose proof (inv_fifo _ (inv_always i)) as Hf; rewrite Hf in Hm.
  - exists i. by rewrite lookup_app_l in Hm by lia.
  - destruct (waiting_taken (length (started (e i))) i) as (k & Hk & Ht).
    { split; [|done]. intros Hq. rewrite Hq, app_nil_r in Hm. apply lookup_lt_Some in Hm. lia. }
    unfold taken in Ht. apply (IH k); [lia|]. rewrite <- Hf in Hm.
    replace k with (i + (k - i)) by lia. by apply sent_run.
Qed.

Lemma sent_handled i m r : sent (e i) !! m = Some r -> exists j, started (e j) !! m = Some r.
Proof.
  intros Hm. destruct (decide (m < length (started (e i)))) as [Hl|Hl].
  - exists i. pose proof (inv_fifo _ (inv_always i)) as Hf. rewrite Hf in Hm. by rewrite lookup_app_l in Hm by lia.
  - apply (handled_eventually m (S m - length (started (e i))) i); [lia|done].
Qed.

(** C31: Every request reaches its handler.  Take any infinite interleaving of the senders
    and the worker of an inbox, with a pipe that holds at least one byte, in which the
    inbox is not closed and neither the worker nor a sender about to write its wakeup
    byte is kept from running for ever.  Then the requests are taken from the queue and
    given to their handlers in the order in which they were sent, none twice, and each
    of them at some time: there is no interleaving in which the worker sleeps while a
    request waits and no byte is under way. *)
Theorem requests_handled :
  (forall n, started (e n) = List.firstn (length (started (e n))) (sent (e n))) /\
  forall i m r, sent (e i) !! m = Some r -> exists j, started (e j) !! m = Some r.
Proof.
  split; [|apply sent_handled]. intros n. rewrite (inv_fifo _ (inv_always n)). by rewrite take_app_length.
Qed.
End Wakeup.

(** ** An example: one request, then nothing *)

Definition ex_actions : list (action (A := nat)) := [Send 7; Poke; Read 1; Take; Idle].
Definition ex_label (n : nat) : option action := ex_actions !! n.

Fixpoint ex_run (n : nat) : t :=
  match n with
  | O => init
  | S n => match ex_label n with
           | Some a => default init (act cross_shard_inbox 1 a (ex_run n))
           | None => ex_run n
           end
  end.

Lemma ex_run_end n : ex_run (5 + n) = ex_run 5.
Proof. induction n as [|n IH]; [done|]. rewrite Nat.add_succ_r. cbn [ex_run]. by rewrite IH. Qed.

Lemma ex_not_enabled who n : (forall a, ~ who (Send a)) -> ~ who Close ->
  5 <= n -> ~ enabled cross_shard_inbox 1 who (ex_run n).
Proof.
  intros Hs Hc Hn (a & Ha & [s' Hact]). replace n with (5 + (n - 5)) in Hact by lia. rewrite ex_run_end in Hact.
  destruct a as [a| | |r| | |]; try done; [by destruct (Hs a)|].
  change (read r (mk [] 0 0 Reading false [7] [7]) = Some s') in Hact. cbn [read worker pipe] in Hact. case_decide; [lia|done].
Qed.

Lemma ex_fair_worker : fair cross_shard_inbox 1 ex_run ex_label by_worker.
Proof.
  intros n _. destruct (decide (5 <= n)) as [Hn|Hn].
  - exists n. split; [done|]. right. apply ex_not_enabled; [by intros a []|by intros []|done].
  - destruct (decide (n <= 2)); [exists 2; split; [done|left; by exists (Read 1)]|].
    exists 4. split; [lia|]. left. by exists Idle.
Qed.

Lemma ex_fair_sender : fair cross_shard_inbox 1 ex_run ex_label by_sender.
Proof.
  intros n Hen. destruct (decide (5 <= n)) as [Hn|Hn].
  - exists n. split; [done|]. right. by apply ex_not_enabled.
  - destruct (decide (n <= 1)); [exists 1; split; [done|left; by exists Poke]|].
    exists n. split; [done|]. right. destruct Hen as (a & -> & [s' Hact]).
    destruct n as [|[|[|[|[|n]]]]]; try lia; done.
Qed.

Lemma requests_handled_witness : exists j, started (ex_run j) !! 0 = Some 7.
Proof.
  apply (requests_handled cross_shard_inbox 1 ltac:(lia) ex_run ex_label eq_refl) with (i := 1) (m := 0).
  - intros n. do 5 (destruct n as [|n]; [reflexivity|]). cbn [ex_run ex_label]. reflexivity.
  - intros n. do 5 (destruct n as [|n]; [reflexivity|]). change (closed (ex_run (5 + n)) = false). by rewrite ex_run_end.
  - apply ex_fair_worker.
  - apply ex_fair_sender.
  - reflexivity.
Defined.
End Wakeup.

(** ** The connections of a worker, [lib.rs] *)

Module ServeLoop.
(** The counter that the connections share, the gauge of the metrics, and the guards
    that are alive. *)
Record t := mk { conn_count : nat; gauge : nat; guards : nat }.

Definition init : t := mk 0 0 0.

(** [ConnGuard::new] and its [drop]; the counter saturates. *)
Definition new_guard (s : t) : t := mk (conn_count s) (S (gauge s)) (S (guards s)).
Definition drop_guard (s : t) : t := mk (conn_count s - 1) (gauge s - 1) (guards s - 1).

(** One connection of the inbox; the flags say whether [set_nonblocking] and
    [from_std] succeed.  The result says whether [on_conn] was called. *)
Definition accept (max_conns : nat) (nonblocking_ok from_std_ok : bool) (s : t) : bool * t :=
  if decide (max_conns <= conn_count s) then (false, s)
  else if negb nonblocking_ok then (false, s)
  else if from_std_ok then (true, new_guard (mk (S (conn_count s)) (gauge s) (guards s)))
  else (false, s).

Inductive event := Conn (nonblocking_ok from_std_ok : bool) | Closed.

(** A guard is dropped when the task of its connection ends. *)
Definition serve_step (max_conns : nat) (s : t) (ev : event) : t :=
  match ev with
  | Conn nb std => (accept max_conns nb std s).2
  | Closed => if decide (guards s = 0) then s else drop_guard s
  end.

Lemma serve_bounded max_conns evs :
  let s := foldl (serve_step max_conns) init evs in
  conn_count s = guards s /\ gauge s = guards s /\ guards s <= max_conns.
Proof.
  induction evs as [|ev evs IH] using rev_ind; [cbn; lia|]. rewrite foldl_app. cbn [foldl].
  destruct (foldl _ _ evs) as [c g n]. cbn in *. destruct ev as [nb std|]; cbn.
  - unfold accept. cbn. case_decide; [done|]. destruct nb, std; cbn; lia.
  - case_decide; cbn; [done|lia].
Qed.

(** A connection is accepted whenever the worker has fewer than its limit. *)
Lemma serve_accepts max_conns s : conn_count s < max_conns -> (accept max_conns true true s).1 = true.
Proof. intros Hc. unfold accept. by rewrite decide_False by lia. Qed.
End ServeLoop.
