(* ===== verification/Messages.v ===== *)
(** * The text of errors

    The [Display] of [EngineError] ([crates/engine/src/error.rs]) and [ProtoError]
    ([crates/proto/src/error.rs]), which the server sends to its clients. *)

From stdpp Require Import base tactics list strings.
From Stdlib Require Import ZArith Lia.
From S2P Require Import Prelude Ascii Command.

Open Scope Z_scope.
Open Scope lit_scope.

(** The texts that other code gives: errors of the operating system and of crate
    [serde_json], the [Debug] form of [Bytes] (crate [bytes]), and the errors of the
    channels of crate [futures_channel]. *)
Class Messages := {
  io_message : IoKind -> bytes;
  json_message : bytes;
  bytes_debug : bytes -> bytes;
  canceled_message : bytes;
  try_send_message : bytes;
}.

(** A lower-case hexadecimal digit. *)
Definition hex_digit (n : Z) : Z := if n <? 10 then 48 + n else 87 + n.

(** [u8::escape_ascii]. *)
Definition escape_byte (c : Z) : bytes :=
  if c =? 9 then lit "\t" else if c =? 13 then lit "\r" else if c =? 10 then lit "\n"
  else if (c =? 39) || (c =? 34) || (c =? 92) then [92; c]
  else if (32 <=? c) && (c <=? 126) then [c]
  else lit "\x" ++ [hex_digit (c / 16); hex_digit (c mod 16)].

Definition escape_ascii (b : bytes) : bytes := concat (escape_byte <$> b).

(** The [Debug] form of a string; bytes above the ASCII range are taken to be
    printable. *)
Definition debug_char (c : Z) : bytes :=
  if c =? 0 then lit "\0" else if c =? 9 then lit "\t" else if c =? 13 then lit "\r" else if c =? 10 then lit "\n"
  else if (c =? 34) || (c =? 92) then [92; c]
  else if (c <? 32) || (c =? 127)
  then lit "\u{" ++ (if c <? 16 then [hex_digit c] else [hex_digit (c / 16); hex_digit (c mod 16)]) ++ lit "}"
  else [c].

Definition debug_str (b : bytes) : bytes := [34] ++ concat (debug_char <$> b) ++ [34].

Section Display.
Context `{Messages}.

Definition engine_to_string (e : EngineError) : bytes :=
  match e with
  | Io source => lit "io: " ++ io_message source
  | CrcMismatch offset => lit "crc mismatch at offset " ++ show_u64 offset
  | BadRecord offset reason => lit "malformed record at offset " ++ show_u64 offset ++ lit ": " ++ lit reason
  | InvalidNamespace name => lit "invalid namespace name: " ++ debug_str name
  | MetadataJson => lit "metadata json: " ++ json_message
  | ReclamationBusy => lit "reclaim or flush already in progress on this namespace"
  | CapacityExceeded reason => lit "capacity exceeded: " ++ lit reason
  | InvalidInput reason => lit "invalid input: " ++ lit reason
  | Conflict reason => lit "conflict: " ++ lit reason
  | Frozen => lit "write rejected: store is frozen for handoff"
  | TestSealFailure => lit "test-only seal failure (KV_TEST_FAIL_ONCE_FILE signal was present)"
  end.

Definition proto_to_string (e : ProtoError) : bytes :=
  match e with
  | WrongArity cmd => lit "wrong number of arguments for '" ++ lit cmd ++ lit "' command"
  | InvalidInteger raw => lit "value is not an integer or out of range: " ++ bytes_debug raw
  | InvalidExpiry raw => lit "invalid expire time: " ++ bytes_debug raw
  | Syntax token => lit "syntax error near " ++ bytes_debug token
  | UnknownCommand cmd => lit "unknown command '" ++ escape_ascii cmd ++ lit "'"
  | InvalidFormat reason => lit "invalid command format: " ++ lit reason
  | DbIndexOutOfRange => lit "DB index is out of range"
  end.
End Display.

Definition printable (b : bytes) : Prop := Forall (fun x => 32 <= x <= 126) b.

Lemma printable_app a b : printable a -> printable b -> printable (a ++ b).
Proof. intros. by apply Forall_app. Qed.

Lemma hex_digit_range n : 0 <= n <= 15 -> 32 <= hex_digit n <= 126.
Proof. intros Hn. unfold hex_digit. destruct (Z.ltb_spec n 10); lia. Qed.

Lemma escape_byte_printable c : is_u8 c -> printable (escape_byte c).
Proof.
  intros Hc. unfold escape_byte.
  destruct (c =? 9); [by repeat constructor|]. destruct (c =? 13); [by repeat constructor|].
  destruct (c =? 10); [by repeat constructor|].
  destruct ((c =? 39) || (c =? 34) || (c =? 92)) eqn:Hq.
  { repeat constructor; try lia; repeat (apply orb_prop in Hq as [Hq|Hq]); apply Z.eqb_eq in Hq; lia. }
  destruct ((32 <=? c) && (c <=? 126)) eqn:Hp.
  { apply andb_prop in Hp as [H1%Z.leb_le H2%Z.leb_le]. by repeat constructor. }
  pose proof (Z.mod_pos_bound c 16 ltac:(lia)). pose proof (Z.div_pos c 16). pose proof (Z.div_lt_upper_bound c 16 16).
  apply printable_app; [by repeat constructor|].
  apply Forall_cons. split; [|apply Forall_singleton]; apply hex_digit_range; zlia.
Qed.

Lemma escape_ascii_printable b : is_bytes b -> printable (escape_ascii b).
Proof.
  unfold escape_ascii. induction 1 as [|c b Hc _ IH]; [constructor|]. cbn [fmap list_fmap concat].
  apply printable_app; [by apply escape_byte_printable|done].
Qed.

(** A name that is not a command, whatever its bytes are, is reported on one line. *)
Lemma unknown_command_printable `{Messages} cmd : is_bytes cmd -> printable (proto_to_string (UnknownCommand cmd)).
Proof.
  intros Hc. cbn [proto_to_string]. apply printable_app; [|apply printable_app; [by apply escape_ascii_printable|]].
  all: apply (bool_decide_unpack _); vm_compute; exact I.
Qed.
