(* ===== verification/CrossShard.v ===== *)
(** * Requests between shards, [crates/server/src/cross_shard.rs]

    A server is a list of shards, each with its own store and thread.  A command
    that needs another shard sends it a request and waits for the reply.  The file
    has the requests with the type of their replies, what a shard does with them, and
    the call of one shard by another.

    A command is one step of the server here: a request is handled when it is sent.
    Since the shards share nothing, requests of one command to different shards do
    not see each other's effects in any order. *)

From stdpp Require Import base tactics list gmap strings.
From Stdlib Require Import ZArith Lia.
From S2P Require Import Prelude Record Index LogFile ValueStore Recover NsLog Reclaim Ascii Command Glob Cache Watch Stream Store Messages.

Open Scope Z_scope.
Open Scope lit_scope.

Notation sresult := (result bytes).

Module CrossShard.
(** [OwnedKeyFilter]. *)
Inductive OwnedKeyFilter := OwnedExact (k : bytes) | OwnedPrefix (p : bytes).

Definition as_filter (f : OwnedKeyFilter) : KeyFilter :=
  match f with OwnedExact k => Exact k | OwnedPrefix p => Prefix p end.

Section Requests.
Context {crc_impl : CrcFast} {blake : Blake3} `{Mpsc} `{Memchr} `{Messages}.

(** A request, with the type of what its reply channel carries; the receiver of a
    subscription is its channel. *)
Inductive CrossShardRequest : Type -> Type :=
| MGet (ns : bytes) (keys : list (nat * bytes)) : CrossShardRequest (list (nat * option Entry))
| MSet (ns : bytes) (pairs : list (bytes * bytes)) : CrossShardRequest unit
| Del (ns : bytes) (keys : list bytes) : CrossShardRequest Z
| Exists (ns : bytes) (keys : list bytes) : CrossShardRequest Z
| DbSize (ns : bytes) : CrossShardRequest Z
| FlushDb (ns : bytes) : CrossShardRequest unit
| Scan (ns cursor : bytes) (pattern : option bytes) (count : Z) : CrossShardRequest ScanPage
| AllKeys (ns : bytes) (pattern : option bytes) : CrossShardRequest (list bytes)
| Set_ (ns key value : bytes) (opts : SetOptions) : CrossShardRequest unit
| Incr (ns key : bytes) (delta : Z) : CrossShardRequest Z
| DelRev (ns key : bytes) (revision : Z) : CrossShardRequest (option unit)
| SetNx (ns key value : bytes) (opts : SetOptions) : CrossShardRequest bool
| SetXx (ns key value : bytes) (opts : SetOptions) : CrossShardRequest bool
| SetRev (ns key value : bytes) (opts : SetOptions) (revision : Z) : CrossShardRequest (option Z)
| GetDel (ns key : bytes) (orig_idx : nat) : CrossShardRequest (nat * option Entry)
| WatchSubscribe (ns : bytes) (filter : OwnedKeyFilter) (since : Z) : CrossShardRequest (list WatchEvent * nat).

Abbreviation store := ShardStore.t.

(** Clocks and file systems of one shard. *)
Context (clock_at instant_at : nat -> Z) (io_at : nat -> faults).

(** [.map_err(|e| e.to_string())]. *)
Definition stringly {A} (m : ST store EngineError A) : ST store bytes A := fun s =>
  match m s with
  | (Ok a, s) => (Ok a, s)
  | (Err e, s) => (Err (engine_to_string e), s)
  end.

(** The loop over the pages of [scan]; it ends when the cursor is [0], and there are
    no more pages than keys and one more. *)
Fixpoint all_keys_loop (fuel : nat) (ns : bytes) (pattern : option bytes) (cursor : bytes) (all : list bytes)
    : ST store EngineError (option (list bytes)) :=
  match fuel with
  | O => mret None
  | S fuel =>
      page ← ShardStore.scan clock_at ns cursor pattern 512;
      let all := all ++ page_keys page in
      if next_cursor page =b lit "0" then mret (Some all)
      else all_keys_loop fuel ns pattern (next_cursor page) all
  end.

Definition key_count (ns : bytes) (s : store) : nat :=
  match ShardStore.namespaces s !! ns with
  | Some l => size (NsIndex.map (NsLog.index l))
  | None => O
  end.

(** The namespace is open after the first page, and then it has this many keys.  The
    loop does not run out ([all_keys_ends] in [Keys]), so the error for that case does not
    occur. *)
Definition all_keys (ns : bytes) (pattern : option bytes) : ST store EngineError (list bytes) := fun s =>
  let '(_, opened) := ShardStore.ensure_ns ns s in
  match all_keys_loop (S (S (key_count ns opened))) ns pattern (lit "0") [] s with
  | (Ok (Some all), s) => (Ok all, s)
  | (Ok None, s) => (Err Frozen, s)
  | (Err e, s) => (Err e, s)
  end.

Definition handle {R} (req : CrossShardRequest R) : ST store bytes R :=
  match req with
  | MGet ns keys =>
      entries ← stringly (ShardStore.mget clock_at instant_at io_at ns keys.*2);
      mret (zip keys.*1 entries)
  | MSet ns pairs => stringly (ShardStore.mset clock_at io_at ns pairs)
  | Del ns keys => stringly (ShardStore.del clock_at io_at ns keys)
  | Exists ns keys => stringly (ShardStore.exists_ clock_at ns keys)
  | DbSize ns => stringly (ShardStore.db_size ns)
  | FlushDb ns => stringly (ShardStore.flush_db clock_at ns)
  | Scan ns cursor pattern count => stringly (ShardStore.scan clock_at ns cursor pattern count)
  | AllKeys ns pattern => stringly (all_keys ns pattern)
  | Set_ ns key value opts => stringly (ShardStore.set clock_at io_at ns key value opts)
  | Incr ns key delta => stringly (ShardStore.incr clock_at io_at ns key delta)
  | DelRev ns key revision => stringly (ShardStore.delrev clock_at io_at ns key revision)
  | SetNx ns key value opts => stringly (ShardStore.setnx clock_at io_at ns key value opts)
  | SetXx ns key value opts => stringly (ShardStore.setxx clock_at io_at ns key value opts)
  | SetRev ns key value opts revision => stringly (ShardStore.setrev clock_at io_at ns key value opts revision)
  | GetDel ns key orig_idx =>
      e ← stringly (ShardStore.getdel clock_at instant_at io_at ns key);
      mret (orig_idx, e)
  | WatchSubscribe ns filter since => stringly (ShardStore.watch_subscribe clock_at ns (as_filter filter) since)
  end.
End Requests.
End CrossShard.

(** ** The server *)

Module Cluster.
Section Cluster.
Context {crc_impl : CrcFast} {blake : Blake3} `{Mpsc} `{Memchr} `{Messages}.

(** How a command that does not reach its end fails: with a message for the client,
    or by a panic, which ends the process. *)
Inductive failure := Failed (msg : bytes) | Panicked.

(** The stores of the shards. *)
Abbreviation cluster := (list ShardStore.t).
Abbreviation D := (ST cluster failure).

(** Each shard has its clocks and its file system. *)
Context (clock_at instant_at : nat -> nat -> Z) (io_at : nat -> nat -> faults).

(** What the channel to a shard does: the shard answers; its receiver is gone; or the
    request is taken and its reply dropped, before or after it was handled. *)
Inductive link := Up | Closed | Lost (handled : bool).
Context (links : nat -> link).

(** A method of the store of a shard. *)
Definition call {A} (shard : nat) (m : ST ShardStore.t EngineError A) : D (eresult A) := fun c =>
  match c !! shard with
  | Some s => let '(r, s) := m s in (Ok r, <[shard := s]> c)
  | None => (Err Panicked, c)
  end.

(** [.await.map_err(|e| e.to_string())?]. *)
Definition call_str {A} (shard : nat) (m : ST ShardStore.t EngineError A) : D A :=
  r ← call shard m;
  match r with
  | Ok a => mret a
  | Err e => st_err (Failed (engine_to_string e))
  end.

(** [txs[shard].clone().try_send(req)]: [None] when the channel refuses the request,
    otherwise what will come out of the reply channel, which is nothing when the
    reply is dropped.  An index out of range panics. *)
Definition send_to {R} (shard : nat) (req : CrossShard.CrossShardRequest R) : D (option (option (sresult R))) := fun c =>
  match c !! shard with
  | None => (Err Panicked, c)
  | Some s =>
      let '(r, s') := CrossShard.handle (clock_at shard) (instant_at shard) (io_at shard) req s in
      match links shard with
      | Up => (Ok (Some (Some r)), <[shard := s']> c)
      | Closed => (Ok None, c)
      | Lost handled => (Ok (Some None), if handled then <[shard := s']> c else c)
      end
  end.

(** [format!("shard {shard} unavailable")]. *)
Definition unavailable (shard : nat) : bytes := lit "shard " ++ show_u64 (Z.of_nat shard) ++ lit " unavailable".

(** The outcome of waiting for a reply, [dropped] being the message for a reply that
    does not come. *)
Definition await {R} (dropped : bytes) (reply : option (sresult R)) : D R :=
  match reply with
  | Some (Ok a) => mret a
  | Some (Err e) => st_err (Failed e)
  | None => st_err (Failed dropped)
  end.
End Cluster.
End Cluster.
