(* ===== verification/Dispatch.v ===== *)
(** * Commands, [crates/server/src/dispatch.rs]

    [dispatch] runs a parsed command for a connection.  Single-key commands go to the
    store of the shard that serves the connection; [MGET], [MSET], [DEL] and [EXISTS]
    send each key to the shard it hashes to, [DBSIZE], [FLUSHDB], [KEYS] and [SCAN] go
    to all shards.  The counters and timers of the metrics and the tracing spans are
    not modelled; the label that [dispatch] counts a command under is. *)

From stdpp Require Import base tactics list gmap strings.
From Stdlib Require Import ZArith Lia.
From S2P Require Import Prelude Record Index LogFile ValueStore Recover NsLog Reclaim Ascii Command Glob Cache Watch Stream Store Routing Messages CrossShard.

Open Scope Z_scope.
Open Scope lit_scope.

(** [resp.rs]: [ConnState].  Of the senders only their number matters here; the
    wakeups are in [Wakeup]. *)
Record ConnState := mkConn {
  cs_ns : bytes;
  resp_version : Z;
  quit : bool;
  shard_idx : nat;
  n_shards : nat;
  cross_shard_txs : option nat;
}.

Definition ConnState_default : ConnState := mkConn DEFAULT_NS 2 false 0 1 None.

Definition with_ns (ns : bytes) (st : ConnState) : ConnState :=
  mkConn ns (resp_version st) (quit st) (shard_idx st) (n_shards st) (cross_shard_txs st).
Definition with_version (v : Z) (st : ConnState) : ConnState :=
  mkConn (cs_ns st) v (quit st) (shard_idx st) (n_shards st) (cross_shard_txs st).
Definition with_quit (q : bool) (st : ConnState) : ConnState :=
  mkConn (cs_ns st) (resp_version st) q (shard_idx st) (n_shards st) (cross_shard_txs st).

Definition SCAN_CURSOR_PREFIX : Z := 2.
Definition KEYS_SCAN_LIMIT : Z := 1000000.

Module Dispatch.
Section Dispatch.
Context {crc_impl : CrcFast} {blake : Blake3} `{Mpsc} `{Memchr} `{Messages} `{FxHash}.
Context (clock_at instant_at : nat -> nat -> Z) (io_at : nat -> nat -> faults) (links : nat -> Cluster.link).

(** The outcome of the file operations of a reclaim on a shard, and the version of
    the package. *)
Context (merges : nat -> list merge_faults) (pkg_version : bytes).
Import Cluster.

Abbreviation D := (ST (list ShardStore.t) failure).
Abbreviation send_to := (Cluster.send_to clock_at instant_at io_at links).

(** ** Clocks and options *)

(** The clock of the thread that runs the command. *)
Definition now_unix_ms (st : ConnState) : D Z :=
  r ← call (shard_idx st) (ShardStore.now_ms (clock_at (shard_idx st)));
  mret (match r with Ok ms => ms | Err _ => 0 end).

Definition now_unix_secs (st : ConnState) : D Z := ms ← now_unix_ms st; mret (ms / 1000).

(** A [Duration] is its number of milliseconds. *)
Definition ttl_duration_from_spec (st : ConnState) (ttl : Command.SetTtl) : D Z :=
  match ttl with
  | Seconds s => mret (s * 1000)
  | Millis ms => mret ms
  | UnixSecs ts => now ← now_unix_secs st; mret (sat_sub ts now * 1000)
  | UnixMillis ts => now ← now_unix_ms st; mret (sat_sub ts now)
  end.

Definition opt_ttl (st : ConnState) (ttl : option Command.SetTtl) : D (option Z) :=
  match ttl with
  | None => mret None
  | Some t => d ← ttl_duration_from_spec st t; mret (Some d)
  end.

(** Metadata that is not JSON is dropped. *)
Definition set_opts_from_args (st : ConnState) (args : SetArgs) : D SetOptions :=
  let metadata := b ← sa_meta args; match json_from_slice b with Ok v => Some v | Err _ => None end in
  ttl ← opt_ttl st (sa_ttl args);
  mret (mkSetOptions ttl metadata (sa_keep_ttl args)).

(** ** Replies *)

Definition err_reply (e : EngineError) : Value := response.error (lit "ERR") (engine_to_string e).

Definition bulk_or_nil (r : eresult (option Entry)) : Value :=
  match r with
  | Ok (Some entry) => response.bulk (e_value entry)
  | Ok None => response.nil
  | Err e => err_reply e
  end.

Definition ok_or_nil (r : eresult bool) : Value :=
  match r with
  | Ok true => response.ok
  | Ok false => response.nil
  | Err e => err_reply e
  end.

Definition one_or_zero (r : eresult bool) : Value :=
  match r with
  | Ok true => response.integer 1
  | Ok false => response.integer 0
  | Err e => err_reply e
  end.

Definition rev_or_conflict (r : eresult (option Z)) : Value :=
  match r with
  | Ok (Some new_rev) => response.integer (as_i64 new_rev)
  | Ok None => response.error (lit "CONFLICT") (lit "revision mismatch")
  | Err e => err_reply e
  end.

Definition ttl_reply (r : eresult TtlResult) : Value :=
  match r with
  | Ok (Remaining n) => response.integer (as_i64 n)
  | Ok NoExpiry => response.integer (-1)
  | Ok NotFound => response.integer (-2)
  | Err e => err_reply e
  end.

(** A command whose failure is a message for the client; a panic goes on. *)
Definition or_error {A} (m : D A) (f : A -> Value) : D Value := fun c =>
  match m c with
  | (Ok a, c) => (Ok (f a), c)
  | (Err (Failed e), c) => (Ok (response.error (lit "ERR") e), c)
  | (Err Panicked, c) => (Err Panicked, c)
  end.

(** ** Fan-out to all shards *)

Definition fan_out_txs (st : ConnState) : option nat :=
  if decide (n_shards st <= 1)%nat then None else cross_shard_txs st.

(** The loop that sends a request to every shard. *)
Fixpoint send_all {R} (req : CrossShard.CrossShardRequest R) (shards : list nat) : D (list (option (sresult R))) :=
  match shards with
  | [] => mret []
  | shard :: shards =>
      sent ← send_to shard req;
      match sent with
      | None => st_err (Failed (unavailable shard))
      | Some reply => replies ← send_all req shards; mret (reply :: replies)
      end
  end.

(** The loop over the results of [join_all]. *)
Fixpoint await_all {R} (dropped : bytes) (replies : list (option (sresult R))) : D (list R) :=
  match replies with
  | [] => mret []
  | reply :: replies => a ← await dropped reply; rest ← await_all dropped replies; mret (a :: rest)
  end.

Definition sum (ns : list Z) : Z := foldr Z.add 0 ns.

Definition dispatch_dbsize (st : ConnState) : D Z :=
  match fan_out_txs st with
  | None => call_str (shard_idx st) (ShardStore.db_size (cs_ns st))
  | Some txs =>
      replies ← send_all (CrossShard.DbSize (cs_ns st)) (seq 0 txs);
      counts ← await_all canceled_message replies;
      mret (sum counts)
  end.

Definition dispatch_flushdb (st : ConnState) : D unit :=
  match fan_out_txs st with
  | None => call_str (shard_idx st) (ShardStore.flush_db (clock_at (shard_idx st)) (cs_ns st))
  | Some txs =>
      replies ← send_all (CrossShard.FlushDb (cs_ns st)) (seq 0 txs);
      await_all canceled_message replies;;
      mret tt
  end.

Definition dispatch_keys (pattern : option bytes) (st : ConnState) : D (list bytes) :=
  match fan_out_txs st with
  | None => call_str (shard_idx st) (CrossShard.all_keys (clock_at (shard_idx st)) (cs_ns st) pattern)
  | Some txs =>
      replies ← send_all (CrossShard.AllKeys (cs_ns st) pattern) (seq 0 txs);
      pages ← await_all canceled_message replies;
      mret (concat pages)
  end.

(** ** [SCAN] *)

(** The shard and its cursor in the cursor of a client; [cursor[1]] panics when the
    cursor is the prefix alone. *)
Definition decode_cursor (cursor : bytes) : D (nat * bytes) :=
  match cursor with
  | c :: rest =>
      if c =? SCAN_CURSOR_PREFIX then
        match rest with
        | shard :: inner => mret (Z.to_nat shard, inner)
        | [] => st_err Panicked
        end
      else mret (O, lit "0")
  | [] => mret (O, lit "0")
  end.

(** The shard is written as one byte. *)
Definition encode_cursor (shard : nat) (inner : bytes) : bytes :=
  [SCAN_CURSOR_PREFIX; Z.of_nat shard mod 256] ++ inner.

Definition next_scan_cursor (st : ConnState) (target_shard : nat) (page : ScanPage) : bytes :=
  if next_cursor page =b lit "0" then
    let next_shard := S target_shard in
    if decide (n_shards st <= next_shard)%nat then lit "0" else encode_cursor next_shard (lit "0")
  else encode_cursor target_shard (next_cursor page).

Definition dispatch_scan (cursor : bytes) (pattern : option bytes) (count : Z) (st : ConnState) : D ScanPage :=
  let local := fun cursor =>
    call_str (shard_idx st) (ShardStore.scan (clock_at (shard_idx st)) (cs_ns st) cursor pattern count) in
  match fan_out_txs st with
  | None => local cursor
  | Some txs =>
      '(target_shard, per_shard_cursor) ← decode_cursor cursor;
      page ←
        (if decide (target_shard = shard_idx st) then local per_shard_cursor
         else if decide (txs <= target_shard)%nat then st_err Panicked
         else
           sent ← send_to target_shard (CrossShard.Scan (cs_ns st) per_shard_cursor pattern count);
           match sent with
           | None => st_err (Failed (unavailable target_shard))
           | Some reply => await canceled_message reply
           end);
      mret (mkScanPage (next_scan_cursor st target_shard page) (page_keys page))
  end.

(** ** Fan-out by key *)

(** [buckets[s].get_or_insert_with(..).push(x)]. *)
Definition push_bucket {A} (s : nat) (x : A) (buckets : list (option (list A))) : list (option (list A)) :=
  alter (fun b => Some (default [] b ++ [x])) s buckets.

Fixpoint fill_buckets {A} (key : A -> bytes) (n : nat) (items : list A) (buckets : list (option (list A)))
    : list (option (list A)) :=
  match items with
  | [] => buckets
  | x :: items => fill_buckets key n items (push_bucket (shard_for_key (key x) n) x buckets)
  end.

Definition bucket_by {A} (key : A -> bytes) (items : list A) (n : nat) : list (option (list A)) :=
  fill_buckets key n items (replicate n None).

Definition bucket_by_shard (keys : list bytes) (n_shards : nat) : list (option (list (nat * bytes))) :=
  bucket_by snd (imap (fun i k => (i, k)) keys) n_shards.

(** The loop that sends the buckets of the other shards and keeps the local one. *)
Fixpoint send_buckets {A R} (self : nat) (req : list A -> CrossShard.CrossShardRequest R)
    (shard : nat) (buckets : list (option (list A))) (local : option (list A))
    : D (option (list A) * list (option (sresult R))) :=
  match buckets with
  | [] => mret (local, [])
  | None :: buckets => send_buckets self req (S shard) buckets local
  | Some bucket :: buckets =>
      if decide (shard = self) then send_buckets self req (S shard) buckets (Some bucket)
      else
        sent ← send_to shard (req bucket);
        match sent with
        | None => st_err (Failed (unavailable shard))
        | Some reply =>
            '(local, replies) ← send_buckets self req (S shard) buckets local;
            mret (local, reply :: replies)
        end
  end.

Definition reply_dropped : bytes := lit "cross-shard reply dropped".

(** [results[orig_idx] = entry]. *)
Definition put_results (entries : list (nat * option Entry)) (results : list (option Entry)) : list (option Entry) :=
  foldl (fun rs ie => <[ie.1 := ie.2]> rs) results entries.

(** Whether every bucket but the own one is empty. *)
Fixpoint others_empty {A} (self shard : nat) (buckets : list (option (list A))) : bool :=
  match buckets with
  | [] => true
  | b :: buckets =>
      (bool_decide (shard = self) || match b with None => true | Some _ => false end) &&
      others_empty self (S shard) buckets
  end.

Definition dispatch_mget (keys : list bytes) (st : ConnState) : D (list (option Entry)) :=
  let self := shard_idx st in
  let local := fun ks =>
    call_str self (ShardStore.mget (clock_at self) (instant_at self) (io_at self) (cs_ns st) ks) in
  match fan_out_txs st with
  | None => local keys
  | Some _ =>
      let buckets := bucket_by_shard keys (n_shards st) in
      if others_empty self 0 buckets then local keys else
      '(local_bucket, pending) ← send_buckets self (CrossShard.MGet (cs_ns st)) 0 buckets None;
      let results := replicate (length keys) None in
      results ←
        match local_bucket with
        | Some bucket => entries ← local bucket.*2; mret (put_results (zip bucket.*1 entries) results)
        | None => mret results
        end;
      gathered ← await_all reply_dropped pending;
      mret (foldl (fun rs entries => put_results entries rs) results gathered)
  end.

Definition all_local {A} (key : A -> bytes) (st : ConnState) (items : list A) : bool :=
  forallb (fun x => bool_decide (shard_for_key (key x) (n_shards st) = shard_idx st)) items.

(** [buckets[i].take().unwrap_or_default()]. *)
Definition take_bucket {A} (i : nat) (buckets : list (option (list A))) : list A :=
  default [] (b ← buckets !! i; b).

Definition dispatch_mset (pairs : list (bytes * bytes)) (st : ConnState) : D unit :=
  let self := shard_idx st in
  let local := fun ps => call_str self (ShardStore.mset (clock_at self) (io_at self) (cs_ns st) ps) in
  match fan_out_txs st with
  | None => local pairs
  | Some _ =>
      let buckets := bucket_by fst pairs (n_shards st) in
      if all_local fst st pairs then local (take_bucket self buckets) else
      '(local_pairs, pending) ← send_buckets self (CrossShard.MSet (cs_ns st)) 0 buckets None;
      match local_pairs with Some ps => local ps | None => mret tt end;;
      await_all reply_dropped pending;;
      mret tt
  end.

(** [DEL] and [EXISTS] differ in the request and in the method of the store. *)
Definition dispatch_count (keys : list bytes) (st : ConnState)
    (method : list bytes -> ST ShardStore.t EngineError Z) (req : list bytes -> CrossShard.CrossShardRequest Z) : D Z :=
  let self := shard_idx st in
  let local := fun ks => call_str self (method ks) in
  match fan_out_txs st with
  | None => local keys
  | Some _ =>
      let buckets := bucket_by id keys (n_shards st) in
      if all_local id st keys then local (take_bucket self buckets) else
      '(local_keys, pending) ← send_buckets self req 0 buckets None;
      total ← match local_keys with Some ks => local ks | None => mret 0 end;
      counts ← await_all reply_dropped pending;
      mret (total + sum counts)
  end.

Definition dispatch_del (keys : list bytes) (st : ConnState) : D Z :=
  dispatch_count keys st
    (ShardStore.del (clock_at (shard_idx st)) (io_at (shard_idx st)) (cs_ns st)) (CrossShard.Del (cs_ns st)).

Definition dispatch_exists (keys : list bytes) (st : ConnState) : D Z :=
  dispatch_count keys st
    (ShardStore.exists_ (clock_at (shard_idx st)) (cs_ns st)) (CrossShard.Exists (cs_ns st)).

(** ** All commands *)

(** The store of the connection. *)
Definition own {A} (st : ConnState) (m : (nat -> Z) -> (nat -> Z) -> (nat -> faults) -> bytes -> ST ShardStore.t EngineError A)
    : D (eresult A) :=
  let i := shard_idx st in call i (m (clock_at i) (instant_at i) (io_at i) (cs_ns st)).

Definition store_get (key : bytes) (st : ConnState) : D (eresult (option Entry)) :=
  own st (fun ck it io ns => ShardStore.get ck it io ns key).
Definition store_del (keys : list bytes) (st : ConnState) : D (eresult Z) :=
  own st (fun ck _ io ns => ShardStore.del ck io ns keys).
Definition store_expire (key : bytes) (ttl : Z) (st : ConnState) : D (eresult bool) :=
  own st (fun ck it io ns => ShardStore.expire ck it io ns key ttl).
Definition store_getset (key value : bytes) (st : ConnState) : D (eresult (option Entry)) :=
  own st (fun ck it io ns => ShardStore.getset ck it io ns key value).
Definition store_setrev (key value : bytes) (opts : SetOptions) (rev : Z) (st : ConnState) : D (eresult (option Z)) :=
  own st (fun ck _ io ns => ShardStore.setrev ck io ns key value opts rev).

Definition do_incr (key : bytes) (delta : Z) (st : ConnState) : D Value :=
  r ← own st (fun ck _ io ns => ShardStore.incr ck io ns key delta);
  mret (match r with Ok n => response.integer n | Err e => err_reply e end).

Definition dispatch_set (key value : bytes) (args : SetArgs) (st : ConnState) : D Value :=
  opts ← set_opts_from_args st args;
  match sa_condition args with
  | Nx => ok_or_nil <$> own st (fun ck _ io ns => ShardStore.setnx ck io ns key value opts)
  | Xx => ok_or_nil <$> own st (fun ck _ io ns => ShardStore.setxx ck io ns key value opts)
  | Rev expected => rev_or_conflict <$> store_setrev key value opts expected st
  | Always =>
      if sa_get args then bulk_or_nil <$> store_getset key value st
      else
        r ← own st (fun ck _ io ns => ShardStore.set ck io ns key value opts);
        mret (match r with Ok _ => response.ok | Err e => err_reply e end)
  end.

(** A deadline that has passed deletes the key. *)
Definition expire_at (key : bytes) (at_ now unit : Z) (st : ConnState) : D Value :=
  if decide (at_ <= now) then
    r ← store_del [key] st;
    mret (match r with Ok _ => response.integer 1 | Err e => err_reply e end)
  else one_or_zero <$> store_expire key ((at_ - now) * unit) st.

(** [-delta] of an [i64] in a release build. *)
Definition wrapping_neg_i64 (n : Z) : Z := if decide (n = i64_min) then i64_min else - n.

Definition dispatch_getex (key : bytes) (ttl : option GetExTtl) (st : ConnState) : D Value :=
  op ← match ttl with
       | None => mret None
       | Some (GetExSet spec) => d ← ttl_duration_from_spec st spec; mret (Some (Store.SetTtl d))
       | Some GetExPersist => mret (Some Store.Persist)
       end;
  bulk_or_nil <$> own st (fun ck it io ns => ShardStore.getex ck it io ns key op).

Definition getmeta_reply (r : eresult (option Entry)) : Value :=
  match r with
  | Ok (Some entry) =>
      match e_metadata entry with
      | Some meta =>
          match json_to_vec meta with
          | Ok json => response.bulk json
          | Err e => err_reply e
          end
      | None => response.nil
      end
  | Ok None => response.nil
  | Err e => err_reply e
  end.

Definition keys_reply (keys : list bytes) : Value :=
  if decide (KEYS_SCAN_LIMIT <= zlen keys)
  then response.error (lit "ERR") (lit "KEYS result too large; use SCAN to paginate large keyspaces")
  else response.array (response.bulk <$> keys).

Definition mget_reply (entries : list (option Entry)) : Value :=
  response.array ((fun e : option Entry => match e with Some e => response.bulk (e_value e) | None => response.nil end)
                    <$> entries).

(** The commands that do not change the state of the connection. *)
Definition dispatch_store (cmd : Command.t) (st : ConnState) : D Value :=
  match cmd with
  | Command.Ping message =>
      mret (match message with Some m => response.bulk m | None => SimpleString (lit "PONG") end)
  | Command.BgRewriteAof =>
      r ← own st (fun _ _ io ns => ShardStore.reclaim io ns (merges (shard_idx st)));
      mret (match r with
            | Ok _ => SimpleString (lit "Background append only file rewriting started")
            | Err e => err_reply e
            end)
  | Command.Get key => bulk_or_nil <$> store_get key st
  | Command.Set_ key value args => dispatch_set key value args st
  | Command.Del keys => or_error (dispatch_del keys st) (fun n => response.integer (as_i64 n))
  | Command.Exists keys => or_error (dispatch_exists keys st) (fun n => response.integer (as_i64 n))
  | Command.Expire key secs => one_or_zero <$> store_expire key (secs * 1000) st
  | Command.PExpire key millis => one_or_zero <$> store_expire key millis st
  | Command.ExpireAt key unix_secs => now ← now_unix_secs st; expire_at key unix_secs now 1000 st
  | Command.PExpireAt key unix_millis => now ← now_unix_ms st; expire_at key unix_millis now 1 st
  | Command.Ttl key => ttl_reply <$> own st (fun ck _ io ns => ShardStore.ttl ck io ns key)
  | Command.PTtl key => ttl_reply <$> own st (fun ck _ io ns => ShardStore.pttl ck io ns key)
  | Command.Persist key => one_or_zero <$> own st (fun ck it io ns => ShardStore.persist ck it io ns key)
  | Command.MGet keys => or_error (dispatch_mget keys st) mget_reply
  | Command.MSet pairs => or_error (dispatch_mset pairs st) (fun _ => response.ok)
  | Command.GetSet key value => bulk_or_nil <$> store_getset key value st
  | Command.SetNx key value =>
      one_or_zero <$> own st (fun ck _ io ns => ShardStore.setnx ck io ns key value (mkSetOptions None None false))
  | Command.GetDel key => bulk_or_nil <$> own st (fun ck it io ns => ShardStore.getdel ck it io ns key)
  | Command.Incr key => do_incr key 1 st
  | Command.IncrBy key delta => do_incr key delta st
  | Command.Decr key => do_incr key (-1) st
  | Command.DecrBy key delta => do_incr key (wrapping_neg_i64 delta) st
  | Command.GetEx key ttl => dispatch_getex key ttl st
  | Command.Keys pattern => or_error (dispatch_keys pattern st) keys_reply
  | Command.Scan cursor args =>
      or_error (dispatch_scan cursor (Command.pattern args) (Command.count args) st)
        (fun page => response.scan_reply (next_cursor page) (page_keys page))
  | Command.DbSize => or_error (dispatch_dbsize st) (fun n => response.integer (as_i64 n))
  | Command.FlushDb => or_error (dispatch_flushdb st) (fun _ => response.ok)
  | Command.Revision key =>
      r ← store_get key st;
      mret (match r with
            | Ok (Some entry) => response.integer (as_i64 (e_revision entry))
            | Ok None => response.integer (-2)
            | Err e => err_reply e
            end)
  | Command.SetRev key value revision ttl =>
      ttl ← opt_ttl st ttl;
      rev_or_conflict <$> store_setrev key value (mkSetOptions ttl None false) revision st
  | Command.DelRev key revision =>
      r ← own st (fun ck _ io ns => ShardStore.delrev ck io ns key revision);
      mret (match r with
            | Ok (Some _) => response.integer 1
            | Ok None => response.error (lit "CONFLICT") (lit "revision mismatch")
            | Err e => err_reply e
            end)
  | Command.GetMeta key => getmeta_reply <$> store_get key st
  | _ => mret (response.error (lit "ERR") (lit "WATCH must be sent as the first command after HELLO 3"))
  end.

Definition dispatch_inner (cmd : Command.t) (st : ConnState) : D (Value * ConnState) :=
  match cmd with
  | Command.Hello version =>
      let v := Z.min (Z.max (default 2 version) 2) 3 in
      mret (response.hello_reply pkg_version v, with_version v st)
  | Command.Select db => mret (response.ok, with_ns (ns_name db) st)
  | Command.Quit => mret (response.ok, with_quit true st)
  | Command.Reset =>
      mret (SimpleString (lit "RESET"), with_ns DEFAULT_NS (with_version 2 (with_quit false st)))
  | _ => v ← dispatch_store cmd st; mret (v, st)
  end.

Definition cmd_name (cmd : Command.t) : string :=
  match cmd with
  | Command.Ping _ => "PING" | Command.Hello _ => "HELLO" | Command.Select _ => "SELECT"
  | Command.BgRewriteAof => "BGREWRITEAOF" | Command.Quit | Command.Reset => "QUIT/RESET"
  | Command.Get _ => "GET" | Command.Set_ _ _ _ => "SET" | Command.Del _ => "DEL" | Command.Exists _ => "EXISTS"
  | Command.Expire _ _ => "EXPIRE" | Command.PExpire _ _ => "PEXPIRE" | Command.ExpireAt _ _ => "EXPIREAT"
  | Command.PExpireAt _ _ => "PEXPIREAT" | Command.Ttl _ => "TTL" | Command.PTtl _ => "PTTL"
  | Command.Persist _ => "PERSIST" | Command.MGet _ => "MGET" | Command.MSet _ => "MSET"
  | Command.GetSet _ _ => "GETSET" | Command.SetNx _ _ => "SETNX" | Command.GetDel _ => "GETDEL"
  | Command.GetEx _ _ => "GETEX" | Command.Incr _ => "INCR" | Command.IncrBy _ _ => "INCRBY"
  | Command.Decr _ => "DECR" | Command.DecrBy _ _ => "DECRBY" | Command.Keys _ => "KEYS"
  | Command.Scan _ _ => "SCAN" | Command.DbSize => "DBSIZE" | Command.FlushDb => "FLUSHDB"
  | Command.Watch _ _ => "WATCH" | Command.PWatch _ _ => "PWATCH" | Command.Unwatch => "UNWATCH"
  | Command.Revision _ => "REVISION" | Command.SetRev _ _ _ _ => "SETREV" | Command.DelRev _ _ => "DELREV"
  | Command.GetMeta _ => "GETMETA"
  end.

(** [dispatch]: the reply, and the labels under which the command is counted. *)
Definition dispatch (cmd : Command.t) (st : ConnState) : D (Value * ConnState * (string * string)) :=
  '(result, st) ← dispatch_inner cmd st;
  let label := match result with
               | SimpleError _ => "error"
               | Null => "nil"
               | _ => "ok"
               end in
  mret (result, st, (cmd_name cmd, label)).
End Dispatch.
End Dispatch.
