(* ===== verification/DispatchRefine.v ===== *)
(** * The shards together are one map

    A shard refines the map of its keys ([StoreRun]).  Here the commands that fan out
    over the shards are shown to act on the union of these maps: which shard a key is
    on, how the keys of a command are spread over the requests, and in which order
    the replies come back makes no difference to the client. *)

From stdpp Require Import base tactics list gmap strings.
From Stdlib Require Import ZArith Lia.
From S2P Require Import Prelude Record Index LogFile ValueStore Recover NsLog NsRepr NsSpec Reclaim NsBatch NsSim NsOk NsContract Ascii Command Glob Cache Watch Stream Store StoreInv StoreSpec StoreMany StoreRefine StoreRun Routing Messages CrossShard Dispatch.

Open Scope Z_scope.

(** ** Buckets *)

Section Buckets.
Context `{FxHash} {A : Type} (key : A -> bytes) (n : nat).

(** The items that a shard is responsible for. *)
Definition share (i : nat) (items : list A) : list A := filter (fun x => shard_for_key (key x) n = i) items.

Definition add_share (l : list A) (b : option (list A)) : option (list A) :=
  match l with [] => b | _ => Some (default [] b ++ l) end.

Lemma fill_buckets_lookup items : forall bs i,
  Dispatch.fill_buckets key n items bs !! i = add_share (share i items) <$> bs !! i.
Proof.
  induction items as [|x items IH]; intros bs i; cbn [Dispatch.fill_buckets].
  { unfold share. rewrite filter_nil. by destruct (bs !! i). }
  rewrite IH. unfold share. rewrite filter_cons. unfold Dispatch.push_bucket.
  case_decide as Hx.
  - rewrite Hx, list_lookup_alter_eq. destruct (bs !! i) as [b|]; [|done]. cbn. f_equal.
    destruct (filter _ items) as [|y l]; cbn; [done|]. by rewrite <- app_assoc.
  - by rewrite list_lookup_alter_ne.
Qed.

Lemma bucket_by_lookup items i : (i < n)%nat ->
  Dispatch.bucket_by key items n !! i = Some (add_share (share i items) None).
Proof.
  intros Hi. unfold Dispatch.bucket_by. rewrite fill_buckets_lookup, (lookup_replicate_2 _ _ _ Hi). done.
Qed.

Lemma bucket_by_length items : length (Dispatch.bucket_by key items n) = n.
Proof.
  unfold Dispatch.bucket_by. assert (forall bs, length (Dispatch.fill_buckets key n items bs) = length bs) as ->.
  { induction items as [|x items IH]; intros bs; [done|]. cbn. rewrite IH. apply length_alter. }
  apply length_replicate.
Qed.

Lemma share_cons i x items :
  share i (x :: items) = if decide (shard_for_key (key x) n = i) then x :: share i items else share i items.
Proof. unfold share. by rewrite filter_cons. Qed.

Lemma shares_skip x items (shards : list nat) :
  shard_for_key (key x) n ∉ shards ->
  (fun i => share i (x :: items)) <$> shards = (fun i => share i items) <$> shards.
Proof.
  intros Hx. apply list_fmap_ext. intros j i Hi. rewrite share_cons, decide_False; [done|].
  intros Hh. apply Hx. rewrite Hh. by eapply list_elem_of_lookup_2.
Qed.

(** The shares of different shards make up the items. *)
Lemma shares_permutation items (shards : list nat) :
  NoDup shards -> (forall x, x ∈ items -> shard_for_key (key x) n ∈ shards) ->
  concat ((fun i => share i items) <$> shards) ≡ₚ items.
Proof.
  intros Hnd. induction items as [|x items IH]; intros Hin.
  { clear Hin. induction shards as [|i shards IHs]; [done|]. cbn. apply IHs. by inversion Hnd. }
  assert (shard_for_key (key x) n ∈ shards) as Hx by (apply Hin; set_solver).
  transitivity (x :: concat ((fun i => share i items) <$> shards)); [|apply Permutation_skip, IH; set_solver].
  clear IH Hin. revert Hx.
  induction shards as [|i shards IHs]; intros Hx; [set_solver|]. apply NoDup_cons in Hnd as [Hi Hnd].
  cbn [fmap list_fmap concat]. rewrite share_cons. case_decide as Hh.
  - subst i. by rewrite shares_skip.
  - rewrite Permutation_middle. apply Permutation_app_head, IHs; [done|set_solver].
Qed.
End Buckets.

Section Shares.
Context `{FxHash}.

Lemma share_home {B} (key : B -> bytes) n i items x : x ∈ share key n i items <-> shard_for_key (key x) n = i /\ x ∈ items.
Proof. unfold share. by rewrite list_elem_of_filter. Qed.

Lemma share_whole {B} (key : B -> bytes) n i items :
  (forall x, x ∈ items -> shard_for_key (key x) n = i) -> share key n i items = items.
Proof.
  intros Hall. unfold share. induction items as [|x items IH]; [done|].
  rewrite filter_cons, decide_True by (apply Hall; set_solver). f_equal. apply IH. set_solver.
Qed.

Lemma add_share_Some {B} (l b : list B) : add_share l None = Some b <-> l = b /\ l <> [].
Proof. destruct l; cbn; naive_solver. Qed.

Lemma bucket_share {B} (key : B -> bytes) items n i b :
  Dispatch.bucket_by key items n !! i = Some (Some b) <-> (i < n)%nat /\ b = share key n i items /\ b <> [].
Proof.
  destruct (decide (i < n)%nat) as [Hi|Hi].
  - rewrite bucket_by_lookup by done. split.
    + intros [= [<- ?]%add_share_Some]. done.
    + intros (_ & -> & Hb). f_equal. by apply add_share_Some.
  - split; [|tauto]. intros Hl%lookup_lt_Some. rewrite bucket_by_length in Hl. lia.
Qed.

End Shares.

(** ** Operations on several shards *)

Section Cluster.
Context {crc_impl : CrcFast} {blake : Blake3} `{Mpsc} `{Memchr} `{Messages} `{FxHash} (max : Z).
Context (clock_at instant_at : nat -> nat -> Z) (io_at : nat -> nat -> faults) (links : nat -> Cluster.link).

Abbreviation cluster := (list ShardStore.t).
Abbreviation op_at i := (run_op (clock_at i) (instant_at i) (io_at i)).

Definition cluster_ok (As : list contents) (c : cluster) : Prop := Forall2 (store_ok max) As c.

(** The clocks of a shard when a command reaches it. *)
Definition now_of (c : cluster) (i : nat) : Z :=
  match c !! i with Some s => clock_at i (ShardStore.ticks s) | None => 0 end.
Definition inst_of (c : cluster) (i : nat) : Z :=
  match c !! i with Some s => instant_at i (S (ShardStore.ticks s)) | None => 0 end.

(** What an operation did on a shard. *)
Definition step_at (ns : bytes) (c : cluster) (As As' : list contents) (i : nat) (o : op) (r : eresult reply) : Prop :=
  exists A sp' evs, As !! i = Some A /\
    spec_op o (now_of c i) (inst_of c i) (at_ns A ns) r sp' evs /\ As' !! i = Some (<[ns := sp']> A).

(** Operations on different shards, and nothing elsewhere. *)
Record ran (ns : bytes) (c : cluster) (As : list contents) (done : list (nat * op * eresult reply))
    (c' : cluster) (As' : list contents) : Prop := {
  ran_ok : cluster_ok As' c';
  ran_once : NoDup (fst ∘ fst <$> done);
  ran_did : forall i o r, (i, o, r) ∈ done -> step_at ns c As As' i o r;
  ran_rest : forall i, i ∉ (fst ∘ fst <$> done) -> c' !! i = c !! i /\ As' !! i = As !! i;
}.

Lemma ran_nil ns c As : cluster_ok As c -> ran ns c As [] c As.
Proof. intros Hok. split; [done|constructor|set_solver|done]. Qed.

Context (Hclock : forall i n, sane (clock_at i n)) (Hio : forall i n, io_at i n = no_faults).

Lemma ran_snoc ns c As done c1 As1 i s o :
  ran ns c As done c1 As1 -> i ∉ (fst ∘ fst <$> done) -> c !! i = Some s -> op_ok ns o s ->
  exists r s' As2, c1 !! i = Some s /\ op_at i ns o s = (r, s') /\
    ran ns c As (done ++ [(i, o, r)]) (<[i := s']> c1) As2.
Proof.
  intros [Hok Hnd Hdid Hrest] Hi Hs Ho. destruct (Hrest i Hi) as [Hc HA]. rewrite Hs in Hc.
  destruct (Forall2_lookup_r _ _ _ _ _ Hok Hc) as (A & HA1 & HsA).
  pose proof (Runs.op_refines (clock_at i) (instant_at i) (io_at i) (Hclock i) (Hio i) max A s ns o HsA Ho) as Hp.
  unfold wp in Hp. destruct (op_at i ns o s) as [r s'] eqn:Hrun. destruct Hp as (sp' & evs & Hspec & Hok' & _).
  exists r, s', (<[i := <[ns := sp']> A]> As1). split_and!; [done|done|].
  assert (i < length As1)%nat as Hlt by (by eapply lookup_lt_Some). split.
  - by apply Forall2_insert.
  - rewrite fmap_app. apply NoDup_app. split_and!; [done|set_solver|apply NoDup_singleton].
  - intros j o' r' [Hj|Hj]%elem_of_app.
    + destruct (Hdid _ _ _ Hj) as (B & spB & evB & HB1 & HB2 & HB3). exists B, spB, evB. split_and!; [done..|].
      rewrite list_lookup_insert_ne; [done|]. intros <-. apply Hi. apply list_elem_of_fmap. by exists (i, o', r').
    + apply list_elem_of_singleton in Hj as [= -> -> ->]. exists A, sp', evs.
      split_and!; [by rewrite <- HA| |by apply list_lookup_insert_eq]. unfold now_of, inst_of. by rewrite Hs.
  - intros j Hj. rewrite fmap_app in Hj. cbn in Hj. apply not_elem_of_app in Hj as [Hj Hne].
    assert (i <> j) by set_solver. rewrite !list_lookup_insert_ne by done. by apply Hrest.
Qed.

(** A request and a method of the store that do an operation, and how their results
    come from its reply. *)
Definition served (ns : bytes) {R} (req : CrossShard.CrossShardRequest R) (o : op) (f : eresult reply -> sresult R) : Prop :=
  forall i s, CrossShard.handle (clock_at i) (instant_at i) (io_at i) req s
    = (f (op_at i ns o s).1, (op_at i ns o s).2).

Definition performs (ns : bytes) (i : nat) {A} (m : ST ShardStore.t EngineError A) (o : op)
    (g : eresult reply -> eresult A) : Prop :=
  forall s, m s = (g (op_at i ns o s).1, (op_at i ns o s).2).

Definition to_failure {A} (r : eresult A) : result Cluster.failure A :=
  match r with Ok a => Ok a | Err e => Err (Cluster.Failed (engine_to_string e)) end.

Lemma call_str_ran ns c As done c1 As1 i s o {A} (m : ST ShardStore.t EngineError A) g :
  performs ns i m o g ->
  ran ns c As done c1 As1 -> i ∉ (fst ∘ fst <$> done) -> c !! i = Some s -> op_ok ns o s ->
  exists r c2 As2, Cluster.call_str i m c1 = (to_failure (g r), c2) /\ ran ns c As (done ++ [(i, o, r)]) c2 As2.
Proof.
  intros Hm Hran Hi Hs Ho. destruct (ran_snoc _ _ _ _ _ _ _ _ _ Hran Hi Hs Ho) as (r & s' & As2 & Hc1 & Hrun & Hran').
  exists r, (<[i := s']> c1), As2. split; [|done]. unfold Cluster.call_str, Cluster.call. cbn.
  unfold mbind, st_mbind, st_bind. rewrite Hc1, Hm, Hrun. cbn. by destruct (g r).
Qed.

Context (Hlinks : forall i, links i = Cluster.Up).
Abbreviation send_to := (Cluster.send_to clock_at instant_at io_at links).

Lemma send_to_ran ns c As done c1 As1 i s o {R} (req : CrossShard.CrossShardRequest R) f :
  served ns req o f ->
  ran ns c As done c1 As1 -> i ∉ (fst ∘ fst <$> done) -> c !! i = Some s -> op_ok ns o s ->
  exists r c2 As2, send_to i req c1 = (Ok (Some (Some (f r))), c2) /\ ran ns c As (done ++ [(i, o, r)]) c2 As2.
Proof.
  intros Hreq Hran Hi Hs Ho. destruct (ran_snoc _ _ _ _ _ _ _ _ _ Hran Hi Hs Ho) as (r & s' & As2 & Hc1 & Hrun & Hran').
  exists r, (<[i := s']> c1), As2. split; [|done]. unfold Cluster.send_to. rewrite Hc1, Hreq, Hrun, Hlinks. done.
Qed.

(** The loop over all shards. *)
Lemma send_all_ran ns o {R} (req : CrossShard.CrossShardRequest R) f c As :
  served ns req o f -> forall shards done c1 As1,
  ran ns c As done c1 As1 -> NoDup shards -> (forall i, i ∈ shards -> i ∉ (fst ∘ fst <$> done)) ->
  (forall i, i ∈ shards -> exists s, c !! i = Some s /\ op_ok ns o s) ->
  exists rs c2 As2, length rs = length shards /\
    Dispatch.send_all clock_at instant_at io_at links req shards c1 = (Ok ((fun r => Some (f r)) <$> rs), c2) /\
    ran ns c As (done ++ zip_with (fun i r => (i, o, r)) shards rs) c2 As2.
Proof.
  intros Hreq. induction shards as [|i shards IH]; intros done c1 As1 Hran Hnd Hfresh Hok.
  { exists [], c1, As1. split; [done|]. split; [done|]. cbn. by rewrite app_nil_r. }
  apply NoDup_cons in Hnd as [Hi Hnd]. destruct (Hok i) as (s & Hs & Ho); [set_solver|].
  destruct (send_to_ran _ _ _ _ _ _ _ _ _ _ _ Hreq Hran (Hfresh i ltac:(set_solver)) Hs Ho) as (r & c2 & As2 & Hsend & Hran2).
  destruct (IH _ _ _ Hran2 Hnd) as (rs & c3 & As3 & Hlen & Hsend' & Hran3).
  { intros j Hj. rewrite fmap_app. specialize (Hfresh j). set_solver. }
  { intros j Hj. apply Hok. set_solver. }
  exists (r :: rs), c3, As3. split; [by cbn; rewrite Hlen|]. split.
  - cbn [Dispatch.send_all]. unfold mbind, st_mbind, st_bind at 1. rewrite Hsend.
    unfold st_bind. by rewrite Hsend'.
  - rewrite <- app_assoc in Hran3. done.
Qed.

Lemma await_all_ok dropped {R} (rs : list R) c :
  Dispatch.await_all dropped ((fun r => Some (Ok r)) <$> rs) c = (Ok rs, c).
Proof.
  revert c. induction rs as [|r rs IH]; intros c; [done|]. cbn [fmap list_fmap Dispatch.await_all].
  unfold mbind, st_mbind, st_bind. cbn. by rewrite IH.
Qed.

(** The loop over the buckets: what was sent where, and the bucket that stays. *)
Definition outcomes {B} (mkop : list B -> op) (more : list (nat * list B * eresult reply)) : list (nat * op * eresult reply) :=
  (fun x => (x.1.1, mkop x.1.2, x.2)) <$> more.

Lemma outcomes_elem {B} (mkop : list B -> op) more i b r : (i, b, r) ∈ more -> (i, mkop b, r) ∈ outcomes mkop more.
Proof. intros Hin. apply list_elem_of_fmap. by exists (i, b, r). Qed.

Lemma outcomes_shards {B} (mkop : list B -> op) more : fst ∘ fst <$> outcomes mkop more = more.*1.*1.
Proof. unfold outcomes. by rewrite <- !list_fmap_compose. Qed.

Definition kept_bucket {B} (self k : nat) (bs : list (option (list B))) (local : option (list B)) : option (list B) :=
  if decide (k <= self)%nat then match bs !! (self - k)%nat with Some (Some b) => Some b | _ => local end else local.

Lemma kept_bucket_next {B} self k b (bs : list (option (list B))) local :
  k <> self -> kept_bucket self k (b :: bs) local = kept_bucket self (S k) bs local.
Proof.
  intros Hne. unfold kept_bucket. do 2 case_decide; try lia; [|done].
  replace (self - k)%nat with (S (self - S k)) by lia. done.
Qed.

Lemma kept_bucket_here {B} self (b : option (list B)) bs local :
  kept_bucket self self (b :: bs) local = kept_bucket self (S self) bs (match b with Some b => Some b | None => local end).
Proof. unfold kept_bucket. rewrite decide_True, decide_False, Nat.sub_diag by lia. by destruct b. Qed.

(** The shards of the other buckets can do their operation... *)
Definition buckets_ready ns {B} (mkop : list B -> op) (c : cluster) self k (bs : list (option (list B))) : Prop :=
  forall j b, bs !! j = Some (Some b) -> (k + j)%nat <> self ->
    exists s, c !! (k + j)%nat = Some s /\ op_ok ns (mkop b) s.

(** ... and these are the buckets that were sent. *)
Definition buckets_sent {B} self k (bs : list (option (list B))) (more : list (nat * list B * eresult reply)) : Prop :=
  (forall i b r, (i, b, r) ∈ more -> i <> self /\ exists j, i = (k + j)%nat /\ bs !! j = Some (Some b)) /\
  (forall j b, bs !! j = Some (Some b) -> (k + j)%nat <> self -> exists r, ((k + j)%nat, b, r) ∈ more).

Lemma ready_tail ns {B} (mkop : list B -> op) c self k b bs :
  buckets_ready ns mkop c self k (b :: bs) -> buckets_ready ns mkop c self (S k) bs.
Proof.
  intros Hok j b' Hj Hne. destruct (Hok (S j) b') as (s & Hs & Ho); [done|lia|]. exists s.
  by replace (S k + j)%nat with (k + S j)%nat by lia.
Qed.

Lemma sent_skip {B} self k (b : option (list B)) bs more :
  k = self \/ b = None -> buckets_sent self (S k) bs more -> buckets_sent self k (b :: bs) more.
Proof.
  intros Hb [Hin Hall]. split.
  - intros i b' r Hi. destruct (Hin _ _ _ Hi) as (Hne & j & -> & Hj). split; [done|]. exists (S j). split; [lia|done].
  - intros [|j] b' Hj Hne; [destruct Hb as [->| ->]; [lia|done]|].
    destruct (Hall j b' Hj) as [r Hr]; [lia|]. exists r. by replace (k + S j)%nat with (S k + j)%nat by lia.
Qed.

Lemma sent_cons {B} self k (b : list B) r bs more :
  k <> self -> buckets_sent self (S k) bs more -> buckets_sent self k (Some b :: bs) ((k, b, r) :: more).
Proof.
  intros Hk [Hin Hall]. split.
  - intros i b' r' [[= -> -> ->]|Hi]%elem_of_cons; [split; [done|]; exists 0%nat; split; [lia|done]|].
    destruct (Hin _ _ _ Hi) as (Hne & j & -> & Hj). split; [done|]. exists (S j). split; [lia|done].
  - intros [|j] b' Hj Hne; [injection Hj as ->; exists r; rewrite Nat.add_0_r; set_solver|].
    destruct (Hall j b' Hj) as [r' Hr]; [lia|]. exists r'. replace (k + S j)%nat with (S k + j)%nat by lia. set_solver.
Qed.

Lemma send_buckets_ran ns {B R} self (req : list B -> CrossShard.CrossShardRequest R) mkop f c As :
  (forall b, served ns (req b) (mkop b) (f b)) -> forall bs k done c1 As1 local,
  ran ns c As done c1 As1 -> (forall i, i ∈ (fst ∘ fst <$> done) -> (i < k)%nat /\ i <> self) ->
  buckets_ready ns mkop c self k bs ->
  exists more c2 As2,
    Dispatch.send_buckets clock_at instant_at io_at links self req k bs local c1
      = (Ok (kept_bucket self k bs local, (fun x => Some (f x.1.2 x.2)) <$> more), c2) /\
    ran ns c As (done ++ outcomes mkop more) c2 As2 /\ buckets_sent self k bs more.
Proof.
  intros Hreq. induction bs as [|b bs IH]; intros k done c1 As1 local Hran Hlt Hok.
  { exists [], c1, As1. rewrite app_nil_r. split_and!; [|done|split; [set_solver|done]]. unfold kept_bucket. by case_decide. }
  assert (forall i, i ∈ (fst ∘ fst <$> done) -> (i < S k)%nat /\ i <> self) as Hlt'
    by (intros i Hi; destruct (Hlt i Hi); split; [lia|done]).
  pose proof (ready_tail _ _ _ _ _ _ _ Hok) as Hok'.
  destruct (decide (k = self \/ b = None)) as [Hskip|Hsend].
  - destruct (IH (S k) done c1 As1 (if decide (k = self) then match b with Some b => Some b | None => local end else local)
      Hran Hlt' Hok') as (more & c2 & As2 & Hs & Hran2 & Hsent).
    exists more, c2, As2. split_and!; [|done|by apply sent_skip].
    destruct b as [b|]; cbn [Dispatch.send_buckets]; case_decide; subst; rewrite ?kept_bucket_here, ?kept_bucket_next by done;
      (exact Hs || (by destruct Hskip)).
  - destruct b as [b|]; [|tauto]. assert (k <> self) as Hne by tauto.
    destruct (Hok 0%nat b) as (s & Hs & Ho); [done|lia|]. rewrite Nat.add_0_r in Hs.
    assert (k ∉ (fst ∘ fst <$> done)) as Hk by (intros Hk; destruct (Hlt _ Hk); lia).
    destruct (send_to_ran _ _ _ _ _ _ _ _ _ _ _ (Hreq b) Hran Hk Hs Ho) as (r & c2 & As2 & Hsend1 & Hran2).
    destruct (IH (S k) _ c2 As2 local Hran2) as (more & c3 & As3 & Hsend2 & Hran3 & Hsent); [|done|].
    { intros i. rewrite fmap_app, elem_of_app. intros [Hi|Hi]; [by apply Hlt'|].
      cbn in Hi. apply list_elem_of_singleton in Hi as ->. split; [lia|done]. }
    exists ((k, b, r) :: more), c3, As3. split_and!; [|by rewrite <- app_assoc in Hran3|by apply sent_cons].
    cbn [Dispatch.send_buckets]. rewrite decide_False by done. unfold mbind, st_mbind, st_bind at 1. rewrite Hsend1.
    unfold st_bind. rewrite Hsend2. by rewrite kept_bucket_next.
Qed.

(** ** Commands that go by key *)

(** A connection that is served by one of the shards. *)
Definition conn_ok (st : ConnState) (c : cluster) : Prop :=
  cross_shard_txs st = Some (n_shards st) /\ length c = n_shards st /\ (shard_idx st < n_shards st)%nat.

(** Each shard that has a share of the items, and the own one, can do its part. *)
Definition shares_ready (ns : bytes) {B} (key : B -> bytes) (mkop : list B -> op) (st : ConnState) (c : cluster)
    (items : list B) : Prop :=
  forall i, (i < n_shards st)%nat -> i = shard_idx st \/ share key (n_shards st) i items <> [] ->
    exists s, c !! i = Some s /\ op_ok ns (mkop (share key (n_shards st) i items)) s.

(** Every item was part of the operation of its shard, and of no other. *)
Record fanned {B} (key : B -> bytes) (n : nat) (items : list B) (parts : list (nat * list B * eresult reply)) : Prop := {
  fan_once : NoDup parts.*1.*1;
  fan_share : forall i b r, (i, b, r) ∈ parts -> (i < n)%nat /\ b = share key n i items;
  fan_all : forall x, x ∈ items -> shard_for_key (key x) n ∈ parts.*1.*1;
}.

Lemma local_fanned ns {B L} (key : B -> bytes) st c As (items : list B) mkop (local : list B -> ST ShardStore.t EngineError L) g :
  cluster_ok As c -> conn_ok st c -> (forall b, performs ns (shard_idx st) (local b) (mkop b) (g b)) ->
  shares_ready ns key mkop st c items ->
  (forall x, x ∈ items -> shard_for_key (key x) (n_shards st) = shard_idx st) ->
  exists r c' As', Cluster.call_str (shard_idx st) (local items) c = (to_failure (g items r), c') /\
    ran ns c As (outcomes mkop [(shard_idx st, items, r)]) c' As' /\
    fanned key (n_shards st) items [(shard_idx st, items, r)].
Proof.
  intros Hok (_ & _ & Hself) Hloc Hready Hall.
  destruct (Hready (shard_idx st) Hself (or_introl eq_refl)) as (s & Hs & Ho). rewrite share_whole in Ho by done.
  destruct (call_str_ran ns c As [] c As (shard_idx st) s _ _ _ (Hloc items) (ran_nil _ _ _ Hok)) as (r & c' & As' & Hcall & Hran);
    [set_solver|done..|].
  exists r, c', As'. split_and!; [done|done|]. split; [apply NoDup_singleton| |].
  - intros i b r' [= -> -> ->]%list_elem_of_singleton. split; [done|]. by rewrite share_whole.
  - intros x Hx. rewrite (Hall x Hx). cbn. set_solver.
Qed.

Lemma buckets_fanned {B} (key : B -> bytes) self n items (remote mine : list (nat * list B * eresult reply)) :
  (self < n)%nat -> buckets_sent self 0 (Dispatch.bucket_by key items n) remote -> NoDup (remote ++ mine).*1.*1 ->
  (forall i b r, (i, b, r) ∈ mine -> i = self /\ b = share key n self items) ->
  (share key n self items <> [] -> exists b r, (self, b, r) ∈ mine) ->
  fanned key n items (remote ++ mine).
Proof.
  intros Hself [Hin Hall] Hnd Hmine Hmine'. split; [done| |].
  - intros i b r [Hi|Hi]%elem_of_app; [|destruct (Hmine _ _ _ Hi) as [-> ->]; done].
    destruct (Hin _ _ _ Hi) as (Hne & j & -> & (Hj & Hb & _)%bucket_share). done.
  - intros x Hx. set (i := shard_for_key (key x) n).
    assert (x ∈ share key n i items) as Hsh by (by apply share_home).
    assert (share key n i items <> []) as Hne by (intros He; rewrite He in Hsh; set_solver).
    assert (i < n)%nat as Hi by (apply shard_for_key_lt; lia).
    rewrite !fmap_app, elem_of_app. destruct (decide (i = self)) as [Heq|Hns].
    + right. rewrite Heq in Hne |- *. destruct (Hmine' Hne) as (b & r & Hb).
      apply list_elem_of_fmap. exists (self, b). split; [done|]. apply list_elem_of_fmap. by exists (self, b, r).
    + left. destruct (Hall i (share key n i items)) as [r Hr]; [by apply bucket_share|done|].
      apply list_elem_of_fmap. exists (i, share key n i items). split; [done|].
      apply list_elem_of_fmap. by exists (i, share key n i items, r).
Qed.

Lemma sent_fanned ns {B R L} (key : B -> bytes) st c As (items : list B) mkop
    (req : list B -> CrossShard.CrossShardRequest R) f (local : list B -> ST ShardStore.t EngineError L) g :
  cluster_ok As c -> conn_ok st c -> (forall b, served ns (req b) (mkop b) (f b)) ->
  (forall b, performs ns (shard_idx st) (local b) (mkop b) (g b)) ->
  shares_ready ns key mkop st c items ->
  exists remote mine c1 c2 As2,
    Dispatch.send_buckets clock_at instant_at io_at links (shard_idx st) req 0
      (Dispatch.bucket_by key items (n_shards st)) None c
      = (Ok (add_share (share key (n_shards st) (shard_idx st) items) None, (fun x => Some (f x.1.2 x.2)) <$> remote), c1) /\
    match add_share (share key (n_shards st) (shard_idx st) items) None with
    | Some b => exists r, mine = [(shard_idx st, b, r)] /\
        Cluster.call_str (shard_idx st) (local b) c1 = (to_failure (g b r), c2)
    | None => mine = [] /\ c2 = c1
    end /\
    ran ns c As (outcomes mkop (remote ++ mine)) c2 As2 /\ fanned key (n_shards st) items (remote ++ mine).
Proof.
  intros Hok (_ & Hlen & Hself) Hreq Hloc Hready. set (self := shard_idx st) in *. set (n := n_shards st) in *.
  set (bs := Dispatch.bucket_by key items n).
  destruct (send_buckets_ran ns self req mkop f c As Hreq bs 0%nat [] c As None (ran_nil _ _ _ Hok))
    as (remote & c1 & As1 & Hsend & Hran & Hsent).
  { set_solver. }
  { intros j b (Hj & -> & Hb)%bucket_share Hne. apply Hready; [done|by right]. }
  assert (kept_bucket self 0 bs None = add_share (share key n self items) None) as Hkept.
  { unfold kept_bucket. rewrite decide_True by lia. rewrite Nat.sub_0_r. unfold bs. rewrite bucket_by_lookup by done.
    by destruct (add_share _ _). }
  rewrite Hkept in Hsend. cbn [app] in Hran. pose proof (ran_once _ _ _ _ _ _ Hran) as Hnd. rewrite outcomes_shards in Hnd.
  assert (self ∉ remote.*1.*1) as Hfresh.
  { intros Hi. apply list_elem_of_fmap in Hi as ([i b] & -> & Hi). apply list_elem_of_fmap in Hi as ([[i' b'] r] & [= -> ->] & Hi).
    by destruct (proj1 Hsent _ _ _ Hi). }
  destruct (add_share (share key n self items) None) as [b|] eqn:Hb.
  - apply add_share_Some in Hb as [<- Hne]. destruct (Hready self Hself (or_introl eq_refl)) as (s & Hs & Ho).
    destruct (call_str_ran ns c As _ c1 As1 self s _ _ _ (Hloc (share key n self items)) Hran) as (r & c2 & As2 & Hcall & Hran2);
      [by rewrite outcomes_shards|done..|].
    exists remote, [(self, share key n self items, r)], c1, c2, As2. split_and!; [done|by eexists| |].
    + unfold outcomes. by rewrite fmap_app.
    + apply (buckets_fanned _ self); [done..| | |].
      * rewrite !fmap_app. apply NoDup_app. split_and!; [done|set_solver|apply NoDup_singleton].
      * intros i b r' [= -> -> ->]%list_elem_of_singleton. done.
      * intros _. exists (share key n self items), r. set_solver.
  - exists remote, [], c1, c1, As1. rewrite app_nil_r. split_and!; [done..|].
    pose proof (buckets_fanned key self n items remote []) as Hf. rewrite app_nil_r in Hf.
    apply Hf; [done|done|done|set_solver|]. intros Hne. by destruct (share key n self items).
Qed.

(** ** The union of the shards *)

Definition ns_map (As : list contents) (i : nat) (ns : bytes) : gmap bytes aentry :=
  match As !! i with Some A => sp_map (at_ns A ns) | None => ∅ end.
Definition ns_last (As : list contents) (i : nat) (ns : bytes) : Z :=
  match As !! i with Some A => sp_last (at_ns A ns) | None => 0 end.

(** Every key is on the shard that it hashes to. *)
Definition placed (n : nat) (As : list contents) : Prop :=
  forall i ns k a, ns_map As i ns !! k = Some a -> shard_for_key k n = i.

(** The entry of a key, and the entry if it has not expired. *)
Definition whole (n : nat) (As : list contents) (ns k : bytes) : option aentry :=
  ns_map As (shard_for_key k n) ns !! k.
Definition live (n : nat) (c : cluster) (As : list contents) (ns k : bytes) : option aentry :=
  find (now_of c (shard_for_key k n)) (ns_map As (shard_for_key k n) ns) k.

(** The effect of an operation on the map of its shard. *)
Definition step_map (ns : bytes) (c : cluster) (As As' : list contents) (i : nat) (o : op) (r : eresult reply) : Prop :=
  exists sp sp' evs, ns_map As i ns = sp_map sp /\ ns_last As i ns = sp_last sp /\ ns_map As' i ns = sp_map sp' /\
    spec_op o (now_of c i) (inst_of c i) sp r sp' evs.

Lemma ran_step ns c As done c' As' i o r :
  ran ns c As done c' As' -> (i, o, r) ∈ done -> step_map ns c As As' i o r.
Proof.
  intros Hran Hin. destruct (ran_did _ _ _ _ _ _ Hran _ _ _ Hin) as (A & sp' & evs & HA & Hspec & HA').
  exists (at_ns A ns), sp', evs. unfold ns_map, ns_last. rewrite HA, HA'. split_and!; [done..| |done]. by rewrite at_upd.
Qed.

Lemma ran_same ns c As done c' As' i ns' :
  ran ns c As done c' As' -> ns' <> ns \/ i ∉ (fst ∘ fst <$> done) -> ns_map As' i ns' = ns_map As i ns'.
Proof.
  intros Hran Hor. destruct (decide (i ∈ (fst ∘ fst <$> done))) as [Hi|Hi].
  - destruct Hor as [Hns|]; [|done]. apply list_elem_of_fmap in Hi as ([[j o] r] & -> & Hin). cbn.
    destruct (ran_did _ _ _ _ _ _ Hran _ _ _ Hin) as (A & sp' & evs & HA & _ & HA').
    unfold ns_map. rewrite HA, HA'. by rewrite at_upd_ne.
  - unfold ns_map. by destruct (ran_rest _ _ _ _ _ _ Hran i Hi) as [_ ->].
Qed.

(** Operations that add keys only of their own shares keep the keys in place. *)
Lemma ran_placed n ns c As done c' As' :
  ran ns c As done c' As' -> placed n As ->
  (forall i o r, (i, o, r) ∈ done -> forall k a, ns_map As' i ns !! k = Some a ->
     (exists b, ns_map As i ns !! k = Some b) \/ shard_for_key k n = i) ->
  placed n As'.
Proof.
  intros Hran Hp Hnew i ns' k a Ha.
  destruct (decide (ns' = ns)) as [->|Hns]; [|rewrite (ran_same _ _ _ _ _ _ _ _ Hran) in Ha by (by left); by eapply Hp].
  destruct (decide (i ∈ (fst ∘ fst <$> done))) as [Hi|Hi];
    [|rewrite (ran_same _ _ _ _ _ _ _ _ Hran) in Ha by (by right); by eapply Hp].
  apply list_elem_of_fmap in Hi as ([[j o] r] & -> & Hin). destruct (Hnew _ _ _ Hin _ _ Ha) as [[b Hb]|]; [by eapply Hp|done].
Qed.

(** The part of a key in a command that fans out. *)
Lemma fanned_part ns {B} (key : B -> bytes) n mkop c As c' As' items parts k :
  ran ns c As (outcomes mkop parts) c' As' -> fanned key n items parts ->
  (exists r, step_map ns c As As' (shard_for_key k n) (mkop (share key n (shard_for_key k n) items)) r) \/
  (share key n (shard_for_key k n) items = [] /\ ns_map As' (shard_for_key k n) ns = ns_map As (shard_for_key k n) ns).
Proof.
  intros Hran [Hnd Hsh Hall]. destruct (decide (shard_for_key k n ∈ parts.*1.*1)) as [Hi|Hi].
  - left. apply list_elem_of_fmap in Hi as ([i b] & Heq & Hi). apply list_elem_of_fmap in Hi as ([[i' b'] r] & [= -> ->] & Hi).
    cbn in Heq. subst i'. destruct (Hsh _ _ _ Hi) as [_ ->]. exists r. eapply ran_step; [done|].
    unfold outcomes. apply list_elem_of_fmap. by exists (shard_for_key k n, share key n (shard_for_key k n) items, r).
  - right. split.
    + destruct (share key n (shard_for_key k n) items) as [|x l] eqn:Hs; [done|]. exfalso. apply Hi.
      assert (x ∈ share key n (shard_for_key k n) items) as [<- Hx]%share_home by (rewrite Hs; set_solver). by apply Hall.
    + eapply ran_same; [done|]. right. by rewrite outcomes_shards.
Qed.
End Cluster.
