(* ===== verification/DispatchMap.v ===== *)
(** * Commands on the union of the shards

    [MGET], [MSET], [DEL], [EXISTS], [DBSIZE] and [FLUSHDB] over any number of shards
    do what they say on one map ([fan_out_refines_map]), and what goes wrong when a
    single-key command is sent to a shard that is not the one of its key. *)

From stdpp Require Import base tactics list gmap strings.
From Stdlib Require Import ZArith Lia.
From S2P Require Import Prelude Record Index LogFile ValueStore Recover NsLog NsRepr NsSpec Reclaim NsBatch NsSim NsOk NsContract Ascii Command Glob Cache Watch Stream Store StoreInv StoreSpec StoreMany StoreRefine StoreRun Routing Messages CrossShard Dispatch DispatchRefine.

Open Scope Z_scope.

(** ** Maps *)

(** The value that a batch leaves under a key. *)
Fixpoint last_value (ps : list (bytes * bytes)) (k : bytes) : option bytes :=
  match ps with
  | [] => None
  | (k', v) :: ps =>
      match last_value ps k with
      | Some v => Some v
      | None => if decide (k' = k) then Some v else None
      end
  end.

Lemma put_all_lookup ps k : forall m tss, length tss = length ps ->
  match last_value ps k with
  | Some v => exists ts, ts ∈ tss /\ put_all m (zip ps tss) !! k = Some (mkA v [] None ts)
  | None => put_all m (zip ps tss) !! k = m !! k
  end.
Proof.
  induction ps as [|[k' v'] ps IH]; intros m [|ts tss] Hlen; try done.
  cbn [last_value zip zip_with]. unfold put_all. cbn [foldl fst snd]. fold (put_all (<[k' := mkA v' [] None ts]> m) (zip ps tss)).
  specialize (IH (<[k' := mkA v' [] None ts]> m) tss ltac:(by injection Hlen)).
  destruct (last_value ps k) as [v|].
  - destruct IH as (ts' & Hin & Hl). exists ts'. split; [set_solver|done].
  - rewrite IH. case_decide as Hk; [subst|by rewrite lookup_insert_ne].
    exists ts. split; [set_solver|by rewrite lookup_insert_eq].
Qed.

Lemma last_value_fresh ps k : k ∉ ps.*1 -> last_value ps k = None.
Proof.
  induction ps as [|[k' v'] ps IH]; [done|]. cbn [last_value]. rewrite fmap_cons. cbn. intros Hk%not_elem_of_cons.
  rewrite IH by tauto. rewrite decide_False; [done|]. intros ->. tauto.
Qed.

Lemma last_value_share `{FxHash} n ps k : last_value (share fst n (shard_for_key k n) ps) k = last_value ps k.
Proof.
  induction ps as [|[k' v'] ps IH]; [done|]. rewrite share_cons. cbn [last_value fst]. rewrite <- IH.
  case_decide as Hs; cbn [last_value]; [done|]. destruct (last_value (share _ _ _ ps) k); [done|].
  rewrite decide_False; [done|]. by intros ->.
Qed.

Lemma purge_all_lookup now ks m k : purge_all now ks m !! k = if decide (k ∈ ks) then find now m k else m !! k.
Proof.
  apply option_eq. intros a. unfold purge_all. rewrite map_lookup_filter_Some. cbn. case_decide as Hk.
  - rewrite find_Some. naive_solver.
  - naive_solver.
Qed.

(** The keys that a delete counts are the live ones, each once. *)
Lemma removed_spec now ks : forall m,
  NoDup (removed now m ks) /\ forall k, k ∈ removed now m ks <-> k ∈ ks /\ find now m k <> None.
Proof.
  induction ks as [|k ks IH]; intros m; cbn [removed]; [split; [constructor|set_solver]|].
  destruct (IH (delete k m)) as [Hnd Hin].
  assert (find now (delete k m) k = None) as Hd by (unfold find; by rewrite lookup_delete_eq).
  assert (forall j, j <> k -> find now (delete k m) j = find now m j) as Ho
    by (intros j Hj; unfold find; by rewrite lookup_delete_ne).
  assert (k ∉ removed now (delete k m) ks) as Hk by (rewrite Hin; naive_solver).
  destruct (find now m k) as [a|] eqn:Hf.
  - split; [by constructor|]. intros j. rewrite elem_of_cons, Hin, elem_of_cons.
    destruct (decide (j = k)) as [->|Hj]; [naive_solver|]. rewrite Ho by done. naive_solver.
  - split; [done|]. intros j. rewrite Hin, elem_of_cons.
    destruct (decide (j = k)) as [->|Hj]; [naive_solver|]. rewrite Ho by done. naive_solver.
Qed.

Lemma share_elem `{FxHash} n k ks : k ∈ share id n (shard_for_key k n) ks <-> k ∈ ks.
Proof. rewrite share_home. naive_solver. Qed.

Section Own.
Context {crc_impl : CrcFast} {blake : Blake3} `{Mpsc} `{FxHash}.

(** One shard: every key is its own. *)
Lemma single_shard (st : ConnState) c :
  conn_ok st c -> Dispatch.fan_out_txs st = None -> forall k, shard_for_key k (n_shards st) = shard_idx st.
Proof.
  intros (Htx & _ & Hself) Hf k. unfold Dispatch.fan_out_txs in Hf. case_decide; [|congruence].
  pose proof (shard_for_key_lt k (n_shards st)). lia.
Qed.

Lemma all_local_spec {A} (key : A -> bytes) st items :
  Dispatch.all_local key st items = true <-> forall x, x ∈ items -> shard_for_key (key x) (n_shards st) = shard_idx st.
Proof.
  unfold Dispatch.all_local. rewrite forallb_forall. split.
  - intros Hall x Hx%list_elem_of_In. eapply bool_decide_eq_true, Hall, Hx.
  - intros Hall x Hx%list_elem_of_In. by apply bool_decide_eq_true, Hall.
Qed.

Lemma take_own_bucket {A} (key : A -> bytes) st items :
  (shard_idx st < n_shards st)%nat -> Dispatch.all_local key st items = true ->
  Dispatch.take_bucket (shard_idx st) (Dispatch.bucket_by key items (n_shards st)) = items.
Proof.
  intros Hself Hall. rewrite all_local_spec in Hall. unfold Dispatch.take_bucket. rewrite bucket_by_lookup by done. cbn.
  rewrite share_whole by done. by destruct items.
Qed.

Lemma others_empty_spec {A} self (bs : list (option (list A))) : forall k,
  Dispatch.others_empty self k bs = true -> forall j b, bs !! j = Some (Some b) -> (k + j)%nat = self.
Proof.
  induction bs as [|b0 bs IH]; intros k He j b Hj; [done|]. apply andb_true_iff in He as [Hb Hrest]. destruct j as [|j].
  - injection Hj as ->. rewrite orb_false_r in Hb. apply bool_decide_eq_true in Hb. lia.
  - specialize (IH (S k) Hrest j b Hj). lia.
Qed.

Lemma others_empty_home {A} (key : A -> bytes) self n items x :
  (self < n)%nat -> Dispatch.others_empty self 0 (Dispatch.bucket_by key items n) = true -> x ∈ items ->
  shard_for_key (key x) n = self.
Proof.
  intros Hself He Hx. apply (others_empty_spec _ _ _ He (shard_for_key (key x) n) (share key n (shard_for_key (key x) n) items)).
  apply bucket_share. split_and!; [apply shard_for_key_lt; lia|done|].
  intros Hnil. assert (x ∈ share key n (shard_for_key (key x) n) items) as Hin by (by apply share_home).
  rewrite Hnil in Hin. by apply not_elem_of_nil in Hin.
Qed.
End Own.

(** ** Gathering the entries of [MGET] *)

Section Gather.
Context `{SerdeJson}.

Lemma put_results_app l1 l2 rs : Dispatch.put_results (l1 ++ l2) rs = Dispatch.put_results l2 (Dispatch.put_results l1 rs).
Proof. apply foldl_app. Qed.

Lemma put_results_concat ls rs :
  foldl (fun rs entries => Dispatch.put_results entries rs) rs ls = Dispatch.put_results (concat ls) rs.
Proof. revert rs. induction ls as [|l ls IH]; intros rs; [done|]. cbn [foldl concat]. by rewrite IH, put_results_app. Qed.

(** Answers that agree on what belongs at an index can be written in any order. *)
Lemma put_results_agree (f : nat -> option Entry) l : forall rs,
  (forall j e, (j, e) ∈ l -> e = f j /\ (j < length rs)%nat) -> forall j,
  Dispatch.put_results l rs !! j = if decide (j ∈ l.*1) then Some (f j) else rs !! j.
Proof.
  induction l as [|[i e] l IH]; intros rs Hl j; [done|]. cbn [Dispatch.put_results foldl fst snd].
  fold (Dispatch.put_results l (<[i := e]> rs)). destruct (Hl i e) as [-> Hi]; [constructor|].
  rewrite IH.
  - rewrite fmap_cons. cbn [fst]. destruct (decide (j = i)) as [->|Hne].
    + rewrite list_lookup_insert_eq by done. rewrite (decide_True (P := i ∈ i :: _)) by constructor. by case_decide.
    + rewrite list_lookup_insert_ne by done. repeat case_decide; try done; exfalso; rewrite elem_of_cons in *; tauto.
  - intros j' e' Hj. rewrite length_insert. apply Hl. by constructor.
Qed.

Lemma put_results_all {A} (f : A -> option Entry) (keys : list A) l :
  (forall j e, (j, e) ∈ l -> exists k, keys !! j = Some k /\ e = f k) -> (forall j, (j < length keys)%nat -> j ∈ l.*1) ->
  Dispatch.put_results l (replicate (length keys) None) = f <$> keys.
Proof.
  intros Hl Hall. apply list_eq. intros j.
  rewrite (put_results_agree (fun j => k ← keys !! j; f k)).
  - rewrite list_lookup_fmap. case_decide as Hj.
    + apply list_elem_of_fmap in Hj as ([j' e] & -> & Hj). cbn. destruct (Hl _ _ Hj) as (k & -> & _). done.
    + rewrite lookup_ge_None_2, (lookup_ge_None_2 keys); [done|..]; rewrite ?length_replicate;
        destruct (decide (length keys <= j)%nat); try done; exfalso; apply Hj, Hall; lia.
  - intros j' e Hj. destruct (Hl _ _ Hj) as (k & Hk & ->). rewrite Hk, length_replicate.
    split; [done|]. by eapply lookup_lt_Some.
Qed.
End Gather.

(** ** Replies of operations *)

Definition unit_of `{SerdeJson} (r : eresult reply) : eresult unit := match r with Err e => Err e | Ok _ => Ok tt end.
Definition count_of `{SerdeJson} (r : eresult reply) : eresult Z := match r with Ok (RCount n) => Ok n | Ok _ => Ok 0 | Err e => Err e end.
Definition entries_of `{SerdeJson} (r : eresult reply) : eresult (list (option Entry)) :=
  match r with Ok (REntries es) => Ok es | Ok _ => Ok [] | Err e => Err e end.

Section Map.
Context {crc_impl : CrcFast} {blake : Blake3} `{Mpsc} `{Memchr} `{Messages} `{FxHash} (max : Z).
Context (clock_at instant_at : nat -> nat -> Z) (io_at : nat -> nat -> faults) (links : nat -> Cluster.link).

Definition to_str {A} (r : eresult A) : sresult A := match r with Ok a => Ok a | Err e => Err (engine_to_string e) end.

Ltac by_store :=
  cbn [run_op CrossShard.handle]; unfold CrossShard.stringly, returns, mbind, st_mbind, st_bind;
  match goal with |- context [match ?m ?s with _ => _ end] => destruct (m s) as [[?|?] ?] end;
  repeat match goal with u : unit |- _ => destruct u end; done.

Lemma mset_performs ns i ps :
  performs clock_at instant_at io_at ns i (ShardStore.mset (clock_at i) (io_at i) ns ps) (OpMset ps) unit_of.
Proof. intros s. by_store. Qed.

Lemma mset_served ns ps : served clock_at instant_at io_at ns (CrossShard.MSet ns ps) (OpMset ps) (to_str ∘ unit_of).
Proof. intros i s. by_store. Qed.

Lemma del_performs ns i ks :
  performs clock_at instant_at io_at ns i (ShardStore.del (clock_at i) (io_at i) ns ks) (OpDel ks) count_of.
Proof. intros s. by_store. Qed.

Lemma del_served ns ks : served clock_at instant_at io_at ns (CrossShard.Del ns ks) (OpDel ks) (to_str ∘ count_of).
Proof. intros i s. by_store. Qed.

Lemma exists_performs ns i ks :
  performs clock_at instant_at io_at ns i (ShardStore.exists_ (clock_at i) ns ks) (OpExists ks) count_of.
Proof. intros s. by_store. Qed.

Lemma exists_served ns ks : served clock_at instant_at io_at ns (CrossShard.Exists ns ks) (OpExists ks) (to_str ∘ count_of).
Proof. intros i s. by_store. Qed.

Lemma mget_performs ns i ks :
  performs clock_at instant_at io_at ns i (ShardStore.mget (clock_at i) (instant_at i) (io_at i) ns ks) (OpMget ks) entries_of.
Proof. intros s. by_store. Qed.

Lemma mget_served ns (ks : list (nat * bytes)) :
  served clock_at instant_at io_at ns (CrossShard.MGet ns ks) (OpMget ks.*2)
    (fun r => match to_str (entries_of r) with Ok es => Ok (zip ks.*1 es) | Err e => Err e end).
Proof. intros i s. by_store. Qed.

Lemma dbsize_performs ns i : performs clock_at instant_at io_at ns i (ShardStore.db_size ns) OpDbSize count_of.
Proof. intros s. by_store. Qed.

Lemma dbsize_served ns : served clock_at instant_at io_at ns (CrossShard.DbSize ns) OpDbSize (to_str ∘ count_of).
Proof. intros i s. by_store. Qed.

Lemma flush_performs ns i :
  performs clock_at instant_at io_at ns i (ShardStore.flush_db (clock_at i) ns) OpFlush unit_of.
Proof. intros s. by_store. Qed.

Lemma flush_served ns : served clock_at instant_at io_at ns (CrossShard.FlushDb ns) OpFlush (to_str ∘ unit_of).
Proof. intros i s. by_store. Qed.

(** ** The commands on their shards *)

Context (Hclock : forall i n, sane (clock_at i n)) (Hio : forall i n, io_at i n = no_faults)
  (Hlinks : forall i, links i = Cluster.Up).

Lemma await_replies {B R} dropped (f : list B -> eresult reply -> sresult R) (h : nat * list B * eresult reply -> R) remote
    (c : list ShardStore.t) :
  (forall x, x ∈ remote -> f x.1.2 x.2 = Ok (h x)) ->
  Dispatch.await_all dropped ((fun x => Some (f x.1.2 x.2)) <$> remote) c = (Ok (h <$> remote), c).
Proof.
  intros Hall. rewrite <- await_all_ok with (dropped := dropped). f_equal. rewrite <- list_fmap_compose.
  apply list_fmap_ext. intros j x Hx. cbn. f_equal. apply Hall. by eapply list_elem_of_lookup_2.
Qed.

Abbreviation ran := (ran max clock_at instant_at).
Abbreviation step_map := (step_map clock_at instant_at).
Abbreviation cluster_ok := (cluster_ok max).

(** Every part has the reply that its specification gives. *)
Lemma fanned_replies {B X} ns c As (mkop : list B -> op) parts c' As' (h : nat -> list B -> X) (reply_of : X -> reply) :
  (forall i b r, step_map ns c As As' i (mkop b) r -> r = Ok (reply_of (h i b))) ->
  ran ns c As (outcomes mkop parts) c' As' ->
  forall i b r, (i, b, r) ∈ parts -> r = Ok (reply_of (h i b)).
Proof.
  intros Hspec Hran i b r Hx. apply Hspec. eapply ran_step; [exact Hran|].
  unfold outcomes. apply list_elem_of_fmap. by exists (i, b, r).
Qed.

Lemma mset_fans st c As pairs :
  cluster_ok As c -> conn_ok st c -> shares_ready (cs_ns st) fst OpMset st c pairs ->
  exists parts c' As',
    Dispatch.dispatch_mset clock_at instant_at io_at links pairs st c = (Ok tt, c') /\
    ran (cs_ns st) c As (outcomes OpMset parts) c' As' /\ fanned fst (n_shards st) pairs parts.
Proof.
  intros Hok Hconn Hready.
  assert (forall i b r As', step_map (cs_ns st) c As As' i (OpMset b) r -> r = Ok RUnit) as Hspec.
  { intros i b r As' (sp & sp' & evs & _ & _ & _ & tss & _ & _ & Hr & _). exact Hr. }
  assert ((forall x, x ∈ pairs -> shard_for_key x.1 (n_shards st) = shard_idx st) -> exists parts c' As',
    Cluster.call_str (shard_idx st) (ShardStore.mset (clock_at (shard_idx st)) (io_at (shard_idx st)) (cs_ns st) pairs) c
      = (Ok tt, c') /\
    ran (cs_ns st) c As (outcomes OpMset parts) c' As' /\ fanned fst (n_shards st) pairs parts) as Hlocal.
  { intros Hall. destruct (local_fanned max clock_at instant_at io_at links Hclock Hio Hlinks (cs_ns st) fst st c As pairs OpMset _ _ Hok Hconn
      (fun b => mset_performs (cs_ns st) (shard_idx st) b) Hready Hall) as (r & c' & As' & Hcall & Hran & Hfan).
    exists [(shard_idx st, pairs, r)], c', As'. split_and!; [|done|done]. rewrite Hcall.
    by rewrite (fanned_replies _ _ _ _ _ _ _ (fun _ _ => tt) (fun _ => RUnit) (fun i b r => Hspec i b r As') Hran
      (shard_idx st) pairs r) by set_solver. }
  unfold Dispatch.dispatch_mset. destruct (Dispatch.fan_out_txs st) as [txs|] eqn:Htx;
    [|apply Hlocal; intros x _; by eapply single_shard].
  destruct (Dispatch.all_local fst st pairs) eqn:Hall.
  { rewrite take_own_bucket by (done || apply Hconn). by apply Hlocal, all_local_spec. }
  destruct (sent_fanned max clock_at instant_at io_at links Hclock Hio Hlinks (cs_ns st) fst st c As pairs OpMset
    (CrossShard.MSet (cs_ns st)) (fun _ => to_str ∘ unit_of) _ _ Hok Hconn (mset_served (cs_ns st))
    (fun b => mset_performs (cs_ns st) (shard_idx st) b) Hready)
    as (remote & mine & c1 & c2 & As2 & Hsend & Hmine & Hran & Hfan).
  pose proof (fanned_replies _ _ _ _ _ _ _ (fun _ _ => tt) (fun _ => RUnit) (fun i b r => Hspec i b r As2) Hran) as Hrep.
  assert (forall c, Dispatch.await_all Dispatch.reply_dropped ((fun x => Some (to_str (unit_of x.2))) <$> remote) c
    = (Ok ((fun _ => tt) <$> remote), c)) as Hwait.
  { intros c0. apply (await_replies _ (fun _ => to_str ∘ unit_of)). intros [[i b'] r'] Hx.
    unfold compose. by rewrite (Hrep i b' r') by set_solver. }
  exists (remote ++ mine), c2, As2. split_and!; [|done|done].
  unfold mbind, st_mbind, st_bind at 1. rewrite Hsend. unfold st_bind.
  destruct (add_share _ None) as [b|].
  - destruct Hmine as (r & -> & Hcall). rewrite Hcall, (Hrep (shard_idx st) b r) by set_solver. cbn. by rewrite Hwait.
  - destruct Hmine as [-> ->]. cbn. by rewrite Hwait.
Qed.

(** The number that a shard answered. *)
Definition counted (x : nat * list bytes * eresult reply) : Z :=
  match x.2 with Ok (RCount n) => n | _ => 0 end.

Lemma sum_app l1 l2 : Dispatch.sum (l1 ++ l2) = Dispatch.sum l1 + Dispatch.sum l2.
Proof. induction l1 as [|z l1 IH]; [done|]. unfold Dispatch.sum in *. cbn. lia. Qed.

Lemma count_fans st c As keys method req mkop :
  (forall b, performs clock_at instant_at io_at (cs_ns st) (shard_idx st) (method b) (mkop b) count_of) ->
  (forall b, served clock_at instant_at io_at (cs_ns st) (req b) (mkop b) (to_str ∘ count_of)) ->
  (forall i b r As', step_map (cs_ns st) c As As' i (mkop b) r -> exists n, r = Ok (RCount n)) ->
  cluster_ok As c -> conn_ok st c -> shares_ready (cs_ns st) id mkop st c keys ->
  exists parts c' As',
    Dispatch.dispatch_count clock_at instant_at io_at links keys st method req c
      = (Ok (Dispatch.sum (counted <$> parts)), c') /\
    ran (cs_ns st) c As (outcomes mkop parts) c' As' /\ fanned id (n_shards st) keys parts.
Proof.
  intros Hloc Hreq Hspec Hok Hconn Hready.
  assert (forall parts c' As', ran (cs_ns st) c As (outcomes mkop parts) c' As' -> forall i b r, (i, b, r) ∈ parts ->
    count_of r = Ok (counted (i, b, r))) as Hrep.
  { intros parts c' As' Hran i b r Hx. destruct (Hspec i b r As') as [n ->]; [|done]. eapply ran_step; [exact Hran|].
    unfold outcomes. apply list_elem_of_fmap. by exists (i, b, r). }
  assert ((forall x, x ∈ keys -> shard_for_key x (n_shards st) = shard_idx st) -> exists parts c' As',
    Cluster.call_str (shard_idx st) (method keys) c = (Ok (Dispatch.sum (counted <$> parts)), c') /\
    ran (cs_ns st) c As (outcomes mkop parts) c' As' /\ fanned id (n_shards st) keys parts) as Hlocal.
  { intros Hall. destruct (local_fanned max clock_at instant_at io_at links Hclock Hio Hlinks (cs_ns st) id st c As keys mkop
      method (fun _ => count_of) Hok Hconn Hloc Hready Hall) as (r & c' & As' & Hcall & Hran & Hfan).
    exists [(shard_idx st, keys, r)], c', As'. split_and!; [|done|done].
    rewrite Hcall, (Hrep _ _ _ Hran (shard_idx st) keys r) by set_solver. cbn. by rewrite Z.add_0_r. }
  unfold Dispatch.dispatch_count. destruct (Dispatch.fan_out_txs st) as [txs|] eqn:Htx;
    [|apply Hlocal; intros x _; by eapply single_shard].
  destruct (Dispatch.all_local id st keys) eqn:Hall.
  { rewrite take_own_bucket by (done || apply Hconn). apply Hlocal. by apply (all_local_spec id). }
  destruct (sent_fanned max clock_at instant_at io_at links Hclock Hio Hlinks (cs_ns st) id st c As keys mkop
    req (fun _ => to_str ∘ count_of) method (fun _ => count_of) Hok Hconn Hreq Hloc Hready)
    as (remote & mine & c1 & c2 & As2 & Hsend & Hmine & Hran & Hfan).
  specialize (Hrep _ _ _ Hran).
  assert (forall c, Dispatch.await_all Dispatch.reply_dropped ((fun x => Some (to_str (count_of x.2))) <$> remote) c
    = (Ok (counted <$> remote), c)) as Hwait.
  { intros c0. apply (await_replies _ (fun _ => to_str ∘ count_of)). intros [[i b'] r'] Hx.
    unfold compose. cbn. by rewrite (Hrep i b' r') by set_solver. }
  exists (remote ++ mine), c2, As2. split_and!; [|done|done].
  unfold mbind, st_mbind, st_bind at 1. rewrite Hsend. unfold st_bind. rewrite fmap_app, sum_app, Z.add_comm.
  destruct (add_share _ None) as [b|].
  - destruct Hmine as (r & -> & Hcall). rewrite Hcall, (Hrep (shard_idx st) b r) by set_solver. cbn. rewrite Hwait.
    by rewrite Z.add_0_r.
  - destruct Hmine as [-> ->]. cbn. by rewrite Hwait.
Qed.


(** The entry that a client is sent. *)
Definition seen (n : nat) (c : list ShardStore.t) (As : list contents) (ns k : bytes) : option Entry :=
  entry_of (now_of clock_at c (shard_for_key k n)) (inst_of instant_at c (shard_for_key k n)) <$> live clock_at n c As ns k.

Lemma mget_reply_seen n ns c As As' i ks r :
  step_map ns c As As' i (OpMget ks) r -> (forall k, k ∈ ks -> shard_for_key k n = i) ->
  r = Ok (REntries (seen n c As ns <$> ks)).
Proof.
  intros (sp & sp' & evs & Hm & _ & _ & -> & _) Hhome. do 2 f_equal. apply list_fmap_ext.
  intros j k Hk%list_elem_of_lookup_2. unfold seen, live. by rewrite (Hhome k Hk), Hm.
Qed.

Definition indexed (keys : list bytes) : list (nat * bytes) := imap (fun i k => (i, k)) keys.

Lemma indexed_elem keys j k : (j, k) ∈ indexed keys <-> keys !! j = Some k.
Proof.
  unfold indexed. rewrite elem_of_lookup_imap. split; [|by exists j, k]. by intros (j' & k' & [= -> ->] & Hk).
Qed.

Lemma indexed_keys keys : (indexed keys).*2 = keys.
Proof. unfold indexed. rewrite fmap_imap. apply list_eq. intros j. rewrite list_lookup_imap. by destruct (keys !! j). Qed.

Lemma zip_answers {X} (f : bytes -> X) (b : list (nat * bytes)) : zip b.*1 (f <$> b.*2) = (fun jk => (jk.1, f jk.2)) <$> b.
Proof. induction b as [|[j k] b IH]; [done|]. cbn. by rewrite IH. Qed.

(** What the shards answered, under the indices of the keys. *)
Lemma part_answers n ns c As c' As' keys parts :
  ran ns c As (outcomes (fun b => OpMget b.*2) parts) c' As' -> fanned snd n (indexed keys) parts ->
  forall i b r, (i, b, r) ∈ parts ->
    r = Ok (REntries (seen n c As ns <$> b.*2)) /\ forall j e, (j, e) ∈ zip b.*1 (seen n c As ns <$> b.*2) ->
      exists k, keys !! j = Some k /\ e = seen n c As ns k.
Proof.
  intros Hran Hfan i b r Hx. destruct (fan_share _ _ _ _ Hfan _ _ _ Hx) as [_ Hb]. split.
  - apply (mget_reply_seen n ns c As As' i).
    + eapply ran_step; [exact Hran|]. unfold outcomes. apply list_elem_of_fmap. by exists (i, b, r).
    + intros k Hk. apply list_elem_of_fmap in Hk as ([j k'] & -> & Hk). subst b. by apply share_home in Hk as [].
  - intros j e Hj. rewrite zip_answers in Hj. apply list_elem_of_fmap in Hj as ([j' k] & [= -> ->] & Hk). exists k.
    split; [|done]. subst b. apply share_home in Hk as [_ Hk]. by apply indexed_elem.
Qed.

(** The answers of all parts are the answers for all keys. *)
Lemma gather_parts n ns c As c' As' keys parts (order : list (nat * list (nat * bytes) * eresult reply)) :
  ran ns c As (outcomes (fun b => OpMget b.*2) parts) c' As' -> fanned snd n (indexed keys) parts -> order ≡ₚ parts ->
  Dispatch.put_results (concat ((fun x => zip x.1.2.*1 (seen n c As ns <$> x.1.2.*2)) <$> order))
    (replicate (length keys) None) = seen n c As ns <$> keys.
Proof.
  intros Hran Hfan Hperm. apply put_results_all.
  - intros j e Hj. apply list_elem_of_In, in_concat in Hj as (l & Hl%list_elem_of_In & Hj%list_elem_of_In).
    apply list_elem_of_fmap in Hl as ([[i b] r] & -> & Hx). rewrite Hperm in Hx. by eapply part_answers.
  - intros j Hj. apply lookup_lt_is_Some in Hj as [k Hk]. apply indexed_elem in Hk.
    pose proof (fan_all _ _ _ _ Hfan _ Hk) as Hi. apply list_elem_of_fmap in Hi as ([i b] & Hi & Hp).
    apply list_elem_of_fmap in Hp as ([[i' b'] r] & [= -> ->] & Hx). cbn in Hi. subst i'.
    destruct (fan_share _ _ _ _ Hfan _ _ _ Hx) as [_ Hb].
    apply list_elem_of_fmap. exists (j, seen n c As ns k). split; [done|].
    apply list_elem_of_In, in_concat. exists (zip b'.*1 (seen n c As ns <$> b'.*2)). split; apply list_elem_of_In.
    + apply list_elem_of_fmap. eexists (_, b', r). split; [done|]. by rewrite Hperm.
    + rewrite zip_answers. apply list_elem_of_fmap. exists (j, k). split; [done|]. subst b'. by apply share_home.
Qed.

Lemma mget_fans st c As keys :
  cluster_ok As c -> conn_ok st c -> shares_ready (cs_ns st) snd (fun b => OpMget b.*2) st c (indexed keys) ->
  exists parts c' As',
    Dispatch.dispatch_mget clock_at instant_at io_at links keys st c
      = (Ok (seen (n_shards st) c As (cs_ns st) <$> keys), c') /\
    ran (cs_ns st) c As (outcomes (fun b => OpMget b.*2) parts) c' As' /\ fanned snd (n_shards st) (indexed keys) parts.
Proof.
  intros Hok Hconn Hready. set (n := n_shards st). set (ns := cs_ns st).
  assert ((forall x, x ∈ indexed keys -> shard_for_key x.2 n = shard_idx st) -> exists parts c' As',
    Cluster.call_str (shard_idx st) (ShardStore.mget (clock_at (shard_idx st)) (instant_at (shard_idx st))
      (io_at (shard_idx st)) ns keys) c = (Ok (seen n c As ns <$> keys), c') /\
    ran ns c As (outcomes (fun b => OpMget b.*2) parts) c' As' /\ fanned snd n (indexed keys) parts) as Hlocal.
  { intros Hall. destruct (local_fanned max clock_at instant_at io_at links Hclock Hio Hlinks ns snd st c As (indexed keys)
      (fun b => OpMget b.*2) _ (fun _ => entries_of) Hok Hconn
      (fun b => mget_performs ns (shard_idx st) b.*2) Hready Hall) as (r & c' & As' & Hcall & Hran & Hfan).
    rewrite indexed_keys in Hcall. exists [(shard_idx st, indexed keys, r)], c', As'. split_and!; [|done|done].
    destruct (part_answers _ _ _ _ _ _ _ _ Hran Hfan (shard_idx st) (indexed keys) r) as [-> _]; [constructor|].
    by rewrite Hcall, indexed_keys. }
  unfold Dispatch.dispatch_mget. destruct (Dispatch.fan_out_txs st) as [txs|] eqn:Htx;
    [|apply Hlocal; intros x _; by eapply single_shard].
  destruct (Dispatch.others_empty _ _ _) eqn:Hall.
  { apply Hlocal. intros x Hx. eapply (others_empty_home snd); [apply Hconn|exact Hall|done]. }
  destruct (sent_fanned max clock_at instant_at io_at links Hclock Hio Hlinks ns snd st c As (indexed keys) (fun b => OpMget b.*2)
    (CrossShard.MGet ns) (fun b r => match to_str (entries_of r) with Ok es => Ok (zip b.*1 es) | Err e => Err e end) _
    (fun _ => entries_of) Hok Hconn (mget_served ns) (fun b => mget_performs ns (shard_idx st) b.*2) Hready)
    as (remote & mine & c1 & c2 & As2 & Hsend & Hmine & Hran & Hfan).
  pose proof (part_answers _ _ _ _ _ _ _ _ Hran Hfan) as Hrep. 
  pose proof (gather_parts _ _ _ _ _ _ _ _ (mine ++ remote) Hran Hfan (Permutation_app_comm _ _)) as Hall'.
  rewrite fmap_app, concat_app, put_results_app in Hall'.
  assert (forall c0, Dispatch.await_all Dispatch.reply_dropped ((fun x => Some (match to_str (entries_of x.2) with
      Ok es => Ok (zip x.1.2.*1 es) | Err e => Err e end)) <$> remote) c0
    = (Ok ((fun x => zip x.1.2.*1 (seen n c As ns <$> x.1.2.*2)) <$> remote), c0)) as Hwait.
  { intros c0. apply (await_replies _ (fun b r => match to_str (entries_of r) with Ok es => Ok (zip b.*1 es) | Err e => Err e end)).
    intros [[i b] r] Hx. destruct (Hrep i b r) as [-> _]; [apply elem_of_app; by left|done]. }
  exists (remote ++ mine), c2, As2. split_and!; [|done|done].
  subst n ns. unfold mbind, st_mbind, st_bind at 1, Dispatch.bucket_by_shard. fold (indexed keys). rewrite Hsend. unfold st_bind.
  destruct (add_share _ None) as [b|].
  - destruct Hmine as (r & -> & Hcall).
    destruct (Hrep (shard_idx st) b r) as [-> _]; [apply elem_of_app; right; constructor|].
    rewrite Hcall. cbn [to_failure entries_of]. unfold mret, st_mret, st_ret. rewrite Hwait. rewrite put_results_concat.
    cbn [fmap list_fmap concat fst snd] in Hall'. rewrite app_nil_r in Hall'. by rewrite Hall'.
  - destruct Hmine as [-> ->]. unfold mret, st_mret, st_ret. rewrite Hwait, put_results_concat. cbn [fmap list_fmap concat Dispatch.put_results foldl] in Hall'. by rewrite Hall'.
Qed.

(** ** The commands for all shards *)

Definition all_ready (ns : bytes) (o : op) (st : ConnState) (c : list ShardStore.t) : Prop :=
  forall i, (i < n_shards st)%nat -> exists s, c !! i = Some s /\ op_ok ns o s.

Definition on_all (o : op) (rs : list (eresult reply)) : list (nat * op * eresult reply) :=
  zip_with (fun i r => (i, o, r)) (seq 0 (length rs)) rs.

Lemma on_all_lookup o rs i r : rs !! i = Some r -> (i, o, r) ∈ on_all o rs.
Proof.
  intros Hi. apply list_elem_of_lookup. exists i. unfold on_all. rewrite lookup_zip_with, Hi.
  rewrite lookup_seq_lt by (by eapply lookup_lt_Some). done.
Qed.

Lemma all_fans st c As o {R} (req : CrossShard.CrossShardRequest R) (local : ST ShardStore.t EngineError R) g (h : eresult reply -> R)
    (k : list R -> ST (list ShardStore.t) Cluster.failure R) :
  performs clock_at instant_at io_at (cs_ns st) (shard_idx st) local o g ->
  served clock_at instant_at io_at (cs_ns st) req o (to_str ∘ g) ->
  (forall As' i r, step_map (cs_ns st) c As As' i o r -> g r = Ok (h r)) ->
  cluster_ok As c -> conn_ok st c -> all_ready (cs_ns st) o st c ->
  exists rs c' As', length rs = n_shards st /\ ran (cs_ns st) c As (on_all o rs) c' As' /\
    match Dispatch.fan_out_txs st with
    | None => exists r, rs = [r] /\ Cluster.call_str (shard_idx st) local c = (Ok (h r), c')
    | Some txs =>
        (replies ← Dispatch.send_all clock_at instant_at io_at links req (seq 0 txs);
         counts ← Dispatch.await_all canceled_message replies; k counts) c = k (h <$> rs) c'
    end.
Proof.
  intros Hloc Hreq Hspec Hok (Htx & Hlen & Hself) Hready. unfold Dispatch.fan_out_txs. case_decide as Hn.
  - destruct (Hready (shard_idx st) Hself) as (s & Hs & Ho).
    destruct (call_str_ran max clock_at instant_at io_at links Hclock Hio (cs_ns st) c As [] c As _ s o local g Hloc
      (ran_nil _ _ _ _ _ _ Hok)) as (r & c' & As' & Hcall & Hran); [apply not_elem_of_nil|done..|].
    assert (n_shards st = 1%nat /\ shard_idx st = 0%nat) as [Hn1 H01] by lia.
    exists [r], c', As'. rewrite Hn1. split_and!; [done|rewrite H01 in Hran; exact Hran|].
    exists r. split; [done|]. rewrite Hcall, (Hspec As' (shard_idx st) r); [done|]. eapply ran_step; [exact Hran|constructor].
  - rewrite Htx.
    destruct (send_all_ran max clock_at instant_at io_at links Hclock Hio Hlinks (cs_ns st) o req (to_str ∘ g) c As Hreq
      (seq 0 (n_shards st)) [] c As (ran_nil _ _ _ _ _ _ Hok) (NoDup_seq _ _)) as (rs & c2 & As2 & Hrl & Hsend & Hran).
    { intros i _. apply not_elem_of_nil. }
    { intros i Hi%elem_of_seq. apply Hready. lia. }
    rewrite length_seq in Hrl. exists rs, c2, As2. split; [done|]. unfold on_all. rewrite Hrl. split; [done|].
    unfold mbind, st_mbind, st_bind. rewrite Hsend.
    replace ((fun r => Some ((to_str ∘ g) r)) <$> rs) with ((fun r => Some (Ok r : sresult R)) <$> (h <$> rs)); [by rewrite await_all_ok|].
    rewrite <- list_fmap_compose. apply list_fmap_ext. intros i r Hi. cbn. rewrite (Hspec As2 i r); [done|].
    eapply ran_step; [exact Hran|]. rewrite <- Hrl. by apply on_all_lookup.
Qed.

(** ** What the commands do to the union of the shards *)

(** The lists of different shards have nothing in common. *)
Lemma NoDup_homes (home : bytes -> nat) (f : nat -> list bytes) shards :
  NoDup shards -> (forall i, i ∈ shards -> NoDup (f i)) -> (forall i k, i ∈ shards -> k ∈ f i -> home k = i) ->
  NoDup (concat (f <$> shards)).
Proof.
  induction shards as [|i shards IH]; intros Hnd Hf Hh; [constructor|]. apply NoDup_cons in Hnd as [Hi Hnd].
  cbn. apply NoDup_app. split_and!; [apply Hf; constructor| |].
  - intros k Hk Hrest. apply list_elem_of_In, in_concat in Hrest as (l & Hl%list_elem_of_In & Hkl%list_elem_of_In).
    apply list_elem_of_fmap in Hl as (j & -> & Hj). apply Hi.
    rewrite <- (Hh i k), (Hh j k) by (done || (by constructor)). done.
  - apply IH; [done|..]; intros; [apply Hf|apply Hh]; by try constructor.
Qed.

Lemma sum_lengths (f : nat -> list bytes) shards :
  Dispatch.sum ((fun i => zlen (f i)) <$> shards) = zlen (concat (f <$> shards)).
Proof.
  induction shards as [|i shards IH]; [done|]. unfold Dispatch.sum in *. cbn [fmap list_fmap foldr concat].
  rewrite IH. unfold zlen. rewrite length_app. lia.
Qed.

Lemma elem_of_homes (f : nat -> list bytes) shards k : k ∈ concat (f <$> shards) <-> exists i, i ∈ shards /\ k ∈ f i.
Proof.
  rewrite list_elem_of_In, in_concat. split.
  - intros (l & Hl%list_elem_of_In & Hk%list_elem_of_In). apply list_elem_of_fmap in Hl as (i & -> & Hi). by exists i.
  - intros (i & Hi & Hk). exists (f i). split; apply list_elem_of_In; [|done]. apply list_elem_of_fmap. by exists i.
Qed.

Lemma counted_parts (f : nat -> list bytes) (parts : list (nat * list bytes * eresult reply)) :
  (forall i b r, (i, b, r) ∈ parts -> r = Ok (RCount (zlen (f i)))) ->
  Dispatch.sum (counted <$> parts) = zlen (concat (f <$> parts.*1.*1)).
Proof.
  intros Hr. rewrite <- sum_lengths. f_equal. rewrite <- !list_fmap_compose. apply list_fmap_ext.
  intros j [[i b] r] Hj%list_elem_of_lookup_2. cbn. by rewrite (Hr _ _ _ Hj).
Qed.

Lemma filter_concat {X} (P : X -> Prop) `{forall x, Decision (P x)} (ls : list (list X)) :
  filter P (concat ls) = concat (filter P <$> ls).
Proof. induction ls as [|l ls IH]; [done|]. cbn. by rewrite filter_app, IH. Qed.

Lemma filter_same {X} (P Q : X -> Prop) `{forall x, Decision (P x)} `{forall x, Decision (Q x)} (l : list X) :
  (forall x, x ∈ l -> P x <-> Q x) -> filter P l = filter Q l.
Proof.
  induction l as [|x l IH]; intros Hpq; [done|]. rewrite !filter_cons, IH by (intros; apply Hpq; by constructor).
  pose proof (Hpq x ltac:(constructor)). repeat case_decide; tauto || done.
Qed.

(** Keys stay on their shards when no key is added that belongs elsewhere. *)
Lemma fanned_placed {B} n ns (key : B -> bytes) mkop c As c' As' items parts :
  ran ns c As (outcomes mkop parts) c' As' -> fanned key n items parts -> placed n As ->
  (forall i b r k a, step_map ns c As As' i (mkop b) r -> ns_map As' i ns !! k = Some a ->
     (exists a', ns_map As i ns !! k = Some a') \/ k ∈ key <$> b) ->
  placed n As'.
Proof.
  intros Hran Hfan Hp Hnew. eapply ran_placed; [exact Hran|exact Hp|]. intros i o r Hin k a Ha.
  pose proof (ran_step _ _ _ _ _ _ _ _ _ _ _ _ Hran Hin) as Hstep.
  apply list_elem_of_fmap in Hin as ([[i' b] r'] & [= -> -> ->] & Hin).
  destruct (Hnew _ _ _ _ _ Hstep Ha) as [|Hk]; [by left|right].
  destruct (fan_share _ _ _ _ Hfan _ _ _ Hin) as [_ ->]. apply list_elem_of_fmap in Hk as (x & -> & Hx).
  by apply share_home in Hx as [].
Qed.

Abbreviation whole_of st := (fun As k => whole (n_shards st) As (cs_ns st) k).
Abbreviation live_of st := (fun c As k => live clock_at (n_shards st) c As (cs_ns st) k).

(** The map, the reply and the new map. *)
Definition fan_spec (cmd : Command.t) (st : ConnState) (c : list ShardStore.t) (As As' : list contents) (v : Value) : Prop :=
  match cmd with
  | Command.MGet ks =>
      v = Dispatch.mget_reply (seen (n_shards st) c As (cs_ns st) <$> ks) /\
      forall k, whole_of st As' k = if decide (k ∈ ks) then live_of st c As k else whole_of st As k
  | Command.MSet ps =>
      v = response.ok /\
      forall k, match last_value ps k with
                | Some val => exists ts, ns_last As (shard_for_key k (n_shards st)) (cs_ns st) < ts /\
                                whole_of st As' k = Some (mkA val [] None ts)
                | None => whole_of st As' k = whole_of st As k
                end
  | Command.Del ks =>
      exists gone, NoDup gone /\ (forall k, k ∈ gone <-> k ∈ ks /\ live_of st c As k <> None) /\
        v = response.integer (as_i64 (zlen gone)) /\
        forall k, whole_of st As' k = if decide (k ∈ ks) then None else whole_of st As k
  | Command.Exists ks =>
      v = response.integer (as_i64 (zlen (filter (fun k => live_of st c As k <> None) ks))) /\
      forall k, whole_of st As' k = whole_of st As k
  | Command.DbSize =>
      exists all, NoDup all /\ (forall k, k ∈ all <-> whole_of st As k <> None) /\
        v = response.integer (as_i64 (zlen all)) /\ forall k, whole_of st As' k = whole_of st As k
  | Command.FlushDb => v = response.ok /\ forall k, whole_of st As' k = None
  | _ => False
  end.

(** What each shard must be able to do; only the commands that fan out. *)
Definition fan_ready (cmd : Command.t) (st : ConnState) (c : list ShardStore.t) : Prop :=
  match cmd with
  | Command.MGet ks => shares_ready (cs_ns st) snd (fun b => OpMget b.*2) st c (indexed ks)
  | Command.MSet ps => shares_ready (cs_ns st) fst OpMset st c ps
  | Command.Del ks => shares_ready (cs_ns st) id OpDel st c ks
  | Command.Exists ks => shares_ready (cs_ns st) id OpExists st c ks
  | Command.DbSize => all_ready (cs_ns st) OpDbSize st c
  | Command.FlushDb => all_ready (cs_ns st) OpFlush st c
  | _ => False
  end.

Lemma mget_on_whole n ns c As c' As' keys parts :
  ran ns c As (outcomes (fun b => OpMget b.*2) parts) c' As' -> fanned snd n (indexed keys) parts -> placed n As ->
  placed n As' /\
  forall k, whole n As' ns k = if decide (k ∈ keys) then live clock_at n c As ns k else whole n As ns k.
Proof.
  intros Hran Hfan Hp. split.
  - eapply fanned_placed; [exact Hran|exact Hfan|done|]. intros i b r k a (sp & sp' & evs & Hm & _ & Hm' & _ & Hs & _) Ha.
    left. rewrite Hm', Hs, purge_all_lookup in Ha. rewrite Hm. case_decide; [apply find_Some in Ha as []|]; by eexists.
  - intros k. unfold whole, live.
    destruct (fanned_part max clock_at instant_at io_at links Hclock Hio Hlinks ns snd n _ c As c' As' _ _ k Hran Hfan)
      as [(r & sp & sp' & evs & Hm & _ & Hm' & _ & Hs & _)|[Hnil ->]].
    + rewrite Hm', Hs, purge_all_lookup, Hm.
      assert (k ∈ (share snd n (shard_for_key k n) (indexed keys)).*2 <-> k ∈ keys) as Hk; [|by repeat case_decide; try tauto].
      rewrite list_elem_of_fmap. split.
      * intros ([j k'] & -> & [_ Hj%indexed_elem]%share_home). by eapply list_elem_of_lookup_2.
      * intros [j Hj]%list_elem_of_lookup. exists (j, k). split; [done|]. apply share_home. by rewrite indexed_elem.
    + rewrite decide_False; [done|]. intros [j Hj]%list_elem_of_lookup.
      assert ((j, k) ∈ share snd n (shard_for_key k n) (indexed keys)) as Hin by (apply share_home; by rewrite indexed_elem).
      rewrite Hnil in Hin. by apply not_elem_of_nil in Hin.
Qed.

Lemma mset_on_whole n ns c As c' As' pairs parts :
  ran ns c As (outcomes OpMset parts) c' As' -> fanned fst n pairs parts -> placed n As ->
  placed n As' /\
  forall k, match last_value pairs k with
            | Some val => exists ts, ns_last As (shard_for_key k n) ns < ts /\ whole n As' ns k = Some (mkA val [] None ts)
            | None => whole n As' ns k = whole n As ns k
            end.
Proof.
  intros Hran Hfan Hp. split.
  - eapply fanned_placed; [exact Hran|exact Hfan|done|].
    intros i b r k a (sp & sp' & evs & Hm & _ & Hm' & tss & Hlen & _ & _ & Hs & _) Ha. rewrite Hm', Hs in Ha.
    pose proof (put_all_lookup b k (sp_map sp) tss Hlen) as Hput. destruct (last_value b k) as [val|] eqn:Hl.
    + right. destruct (decide (k ∈ b.*1)) as [|Hk]; [done|]. by rewrite last_value_fresh in Hl.
    + left. rewrite Hput in Ha. rewrite Hm. by eexists.
  - intros k. rewrite <- (last_value_share n). unfold whole.
    destruct (fanned_part max clock_at instant_at io_at links Hclock Hio Hlinks ns fst n _ c As c' As' _ _ k Hran Hfan)
      as [(r & sp & sp' & evs & Hm & Hl & Hm' & tss & Hlen & Hts & _ & Hs & _)|[Hnil ->]]; [|by rewrite Hnil].
    pose proof (put_all_lookup _ k (sp_map sp) tss Hlen) as Hput. destruct (last_value _ k) as [val|].
    + destruct Hput as (ts & Hin & Hput). exists ts. rewrite Hl, Hm', Hs. split; [|done]. by eapply Forall_forall in Hts.
    + by rewrite Hm', Hs, Hm.
Qed.

Lemma share_empty n k keys : share id n (shard_for_key k n) keys = [] -> k ∉ keys.
Proof. intros Hnil Hk. apply (share_elem n) in Hk. rewrite Hnil in Hk. by apply not_elem_of_nil in Hk. Qed.

Lemma del_on_whole n ns c As c' As' keys parts :
  ran ns c As (outcomes OpDel parts) c' As' -> fanned id n keys parts -> placed n As ->
  placed n As' /\
  (exists gone, NoDup gone /\ (forall k, k ∈ gone <-> k ∈ keys /\ live clock_at n c As ns k <> None) /\
     Dispatch.sum (counted <$> parts) = zlen gone) /\
  forall k, whole n As' ns k = if decide (k ∈ keys) then None else whole n As ns k.
Proof.
  intros Hran Hfan Hp. split_and!.
  - eapply fanned_placed; [exact Hran|exact Hfan|done|].
    intros i b r k a (sp & sp' & evs & Hm & _ & Hm' & tss & _ & _ & _ & Hs & _) Ha. left. rewrite Hm', Hs in Ha.
    rewrite delete_keys_lookup in Ha. case_decide; [done|]. rewrite Hm. by eexists.
  - pose (f := fun i => removed (now_of clock_at c i) (ns_map As i ns) (share id n i keys)).
    exists (concat (f <$> parts.*1.*1)). split_and!.
    + apply (NoDup_homes (fun k => shard_for_key k n)); [apply Hfan|intros i _; apply removed_spec|].
      intros i k _ Hk%removed_spec. by destruct Hk as [[Hk _]%share_home _].
    + intros k. rewrite elem_of_homes. unfold live. split.
      * intros (i & _ & [Hk Hl]%removed_spec). apply share_home in Hk as [<- Hk]. done.
      * intros [Hk Hl]. exists (shard_for_key k n). split; [by apply (fan_all _ _ _ _ Hfan k)|].
        apply removed_spec. split; [by apply share_elem|done].
    + apply counted_parts. intros i b r Hin. destruct (fan_share _ _ _ _ Hfan _ _ _ Hin) as [_ ->].
      destruct (ran_step _ _ _ _ _ _ _ _ _ _ _ _ Hran (outcomes_elem _ _ _ _ _ Hin)) as (sp & sp' & evs & Hm & _ & _ & tss & _ & _ & -> & _).
      unfold f. by rewrite Hm.
  - intros k. unfold whole.
    destruct (fanned_part max clock_at instant_at io_at links Hclock Hio Hlinks ns id n _ c As c' As' _ _ k Hran Hfan)
      as [(r & sp & sp' & evs & Hm & _ & Hm' & tss & _ & _ & _ & Hs & _)|[Hnil ->]].
    + rewrite Hm', Hs, delete_keys_lookup. pose proof (share_elem n k keys). repeat case_decide; try tauto. by rewrite Hm.
    + rewrite decide_False; [done|]. by eapply share_empty.
Qed.

Lemma exists_on_whole n ns c As c' As' keys parts :
  ran ns c As (outcomes OpExists parts) c' As' -> fanned id n keys parts -> placed n As ->
  placed n As' /\
  Dispatch.sum (counted <$> parts) = zlen (filter (fun k => live clock_at n c As ns k <> None) keys) /\
  forall k, whole n As' ns k = whole n As ns k.
Proof.
  intros Hran Hfan Hp. split_and!.
  - eapply fanned_placed; [exact Hran|exact Hfan|done|].
    intros i b r k a (sp & sp' & evs & Hm & _ & Hm' & _ & -> & _) Ha. left. rewrite Hm' in Ha. rewrite Hm. by eexists.
  - rewrite (counted_parts (fun i => filter (fun k => live clock_at n c As ns k <> None) (share id n i keys))).
    + replace ((fun i => _) <$> parts.*1.*1) with (filter (fun k => live clock_at n c As ns k <> None) <$> ((fun i => share id n i keys) <$> parts.*1.*1))
        by (by rewrite <- list_fmap_compose).
      unfold zlen. rewrite <- filter_concat, shares_permutation; [done|apply Hfan|apply (fan_all _ _ _ _ Hfan)].
    + intros i b r Hin. destruct (fan_share _ _ _ _ Hfan _ _ _ Hin) as [_ ->].
      destruct (ran_step _ _ _ _ _ _ _ _ _ _ _ _ Hran (outcomes_elem _ _ _ _ _ Hin)) as (sp & sp' & evs & Hm & _ & _ & -> & _ & _).
      do 3 f_equal. apply filter_same. intros k [Hk _]%share_home. unfold id in Hk. unfold live. by rewrite Hk, Hm.
  - intros k. unfold whole.
    by destruct (fanned_part max clock_at instant_at io_at links Hclock Hio Hlinks ns id n _ c As c' As' _ _ k Hran Hfan)
      as [(r & sp & sp' & evs & -> & _ & -> & _ & -> & _)|[_ ->]].
Qed.

Lemma on_all_step o ns c As c' As' rs i :
  ran ns c As (on_all o rs) c' As' -> (i < length rs)%nat -> exists r, rs !! i = Some r /\ step_map ns c As As' i o r.
Proof.
  intros Hran [r Hr]%lookup_lt_is_Some. exists r. split; [done|]. eapply ran_step; [exact Hran|by apply on_all_lookup].
Qed.

Lemma dbsize_on_whole n ns c As c' As' rs :
  (0 < n)%nat -> length rs = n -> ran ns c As (on_all OpDbSize rs) c' As' -> placed n As ->
  placed n As' /\
  (exists all, NoDup all /\ (forall k, k ∈ all <-> whole n As ns k <> None) /\
     Dispatch.sum ((fun r => counted (0%nat, [], r)) <$> rs) = zlen all) /\
  forall k, whole n As' ns k = whole n As ns k.
Proof.
  intros Hn Hlen Hran Hp.
  assert (forall i, ns_map As' i ns = ns_map As i ns) as Hsame.
  { intros i. destruct (decide (i < n)%nat) as [Hi|Hi].
    - rewrite <- Hlen in Hi. destruct (on_all_step _ _ _ _ _ _ _ _ Hran Hi) as (r & _ & sp & sp' & evs & -> & _ & -> & _ & -> & _). done.
    - eapply ran_same; [exact Hran|right]. rewrite list_elem_of_fmap. intros ([[j o] r] & -> & Hin).
      apply elem_of_zip_with in Hin as (j' & r' & [= -> -> ->] & Hj%elem_of_seq & _). cbn in Hi. lia. }
  split_and!.
  - eapply ran_placed; [exact Hran|done|]. intros i o r _ k a Ha. left. rewrite <- Hsame. by exists a.
  - pose (f := fun i => (map_to_list (ns_map As i ns)).*1).
    exists (concat (f <$> seq 0 n)). split_and!.
    + apply (NoDup_homes (fun k => shard_for_key k n)); [apply NoDup_seq|intros i _; apply NoDup_fst_map_to_list|].
      intros i k _ Hk. apply list_elem_of_fmap in Hk as ([k' a] & -> & Hk%elem_of_map_to_list). by eapply Hp.
    + intros k. rewrite elem_of_homes. unfold whole. split.
      * intros (i & _ & Hk). apply list_elem_of_fmap in Hk as ([k' a] & -> & Hk%elem_of_map_to_list).
        cbn. by rewrite (Hp i ns k' a), Hk.
      * intros Hk. exists (shard_for_key k n). split; [apply elem_of_seq; pose proof (shard_for_key_lt k n Hn); lia|].
        destruct (ns_map As (shard_for_key k n) ns !! k) as [a|] eqn:Ha; [|done].
        apply list_elem_of_fmap. exists (k, a). split; [done|]. by apply elem_of_map_to_list.
    + rewrite <- sum_lengths. f_equal. apply list_eq. intros i. rewrite !list_lookup_fmap.
      destruct (decide (i < n)%nat) as [Hi|Hi].
      * rewrite lookup_seq_lt by done. rewrite <- Hlen in Hi.
        destruct (on_all_step _ _ _ _ _ _ _ _ Hran Hi) as (r & -> & sp & sp' & evs & Hm & _ & _ & -> & _ & _).
        cbn. unfold f, zlen. by rewrite Hm, length_fmap, length_map_to_list.
      * rewrite !lookup_ge_None_2; [done|..]; rewrite ?length_seq; lia.
  - intros k. unfold whole. by rewrite Hsame.
Qed.

Lemma flush_on_whole n ns c As c' As' rs :
  (0 < n)%nat -> length rs = n -> ran ns c As (on_all OpFlush rs) c' As' -> placed n As ->
  placed n As' /\ forall k, whole n As' ns k = None.
Proof.
  intros Hn Hlen Hran Hp.
  assert (forall i, (i < n)%nat -> ns_map As' i ns = ∅) as Hempty.
  { intros i Hi. rewrite <- Hlen in Hi.
    by destruct (on_all_step _ _ _ _ _ _ _ _ Hran Hi) as (r & _ & sp & sp' & evs & _ & _ & -> & ts & ks & _ & _ & -> & _). }
  split.
  - eapply ran_placed; [exact Hran|done|]. intros i o r Hin k a Ha.
    apply elem_of_zip_with in Hin as (j' & r' & [= -> -> ->] & Hj%elem_of_seq & _).
    rewrite Hempty in Ha by (cbn in Hj; lia). by rewrite lookup_empty in Ha.
  - intros k. unfold whole. rewrite Hempty by (by apply shard_for_key_lt). apply lookup_empty.
Qed.

Lemma ran_elsewhere n ns c As done c' As' :
  ran ns c As done c' As' -> forall ns' k, ns' <> ns -> whole n As' ns' k = whole n As ns' k.
Proof. intros Hran ns' k Hns. unfold whole. by erewrite ran_same; [|exact Hran|left]. Qed.

Lemma dbsize_count As' i r st c As : step_map (cs_ns st) c As As' i OpDbSize r -> count_of r = Ok (counted (0%nat, [], r)).
Proof. by intros (sp & sp' & evs & _ & _ & _ & -> & _). Qed.

Lemma flush_unit As' i r st c As : step_map (cs_ns st) c As As' i OpFlush r -> unit_of r = Ok tt.
Proof. by intros (sp & sp' & evs & _ & _ & _ & ts & ks & _ & -> & _). Qed.

(** C2: The commands that go to all shards act on one map, as long as every key is on
    the shard that it hashes to ([placed]).  With every link to another shard up, no
    failing I/O, clocks of 63 bits and shards that can do their part ([fan_ready]),
    [MGET], [MSET], [DEL], [EXISTS], [DBSIZE] and [FLUSHDB] then reply and change the
    union of the maps of the shards as on a single map: the replies of [MGET] are in
    the order of the keys, a batch leaves the last value of each key with a new
    revision, [DEL] counts each live key once, the sizes add up to the number of
    different keys, and [FLUSHDB] leaves nothing.  They keep every key on the shard that
    it hashes to, and other namespaces as they were.  Commands with one key do not keep
    it there when the connection is served by another shard
    ([single_key_commands_stay_on_their_shard]). *)
Theorem fan_out_refines_map merges cmd st c As :
  cluster_ok As c -> conn_ok st c -> placed (n_shards st) As -> fan_ready cmd st c ->
  exists v c' As',
    Dispatch.dispatch_store clock_at instant_at io_at links merges cmd st c = (Ok v, c') /\
    cluster_ok As' c' /\ placed (n_shards st) As' /\ fan_spec cmd st c As As' v /\
    forall ns k, ns <> cs_ns st -> whole (n_shards st) As' ns k = whole (n_shards st) As ns k.
Proof.
  intros Hok Hconn Hp Hready. assert (0 < n_shards st)%nat as Hn by (destruct Hconn as (_ & _ & ?); lia).
  destruct cmd; cbn [fan_ready] in Hready; try done; cbn [Dispatch.dispatch_store fan_spec]; unfold Dispatch.or_error.
  - destruct (count_fans st c As keys _ _ _ (del_performs _ _) (del_served _)) as (parts & c' & As' & Hrun & Hran & Hfan); [|done..|].
    { intros i b r As' (sp & sp' & evs & _ & _ & _ & tss & _ & _ & -> & _). by eexists. }
    destruct (del_on_whole _ _ _ _ _ _ _ _ Hran Hfan Hp) as (Hp' & (gone & Hnd & Hgone & Hsum) & Hw).
    unfold Dispatch.dispatch_del. rewrite Hrun, Hsum. eexists _, c', As'. split_and!; [done|apply Hran|done| |by eapply ran_elsewhere].
    exists gone. by split_and!.
  - destruct (count_fans st c As keys _ _ _ (exists_performs _ _) (exists_served _)) as (parts & c' & As' & Hrun & Hran & Hfan); [|done..|].
    { intros i b r As' (sp & sp' & evs & _ & _ & _ & -> & _). by eexists. }
    destruct (exists_on_whole _ _ _ _ _ _ _ _ Hran Hfan Hp) as (Hp' & Hsum & Hw).
    unfold Dispatch.dispatch_exists. rewrite Hrun, Hsum. eexists _, c', As'. by split_and!; [|apply Hran| | | |eapply ran_elsewhere].
  - destruct (mget_fans st c As keys Hok Hconn Hready) as (parts & c' & As' & Hrun & Hran & Hfan).
    destruct (mget_on_whole _ _ _ _ _ _ _ _ Hran Hfan Hp) as (Hp' & Hw).
    rewrite Hrun. eexists _, c', As'. by split_and!; [|apply Hran| | | |eapply ran_elsewhere].
  - destruct (mset_fans st c As pairs Hok Hconn Hready) as (parts & c' & As' & Hrun & Hran & Hfan).
    destruct (mset_on_whole _ _ _ _ _ _ _ _ Hran Hfan Hp) as (Hp' & Hw).
    rewrite Hrun. eexists _, c', As'. by split_and!; [|apply Hran| | | |eapply ran_elsewhere].
  - destruct (all_fans st c As _ _ _ _ _ (fun counts => mret (Dispatch.sum counts)) (dbsize_performs _ _) (dbsize_served _)
      (fun As' i r => dbsize_count As' i r st c As) Hok Hconn Hready) as (rs & c' & As' & Hlen & Hran & Hrun).
    destruct (dbsize_on_whole _ _ _ _ _ _ _ Hn Hlen Hran Hp) as (Hp' & (all & Hnd & Hall & Hsum) & Hw).
    assert (Dispatch.dispatch_dbsize clock_at instant_at io_at links st c = (Ok (zlen all), c')) as ->.
    { unfold Dispatch.dispatch_dbsize. destruct (Dispatch.fan_out_txs st); [by rewrite Hrun, <- Hsum|].
      destruct Hrun as (r & -> & ->). rewrite <- Hsum. cbn. by rewrite Z.add_0_r. }
    eexists _, c', As'. split_and!; [done|apply Hran|done| |by eapply ran_elsewhere]. exists all. by split_and!.
  - destruct (all_fans st c As _ _ _ _ (fun _ => tt) (fun _ => mret tt) (flush_performs _ _) (flush_served _)
      (fun As' i r => flush_unit As' i r st c As) Hok Hconn Hready) as (rs & c' & As' & Hlen & Hran & Hrun).
    destruct (flush_on_whole _ _ _ _ _ _ _ Hn Hlen Hran Hp) as (Hp' & Hw).
    assert (Dispatch.dispatch_flushdb clock_at instant_at io_at links st c = (Ok tt, c')) as ->.
    { unfold Dispatch.dispatch_flushdb. destruct (Dispatch.fan_out_txs st); [by rewrite Hrun|by destruct Hrun as (r & _ & ->)]. }
    eexists _, c', As'. by split_and!; [|apply Hran| | | |eapply ran_elsewhere].
Qed.
End Map.

(** ** Two shards *)

#[local] Existing Instance WatchRegistry.bytes_json.
#[local] Existing Instance WatchRegistry.list_mpsc.
#[local] Existing Instance sum_hash.

(** Stands for the texts of other crates in the examples. *)
#[local] Instance no_messages : Messages := {|
  io_message _ := []; json_message := []; bytes_debug _ := []; canceled_message := []; try_send_message := [] |}.

Definition ex_clocks (i : nat) : nat -> Z := Runs.ex_clock.
Definition ex_instants (i : nat) : nat -> Z := Runs.ex_instant.
Definition ex_ios (i : nat) : nat -> faults := Runs.ex_io.
Definition all_up (i : nat) : Cluster.link := Cluster.Up.
Definition ex_cluster : list ShardStore.t := [Runs.ex_shard; Runs.ex_shard].

(** A connection that the first of two shards serves. *)
Definition ex_conn : ConnState := {|
  cs_ns := DEFAULT_NS; resp_version := 2; quit := false; shard_idx := 0; n_shards := 2; cross_shard_txs := Some 2%nat |}.

Abbreviation ex_dispatch cmd := (Dispatch.dispatch_store ex_clocks ex_instants ex_ios all_up (fun _ => []) cmd ex_conn).

Lemma ex_cluster_ok : cluster_ok 200 [∅; ∅] ex_cluster.
Proof.
  assert (store_ok 200 ∅ Runs.ex_shard); [|do 2 (constructor; [done|]); constructor].
  apply Runs.open_store_ok with (fanout_var := None) (threshold_var := None) (cs := []); [lia|reflexivity].
Qed.

Definition ex_pairs : list (bytes * bytes) := [(lit "a", lit "1"); (lit "b", lit "2"); (lit "a", lit "3")].

Lemma fan_out_refines_map_witness :
  exists v c' As', ex_dispatch (Command.MSet ex_pairs) ex_cluster = (Ok v, c') /\
    cluster_ok 200 As' c' /\ placed 2 As' /\
    fan_spec ex_clocks ex_instants (Command.MSet ex_pairs) ex_conn ex_cluster [∅; ∅] As' v /\
    forall ns k, ns <> DEFAULT_NS -> whole 2 As' ns k = whole 2 [∅; ∅] ns k.
Proof.
  apply (fan_out_refines_map 200 ex_clocks ex_instants ex_ios all_up) with (cmd := Command.MSet ex_pairs) (st := ex_conn).
  - intros i n. unfold sane, ex_clocks, Runs.ex_clock. lia.
  - done.
  - done.
  - apply ex_cluster_ok.
  - by repeat split; cbn; lia.
  - intros [|[|i]] ns k a Ha; vm_compute in Ha; done.
  - intros i Hi _. destruct i as [|[|i]]; [..|cbn in Hi; lia]; exists Runs.ex_shard;
      (split; [reflexivity|apply Runs.op_okb_ok; vm_compute; reflexivity]).
Defined.

(** ** Keys of other shards *)

(** Commands on a connection, one after the other. *)
Fixpoint replies_of (cmds : list Command.t) (c : list ShardStore.t) : list (result Cluster.failure Value) :=
  match cmds with
  | [] => []
  | cmd :: cmds => let '(r, c) := ex_dispatch cmd c in r :: replies_of cmds c
  end.

(** A command with one key looks only at the shard that serves the connection.  A
    connection on the first of two shards sets a key of the second one with [MSET];
    [MGET] and [EXISTS] find it there, [GET] and [TTL] answer that there is no such
    key, [INCR] starts another counter at 1, and then [DBSIZE] counts the key twice. *)
Theorem single_key_commands_stay_on_their_shard :
  shard_for_key (lit "a") 2 = 1%nat /\ shard_idx ex_conn = 0%nat /\
  replies_of [Command.MSet [(lit "a", lit "41")]; Command.MGet [lit "a"]; Command.Exists [lit "a"]; Command.Get (lit "a");
              Command.Ttl (lit "a"); Command.Incr (lit "a"); Command.DbSize; Command.MGet [lit "a"]] ex_cluster
  = Ok <$> [response.ok; response.array [response.bulk (lit "41")]; response.integer 1; response.nil;
            response.integer (-2); response.integer 1; response.integer 2; response.array [response.bulk (lit "41")]].
Proof. vm_compute. repeat split. Qed.
