(* ===== verification/Keys.v ===== *)
(** * Listing keys

    [KEYS] and [SCAN] over the shards ([crates/server/src/dispatch.rs],
    [cross_shard.rs]): the loops over the pages of a shard end, a client that follows
    the cursors of [SCAN] gets through all the shards, and the cursors for which it
    does not. *)

From stdpp Require Import base tactics list gmap strings sorting.
From Stdlib Require Import ZArith Lia.
From S2P Require Import Prelude Record Index LogFile ValueStore Recover NsLog NsRepr NsSpec Reclaim NsBatch NsSim NsOk NsContract Ascii Command Glob Cache Watch Stream Store StoreInv StoreSpec StoreMany StoreRefine StoreRun Routing Messages CrossShard Dispatch DispatchRefine DispatchMap.

Open Scope Z_scope.
Open Scope lit_scope.

(** ** The pages of one index *)

Lemma after_NoDup {X} (cursor : option bytes) (m : gmap bytes X) : NoDup (btree_after cursor m).
Proof.
  pose proof (btree_after_sorted cursor m) as Hs. induction Hs as [|x l _ IH Hx]; constructor; [|done].
  intros Hin. rewrite Forall_forall in Hx. by apply (bytes_lt_irrefl x.1), (Hx x).
Qed.

Section Pages.
Context (idx : NsIndex.t) (clock : nat -> Z) (count : nat) (f : bytes -> bool).

(** All pages from a cursor on, the first one taken at the tick [t], and the tick
    after the last one. *)
Inductive pages_to : option bytes -> nat -> list bytes -> nat -> Prop :=
| last_page cursor t page :
    NsIndex.scan idx cursor count (clock t) f = (page, None) -> pages_to cursor t page (S t)
| more_pages cursor t page c rest t' :
    NsIndex.scan idx cursor count (clock t) f = (page, Some c) -> pages_to (Some c) (S t) rest t' ->
    pages_to cursor t (page ++ rest) t'.

(** The keys that are left after a cursor. *)
Definition remaining (cursor : option bytes) : nat := length (btree_after cursor (NsIndex.map idx)).

Lemma remaining_next cursor t page c :
  NsIndex.scan idx cursor count (clock t) f = (page, Some c) -> (remaining (Some c) < remaining cursor)%nat.
Proof.
  intros Hscan. destruct (NsIndex.scan_sound _ _ _ _ _ _ _ Hscan) as (_ & Hin & _ & Hnext).
  destruct (Hnext c eq_refl) as [ks ->].
  destruct (Hin c) as [Hv Ha]; [set_solver|]. unfold NsIndex.visible in Hv.
  apply andb_prop in Hv as [[[e He]%bool_decide_eq_true _]%andb_prop _].
  assert ((c, e) ∈ btree_after cursor (NsIndex.map idx)) as Hc by (by apply btree_after_elem).
  unfold remaining. apply Nat.lt_le_trans with (length ((c, e) :: btree_after (Some c) (NsIndex.map idx))); [cbn; lia|].
  apply submseteq_length, NoDup_submseteq.
  - apply NoDup_cons. split; [|apply after_NoDup].
    intros [_ Hlt]%btree_after_elem. by apply (bytes_lt_irrefl c), Hlt.
  - intros [k e'] [[= -> ->]|[Hk Hlt]%btree_after_elem]%elem_of_cons; [done|].
    apply btree_after_elem. split; [done|]. intros c' Hc'. eapply bytes_lt_trans; [by apply Ha|by apply Hlt].
Qed.

(** The pages end, at most one page after the keys do. *)
Lemma pages_exist n : forall cursor t, (remaining cursor <= n)%nat ->
  exists keys t', pages_to cursor t keys t' /\ (t < t')%nat /\ (t' <= t + S n)%nat.
Proof.
  induction n as [|n IH]; intros cursor t Hn; destruct (NsIndex.scan idx cursor count (clock t) f) as [page [c|]] eqn:Hscan;
    try (exists page, (S t); split; [by constructor|lia]).
  - pose proof (remaining_next _ _ _ _ Hscan). lia.
  - destruct (IH (Some c) (S t)) as (rest & t' & Hrest & ? & ?); [pose proof (remaining_next _ _ _ _ Hscan); lia|].
    exists (page ++ rest), t'. split; [by econstructor|lia].
Qed.

Definition snaps (t t' : nat) : list (NsIndex.t * Z) := (fun j => (idx, clock j)) <$> seq t (t' - t).

Lemma pages_forward cursor t keys t' : pages_to cursor t keys t' -> (t < t')%nat.
Proof. induction 1; lia. Qed.

Lemma pages_snaps cursor t keys t' :
  pages_to cursor t keys t' -> NsIndex.scan_pages count f cursor (snaps t t') = (keys, true).
Proof.
  induction 1 as [cursor t page Hscan|cursor t page c rest t' Hscan Hrest IH]; unfold snaps.
  - replace (S t - t)%nat with 1%nat by lia. cbn [seq fmap list_fmap NsIndex.scan_pages]. by rewrite Hscan.
  - pose proof (pages_forward _ _ _ _ Hrest). replace (t' - t)%nat with (S (t' - S t)) by lia.
    cbn [seq fmap list_fmap NsIndex.scan_pages]. rewrite Hscan. fold (snaps (S t) t'). by rewrite IH.
Qed.

(** What the pages have: every key that is visible all the time, and none that is
    visible at no time. *)
Definition listed (t t' : nat) (keys : list bytes) : Prop :=
  StronglySorted bytes_lt keys /\
  (forall k, k ∈ keys -> exists j, (t <= j < t')%nat /\ NsIndex.visible idx (clock j) f k = true) /\
  (forall k, (forall j, (t <= j < t')%nat -> NsIndex.visible idx (clock j) f k = true) -> k ∈ keys).

Lemma pages_listed t keys t' : pages_to None t keys t' -> listed t t' keys.
Proof.
  intros Hp. pose proof (pages_forward _ _ _ _ Hp) as Ht. apply pages_snaps, NsIndex.scan_pages_sound in Hp as (Hs & _ & Hv & Hall).
  split_and!; [done| |].
  - intros k Hk. destruct (Hv k Hk) as (s & Hin & Hvis). apply list_elem_of_fmap in Hin as (j & -> & Hj%elem_of_seq).
    exists j. split; [lia|done].
  - intros k Hk. apply Hall; [done|done|]. intros s Hs'. apply list_elem_of_fmap in Hs' as (j & -> & Hj%elem_of_seq).
    apply Hk. lia.
Qed.
End Pages.

(** ** The pages of a store *)

Section StorePages.
Context {crc_impl : CrcFast} {blake : Blake3} `{Mpsc} `{Memchr} `{Messages} (clock_at : nat -> Z).
Abbreviation store := ShardStore.t.

(** The filter of a pattern. *)
Definition matching (pattern : option bytes) (k : bytes) : bool :=
  match pattern with None => true | Some p => default false (glob_match p k) end.

(** The namespace can be opened, and then this is its log. *)
Definition opens (ns : bytes) (s s1 : store) (l : NsLog.t) : Prop :=
  ShardStore.ensure_ns ns s = (Ok tt, s1) /\ ShardStore.namespaces s1 !! ns = Some l.

Definition at_tick (n : nat) (s : store) : store := ShardStore.set_ticks n s.

Lemma opens_again ns s s1 l n : opens ns s s1 l -> opens ns (at_tick n s1) (at_tick n s1) l.
Proof.
  intros [He Hl]. split; [|done]. rewrite ShardStore.ensure_ns_eq in *. destruct (negb _); [done|]. cbn. by rewrite Hl.
Qed.

Lemma opens_ticks ns s s1 l : opens ns s s1 l -> ShardStore.ticks s1 = ShardStore.ticks s.
Proof.
  intros [He _]. rewrite ShardStore.ensure_ns_eq in He. destruct (negb _); [done|]. destruct (ShardStore.namespaces s !! ns); [by injection He as <-|].
  case_decide; [done|]. destruct (default _ _) as [files blobs]. destruct (NsLog.open _ _ _); [by injection He as <-|done].
Qed.

(** The cursor of a store. *)
Definition resume (cursor : bytes) : option bytes := match cursor with 1 :: key => Some key | _ => None end.
Definition page_of (r : list bytes * option bytes) : ScanPage :=
  mkScanPage (match r.2 with None => lit "0" | Some k => 1 :: k end) r.1.

Lemma scan_opened ns s s1 l cursor pattern count :
  opens ns s s1 l ->
  ShardStore.scan clock_at ns cursor pattern count s
  = (Ok (page_of (NsIndex.scan (NsLog.index l) (resume cursor) (Z.to_nat count) (clock_at (ShardStore.ticks s)) (matching pattern))),
     at_tick (S (ShardStore.ticks s)) s1).
Proof.
  intros Hop. pose proof (opens_ticks _ _ _ _ Hop) as Ht. destruct Hop as [He Hl]. unfold ShardStore.scan.
  unfold mbind, st_mbind, st_bind. rewrite He. unfold ShardStore.now_ms, ShardStore.index_of, ShardStore.in_ns.
  cbn [ShardStore.namespaces ShardStore.set_ticks]. rewrite Hl, insert_id, Ht by done.
  fold (resume cursor) (matching pattern).
  destruct (NsIndex.scan _ (resume cursor) _ _ _) as [keys next]. by destruct s1.
Qed.

(** The loop of [KEYS]. *)
Lemma all_keys_pages ns pattern l : forall cursor t keys t',
  pages_to (NsLog.index l) clock_at (Z.to_nat 512) (matching pattern) cursor t keys t' -> forall s s1 c all fuel,
  opens ns s s1 l -> ShardStore.ticks s = t -> resume c = cursor -> (t' <= t + fuel)%nat ->
  CrossShard.all_keys_loop clock_at fuel ns pattern c all s = (Ok (Some (all ++ keys)), at_tick t' s1).
Proof.
  induction 1 as [cursor t page Hscan|cursor t page c' rest t' Hscan Hrest IH]; intros s s1 c all fuel Hop Ht Hc Hfuel;
    (destruct fuel as [|fuel]; [|]); try lia; cbn [CrossShard.all_keys_loop]; unfold mbind, st_mbind, st_bind.
  - rewrite (scan_opened _ _ _ _ _ _ _ Hop), Hc, Ht, Hscan. done.
  - pose proof (pages_forward _ _ _ _ _ _ _ _ Hrest). lia.
  - rewrite (scan_opened _ _ _ _ _ _ _ Hop), Hc, Ht, Hscan.
    cbn [page_of next_cursor page_keys fst snd]. 
    change ((1 :: c') =b lit "0") with false. cbn [negb].
    rewrite (IH (at_tick (S t) s1) (at_tick (S t) s1)); [by rewrite <- app_assoc|by eapply opens_again|done|done|lia].
Qed.

(** [KEYS] on one shard ends, within one page more than there are keys. *)
Lemma all_keys_ends ns pattern s s1 l :
  opens ns s s1 l ->
  exists all t', CrossShard.all_keys clock_at ns pattern s = (Ok all, at_tick t' s1) /\
    (ShardStore.ticks s < t' <= ShardStore.ticks s + S (size (NsIndex.map (NsLog.index l))))%nat /\
    listed (NsLog.index l) clock_at (matching pattern) (ShardStore.ticks s) t' all.
Proof.
  intros Hop. pose proof Hop as [He Hl].
  destruct (pages_exist (NsLog.index l) clock_at (Z.to_nat 512) (matching pattern) (size (NsIndex.map (NsLog.index l)))
    None (ShardStore.ticks s)) as (all & t' & Hp & ? & ?).
  { unfold remaining. cbn. by rewrite btree_iter_length. }
  exists all, t'. split_and!; [|done|done|by eapply pages_listed].
  unfold CrossShard.all_keys. rewrite He. unfold CrossShard.key_count. rewrite Hl.
  by rewrite (all_keys_pages ns pattern l _ _ _ _ Hp s s1) by (done || lia).
Qed.
End StorePages.

(** ** The pages of all shards *)

Section Shards.
Context {crc_impl : CrcFast} {blake : Blake3} `{Mpsc} `{Memchr} `{Messages} `{FxHash}.
Context (clock_at instant_at : nat -> nat -> Z) (io_at : nat -> nat -> faults) (links : nat -> Cluster.link).
Context (pattern : option bytes) (count : Z) (st : ConnState).
Abbreviation cluster := (list ShardStore.t).
Abbreviation n := (n_shards st).
Abbreviation ns := (cs_ns st).

(** A cursor of a client: the shard and the cursor of its store; with a single shard
    only the latter. *)
Definition wrap (i : nat) (inner : bytes) : bytes :=
  match Dispatch.fan_out_txs st with None => inner | Some _ => Dispatch.encode_cursor i inner end.

Definition points (cursor : bytes) (i : nat) (inner : bytes) : Prop :=
  match Dispatch.fan_out_txs st with
  | None => cursor = inner /\ i = shard_idx st
  | Some _ => forall c : cluster, Dispatch.decode_cursor cursor c = (Ok (i, inner), c)
  end.

Context (Htxs : cross_shard_txs st = Some n) (Hself : (shard_idx st < n)%nat).

Lemma one_or_more :
  (n = 1%nat /\ shard_idx st = 0%nat /\ Dispatch.fan_out_txs st = None) \/ ((1 < n)%nat /\ Dispatch.fan_out_txs st = Some n).
Proof. unfold Dispatch.fan_out_txs. case_decide; [left|right]; rewrite ?Htxs; split_and!; (done || lia). Qed.

Lemma points_start : points (lit "0") 0 (lit "0").
Proof. unfold points. destruct one_or_more as [(_ & -> & ->)|[_ ->]]; done. Qed.

(** The shard is a byte of the cursor. *)
Lemma points_wrap i inner : (i < n)%nat -> points (wrap i inner) (i mod 256) inner.
Proof.
  intros Hi. unfold points, wrap. destruct one_or_more as [(Hn & -> & ->)|[_ ->]].
  - replace i with 0%nat by lia. done.
  - intros c. unfold Dispatch.encode_cursor. cbn [app Dispatch.decode_cursor].
    rewrite Z.eqb_refl. change 256 with (Z.of_nat 256). by rewrite <- Nat2Z.inj_mod, Nat2Z.id.
Qed.

(** The cursor after a page. *)
Definition onward (i : nat) (next : option bytes) : bytes :=
  match next with
  | Some k => wrap i (1 :: k)
  | None => if decide (n <= S i)%nat then lit "0" else wrap (S i) (lit "0")
  end.

Context (Hlinks : forall i, links i = Cluster.Up).
Abbreviation dispatch_scan cursor := (Dispatch.dispatch_scan clock_at instant_at io_at links cursor pattern count st).

Lemma scan_step cursor i inner c s s1 l :
  points cursor i inner -> (i < n)%nat -> c !! i = Some s -> opens ns s s1 l ->
  dispatch_scan cursor c =
    let '(keys, next) := NsIndex.scan (NsLog.index l) (resume inner) (Z.to_nat count) (clock_at i (ShardStore.ticks s)) (matching pattern) in
    (Ok (mkScanPage (onward i next) keys), <[i := at_tick (S (ShardStore.ticks s)) s1]> c).
Proof.
  intros Hpt Hi Hs Hop. unfold points in Hpt. unfold Dispatch.dispatch_scan, onward, wrap.
  pose proof (scan_opened (clock_at i) _ _ _ _ inner pattern count Hop) as Hscan.
  destruct (NsIndex.scan _ _ _ _ _) as [keys next]. destruct one_or_more as [(Hn & Hz & Hfan)|[Hn Hfan]]; rewrite Hfan in *.
  - destruct Hpt as [-> Hi0]. rewrite <- Hi0. unfold Cluster.call_str, Cluster.call, mbind, st_mbind, st_bind.
    rewrite Hs, Hscan. cbn. destruct next; [done|]. by rewrite decide_True by lia.
  - unfold mbind, st_mbind, st_bind at 1. rewrite Hpt. case_decide as Hown.
    + subst i. unfold Cluster.call_str, Cluster.call, mbind, st_mbind, st_bind. rewrite Hs, Hscan. cbn. by destruct next.
    + rewrite decide_False by lia. unfold st_bind, Cluster.send_to. rewrite Hs. cbn [CrossShard.handle].
      unfold CrossShard.stringly. rewrite Hscan, Hlinks. cbn. by destruct next.
Qed.

(** A client that asks again with the cursor of each reply, until it is [0]. *)
Fixpoint follow (calls : nat) (cursor : bytes) (acc : list bytes) : ST cluster Cluster.failure (option (list bytes)) :=
  match calls with
  | O => mret None
  | S calls =>
      page ← dispatch_scan cursor;
      let acc := acc ++ page_keys page in
      if next_cursor page =b lit "0" then mret (Some acc) else follow calls (next_cursor page) acc
  end.

Lemma wrap_not_end i inner : inner <> lit "0" \/ (1 < n)%nat -> (wrap i inner =b lit "0") = false.
Proof.
  intros Hor. apply not_true_is_false. rewrite bytes_eqb_spec. unfold wrap.
  destruct one_or_more as [(? & _ & ->)|[_ ->]]; [intros ->; destruct Hor; [done|lia]|done].
Qed.

(** The client on one shard. *)
Lemma follow_shard i l : (i < n)%nat -> (i < 256)%nat -> forall cursor t keys t',
  pages_to (NsLog.index l) (clock_at i) (Z.to_nat count) (matching pattern) cursor t keys t' ->
  forall client inner c s s1 acc calls,
  points client i inner -> resume inner = cursor -> c !! i = Some s -> opens ns s s1 l -> ShardStore.ticks s = t ->
  follow (t' - t + calls) client acc c =
    if decide (n <= S i)%nat then (Ok (Some (acc ++ keys)), <[i := at_tick t' s1]> c)
    else follow calls (wrap (S i) (lit "0")) (acc ++ keys) (<[i := at_tick t' s1]> c).
Proof.
  intros Hi H256. induction 1 as [cursor t page Hscan|cursor t page k rest t' Hscan Hrest IH];
    intros client inner c s s1 acc calls Hpt Hres Hs Hop Ht.
  - replace (S t - t + calls)%nat with (S calls) by lia. cbn [follow]. unfold mbind, st_mbind, st_bind.
    rewrite (scan_step _ _ _ _ _ _ _ Hpt Hi Hs Hop), Hres, Ht, Hscan. cbn [next_cursor page_keys onward].
    case_decide; [done|]. by rewrite wrap_not_end by (right; lia).
  - pose proof (pages_forward _ _ _ _ _ _ _ _ Hrest). replace (t' - t + calls)%nat with (S (t' - S t + calls)) by lia.
    cbn [follow]. unfold mbind, st_mbind, st_bind.
    rewrite (scan_step _ _ _ _ _ _ _ Hpt Hi Hs Hop), Hres, Ht, Hscan. cbn [next_cursor page_keys onward].
    rewrite wrap_not_end by (by left). assert (i < length c)%nat by (by eapply lookup_lt_Some).
    rewrite (IH (wrap i (1 :: k)) (1 :: k) _ (at_tick (S t) s1) (at_tick (S t) s1)).
    + rewrite <- app_assoc, list_insert_insert_eq. done.
    + pose proof (points_wrap i (1 :: k) Hi) as Hw. by rewrite Nat.mod_small in Hw.
    + done.
    + by apply list_lookup_insert_eq.
    + by eapply opens_again.
    + done.
Qed.

(** The shards whose namespace is, or can be, opened. *)
Definition all_open (c : cluster) (logs : list NsLog.t) : Prop :=
  length logs = n /\ forall i l, logs !! i = Some l -> exists s s1, c !! i = Some s /\ opens ns s s1 l.

(** The keys of a part of the shards, each of them as it is while the client is there. *)
Definition part_listed (c c' : cluster) (logs : list NsLog.t) (i : nat) (part : list bytes) : Prop :=
  exists s s1 l t', c !! i = Some s /\ logs !! i = Some l /\ opens ns s s1 l /\ c' !! i = Some (at_tick t' s1) /\
    listed (NsLog.index l) (clock_at i) (matching pattern) (ShardStore.ticks s) t' part.

(** Calls that are enough for some shards. *)
Definition calls_for (logs : list NsLog.t) : nat :=
  foldr (fun l m => S (size (NsIndex.map (NsLog.index l))) + m)%nat O logs.

Lemma follow_rest logs m : length logs = n -> forall i client acc calls c,
  (n = i + S m)%nat -> (n <= 256)%nat -> points client i (lit "0") ->
  (forall j l, (i <= j)%nat -> logs !! j = Some l -> exists s s1, c !! j = Some s /\ opens ns s s1 l) ->
  (calls_for (drop i logs) <= calls)%nat ->
  exists parts c', length parts = S m /\ follow calls client acc c = (Ok (Some (acc ++ concat parts)), c') /\
    (forall j, (j < i)%nat -> c' !! j = c !! j) /\
    forall j part, parts !! j = Some part -> part_listed c c' logs (i + j) part.
Proof.
  intros Hlen. induction m as [|m IH]; intros i client acc calls c Hn H256 Hpt Hopen Hcalls;
    destruct (lookup_lt_is_Some_2 logs i) as [l Hl]; try lia;
    destruct (Hopen i l (Nat.le_refl _) Hl) as (s & s1 & Hs & Hop);
    destruct (pages_exist (NsLog.index l) (clock_at i) (Z.to_nat count) (matching pattern) (size (NsIndex.map (NsLog.index l)))
      None (ShardStore.ticks s)) as (keys & t' & Hp & Hlt & Hle);
    try (unfold remaining; cbn; by rewrite btree_iter_length);
    pose proof (pages_listed _ _ _ _ _ _ _ Hp) as Hlisted;
    rewrite (drop_S _ _ _ Hl) in Hcalls; cbn [calls_for foldr] in Hcalls; fold (calls_for (drop (S i) logs)) in Hcalls;
    replace calls with (t' - ShardStore.ticks s + (calls - (t' - ShardStore.ticks s)))%nat by lia;
    rewrite (follow_shard i l) with (t := ShardStore.ticks s) (cursor := None) (keys := keys) (inner := lit "0") (s := s) (s1 := s1)
      by (done || lia);
    assert (i < length c)%nat as Hic by (by eapply lookup_lt_Some).
  - rewrite decide_True by lia. exists [keys], (<[i := at_tick t' s1]> c). split_and!; [done|cbn; by rewrite app_nil_r| |].
    + intros j Hj. rewrite list_lookup_insert_ne by lia. done.
    + intros [|j] part Hpart; [|done]. injection Hpart as <-. rewrite Nat.add_0_r. exists s, s1, l, t'.
      split_and!; [done..|by apply list_lookup_insert_eq|done].
  - rewrite decide_False by lia.
    destruct (IH (S i) (wrap (S i) (lit "0")) (acc ++ keys) (calls - (t' - ShardStore.ticks s))%nat (<[i := at_tick t' s1]> c))
      as (parts & c' & Hplen & Hf & Hsame & Hparts); [lia|done| | |lia|].
    { pose proof (points_wrap (S i) (lit "0")) as Hw. rewrite Nat.mod_small in Hw by lia. apply Hw. lia. }
    { intros j l' Hj Hl'. rewrite list_lookup_insert_ne by lia. apply Hopen; [lia|done]. }
    exists (keys :: parts), c'. split_and!; [cbn; by rewrite Hplen|by rewrite Hf, <- app_assoc| |].
    + intros j Hj. rewrite Hsame by lia. by rewrite list_lookup_insert_ne by lia.
    + intros [|j] part Hpart.
      * injection Hpart as <-. rewrite Nat.add_0_r. exists s, s1, l, t'. split_and!; [done..| |done].
        rewrite Hsame by lia. by apply list_lookup_insert_eq.
      * replace (i + S j)%nat with (S i + j)%nat by lia. destruct (Hparts j part Hpart) as (s' & s1' & l' & t2 & Hs' & Hrest).
        exists s', s1', l', t2. split; [|done]. by rewrite list_lookup_insert_ne in Hs' by lia.
Qed.

(** C9: A client gets through [SCAN].  With at most 256 shards and nothing else going
    on, a client that starts with the cursor [0] and asks again with the cursor of
    every reply is given the cursor [0] again, after at most one call per key and one
    per shard, whatever the page size and the pattern.  It has then been given, shard
    by shard and in increasing order of the keys of each shard, every key that is in
    the index, matches and does not expire meanwhile, and no key that is not. *)
Theorem scan_ends c logs :
  (n <= 256)%nat -> all_open c logs ->
  exists parts c', follow (calls_for logs) (lit "0") [] c = (Ok (Some (concat parts)), c') /\
    length parts = n /\ forall i part, parts !! i = Some part -> part_listed c c' logs i part.
Proof.
  intros H256 [Hlen Hopen]. 
  destruct (follow_rest logs (n - 1) Hlen 0%nat (lit "0") [] (calls_for logs) c) as (parts & c' & Hl & Hf & _ & Hp);
    [lia|done|apply points_start|by intros j l _; apply Hopen|by rewrite drop_0|].
  exists parts, c'. split_and!; [done|lia|done].
Qed.

(** [SCAN] does not end with more than 256 shards.  The shard is one byte of the
    cursor, so the cursor for shard 256 leads back to shard 0; however often the
    client asks, it is never given the cursor [0]. *)
Theorem scan_does_not_end c logs calls :
  (256 < n)%nat -> all_open c logs -> exists c', follow calls (lit "0") [] c = (Ok None, c').
Proof.
  intros H256 Hopen.
  assert (forall i inner client acc c, (i < 256)%nat -> points client i inner -> all_open c logs ->
    exists c', follow calls client acc c = (Ok None, c')) as Hloop; [|apply (Hloop 0%nat (lit "0")); (lia || done || apply points_start)].
  clear Hopen c. induction calls as [|calls IH]; intros i inner client acc c Hi Hpt [Hlen Hopen]; [by eexists|].
  destruct (lookup_lt_is_Some_2 logs i) as [l Hl]; [lia|]. destruct (Hopen i l Hl) as (s & s1 & Hs & Hop).
  cbn [follow]. unfold mbind, st_mbind, st_bind. assert (i < n)%nat as Hin by lia.
  rewrite (scan_step _ _ _ _ _ _ _ Hpt Hin Hs Hop).
  destruct (NsIndex.scan _ _ _ _ _) as [keys next]. cbn [next_cursor page_keys].
  assert (all_open (<[i := at_tick (S (ShardStore.ticks s)) s1]> c) logs) as Hopen'.
  { split; [done|]. intros j l' Hl'. destruct (Hopen j l' Hl') as (s' & s1' & Hs' & Hop').
    assert (i < length c)%nat by (by eapply lookup_lt_Some).
    destruct (decide (i = j)) as [<-|Hne]; [|rewrite list_lookup_insert_ne by done; by exists s', s1'].
    rewrite list_lookup_insert_eq by done. eexists _, _. split; [done|]. rewrite Hl in Hl'. injection Hl' as <-. by eapply opens_again. }
  destruct next as [k|]; cbn [onward]; [|rewrite decide_False by lia]; rewrite wrap_not_end by (right; lia);
    eapply (IH (_ mod 256)%nat); [apply Nat.mod_upper_bound; lia|apply points_wrap; lia|done|
                                  apply Nat.mod_upper_bound; lia|apply points_wrap; lia|done].
Qed.

(** ** [KEYS] *)

Lemma send_keys logs m : forall i c,
  (forall j l, (i <= j < i + m)%nat -> logs !! j = Some l -> exists s s1, c !! j = Some s /\ opens ns s s1 l) ->
  (i + m <= length logs)%nat ->
  exists parts c', length parts = m /\
    Dispatch.send_all clock_at instant_at io_at links (CrossShard.AllKeys ns pattern) (seq i m) c
      = (Ok ((fun r => Some (Ok r)) <$> parts), c') /\
    (forall j, (j < i)%nat -> c' !! j = c !! j) /\
    forall j part, parts !! j = Some part -> part_listed c c' logs (i + j) part.
Proof.
  induction m as [|m IH]; intros i c Hopen Hlen; [by exists [], c|].
  destruct (lookup_lt_is_Some_2 logs i) as [l Hl]; [lia|].
  destruct (Hopen i l ltac:(lia) Hl) as (s & s1 & Hs & Hop).
  destruct (all_keys_ends (clock_at i) ns pattern s s1 l Hop) as (part & t' & Hkeys & _ & Hlisted).
  assert (i < length c)%nat as Hic by (by eapply lookup_lt_Some).
  destruct (IH (S i) (<[i := at_tick t' s1]> c)) as (parts & c' & Hpl & Hsend & Hsame & Hparts); [|lia|].
  { intros j l' Hj Hl'. rewrite list_lookup_insert_ne by lia. apply Hopen; [lia|done]. }
  exists (part :: parts), c'. split_and!; [cbn; by rewrite Hpl| | |].
  - cbn [seq Dispatch.send_all]. unfold mbind, st_mbind, st_bind at 1, Cluster.send_to. rewrite Hs. cbn [CrossShard.handle].
    unfold CrossShard.stringly. rewrite Hkeys, Hlinks. unfold st_bind. by rewrite Hsend.
  - intros j Hj. rewrite Hsame by lia. by rewrite list_lookup_insert_ne by lia.
  - intros [|j] part' Hpart.
    + injection Hpart as <-. rewrite Nat.add_0_r. exists s, s1, l, t'. split_and!; [done..| |done].
      rewrite Hsame by lia. by apply list_lookup_insert_eq.
    + replace (i + S j)%nat with (S i + j)%nat by lia. destruct (Hparts j part' Hpart) as (s' & s1' & l' & t2 & Hs' & Hrest).
      exists s', s1', l', t2. split; [|done]. by rewrite list_lookup_insert_ne in Hs' by lia.
Qed.

(** C10: [KEYS] ends and is complete.  The loops over the pages of every shard end, and
    the reply has, for each shard in turn, every key that is in the index, matches
    and does not expire meanwhile, in increasing order and without repetition; with a
    million keys or more it is an error that asks to use [SCAN]. *)
Theorem keys_complete merges c logs :
  all_open c logs ->
  exists parts c',
    Dispatch.dispatch_store clock_at instant_at io_at links merges (Command.Keys pattern) st c
      = (Ok (if decide (1000000 <= zlen (concat parts))
             then response.error (lit "ERR") (lit "KEYS result too large; use SCAN to paginate large keyspaces")
             else response.array (response.bulk <$> concat parts)), c') /\
    length parts = n /\ forall i part, parts !! i = Some part -> part_listed c c' logs i part.
Proof.
  intros [Hlen Hopen]. cbn [Dispatch.dispatch_store]. unfold Dispatch.or_error, Dispatch.dispatch_keys.
  destruct one_or_more as [(Hn & Hz & ->)|[Hn ->]].
  - destruct (lookup_lt_is_Some_2 logs 0) as [l Hl]; [lia|]. destruct (Hopen 0%nat l Hl) as (s & s1 & Hs & Hop).
    destruct (all_keys_ends (clock_at 0) ns pattern s s1 l Hop) as (part & t' & Hkeys & _ & Hlisted).
    exists [part], (<[0%nat := at_tick t' s1]> c). split_and!; [|by rewrite Hn|].
    + rewrite Hz. unfold Cluster.call_str, Cluster.call, mbind, st_mbind, st_bind. rewrite Hs, Hkeys. cbn. by rewrite app_nil_r.
    + intros [|j] part' Hpart; [|done]. injection Hpart as <-. exists s, s1, l, t'. split_and!; [done..| |done].
      apply list_lookup_insert_eq. by eapply lookup_lt_Some.
  - destruct (send_keys logs n 0 c) as (parts & c' & Hpl & Hsend & _ & Hparts); [by intros j l _; apply Hopen|lia|].
    exists parts, c'. split_and!; [|done|done]. unfold mbind, st_mbind, st_bind. rewrite Hsend, await_all_ok. done.
Qed.
End Shards.

(** ** Cursors that a client makes up *)

Section Panics.
Context {crc_impl : CrcFast} {blake : Blake3} `{Mpsc} `{Memchr} `{Messages} `{FxHash}.
Context (clock_at instant_at : nat -> nat -> Z) (io_at : nat -> nat -> faults) (links : nat -> Cluster.link).

(** C30: A client can stop the server with [SCAN].  With more than one shard, the cursor
    that is the byte 2 alone, and every cursor that begins with 2 and a byte that is
    not the number of a shard, index out of range: the command panics, and the release
    build ends the process on a panic. *)
Theorem scan_cursor_panics merges cursor args st c :
  (1 < n_shards st)%nat -> cross_shard_txs st = Some (n_shards st) -> (shard_idx st < n_shards st)%nat ->
  cursor = [2] \/ (exists b rest, cursor = 2 :: b :: rest /\ (n_shards st <= Z.to_nat b)%nat) ->
  Dispatch.dispatch_store clock_at instant_at io_at links merges (Command.Scan cursor args) st c = (Err Cluster.Panicked, c).
Proof.
  intros Hn Htx Hself Hcur. cbn [Dispatch.dispatch_store]. unfold Dispatch.or_error, Dispatch.dispatch_scan, Dispatch.fan_out_txs.
  rewrite decide_False, Htx by lia. destruct Hcur as [->|(b & rest & -> & Hb)]; [done|].
  unfold mbind, st_mbind, st_bind. cbn [Dispatch.decode_cursor]. cbn. by rewrite decide_False, decide_True by lia.
Qed.
End Panics.

(** ** Examples *)

#[local] Existing Instance WatchRegistry.bytes_json.
#[local] Existing Instance WatchRegistry.list_mpsc.
#[local] Existing Instance sum_hash.
#[local] Existing Instance no_messages.

Definition ex_loaded : list ShardStore.t := (ex_dispatch (Command.MSet ex_pairs) ex_cluster).2.
Definition ex_log (s : ShardStore.t) : NsLog.t := default (fresh default_config) (ShardStore.namespaces s !! DEFAULT_NS).

Lemma opens_default s l : ShardStore.namespaces s !! DEFAULT_NS = Some l -> opens DEFAULT_NS s s l.
Proof. intros Hl. split; [|done]. rewrite ShardStore.ensure_ns_eq. by rewrite Hl. Qed.

(** Shards that have the namespace open. *)
Definition has_default (s : ShardStore.t) : bool :=
  match ShardStore.namespaces s !! DEFAULT_NS with Some _ => true | None => false end.

Lemma defaults_open st c : cs_ns st = DEFAULT_NS -> length c = n_shards st -> forallb has_default c = true -> all_open st c (ex_log <$> c).
Proof.
  intros Hns Hlen Hall. split; [by rewrite length_fmap|]. intros i l Hl. rewrite list_lookup_fmap in Hl.
  destruct (c !! i) as [s|] eqn:Hs; [|done]. injection Hl as <-. exists s, s. split; [done|]. rewrite Hns.
  apply opens_default. rewrite forallb_forall in Hall.
  specialize (Hall s ltac:(by apply list_elem_of_In; eapply list_elem_of_lookup_2)).
  unfold has_default, ex_log in *. by destruct (ShardStore.namespaces s !! DEFAULT_NS).
Qed.

Lemma ex_all_open : all_open ex_conn ex_loaded (ex_log <$> ex_loaded).
Proof. apply defaults_open; [done|vm_compute; reflexivity..]. Qed.

Lemma scan_ends_witness :
  exists parts c', follow ex_clocks ex_instants ex_ios all_up None 1 ex_conn (calls_for (ex_log <$> ex_loaded)) (lit "0") [] ex_loaded
      = (Ok (Some (concat parts)), c') /\
    length parts = 2%nat /\
    forall i part, parts !! i = Some part -> part_listed ex_clocks None ex_conn ex_loaded c' (ex_log <$> ex_loaded) i part.
Proof. apply (scan_ends ex_clocks ex_instants ex_ios all_up None 1 ex_conn); [done|cbn; lia|done|cbn; lia|apply ex_all_open]. Defined.

Lemma keys_complete_witness :
  exists parts c',
    Dispatch.dispatch_store ex_clocks ex_instants ex_ios all_up (fun _ => []) (Command.Keys (Some (lit "*"))) ex_conn ex_loaded
      = (Ok (if decide (1000000 <= zlen (concat parts))
             then response.error (lit "ERR") (lit "KEYS result too large; use SCAN to paginate large keyspaces")
             else response.array (response.bulk <$> concat parts)), c') /\
    length parts = 2%nat /\
    forall i part, parts !! i = Some part ->
      part_listed ex_clocks (Some (lit "*")) ex_conn ex_loaded c' (ex_log <$> ex_loaded) i part.
Proof.
  apply (keys_complete ex_clocks ex_instants ex_ios all_up (Some (lit "*")) ex_conn); [done|cbn; lia|done|apply ex_all_open].
Defined.

(** A connection of a server with 300 shards. *)
Definition ex_wide_conn : ConnState := {|
  cs_ns := DEFAULT_NS; resp_version := 2; quit := false; shard_idx := 0; n_shards := 300; cross_shard_txs := Some 300%nat |}.
Definition ex_wide : list ShardStore.t := replicate 300 Runs.ex_shard.

Lemma scan_does_not_end_witness :
  exists c', follow ex_clocks ex_instants ex_ios all_up None 10 ex_wide_conn 1000 (lit "0") [] ex_wide = (Ok None, c').
Proof.
  apply (scan_does_not_end ex_clocks ex_instants ex_ios all_up None 10 ex_wide_conn) with (logs := ex_log <$> ex_wide);
    [done|cbn; lia|done|cbn; lia|]. apply defaults_open; [done|vm_compute; reflexivity..].
Defined.

Lemma scan_cursor_panics_witness :
  Dispatch.dispatch_store ex_clocks ex_instants ex_ios all_up (fun _ => [])
    (Command.Scan [2; 7] (mkScanArgs None 10)) ex_conn ex_cluster = (Err Cluster.Panicked, ex_cluster).
Proof.
  apply scan_cursor_panics; [cbn; lia|done|cbn; lia|]. right. exists 7, []. split; [done|]. cbn. lia.
Defined.
