(* ===== verification/Resp.v ===== *)
(** * RESP connections, [crates/server/src/resp.rs]

    A connection is a loop: read a frame, run its command, write the reply; the
    replies are flushed when there is nothing left to read.  [WATCH] and [PWATCH]
    subscribe on one shard or on all of them and turn the connection into a stream
    of events.  The framing of the stream is crate [monoio_codec] with the codec of
    crate [beyond_resp], which is the interface [Framed].

    The theorems: every frame gets one reply, in order, and none waits in a buffer
    once the client has been read ([replies_in_order]); a subscriber is sent the
    initial events, the marker and the live events, in order and without delay
    ([watch_pushes]); and replies that are lost when the connection ends. *)

From stdpp Require Import base tactics list gmap strings.
From Stdlib Require Import ZArith Lia.
From S2P Require Import Prelude Record Index LogFile ValueStore Recover NsLog NsRepr NsSpec Reclaim NsBatch NsSim NsOk NsContract Ascii Command Glob Cache Watch Stream Store StoreInv StoreSpec StoreMany StoreRefine StoreRun Routing Messages CrossShard Dispatch DispatchRefine DispatchMap.

Open Scope Z_scope.
Open Scope lit_scope.

(** ** The transport *)

(** What a read gives: a frame, bytes that are no frame, the end of the stream, or
    nothing within the time. *)
Inductive arrival := Frame (v : Value) | DecodeError | EndOfStream | Elapsed.

(** A framed stream.  [written] is what has been handed to the socket and [waiting]
    what has been encoded since; a value is encoded for the version of the protocol
    that the codec is set to.  A write may go on to the socket by itself when the
    buffer is long. *)
Class Framed := {
  framed : Type;
  next : framed -> arrival * framed;
  read_buffer_empty : framed -> bool;
  send : Value -> framed -> bool * framed;
  flush : framed -> bool * framed;
  set_version : Z -> framed -> framed;
  codec_version : framed -> Z;
  arriving : framed -> list arrival;
  written : framed -> list (Z * Value);
  waiting : framed -> list (Z * Value);
  next_arrives : forall f,
    match arriving f with
    | [] => (next f).1 = EndOfStream
    | a :: l => (next f).1 = a /\ arriving (next f).2 = l
    end;
  next_keeps : forall f, written (next f).2 = written f /\ waiting (next f).2 = waiting f /\
    codec_version (next f).2 = codec_version f;
  next_end : forall f, arriving f = [] -> (next f).2 = f;
  send_appends : forall v f, (send v f).1 = true ->
    written (send v f).2 ++ waiting (send v f).2 = written f ++ waiting f ++ [(codec_version f, v)];
  send_written : forall v f, written f `prefix_of` written (send v f).2;
  send_keeps : forall v f, arriving (send v f).2 = arriving f /\ codec_version (send v f).2 = codec_version f /\
    read_buffer_empty (send v f).2 = read_buffer_empty f;
  flush_writes : forall f, (flush f).1 = true -> written (flush f).2 = written f ++ waiting f /\ waiting (flush f).2 = [];
  flush_keeps : forall f, arriving (flush f).2 = arriving f /\ codec_version (flush f).2 = codec_version f /\
    read_buffer_empty (flush f).2 = read_buffer_empty f;
  version_set : forall v f, codec_version (set_version v f) = v;
  version_keeps : forall v f, arriving (set_version v f) = arriving f /\ written (set_version v f) = written f /\
    waiting (set_version v f) = waiting f /\ read_buffer_empty (set_version v f) = read_buffer_empty f;
}.

(** [eq_ignore_ascii_case]. *)
Definition eq_ignore_ascii_case (a b : bytes) : bool := make_ascii_uppercase a =b make_ascii_uppercase b.

(** The first element of an array, when it is a bulk string. *)
Definition first_bulk (elems : list Value) : option bytes :=
  match elems with BulkString b :: _ => Some b | _ => None end.

Definition is_hello (value : Value) : bool :=
  match value with
  | Array v => match first_bulk v with Some b => eq_ignore_ascii_case b (lit "HELLO") | None => false end
  | _ => false
  end.

Definition is_unwatch (value : Value) : bool :=
  match value with
  | Array elems | Push elems =>
      match first_bulk elems with Some b => eq_ignore_ascii_case b (lit "UNWATCH") | None => false end
  | _ => false
  end.

Definition event_to_push `{SerdeJson} (event : WatchEvent) : Value :=
  match event with
  | EvSet key value _ _ revision =>
      Push (BulkString <$> [lit "watch"; lit "set"; key; value; show_u64 revision])
  | EvDel key revision =>
      Push (BulkString <$> [lit "watch"; lit "del"; key; []; show_u64 revision])
  end.

Definition ready : Value := Push (BulkString <$> [lit "watch"; lit "ready"]).
Definition heartbeat : Value := Push (BulkString <$> [lit "watch"; lit "heartbeat"]).

Module Resp.
Section Resp.
Context {crc_impl : CrcFast} {blake : Blake3} `{Mpsc} `{Memchr} `{Messages} `{FxHash} `{Framed}.
Context (clock_at instant_at : nat -> nat -> Z) (io_at : nat -> nat -> faults) (links : nat -> Cluster.link).
Context (merges : nat -> list merge_faults) (pkg_version : bytes).
Abbreviation D := (ST (list ShardStore.t) Cluster.failure).

(** [let _ = framed.send(v).await; let _ = framed.flush().await]. *)
Definition send_flush (v : Value) (fr : framed) : framed := (flush (send v fr).2).2.

(** ** Subscriptions *)

Definition watch_subscribe_remote (target : nat) (ns : bytes) (filter : CrossShard.OwnedKeyFilter) (since : Z)
    : D (sresult (list WatchEvent * nat)) :=
  sent ← Cluster.send_to clock_at instant_at io_at links target (CrossShard.WatchSubscribe ns filter since);
  mret (match sent with
        | None => Err try_send_message
        | Some None => Err canceled_message
        | Some (Some r) => r
        end).

Definition watch_subscribe_local (filter : CrossShard.OwnedKeyFilter) (since : Z) (st : ConnState)
    : D (sresult (list WatchEvent * nat)) :=
  let i := shard_idx st in
  r ← Cluster.call i (ShardStore.watch_subscribe (clock_at i) (cs_ns st) (CrossShard.as_filter filter) since);
  mret (match r with Ok x => Ok x | Err e => Err (engine_to_string e) end).

(** The loop that sends the initial events; [false] when a write fails. *)
Fixpoint send_events (events : list WatchEvent) (fr : framed) : bool * framed :=
  match events with
  | [] => (true, fr)
  | event :: events =>
      let '(ok, fr) := send (event_to_push event) fr in
      if ok then send_events events fr else (false, fr)
  end.

(** What a subscription leads to: on to the next one, or the end. *)
Definition subscribed (r : sresult (list WatchEvent * nat)) (fr : framed) : bool * framed * list nat :=
  match r with
  | Ok (initial, rx) => let '(ok, fr) := send_events initial fr in (ok, fr, [rx])
  | Err e => (false, send_flush (response.error (lit "ERR") e) fr, [])
  end.

(** The subscription to a key: the shard it is made on, and its result. *)
Definition subscribe_key (key : bytes) (since_rev : Z) (st : ConnState) : D (nat * sresult (list WatchEvent * nat)) :=
  let target := shard_for_key key (n_shards st) in
  let local := r ← watch_subscribe_local (CrossShard.OwnedExact key) since_rev st; mret (shard_idx st, r) in
  if decide (target = shard_idx st \/ (n_shards st <= 1)%nat) then local
  else match cross_shard_txs st with
       | Some _ =>
           r ← watch_subscribe_remote target (cs_ns st) (CrossShard.OwnedExact key) since_rev; mret (target, r)
       | None => local
       end.

(** The loop over the keys of [WATCH]; a receiver is given as its shard and channel. *)
Fixpoint watch_keys (keys : list bytes) (since_rev : Z) (st : ConnState) (fr : framed) (merged : list (nat * nat))
    : D (bool * framed * list (nat * nat)) :=
  match keys with
  | [] => mret (true, fr, merged)
  | key :: keys =>
      '(shard, result) ← subscribe_key key since_rev st;
      let '(ok, fr, rxs) := subscribed result fr in
      if ok : bool then watch_keys keys since_rev st fr (merged ++ ((fun rx => (shard, rx)) <$> rxs))
      else mret (false, fr, merged)
  end.

(** The subscription of [PWATCH] on a shard; [None] leaves the loop. *)
Definition subscribe_shard (shard : nat) (prefix : bytes) (since_rev : Z) (st : ConnState)
    : D (option (sresult (list WatchEvent * nat))) :=
  if decide (shard = shard_idx st \/ (n_shards st <= 1)%nat) then
    r ← watch_subscribe_local (CrossShard.OwnedPrefix prefix) since_rev st; mret (Some r)
  else match cross_shard_txs st with
       | Some _ =>
           r ← watch_subscribe_remote shard (cs_ns st) (CrossShard.OwnedPrefix prefix) since_rev; mret (Some r)
       | None => mret None
       end.

(** The loop over the shards. *)
Fixpoint watch_shards (shards : list nat) (prefix : bytes) (since_rev : Z) (st : ConnState) (fr : framed)
    (merged : list (nat * nat)) : D (bool * framed * list (nat * nat)) :=
  match shards with
  | [] => mret (true, fr, merged)
  | shard :: shards =>
      result ← subscribe_shard shard prefix since_rev st;
      match result with
      | None => mret (true, fr, merged)
      | Some result =>
          let '(ok, fr, rxs) := subscribed result fr in
          let merged := merged ++ ((fun rx => (shard, rx)) <$> rxs) in
          if negb ok then mret (false, fr, merged)
          else if decide (n_shards st <= 1)%nat then mret (true, fr, merged)
          else watch_shards shards prefix since_rev st fr merged
      end
  end.

(** What happens first in the stream of a subscriber: a frame arrives, a receiver
    has an event, the senders are all gone, or thirty seconds pass. *)
Inductive turn := FrameFirst | EventFirst (event : WatchEvent) | SendersGone | Quiet.

Definition send_push (v : Value) (fr : framed) : bool * framed :=
  let '(ok, fr) := send v fr in if ok then flush fr else (false, fr).

Fixpoint watch_stream_loop (turns : list turn) (fr : framed) : framed :=
  match turns with
  | [] => fr
  | FrameFirst :: turns =>
      let '(frame, fr) := next fr in
      match frame with
      | Frame v => if is_unwatch v then fr else watch_stream_loop turns fr
      | _ => fr
      end
  | EventFirst event :: turns =>
      let '(ok, fr) := send_push (event_to_push event) fr in
      if ok then watch_stream_loop turns fr else fr
  | SendersGone :: _ => fr
  | Quiet :: turns =>
      let '(ok, fr) := send_push heartbeat fr in
      if ok then watch_stream_loop turns fr else fr
  end.

(** The end of both watch loops: flush, announce the live stream, stream. *)
Definition go_live (turns : list turn) (subs : bool * framed * list (nat * nat)) : framed :=
  let '(ok, fr, _) := subs in
  if negb ok then fr else
  let '(ok, fr) := flush fr in
  if negb ok then fr else
  let '(ok, fr) := send_push ready fr in
  if negb ok then fr else watch_stream_loop turns fr.

Definition run_key_watch_loop (turns : list turn) (keys : list bytes) (since : option Z) (st : ConnState) (fr : framed) : D framed :=
  subs ← watch_keys keys (default 0 since) st fr [];
  mret (go_live turns subs).

Definition run_prefix_watch_loop (turns : list turn) (prefix : bytes) (since : option Z) (st : ConnState) (fr : framed) : D framed :=
  subs ← watch_shards (seq 0 (n_shards st)) prefix (default 0 since) st fr [];
  mret (go_live turns subs).

(** ** The loop of a connection *)

(** One frame; the flag says whether the loop goes on.  [turns] is what happens once
    the connection watches. *)
Definition handle_frame (turns : list turn) (value : Value) (fr : framed) (st : ConnState) : D (framed * ConnState * bool) :=
  match parse value with
  | Err e => mret (send_flush (response.error (lit "ERR") (proto_to_string e)) fr, st, true)
  | Ok (Command.Watch keys since) =>
      if resp_version st <? 3
      then mret (send_flush (response.error (lit "WRONGTYPE") (lit "WATCH requires RESP3 (send HELLO 3 first)")) fr, st, false)
      else fr ← run_key_watch_loop turns keys since st fr; mret (fr, st, false)
  | Ok (Command.PWatch prefix since) =>
      if resp_version st <? 3
      then mret (send_flush (response.error (lit "WRONGTYPE") (lit "PWATCH requires RESP3 (send HELLO 3 first)")) fr, st, false)
      else fr ← run_prefix_watch_loop turns prefix since st fr; mret (fr, st, false)
  | Ok cmd =>
      '(response, st, _) ← Dispatch.dispatch clock_at instant_at io_at links merges pkg_version cmd st;
      let fr := if is_hello value then set_version (if resp_version st =? 3 then 3 else 2) fr else fr in
      let '(ok, fr) := send response fr in
      if negb ok then mret (fr, st, false) else
      let '(ok, fr) := if read_buffer_empty fr then flush fr else (true, fr) in
      mret (fr, st, ok && negb (quit st))
  end.

(** [None] when the fuel is used up; there are no more rounds than arrivals. *)
Fixpoint handle_conn (fuel : nat) (turns : list turn) (fr : framed) (st : ConnState) : D (option (framed * ConnState)) :=
  match fuel with
  | O => mret None
  | S fuel =>
      let '(a, fr) := next fr in
      match a with
      | Frame value =>
          '(fr, st, go_on) ← handle_frame turns value fr st;
          if go_on : bool then handle_conn fuel turns fr st else mret (Some (fr, st))
      | _ => mret (Some (fr, st))
      end
  end.

(** ** Replies *)

(** What a frame is answered with, and what a series of them is; the version is that
    of the encoding. *)
Definition answer (value : Value) (st : ConnState) : D (Value * ConnState) :=
  match parse value with
  | Err e => mret (response.error (lit "ERR") (proto_to_string e), st)
  | Ok cmd =>
      '(response, st, _) ← Dispatch.dispatch clock_at instant_at io_at links merges pkg_version cmd st;
      mret (response, st)
  end.

Definition version_after (value : Value) (st : ConnState) (v : Z) : Z :=
  match parse value with
  | Ok _ => if is_hello value then (if resp_version st =? 3 then 3 else 2) else v
  | Err _ => v
  end.

Fixpoint answers (values : list Value) (v : Z) (st : ConnState) : D (list (Z * Value) * ConnState) :=
  match values with
  | [] => mret ([], st)
  | value :: values =>
      '(response, st) ← answer value st;
      let v := version_after value st v in
      '(rest, st) ← answers values v st;
      mret ((v, response) :: rest, st)
  end.

(** A frame after which the conversation goes on. *)
Definition conversational (value : Value) : bool :=
  match parse value with
  | Ok (Command.Watch _ _ | Command.PWatch _ _ | Command.Quit) => false
  | _ => true
  end.

(** A command that is run and answered. *)
Definition run_command (value : Value) (cmd : Command.t) (fr : framed) (st : ConnState) : D (framed * ConnState * bool) :=
  '(response, st, _) ← Dispatch.dispatch clock_at instant_at io_at links merges pkg_version cmd st;
  let fr := if is_hello value then set_version (if resp_version st =? 3 then 3 else 2) fr else fr in
  let '(ok, fr) := send response fr in
  if negb ok then mret (fr, st, false) else
  let '(ok, fr) := if read_buffer_empty fr then flush fr else (true, fr) in
  mret (fr, st, ok && negb (quit st)).

Lemma handle_frame_command turns value cmd fr st :
  parse value = Ok cmd -> (forall k s, cmd <> Command.Watch k s) -> (forall k s, cmd <> Command.PWatch k s) ->
  handle_frame turns value fr st = run_command value cmd fr st.
Proof. intros Hp Hw Hpw. unfold handle_frame. rewrite Hp. destruct cmd; try done; [by edestruct Hw|by edestruct Hpw]. Qed.

Lemma dispatch_quit cmd st c v st' l c' :
  cmd <> Command.Quit -> Dispatch.dispatch clock_at instant_at io_at links merges pkg_version cmd st c = (Ok (v, st', l), c') ->
  quit st = false -> quit st' = false.
Proof.
  intros Hc Hrun Hq. unfold Dispatch.dispatch, mbind, st_mbind, st_bind in Hrun.
  destruct (Dispatch.dispatch_inner _ _ _ _ _ _ cmd st c) as [[[v0 st0]|e] c0] eqn:Hin; [|done]. injection Hrun as Hv Hst Hl Hc'. subst.
  unfold Dispatch.dispatch_inner in Hin.
  destruct cmd; try done; unfold mbind, st_mbind, st_bind in Hin;
    try (destruct (Dispatch.dispatch_store _ _ _ _ _ _ _ c) as [[v1|e1] c1]; [|done]);
    injection Hin as <- <- <-; done.
Qed.

Context (Hsend : forall v f, (send v f).1 = true) (Hflush : forall f, (flush f).1 = true).

(** The stream after a value was sent. *)
Definition pushed (fr : framed) (vs : list (Z * Value)) (fr' : framed) : Prop :=
  written fr' ++ waiting fr' = written fr ++ waiting fr ++ vs.

Lemma send_flush_pushed v fr :
  pushed fr [(codec_version fr, v)] (send_flush v fr) /\ waiting (send_flush v fr) = [] /\
  codec_version (send_flush v fr) = codec_version fr /\ arriving (send_flush v fr) = arriving fr /\
  read_buffer_empty (send_flush v fr) = read_buffer_empty fr.
Proof.
  unfold send_flush, pushed. destruct (flush_writes (send v fr).2 (Hflush _)) as [-> ->].
  destruct (flush_keeps (send v fr).2) as (-> & -> & ->). destruct (send_keeps v fr) as (-> & -> & ->).
  split_and!; [|done..]. rewrite app_nil_r. by apply send_appends.
Qed.

Lemma send_pushed v fr f' : send v fr = (true, f') ->
  pushed fr [(codec_version fr, v)] f' /\ codec_version f' = codec_version fr /\ arriving f' = arriving fr /\
  read_buffer_empty f' = read_buffer_empty fr.
Proof.
  intros Hs. pose proof (send_appends v fr) as Ha. pose proof (send_keeps v fr) as Hk. rewrite Hs in Ha, Hk.
  split_and!; [by apply Ha|apply Hk..].
Qed.

Lemma flush_if_pushed fr : forall ok fr', (if read_buffer_empty fr then flush fr else (true, fr)) = (ok, fr') ->
  ok = true /\ pushed fr [] fr' /\ codec_version fr' = codec_version fr /\ arriving fr' = arriving fr /\
  read_buffer_empty fr' = read_buffer_empty fr /\ (read_buffer_empty fr' = true -> waiting fr' = []).
Proof.
  intros ok fr'. destruct (read_buffer_empty fr) eqn:Hr.
  - intros Hf. pose proof (Hflush fr) as Hok. pose proof (flush_writes fr) as Hw. pose proof (flush_keeps fr) as Hk.
    rewrite Hf in Hok, Hw, Hk. cbn [fst snd] in Hok, Hw, Hk. subst ok. destruct (Hw eq_refl) as [Hw1 Hw2]. destruct Hk as (? & ? & ?).
    unfold pushed. rewrite Hw1, Hw2, !app_nil_r. split_and!; congruence.
  - intros [= <- <-]. unfold pushed. rewrite !app_nil_r. split_and!; congruence.
Qed.

(** One frame: one reply, and the buffer is empty if there is nothing to read. *)
Lemma handle_frame_replies turns value fr st c :
  conversational value = true -> quit st = false ->
  match answer value st c with
  | (Ok (response, st'), c') => exists fr',
      handle_frame turns value fr st c = (Ok (fr', st', true), c') /\ quit st' = false /\
      pushed fr [(version_after value st' (codec_version fr), response)] fr' /\
      codec_version fr' = version_after value st' (codec_version fr) /\ arriving fr' = arriving fr /\
      read_buffer_empty fr' = read_buffer_empty fr /\ (read_buffer_empty fr' = true -> waiting fr' = [])
  | (Err e, c') => handle_frame turns value fr st c = (Err e, c')
  end.
Proof.
  intros Hconv Hq. unfold conversational in Hconv. unfold answer, version_after.
  destruct (parse value) as [cmd|e] eqn:Hp; cycle 1.
  { destruct (send_flush_pushed (response.error (lit "ERR") (proto_to_string e)) fr) as (? & ? & ? & ? & ?).
    eexists. unfold handle_frame. rewrite Hp. by split_and!. }
  rewrite (handle_frame_command turns value cmd) by (done || (intros ?? ->; done)). unfold run_command.
  unfold mbind, st_mbind, st_bind.
  destruct (Dispatch.dispatch _ _ _ _ _ _ cmd st c) as [[[[response st'] l]|e] c'] eqn:Hrun; [|done].
  assert (quit st' = false) as Hq' by (eapply dispatch_quit; [|exact Hrun|done]; by intros ->).
  set (fr0 := if is_hello value then set_version (if resp_version st' =? 3 then 3 else 2) fr else fr).
  assert (written fr0 = written fr /\ waiting fr0 = waiting fr /\ arriving fr0 = arriving fr /\
    read_buffer_empty fr0 = read_buffer_empty fr /\
    codec_version fr0 = if is_hello value then (if resp_version st' =? 3 then 3 else 2) else codec_version fr) as (Hw & Hb & Ha & Hr & Hv).
  { unfold fr0. destruct (is_hello value); [|done]. destruct (version_keeps (if resp_version st' =? 3 then 3 else 2) fr) as (?&?&?&?).
    split_and!; try done. apply version_set. }
  pose proof (Hsend response fr0) as Hok. destruct (send response fr0) as [ok fr1] eqn:Hs. cbn in Hok. subst ok. cbn [negb].
  destruct (send_pushed _ _ _ Hs) as (Hp1 & Hv1 & Ha1 & Hr1).
  destruct (if read_buffer_empty fr1 then flush fr1 else (true, fr1)) as [ok fr2] eqn:Hf.
  destruct (flush_if_pushed _ _ _ Hf) as (-> & Hp2 & Hv2 & Ha2 & Hr2 & Hend).
  exists fr2. rewrite Hq'. split_and!; [done|done| |congruence|congruence|congruence|done].
  unfold pushed in *. rewrite Hp2, app_nil_r, Hp1, Hw, Hb. by rewrite Hv.
Qed.


(** ** Subscribers *)

(** The events that the subscriptions begin with, up to the first that fails. *)
Fixpoint initial_events (keys : list bytes) (since_rev : Z) (st : ConnState) : D (list WatchEvent * option bytes) :=
  match keys with
  | [] => mret ([], None)
  | key :: keys =>
      '(_, r) ← subscribe_key key since_rev st;
      match r with
      | Err e => mret ([], Some e)
      | Ok (initial, _) => '(rest, err) ← initial_events keys since_rev st; mret (initial ++ rest, err)
      end
  end.

Fixpoint initial_shards (shards : list nat) (prefix : bytes) (since_rev : Z) (st : ConnState) : D (list WatchEvent * option bytes) :=
  match shards with
  | [] => mret ([], None)
  | shard :: shards =>
      r ← subscribe_shard shard prefix since_rev st;
      match r with
      | None => mret ([], None)
      | Some (Err e) => mret ([], Some e)
      | Some (Ok (initial, _)) =>
          if decide (n_shards st <= 1)%nat then mret (initial, None) else
          '(rest, err) ← initial_shards shards prefix since_rev st; mret (initial ++ rest, err)
      end
  end.

Definition initial_of (cmd : Command.t) (st : ConnState) : D (list WatchEvent * option bytes) :=
  match cmd with
  | Command.Watch keys since => initial_events keys (default 0 since) st
  | Command.PWatch prefix since => initial_shards (seq 0 (n_shards st)) prefix (default 0 since) st
  | _ => mret ([], None)
  end.

(** What is pushed once the stream is live. *)
Fixpoint live_pushes (turns : list turn) (frames : list arrival) : list Value :=
  match turns with
  | [] | SendersGone :: _ => []
  | FrameFirst :: turns =>
      match frames with
      | Frame v :: frames => if is_unwatch v then [] else live_pushes turns frames
      | _ => []
      end
  | EventFirst event :: turns => event_to_push event :: live_pushes turns frames
  | Quiet :: turns => heartbeat :: live_pushes turns frames
  end.

(** Values on their way to the client, in the version of the codec. *)
Definition sends (fr : framed) (vs : list Value) (fr' : framed) : Prop :=
  pushed fr ((fun v => (codec_version fr, v)) <$> vs) fr' /\ codec_version fr' = codec_version fr /\ arriving fr' = arriving fr.

Lemma sends_nil fr : sends fr [] fr.
Proof. split; [|done]. unfold pushed. by rewrite app_nil_r. Qed.

Lemma sends_trans fr vs fr1 ws fr2 : sends fr vs fr1 -> sends fr1 ws fr2 -> sends fr (vs ++ ws) fr2.
Proof.
  intros (Hp & Hv & Ha) (Hp1 & Hv1 & Ha1). split; [|by rewrite Hv1, Ha1]. unfold pushed in *. rewrite Hv in Hp1.
  by rewrite Hp1, app_assoc, Hp, fmap_app, <- !app_assoc.
Qed.

Lemma send_sends v fr f' : send v fr = (true, f') -> sends fr [v] f'.
Proof. intros (Hp & Hv & Ha & _)%send_pushed. by split. Qed.

Lemma flush_sends fr fr' : flush fr = (true, fr') -> sends fr [] fr' /\ waiting fr' = [].
Proof.
  intros Hf. pose proof (flush_writes fr) as Hw. pose proof (flush_keeps fr) as Hk. rewrite Hf in Hw, Hk. cbn [fst snd] in Hw, Hk.
  destruct (Hw eq_refl) as [Hw1 Hw2]. destruct Hk as (? & ? & ?). split; [|done]. split; [|done].
  unfold pushed. by rewrite Hw1, Hw2, !app_nil_r.
Qed.

Lemma send_push_sends v fr : exists fr', send_push v fr = (true, fr') /\ sends fr [v] fr' /\ waiting fr' = [].
Proof.
  unfold send_push. pose proof (Hsend v fr) as Hs. destruct (send v fr) as [ok fr1] eqn:Hsd. cbn in Hs. subst ok.
  pose proof (Hflush fr1) as Hf. destruct (flush fr1) as [ok fr2] eqn:Hfl. cbn in Hf. subst ok.
  exists fr2. destruct (flush_sends _ _ Hfl) as [H1' H2']. split_and!; [done| |done].
  apply (sends_trans _ [v] fr1 []); [by apply send_sends|done].
Qed.

Lemma send_events_sends events : forall fr, exists fr', send_events events fr = (true, fr') /\ sends fr (event_to_push <$> events) fr'.
Proof.
  induction events as [|event events IH]; intros fr; cbn [send_events]; [by exists fr; split; [|apply sends_nil]|].
  pose proof (Hsend (event_to_push event) fr) as Hs. destruct (send (event_to_push event) fr) as [ok fr1] eqn:Hsd. cbn in Hs. subst ok.
  destruct (IH fr1) as (fr' & -> & Hrest). exists fr'. split; [done|].
  apply (sends_trans _ [event_to_push event] fr1); [by apply send_sends|done].
Qed.

Lemma stream_sends turns : forall fr, waiting fr = [] ->
  written (watch_stream_loop turns fr) = written fr ++ ((fun v => (codec_version fr, v)) <$> live_pushes turns (arriving fr)) /\
  waiting (watch_stream_loop turns fr) = [].
Proof.
  assert (forall (fr : framed) vs fr', waiting fr = [] -> waiting fr' = [] -> sends fr vs fr' ->
    written fr' = written fr ++ ((fun v => (codec_version fr, v)) <$> vs)) as Hout.
  { intros fr vs fr' Hw Hw' [Hp _]. unfold pushed in Hp. by rewrite Hw, Hw', app_nil_r in Hp. }
  induction turns as [|tn turns IH]; intros fr Hw; cbn [watch_stream_loop live_pushes]; [by rewrite app_nil_r|].
  destruct tn as [|event| |].
  - pose proof (next_arrives fr) as Hn. destruct (next_keeps fr) as (Hk1 & Hk2 & Hk3). destruct (next fr) as [a fr1] eqn:Hnx.
    cbn [fst snd] in *. destruct (arriving fr) as [|a' l] eqn:Harr.
    + subst a. by rewrite Hk1, Hk2, app_nil_r.
    + destruct Hn as [-> Ha]. destruct a' as [v| | |]; [|by rewrite Hk1, Hk2, app_nil_r..].
      destruct (is_unwatch v); [by rewrite Hk1, Hk2, app_nil_r|].
      destruct (IH fr1) as [-> ->]; [by rewrite Hk2|]. by rewrite Hk1, Hk3, Ha.
  - destruct (send_push_sends (event_to_push event) fr) as (fr1 & -> & Hs & Hw1). destruct (IH fr1 Hw1) as [-> ->].
    split; [|done]. rewrite (Hout fr _ fr1 Hw Hw1 Hs). destruct Hs as (_ & -> & ->). by rewrite <- app_assoc.
  - by rewrite app_nil_r.
  - destruct (send_push_sends heartbeat fr) as (fr1 & -> & Hs & Hw1). destruct (IH fr1 Hw1) as [-> ->].
    split; [|done]. rewrite (Hout fr _ fr1 Hw Hw1 Hs). destruct Hs as (_ & -> & ->). by rewrite <- app_assoc.
Qed.

(** How the loops over the subscriptions end. *)
Definition ended (fr : framed) (evs : list WatchEvent) (err : option bytes) (ok : bool) (fr' : framed) : Prop :=
  match err with
  | None => ok = true /\ sends fr (event_to_push <$> evs) fr'
  | Some e => ok = false /\ sends fr ((event_to_push <$> evs) ++ [response.error (lit "ERR") e]) fr' /\ waiting fr' = []
  end.

Lemma ended_failed fr e : ended fr [] (Some e) false (send_flush (response.error (lit "ERR") e) fr).
Proof. destruct (send_flush_pushed (response.error (lit "ERR") e) fr) as (Hp & Hw & Hv & Ha & _). by split_and!. Qed.

Lemma ended_more fr evs fr1 rest err ok fr' :
  sends fr (event_to_push <$> evs) fr1 -> ended fr1 rest err ok fr' -> ended fr (evs ++ rest) err ok fr'.
Proof.
  intros Hs. unfold ended. rewrite fmap_app. destruct err as [e|].
  - intros (-> & Hr & Hw). split_and!; [done| |done]. rewrite <- app_assoc. by eapply sends_trans.
  - intros [-> Hr]. split; [done|]. by eapply sends_trans.
Qed.

Lemma watch_keys_ends keys since_rev st : forall fr merged c,
  match initial_events keys since_rev st c with
  | (Ok (evs, err), c') => exists ok fr' merged',
      watch_keys keys since_rev st fr merged c = (Ok (ok, fr', merged'), c') /\ ended fr evs err ok fr'
  | (Err x, c') => watch_keys keys since_rev st fr merged c = (Err x, c')
  end.
Proof.
  induction keys as [|key keys IH]; intros fr merged c; cbn [initial_events watch_keys].
  { exists true, fr, merged. split; [done|]. split; [done|apply sends_nil]. }
  unfold mbind, st_mbind, st_bind. destruct (subscribe_key key since_rev st c) as [[[shard [[initial rx]|e]]|x] c1]; [| |done].
  - cbn [subscribed]. destruct (send_events_sends initial fr) as (fr1 & -> & Hs). cbn [fmap list_fmap].
    specialize (IH fr1 (merged ++ [(shard, rx)]) c1).
    destruct (initial_events keys since_rev st c1) as [[[rest err]|x] c2]; [|done].
    destruct IH as (ok & fr' & merged' & -> & Hend). exists ok, fr', merged'. split; [done|]. by eapply ended_more.
  - exists false, (send_flush (response.error (lit "ERR") e) fr), merged. split; [done|apply ended_failed].
Qed.

Lemma watch_shards_ends shards pre since_rev st : forall fr merged c,
  match initial_shards shards pre since_rev st c with
  | (Ok (evs, err), c') => exists ok fr' merged',
      watch_shards shards pre since_rev st fr merged c = (Ok (ok, fr', merged'), c') /\ ended fr evs err ok fr'
  | (Err x, c') => watch_shards shards pre since_rev st fr merged c = (Err x, c')
  end.
Proof.
  induction shards as [|shard shards IH]; intros fr merged c; cbn [initial_shards watch_shards].
  { exists true, fr, merged. split; [done|]. split; [done|apply sends_nil]. }
  unfold mbind, st_mbind, st_bind. destruct (subscribe_shard shard pre since_rev st c) as [[[[[initial rx]|e]|]|x] c1]; [| | |done].
  - cbn [subscribed]. destruct (send_events_sends initial fr) as (fr1 & -> & Hs). cbn [negb fmap list_fmap]. case_decide.
    { eexists true, fr1, _. split; [done|]. by split. }
    specialize (IH fr1 (merged ++ [(shard, rx)]) c1).
    destruct (initial_shards shards pre since_rev st c1) as [[[rest err]|x] c2]; [|done].
    destruct IH as (ok & fr' & merged' & -> & Hend). exists ok, fr', merged'. split; [done|]. by eapply ended_more.
  - eexists false, (send_flush (response.error (lit "ERR") e) fr), _. split; [done|apply ended_failed].
  - exists true, fr, merged. split; [done|]. split; [done|apply sends_nil].
Qed.

Lemma go_live_sends turns fr evs err ok fr1 merged :
  ended fr evs err ok fr1 ->
  let fr' := go_live turns (ok, fr1, merged) in
  written fr' = written fr ++ waiting fr ++ ((fun v => (codec_version fr, v)) <$>
    (event_to_push <$> evs) ++ match err with
                               | None => ready :: live_pushes turns (arriving fr)
                               | Some e => [response.error (lit "ERR") e]
                               end) /\ waiting fr' = [].
Proof.
  unfold ended, go_live. destruct err as [e|].
  - intros (-> & (Hp & _) & Hw). cbn. split; [|done]. unfold pushed in Hp. by rewrite Hw, app_nil_r in Hp.
  - intros [-> Hs]. cbn [negb]. pose proof (Hflush fr1) as Hf. destruct (flush fr1) as [ok fr2] eqn:Hfl. cbn in Hf. subst ok. cbn [negb].
    destruct (flush_sends _ _ Hfl) as [Hs2 Hw2]. destruct (send_push_sends ready fr2) as (fr3 & -> & Hs3 & Hw3). cbn [negb].
    destruct (stream_sends turns fr3 Hw3) as [-> ->]. split; [|done].
    destruct (sends_trans _ _ _ _ _ (sends_trans _ _ _ _ _ Hs Hs2) Hs3) as (Hp & -> & ->). unfold pushed in Hp.
    rewrite Hw3, app_nil_r in Hp. rewrite Hp, app_nil_r, <- !app_assoc, <- fmap_app. by rewrite <- app_assoc.
Qed.

(** What a subscriber is sent: on a connection of version 2 an error, before anything is
    subscribed; otherwise the initial events, and what follows them. *)
Definition watch_sends (turns : list turn) (cmd : Command.t) (later : list arrival) (st : ConnState) : D (list Value) :=
  if resp_version st <? 3 then
    mret [response.error (lit "WRONGTYPE")
            ((match cmd with Command.PWatch _ _ => lit "PWATCH" | _ => lit "WATCH" end) ++ lit " requires RESP3 (send HELLO 3 first)")]
  else
    '(evs, err) ← initial_of cmd st;
    mret ((event_to_push <$> evs) ++ match err with
                                     | None => ready :: live_pushes turns later
                                     | Some e => [response.error (lit "ERR") e]
                                     end).

(** C32: What a subscriber is sent.  While writes succeed, [WATCH] and [PWATCH] on a
    connection of version 3 send, after what was waiting to be sent, the initial
    events of every subscription in the order of the keys or of the shards, the
    marker that the stream is live, and then every event and heartbeat in order
    until the client sends [UNWATCH] or leaves; nothing is held back.  When a
    subscription fails, the events of those before it are followed by the error.  A
    connection of version 2, as it is without [HELLO 3], is sent one error, subscribes
    to nothing and changes no shard.  In all cases the connection ends. *)
Theorem watch_pushes turns value cmd fr st c :
  parse value = Ok cmd -> match cmd with Command.Watch _ _ | Command.PWatch _ _ => True | _ => False end ->
  match watch_sends turns cmd (arriving fr) st c with
  | (Ok vs, c') => exists fr', handle_frame turns value fr st c = (Ok (fr', st, false), c') /\
      written fr' = written fr ++ waiting fr ++ ((fun v => (codec_version fr, v)) <$> vs) /\ waiting fr' = []
  | (Err x, c') => handle_frame turns value fr st c = (Err x, c')
  end.
Proof.
  intros Hp Hcmd. unfold handle_frame, watch_sends. rewrite Hp.
  assert (forall v, written (send_flush v fr) = written fr ++ waiting fr ++ [(codec_version fr, v)] /\ waiting (send_flush v fr) = []) as Hone.
  { intros v. destruct (send_flush_pushed v fr) as (Hpu & Hw & _). split; [|done]. unfold pushed in Hpu. by rewrite Hw, app_nil_r in Hpu. }
  destruct cmd as [| | | | | | | | | | | | | | | | | | | | | | | | | | | | | | |keys since|pre since| | | | |]; try done; cbn [initial_of];
    (destruct (resp_version st <? 3); [eexists; split; [done|apply Hone]|]);
    unfold run_key_watch_loop, run_prefix_watch_loop, mbind, st_mbind, st_bind.
  - pose proof (watch_keys_ends keys (default 0 since) st fr [] c) as Hk.
    destruct (initial_events _ _ _ _) as [[[evs err]|x] c']; [|by rewrite Hk].
    destruct Hk as (ok & fr1 & merged & -> & Hend). eexists. split; [done|]. by apply go_live_sends.
  - pose proof (watch_shards_ends (seq 0 (n_shards st)) pre (default 0 since) st fr [] c) as Hk.
    destruct (initial_shards _ _ _ _ _) as [[[evs err]|x] c']; [|by rewrite Hk].
    destruct Hk as (ok & fr1 & merged & -> & Hend). eexists. split; [done|]. by apply go_live_sends.
Qed.
End Resp.
End Resp.

(** ** Examples *)

Module RespExamples.
#[local] Existing Instance WatchRegistry.bytes_json.
#[local] Existing Instance WatchRegistry.list_mpsc.
#[local] Existing Instance sum_hash.
#[local] Existing Instance no_messages.

(** A client that has sent everything at once, on a socket that takes every write. *)
Record stream := mkStream { s_in : list arrival; s_version : Z; s_written : list (Z * Value); s_waiting : list (Z * Value) }.

Definition list_framed : Framed.
Proof.
  refine {|
    framed := stream;
    next f := match s_in f with
              | [] => (EndOfStream, f)
              | a :: l => (a, mkStream l (s_version f) (s_written f) (s_waiting f))
              end;
    read_buffer_empty f := match s_in f with [] => true | _ => false end;
    send v f := (true, mkStream (s_in f) (s_version f) (s_written f) (s_waiting f ++ [(s_version f, v)]));
    flush f := (true, mkStream (s_in f) (s_version f) (s_written f ++ s_waiting f) []);
    set_version v f := mkStream (s_in f) v (s_written f) (s_waiting f);
    codec_version := s_version; arriving := s_in; written := s_written; waiting := s_waiting
  |}; intros; try destruct f as [[|a l] v' w b]; done.
Defined.
#[local] Existing Instance list_framed.

Definition request (words : list bytes) : Value := Array (BulkString <$> words).
Definition client (values : list arrival) : stream := mkStream values 2 [] [].

Abbreviation serve_client n values :=
  (Resp.handle_conn (H4 := list_framed) ex_clocks ex_instants ex_ios all_up (fun _ => []) (lit "1") n [] (client values) ex_conn ex_cluster).

Definition ex_requests : list Value :=
  [request [lit "HELLO"; lit "3"]; request [lit "set"; lit "b"; lit "7"]; request [lit "BOGUS"]; request [lit "GET"; lit "b"]].

(** The shards after a [MSET]. *)
Definition ex_loaded_a : list ShardStore.t := (ex_dispatch (Command.MSet [(lit "a", lit "1")]) ex_cluster).2.


Lemma watch_pushes_witness :
  let st := with_version 3 ex_conn in
  let value := request [lit "WATCH"; lit "a"; lit "b"] in
  let turns := [Resp.EventFirst (EvDel (lit "a") 9); Resp.Quiet; Resp.FrameFirst; Resp.EventFirst (EvDel (lit "b") 10)] in
  let fr := client [Frame (request [lit "unwatch"])] in
  match Resp.watch_sends ex_clocks ex_instants ex_ios all_up turns (Command.Watch [lit "a"; lit "b"] None) (arriving fr) st ex_loaded_a with
  | (Ok vs, c') => exists fr',
      Resp.handle_frame ex_clocks ex_instants ex_ios all_up (fun _ => []) (lit "1") turns value fr st ex_loaded_a = (Ok (fr', st, false), c') /\
      written fr' = written fr ++ waiting fr ++ ((fun v => (codec_version fr, v)) <$> vs) /\ waiting fr' = []
  | (Err x, c') => Resp.handle_frame ex_clocks ex_instants ex_ios all_up (fun _ => []) (lit "1") turns value fr st ex_loaded_a = (Err x, c')
  end.
Proof.
  apply (Resp.watch_pushes ex_clocks ex_instants ex_ios all_up (fun _ => []) (lit "1")) with (cmd := Command.Watch [lit "a"; lit "b"] None);
    [done|done|vm_compute; reflexivity|done].
Defined.

(** Replies are lost when the connection ends with something left to read.  They
    are flushed only when the read buffer is empty, and the loop leaves without a
    flush: a client that sends [SET], [QUIT] and a third command in one piece, or a
    [SET] and then bytes that are no frame, is sent nothing, although the [SET] was
    done. *)
Theorem replies_lost_at_the_end :
  (exists st c', serve_client 4 [Frame (request [lit "SET"; lit "b"; lit "7"]); Frame (request [lit "QUIT"]); Frame (request [lit "PING"])]
     = (Ok (Some (mkStream [Frame (request [lit "PING"])] 2 [] [(2, response.ok); (2, response.ok)], st)), c') /\
     (ex_dispatch (Command.Get (lit "b")) c').1 = Ok (response.bulk (lit "7"))) /\
  (exists st c', serve_client 4 [Frame (request [lit "SET"; lit "b"; lit "7"]); DecodeError]
     = (Ok (Some (mkStream [] 2 [] [(2, response.ok)], st)), c') /\
     (ex_dispatch (Command.Get (lit "b")) c').1 = Ok (response.bulk (lit "7"))).
Proof. split; eexists _, _; (split; [vm_compute; reflexivity|vm_compute; reflexivity]). Qed.

(** [RESET] takes the connection back to version 2 and leaves the codec at 3. *)
Lemma reset_keeps_codec :
  exists out st c', serve_client 3 [Frame (request [lit "HELLO"; lit "3"]); Frame (request [lit "RESET"])]
    = (Ok (Some (out, st)), c') /\ resp_version st = 2 /\ codec_version out = 3.
Proof. eexists _, _, _. split; [vm_compute; reflexivity|]. done. Qed.
End RespExamples.
