(* ===== verification/HttpMsg.v ===== *)
(** * HTTP requests and responses, the helpers of [crates/server/src/http.rs]

    Percent encoding, query strings, namespaces and the responses.  Parsing and
    writing HTTP is crate [monoio_http] with the types of crate [http]; JSON is crate
    [serde_json] and base64 crate [base64].  A JSON body is kept as the value that is
    serialized. *)

From stdpp Require Import base tactics list strings.
From Stdlib Require Import ZArith Lia.
From S2P Require Import Prelude Record Index LogFile ValueStore Recover NsLog Reclaim Ascii Command Glob Cache Watch Stream Store Routing Messages.

Open Scope Z_scope.
Open Scope lit_scope.

(** ** Percent encoding *)

Definition hex_upper (n : Z) : Z := if n <? 10 then 48 + n else 55 + n.

(** [is_ascii_alphanumeric] and the four other bytes that stay. *)
Definition unreserved (b : Z) : bool :=
  ((48 <=? b) && (b <=? 57)) || ((65 <=? b) && (b <=? 90)) || ((97 <=? b) && (b <=? 122)) ||
  (b =? 45) || (b =? 95) || (b =? 46) || (b =? 126).

Definition percent_encode_bytes (b : bytes) : bytes :=
  concat ((fun c => if unreserved c then [c] else [37; hex_upper (Z.shiftr c 4); hex_upper (Z.land c 15)]) <$> b).

(** The loop over the index, as a recursion on the bytes from the index on. *)
Fixpoint percent_decode (s : bytes) : bytes :=
  match s with
  | [] => []
  | c :: rest =>
      match rest with
      | h :: l :: rest' =>
          if c =? 37 then
            match hex_val h, hex_val l with
            | Some h, Some l => Z.lor (Z.shiftl h 4) l :: percent_decode rest'
            | _, _ => c :: percent_decode rest
            end
          else c :: percent_decode rest
      | _ => c :: percent_decode rest
      end
  end.

(** ** Query strings *)

(** [str::split]. *)
Fixpoint split_on (c : Z) (b : bytes) : list bytes :=
  match b with
  | [] => [[]]
  | x :: b =>
      if x =? c then [] :: split_on c b
      else match split_on c b with
           | p :: ps => (x :: p) :: ps
           | [] => [[x]]
           end
  end.

(** [str::split_once]. *)
Fixpoint split_once (c : Z) (b : bytes) : option (bytes * bytes) :=
  match b with
  | [] => None
  | x :: b => if x =? c then Some ([], b) else '(k, v) ← split_once c b; Some (x :: k, v)
  end.

Fixpoint find_param (pairs : list bytes) (name : bytes) : option bytes :=
  match pairs with
  | [] => None
  | p :: pairs =>
      match split_once 61 p with
      | Some (k, v) => if k =b name then Some v else find_param pairs name
      | None => find_param pairs name
      end
  end.

Definition query_param (query name : bytes) : option bytes := find_param (split_on 38 query) name.

(** [str::contains]. *)
Definition contains (query p : bytes) : bool := match find_slice p query with Some _ => true | None => false end.

(** [str::parse] at [u64], [u8] and [i64]. *)
Definition parse_u64 (b : bytes) : option Z := parse_usize b.
Definition parse_u8 (b : bytes) : option Z := n ← parse_usize b; if decide (n <= 255) then Some n else None.
Definition parse_i64 (b : bytes) : option Z :=
  n ← match b with
      | 45 :: b => n ← parse_digits b; Some (- n)
      | 43 :: b => parse_digits b
      | _ => parse_digits b
      end;
  if decide (is_i64 n) then Some n else None.

(** ** Messages *)

Inductive Method := GET | HEAD | PUT | POST | DELETE | PATCH | OtherMethod.

#[export] Instance Method_eq_dec : EqDecision Method.
Proof. solve_decision. Defined.

(** A header name is in lower case; of several values the first counts. *)
Record Request := mkRequest {
  method : Method;
  path : bytes;
  query : bytes;
  req_headers : list (bytes * bytes);
}.

Definition header (req : Request) (name : bytes) : option bytes :=
  snd ∘ snd <$> list_find (fun h => h.1 = name) (req_headers req).

Section Responses.
Context `{SerdeJson}.

(** [serde_json::Value] as the code builds it; a document of a client is kept whole. *)
Inductive jvalue :=
| JNull
| JBool (b : bool)
| JNum (n : Z)
| JStr (s : bytes)
| JArr (l : list jvalue)
| JObj (fields : list (bytes * jvalue))
| JDoc (j : json).

Inductive Body := NoBody | Fixed (b : bytes) | Json (j : jvalue).

Record Response := mkResponse {
  status : Z;
  headers : list (bytes * bytes);
  body : Body;
}.

Definition json_response (status : Z) (body : jvalue) : Response :=
  mkResponse status [(lit "Content-Type", lit "application/json")] (Json body).

Definition healthz_json (pkg_version : bytes) (status : Z) (health_status : bytes) : Response :=
  json_response status (JObj [(lit "status", JStr health_status); (lit "version", JStr pkg_version)]).

Definition no_content : Response := mkResponse 204 [] NoBody.

Definition err_hint (status : Z) (code msg : bytes) (hint : option bytes) : Response :=
  json_response status (JObj [(lit "error", JObj ([(lit "code", JStr code); (lit "message", JStr msg)] ++
    match hint with Some h => [(lit "hint", JStr h)] | None => [] end))]).

Definition err (status : Z) (code msg : bytes) : Response := err_hint status code msg None.

Definition payload_too_large : Response :=
  err 413 (lit "payload_too_large") (lit "request body exceeds maximum allowed size").

Definition not_found_json (code msg : bytes) : Response := err 404 code msg.
Definition internal_error (msg : bytes) : Response := err 500 (lit "internal_error") msg.
Definition method_not_allowed : Response := err 405 (lit "method_not_allowed") (lit "method not allowed").

(** [Response::builder().status(404)] without a body. *)
Definition bare_404 : Response := mkResponse 404 [] NoBody.

Definition engine_error_response `{Messages} (e : EngineError) : Response :=
  match e with
  | InvalidNamespace _ => err 400 (lit "invalid_namespace") (engine_to_string e)
  | CapacityExceeded _ => err 400 (lit "capacity_exceeded") (engine_to_string e)
  | InvalidInput _ => err 400 (lit "invalid_value") (engine_to_string e)
  | Conflict _ =>
      err_hint 409 (lit "conflict") (engine_to_string e)
        (Some (lit "read the current revision from the X-KV-Revision response header and retry"))
  | _ => internal_error (engine_to_string e)
  end.

(** ** Namespaces and labels *)

Definition NS_NAMES : list bytes :=
  lit <$> ["default"; "db1"; "db2"; "db3"; "db4"; "db5"; "db6"; "db7"; "db8"; "db9"; "db10"; "db11"; "db12"; "db13";
           "db14"; "db15"]%string.

Definition parse_ns (query : bytes) : result Response bytes :=
  let n := default 0 (s ← query_param query (lit "ns"); parse_u8 s) in
  match NS_NAMES !! Z.to_nat n with
  | Some ns => Ok ns
  | None => Err (err 400 (lit "invalid_namespace") (lit "ns must be 0-15"))
  end.
End Responses.

Definition http_op (method : Method) (path : bytes) : string :=
  if path =b lit "/livez" then "livez"
  else if path =b lit "/readyz" then "readyz"
  else if path =b lit "/metrics" then "metrics"
  else if path =b lit "/v1/openapi.json" then "openapi"
  else if path =b lit "/v1/kv/batch" then "batch"
  else if path =b lit "/v1/admin/compact" then "compact"
  else if (path =b lit "/v1/kv") || starts_with (lit "/v1/kv?") path then "list"
  else if starts_with (lit "/v1/kv/") path then
    match method with
    | GET => "get" | HEAD => "head" | PUT => "put" | DELETE => "delete" | PATCH => "patch" | _ => "other"
    end
  else "other".
