(* ===== verification/Http.v ===== *)
(** * The HTTP interface, [crates/server/src/http.rs]

    One handler per method and path; the handlers of a single key use the store of
    the shard that serves the connection, [handle_batch] sends every operation to the
    shard of its key, and the listing and the counts go to all shards.  A handler
    that returns early stops with its response. *)

From stdpp Require Import base tactics list gmap strings.
From Stdlib Require Import ZArith Lia.
From S2P Require Import Prelude Record Index LogFile ValueStore Recover NsLog Reclaim Ascii Command Glob Cache Watch Stream Store Routing Messages CrossShard HttpMsg.

Open Scope Z_scope.
Open Scope lit_scope.

(** An operation of a batch. *)
Inductive BatchOp `{SerdeJson} :=
| BatchGet (key : bytes)
| BatchSet (key : bytes) (value : option bytes) (ttl ttl_ms : option Z) (metadata : option json) (nx xx : bool)
    (if_match : option Z) (keep_ttl : bool)
| BatchDelete (key : bytes) (if_match : option Z) (return_old : bool)
| BatchIncr (key : bytes) (delta : Z)
| BatchExists (key : bytes).

(** Crates [http], [base64] and [serde_json]: the text of a header value, the text
    that is a header value, base64 in its URL-safe alphabet without padding, and the
    operations of a JSON array with the message for what is none. *)
Class HttpLib `{SerdeJson} := {
  header_to_str : bytes -> option bytes;
  header_from_str : bytes -> option bytes;
  base64_encode : bytes -> bytes;
  base64_decode : bytes -> option bytes;
  batch_from_slice : bytes -> result bytes (list BatchOp);
  base64_roundtrip : forall b, base64_decode (base64_encode b) = Some b;
}.

(** Whether bytes are UTF-8, as [String::from_utf8] decides it: a continuation byte,
    and the ranges of the second byte after a first one. *)
Definition between (a b c : Z) : bool := (a <=? c) && (c <=? b).
Definition continuation (c : Z) : bool := between 128 191 c.

Fixpoint utf8 (b : bytes) : bool :=
  match b with
  | [] => true
  | c :: b1 =>
      if between 0 127 c then utf8 b1 else
      match b1 with
      | [] => false
      | c1 :: b2 =>
          if between 194 223 c then continuation c1 && utf8 b2 else
          match b2 with
          | [] => false
          | c2 :: b3 =>
              if between 224 239 c then
                (if c =? 224 then between 160 191 c1 else if c =? 237 then between 128 159 c1 else continuation c1) &&
                continuation c2 && utf8 b3
              else
              match b3 with
              | [] => false
              | c3 :: b4 =>
                  between 240 244 c &&
                  (if c =? 240 then between 144 191 c1 else if c =? 244 then between 128 143 c1 else continuation c1) &&
                  continuation c2 && continuation c3 && utf8 b4
              end
          end
      end
  end.

(** [String::from_utf8(k).unwrap_or_else(|e| percent_encode_bytes(e.as_bytes()))]. *)
Definition key_name (k : bytes) : bytes := if utf8 k then k else percent_encode_bytes k.

Definition LIST_CURSOR_PREFIX : Z := 2.

Module Http.
Section Http.
Context {crc_impl : CrcFast} {blake : Blake3} `{Mpsc} `{Memchr} `{Messages} `{FxHash} `{!HttpLib}.
Context (clock_at instant_at : nat -> nat -> Z) (io_at : nat -> nat -> faults) (links : nat -> Cluster.link).
Context (merges : nat -> list merge_faults) (pkg_version : bytes).

(** The shard that serves the connection and the number of shards. *)
Context (shard_idx n_shards : nat).

(** A handler that does not reach its end: it returns a response or panics. *)
Inductive stop := Early (r : Response) | Panic.
Abbreviation HM := (ST (list ShardStore.t) stop).

Definition early {A} (r : Response) : HM A := st_err (Early r).

Definition lift {A} (m : ST (list ShardStore.t) Cluster.failure A) : HM A := fun c =>
  match m c with
  | (Ok a, c) => (Ok a, c)
  | (Err _, c) => (Err Panic, c)
  end.

(** The store of the connection. *)
Definition own {A} (m : (nat -> Z) -> (nat -> Z) -> (nat -> faults) -> ST ShardStore.t EngineError A) : HM (eresult A) :=
  lift (Cluster.call shard_idx (m (clock_at shard_idx) (instant_at shard_idx) (io_at shard_idx))).

(** [Instant::now()] and [SystemTime::now()] in seconds. *)
Definition instant_now : HM Z :=
  r ← own (fun _ it _ => ShardStore.instant_now it);
  mret (match r with Ok t => t | Err _ => 0 end).

Definition now_secs : HM Z :=
  r ← own (fun ck _ _ => ShardStore.now_ms ck);
  mret (match r with Ok ms => ms / 1000 | Err _ => 0 end).

(** A request to another shard, which is refused when its inbox is full, and its
    reply, which may be dropped. *)
Definition post {R} (target : nat) (req : CrossShard.CrossShardRequest R) : HM (option (sresult R)) :=
  sent ← lift (Cluster.send_to clock_at instant_at io_at links target req);
  match sent with
  | None => early (err 503 (lit "shard_unavailable") (lit "shard inbox full"))
  | Some reply => mret reply
  end.

Definition received {R} (reply : option (sresult R)) : sresult R :=
  match reply with Some r => r | None => Err canceled_message end.

Definition ask {R} (target : nat) (req : CrossShard.CrossShardRequest R) : HM (sresult R) :=
  reply ← post target req; mret (received reply).

(** [.map_err(|e| e.to_string())]. *)
Definition to_text {A} (r : eresult A) : sresult A :=
  match r with Ok a => Ok a | Err e => Err (engine_to_string e) end.

(** ** Single keys *)

(** [t.saturating_duration_since(now)] in milliseconds, and its headers. *)
Definition ttl_headers (expires_at : option Z) (now : Z) : list (bytes * bytes) :=
  match expires_at with
  | Some t =>
      let rem := Z.max 0 (t - now) in
      [(lit "X-KV-TTL", show_u64 (rem / 1000)); (lit "X-KV-TTL-MS", show_u64 (rem mod 2 ^ 64))]
  | None => []
  end.

(** The headers that describe an entry. *)
Definition entry_headers (entry : Entry) (now : Z) : list (bytes * bytes) :=
  ttl_headers (e_expires_at entry) now ++
  (if 0 <? e_revision entry then [(lit "X-KV-Revision", show_u64 (e_revision entry))] else []) ++
  match e_metadata entry with
  | Some meta =>
      match json_to_vec meta with
      | Ok json => match header_from_str json with Some hv => [(lit "X-KV-Metadata", hv)] | None => [] end
      | Err _ => []
      end
  | None => []
  end.

Definition octet_stream : bytes * bytes := (lit "Content-Type", lit "application/octet-stream").

Definition entry_response (entry : Entry) : HM Response :=
  now ← (match e_expires_at entry with Some _ => instant_now | None => mret 0 end);
  mret (mkResponse 200 (entry_headers entry now ++ [octet_stream]) (Fixed (e_value entry))).

Definition handle_get (ns key : bytes) : HM Response :=
  r ← own (fun ck it io => ShardStore.get ck it io ns key);
  match r with
  | Err e => mret (engine_error_response e)
  | Ok None => mret (not_found_json (lit "not_found") (lit "key does not exist"))
  | Ok (Some entry) => entry_response entry
  end.

Definition handle_head (ns key : bytes) : HM Response :=
  r ← own (fun ck it io => ShardStore.get ck it io ns key);
  match r with
  | Err e => mret (engine_error_response e)
  | Ok None => mret bare_404
  | Ok (Some entry) =>
      now ← (match e_expires_at entry with Some _ => instant_now | None => mret 0 end);
      mret (mkResponse 200 (entry_headers entry now) NoBody)
  end.

(** The clock is read for the two absolute times only. *)
Definition parse_ttl_op (query : bytes) : HM (option GetExOp) :=
  match query_param query (lit "persist") with
  | Some _ => mret (Some Persist)
  | None =>
      match s ← query_param query (lit "ttl"); parse_u64 s with
      | Some secs => mret (Some (SetTtl (secs * 1000)))
      | None =>
          match s ← query_param query (lit "ttl_ms"); parse_u64 s with
          | Some ms => mret (Some (SetTtl ms))
          | None =>
              now_secs ← now_secs;
              match s ← query_param query (lit "ttl_at"); parse_u64 s with
              | Some at_secs => mret (Some (SetTtl (sat_sub at_secs now_secs * 1000)))
              | None =>
                  match s ← query_param query (lit "ttl_at_ms"); parse_u64 s with
                  | Some at_ms => mret (Some (SetTtl (sat_sub at_ms (now_secs * 1000))))
                  | None => mret None
                  end
              end
          end
      end
  end.

Definition has_header (req : Request) (name : bytes) : bool :=
  match header req name with Some _ => true | None => false end.

Definition changed_or_404 (r : eresult bool) : Response :=
  match r with
  | Ok true => no_content
  | Ok false => bare_404
  | Err e => engine_error_response e
  end.

Definition handle_patch (ns key : bytes) (req : Request) : HM Response :=
  let return_value := has_header req (lit "x-kv-return-value") in
  getex_op ← parse_ttl_op (query req);
  if return_value : bool then
    r ← own (fun ck it io => ShardStore.getex ck it io ns key getex_op);
    match r with
    | Err e => mret (engine_error_response e)
    | Ok None => mret bare_404
    | Ok (Some entry) => entry_response entry
    end
  else
    match getex_op with
    | None =>
        mret (err 400 (lit "invalid_request") (lit "supply exactly one of: ttl, ttl_ms, ttl_at, ttl_at_ms, persist=1"))
    | Some Persist => changed_or_404 <$> own (fun ck it io => ShardStore.persist ck it io ns key)
    | Some (SetTtl dur) => changed_or_404 <$> own (fun ck it io => ShardStore.expire ck it io ns key dur)
    end.

Definition parse_ttl_from_request (req : Request) : option Z :=
  let secs := match (v ← header req (lit "x-kv-ttl"); s ← header_to_str v; parse_u64 s) with
              | Some secs => Some secs
              | None => s ← query_param (query req) (lit "ttl"); parse_u64 s
              end in
  secs ← secs; Some (secs * 1000).

Definition parse_if_match (req : Request) : option Z :=
  v ← header req (lit "if-match"); s ← header_to_str v; parse_u64 s.

Definition parse_metadata (req : Request) : option json :=
  v ← header req (lit "x-kv-metadata");
  s ← header_to_str v;
  if decide (zlen s <= 64 * 1024) then match json_from_slice s with Ok j => Some j | Err _ => None end else None.

Definition stored_or_409 (conflict : bytes) (r : eresult bool) : Response :=
  match r with
  | Ok true => no_content
  | Ok false => err 409 (lit "conflict") conflict
  | Err e => engine_error_response e
  end.

Definition handle_put (ns key body : bytes) (req : Request) : HM Response :=
  let ttl := parse_ttl_from_request req in
  let keep_ttl := has_header req (lit "x-kv-keepttl") in
  let return_old := has_header req (lit "x-kv-return-old") in
  let metadata := parse_metadata req in
  let nx := contains (query req) (lit "nx=1") in
  let xx := contains (query req) (lit "xx=1") in
  let if_match := parse_if_match req in
  if keep_ttl && bool_decide (is_Some ttl) then
    mret (err 400 (lit "invalid_request") (lit "x-kv-keepttl cannot be combined with a TTL option"))
  else if return_old && (nx || xx || bool_decide (is_Some if_match) || keep_ttl) then
    mret (err 400 (lit "invalid_request")
            (lit "x-kv-return-old cannot be combined with conditional writes or x-kv-keepttl"))
  else
  let opts := mkSetOptions ttl metadata keep_ttl in
  if return_old then
    r ← own (fun ck it io => ShardStore.getset ck it io ns key body);
    mret (match r with
          | Ok (Some old) => mkResponse 200 [octet_stream] (Fixed (e_value old))
          | Ok None => no_content
          | Err e => engine_error_response e
          end)
  else match if_match with
  | Some expected_rev =>
      r ← own (fun ck _ io => ShardStore.setrev ck io ns key body opts expected_rev);
      mret (match r with
            | Ok (Some new_rev) => mkResponse 204 [(lit "X-KV-Revision", show_u64 new_rev)] NoBody
            | Ok None => err 409 (lit "conflict") (lit "revision mismatch")
            | Err e => engine_error_response e
            end)
  | None =>
      if nx then stored_or_409 (lit "key already exists") <$> own (fun ck _ io => ShardStore.setnx ck io ns key body opts)
      else if xx then stored_or_409 (lit "key does not exist") <$> own (fun ck _ io => ShardStore.setxx ck io ns key body opts)
      else
        r ← own (fun ck _ io => ShardStore.set ck io ns key body opts);
        mret (match r with Ok _ => no_content | Err e => engine_error_response e end)
  end.

Definition handle_delete (ns key : bytes) (req : Request) : HM Response :=
  let return_old := has_header req (lit "x-kv-return-old") in
  match parse_if_match req with
  | Some expected_rev =>
      r ← own (fun ck _ io => ShardStore.delrev ck io ns key expected_rev);
      mret (match r with
            | Ok (Some _) => no_content
            | Ok None => err 409 (lit "conflict") (lit "revision mismatch")
            | Err e => engine_error_response e
            end)
  | None =>
      if return_old then
        r ← own (fun ck it io => ShardStore.getdel ck it io ns key);
        match r with
        | Err e => mret (engine_error_response e)
        | Ok None => mret no_content
        | Ok (Some entry) => entry_response entry
        end
      else
        r ← own (fun ck _ io => ShardStore.del ck io ns [key]);
        mret (match r with Ok _ => no_content | Err e => engine_error_response e end)
  end.

Definition handle_incr (ns key : bytes) (delta : Z) : HM Response :=
  r ← own (fun ck _ io => ShardStore.incr ck io ns key delta);
  mret (match r with
        | Ok n => json_response 200 (JObj [(lit "value", JNum n)])
        | Err e => engine_error_response e
        end).

Definition handle_compact (ns : bytes) : HM Response :=
  r ← own (fun _ _ io => ShardStore.reclaim io ns (merges shard_idx));
  mret (match r with Ok _ => no_content | Err e => engine_error_response e end).

(** ** All keys *)

(** The loop over the shards of [handle_dbsize]: the own count and the replies to come. *)
Fixpoint dbsize_shards (ns : bytes) (shards : list nat) (total : Z) (replies : list (option (sresult Z)))
    : HM (Z * list (option (sresult Z))) :=
  match shards with
  | [] => mret (total, replies)
  | shard :: shards =>
      if decide (shard = shard_idx) then
        r ← own (fun _ _ _ => ShardStore.db_size ns);
        match r with
        | Ok n => dbsize_shards ns shards (total + n) replies
        | Err e => early (engine_error_response e)
        end
      else
        reply ← post shard (CrossShard.DbSize ns);
        dbsize_shards ns shards total (replies ++ [reply])
  end.

(** The loop over the replies. *)
Fixpoint await_each {R A} (f : A -> R -> A) (acc : A) (replies : list (option (sresult R))) : HM A :=
  match replies with
  | [] => mret acc
  | reply :: replies =>
      match received reply with
      | Ok r => await_each f (f acc r) replies
      | Err e => early (internal_error e)
      end
  end.

Definition handle_dbsize (ns : bytes) : HM Response :=
  if decide (n_shards <= 1)%nat then
    r ← own (fun _ _ _ => ShardStore.db_size ns);
    mret (match r with
          | Ok count => json_response 200 (JObj [(lit "count", JNum count)])
          | Err e => engine_error_response e
          end)
  else
    '(total, replies) ← dbsize_shards ns (seq 0 n_shards) 0 [];
    total ← await_each Z.add total replies;
    mret (json_response 200 (JObj [(lit "count", JNum total)])).

Fixpoint flush_shards (ns : bytes) (shards : list nat) (replies : list (option (sresult unit)))
    : HM (list (option (sresult unit))) :=
  match shards with
  | [] => mret replies
  | shard :: shards =>
      if decide (shard = shard_idx) then
        r ← own (fun ck _ _ => ShardStore.flush_db ck ns);
        match r with
        | Ok _ => flush_shards ns shards replies
        | Err e => early (engine_error_response e)
        end
      else
        reply ← post shard (CrossShard.FlushDb ns);
        flush_shards ns shards (replies ++ [reply])
  end.

Definition handle_flushdb (ns : bytes) : HM Response :=
  if decide (n_shards <= 1)%nat then
    r ← own (fun ck _ _ => ShardStore.flush_db ck ns);
    mret (match r with Ok _ => no_content | Err e => engine_error_response e end)
  else
    replies ← flush_shards ns (seq 0 n_shards) [];
    await_each (fun _ _ => tt) tt replies;;
    mret no_content.

(** ** Batches *)

(** An operation at the shard of a key: in the own store, or as a request to the other
    shard whose reply is read with [f]. *)
Definition at_shard {A R} (key : bytes) (local : HM (sresult A)) (req : CrossShard.CrossShardRequest R) (f : R -> A)
    : HM (sresult A) :=
  if decide (1 < n_shards)%nat then
    let target := shard_for_key key n_shards in
    if decide (target = shard_idx) then local
    else
      r ← ask target req;
      mret (match r with Ok x => Ok (f x) | Err e => Err e end)
  else local.

Definition own_text {A} (m : (nat -> Z) -> (nat -> Z) -> (nat -> faults) -> ST ShardStore.t EngineError A) : HM (sresult A) :=
  to_text <$> own m.

(** The JSON of an entry. *)
Definition entry_json (e : Entry) : HM jvalue :=
  ttl ← (match e_expires_at e with
         | Some exp =>
             now ← instant_now;
             let rem := Z.max 0 (exp - now) in
             mret [(lit "ttl", JNum (rem / 1000)); (lit "ttl_ms", JNum (rem mod 2 ^ 64))]
         | None => mret []
         end);
  mret (JObj ([(lit "value", JStr (base64_encode (e_value e))); (lit "revision", JNum (e_revision e))] ++ ttl ++
              match e_metadata e with Some meta => [(lit "metadata", JDoc meta)] | None => [] end)).

Definition entry_or_null (r : sresult (option Entry)) : HM jvalue :=
  match r with
  | Err e => early (internal_error e)
  | Ok None => mret JNull
  | Ok (Some e) => entry_json e
  end.

(** [BatchSetOutcome]. *)
Inductive BatchSetOutcome := SetOk | SetConflict (msg : bytes) | SetErr (e : bytes).

Definition rev_outcome {A} (r : sresult (option A)) : BatchSetOutcome :=
  match r with Ok (Some _) => SetOk | Ok None => SetConflict (lit "revision mismatch") | Err e => SetErr e end.
Definition cond_outcome (msg : bytes) (r : sresult bool) : BatchSetOutcome :=
  match r with Ok true => SetOk | Ok false => SetConflict msg | Err e => SetErr e end.
Definition plain_outcome (r : sresult unit) : BatchSetOutcome :=
  match r with Ok _ => SetOk | Err e => SetErr e end.

Definition batch_set_local (ns key value : bytes) (opts : SetOptions) (nx xx : bool) (if_match : option Z)
    : HM BatchSetOutcome :=
  match if_match with
  | Some rev => rev_outcome <$> own_text (fun ck _ io => ShardStore.setrev ck io ns key value opts rev)
  | None =>
      if nx then cond_outcome (lit "key already exists") <$> own_text (fun ck _ io => ShardStore.setnx ck io ns key value opts)
      else if xx then
        cond_outcome (lit "key does not exist") <$> own_text (fun ck _ io => ShardStore.setxx ck io ns key value opts)
      else plain_outcome <$> own_text (fun ck _ io => ShardStore.set ck io ns key value opts)
  end.

Definition batch_set (ns key value : bytes) (opts : SetOptions) (nx xx : bool) (if_match : option Z) : HM BatchSetOutcome :=
  let local := batch_set_local ns key value opts nx xx if_match in
  if decide (1 < n_shards)%nat then
    let target := shard_for_key key n_shards in
    if decide (target = shard_idx) then local
    else match if_match with
    | Some rev => rev_outcome <$> ask target (CrossShard.SetRev ns key value opts rev)
    | None =>
        if nx then cond_outcome (lit "key already exists") <$> ask target (CrossShard.SetNx ns key value opts)
        else if xx then cond_outcome (lit "key does not exist") <$> ask target (CrossShard.SetXx ns key value opts)
        else plain_outcome <$> ask target (CrossShard.Set_ ns key value opts)
    end
  else local.

Definition batch_get (ns key : bytes) : HM jvalue :=
  let raw_key := percent_decode key in
  entry ← at_shard raw_key (own_text (fun ck it io => ShardStore.get ck it io ns raw_key))
            (CrossShard.MGet ns [(O, raw_key)]) (fun v => e ← last v; e.2);
  entry_or_null entry.

Definition batch_put (ns key : bytes) (value : option bytes) (ttl ttl_ms : option Z) (metadata : option json) (nx xx : bool)
    (if_match : option Z) (keep_ttl : bool) : HM jvalue :=
  let raw_key := percent_decode key in
  let value_bytes := default [] value in
  let ttl := match ttl_ms with Some ms => Some ms | None => (fun s => s * 1000) <$> ttl end in
  outcome ← batch_set ns raw_key value_bytes (mkSetOptions ttl metadata keep_ttl) nx xx if_match;
  match outcome with
  | SetOk => mret JNull
  | SetConflict msg => early (err 409 (lit "conflict") msg)
  | SetErr e => early (internal_error e)
  end.

Definition batch_delete (ns key : bytes) (if_match : option Z) (return_old : bool) : HM jvalue :=
  let raw_key := percent_decode key in
  if return_old : bool then
    entry ← at_shard raw_key (own_text (fun ck it io => ShardStore.getdel ck it io ns raw_key))
              (CrossShard.GetDel ns raw_key 0) snd;
    entry_or_null entry
  else
    del_result ←
      match if_match with
      | Some rev =>
          at_shard raw_key
            (r ← own_text (fun ck _ io => ShardStore.delrev ck io ns raw_key rev);
             mret (match r with Ok opt => Ok (bool_decide (is_Some opt)) | Err e => Err e end))
            (CrossShard.DelRev ns raw_key rev) (fun opt => bool_decide (is_Some opt))
      | None =>
          at_shard raw_key
            (r ← own_text (fun ck _ io => ShardStore.del ck io ns [raw_key]);
             mret (match r with Ok _ => Ok true | Err e => Err e end))
            (CrossShard.Del ns [raw_key]) (fun _ => true)
      end;
    match del_result with
    | Err e => early (internal_error e)
    | Ok false => early (err 409 (lit "conflict") (lit "revision mismatch"))
    | Ok true => mret JNull
    end.

Definition batch_exists (ns key : bytes) : HM jvalue :=
  let raw_key := percent_decode key in
  count ← at_shard raw_key (own_text (fun ck _ _ => ShardStore.exists_ ck ns [raw_key]))
            (CrossShard.Exists ns [raw_key]) id;
  match count with
  | Err e => early (internal_error e)
  | Ok n => mret (JBool (0 <? n))
  end.

Definition batch_incr (ns key : bytes) (delta : Z) : HM jvalue :=
  let raw_key := percent_decode key in
  res ← at_shard raw_key (own_text (fun ck _ io => ShardStore.incr ck io ns raw_key delta))
          (CrossShard.Incr ns raw_key delta) id;
  match res with
  | Err e => early (internal_error e)
  | Ok n => mret (JObj [(lit "value", JNum n)])
  end.

Definition batch_one (ns : bytes) (op : BatchOp) : HM jvalue :=
  match op with
  | BatchGet key => batch_get ns key
  | BatchSet key value ttl ttl_ms metadata nx xx if_match keep_ttl =>
      batch_put ns key value ttl ttl_ms metadata nx xx if_match keep_ttl
  | BatchDelete key if_match return_old => batch_delete ns key if_match return_old
  | BatchExists key => batch_exists ns key
  | BatchIncr key delta => batch_incr ns key delta
  end.

Fixpoint batch_loop (ns : bytes) (ops : list BatchOp) (results : list jvalue) : HM (list jvalue) :=
  match ops with
  | [] => mret results
  | op :: ops => result ← batch_one ns op; batch_loop ns ops (results ++ [result])
  end.

Definition handle_batch (ns body : bytes) : HM Response :=
  match batch_from_slice body with
  | Err e => mret (err 400 (lit "invalid_request") e)
  | Ok ops => results ← batch_loop ns ops []; mret (json_response 200 (JArr results))
  end.

(** ** Listing *)

Definition key_items (keys : list bytes) : jvalue := JArr ((fun k => JObj [(lit "name", JStr (key_name k))]) <$> keys).

Definition list_response (keys : list bytes) (cursor : option bytes) : Response :=
  json_response 200 (JObj ([(lit "keys", key_items keys)] ++
    match cursor with Some c => [(lit "next_cursor", JStr c)] | None => [] end)).

(** The cursor of a page is the byte 1 and the last key. *)
Definition build_list_response_single (page : ScanPage) : Response :=
  let done := next_cursor page =b lit "0" in
  list_response (page_keys page)
    (if done then None
     else Some (base64_encode (match next_cursor page with 1 :: key => key | other => other end))).

Definition list_limit (query : bytes) : Z :=
  Z.min (default 100 (s ← query_param query (lit "limit"); parse_u64 s)) 1000.

Definition list_pattern (query : bytes) : option bytes :=
  raw ← query_param query (lit "prefix"); Some (percent_decode raw ++ [42]).

Definition single_cursor (query : bytes) : bytes :=
  match query_param query (lit "cursor") with
  | None => lit "0"
  | Some s =>
      if s =b lit "0" then lit "0"
      else match base64_decode s with Some key => 1 :: key | None => lit "0" end
  end.

(** The shard and its cursor; a bad cursor starts again. *)
Definition list_cursor (query : bytes) : nat * bytes :=
  let raw := default (lit "0") (query_param query (lit "cursor")) in
  if raw =b lit "0" then (O, lit "0")
  else match base64_decode raw with
       | Some (p :: shard :: inner) => if p =? LIST_CURSOR_PREFIX then (Z.to_nat shard, inner) else (O, lit "0")
       | _ => (O, lit "0")
       end.

(** The shard is written as one byte. *)
Definition list_blob (shard : nat) (inner : bytes) : bytes := [LIST_CURSOR_PREFIX; Z.of_nat shard mod 256] ++ inner.

Definition next_list_cursor (target_shard : nat) (page : ScanPage) : option bytes :=
  if next_cursor page =b lit "0" then
    let next_shard := S target_shard in
    if decide (n_shards <= next_shard)%nat then None else Some (base64_encode (list_blob next_shard (lit "0")))
  else Some (base64_encode (list_blob target_shard (next_cursor page))).

Definition handle_list (ns query : bytes) : HM Response :=
  let prefix_pattern := list_pattern query in
  let limit := list_limit query in
  if decide (n_shards <= 1)%nat then
    r ← own (fun ck _ _ => ShardStore.scan ck ns (single_cursor query) prefix_pattern limit);
    mret (match r with Err e => engine_error_response e | Ok page => build_list_response_single page end)
  else
    let '(target_shard, per_shard_cursor) := list_cursor query in
    let target_shard := Nat.min target_shard (n_shards - 1) in
    page_result ←
      (if decide (target_shard = shard_idx) then
         own_text (fun ck _ _ => ShardStore.scan ck ns per_shard_cursor prefix_pattern limit)
       else ask target_shard (CrossShard.Scan ns per_shard_cursor prefix_pattern limit));
    match page_result with
    | Err e => mret (internal_error e)
    | Ok page => mret (list_response (page_keys page) (next_list_cursor target_shard page))
    end.

(** ** Routes *)

(** [metrics] and [openapi] are the texts of the counters and of the interface
    description; [sync_failures] counts the failed syncs of each shard. *)
Definition route (metrics openapi : bytes) (sync_failures : list Z) (sync_failure_threshold : Z) (req : Request) (body : bytes) : HM Response :=
  let path := path req in
  let query := query req in
  let in_ns := fun k : bytes -> HM Response => match parse_ns query with Ok ns => k ns | Err r => mret r end in
  if path =b lit "/livez" then mret (healthz_json pkg_version 200 (lit "ok"))
  else if path =b lit "/readyz" then
    let degraded := existsb (fun f => sync_failure_threshold <=? f) sync_failures in
    mret (healthz_json pkg_version (if degraded then 503 else 200) (if degraded then lit "degraded" else lit "ok"))
  else if path =b lit "/metrics" then
    mret (mkResponse 200 [(lit "Content-Type", lit "text/plain; version=0.0.4")] (Fixed metrics))
  else if path =b lit "/v1/openapi.json" then
    if decide (method req = GET)
    then mret (mkResponse 200 [(lit "Content-Type", lit "application/json")] (Fixed openapi))
    else mret method_not_allowed
  else if path =b lit "/v1/admin/compact" then
    if decide (method req = POST) then in_ns handle_compact else mret method_not_allowed
  else if path =b lit "/v1/kv/batch" then
    if decide (method req = POST) then in_ns (fun ns => handle_batch ns body) else mret method_not_allowed
  else if (path =b lit "/v1/kv") || (path =b lit "/v1/kv/") then
    in_ns (fun ns =>
      match method req with
      | GET => match query_param query (lit "count") with Some _ => handle_dbsize ns | None => handle_list ns query end
      | DELETE => handle_flushdb ns
      | _ => mret method_not_allowed
      end)
  else if starts_with (lit "/v1/kv/") path then
    let rest := drop 7 path in
    in_ns (fun ns =>
      match strip_suffix (lit "/incr") rest with
      | Some key_encoded =>
          if decide (method req = POST) then
            let key := percent_decode key_encoded in
            if decide (key = []) then mret (not_found_json (lit "not_found") (lit "endpoint not found"))
            else handle_incr ns key (default 1 (s ← query_param query (lit "delta"); parse_i64 s))
          else mret method_not_allowed
      | None =>
          let key := percent_decode rest in
          if decide (key = []) then mret (not_found_json (lit "not_found") (lit "endpoint not found"))
          else match method req with
               | GET => handle_get ns key
               | HEAD => handle_head ns key
               | PUT => handle_put ns key body req
               | DELETE => handle_delete ns key req
               | PATCH => handle_patch ns key req
               | _ => mret method_not_allowed
               end
      end)
  else mret (not_found_json (lit "not_found") (lit "endpoint not found")).

(** The response of a handler, also when it returns early. *)
Definition finish (m : HM Response) : ST (list ShardStore.t) Cluster.failure Response := fun c =>
  match m c with
  | (Ok r, c) | (Err (Early r), c) => (Ok r, c)
  | (Err Panic, c) => (Err Cluster.Panicked, c)
  end.

(** ** Watching *)

Record WatchParams := mkWatchParams { wp_ns : bytes; wp_key : bytes; is_prefix : bool; since : option Z }.

Definition parse_watch_params (path query : bytes) : option WatchParams :=
  match parse_ns query with
  | Err _ => None
  | Ok ns =>
      let since := s ← query_param query (lit "since"); parse_u64 s in
      if starts_with (lit "/v1/watch/") path then
        let key_encoded := drop 10 path in
        if decide (key_encoded = []) then None else Some (mkWatchParams ns (percent_decode key_encoded) false since)
      else if path =b lit "/v1/watch" then
        prefix_raw ← query_param query (lit "prefix");
        Some (mkWatchParams ns (percent_decode prefix_raw) true since)
      else None
  end.
End Http.
End Http.
