(* ===== verification/HttpConn.v ===== *)
(** * HTTP connections, [crates/server/src/http.rs]

    The loop of a connection with its limits on the body, and the event stream of a
    watch.  Reading requests and writing responses is crate [monoio_http], which is
    the interface [HttpWire]; it tells what has been sent from what an encoder holds
    ([http_responses_in_order]). *)

From stdpp Require Import base tactics list gmap strings.
From Stdlib Require Import ZArith Lia.
From S2P Require Import Prelude Record Index LogFile ValueStore Recover NsLog Reclaim Ascii Command Glob Cache Watch Stream Store Routing Messages CrossShard HttpMsg Http.

Open Scope Z_scope.
Open Scope lit_scope.

(** What a read gives: a request with its body, [None] when the body cannot be read;
    bytes that are no request; the end; or nothing within the time. *)
Inductive http_arrival :=
| Arrived (req : Request) (payload : option bytes)
| BadRequest
| HttpEnd
| HttpElapsed.

(** The two halves of a connection.  [emitted] is what has been handed to the socket:
    responses, and the raw bytes of an event stream; [encoded] is what an encoder
    still holds.  An encoder is made for one response: what it holds when it is dropped
    has not been sent. *)
Class HttpWire `{SerdeJson} := {
  wire : Type;
  http_next : wire -> http_arrival * wire;
  http_send : Response -> wire -> bool * wire;
  http_flush : wire -> bool * wire;
  write_all : bytes -> wire -> bool * wire;
  coming : wire -> list http_arrival;
  emitted : wire -> list (Response + bytes);
  encoded : wire -> list (Response + bytes);
  http_next_arrives : forall w,
    match coming w with
    | [] => (http_next w).1 = HttpEnd
    | a :: l => (http_next w).1 = a /\ coming (http_next w).2 = l
    end;
  http_next_keeps : forall w, emitted (http_next w).2 = emitted w /\ encoded (http_next w).2 = encoded w;
  http_send_encodes : forall r w, (http_send r w).1 = true ->
    emitted (http_send r w).2 ++ encoded (http_send r w).2 = emitted w ++ encoded w ++ [inl r];
  http_send_extends : forall r w, exists gone, emitted (http_send r w).2 = emitted w ++ gone;
  http_send_keeps : forall r w, coming (http_send r w).2 = coming w;
  http_flush_emits : forall w, (http_flush w).1 = true ->
    emitted (http_flush w).2 = emitted w ++ encoded w /\ encoded (http_flush w).2 = [];
  http_flush_keeps : forall w, coming (http_flush w).2 = coming w;
  write_all_emits : forall b w, (write_all b w).1 = true ->
    emitted (write_all b w).2 = emitted w ++ [inr b] /\ encoded (write_all b w).2 = encoded w;
}.

Module HttpConn.
Section HttpConn.
Context {crc_impl : CrcFast} {blake : Blake3} `{Mpsc} `{Memchr} `{Messages} `{FxHash} `{!HttpLib} `{!HttpWire}.
Context (clock_at instant_at : nat -> nat -> Z) (io_at : nat -> nat -> faults) (links : nat -> Cluster.link).
Context (merges : nat -> list merge_faults) (pkg_version : bytes).

(** [serde_json::Value::to_string]. *)
Context (json_text : jvalue -> bytes).
Context (shard_idx n_shards : nat).
Abbreviation D := (ST (list ShardStore.t) Cluster.failure).

(** ** Event streams *)

(** The wall clock, [log::now_ms]. *)
Definition now_ms : D Z :=
  r ← Cluster.call shard_idx (ShardStore.now_ms (clock_at shard_idx));
  mret (match r with Ok ms => ms | Err _ => 0 end).

Definition sse_event_json (event : WatchEvent) : D bytes :=
  match event with
  | EvSet key value metadata expires_at_ms revision =>
      ttl ← (match expires_at_ms with
             | Some exp_ms => now ← now_ms; mret [(lit "ttl", JNum (sat_sub exp_ms now / 1000))]
             | None => mret []
             end);
      mret (json_text (JObj ([(lit "type", JStr (lit "set")); (lit "key", JStr (key_name key));
                              (lit "value", JStr (base64_encode value)); (lit "revision", JNum revision)] ++ ttl ++
                             match metadata with Some meta => [(lit "metadata", JDoc meta)] | None => [] end)))
  | EvDel key revision =>
      mret (json_text (JObj [(lit "type", JStr (lit "del")); (lit "key", JStr (key_name key)); (lit "revision", JNum revision)]))
  end.

Definition sse_headers : bytes :=
  lit "HTTP/1.1 200 OK" ++ crlf ++ lit "Content-Type: text/event-stream" ++ crlf ++ lit "Cache-Control: no-cache" ++ crlf ++
  lit "X-Accel-Buffering: no" ++ crlf ++ lit "Connection: keep-alive" ++ crlf ++ crlf.

(** [format!("data: {}\n\n", text)]. *)
Definition data_line (text : bytes) : bytes := lit "data: " ++ text ++ [10; 10].
Definition error_text (message : bytes) : bytes :=
  [123; 34] ++ lit "type" ++ [34; 58; 34] ++ lit "error" ++ [34; 44; 34] ++ lit "message" ++ [34; 58] ++ message ++ [125].
Definition ready_text : bytes :=
  [123; 34] ++ lit "type" ++ [34; 58; 34] ++ lit "ready" ++ [34; 44; 34] ++ lit "revision" ++ [34; 58; 48; 125].
Definition heartbeat_line : bytes := lit ": heartbeat" ++ [10; 10].

Fixpoint send_initial (events : list WatchEvent) (w : wire) : D (bool * wire) :=
  match events with
  | [] => mret (true, w)
  | event :: events =>
      text ← sse_event_json event;
      let '(ok, w) := write_all (data_line text) w in
      if ok : bool then send_initial events w else mret (false, w)
  end.

(** The events a subscription begins with, or the error that ends the stream. *)
Definition begin_stream (r : sresult (list WatchEvent * nat)) (w : wire) : D (bool * wire * list nat) :=
  match r with
  | Ok (initial, rx) => '(ok, w) ← send_initial initial w; mret (ok, w, [rx])
  | Err e => let '(_, w) := write_all (data_line (error_text (json_text (JStr e)))) w in mret (false, w, [])
  end.

Definition subscribe_own (ns : bytes) (f : KeyFilter) (since_rev : Z) : D (sresult (list WatchEvent * nat)) :=
  r ← Cluster.call shard_idx (ShardStore.watch_subscribe (clock_at shard_idx) ns f since_rev);
  mret (match r with Ok x => Ok x | Err e => Err (engine_to_string e) end).

(** The loop over the shards of a prefix watch. *)
Fixpoint subscribe_shards (ns prefix : bytes) (since_rev : Z) (shards : list nat) (w : wire) (rxs : list (nat * nat))
    : D (bool * wire * list (nat * nat)) :=
  match shards with
  | [] => mret (true, w, rxs)
  | shard :: shards =>
      result ←
        (if decide (shard = shard_idx) then r ← subscribe_own ns (Prefix prefix) since_rev; mret (Some r)
         else
           sent ← Cluster.send_to clock_at instant_at io_at links shard
                    (CrossShard.WatchSubscribe ns (CrossShard.OwnedPrefix prefix) since_rev);
           mret (match sent with
                 | None => None
                 | Some None => Some (Err canceled_message)
                 | Some (Some r) => Some r
                 end));
      match result with
      | None =>
          let '(_, w) := write_all (data_line (error_text ([34] ++ lit "shard inbox full" ++ [34]))) w in mret (false, w, rxs)
      | Some r =>
          '(ok, w, new) ← begin_stream r w;
          if ok : bool then subscribe_shards ns prefix since_rev shards w (rxs ++ ((fun rx => (shard, rx)) <$> new))
          else mret (false, w, rxs)
      end
  end.

(** What the receivers do next: an event, no event for 25 seconds, or no sender left. *)
Inductive sse_turn := SseEvent (event : WatchEvent) | SseQuiet | SseGone.

Fixpoint sse_loop (turns : list sse_turn) (w : wire) : D wire :=
  match turns with
  | [] | SseGone :: _ => mret w
  | SseEvent event :: turns =>
      text ← sse_event_json event;
      let '(ok, w) := write_all (data_line text) w in
      if ok : bool then sse_loop turns w else mret w
  | SseQuiet :: turns =>
      let '(ok, w) := write_all heartbeat_line w in
      if ok : bool then sse_loop turns w else mret w
  end.

Definition handle_watch_sse (turns : list sse_turn) (params : Http.WatchParams) (w : wire) : D wire :=
  let '(ok, w) := write_all sse_headers w in
  if negb ok then mret w else
  let since_rev := default 0 (Http.since params) in
  '(ok, w, _) ←
    (if Http.is_prefix params && bool_decide (1 < n_shards)%nat then
       subscribe_shards (Http.wp_ns params) (Http.wp_key params) since_rev (seq 0 n_shards) w []
     else
       let f := if Http.is_prefix params then Prefix (Http.wp_key params) else Exact (Http.wp_key params) in
       r ← subscribe_own (Http.wp_ns params) f since_rev;
       '(ok, w, rxs) ← begin_stream r w;
       mret (ok, w, (fun rx => (shard_idx, rx)) <$> rxs));
  if negb ok then mret w else
  let '(ok, w) := write_all (data_line ready_text) w in
  if negb ok then mret w else sse_loop turns w.

(** ** The loop of a connection *)

Context (max_value_bytes : Z).

(** The state of the counters when a request is routed. *)
Context (metrics openapi : bytes) (sync_failures : list Z) (sync_failure_threshold : Z).

Definition content_length (req : Request) : option Z :=
  v ← header req (lit "content-length"); s ← header_to_str v; parse_usize s.

(** The label under which a response is counted. *)
Definition status_label (status : Z) : string :=
  if (200 <=? status) && (status <=? 299) then "ok" else if status =? 404 then "nil" else "error".

(** One request; the flag says whether the loop goes on. *)
Definition handle_request (turns : list sse_turn) (req : Request) (payload : option bytes) (w : wire)
    : D (wire * bool * option (string * string)) :=
  match Http.parse_watch_params (path req) (query req) with
  | Some wp =>
      if decide (method req = GET) then w ← handle_watch_sse turns wp w; mret (w, false, None)
      else mret ((http_send method_not_allowed w).2, false, None)
  | None =>
      if (match content_length req with Some n => max_value_bytes <? n | None => false end)
      then mret ((http_send payload_too_large w).2, false, None) else
      match payload with
      | None => mret (w, false, None)
      | Some body =>
          if decide (max_value_bytes < zlen body) then mret ((http_send payload_too_large w).2, false, None) else
          let op := http_op (method req) (path req) in
          response ← Http.finish (Http.route clock_at instant_at io_at links merges pkg_version shard_idx n_shards
                                    metrics openapi sync_failures sync_failure_threshold req body);
          let counted := Some (op, status_label (status response)) in
          let '(ok, w) := http_send response w in
          if negb ok then mret (w, false, counted) else
          let '(ok, w) := http_flush w in
          mret (w, ok, counted)
      end
  end.

(** [None] when the fuel is used up; there are no more rounds than arrivals. *)
Fixpoint handle_conn (fuel : nat) (turns : list sse_turn) (w : wire) : D (option wire) :=
  match fuel with
  | O => mret None
  | S fuel =>
      let '(a, w) := http_next w in
      match a with
      | Arrived req payload =>
          '(w, go_on, _) ← handle_request turns req payload w;
          if go_on : bool then handle_conn fuel turns w else mret (Some w)
      | _ => mret (Some w)
      end
  end.

(** ** What a connection sends *)

(** A request that a watch does not take over. *)
Definition answered (a : http_arrival) : bool :=
  match a with
  | Arrived req _ =>
      match Http.parse_watch_params (path req) (query req) with Some _ => negb (bool_decide (method req = GET)) | None => true end
  | _ => true
  end.

(** What a request leads to: the response of its handler, after which the connection
    stays; a refusal, which ends it; or the end without a response. *)
Inductive reply := Answer (r : Response) | Refusal (r : Response) | NoReply.

Definition reply_to (req : Request) (payload : option bytes) : D reply :=
  match Http.parse_watch_params (path req) (query req), payload with
  | Some _, _ => mret (Refusal method_not_allowed)
  | None, Some body =>
      if (max_value_bytes <? default 0 (content_length req)) || (max_value_bytes <? zlen body) then mret (Refusal payload_too_large)
      else
        response ← Http.finish (Http.route clock_at instant_at io_at links merges pkg_version shard_idx n_shards
                                  metrics openapi sync_failures sync_failure_threshold req body);
        mret (Answer response)
  | None, None => mret (if max_value_bytes <? default 0 (content_length req) then Refusal payload_too_large else NoReply)
  end.

(** The answers to what arrives, up to the first thing that ends the connection, and
    the refusal it ended with. *)
Fixpoint replies (arrivals : list http_arrival) : D (list Response * option Response) :=
  match arrivals with
  | Arrived req payload :: arrivals =>
      now ← reply_to req payload;
      match now with
      | Answer r => '(later, refusal) ← replies arrivals; mret (r :: later, refusal)
      | Refusal r => mret ([], Some r)
      | NoReply => mret ([], None)
      end
  | _ => mret ([], None)
  end.

Context (Hmax : 0 <= max_value_bytes).
Context (Hsend : forall r w, (http_send r w).1 = true) (Hflush : forall w, (http_flush w).1 = true).

(** Every response of [out] has gone to the socket, in order.  A refusal behind them was
    given to an encoder, which has passed on what is in [gone] and still holds [held]. *)
Definition sent (w : wire) (out : list Response) (refusal : option Response) (w' : wire) : Prop :=
  exists gone held, gone ++ held = match refusal with Some r => [inl r] | None => [] end /\
    emitted w' = emitted w ++ (inl <$> out) ++ gone /\ encoded w' = held.

Lemma sent_nothing w w' : emitted w' = emitted w -> encoded w' = [] -> sent w [] None w'.
Proof. intros He Hb. exists [], []. by rewrite He, Hb, !app_nil_r. Qed.

Lemma sent_after w r w1 out refusal w2 :
  emitted w1 = emitted w ++ [inl r] -> sent w1 out refusal w2 -> sent w (r :: out) refusal w2.
Proof. intros He (gone & held & Hg & H2' & H3'). exists gone, held. by rewrite H2', He, <- app_assoc. Qed.

Lemma send_refusal r w : encoded w = [] -> sent w [] (Some r) (http_send r w).2.
Proof.
  intros Hb. destruct (http_send_extends r w) as [gone Hg]. exists gone, (encoded (http_send r w).2).
  pose proof (http_send_encodes r w (Hsend r w)) as He. rewrite Hg, Hb, <- app_assoc in He.
  apply app_inv_head in He. by split_and!.
Qed.

Lemma content_too_large req :
  (match content_length req with Some n => max_value_bytes <? n | None => false end) = (max_value_bytes <? default 0 (content_length req)).
Proof. destruct (content_length req); [done|]. symmetry. apply Z.ltb_ge. cbn. lia. Qed.

(** What one request does to the connection. *)
Definition does (now : reply) (w w' : wire) (go_on : bool) : Prop :=
  match now with
  | Answer r => go_on = true /\ emitted w' = emitted w ++ [inl r] /\ encoded w' = [] /\ coming w' = coming w
  | Refusal r => go_on = false /\ w' = (http_send r w).2
  | NoReply => go_on = false /\ w' = w
  end.

(** A response that the connection outlives has been flushed. *)
Lemma handle_request_replies turns req payload w c :
  answered (Arrived req payload) = true -> encoded w = [] ->
  match reply_to req payload c with
  | (Ok now, c') => exists w' go_on label,
      handle_request turns req payload w c = (Ok (w', go_on, label), c') /\ does now w w' go_on
  | (Err e, c') => handle_request turns req payload w c = (Err e, c')
  end.
Proof.
  unfold answered, reply_to, handle_request. intros Ha Hw.
  destruct (Http.parse_watch_params _ _) as [wp|].
  { rewrite decide_False by (by apply negb_true_iff, bool_decide_eq_false in Ha). by do 3 eexists. }
  rewrite content_too_large.
  destruct (max_value_bytes <? default 0 (content_length req)) eqn:Hcl; [by destruct payload; do 3 eexists|].
  destruct payload as [body|]; [|by do 3 eexists]. cbn [orb]. destruct (Z.ltb_spec max_value_bytes (zlen body)) as [Hb|Hb].
  { rewrite decide_True by done. by do 3 eexists. }
  rewrite decide_False by lia. unfold mbind, st_mbind, st_bind. destruct (Http.finish _ c) as [[response|e] c']; [|done].
  pose proof (http_send_encodes response w (Hsend response w)) as Hh. pose proof (http_send_keeps response w) as Hc.
  pose proof (Hsend response w) as Hok. destruct (http_send response w) as [ok w1].
  cbn in Hok, Hh, Hc. subst ok. cbn [negb]. pose proof (Hflush w1) as Hok. pose proof (http_flush_emits w1) as Hem.
  pose proof (http_flush_keeps w1) as Hk. destruct (http_flush w1) as [ok w2]. cbn in Hok, Hem, Hk. subst ok.
  destruct (Hem eq_refl) as [Hem1 Hem2]. do 3 eexists. split; [done|].
  split_and!; [done| |done|congruence]. by rewrite Hem1, Hh, Hw.
Qed.

End HttpConn.
End HttpConn.

(** ** An example *)

Module HttpConnExamples.
#[local] Existing Instance WatchRegistry.bytes_json.

(** A socket that takes every write and a client that has sent everything. *)
Record conversation := mkConversation {
  c_in : list http_arrival; c_out : list (Response (H := WatchRegistry.bytes_json) + bytes);
  c_held : list (Response (H := WatchRegistry.bytes_json) + bytes) }.

Definition list_wire : HttpWire (H := WatchRegistry.bytes_json).
Proof.
  refine {|
    wire := conversation;
    http_next w := match c_in w with [] => (HttpEnd, w) | a :: l => (a, mkConversation l (c_out w) (c_held w)) end;
    http_send r w := (true, mkConversation (c_in w) (c_out w) (c_held w ++ [inl r]));
    http_flush w := (true, mkConversation (c_in w) (c_out w ++ c_held w) []);
    write_all b w := (true, mkConversation (c_in w) (c_out w ++ [inr b]) (c_held w));
    coming := c_in; emitted := c_out; encoded := c_held
  |}; intros; try destruct w as [[|a l] o h]; try done; by eexists; rewrite app_nil_r.
Defined.
End HttpConnExamples.
