(* ===== verification/HttpRefine.v ===== *)
(** * What the HTTP interface does

    A key that a client writes percent-encoded into the path is the key that the
    connection is routed by and that the handler uses ([http_key_reaches_handler]);
    the requests on single keys that the description of the API knows ([asks]) do the
    operations that it gives for them ([http_refines_map]).  Batches are in
    [HttpBatch]. *)

From stdpp Require Import base tactics numbers list gmap strings.
From Stdlib Require Import ZArith Lia.
From S2P Require Import Prelude Record Index LogFile ValueStore Recover NsLog NsRepr NsSpec Reclaim NsBatch NsSim NsOk NsContract Ascii Command Glob Cache Watch Stream Store StoreInv StoreSpec StoreMany StoreRefine StoreRun Routing Messages CrossShard Dispatch DispatchRefine DispatchMap HttpMsg Http HttpConn.

Open Scope Z_scope.
Open Scope lit_scope.

(** ** Percent encoding *)

Lemma decode_plain c rest : (c =? 37) = false -> percent_decode (c :: rest) = c :: percent_decode rest.
Proof. intros Hc. destruct rest as [|h [|l rest]]; cbn [percent_decode]; [done..|]. by rewrite Hc. Qed.

(** The code of one byte. *)
Definition encode_byte (c : Z) : bytes := if unreserved c then [c] else [37; hex_upper (Z.shiftr c 4); hex_upper (Z.land c 15)].

Definition byte_code_ok (c : Z) : bool :=
  if unreserved c then negb (c =? 37)
  else bool_decide (hex_val (hex_upper (Z.shiftr c 4)) = Some (Z.shiftr c 4) /\
                    hex_val (hex_upper (Z.land c 15)) = Some (Z.land c 15) /\
                    Z.lor (Z.shiftl (Z.shiftr c 4) 4) (Z.land c 15) = c).

(** Bytes that end something in a request line or a path. *)
Definition plain (c : Z) : bool := negb ((c =? 10) || (c =? 32) || (c =? 47) || (c =? 63)).

Lemma all_byte_codes_ok c : is_u8 c -> byte_code_ok c = true /\ forallb plain (encode_byte c) = true.
Proof.
  intros Hc. assert (Forall (fun c => byte_code_ok c && forallb plain (encode_byte c) = true) (seqZ 0 256)) as Hall
    by (apply (bool_decide_unpack _); vm_compute; exact I).
  rewrite Forall_forall in Hall. apply andb_true_iff, Hall, elem_of_seqZ. unfold is_u8, u8_max in Hc. lia.
Qed.

Lemma percent_roundtrip b : is_bytes b -> percent_decode (percent_encode_bytes b) = b.
Proof.
  induction 1 as [|c b Hc _ IH]; [done|]. change (percent_encode_bytes (c :: b)) with (encode_byte c ++ percent_encode_bytes b).
  destruct (all_byte_codes_ok c Hc) as [Hok _]. unfold byte_code_ok, encode_byte in *. destruct (unreserved c).
  - apply negb_true_iff in Hok. cbn [app]. by rewrite decode_plain, IH.
  - apply bool_decide_eq_true in Hok as (Hh & Hl & Hc'). cbn [app percent_decode]. rewrite Hh, Hl, IH. cbn. by rewrite Hc'.
Qed.

Lemma percent_encode_plain b : is_bytes b -> Forall (fun c => plain c = true) (percent_encode_bytes b).
Proof.
  induction 1 as [|c b Hc _ IH]; [constructor|]. change (percent_encode_bytes (c :: b)) with (encode_byte c ++ percent_encode_bytes b).
  apply Forall_app. split; [|done]. destruct (all_byte_codes_ok c Hc) as [_ Hp]. apply Forall_forall. intros x Hx.
  rewrite forallb_forall in Hp. by apply Hp, list_elem_of_In.
Qed.

Lemma plain_no_byte c b : plain c = false -> Forall (fun c => plain c = true) b -> no_byte c b.
Proof.
  intros Hc Hb. unfold no_byte. eapply Forall_impl; [exact Hb|]. cbn. intros x Hx. apply Z.eqb_neq. intros ->. congruence.
Qed.

(** The two decoders agree. *)
Lemma percent_decode_same b : percent_decode_routing b = percent_decode b.
Proof.
  induction b as [b IH] using (induction_ltof1 _ (@length Z)). unfold ltof in IH.
  destruct b as [|c rest]; [done|]. destruct rest as [|h [|l rest]]; [done|by cbn|].
  cbn [percent_decode percent_decode_routing].
  assert (percent_decode_routing (h :: l :: rest) = percent_decode (h :: l :: rest)) as Hrest by (apply IH; cbn; lia).
  cbn [percent_decode percent_decode_routing] in Hrest. rewrite Hrest.
  assert (percent_decode_routing rest = percent_decode rest) as -> by (apply IH; cbn; lia). done.
Qed.

Lemma no_incr_suffix b : no_byte 47 b -> strip_suffix (lit "/incr") b = None.
Proof.
  intros Hb. unfold strip_suffix. destruct (_ && _) eqn:Hs; [|done]. exfalso.
  apply andb_true_iff in Hs as [_ Hs]. apply bytes_eqb_spec in Hs. unfold from in Hs.
  assert (47 ∈ drop (Z.to_nat (zlen b - zlen (lit "/incr"))) b) as Hin by (rewrite Hs; cbn; constructor).
  unfold no_byte in Hb. rewrite Forall_forall in Hb.
  assert (47 ∈ b) as Hin' by (rewrite <- (take_drop (Z.to_nat (zlen b - zlen (lit "/incr"))) b); set_solver).
  by specialize (Hb 47 Hin').
Qed.

Lemma incr_suffix b : strip_suffix (lit "/incr") (b ++ lit "/incr") = Some b.
Proof.
  unfold strip_suffix. rewrite zlen_app. replace (zlen b + zlen (lit "/incr") - zlen (lit "/incr")) with (zlen b) by lia.
  unfold from, range. rewrite Z.sub_0_r. change (Z.to_nat 0) with 0%nat. rewrite drop_0.
  assert (Z.to_nat (zlen b) = length b) as -> by (unfold zlen; lia). rewrite drop_app_length, take_app_length.
  destruct (Z.leb_spec (zlen (lit "/incr")) (zlen b + zlen (lit "/incr"))) as [_|Hlt]; [|pose proof (zlen_nonneg b); lia].
  by rewrite (proj2 (bytes_eqb_spec _ _)).
Qed.

(** ** Routes of single keys *)

Section Routes.
Context {crc_impl : CrcFast} {blake : Blake3} `{Mpsc} `{Memchr} `{Messages} `{FxHash} `{!HttpLib}.
Context (clock_at instant_at : nat -> nat -> Z) (io_at : nat -> nat -> faults) (links : nat -> Cluster.link).
Context (merges : nat -> list merge_faults) (pkg_version metrics openapi : bytes) (sync_failures : list Z) (sync_failure_threshold : Z) (self n : nat).
Abbreviation route := (Http.route clock_at instant_at io_at links merges pkg_version self n metrics openapi sync_failures sync_failure_threshold).

(** The path of a key, and of its counter. *)
Definition key_path (incr : bool) (seg : bytes) : bytes := if incr then seg ++ lit "/incr" else seg.

(** The handler of a method on a key. *)
Definition on_key (incr : bool) (ns key body : bytes) (req : Request) : ST (list ShardStore.t) Http.stop Response :=
  if incr then
    match method req with
    | POST =>
        Http.handle_incr clock_at instant_at io_at self ns key
          (default 1 (s ← query_param (query req) (lit "delta"); parse_i64 s))
    | _ => mret method_not_allowed
    end
  else
    match method req with
    | GET => Http.handle_get clock_at instant_at io_at self ns key
    | HEAD => Http.handle_head clock_at instant_at io_at self ns key
    | PUT => Http.handle_put clock_at instant_at io_at self ns key body req
    | DELETE => Http.handle_delete clock_at instant_at io_at self ns key req
    | PATCH => Http.handle_patch clock_at instant_at io_at self ns key req
    | _ => mret method_not_allowed
    end.

Lemma key_path_strip incr seg : no_byte 47 seg ->
  strip_suffix (lit "/incr") (key_path incr seg) = if incr then Some seg else None.
Proof. destruct incr; cbn [key_path]; [by rewrite incr_suffix|by apply no_incr_suffix]. Qed.

Lemma key_path_ne incr seg : seg <> [] -> key_path incr seg <> [].
Proof. destruct incr; [|done]. by destruct seg. Qed.

Lemma route_to_key incr req body ns seg :
  path req = needle ++ key_path incr seg -> no_byte 47 seg -> (incr = false -> seg <> lit "batch") -> percent_decode seg <> [] ->
  parse_ns (query req) = Ok ns -> route req body = on_key incr ns (percent_decode seg) body req.
Proof.
  intros Hpath Hseg Hb Hd Hns. assert (seg <> []) as Hne by (by intros ->).
  unfold Http.route. rewrite Hpath, Hns. set (rest := key_path incr seg).
  repeat match goal with
         | |- context [needle ++ rest =b ?p] => replace (needle ++ rest =b p) with false by (vm_compute; reflexivity)
         end.
  assert ((needle ++ rest =b lit "/v1/kv/batch") = false) as ->.
  { apply not_true_is_false. rewrite bytes_eqb_spec. intros Heq. apply (inj (app needle)) in Heq. unfold rest in Heq.
    destruct incr; cbn [key_path] in Heq; [|by apply Hb].
    pose proof (key_path_strip true seg Hseg) as Hs. cbn [key_path] in Hs. rewrite Heq in Hs. by vm_compute in Hs. }
  assert ((needle ++ rest =b lit "/v1/kv/") = false) as ->.
  { apply not_true_is_false. rewrite bytes_eqb_spec. intros Heq. apply (key_path_ne incr seg Hne), (inj (app needle)).
    by rewrite app_nil_r. }
  assert (starts_with (lit "/v1/kv/") (needle ++ rest) = true) as -> by reflexivity.
  change (drop 7 (needle ++ rest)) with rest. unfold rest. rewrite key_path_strip by done.
  unfold on_key. destruct incr; cbn [key_path]; rewrite (decide_False (P := percent_decode seg = [])) by done; destruct (method req); reflexivity.
Qed.

(** C13: A key in the path of a request is the key that the connection is routed by and
    that the handler works on.  For every key but the empty one and [batch], every
    method and every query with a valid namespace, a connection that begins with a
    request for the percent-encoded key, with a request line that ends within the 4096
    bytes that the accept loop looks at, is dispatched to the shard that the key hashes
    to, and the request runs the handler of its method on exactly that key.  The same
    holds for the counter of a key, with [/incr] behind the key. *)
Theorem http_key_reaches_handler incr key req body ns mname more rr :
  is_bytes key -> key <> [] -> (incr = false -> key <> lit "batch") ->
  path req = needle ++ key_path incr (percent_encode_bytes key) -> parse_ns (query req) = Ok ns ->
  no_byte 32 mname -> no_byte 10 mname -> no_byte 32 (query req) -> no_byte 10 (query req) ->
  zlen (request_line mname (path req) (Some (query req))) + 2 <= 4096 ->
  accept_loop peek_http_key reject_http n [opened (request_line mname (path req) (Some (query req)) ++ crlf ++ more)] rr
    = [Dispatched (shard_for_key key n)] /\
  route req body = on_key incr ns key body req.
Proof.
  intros Hkey Hne Hb Hpath Hns Hm Hm' Hq Hq' Hlen. set (seg := percent_encode_bytes key) in *.
  pose proof (percent_encode_plain key Hkey) as Hp. fold seg in Hp.
  pose proof (percent_roundtrip key Hkey) as Hd. fold seg in Hd.
  assert (seg <> []) as Hs by (intros Hs; rewrite Hs in Hd; by subst).
  assert (forall c, plain c = false -> no_byte c seg) as Hno by (intros c Hc; by apply plain_no_byte).
  assert (forall c, (c =? 47) = false -> plain c = false -> no_byte c (key_path incr seg)) as Hno'.
  { intros c H47 Hc. destruct incr; cbn [key_path]; [|by apply Hno]. apply Forall_app. split; [by apply Hno|].
    unfold plain in Hc. rewrite negb_false_iff, !orb_true_iff, !Z.eqb_eq in Hc. rewrite Z.eqb_neq in H47.
    assert (c = 10 \/ c = 32 \/ c = 63) as [->|[->| ->]] by lia; by repeat constructor. }
  assert (forall c, c = 10 \/ c = 32 -> no_byte c (path req)) as Hno2.
  { intros c Hc. rewrite Hpath. apply Forall_app. split; [|by destruct Hc as [-> | ->]; apply Hno'].
    by destruct Hc as [-> | ->]; repeat constructor. }
  split.
  - apply accept_keyed. rewrite peek_request_line; [|done|done|by apply Hno2; right|by apply Hno2; left|by intros q [= <-]|done].
    rewrite Hpath, key_in_kv_path; [|by apply Hno'..|].
    + unfold path_key. rewrite key_path_strip by (by apply Hno). f_equal. rewrite percent_decode_same.
      by destruct incr; cbn.
    + rewrite key_path_strip by (by apply Hno). by destruct incr; cbn.
  - rewrite <- Hd at 1. apply route_to_key; try done; [by apply Hno| |by rewrite Hd].
    intros Hi Hbatch. apply (Hb Hi). rewrite <- Hd, Hbatch. done.
Qed.
End Routes.

(** ** Single keys *)

Section Single.
Context {crc_impl : CrcFast} {blake : Blake3} `{Mpsc} `{Memchr} `{Messages} `{FxHash} `{!HttpLib} (max : Z).
Context (clock_at instant_at : nat -> nat -> Z) (io_at : nat -> nat -> faults) (self : nat).
Abbreviation on_key := (on_key clock_at instant_at io_at self).

Definition entry_reply (r : eresult reply) : eresult (option Entry) :=
  match r with Ok (REntry e) => Ok e | Ok _ => Ok None | Err e => Err e end.
Definition bool_reply (r : eresult reply) : eresult bool :=
  match r with Ok (RBool b) => Ok b | Ok _ => Ok false | Err e => Err e end.

(** What a request on a key asks of the map, and the response that the reply makes at
    an instant; or the response to a request that asks for nothing that can be done. *)
Inductive plan := Do (o : op) (respond : eresult reply -> Z -> Response) | Refuse (r : Response).

Definition show_entry (missing : Response) (with_body : bool) (r : eresult reply) (now : Z) : Response :=
  match entry_reply r with
  | Err e => engine_error_response e
  | Ok None => missing
  | Ok (Some e) =>
      if with_body then mkResponse 200 (Http.entry_headers e now ++ [Http.octet_stream]) (Fixed (e_value e))
      else mkResponse 200 (Http.entry_headers e now) NoBody
  end.

Definition show_bool (no : Response) (r : eresult reply) (now : Z) : Response :=
  match bool_reply r with Ok true => no_content | Ok false => no | Err e => engine_error_response e end.

Definition show_done (r : eresult reply) (now : Z) : Response :=
  match r with Ok _ => no_content | Err e => engine_error_response e end.

Definition show_count (r : eresult reply) (now : Z) : Response :=
  match count_of r with
  | Ok n => json_response 200 (JObj [(lit "value", JNum n)])
  | Err e => engine_error_response e
  end.

Definition show_revision (r : eresult reply) (now : Z) : Response :=
  match r with
  | Ok (RRev (Some rev)) => mkResponse 204 [(lit "X-KV-Revision", show_u64 rev)] NoBody
  | Ok _ => err 409 (lit "conflict") (lit "revision mismatch")
  | Err e => engine_error_response e
  end.

(** The value that a write replaced, without its headers. *)
Definition show_replaced (r : eresult reply) (now : Z) : Response :=
  match entry_reply r with
  | Ok (Some old) => mkResponse 200 [Http.octet_stream] (Fixed (e_value old))
  | Ok None => no_content
  | Err e => engine_error_response e
  end.

(** The change of the expiry that a query asks for, and whether it takes the time. *)
Definition relative_ttl (query : bytes) : option GetExOp :=
  match query_param query (lit "persist") with
  | Some _ => Some Persist
  | None =>
      match s ← query_param query (lit "ttl"); parse_u64 s with
      | Some secs => Some (SetTtl (secs * 1000))
      | None => SetTtl <$> (s ← query_param query (lit "ttl_ms"); parse_u64 s)
      end
  end.

Definition absolute_ttl (query : bytes) (now_secs : Z) : option GetExOp :=
  match s ← query_param query (lit "ttl_at"); parse_u64 s with
  | Some at_secs => Some (SetTtl (sat_sub at_secs now_secs * 1000))
  | None => (fun at_ms => SetTtl (sat_sub at_ms (now_secs * 1000))) <$> (s ← query_param query (lit "ttl_at_ms"); parse_u64 s)
  end.

Definition asked_ttl (query : bytes) (now_secs : Z) : option GetExOp :=
  match relative_ttl query with Some o => Some o | None => absolute_ttl query now_secs end.

Definition put_plan (key body : bytes) (req : Request) : plan :=
  let ttl := Http.parse_ttl_from_request req in
  let keep_ttl := Http.has_header req (lit "x-kv-keepttl") in
  let return_old := Http.has_header req (lit "x-kv-return-old") in
  let nx := contains (query req) (lit "nx=1") in
  let xx := contains (query req) (lit "xx=1") in
  let opts := mkSetOptions ttl (Http.parse_metadata req) keep_ttl in
  if keep_ttl && bool_decide (is_Some ttl) then
    Refuse (err 400 (lit "invalid_request") (lit "x-kv-keepttl cannot be combined with a TTL option"))
  else if return_old && (nx || xx || bool_decide (is_Some (Http.parse_if_match req)) || keep_ttl) then
    Refuse (err 400 (lit "invalid_request")
              (lit "x-kv-return-old cannot be combined with conditional writes or x-kv-keepttl"))
  else if return_old then Do (OpGetset key body) show_replaced
  else match Http.parse_if_match req with
  | Some rev => Do (OpSetrev key body opts rev) show_revision
  | None =>
      if nx then Do (OpSetnx key body opts) (show_bool (err 409 (lit "conflict") (lit "key already exists")))
      else if xx then Do (OpSetxx key body opts) (show_bool (err 409 (lit "conflict") (lit "key does not exist")))
      else Do (OpSet key body opts) show_done
  end.

Definition delete_plan (key : bytes) (req : Request) : plan :=
  match Http.parse_if_match req with
  | Some rev => Do (OpDelrev key rev) (show_bool (err 409 (lit "conflict") (lit "revision mismatch")))
  | None =>
      if Http.has_header req (lit "x-kv-return-old") then Do (OpGetdel key) (show_entry no_content true)
      else Do (OpDel [key]) show_done
  end.

Definition patch_plan (key : bytes) (req : Request) (now_secs : Z) : plan :=
  let ttl := asked_ttl (query req) now_secs in
  if Http.has_header req (lit "x-kv-return-value") then Do (OpGetex key ttl) (show_entry bare_404 true)
  else match ttl with
  | Some Persist => Do (OpPersist key) (show_bool bare_404)
  | Some (SetTtl d) => Do (OpExpire key d) (show_bool bare_404)
  | None => Refuse (err 400 (lit "invalid_request") (lit "supply exactly one of: ttl, ttl_ms, ttl_at, ttl_at_ms, persist=1"))
  end.

Definition key_plan (incr : bool) (key body : bytes) (req : Request) (now_secs : Z) : plan :=
  if incr then
    match method req with
    | POST => Do (OpIncr key (default 1 (s ← query_param (query req) (lit "delta"); parse_i64 s))) show_count
    | _ => Refuse method_not_allowed
    end
  else
    match method req with
    | GET => Do (OpGet key) (show_entry (not_found_json (lit "not_found") (lit "key does not exist")) true)
    | HEAD => Do (OpGet key) (show_entry bare_404 false)
    | PUT => put_plan key body req
    | DELETE => delete_plan key req
    | PATCH => patch_plan key req now_secs
    | _ => Refuse method_not_allowed
    end.

(** ** The documented requests *)

(** The expiries that a query gives, of which [PATCH] wants exactly one. *)
Definition ttl_options (query : bytes) (now_secs : Z) : list GetExOp :=
  (if decide (query_param query (lit "persist") = Some (lit "1")) then [Persist] else []) ++
  option_list ((fun secs => SetTtl (secs * 1000)) <$> (s ← query_param query (lit "ttl"); parse_u64 s)) ++
  option_list (SetTtl <$> (s ← query_param query (lit "ttl_ms"); parse_u64 s)) ++
  option_list ((fun at_secs => SetTtl (sat_sub at_secs now_secs * 1000)) <$> (s ← query_param query (lit "ttl_at"); parse_u64 s)) ++
  option_list ((fun at_ms => SetTtl (sat_sub at_ms (now_secs * 1000))) <$> (s ← query_param query (lit "ttl_at_ms"); parse_u64 s)).

Definition persist_well_formed (query : bytes) : Prop :=
  query_param query (lit "persist") = None \/ query_param query (lit "persist") = Some (lit "1").

(** The options of a [PUT]. *)
Definition options_of (req : Request) : SetOptions :=
  mkSetOptions (Http.parse_ttl_from_request req) (Http.parse_metadata req) (Http.has_header req (lit "x-kv-keepttl")).
Definition asks_nx (req : Request) : bool := contains (query req) (lit "nx=1").
Definition asks_xx (req : Request) : bool := contains (query req) (lit "xx=1").
Definition asks_old (req : Request) : bool := Http.has_header req (lit "x-kv-return-old").

(** A [PUT] whose options the documentation allows together. *)
Definition put_allowed (req : Request) : Prop :=
  (o_keep_ttl (options_of req) = true -> o_ttl (options_of req) = None) /\
  (asks_old req = true -> asks_nx req = false /\ asks_xx req = false /\ header req (lit "if-match") = None /\
                          o_keep_ttl (options_of req) = false).

(** What [openapi/v1.json] documents of a key: one rule for each kind of request, with
    the operation it stands for or its refusal.  A request that combines options which
    exclude each other, or gives one that cannot be read, has a rule only where the
    documentation names its refusal. *)
Inductive asks (key body : bytes) (req : Request) (now_secs : Z) : bool -> plan -> Prop :=
| asks_incr s d : method req = POST -> query_param (query req) (lit "delta") = Some s -> parse_i64 s = Some d ->
    asks key body req now_secs true (Do (OpIncr key d) show_count)
| asks_incr_one : method req = POST -> query_param (query req) (lit "delta") = None ->
    asks key body req now_secs true (Do (OpIncr key 1) show_count)
| asks_incr_other : method req <> POST -> asks key body req now_secs true (Refuse method_not_allowed)
| asks_get : method req = GET ->
    asks key body req now_secs false (Do (OpGet key) (show_entry (not_found_json (lit "not_found") (lit "key does not exist")) true))
| asks_head : method req = HEAD -> asks key body req now_secs false (Do (OpGet key) (show_entry bare_404 false))
| asks_put : method req = PUT -> put_allowed req -> asks_old req = false -> header req (lit "if-match") = None ->
    asks_nx req = false -> asks_xx req = false ->
    asks key body req now_secs false (Do (OpSet key body (options_of req)) show_done)
| asks_put_new : method req = PUT -> put_allowed req -> asks_old req = false -> header req (lit "if-match") = None ->
    asks_nx req = true -> asks_xx req = false ->
    asks key body req now_secs false
      (Do (OpSetnx key body (options_of req)) (show_bool (err 409 (lit "conflict") (lit "key already exists"))))
| asks_put_present : method req = PUT -> put_allowed req -> asks_old req = false -> header req (lit "if-match") = None ->
    asks_nx req = false -> asks_xx req = true ->
    asks key body req now_secs false
      (Do (OpSetxx key body (options_of req)) (show_bool (err 409 (lit "conflict") (lit "key does not exist"))))
| asks_put_if rev : method req = PUT -> put_allowed req -> asks_old req = false -> Http.parse_if_match req = Some rev ->
    asks_nx req = false -> asks_xx req = false ->
    asks key body req now_secs false (Do (OpSetrev key body (options_of req) rev) show_revision)
| asks_put_old : method req = PUT -> put_allowed req -> asks_old req = true ->
    options_of req = mkSetOptions None None false ->
    asks key body req now_secs false (Do (OpGetset key body) show_replaced)
| asks_put_keep : method req = PUT -> o_keep_ttl (options_of req) = true -> is_Some (o_ttl (options_of req)) ->
    asks key body req now_secs false
      (Refuse (err 400 (lit "invalid_request") (lit "x-kv-keepttl cannot be combined with a TTL option")))
| asks_put_clash : method req = PUT -> o_ttl (options_of req) = None -> asks_old req = true ->
    asks_nx req = true \/ asks_xx req = true \/ is_Some (Http.parse_if_match req) \/ o_keep_ttl (options_of req) = true ->
    asks key body req now_secs false
      (Refuse (err 400 (lit "invalid_request")
                 (lit "x-kv-return-old cannot be combined with conditional writes or x-kv-keepttl")))
| asks_delete : method req = DELETE -> header req (lit "if-match") = None -> asks_old req = false ->
    asks key body req now_secs false (Do (OpDel [key]) show_done)
| asks_delete_if rev : method req = DELETE -> Http.parse_if_match req = Some rev -> asks_old req = false ->
    asks key body req now_secs false (Do (OpDelrev key rev) (show_bool (err 409 (lit "conflict") (lit "revision mismatch"))))
| asks_delete_old : method req = DELETE -> header req (lit "if-match") = None -> asks_old req = true ->
    asks key body req now_secs false (Do (OpGetdel key) (show_entry no_content true))
| asks_expire d : method req = PATCH -> persist_well_formed (query req) -> ttl_options (query req) now_secs = [SetTtl d] ->
    Http.has_header req (lit "x-kv-return-value") = false ->
    asks key body req now_secs false (Do (OpExpire key d) (show_bool bare_404))
| asks_persist : method req = PATCH -> persist_well_formed (query req) -> ttl_options (query req) now_secs = [Persist] ->
    Http.has_header req (lit "x-kv-return-value") = false ->
    asks key body req now_secs false (Do (OpPersist key) (show_bool bare_404))
| asks_getex o : method req = PATCH -> persist_well_formed (query req) -> ttl_options (query req) now_secs = [o] ->
    Http.has_header req (lit "x-kv-return-value") = true ->
    asks key body req now_secs false (Do (OpGetex key (Some o)) (show_entry bare_404 true))
| asks_no_expiry : method req = PATCH -> persist_well_formed (query req) -> ttl_options (query req) now_secs = [] ->
    Http.has_header req (lit "x-kv-return-value") = false ->
    asks key body req now_secs false
      (Refuse (err 400 (lit "invalid_request") (lit "supply exactly one of: ttl, ttl_ms, ttl_at, ttl_at_ms, persist=1")))
| asks_other : method req ∉ [GET; HEAD; PUT; DELETE; PATCH] ->
    asks key body req now_secs false (Refuse method_not_allowed).

Lemma no_if_match req : header req (lit "if-match") = None -> Http.parse_if_match req = None.
Proof. intros Hh. unfold Http.parse_if_match. by rewrite Hh. Qed.

Lemma asked_one query now_secs o :
  persist_well_formed query -> ttl_options query now_secs = [o] -> asked_ttl query now_secs = Some o.
Proof.
  unfold ttl_options, asked_ttl, relative_ttl, absolute_ttl.
  intros [Hp|Hp]; rewrite !Hp; case_decide; try done;
    repeat match goal with |- context [mbind ?f ?x] => destruct (mbind f x) end; cbn; intros [=]; by subst.
Qed.

Lemma asked_none query now_secs :
  persist_well_formed query -> ttl_options query now_secs = [] -> asked_ttl query now_secs = None.
Proof.
  unfold ttl_options, asked_ttl, relative_ttl, absolute_ttl.
  intros [Hp|Hp]; rewrite !Hp; case_decide; try done;
    repeat match goal with |- context [mbind ?f ?x] => destruct (mbind f x) end; by cbn.
Qed.

(** A request that is allowed passes the two checks at the start of a [PUT]. *)
Lemma allowed_keep req :
  put_allowed req -> o_keep_ttl (options_of req) && bool_decide (is_Some (o_ttl (options_of req))) = false.
Proof. intros [Hk _]. destruct (o_keep_ttl _); [|done]. by rewrite Hk. Qed.

Lemma allowed_old req :
  put_allowed req ->
  asks_old req && (asks_nx req || asks_xx req || bool_decide (is_Some (Http.parse_if_match req)) || o_keep_ttl (options_of req)) = false.
Proof.
  intros [_ Ho]. destruct (asks_old req); [|done]. destruct (Ho eq_refl) as (-> & -> & Hh & ->).
  by rewrite (no_if_match _ Hh).
Qed.

Lemma clash_old req :
  asks_nx req = true \/ asks_xx req = true \/ is_Some (Http.parse_if_match req) \/ o_keep_ttl (options_of req) = true ->
  asks_nx req || asks_xx req || bool_decide (is_Some (Http.parse_if_match req)) || o_keep_ttl (options_of req) = true.
Proof. rewrite !orb_true_iff, bool_decide_eq_true. tauto. Qed.

(** The code follows every rule. *)
Lemma put_follows key body req now_secs p :
  method req = PUT -> asks key body req now_secs false p -> put_plan key body req = p.
Proof.
  intros Hm Ha. unfold put_plan. fold (options_of req) (asks_nx req) (asks_xx req) (asks_old req).
  change (Http.has_header req (lit "x-kv-keepttl")) with (o_keep_ttl (options_of req)).
  change (Http.parse_ttl_from_request req) with (o_ttl (options_of req)).
  inversion Ha; subst; try congruence;
    try (rewrite allowed_keep, allowed_old by done; cbv iota);
    repeat match goal with
      | H : header req (lit "if-match") = None |- _ => apply no_if_match in H; rewrite H
      | H : Http.parse_if_match req = _ |- _ => rewrite H
      | H : asks_nx req = _ |- _ => rewrite H
      | H : asks_xx req = _ |- _ => rewrite H
      | H : asks_old req = _ |- _ => rewrite H
      end; try reflexivity.
  - rewrite bool_decide_true by done. match goal with H : o_keep_ttl _ = true |- _ => by rewrite H end.
  - match goal with H : o_ttl _ = None |- _ => rewrite H end. rewrite andb_false_r. by rewrite clash_old.
  - match goal with H : _ ∉ _ |- _ => rewrite Hm in H; destruct H; set_solver end.
Qed.

Lemma asks_plan incr key body req now_secs p :
  asks key body req now_secs incr p -> key_plan incr key body req now_secs = p.
Proof.
  intros Ha. unfold key_plan. destruct (method req) eqn:Hm; destruct incr;
    try (by eapply put_follows); inversion Ha; subst; try congruence; try reflexivity;
    try (exfalso; match goal with H : _ ∉ _ |- _ => rewrite Hm in H; apply H; set_solver end);
  repeat match goal with
    | H : header req (lit "if-match") = None |- _ => apply no_if_match in H
    | H : persist_well_formed _, H' : ttl_options _ _ = [_] |- _ => apply (asked_one _ _ _ H) in H'
    | H : persist_well_formed _, H' : ttl_options _ _ = [] |- _ => apply (asked_none _ _ H) in H'
    end;
  unfold delete_plan, patch_plan; fold (asks_old req);
    repeat match goal with H : _ = _ |- _ => rewrite H; clear H; cbn [mbind option_bind] end; reflexivity.
Qed.

(** The store when the operation starts: an absolute expiry takes the time first. *)
Definition reached (incr : bool) (req : Request) (s : ShardStore.t) : ShardStore.t :=
  match incr, method req, relative_ttl (query req) with
  | false, PATCH, None => ShardStore.set_ticks (S (ShardStore.ticks s)) s
  | _, _, _ => s
  end.

Lemma own_at {A} (m : (nat -> Z) -> (nat -> Z) -> (nat -> faults) -> ST ShardStore.t EngineError A) s c :
  c !! self = Some s ->
  Http.own clock_at instant_at io_at self m c =
    let '(r, s') := m (clock_at self) (instant_at self) (io_at self) s in (Ok r, <[self := s']> c).
Proof. intros Hs. unfold Http.own, Http.lift, Cluster.call. rewrite Hs. by destruct (m _ _ _ s). Qed.

Lemma entry_headers_lasting e now now' : e_expires_at e = None -> Http.entry_headers e now = Http.entry_headers e now'.
Proof. intros He. unfold Http.entry_headers, Http.ttl_headers. by rewrite He. Qed.

(** The instant of a response, taken only for an entry that expires. *)
Lemma instant_at_end {A} (k : Z -> A) e s c :
  c !! self = Some s -> (e_expires_at e = None -> forall t t', k t = k t') ->
  st_bind (match e_expires_at e with Some _ => Http.instant_now clock_at instant_at io_at self | None => mret 0 end)
    (fun now => mret (k now)) c = (Ok (k (instant_at self (ShardStore.ticks s))) : result Http.stop A, c).
Proof.
  intros Hs Hk. unfold st_bind. destruct (e_expires_at e) as [t|].
  - unfold Http.instant_now, mbind, st_mbind, st_bind. rewrite (own_at _ s) by done. cbn. by rewrite list_insert_id.
  - cbn. by rewrite (Hk eq_refl 0 (instant_at self (ShardStore.ticks s))).
Qed.

Lemma entry_response_at e s c : c !! self = Some s ->
  Http.entry_response clock_at instant_at io_at self e c =
    (Ok (mkResponse 200 (Http.entry_headers e (instant_at self (ShardStore.ticks s)) ++ [Http.octet_stream]) (Fixed (e_value e))), c).
Proof.
  intros Hs. apply (instant_at_end (fun now => mkResponse 200 (Http.entry_headers e now ++ [Http.octet_stream]) (Fixed (e_value e))));
    [done|]. intros He t t'. by rewrite (entry_headers_lasting e t t').
Qed.

Lemma now_secs_at s c : c !! self = Some s ->
  Http.now_secs clock_at instant_at io_at self c =
    (Ok (clock_at self (ShardStore.ticks s) / 1000), <[self := ShardStore.set_ticks (S (ShardStore.ticks s)) s]> c).
Proof. intros Hs. unfold Http.now_secs, mbind, st_mbind, st_bind. by rewrite (own_at _ s). Qed.

Lemma parse_ttl_op_at query s c : c !! self = Some s ->
  Http.parse_ttl_op clock_at instant_at io_at self query c =
    (Ok (asked_ttl query (clock_at self (ShardStore.ticks s) / 1000)),
     <[self := match relative_ttl query with Some _ => s | None => ShardStore.set_ticks (S (ShardStore.ticks s)) s end]> c).
Proof.
  intros Hs. unfold Http.parse_ttl_op, asked_ttl, relative_ttl, absolute_ttl.
  destruct (query_param query (lit "persist")); [by cbn; rewrite list_insert_id|].
  destruct (s ← query_param query (lit "ttl"); parse_u64 s); [by cbn; rewrite list_insert_id|].
  destruct (s ← query_param query (lit "ttl_ms"); parse_u64 s); [by cbn; rewrite list_insert_id|].
  erewrite st_bind_ok; [|by apply now_secs_at].
  destruct (s ← query_param query (lit "ttl_at"); parse_u64 s); [done|].
  by destruct (s ← query_param query (lit "ttl_at_ms"); parse_u64 s).
Qed.

Abbreviation run := (run_op (clock_at self) (instant_at self) (io_at self)).

(** A handler that does one operation on a store and responds. *)
Definition responds (m : ST (list ShardStore.t) Http.stop Response) (ns : bytes) (o : op)
    (f : eresult reply -> Z -> Response) (s : ShardStore.t) : Prop :=
  forall c, c !! self = Some s ->
    m c = (Ok (f (run ns o s).1 (instant_at self (ShardStore.ticks (run ns o s).2))), <[self := (run ns o s).2]> c).

Lemma own_then {A B} (m : (nat -> Z) -> (nat -> Z) -> (nat -> faults) -> ST ShardStore.t EngineError A)
    (k : eresult A -> ST (list ShardStore.t) Http.stop B) s c r s' :
  c !! self = Some s -> m (clock_at self) (instant_at self) (io_at self) s = (r, s') ->
  (Http.own clock_at instant_at io_at self m ≫= k) c = k r (<[self := s']> c).
Proof. intros Hs Hm. apply st_bind_ok. by rewrite (own_at _ s), Hm by done. Qed.

Lemma own_map {A B} (m : (nat -> Z) -> (nat -> Z) -> (nat -> faults) -> ST ShardStore.t EngineError A)
    (k : eresult A -> B) s c r s' :
  c !! self = Some s -> m (clock_at self) (instant_at self) (io_at self) s = (r, s') ->
  (k <$> Http.own clock_at instant_at io_at self m) c = (Ok (k r), <[self := s']> c).
Proof. intros Hs Hm. exact (own_then m (fun r => mret (k r)) s c r s' Hs Hm). Qed.

Lemma stored_at s' (c : list ShardStore.t) s : c !! self = Some s -> <[self := s']> c !! self = Some s'.
Proof. intros Hs. apply list_lookup_insert_eq. by eapply lookup_lt_Some. Qed.

(** The method that the operation calls has returned. *)
Ltac one_op :=
  let c := fresh "c" in let Hs := fresh "Hs" in let Hm := fresh "Hm" in
  intros c Hs; cbn [run_op];
  match goal with |- context [returns _ ?m ?s] =>
    destruct (m s) as [[?|?] ?] eqn:Hm; unfold returns; rewrite ?(st_bind_ok _ _ _ _ _ Hm), ?(st_bind_err _ _ _ _ _ Hm);
    (rewrite (own_then _ _ _ _ _ _ Hs Hm) || rewrite (own_map _ _ _ _ _ _ Hs Hm)) end.

(** ... and its result is shown. *)
Ltac shows :=
  one_op; try reflexivity;
  repeat match goal with
         | e : option Entry |- _ => destruct e; [|reflexivity]
         | b : bool |- _ => destruct b; reflexivity
         | o : option _ |- _ => destruct o; reflexivity
         end;
  try (rewrite (entry_response_at _ _ _ (stored_at _ _ _ ltac:(eassumption))); reflexivity).

Lemma get_responds ns key s :
  responds (Http.handle_get clock_at instant_at io_at self ns key) ns (OpGet key)
    (show_entry (not_found_json (lit "not_found") (lit "key does not exist")) true) s.
Proof. unfold Http.handle_get. shows. Qed.

Lemma head_responds ns key s :
  responds (Http.handle_head clock_at instant_at io_at self ns key) ns (OpGet key) (show_entry bare_404 false) s.
Proof.
  unfold Http.handle_head. shows. unfold mbind, st_mbind.
  apply (instant_at_end (fun now => mkResponse 200 (Http.entry_headers _ now) NoBody)); [by eapply stored_at|].
  intros He t' t''. by rewrite (entry_headers_lasting _ t' t'').
Qed.

Lemma incr_responds ns key d s :
  responds (Http.handle_incr clock_at instant_at io_at self ns key d) ns (OpIncr key d) show_count s.
Proof. unfold Http.handle_incr. shows. Qed.

(** A handler and its plan. *)
Definition carries_out (m : ST (list ShardStore.t) Http.stop Response) (ns : bytes) (s : ShardStore.t) (p : plan) : Prop :=
  match p with
  | Do o f => responds m ns o f s
  | Refuse resp => forall c, m c = (Ok resp, c)
  end.

Lemma put_carries_out ns key body req s :
  carries_out (Http.handle_put clock_at instant_at io_at self ns key body req) ns s (put_plan key body req).
Proof.
  unfold Http.handle_put, put_plan. destruct (_ && bool_decide _); [done|]. destruct (_ && (_ || _)); [done|].
  destruct (Http.has_header _ (lit "x-kv-return-old")); cbn [carries_out]; [shows|].
  destruct (Http.parse_if_match req); cbn [carries_out]; [shows|].
  destruct (contains _ (lit "nx=1")); cbn [carries_out]; [shows|].
  destruct (contains _ (lit "xx=1")); cbn [carries_out]; shows.
Qed.

Lemma delete_carries_out ns key req s :
  carries_out (Http.handle_delete clock_at instant_at io_at self ns key req) ns s (delete_plan key req).
Proof.
  unfold Http.handle_delete, delete_plan. destruct (Http.parse_if_match req); cbn [carries_out]; [shows|].
  destruct (Http.has_header _ _); cbn [carries_out]; shows.
Qed.

(** Once the change of the expiry is known. *)
Lemma patch_carries_out ns key req s c :
  c !! self = Some s ->
  let s1 := match relative_ttl (query req) with Some _ => s | None => ShardStore.set_ticks (S (ShardStore.ticks s)) s end in
  exists m, Http.handle_patch clock_at instant_at io_at self ns key req c = m (<[self := s1]> c) /\
    carries_out m ns s1 (patch_plan key req (clock_at self (ShardStore.ticks s) / 1000)).
Proof.
  intros Hs s1. eexists. split; [apply st_bind_ok; by apply parse_ttl_op_at|]. unfold patch_plan.
  set (o := asked_ttl _ _). destruct (Http.has_header _ _); cbn [carries_out]; [shows|].
  destruct o as [[d|]|]; cbn [carries_out]; [shows..|done].
Qed.

Lemma on_key_runs incr ns key body req s c :
  c !! self = Some s ->
  let s1 := reached incr req s in
  match key_plan incr key body req (clock_at self (ShardStore.ticks s) / 1000) with
  | Do o f =>
      on_key incr ns key body req c
      = (Ok (f (run ns o s1).1 (instant_at self (ShardStore.ticks (run ns o s1).2))), <[self := (run ns o s1).2]> c)
  | Refuse resp => on_key incr ns key body req c = (Ok resp, <[self := s1]> c)
  end.
Proof.
  intros Hs. assert (forall m p, carries_out m ns s p ->
    match p with
    | Do o f => m c = (Ok (f (run ns o s).1 (instant_at self (ShardStore.ticks (run ns o s).2))), <[self := (run ns o s).2]> c)
    | Refuse resp => m c = (Ok resp, <[self := s]> c)
    end) as Hplain.
  { intros m [o f|resp] Hm; [by apply Hm|]. rewrite list_insert_id by done. apply Hm. }
  unfold reached, key_plan, on_key. destruct incr, (method req); cbv zeta iota;
    try exact (Hplain _ (Refuse method_not_allowed) (fun _ => eq_refl)).
  - apply incr_responds, Hs.
  - apply get_responds, Hs.
  - apply head_responds, Hs.
  - apply Hplain, put_carries_out.
  - apply Hplain, delete_carries_out.
  - destruct (patch_carries_out ns key req s c Hs) as (m & -> & Hm). destruct (patch_plan _ _ _) as [o f|resp]; [|by rewrite Hm; destruct (relative_ttl _)].
    rewrite Hm by (by eapply stored_at). rewrite list_insert_insert_eq. by destruct (relative_ttl _).
Qed.

(** Reading the clock changes nothing else. *)
Lemma reached_ok incr req A s : store_ok max A s -> store_ok max A (reached incr req s).
Proof.
  unfold reached. intros Hs. destruct incr, (method req), (relative_ttl (query req)); try exact Hs.
  destruct Hs as [[Hl Hd Hn] Hc]. split; [by split|exact Hc].
Qed.

Lemma reached_op_ok incr req ns o s : op_ok ns o s -> op_ok ns o (reached incr req s).
Proof.
  unfold reached. intros Ho. destruct incr, (method req), (relative_ttl (query req)); try exact Ho.
  assert (forall n, usable ns n s -> usable ns n (ShardStore.set_ticks (S (ShardStore.ticks s)) s)) as Hu
    by (intros n []; by split).
  destruct o; cbn [op_ok] in *; try (by apply Hu); destruct Ho as [Ho Ho']; (split; [by apply Hu|exact Ho']).
Qed.

Lemma reached_pub incr req s : pub (reached incr req s) = pub s.
Proof. unfold reached. by destruct incr, (method req), (relative_ttl (query req)). Qed.

Context (Hclock : forall i n, sane (clock_at i n)) (Hio : forall i n, io_at i n = no_faults).

(** A request does what a plan says. *)
Definition refined (incr : bool) (ns key body : bytes) (req : Request) (p : plan)
    (s : ShardStore.t) (c : list ShardStore.t) (A : contents) : Prop :=
  let s1 := reached incr req s in
  match p with
  | Do o f => op_ok ns o s -> exists r s' sp evs,
      on_key incr ns key body req c = (Ok (f r (instant_at self (ShardStore.ticks s'))), <[self := s']> c) /\
      spec_op o (clock_at self (ShardStore.ticks s1)) (instant_at self (S (ShardStore.ticks s1))) (at_ns A ns) r sp evs /\
      store_ok max (<[ns := sp]> A) s' /\ pub s' = emit ns (pub s) evs
  | Refuse resp => on_key incr ns key body req c = (Ok resp, <[self := s1]> c) /\ store_ok max A s1
  end.

Lemma on_key_refines incr ns key body req s c A :
  c !! self = Some s -> store_ok max A s ->
  refined incr ns key body req (key_plan incr key body req (clock_at self (ShardStore.ticks s) / 1000)) s c A.
Proof.
  intros Hs HA. unfold refined. set (s1 := reached _ _ _). pose proof (on_key_runs incr ns key body req s c Hs) as Hrun. fold s1 in Hrun.
  destruct (key_plan _ _ _ _ _) as [o f|resp]; [|split; [done|by apply reached_ok]]. intros Ho.
  destruct (Runs.op_refines (clock_at self) (instant_at self) (io_at self) (Hclock self) (Hio self) max A s1 ns o
    (reached_ok _ _ _ _ HA) (reached_op_ok _ _ _ _ _ Ho)) as (sp & evs & Hspec & Hok & Hpub).
  exists (run ns o s1).1, (run ns o s1).2, sp, evs. split_and!; [done..|]. by rewrite Hpub; unfold s1; rewrite reached_pub.
Qed.


(** A value that was put is there.  A [PUT] without options is answered 204, and a
    [GET] of the key that comes next on the shard is answered 200 with the bytes of
    the [PUT] as its body and with the revision that the write was given. *)
Theorem http_put_get ns key value p get s c A :
  c !! self = Some s -> store_ok max A s -> op_ok ns (OpSet key value (mkSetOptions None None false)) s -> method get = GET ->
  exists s', on_key false ns key value (mkRequest PUT p [] []) c = (Ok no_content, <[self := s']> c) /\
    (op_ok ns (OpGet key) s' -> exists rev c2, sp_last (at_ns A ns) < rev /\
       on_key false ns key [] get (<[self := s']> c)
       = (Ok (mkResponse 200 (Http.entry_headers (mkEntry value None None rev) 0 ++ [Http.octet_stream]) (Fixed value)), c2)).
Proof.
  intros Hs HA Hset Hget.
  destruct (on_key_refines false ns key value (mkRequest PUT p [] []) s c A Hs HA Hset) as (r & s' & sp & evs & Hput & Hspec & HA' & _).
  destruct Hspec as (rev & Hrev & -> & -> & _). exists s'. split; [exact Hput|]. intros Hok.
  pose proof (on_key_refines false ns key [] get s' (<[self := s']> c) _ (stored_at _ _ _ Hs) HA') as Hg.
  unfold refined, key_plan in Hg. rewrite Hget in Hg. destruct (Hg Hok) as (r2 & s2 & sp2 & evs2 & Hans & Hspec2 & _).
  destruct Hspec2 as (-> & _). exists rev. eexists. split; [done|]. rewrite Hans. rewrite at_upd.
  unfold find. cbn [sp_map]. rewrite lookup_insert_eq. done.
Qed.
End Single.

(** ** Examples *)

#[local] Existing Instance WatchRegistry.bytes_json.
#[local] Existing Instance WatchRegistry.list_mpsc.
#[local] Existing Instance sum_hash.
#[local] Existing Instance no_messages.

(** Stands for the encodings of other crates: base64 as the bytes themselves, and the body
    [batch] as two writes, a read and a write that finds its key. *)
Definition ex_batch : list (BatchOp (H := WatchRegistry.bytes_json)) :=
  [ BatchSet (lit "a") (Some (lit "1")) None None None false false None false;
    BatchSet (lit "b") (Some (lit "2")) None None None false false None false;
    BatchGet (lit "a"); BatchGet (lit "b");
    BatchSet (lit "b") (Some (lit "3")) None None None true false None false;
    BatchDelete (lit "a") None false ].

Definition plain_http : HttpLib (H := WatchRegistry.bytes_json).
Proof.
  refine {| header_to_str := Some; header_from_str := Some; base64_encode b := b; base64_decode := Some;
            batch_from_slice b := if b =b lit "batch" then Ok ex_batch else Err [] |}.
  done.
Defined.
#[local] Existing Instance plain_http.

(** [PUT /v1/kv/a%20key] with a time to live of five seconds. *)
Definition ex_put : Request := mkRequest PUT (lit "/v1/kv/a%20key") (lit "ttl=5") [].

Lemma http_key_reaches_handler_witness :
  accept_loop peek_http_key reject_http 2 [opened (lit "PUT /v1/kv/a%20key?ttl=5 HTTP/1.1" ++ crlf ++ [])] 0
    = [Dispatched (shard_for_key (lit "a key") 2)] /\
  Http.route ex_clocks ex_instants ex_ios all_up (fun _ => []) (lit "1") 0 2 [] [] [0] 3 ex_put (lit "v")
    = on_key ex_clocks ex_instants ex_ios 0 false DEFAULT_NS (lit "a key") (lit "v") ex_put.
Proof.
  apply (http_key_reaches_handler ex_clocks ex_instants ex_ios all_up (fun _ => []) (lit "1") [] [] [0] 3 0 2
    false (lit "a key") ex_put (lit "v") DEFAULT_NS (lit "PUT") [] 0);
    try done; try (apply (bool_decide_unpack _); vm_compute; exact I).
Defined.

Definition ex_set : op := OpSet (lit "a key") (lit "v") (mkSetOptions (Some 5000) None false).


Lemma http_put_get_witness :
  exists s', on_key ex_clocks ex_instants ex_ios 0 false DEFAULT_NS (lit "k") (lit "v") (mkRequest PUT [] [] []) ex_cluster
      = (Ok no_content, <[0%nat := s']> ex_cluster) /\
    (op_ok DEFAULT_NS (OpGet (lit "k")) s' -> exists rev c2, sp_last (at_ns ∅ DEFAULT_NS) < rev /\
       on_key ex_clocks ex_instants ex_ios 0 false DEFAULT_NS (lit "k") [] (mkRequest GET [] [] []) (<[0%nat := s']> ex_cluster)
       = (Ok (mkResponse 200 (Http.entry_headers (mkEntry (lit "v") None None rev) 0 ++ [Http.octet_stream]) (Fixed (lit "v"))), c2)).
Proof.
  apply (http_put_get 200 ex_clocks ex_instants ex_ios 0) with (s := Runs.ex_shard).
  - intros i n. unfold sane, ex_clocks, Runs.ex_clock. lia.
  - done.
  - done.
  - pose proof ex_cluster_ok as Hok. by inversion Hok.
  - apply Runs.op_okb_ok. vm_compute. reflexivity.
  - done.
Defined.

(** A write, a read and a body over the limit on one connection. *)
Definition ex_arrivals : list http_arrival :=
  [ Arrived ex_put (Some (lit "v")); Arrived (mkRequest GET (lit "/v1/kv/a%20key") [] []) (Some []);
    Arrived (mkRequest PUT (lit "/v1/kv/b") [] []) (Some (replicate 11 0));
    Arrived (mkRequest GET (lit "/v1/kv/b") [] []) (Some []) ].

#[local] Existing Instance HttpConnExamples.list_wire.

Definition ex_http_replies := HttpConn.replies ex_clocks ex_instants ex_ios all_up (fun _ => []) (lit "1") 0 1 10 [] [] [0] 3 ex_arrivals [Runs.ex_shard].

Lemma ex_statuses :
  match ex_http_replies.1 with Ok (out, refusal) => Some (status <$> out, status <$> refusal) | Err _ => None end
  = Some ([204; 200], Some 413).
Proof. vm_compute. reflexivity. Qed.

(** On a socket whose encoder holds what is not flushed, the client has the first two
    responses when the connection is closed, and not the 413. *)
Lemma refusal_not_flushed :
  match (HttpConn.handle_conn ex_clocks ex_instants ex_ios all_up (fun _ => []) (lit "1") (fun _ => []) 0 1 10 [] [] [0] 3 5 []
           (HttpConnExamples.mkConversation ex_arrivals [] []) [Runs.ex_shard]).1 with
  | Ok (Some w') =>
      let statuses l := (fun x => match x with inl r => status r | inr _ => 0 end) <$> l in
      (statuses (HttpConnExamples.c_out w'), statuses (HttpConnExamples.c_held w')) = ([204; 200], [413])
  | _ => False
  end.
Proof. vm_compute. reflexivity. Qed.

