(* ===== verification/HttpBatch.v ===== *)
(** * Batches over HTTP

    [handle_batch] sends each operation of a batch to the shard of its key.  Here it is
    shown to do the operations one after the other on the contents of the shards, up
    to the first one that fails, and to put their results into the response
    ([batch_refines_map]). *)

From stdpp Require Import base tactics numbers list gmap strings.
From Stdlib Require Import ZArith Lia.
From S2P Require Import Prelude Record Index LogFile ValueStore Recover NsLog NsRepr NsSpec Reclaim NsBatch NsSim NsOk NsContract Ascii Command Glob Cache Watch Stream Store StoreInv StoreSpec StoreMany StoreRefine StoreRun Routing Messages CrossShard Dispatch DispatchRefine DispatchMap HttpMsg Http HttpConn HttpRefine.

Open Scope Z_scope.
Open Scope lit_scope.

Lemma st_fmap_ok {S E A B} (m : ST S E A) (f : A -> B) s a s1 : m s = (Ok a, s1) -> (f <$> m) s = (Ok (f a), s1).
Proof. intros Hm. unfold fmap, st_fmap, st_bind. by rewrite Hm. Qed.

Section Batch.
Context {crc_impl : CrcFast} {blake : Blake3} `{Mpsc} `{Memchr} `{Messages} `{FxHash} `{!HttpLib} (max : Z).
Context (clock_at instant_at : nat -> nat -> Z) (io_at : nat -> nat -> faults) (links : nat -> Cluster.link) (self n : nat).
Abbreviation batch_one := (Http.batch_one clock_at instant_at io_at links self n).
Abbreviation batch_loop := (Http.batch_loop clock_at instant_at io_at links self n).
Abbreviation run i := (run_op (clock_at i) (instant_at i) (io_at i)).

(** ** What a batch asks for *)

Definition batch_key (b : BatchOp) : bytes :=
  percent_decode match b with
                 | BatchGet k | BatchSet k _ _ _ _ _ _ _ _ | BatchDelete k _ _ | BatchIncr k _ | BatchExists k => k
                 end.

Definition home (b : BatchOp) : nat := shard_for_key (batch_key b) n.

(** The operation of the store; a value on another shard is read as a list of one key. *)
Definition batch_op (b : BatchOp) : op :=
  let k := batch_key b in
  match b with
  | BatchGet _ => if decide (home b = self) then OpGet k else OpMget [k]
  | BatchSet _ value ttl ttl_ms metadata nx xx if_match keep_ttl =>
      let opts := mkSetOptions (match ttl_ms with Some ms => Some ms | None => (fun s => s * 1000) <$> ttl end) metadata keep_ttl in
      let v := default [] value in
      match if_match with
      | Some rev => OpSetrev k v opts rev
      | None => if nx then OpSetnx k v opts else if xx then OpSetxx k v opts else OpSet k v opts
      end
  | BatchDelete _ if_match return_old =>
      if return_old then OpGetdel k else match if_match with Some rev => OpDelrev k rev | None => OpDel [k] end
  | BatchIncr _ delta => OpIncr k delta
  | BatchExists _ => OpExists [k]
  end.

Definition one_entry (r : reply) : option Entry :=
  match r with REntry e => e | REntries es => e ← head es; e | _ => None end.

Definition json_entry (now : Z) (e : Entry) : jvalue :=
  JObj ([(lit "value", JStr (base64_encode (e_value e))); (lit "revision", JNum (e_revision e))] ++
        match e_expires_at e with
        | Some exp => let rem := Z.max 0 (exp - now) in [(lit "ttl", JNum (rem / 1000)); (lit "ttl_ms", JNum (rem mod 2 ^ 64))]
        | None => []
        end ++
        match e_metadata e with Some meta => [(lit "metadata", JDoc meta)] | None => [] end).

Definition conflict (msg : bytes) : result Response jvalue := Err (err 409 (lit "conflict") msg).

(** What the reply to an operation makes of it: its element of the response, or the
    response that ends the batch. *)
Definition batch_result (b : BatchOp) (r : eresult reply) (now : Z) : result Response jvalue :=
  match r with
  | Err e => Err (internal_error (engine_to_string e))
  | Ok r =>
      match b, r with
      | BatchGet _, r | BatchDelete _ _ true, r => Ok (match one_entry r with Some e => json_entry now e | None => JNull end)
      | BatchSet _ _ _ _ _ _ _ (Some _) _, RRev (Some _) => Ok JNull
      | BatchSet _ _ _ _ _ _ _ (Some _) _, _ => conflict (lit "revision mismatch")
      | BatchSet _ _ _ _ _ true _ None _, RBool b => if b then Ok JNull else conflict (lit "key already exists")
      | BatchSet _ _ _ _ _ false true None _, RBool b => if b then Ok JNull else conflict (lit "key does not exist")
      | BatchSet _ _ _ _ _ _ _ None _, _ => Ok JNull
      | BatchDelete _ (Some _) false, RBool b => if b then Ok JNull else conflict (lit "revision mismatch")
      | BatchDelete _ _ false, _ => Ok JNull
      | BatchIncr _ _, RCount n => Ok (JObj [(lit "value", JNum n)])
      | BatchExists _, RCount n => Ok (JBool (0 <? n))
      | _, _ => Ok JNull
      end
  end.

(** ** One operation *)

Definition own_done {A} (local : ST (list ShardStore.t) Http.stop (sresult A)) (ns : bytes) (o : op) (g : eresult reply -> sresult A) : Prop :=
  forall c s, c !! self = Some s -> local c = (Ok (g (run self ns o s).1), <[self := (run self ns o s).2]> c).

Definition answer {A R} (f : R -> A) (x : sresult R) : sresult A := match x with Ok x => Ok (f x) | Err e => Err e end.

Definition sent_done {A R} (i : nat) (req : CrossShard.CrossShardRequest R) (f : R -> A) (ns : bytes) (o : op)
    (g : eresult reply -> sresult A) : Prop :=
  forall s, let '(x, s') := CrossShard.handle (clock_at i) (instant_at i) (io_at i) req s in
    answer f x = g (run i ns o s).1 /\ s' = (run i ns o s).2.

Context (Hlinks : forall i, links i = Cluster.Up) (Hself : (self < n)%nat).

Lemma ask_at {R} i (req : CrossShard.CrossShardRequest R) s c x s' :
  c !! i = Some s -> CrossShard.handle (clock_at i) (instant_at i) (io_at i) req s = (x, s') ->
  Http.ask clock_at instant_at io_at links i req c = (Ok x, <[i := s']> c).
Proof.
  intros Hs Hh. unfold Http.ask, Http.post, Http.lift, Cluster.send_to, mbind, st_mbind, st_bind. by rewrite Hs, Hh, Hlinks.
Qed.

Lemma stringly_at {A} (m : ST ShardStore.t EngineError A) s r s' : m s = (r, s') -> CrossShard.stringly m s = (to_str r, s').
Proof. intros Hm. unfold CrossShard.stringly. rewrite Hm. by destruct r. Qed.

Lemma at_shard_done {A R} key local (req : CrossShard.CrossShardRequest R) (f : R -> A) ns o g s c :
  let i := shard_for_key key n in
  c !! i = Some s -> (i = self -> own_done local ns o g) -> (i <> self -> sent_done i req f ns o g) ->
  Http.at_shard clock_at instant_at io_at links self n key local req f c = (Ok (g (run i ns o s).1), <[i := (run i ns o s).2]> c).
Proof.
  intros i Hs Hloc Hreq. unfold Http.at_shard. fold i.
  assert (i < n)%nat as Hi by (apply shard_for_key_lt; lia).
  destruct (decide (i = self)) as [Heq|Hne].
  - rewrite Heq in Hs |- *. pose proof (Hloc Heq c s Hs). by case_decide.
  - rewrite decide_True by lia. specialize (Hreq Hne s).
    destruct (CrossShard.handle _ _ _ req s) as [x s'] eqn:Hh. destruct Hreq as [Hx <-].
    rewrite (st_bind_ok _ _ _ _ _ (ask_at i req s c x s' Hs Hh)), <- Hx. done.
Qed.

Lemma own_text_done {A} (m : (nat -> Z) -> (nat -> Z) -> (nat -> faults) -> ST ShardStore.t EngineError A) ns o g :
  performs clock_at instant_at io_at ns self (m (clock_at self) (instant_at self) (io_at self)) o g ->
  own_done (Http.own_text clock_at instant_at io_at self m) ns o (to_str ∘ g).
Proof.
  intros Hm c s Hs. unfold Http.own_text. rewrite (own_map _ _ _ _ _ _ s c _ _ Hs (Hm s)). by unfold compose, Http.to_text, to_str.
Qed.

(** The method of the operation has returned. *)
Ltac by_store :=
  intros ?; cbn [batch_op]; unfold batch_key; cbn [run_op CrossShard.handle];
  match goal with |- context [returns _ ?m ?s] =>
    let Hm := fresh "Hm" in
    destruct (m s) as [[?|?] ?] eqn:Hm; unfold CrossShard.stringly, returns, mbind, st_mbind, st_bind; cbn [fmap list_fmap snd fst];
    rewrite ?Hm
  end;
  repeat match goal with u : unit |- _ => destruct u end; try done.

(** ... and made the element of the response. *)
Ltac by_reply :=
  unfold home; cbn [batch_op]; unfold batch_key; cbn [run_op];
  match goal with |- context [returns _ ?m ?s] =>
    let Hm := fresh "Hm" in
    destruct (m s) as [[?|?] ?] eqn:Hm; unfold returns; rewrite ?(st_bind_ok _ _ _ _ _ Hm), ?(st_bind_err _ _ _ _ _ Hm)
  end;
  repeat match goal with b : bool |- _ => destruct b | o : option _ |- _ => destruct o end; try reflexivity.

Definition entry_text (r : eresult reply) : sresult (option Entry) := to_str (r ← r; Ok (one_entry r)).

Lemma entry_or_null_at r s c :
  c !! self = Some s ->
  Http.entry_or_null clock_at instant_at io_at self r c =
    (match r with
     | Err e => Err (Http.Early (internal_error e))
     | Ok e => Ok (match e with Some e => json_entry (instant_at self (ShardStore.ticks s)) e | None => JNull end)
     end, c).
Proof.
  intros Hs. destruct r as [[e|]|e]; [|done..]. unfold Http.entry_or_null, Http.entry_json, json_entry.
  destruct (e_expires_at e) as [t|]; [|done]. unfold Http.instant_now, mbind, st_mbind, st_bind.
  rewrite (own_at _ _ _ _ _ s) by done. cbn [ShardStore.instant_now]. by rewrite list_insert_id.
Qed.

(** The operation of a batch has the reply [r] and leaves the cluster [c']. *)
Definition replied (ns : bytes) (b : BatchOp) (c : list ShardStore.t) (r : eresult reply) (c' : list ShardStore.t) : Prop :=
  forall s', c' !! self = Some s' ->
    batch_one ns b c = (match batch_result b r (instant_at self (ShardStore.ticks s')) with
                        | Ok v => Ok v
                        | Err resp => Err (Http.Early resp)
                        end, c').

Section One.
Context (ns : bytes) (s : ShardStore.t) (c : list ShardStore.t).
Abbreviation at_home b := (replied ns b c (run (home b) ns (batch_op b) s).1 (<[home b := (run (home b) ns (batch_op b) s).2]> c)).

Lemma batch_get_done k : c !! home (BatchGet k) = Some s -> at_home (BatchGet k).
Proof.
  intros Hs s' Hs'. cbn [Http.batch_one]; unfold Http.batch_get, Http.batch_put, Http.batch_delete, Http.batch_exists, Http.batch_incr.
  erewrite st_bind_ok; [|apply (at_shard_done _ _ _ _ ns (batch_op (BatchGet k)) entry_text s c Hs); unfold batch_op; intros Hi].
  - rewrite (entry_or_null_at _ s') by exact Hs'. change (shard_for_key (percent_decode k) n) with (home (BatchGet k)).
    unfold entry_text. by destruct (run _ _ _ s).1.
  - rewrite decide_True by exact Hi. apply (own_text_done _ ns _ (fun r => r ← r; Ok (one_entry r))). by_store.
  - rewrite decide_False by exact Hi. by_store. by destruct a.
Qed.

Lemma batch_incr_done k d : c !! home (BatchIncr k d) = Some s -> at_home (BatchIncr k d).
Proof.
  intros Hs s' _. cbn [Http.batch_one]; unfold Http.batch_get, Http.batch_put, Http.batch_delete, Http.batch_exists, Http.batch_incr.
  erewrite st_bind_ok; [|apply (at_shard_done _ _ _ _ ns (batch_op (BatchIncr k d)) (to_str ∘ count_of) s c Hs); intros _].
  - by_reply.
  - apply own_text_done. by_store.
  - by_store.
Qed.

Lemma batch_exists_done k : c !! home (BatchExists k) = Some s -> at_home (BatchExists k).
Proof.
  intros Hs s' _. cbn [Http.batch_one]; unfold Http.batch_get, Http.batch_put, Http.batch_delete, Http.batch_exists, Http.batch_incr.
  erewrite st_bind_ok; [|apply (at_shard_done _ _ _ _ ns (batch_op (BatchExists k)) (to_str ∘ count_of) s c Hs); intros _].
  - by_reply.
  - apply own_text_done. by_store.
  - by_store.
Qed.

Lemma batch_getdel_done k im : c !! home (BatchDelete k im true) = Some s -> at_home (BatchDelete k im true).
Proof.
  intros Hs s' Hs'. cbn [Http.batch_one]; unfold Http.batch_get, Http.batch_put, Http.batch_delete, Http.batch_exists, Http.batch_incr.
  erewrite st_bind_ok; [|apply (at_shard_done _ _ _ _ ns (batch_op (BatchDelete k im true)) entry_text s c Hs); intros _].
  - rewrite (entry_or_null_at _ s') by exact Hs'. by_reply.
  - apply (own_text_done _ ns _ (fun r => r ← r; Ok (one_entry r))). by_store.
  - by_store.
Qed.

(** The deletions tell only whether there was something to delete. *)
Definition deleted_text (r : eresult reply) : sresult bool :=
  match r with Ok (RBool b) => Ok b | Ok _ => Ok true | Err e => Err (engine_to_string e) end.

Lemma own_map_done {A B} (m : (nat -> Z) -> (nat -> Z) -> (nat -> faults) -> ST ShardStore.t EngineError A) (f : sresult A -> sresult B) o g :
  (forall s0, f (to_str (m (clock_at self) (instant_at self) (io_at self) s0).1) = g (run self ns o s0).1 /\
    (m (clock_at self) (instant_at self) (io_at self) s0).2 = (run self ns o s0).2) ->
  own_done (r ← Http.own_text clock_at instant_at io_at self m; mret (f r)) ns o g.
Proof.
  intros Hm c0 s0 Hs0. destruct (Hm s0) as [Hr Hs1]. rewrite <- Hr, <- Hs1. destruct (m _ _ _ s0) as [r s1] eqn:Hms.
  erewrite st_bind_ok; [|unfold Http.own_text; by apply (own_map _ _ _ _ _ _ s0 c0 _ _ Hs0 Hms)]. by destruct r.
Qed.

Lemma batch_del_done k im : c !! home (BatchDelete k im false) = Some s -> at_home (BatchDelete k im false).
Proof.
  intros Hs s' _. cbn [Http.batch_one]; unfold Http.batch_get, Http.batch_put, Http.batch_delete, Http.batch_exists, Http.batch_incr. destruct im as [rev|].
  - erewrite st_bind_ok; [|apply (at_shard_done _ _ _ _ ns (batch_op (BatchDelete k (Some rev) false)) deleted_text s c Hs); intros _].
    + by_reply.
    + apply own_map_done. by_store.
    + by_store.
  - erewrite st_bind_ok; [|apply (at_shard_done _ _ _ _ ns (batch_op (BatchDelete k None false)) deleted_text s c Hs); intros _].
    + by_reply.
    + apply own_map_done. by_store.
    + by_store.
Qed.

(** A write, by its condition. *)
Definition set_outcome (nx xx : bool) (if_match : option Z) (r : eresult reply) : Http.BatchSetOutcome :=
  match r with
  | Err e => Http.SetErr (engine_to_string e)
  | Ok r =>
      match if_match, nx, xx, r with
      | Some _, _, _, RRev (Some _) => Http.SetOk
      | Some _, _, _, _ => Http.SetConflict (lit "revision mismatch")
      | None, true, _, RBool false => Http.SetConflict (lit "key already exists")
      | None, false, true, RBool false => Http.SetConflict (lit "key does not exist")
      | _, _, _, _ => Http.SetOk
      end
  end.

Definition set_op (k v : bytes) (opts : SetOptions) (nx xx : bool) (if_match : option Z) : op :=
  match if_match with
  | Some rev => OpSetrev k v opts rev
  | None => if nx then OpSetnx k v opts else if xx then OpSetxx k v opts else OpSet k v opts
  end.

Lemma batch_set_local_done k v opts nx xx im s0 :
  c !! self = Some s0 ->
  Http.batch_set_local clock_at instant_at io_at self ns k v opts nx xx im c
  = (Ok (set_outcome nx xx im (run self ns (set_op k v opts nx xx im) s0).1),
     <[self := (run self ns (set_op k v opts nx xx im) s0).2]> c).
Proof.
  intros Hs0. unfold Http.batch_set_local, set_op, Http.own_text.
  destruct im as [rev|]; [|destruct nx; [|destruct xx]]; cbn [run_op];
    match goal with |- context [returns _ ?m ?s] =>
      let Hm := fresh "Hm" in
      destruct (m s) as [[?|?] ?] eqn:Hm; unfold returns; rewrite ?(st_bind_ok _ _ _ _ _ Hm), ?(st_bind_err _ _ _ _ _ Hm);
      rewrite (st_fmap_ok _ _ _ _ _ (own_map _ _ _ _ _ _ s0 c _ _ Hs0 Hm))
    end; try reflexivity;
    repeat match goal with b : bool |- _ => destruct b | o : option _ |- _ => destruct o end; reflexivity.
Qed.

Lemma batch_set_done_at k v opts nx xx im :
  let i := shard_for_key k n in
  c !! i = Some s ->
  Http.batch_set clock_at instant_at io_at links self n ns k v opts nx xx im c
  = (Ok (set_outcome nx xx im (run i ns (set_op k v opts nx xx im) s).1), <[i := (run i ns (set_op k v opts nx xx im) s).2]> c).
Proof.
  intros i Hs. unfold Http.batch_set. fold i. assert (i < n)%nat as Hi by (apply shard_for_key_lt; lia).
  destruct (decide (i = self)) as [Heq|Hne].
  { rewrite Heq in Hs |- *. pose proof (batch_set_local_done k v opts nx xx im s Hs). by case_decide. }
  rewrite decide_True by lia. unfold set_op.
  destruct im as [rev|]; [|destruct nx; [|destruct xx]]; cbn [run_op];
    match goal with |- context [returns _ ?m ?s] =>
      destruct (m s) as [[?|?] ?] eqn:Hm; unfold returns; rewrite ?(st_bind_ok _ _ _ _ _ Hm), ?(st_bind_err _ _ _ _ _ Hm);
      (erewrite st_fmap_ok; [|eapply (ask_at i _ s c _ _ Hs); exact (stringly_at _ _ _ _ Hm)])
    end; try reflexivity;
    repeat match goal with b : bool |- _ => destruct b | o : option _ |- _ => destruct o end; reflexivity.
Qed.

Lemma batch_set_done k v ttl ttl_ms md nx xx im kt :
  let b := BatchSet k v ttl ttl_ms md nx xx im kt in c !! home b = Some s -> at_home b.
Proof.
  intros b Hs s' _. unfold b. cbn [Http.batch_one]; unfold Http.batch_get, Http.batch_put, Http.batch_delete, Http.batch_exists, Http.batch_incr.
  erewrite st_bind_ok; [|by apply batch_set_done_at, Hs]. fold b.
  assert (set_op (percent_decode k) (default [] v) (mkSetOptions match ttl_ms with Some ms => Some ms | None => (fun s => s * 1000) <$> ttl end md kt)
    nx xx im = batch_op b) as -> by reflexivity.
  change (shard_for_key (percent_decode k) n) with (home b).
  assert (forall r t, match set_outcome nx xx im r with
    | Http.SetOk => mret JNull | Http.SetConflict msg => Http.early (err 409 (lit "conflict") msg)
    | Http.SetErr e => Http.early (internal_error e) end
    = (fun c => (match batch_result b r t with Ok v => Ok v | Err resp => Err (Http.Early resp) end, c))) as Hout;
    [|by rewrite (Hout _ (instant_at self (ShardStore.ticks s')))].
  intros [r|e] t; [|done]. unfold b. destruct im, nx, xx, r as [| | |[]|[]| |]; reflexivity.
Qed.

(** Every operation of a batch is done on the shard of its key, and has its element of
    the response. *)
Lemma batch_one_done b : c !! home b = Some s -> at_home b.
Proof.
  destruct b as [k|k v ttl ttl_ms md nx xx im kt|k im []|k d|k]; [apply batch_get_done|apply batch_set_done|apply batch_getdel_done|
    apply batch_del_done|apply batch_incr_done|apply batch_exists_done].
Qed.
End One.

(** ** The loop *)

(** The operations of a batch on the contents of the shards, each at some reading of
    the clocks, up to one that ends the batch with a response. *)
Inductive batch_map (ns : bytes) : list contents -> list BatchOp -> list jvalue -> option Response -> list contents -> Prop :=
| bm_nil As : batch_map ns As [] [] None As
| bm_stop As A b bs r sp evs tick tick' resp :
    As !! home b = Some A ->
    spec_op (batch_op b) (clock_at (home b) tick) (instant_at (home b) (S tick)) (at_ns A ns) r sp evs ->
    batch_result b r (instant_at self tick') = Err resp ->
    batch_map ns As (b :: bs) [] (Some resp) (<[home b := <[ns := sp]> A]> As)
| bm_next As A b bs r sp evs tick tick' v vs stop As' :
    As !! home b = Some A ->
    spec_op (batch_op b) (clock_at (home b) tick) (instant_at (home b) (S tick)) (at_ns A ns) r sp evs ->
    batch_result b r (instant_at self tick') = Ok v ->
    batch_map ns (<[home b := <[ns := sp]> A]> As) bs vs stop As' ->
    batch_map ns As (b :: bs) (v :: vs) stop As'.

(** Each shard can do its operation when the batch reaches it. *)
Fixpoint batch_ready (ns : bytes) (bs : list BatchOp) (c : list ShardStore.t) : Prop :=
  match bs with
  | [] => True
  | b :: bs =>
      (forall s, c !! home b = Some s -> op_ok ns (batch_op b) s) /\
      (forall v c', batch_one ns b c = (Ok v, c') -> batch_ready ns bs c')
  end.

Context (Hclock : forall i n, sane (clock_at i n)) (Hio : forall i n, io_at i n = no_faults).

Definition batch_answer (results : list jvalue) (stop : option Response) : result Http.stop (list jvalue) :=
  match stop with Some resp => Err (Http.Early resp) | None => Ok results end.

Lemma batch_loop_map ns bs : forall acc c As,
  cluster_ok max As c -> length c = n -> batch_ready ns bs c ->
  exists vs stop As' c', batch_map ns As bs vs stop As' /\ cluster_ok max As' c' /\ length c' = n /\
    batch_loop ns bs acc c = (batch_answer (acc ++ vs) stop, c').
Proof.
  induction bs as [|b bs IH]; intros acc c As HA Hlen Hready.
  { exists [], None, As, c. split_and!; [constructor|done..|]. by rewrite app_nil_r. }
  destruct Hready as [Hok Hnext]. assert (home b < n)%nat as Hi by (apply shard_for_key_lt; lia).
  destruct (lookup_lt_is_Some_2 c (home b)) as [s Hs]; [lia|].
  destruct (Forall2_lookup_r _ _ _ _ _ HA Hs) as (A & HA1 & HsA).
  destruct (Runs.op_refines (clock_at (home b)) (instant_at (home b)) (io_at (home b)) (Hclock (home b)) (Hio (home b)) max A s ns
    (batch_op b) HsA (Hok s Hs)) as (sp & evs & Hspec & Hs' & _).
  set (r := (run (home b) ns (batch_op b) s).1) in *. set (c1 := <[home b := (run (home b) ns (batch_op b) s).2]> c).
  assert (cluster_ok max (<[home b := <[ns := sp]> A]> As) c1) as HA' by (by apply Forall2_insert).
  assert (length c1 = n) as Hlen1 by (unfold c1; by rewrite length_insert).
  destruct (lookup_lt_is_Some_2 c1 self) as [s1 Hs1]; [lia|].
  pose proof (batch_one_done ns s c b Hs s1 Hs1) as Hone. fold r c1 in Hone. cbn [Http.batch_loop].
  destruct (batch_result b r (instant_at self (ShardStore.ticks s1))) as [v|resp] eqn:Hres.
  - destruct (IH (acc ++ [v]) c1 _ HA' Hlen1 (Hnext _ _ Hone)) as (vs & stop & As' & c' & Hmap & HA2 & Hlen2 & Hloop).
    exists (v :: vs), stop, As', c'. split_and!; [by eapply bm_next|done..|].
    rewrite (st_bind_ok _ _ _ _ _ Hone), Hloop, <- app_assoc. done.
  - exists [], (Some resp). eexists _, c1. split_and!; [by eapply bm_stop|done..|]. by rewrite (st_bind_err _ _ _ _ _ Hone).
Qed.

End Batch.

(** ** Examples *)

#[local] Existing Instance WatchRegistry.bytes_json.
#[local] Existing Instance WatchRegistry.list_mpsc.
#[local] Existing Instance sum_hash.
#[local] Existing Instance no_messages.
#[local] Existing Instance plain_http.

(** Runs a batch while the shards are ready for its operations. *)
Fixpoint batch_readyb (self n : nat) (ns : bytes) (bs : list (BatchOp (H := WatchRegistry.bytes_json))) (c : list ShardStore.t) : bool :=
  match bs with
  | [] => true
  | b :: bs =>
      match c !! home n b with
      | Some s => Runs.op_okb ns (batch_op self n b) s
      | None => false
      end &&
      match Http.batch_one ex_clocks ex_instants ex_ios all_up self n ns b c with
      | (Ok _, c') => batch_readyb self n ns bs c'
      | (Err _, _) => true
      end
  end.

Lemma batch_readyb_ok self n ns bs : forall c, batch_readyb self n ns bs c = true ->
  batch_ready ex_clocks ex_instants ex_ios all_up self n ns bs c.
Proof.
  induction bs as [|b bs IH]; intros c Hc; [done|]. cbn [batch_readyb] in Hc. apply andb_prop in Hc as [Hop Hrest]. split.
  - intros s Hs. rewrite Hs in Hop. by apply Runs.op_okb_ok.
  - intros v c' Hb. rewrite Hb in Hrest. by apply IH.
Qed.


(** What the client gets: the batch has been stopped by its fifth operation. *)
Lemma ex_batch_response :
  (Http.finish (Http.handle_batch ex_clocks ex_instants ex_ios all_up 0 2 DEFAULT_NS (lit "batch")) ex_cluster).1
  = Ok (err 409 (lit "conflict") (lit "key already exists")).
Proof. vm_compute. reflexivity. Qed.
