(* ===== verification/Handoff.v ===== *)
(** * Handing the data over to another process, [crates/server/src/handoff.rs]

    The control thread sends one operation to every worker and gathers the replies:
    drain, seal, resume after an abort, and a snapshot.  The crate [handoff] calls them;
    what the channels to the workers do and which replies come in time are inputs. *)

From stdpp Require Import base tactics list gmap strings.
From Stdlib Require Import ZArith Lia.
From S2P Require Import Prelude Record Index LogFile ValueStore Recover NsLog NsRepr NsSpec Reclaim NsBatch NsSim NsOk NsJournal Ascii Command Glob Cache Watch Stream Store StoreInv StoreSpec StoreMany StoreRefine StoreRun StoreEach Messages CrossShard.

Open Scope Z_scope.
Open Scope lit_scope.

(** An operation and the type of its reply. *)
Inductive HandoffOp : Type -> Type :=
| Drain : HandoffOp (sresult unit)
| Seal : HandoffOp (sresult (list Z))
| Resume : HandoffOp (sresult unit)
| Snapshot : HandoffOp (list Z).

(** [handoff::Error]. *)
Inductive HandoffError := ChannelClosed | TimedOut (what : bytes) | Protocol (msg : bytes).

Record DrainReport := mkDrainReport { open_conns_remaining : Z; report_accept_closed : bool }.
Record SealReport := mkSealReport { last_revision_per_shard : list Z; data_dir_fingerprint : list Z }.
Record StateSnapshot := mkStateSnapshot { shard_count : Z; open_conns : Z; snapshot_revisions : list Z }.

Module Handoff.
Section Handoff.
Context {crc_impl : CrcFast} {blake : Blake3} `{Mpsc} `{Memchr} `{Messages}.
Context (io_at : nat -> nat -> faults) (links : nat -> Cluster.link) (hooks : nat -> bytes -> bool).

(** The workers, the flag that the accept loops look at, and the counters. *)
Record t := mk {
  workers : list ShardStore.t;
  accept_closed : bool;
  seal_failures_total : Z;
  handoffs_seal_failed : Z;
  handoffs_resumed : Z;
  rolled_back_total : Z;
}.

Definition set_workers (c : list ShardStore.t) (h : t) : t :=
  mk c (accept_closed h) (seal_failures_total h) (handoffs_seal_failed h) (handoffs_resumed h) (rolled_back_total h).
Definition set_accept_closed (b : bool) (h : t) : t :=
  mk (workers h) b (seal_failures_total h) (handoffs_seal_failed h) (handoffs_resumed h) (rolled_back_total h).

Definition new (workers : list ShardStore.t) (closed : bool) : t := mk workers closed 0 0 0 0.

Abbreviation HO := (ST t HandoffError).

Definition to_text {A} (r : eresult A) : sresult A :=
  match r with Ok a => Ok a | Err e => Err (engine_to_string e) end.

(** What a worker does with an operation. *)
Definition handle_op {R} (i : nat) (op : HandoffOp R) (store : ShardStore.t) : R * ShardStore.t :=
  match op with
  | Drain => let '(r, store) := ShardStore.sync_logs (io_at i) store in (to_text r, store)
  | Seal =>
      match ShardStore.seal_all_for_shutdown (io_at i) (hooks i) store with
      | (Ok _, store) => (Ok (ShardStore.last_revision_per_namespace store), store)
      | (Err e, store) => (Err (engine_to_string e), store)
      end
  | Resume => let '(r, store) := ShardStore.resume_after_abort (io_at i) store in (to_text r, store)
  | Snapshot => (ShardStore.last_revision_per_namespace store, store)
  end.

(** Send an operation to a worker: [None] when its reply will not come. *)
Definition deliver {R} (op : HandoffOp R) (i : nat) : HO (option R) := fun h =>
  match workers h !! i with
  | None => (Err ChannelClosed, h)
  | Some s =>
      let '(r, s') := handle_op i op s in
      match links i with
      | Cluster.Up => (Ok (Some r), set_workers (<[i := s']> (workers h)) h)
      | Cluster.Closed => (Err ChannelClosed, h)
      | Cluster.Lost handled => (Ok None, if handled then set_workers (<[i := s']> (workers h)) h else h)
      end
  end.

Fixpoint deliver_all {R} (op : HandoffOp R) (shards : list nat) : HO (list (option R)) :=
  match shards with
  | [] => mret []
  | i :: shards => r ← deliver op i; rs ← deliver_all op shards; mret (r :: rs)
  end.

Definition fan_out {R} (op : HandoffOp R) : HO (list (option R)) :=
  h ← st_get; deliver_all op (seq 0 (length (workers h))).

(** [saturating_add] of the gauges of RESP and HTTP connections of every shard. *)
Definition total_open_conns (gauges : list (Z * Z)) : Z :=
  foldl (fun total g =>
           let add g total := Z.min u32_max (total + Z.min u32_max (Z.max 0 g)) in
           add g.2 (add g.1 total)) 0 gauges.

(** The readings of the gauges, each with whether the deadline is still ahead; the loop
    takes one per round and leaves the rest. *)
Fixpoint wait_for_conns (readings : list (list (Z * Z) * bool)) : list (list (Z * Z) * bool) :=
  match readings with
  | [] => []
  | (gauges, ahead) :: readings => if (0 <? total_open_conns gauges) && ahead then wait_for_conns readings else readings
  end.

(** [timely i] says that the reply of worker [i] comes before the deadline. *)
Fixpoint await_drained (timely : nat -> bool) (i : nat) (replies : list (option (sresult unit))) : HO unit :=
  match replies with
  | [] => mret tt
  | reply :: replies =>
      match (if timely i then reply else None) with
      | None => st_err (TimedOut (lit "drain reply"))
      | Some (Err e) => st_err (Protocol (lit "drain failed: " ++ e))
      | Some (Ok _) => await_drained timely (S i) replies
      end
  end.

Definition drain (timely : nat -> bool) (readings : list (list (Z * Z) * bool)) : HO DrainReport :=
  st_modify (set_accept_closed true);;
  replies ← fan_out Drain;
  await_drained timely 0 replies;;
  let remaining := match wait_for_conns readings with (gauges, _) :: _ => gauges | [] => [] end in
  mret (mkDrainReport (total_open_conns remaining) true).

Definition max_or_zero (revs : list Z) : Z := foldr Z.max 0 revs.

Definition count_seal_failure (h : t) : t :=
  mk (workers h) (accept_closed h) (seal_failures_total h + 1) (handoffs_seal_failed h + 1) (handoffs_resumed h) (rolled_back_total h).

Fixpoint await_sealed (replies : list (option (sresult (list Z)))) (acc : list Z) : HO (list Z) :=
  match replies with
  | [] => mret acc
  | reply :: replies =>
      match reply with
      | None => st_err ChannelClosed
      | Some (Err e) => st_modify count_seal_failure;; st_err (Protocol (lit "seal failed: " ++ e))
      | Some (Ok revs) => await_sealed replies (acc ++ [max_or_zero revs])
      end
  end.

Definition seal : HO SealReport :=
  replies ← fan_out Seal;
  revisions ← await_sealed replies [];
  mret (mkSealReport revisions (replicate 32 0)).

Fixpoint await_resumed (replies : list (option (sresult unit))) : HO unit :=
  match replies with
  | [] => mret tt
  | reply :: replies =>
      match reply with
      | None => st_err ChannelClosed
      | Some (Err e) => st_err (Protocol (lit "resume failed: " ++ e))
      | Some (Ok _) => await_resumed replies
      end
  end.

Definition resume_after_abort : HO unit :=
  replies ← fan_out Resume;
  await_resumed replies;;
  st_modify (fun h => mk (workers h) false (seal_failures_total h) (handoffs_seal_failed h)
                        (handoffs_resumed h + 1) (rolled_back_total h + 1)).

(** Replies that do not come within a second are left out. *)
Fixpoint gather (timely : nat -> bool) (i : nat) (replies : list (option (list Z))) : list Z :=
  match replies with
  | [] => []
  | reply :: replies =>
      match (if timely i then reply else None) with
      | Some revs => [max_or_zero revs]
      | None => []
      end ++ gather timely (S i) replies
  end.

Definition snapshot_state (timely : nat -> bool) (gauges : list (Z * Z)) (h : t) : StateSnapshot * t :=
  match fan_out Snapshot h with
  | (Ok replies, h) =>
      (mkStateSnapshot (Z.of_nat (length (workers h))) (total_open_conns gauges) (gather timely 0 replies), h)
  | (Err _, h) => (mkStateSnapshot 0 0 [], h)
  end.
End Handoff.
End Handoff.

(** ** A shard that is sealed and resumed *)

Section Shard.
Context {crc_impl : CrcFast} {blake : Blake3} `{Mpsc} `{Memchr}.
Import ShardStore.

(** A frozen log refuses every write and stays as it is. *)
Lemma frozen_refuses c l : NsLog.frozen l = true -> is_write c = true -> run c l = (Err Frozen, l).
Proof.
  intros Hf Hc. destruct c; try done; cbn [run]; unfold ret, NsLog.put_full, NsLog.put_full_cond, NsLog.put_many, NsLog.tombstone,
    NsLog.tombstone_cond, NsLog.ttl_update, NsLog.with_write_guard; by rewrite Hf.
Qed.

(** Nothing has failed in the active file, and there is room for [k] more files. *)
Definition serviceable (k : Z) (l : NsLog.t) : Prop :=
  LogFile.clean (NsLog.active l) /\
  Z.max (NsLog.max_or_0 (map_to_list (NsLog.sealed l)).*1) (LogFile.file_id (NsLog.active l)) + k <= u32_max.

Lemma seal_ok l k : serviceable k l ->
  exists l', NsLog.seal_active_for_shutdown false no_faults l = (Ok tt, l') /\ serviceable k l'.
Proof.
  intros [Hc Hk]. destruct (NsLog.seal_active_for_shutdown false no_faults l) as [r l'] eqn:Hseal.
  apply seal_step in Hseal as [(e & [=] & _)|Hseal]. unfold NsLog.write_active_footer in Hseal.
  set (l1 := if decide _ then _ else _) in Hseal. assert (NsLog.active l1 = NsLog.active l /\ NsLog.sealed l1 = NsLog.sealed l) as [Ha Hs]
    by (unfold l1; by case_decide). rewrite Ha in Hseal. cbn [f_footer_body f_footer_trailer f_footer_sync no_faults] in Hseal.
  rewrite LogFile.write_footer_ok in Hseal by done. injection Hseal as <- <-. eexists. split; [done|]. split; [apply LogFile.clean_open|]. cbn. by rewrite Hs.
Qed.

Lemma max_or_0_nonneg ids : 0 <= NsLog.max_or_0 ids.
Proof. induction ids as [|i ids IH]; cbn; [done|]. unfold NsLog.max_or_0 in IH. lia. Qed.

Lemma reopen_ok l k : 0 <= k -> serviceable (k + 1) l ->
  exists l', NsLog.reopen_active_after_seal no_faults l = (Ok tt, l') /\ serviceable k l'.
Proof.
  intros Hk [Hc Hroom]. unfold NsLog.reopen_active_after_seal, NsLog.swap_active, mbind, st_mbind, st_bind, st_get, st_lift, st_modify.
  unfold NsLog.next_file_id. rewrite decide_True by lia. eexists. split; [done|]. split; [apply LogFile.clean_open|]. cbn.
  set (top := Z.max _ _) in *. assert (NsLog.max_or_0 (map_to_list (<[LogFile.file_id (NsLog.active l) := NsLog.active l]> (NsLog.sealed l))).*1
    <= top) as Hmax; [|lia].
  apply max_or_0_lub; [unfold top; pose proof (max_or_0_nonneg (map_to_list (NsLog.sealed l)).*1); lia|].
  intros id ([id' f] & -> & Hin%elem_of_map_to_list)%list_elem_of_fmap. cbn.
  apply lookup_insert_Some in Hin as [[<- _]|[_ Hin]]; [unfold top; lia|].
  transitivity (NsLog.max_or_0 (map_to_list (NsLog.sealed l)).*1); [|unfold top; lia].
  apply max_or_0_le, list_elem_of_fmap. exists (id', f). split; [done|]. by apply elem_of_map_to_list.
Qed.

(** The logs of a shard have the contents [A], frozen or not, with room for files. *)
Record shard_lives (frozen : bool) (k : Z) (A : contents) (s : t) : Prop := {
  sl_open : forall ns l, namespaces s !! ns = Some l ->
    is_valid_ns_name ns = true /\ lives frozen (at_ns A ns) l /\ serviceable k l;
  sl_closed : forall ns, namespaces s !! ns = None -> at_ns A ns = mkSpace ∅ 0;
  sl_disk : forall ns, is_valid_ns_name ns = true -> namespaces s !! ns = None -> data_dir s !! ns = None;
  sl_config : (2 <= fanout (config s))%nat;
}.

Lemma shard_lives_logs_ok k A s : shard_lives false k A s -> logs_ok A s.
Proof.
  intros [Ho Hc Hd Hf]. split; [|done..]. intros ns l Hl. destruct (Ho ns l Hl) as (Hv & Hli & _).
  split; [done|]. by apply represents_lives.
Qed.

Lemma logs_ok_shard_lives k A s :
  logs_ok A s -> (forall ns l, namespaces s !! ns = Some l -> serviceable k l) -> shard_lives false k A s.
Proof.
  intros [Ho Hc Hd _ Hf] Hk. split; [|done..]. intros ns l Hl. destruct (Ho ns l Hl) as [Hv Hr].
  split_and!; [done|by apply represents_lives|by eapply Hk].
Qed.

Lemma shard_lives_step b b' k k' A s s' :
  shard_lives b k A s -> same_rest s s' ->
  (forall ns l', namespaces s' !! ns = Some l' -> exists l, namespaces s !! ns = Some l /\
    (lives b (at_ns A ns) l -> serviceable k l -> lives b' (at_ns A ns) l' /\ serviceable k' l')) ->
  shard_lives b' k' A s'.
Proof.
  intros [Ho Hc Hd Hf] (Hcf & Hdir & _ & _ & Hdom) Hstep. split; [| | |by rewrite Hcf].
  - intros ns l' Hl'. destruct (Hstep ns l' Hl') as (l & Hl & Himp). destruct (Ho ns l Hl) as (Hv & Hli & Hk). split; [done|]. by apply Himp.
  - intros ns Hn. apply Hc. by apply Hdom.
  - intros ns Hv Hn. rewrite Hdir. apply Hd; [done|]. by apply Hdom.
Qed.

Section Steps.
Context (io_at : nat -> faults) (Hio : forall n, io_at n = no_faults).

(** One maintenance method on every open namespace. *)
Lemma each_lives {X} (m : bytes -> faults -> NsLog.M X) b b' k k' A s0 s :
  shard_lives b k A s -> (forall ns, namespaces s0 !! ns = None <-> namespaces s !! ns = None) ->
  (forall ns l, lives b (at_ns A ns) l -> serviceable k l ->
    is_ok (m ns no_faults l).1 = true /\ lives b' (at_ns A ns) (m ns no_faults l).2 /\ serviceable k' (m ns no_faults l).2) ->
  exists rs s', each_ns io_at (open_names s0) m s = (Ok rs, s') /\ first_error rs = Ok tt /\
    same_rest s s' /\ shard_lives b' k' A s'.
Proof.
  intros Hs Hdom Hm. destruct (each_open io_at m s0 s Hdom) as (rs & s' & Hrun & Hrest & Hrs & Hls).
  exists rs, s'. split_and!; [done| |done|].
  - apply first_error_ok. intros r Hr. destruct (Hrs r Hr) as (ns & n & l & Hl & ->). rewrite Hio.
    destruct (sl_open _ _ _ _ Hs ns l Hl) as (_ & Hli & Hk). by destruct (Hm ns l Hli Hk) as [? _].
  - eapply shard_lives_step; [exact Hs|exact Hrest|]. intros ns l' Hl'. destruct (namespaces s !! ns) as [l|] eqn:Hl.
    + exists l. split; [done|]. destruct (Hls ns l Hl) as [n Hn]. rewrite Hio in Hn. rewrite Hl' in Hn. injection Hn as ->.
      intros Hli Hk. by destruct (Hm ns l Hli Hk) as (_ & ? & ?).
    + exfalso. destruct Hrest as (_ & _ & _ & _ & Hd). apply Hd in Hl. congruence.
Qed.

Lemma sync_lives b k A s : shard_lives b k A s ->
  exists s', sync_logs io_at s = (Ok tt, s') /\ same_rest s s' /\ shard_lives b k A s'.
Proof.
  intros Hs. destruct (each_lives (fun _ io => NsLog.sync io) b b k k A s s Hs) as (rs & s' & Hrun & He & Hrest & Hs').
  { done. }
  { intros ns l Hli Hk. pose proof (maintenance_lives (Sync no_faults) b _ l eq_refl Hli) as Hli'.
    change (run _ l).2 with (NsLog.sync no_faults l).2 in Hli'. destruct (NsLog.sync no_faults l) as [r l'] eqn:Hl.
    apply sync_cases in Hl as [[-> ->]|(e & [=] & _)]. split_and!; [done|done|]. unfold synced. cbn. by case_decide. }
  exists s'. split; [|done]. unfold sync_logs, mbind, st_mbind, st_bind, st_get. rewrite Hrun. unfold st_lift. by rewrite He.
Qed.

Lemma seal_all_lives hook k A s : (forall ns, hook ns = false) -> shard_lives false k A s ->
  exists s', seal_all_for_shutdown io_at hook s = (Ok tt, s') /\ same_rest s s' /\ shard_lives true k A s'.
Proof.
  intros Hhook Hs. destruct (each_lives (fun _ _ => st_modify NsLog.freeze) false true k k A s s Hs) as (rs & s1 & Hrun1 & _ & Hrest1 & Hs1).
  { done. }
  { intros ns l Hli Hk. split_and!; [done|exact (maintenance_lives Freeze false _ l eq_refl Hli)|exact Hk]. }
  destruct (each_lives (fun ns io => NsLog.seal_active_for_shutdown (hook ns) io) true true k k A s s1 Hs1) as (rs2 & s2 & Hrun2 & He & Hrest2 & Hs2).
  { apply Hrest1. }
  { intros ns l Hli Hk. rewrite Hhook. pose proof (maintenance_lives (NsSim.Seal false no_faults) true _ l eq_refl Hli) as Hli'.
    destruct (seal_ok l k Hk) as (l' & Hl' & Hk').
    change (run _ l).2 with (NsLog.seal_active_for_shutdown false no_faults l).2 in Hli'. rewrite Hl' in Hli' |- *. done. }
  exists s2. split_and!; [|by eapply same_rest_trans|done].
  unfold seal_all_for_shutdown, mbind, st_mbind, st_bind, st_get. rewrite Hrun1, Hrun2. unfold st_lift. by rewrite He.
Qed.

Lemma resume_lives k A s : 0 <= k -> shard_lives true (k + 1) A s ->
  exists s', resume_after_abort io_at s = (Ok tt, s') /\ same_rest s s' /\ shard_lives false k A s'.
Proof.
  intros Hk0 Hs. destruct (each_lives (fun _ io => NsLog.reopen_active_after_seal io) true true (k + 1) k A s s Hs)
    as (rs & s1 & Hrun1 & He & Hrest1 & Hs1).
  { done. }
  { intros ns l Hli Hk. pose proof (maintenance_lives (Reopen no_faults) true _ l eq_refl Hli) as Hli'.
    destruct (reopen_ok l k Hk0 Hk) as (l' & Hl' & Hk').
    change (run _ l).2 with (NsLog.reopen_active_after_seal no_faults l).2 in Hli'. rewrite Hl' in Hli' |- *. done. }
  destruct (each_lives (fun _ _ => st_modify NsLog.unfreeze) true false k k A s s1 Hs1) as (rs2 & s2 & Hrun2 & _ & Hrest2 & Hs2).
  { apply Hrest1. }
  { intros ns l Hli Hk. split_and!; [done|exact (maintenance_lives Unfreeze true _ l eq_refl Hli)|exact Hk]. }
  exists s2. split_and!; [|by eapply same_rest_trans|done].
  unfold resume_after_abort, mbind, st_mbind, st_bind, st_get. rewrite Hrun1. unfold st_lift. rewrite He. by rewrite Hrun2.
Qed.
End Steps.
End Shard.

(** ** A handoff that is aborted *)

Section Abort.
Context {crc_impl : CrcFast} {blake : Blake3} `{Mpsc} `{Memchr} `{Messages} (max : Z).
Context (io_at : nat -> nat -> faults) (links : nat -> Cluster.link) (hooks : nat -> bytes -> bool).
Import Handoff.

Lemma deliver_all_up {R} (op : HandoffOp R) : (forall i, links i = Cluster.Up) -> forall todo done h,
  workers h = done ++ todo ->
  let outs := imap (fun j s => handle_op io_at hooks (length done + j) op s) todo in
  deliver_all io_at links hooks op (seq (length done) (length todo)) h = (Ok (Some <$> outs.*1), set_workers (done ++ outs.*2) h).
Proof.
  intros Hup. induction todo as [|s todo IH]; intros done h Hw outs.
  { cbn. rewrite app_nil_r in Hw |- *. rewrite <- Hw. by destruct h. }
  cbn [length seq deliver_all].
  assert (workers h !! length done = Some s) as Hs by (rewrite Hw; by rewrite list_lookup_middle).
  destruct (handle_op io_at hooks (length done) op s) as [r s'] eqn:Hop.
  assert (deliver io_at links hooks op (length done) h = (Ok (Some r), set_workers (done ++ s' :: todo) h)) as Hd.
  { unfold deliver. rewrite Hs, Hop, Hup, Hw. by rewrite insert_app_r_alt, Nat.sub_diag by done. }
  rewrite (st_bind_ok _ _ _ _ _ Hd).
  assert (workers (set_workers (done ++ s' :: todo) h) = (done ++ [s']) ++ todo) as Hw' by (by rewrite <- app_assoc).
  specialize (IH (done ++ [s']) _ Hw'). rewrite length_app in IH. cbn [length] in IH.
  replace (S (length done)) with (length done + 1)%nat by lia. rewrite (st_bind_ok _ _ _ _ _ IH).
  subst outs. cbn [imap]. rewrite Nat.add_0_r, Hop. cbn [fmap list_fmap fst snd].
  assert (imap (fun j s => handle_op io_at hooks (length done + 1 + j) op s) todo
    = imap ((fun j s => handle_op io_at hooks (length done + j) op s) ∘ S) todo) as ->
    by (apply imap_ext; intros j x _; cbn; f_equal; lia).
  rewrite <- app_assoc. done.
Qed.

Lemma fan_out_up {R} (op : HandoffOp R) h : (forall i, links i = Cluster.Up) ->
  let outs := imap (fun i s => handle_op io_at hooks i op s) (workers h) in
  fan_out io_at links hooks op h = (Ok (Some <$> outs.*1), set_workers outs.*2 h).
Proof. intros Hup. exact (deliver_all_up op Hup (workers h) [] h eq_refl). Qed.

(** Every worker has done its part. *)
Lemma fan_out_each {R} (op : HandoffOp R) (P : contents -> ShardStore.t -> Prop) (Q : contents -> R -> ShardStore.t -> Prop) As h :
  (forall i, links i = Cluster.Up) -> Forall2 P As (workers h) ->
  (forall i A s, P A s -> Q A (handle_op io_at hooks i op s).1 (handle_op io_at hooks i op s).2) ->
  exists rs c, fan_out io_at links hooks op h = (Ok (Some <$> rs), set_workers c h) /\ length rs = length As /\
    length c = length As /\
    forall i A, As !! i = Some A -> exists r s, rs !! i = Some r /\ c !! i = Some s /\ Q A r s.
Proof.
  intros Hup HP Hstep. set (outs := imap (fun i s => handle_op io_at hooks i op s) (workers h)).
  assert (length outs = length As) as Hlen by (unfold outs; rewrite length_imap; symmetry; by eapply Forall2_length).
  exists outs.*1, outs.*2. rewrite !length_fmap. split_and!; [by apply fan_out_up|done|done|].
  intros i A HA. destruct (Forall2_lookup_l _ _ _ _ _ HP HA) as (s & Hs & Hp).
  assert (outs !! i = Some (handle_op io_at hooks i op s)) as Ho by (unfold outs; by rewrite list_lookup_imap, Hs).
  exists (handle_op io_at hooks i op s).1, (handle_op io_at hooks i op s).2. rewrite !list_lookup_fmap, Ho. by split_and!; [..|apply Hstep].
Qed.

(** A shard in service, with room for [k] more files, and one that is paused; their
    caches repeat entries of the contents. *)
Definition shard_in (frozen : bool) (k : Z) (A : contents) (s : ShardStore.t) : Prop :=
  shard_lives frozen k A s /\ exists w, MemCache.good max (ShardStore.cache s) w /\ mirrors A w.

Lemma in_service k A s :
  store_ok max A s -> (forall ns l, ShardStore.namespaces s !! ns = Some l -> serviceable k l) -> shard_in false k A s.
Proof. intros [Hl Hc] Hk. split; [by apply logs_ok_shard_lives|done]. Qed.

Lemma shard_in_next b b' k k' A s s' : shard_in b k A s -> same_rest s s' -> shard_lives b' k' A s' -> shard_in b' k' A s'.
Proof. intros [_ Hc] (_ & _ & Hcache & _) Hs. split; [done|]. by rewrite Hcache. Qed.

(** The highest revision of a shard. *)
Definition top_revision (A : contents) (r : Z) : Prop :=
  (forall ns, sp_last (at_ns A ns) <= r) /\ (r = 0 \/ exists ns, r = sp_last (at_ns A ns)).

Lemma max_or_zero_spec revs : 0 <= max_or_zero revs /\ (forall r, r ∈ revs -> r <= max_or_zero revs) /\
  (max_or_zero revs = 0 \/ max_or_zero revs ∈ revs).
Proof.
  induction revs as [|r revs (H0' & Hle & Hor)]; cbn [max_or_zero foldr]; [split_and!; [done|set_solver|by left]|].
  fold (max_or_zero revs). split_and!; [lia| |].
  - intros r' [->|Hr]%elem_of_cons; [lia|]. specialize (Hle r' Hr). lia.
  - destruct (Z.max_spec r (max_or_zero revs)) as [[_ ->]|[_ ->]]; [|right; set_solver].
    destruct Hor as [->|Hor]; [by left|right; set_solver].
Qed.

Lemma top_revision_of b k A s : shard_lives b k A s -> top_revision A (max_or_zero (ShardStore.last_revision_per_namespace s)).
Proof.
  intros Hs. set (revs := ShardStore.last_revision_per_namespace s). destruct (max_or_zero_spec revs) as (H0' & Hle & Hor).
  assert (forall ns l, ShardStore.namespaces s !! ns = Some l -> NsLog.last_revision l = sp_last (at_ns A ns)) as Hrev.
  { intros ns l Hl. destruct (sl_open _ _ _ _ Hs ns l Hl) as (_ & [Hsim _] & _). symmetry. exact (sim_last _ _ Hsim). }
  split.
  - intros ns. destruct (ShardStore.namespaces s !! ns) as [l|] eqn:Hl; [|rewrite (sl_closed _ _ _ _ Hs ns Hl); done].
    rewrite <- (Hrev ns l Hl). apply Hle, list_elem_of_fmap. exists (ns, l). split; [done|]. by apply elem_of_map_to_list.
  - destruct Hor as [->|Hin]; [by left|right]. apply list_elem_of_fmap in Hin as ([ns l] & Heq & Hin%elem_of_map_to_list).
    exists ns. rewrite Heq. by apply Hrev.
Qed.

Lemma shard_in_healthy A s ns l : shard_in false 1 A s -> ShardStore.namespaces s !! ns = Some l -> healthy l.
Proof.
  intros [Hs _] Hl. destruct (sl_open _ _ _ _ Hs ns l Hl) as (_ & [Hsim _] & [Hc Hroom]). split; [done|exact (eq_sym (sim_frozen _ _ Hsim))|].
  unfold NsLog.next_file_id. by rewrite decide_True.
Qed.

Context (Hup : forall i, links i = Cluster.Up) (Hio : forall i n, io_at i n = no_faults) (Hhooks : forall i ns, hooks i ns = false).

Lemma await_drained_ok timely (rs : list (sresult unit)) : (forall i, timely i = true) -> (forall r, r ∈ rs -> r = Ok tt) ->
  forall i h, await_drained timely i (Some <$> rs) h = (Ok tt, h).
Proof.
  intros Ht. induction rs as [|r rs IH]; intros Hall i h; [done|]. cbn [fmap list_fmap await_drained]. rewrite Ht.
  rewrite (Hall r) by set_solver. apply IH. set_solver.
Qed.

Lemma await_resumed_ok (rs : list (sresult unit)) : (forall r, r ∈ rs -> r = Ok tt) ->
  forall h, await_resumed (Some <$> rs) h = (Ok tt, h).
Proof.
  induction rs as [|r rs IH]; intros Hall h; [done|]. cbn [fmap list_fmap await_resumed].
  rewrite (Hall r) by set_solver. apply IH. set_solver.
Qed.

Lemma await_sealed_ok (rs : list (list Z)) : forall acc h,
  await_sealed ((fun r => Some (Ok r)) <$> rs) acc h = (Ok (acc ++ (max_or_zero <$> rs)), h).
Proof.
  induction rs as [|r rs IH]; intros acc h; [cbn; by rewrite app_nil_r|]. cbn [fmap list_fmap await_sealed].
  rewrite IH, <- app_assoc. done.
Qed.

Lemma handle_each {R} (op : HandoffOp R) (P : contents -> ShardStore.t -> Prop) (Q : contents -> R -> ShardStore.t -> Prop) As h :
  Forall2 P As (workers h) ->
  (forall i A s, P A s -> Q A (handle_op io_at hooks i op s).1 (handle_op io_at hooks i op s).2) ->
  exists rs c, fan_out io_at links hooks op h = (Ok (Some <$> rs), set_workers c h) /\ Forall2 (fun A r => exists s, Q A r s) As rs /\
    Forall2 (fun A s => exists r, Q A r s) As c.
Proof.
  intros HP Hstep. destruct (fan_out_each op P Q As h Hup HP Hstep) as (rs & c & Hrun & Hlr & Hlc & Hall).
  exists rs, c. split_and!; [done| |]; apply Forall2_same_length_lookup_2; try done.
  - intros i A r HA Hr. destruct (Hall i A HA) as (r' & s & Hr' & _ & HQ). exists s. congruence.
  - intros i A s HA Hs. destruct (Hall i A HA) as (r & s' & _ & Hs' & HQ). exists r. congruence.
Qed.

Lemma all_unit {P : contents -> ShardStore.t -> Prop} As (rs : list (sresult unit)) :
  Forall2 (fun A r => exists s, r = Ok tt /\ P A s) As rs -> forall r, r ∈ rs -> r = Ok tt.
Proof.
  intros Hall r [i Hi]%list_elem_of_lookup. destruct (Forall2_lookup_r _ _ _ _ _ Hall Hi) as (A & _ & s & -> & _). done.
Qed.

Lemma drain_done timely readings As k h : (forall i, timely i = true) -> Forall2 (shard_in false k) As (workers h) ->
  exists report h1, drain io_at links hooks timely readings h = (Ok report, h1) /\ accept_closed h1 = true /\
    Forall2 (shard_in false k) As (workers h1).
Proof.
  intros Ht Hs. destruct (handle_each Drain (shard_in false k) (fun A r s => r = Ok tt /\ shard_in false k A s) As (set_accept_closed true h) Hs)
    as (rs & c & Hrun & Hrs & Hc).
  { intros i A s Hin. destruct (sync_lives (io_at i) (Hio i) false k A s (proj1 Hin)) as (s' & Hsync & Hrest & Hs').
    cbn [handle_op]. rewrite Hsync. split; [done|]. by eapply shard_in_next. }
  eexists _, (set_workers c (set_accept_closed true h)). split_and!; [|done|].
  - unfold drain, st_modify. unfold mbind, st_mbind, st_bind. rewrite Hrun, (await_drained_ok timely rs Ht (all_unit As rs Hrs)). done.
  - eapply Forall2_impl; [exact Hc|]. by intros A s (_ & _ & Hin).
Qed.

Lemma seal_done As k h : Forall2 (shard_in false k) As (workers h) ->
  exists revs h2, seal io_at links hooks h = (Ok (mkSealReport revs (replicate 32 0)), h2) /\ accept_closed h2 = accept_closed h /\
    Forall2 top_revision As revs /\ Forall2 (shard_in true k) As (workers h2).
Proof.
  intros Hs. destruct (handle_each Seal (shard_in false k)
    (fun A r s => exists revs, r = Ok revs /\ top_revision A (max_or_zero revs) /\ shard_in true k A s) As h Hs) as (rs & c & Hrun & Hrs & Hc).
  { intros i A s Hin. destruct (seal_all_lives (io_at i) (Hio i) (hooks i) k A s (Hhooks i) (proj1 Hin)) as (s' & Hseal & Hrest & Hs').
    cbn [handle_op]. rewrite Hseal. eexists. split_and!; [done|by eapply top_revision_of|by eapply shard_in_next]. }
  assert (exists revs, rs = Ok <$> revs /\ Forall2 (fun A r => top_revision A (max_or_zero r)) As revs) as (revs & -> & Hrevs).
  { clear -Hrs. induction Hrs as [|A r As rs (s & revs & -> & Ht & _) _ (rest & -> & Hrest)]; [by exists []|].
    exists (revs :: rest). split; [done|]. by constructor. }
  exists (max_or_zero <$> revs), (set_workers c h). split_and!; [|done| |].
  - unfold seal. rewrite (st_bind_ok _ _ _ _ _ Hrun), <- list_fmap_compose.
    by rewrite (st_bind_ok _ _ _ _ _ (await_sealed_ok revs [] (set_workers c h))).
  - apply Forall2_fmap_r. exact Hrevs.
  - eapply Forall2_impl; [exact Hc|]. by intros A s (_ & _ & _ & _ & Hin).
Qed.

Lemma resume_done As k h : 0 <= k -> Forall2 (shard_in true (k + 1)) As (workers h) ->
  exists h3, resume_after_abort io_at links hooks h = (Ok tt, h3) /\ accept_closed h3 = false /\
    Forall2 (shard_in false k) As (workers h3).
Proof.
  intros Hk Hs. destruct (handle_each Resume (shard_in true (k + 1)) (fun A r s => r = Ok tt /\ shard_in false k A s) As h Hs)
    as (rs & c & Hrun & Hrs & Hc).
  { intros i A s Hin. destruct (resume_lives (io_at i) (Hio i) k A s Hk (proj1 Hin)) as (s' & Hres & Hrest & Hs').
    cbn [handle_op]. rewrite Hres. split; [done|]. by eapply shard_in_next. }
  eexists. split_and!.
  - unfold resume_after_abort. rewrite (st_bind_ok _ _ _ _ _ Hrun), (st_bind_ok _ _ _ _ _ (await_resumed_ok rs (all_unit As rs Hrs) (set_workers c h))).
    done.
  - done.
  - cbn. eapply Forall2_impl; [exact Hc|]. by intros A s (_ & _ & Hin).
Qed.

(** C22: A handoff that is aborted loses nothing.  When every worker answers and no file
    operation fails, drain, seal and resume succeed one after the other on any
    contents.  From the drain to the resume no connection is accepted.  After the seal
    every write to an open namespace of every shard is refused and leaves the log as it
    is, and the report gives the highest revision of each shard.  After the resume
    connections are accepted again, every shard has the contents it had, and every log
    takes writes. *)
Theorem aborted_handoff timely readings As h :
  (forall i, timely i = true) -> Forall2 (shard_in false 2) As (workers h) ->
  exists report h1 revs h2 h3,
    drain io_at links hooks timely readings h = (Ok report, h1) /\ accept_closed h1 = true /\
    seal io_at links hooks h1 = (Ok (mkSealReport revs (replicate 32 0)), h2) /\ accept_closed h2 = true /\
    Forall2 top_revision As revs /\
    (forall s ns l c, s ∈ workers h2 -> ShardStore.namespaces s !! ns = Some l -> is_write c = true -> run c l = (Err Frozen, l)) /\
    resume_after_abort io_at links hooks h2 = (Ok tt, h3) /\ accept_closed h3 = false /\
    Forall2 (store_ok max) As (workers h3) /\
    (forall s ns l, s ∈ workers h3 -> ShardStore.namespaces s !! ns = Some l -> healthy l).
Proof.
  intros Ht Hs. destruct (drain_done timely readings As 2 h Ht Hs) as (report & h1 & Hd & Ha1 & Hs1).
  destruct (seal_done As 2 h1 Hs1) as (revs & h2 & Hse & Ha2 & Hrevs & Hs2).
  destruct (resume_done As 1 h2 ltac:(lia) Hs2) as (h3 & Hr & Ha3 & Hs3).
  exists report, h1, revs, h2, h3. split_and!; try done; [congruence|..].
  - intros s ns l c [i Hi]%list_elem_of_lookup Hl Hc. destruct (Forall2_lookup_r _ _ _ _ _ Hs2 Hi) as (A & _ & [Hin _]).
    apply frozen_refuses; [|done]. destruct (sl_open _ _ _ _ Hin ns l Hl) as (_ & [Hsim _] & _). exact (eq_sym (sim_frozen _ _ Hsim)).
  - eapply Forall2_impl; [exact Hs3|]. intros A s [Hin Hc]. split; [by eapply shard_lives_logs_ok|done].
  - intros s ns l [i Hi]%list_elem_of_lookup Hl. destruct (Forall2_lookup_r _ _ _ _ _ Hs3 Hi) as (A & _ & Hin). by eapply shard_in_healthy.
Qed.
End Abort.

(** ** Examples *)

Module HandoffExamples.
#[local] Existing Instance WatchRegistry.bytes_json.
#[local] Existing Instance WatchRegistry.list_mpsc.

(** Stands for the texts of other crates. *)
#[local] Instance no_texts : Messages := {|
  io_message _ := []; json_message := []; bytes_debug _ := []; canceled_message := []; try_send_message := [] |}.

Definition ex_io (i n : nat) : faults := no_faults.
Definition ex_links (i : nat) : Cluster.link := Cluster.Up.
Definition ex_hooks (i : nat) (ns : bytes) : bool := false.

(** A shard with one key. *)
Definition ex_store : ShardStore.t :=
  (ShardStore.set Runs.ex_clock Runs.ex_io DEFAULT_NS (lit "k") (lit "v") Runs.no_options Runs.ex_shard).2.

Definition serviceableb (k : Z) (l : NsLog.t) : bool :=
  bool_decide (LogFile.write_offset (NsLog.active l) = zlen (LogFile.data (NsLog.active l)) /\
    LogFile.poisoned (NsLog.active l) = false /\
    Z.max (NsLog.max_or_0 (map_to_list (NsLog.sealed l)).*1) (LogFile.file_id (NsLog.active l)) + k <= u32_max).

Lemma ex_in_service : shard_in 200 false 2 ∅ Runs.ex_shard.
Proof.
  apply in_service.
  - apply Runs.open_store_ok with (fanout_var := None) (threshold_var := None) (cs := []); [lia|reflexivity].
  - assert (map_Forall (fun _ l => serviceableb 2 l = true) (ShardStore.namespaces Runs.ex_shard)) as Hall
      by (apply (bool_decide_unpack _); vm_compute; exact I).
    intros ns l Hl. specialize (Hall ns l Hl). cbn in Hall. apply bool_decide_eq_true in Hall as (Ho & Hp & Hr). by split.
Qed.

Lemma aborted_handoff_witness :
  exists report h1 revs h2 h3,
    Handoff.drain ex_io ex_links ex_hooks (fun _ => true) [] (Handoff.new [Runs.ex_shard; Runs.ex_shard] false) = (Ok report, h1) /\
    Handoff.accept_closed h1 = true /\
    Handoff.seal ex_io ex_links ex_hooks h1 = (Ok (mkSealReport revs (replicate 32 0)), h2) /\ Handoff.accept_closed h2 = true /\
    Forall2 top_revision [∅; ∅] revs /\
    (forall s ns l c, s ∈ Handoff.workers h2 -> ShardStore.namespaces s !! ns = Some l -> is_write c = true -> run c l = (Err Frozen, l)) /\
    Handoff.resume_after_abort ex_io ex_links ex_hooks h2 = (Ok tt, h3) /\ Handoff.accept_closed h3 = false /\
    Forall2 (store_ok 200) [∅; ∅] (Handoff.workers h3) /\
    (forall s ns l, s ∈ Handoff.workers h3 -> ShardStore.namespaces s !! ns = Some l -> healthy l).
Proof.
  apply aborted_handoff; [done..|]. cbn. constructor; [apply ex_in_service|]. constructor; [apply ex_in_service|constructor].
Defined.

(** The shard after a seal. *)
Definition ex_sealed_shard : ShardStore.t := (Handoff.handle_op ex_io ex_hooks 0 Seal ex_store).2.

(** The files of a namespace of a shard. *)
Definition files_of (s : ShardStore.t) (ns : bytes) : option (gmap Z bytes) := NsLog.disk <$> ShardStore.namespaces s !! ns.

(** A seal does not stop every change.  After a shard was sealed, when another
    process may already have opened its files, a write to an open namespace is refused,
    but [FLUSHDB] of it succeeds and replaces its files, and a write to a namespace that
    was not open at the seal is accepted. *)
Theorem sealed_shard_still_changes :
  (ShardStore.set Runs.ex_clock Runs.ex_io DEFAULT_NS (lit "k") (lit "w") Runs.no_options ex_sealed_shard).1 = Err Frozen /\
  (ShardStore.set Runs.ex_clock Runs.ex_io (lit "db1") (lit "k") (lit "w") Runs.no_options ex_sealed_shard).1 = Ok tt /\
  (let '(r, s) := ShardStore.flush_db Runs.ex_clock DEFAULT_NS ex_sealed_shard in
   r = Ok tt /\ files_of s DEFAULT_NS = Some {[0 := []]} /\ files_of ex_sealed_shard DEFAULT_NS <> Some {[0 := []]}).
Proof. vm_compute. repeat split. discriminate. Qed.
End HandoffExamples.
