(* ===== verification/Worker.v ===== *)
(** * The worker of a shard, [crates/server/src/main.rs]

    A worker thread opens the store of its shard and serves requests; three tasks on
    the same thread sweep the cache, sync the logs and compact them from time to time.
    When the process is told to stop, the worker syncs its logs once more and seals
    them, and the next process opens what is on disk.  Each request and each round of a
    task is one step here; the times of the rounds are those of the run.

    The theorems: clients cannot tell that the tasks run ([worker_refines_map]); what
    they wrote is there after a restart ([worker_restart]); and [/readyz] tells whether
    the last syncs of a shard have failed ([readyz_exact]). *)

From stdpp Require Import base tactics list gmap strings.
From Stdlib Require Import ZArith Lia.
From S2P Require Import Prelude Record Index LogFile ValueStore Recover NsLog NsRepr NsSpec Reclaim NsBatch NsSim NsOk NsContract NsJournal NsRecover Ascii Glob Cache Watch Stream Store StoreInv StoreSpec StoreMany StoreRefine StoreRun StoreEach Routing Messages CrossShard Dispatch DispatchMap HttpMsg Http HttpRefine.

Open Scope Z_scope.

Module Worker.
Section Worker.
Context {crc_impl : CrcFast} {blake : Blake3} `{Mpsc} `{Memchr}.
Context (clock_at instant_at : nat -> Z) (io_at : nat -> faults).
Import ShardStore.

(** The counters and gauges of the shard that the tasks set. *)
Record Metrics := mkMetrics {
  keys_expired_total : Z;
  cache_size_bytes : Z;
  cache_entries : Z;
  namespaces_open : Z;
  sealed_segments : Z;
  log_sync_failures_total : Z;
  reclaim_runs_total : Z;
  reclaim_files_freed_total : Z;
}.

(** [sync_failures] is the counter of the shard among those that [/readyz] reads. *)
Record worker := mkWorker { store : ShardStore.t; sync_failures : Z; metrics : Metrics }.

Definition set_store (s : ShardStore.t) (w : worker) : worker := mkWorker s (sync_failures w) (metrics w).

(** The store is opened; [None] is the panic of a store that does not open. *)
Definition start (data_dir : gmap bytes (gmap Z bytes * gmap ContentHash bytes)) (memory_per_shard : Z)
    (fanout_var threshold_var : option Z) (cs : chans) : option worker :=
  match open data_dir memory_per_shard fanout_var threshold_var cs with
  | Ok s => Some (mkWorker s 0 (mkMetrics 0 0 0 0 0 0 0 0))
  | Err _ => None
  end.

(** ** The tasks *)

(** Every 30 seconds. *)
Definition sweep_tick (w : worker) : worker :=
  let '(r, s) := sweep_cache clock_at (store w) in
  let expired := match r with Ok n => n | Err _ => 0 end in
  let m := metrics w in
  mkWorker s (sync_failures w)
    (mkMetrics (if decide (expired > 0) then keys_expired_total m + expired else keys_expired_total m)
       (cache_bytes_used s) (Z.of_nat (cache_len s)) (Z.of_nat (namespace_count s)) (Z.of_nat (sealed_segment_count s))
       (log_sync_failures_total m) (reclaim_runs_total m) (reclaim_files_freed_total m)).

(** The counter of failures in a row, a [u32]. *)
Definition after_sync {A} (r : eresult A) (failures : Z) : Z :=
  match r with Ok _ => 0 | Err _ => (failures + 1) mod 2 ^ 32 end.

(** Every second; [io] is the outcome of the file operations of the round. *)
Definition sync_tick (io : nat -> faults) (w : worker) : worker :=
  let '(r, s) := sync_logs io (store w) in
  let m := metrics w in
  mkWorker s (after_sync r (sync_failures w))
    (mkMetrics (keys_expired_total m) (cache_size_bytes m) (cache_entries m) (namespaces_open m) (sealed_segments m)
       (match r with Ok _ => log_sync_failures_total m | Err _ => log_sync_failures_total m + 1 end)
       (reclaim_runs_total m) (reclaim_files_freed_total m)).

(** Every [reclaim_interval_secs]; the task runs when the threshold is not 0. *)
Definition reclaim_tick (reclaim_sealed_threshold : nat) (io : nat -> faults) (merges : bytes -> list merge_faults)
    (w : worker) : worker :=
  let '(r, s) := reclaim_if_needed io reclaim_sealed_threshold merges (store w) in
  let m := metrics w in
  mkWorker s (sync_failures w)
    (match r with
     | Ok summary =>
         if decide (namespaces_reclaimed summary > 0)
         then mkMetrics (keys_expired_total m) (cache_size_bytes m) (cache_entries m) (namespaces_open m)
                (sealed_segments m) (log_sync_failures_total m)
                (reclaim_runs_total m + namespaces_reclaimed summary)
                (reclaim_files_freed_total m + files_freed summary)
         else m
     | Err _ => m
     end).

(** The end of the worker: the flag is [shutdown_error]. *)
Definition exit (io : nat -> faults) (hook : bytes -> bool) (w : worker) : bool * ShardStore.t :=
  let '(_, s) := sync_logs io (store w) in
  let '(r, s) := seal_all_for_shutdown io hook s in
  (negb (is_ok r), s).

(** The directory of the shard: the files of the open namespaces, and the
    directories that are not namespaces. *)
Definition on_disk (s : ShardStore.t) : gmap bytes (gmap Z bytes * gmap ContentHash bytes) :=
  ((fun l => (NsLog.disk l, ValueStore.blobs (NsLog.values l))) <$> namespaces s) ∪ data_dir s.

(** ** Runs *)

Inductive event :=
| Served (st : Runs.step)
| Swept
| Synced (ok : bool)
| Reclaimed.

(** Requests of clients, as [store_runs] has them, and rounds of the tasks, whose file
    operations fail in any way. *)
Inductive worker_runs (threshold : nat) : worker -> list event -> worker -> Prop :=
| wr_nil w : worker_runs threshold w [] w
| wr_request w ns o r s1 tr w2 :
    op_ok ns o (store w) -> run_op clock_at instant_at io_at ns o (store w) = (r, s1) ->
    worker_runs threshold (set_store s1 w) tr w2 ->
    worker_runs threshold w
      (Served (Runs.mkStep ns o (clock_at (ticks (store w))) (instant_at (S (ticks (store w)))) r) :: tr) w2
| wr_sweep w tr w2 : worker_runs threshold (sweep_tick w) tr w2 -> worker_runs threshold w (Swept :: tr) w2
| wr_sync w io tr w2 :
    worker_runs threshold (sync_tick io w) tr w2 ->
    worker_runs threshold w (Synced (is_ok (sync_logs io (store w)).1) :: tr) w2
| wr_reclaim w io merges tr w2 :
    threshold <> 0%nat -> worker_runs threshold (reclaim_tick threshold io merges w) tr w2 ->
    worker_runs threshold w (Reclaimed :: tr) w2.

(** What the clients see of a run. *)
Definition requests (tr : list event) : list Runs.step :=
  omap (fun e => match e with Served st => Some st | _ => None end) tr.
End Worker.

(** ** Rounds leave the contents *)

Section Rounds.
Context {crc_impl : CrcFast} {blake : Blake3} `{Mpsc} `{Memchr} {logs : Provenance}.
Import ShardStore.

(** A loop over open namespaces in which each log keeps what it represents. *)
Lemma each_keeps {X} max A (io : nat -> faults) (m : bytes -> faults -> NsLog.M X) names s :
  store_ok max A s -> NoDup names -> (forall ns, ns ∈ names -> is_Some (namespaces s !! ns)) ->
  (forall ns f sp l, represents sp l -> prov l -> represents sp (m ns f l).2 /\ prov (m ns f l).2) ->
  exists rs s', each_ns io names m s = (Ok rs, s') /\ each_done io m names s rs s' /\
    store_ok max A s' /\ pub s' = pub s.
Proof.
  intros [[Ho Hc Hd Hp Hf] Hcache] Hnd Hin Hm.
  destruct (each_ns_done io m names s Hnd Hin) as (rs & s' & Hrun & Hdone).
  pose proof Hdone as [(Hcf & Hdir & Hca & Hpub & Hdom) _ Hnamed Hothers].
  assert (forall ns l', namespaces s' !! ns = Some l' ->
    is_valid_ns_name ns = true /\ represents (at_ns A ns) l' /\ prov l') as Hall.
  { intros ns l' Hl'. destruct (decide (ns ∈ names)) as [Hi|Hn].
    - apply list_elem_of_lookup in Hi as [j Hj]. destruct (Hnamed j ns Hj) as (n & l & Hl & _ & Heq).
      rewrite Hl' in Heq. injection Heq as ->. destruct (Ho ns l Hl) as [Hv Hr]. split; [done|]. apply Hm; [done|by eapply Hp].
    - rewrite Hothers in Hl' by done. destruct (Ho ns l' Hl'). split_and!; [done..|by eapply Hp]. }
  exists rs, s'. split_and!; [done..| |done]. split; [|by rewrite Hca]. split.
  - intros ns l' Hl'. by destruct (Hall ns l' Hl') as (? & ? & _).
  - intros ns Hn. apply Hc. by apply Hdom.
  - intros ns Hv Hn. rewrite Hdir. apply Hd; [done|]. by apply Hdom.
  - intros ns l' Hl'. by destruct (Hall ns l' Hl') as (_ & _ & ?).
  - by rewrite Hcf.
Qed.

Lemma sync_represents io sp l : represents sp l -> prov l ->
  represents sp (NsLog.sync io l).2 /\ prov (NsLog.sync io l).2.
Proof.
  intros Hr Hp. split.
  - apply represents_lives in Hr. apply represents_lives. exact (maintenance_lives (Sync io) false sp l eq_refl Hr).
  - destruct Hr as (Hs & _). exact (prov_call (Sync io) _ l _ _ Hp Hs I eq_refl (surjective_pairing (run (Sync io) l))).
Qed.

Lemma sync_keeps max A io s : store_ok max A s ->
  store_ok max A (sync_logs io s).2 /\ pub (sync_logs io s).2 = pub s.
Proof.
  intros Hs. destruct (each_keeps max A io (fun _ io => NsLog.sync io) (open_names s) s Hs) as (rs & s' & Hrun & _ & Hs' & Hp).
  - apply open_names_NoDup.
  - intros ns. apply open_names_elem.
  - intros _ f sp l. apply sync_represents.
  - unfold sync_logs, mbind, st_mbind, st_bind, st_get. by rewrite Hrun.
Qed.

Lemma reclaim_represents io mfs sp l : represents sp l -> represents sp (Reclaim.reclaim io mfs l).2.
Proof.
  intros ([[x Hx] Hl Hf Hn] & Hlast & Hsound). destruct (Reclaim.reclaim io mfs l) as [r l'] eqn:Hrun.
  destruct (Reclaim.reclaim_repr _ _ _ _ _ _ _ Hx Hrun) as (Hx' & Hl' & Hf' & Hn'). cbn [snd as_map as_last as_frozen] in *.
  split_and!; [|congruence|done]. split; cbn [as_map as_last as_frozen]; [by exists x|congruence|congruence|lia].
Qed.

Lemma reclaim_keeps max A io threshold merges s :
  (forall io mfs l, prov l -> prov (Reclaim.reclaim io mfs l).2) -> store_ok max A s ->
  store_ok max A (reclaim_if_needed io threshold merges s).2 /\ pub (reclaim_if_needed io threshold merges s).2 = pub s.
Proof.
  intros Hprov Hs. unfold reclaim_if_needed. case_decide; [done|]. unfold mbind, st_mbind, st_bind, st_get.
  set (names := (filter _ _).*1).
  destruct (each_keeps max A io (fun ns io => Reclaim.reclaim io (merges ns)) names s Hs) as (rs & s' & Hrun & _ & Hs' & Hp).
  - eapply sublist_NoDup; [apply (open_names_NoDup s)|]. apply fmap_sublist, sublist_filter.
  - intros ns ([ns' l] & -> & [_ Hl%elem_of_map_to_list]%list_elem_of_filter)%list_elem_of_fmap. by exists l.
  - intros ns f sp l Hr Hl. split; [by apply reclaim_represents|by apply Hprov].
  - by rewrite Hrun.
Qed.

Context (clock_at instant_at : nat -> Z) (io_at : nat -> faults).

Lemma sweep_keeps max A s : store_ok max A s ->
  store_ok max A (sweep_cache clock_at s).2 /\ pub (sweep_cache clock_at s).2 = pub s.
Proof.
  intros [[Ho Hc Hd Hp Hf] (w & Hg & Hm)].
  pose proof (MemCache.good_run max (MemCache.SweepExpired (clock_at (ticks s))) _ _ Hg) as Hg'.
  cbn [MemCache.run MemCache.written] in Hg'. unfold sweep_cache, now_ms, with_cache, mbind, st_mbind, st_bind.
  cbn [cache set_ticks]. destruct (MemCache.sweep_expired (cache s) (clock_at (ticks s))) as [n c].
  split; [|done]. split; [by split|]. by exists w.
Qed.

(** The runs of a worker are runs of the map of maps on the requests. *)
Context (Hclock : forall n, sane (clock_at n)) (Hio : forall n, io_at n = no_faults).

Lemma worker_runs_refine max threshold w tr w' :
  threshold = 0%nat \/ (forall io mfs l, prov l -> prov (Reclaim.reclaim io mfs l).2) ->
  worker_runs clock_at instant_at io_at threshold w tr w' -> forall A, store_ok max A (store w) ->
  exists A', Runs.map_runs (A, pub (store w)) (requests tr) (A', pub (store w')) /\ store_ok max A' (store w').
Proof.
  intros Hth. induction 1 as [w|w ns o r s1 tr w2 Hok Hrun _ IH|w tr w2 _ IH|w io tr w2 _ IH|w io merges tr w2 Ht _ IH]; intros A HA.
  - exists A. split; [constructor|done].
  - pose proof (Runs.op_refines clock_at instant_at io_at Hclock Hio max A (store w) ns o HA Hok) as Hpost.
    unfold wp in Hpost. rewrite Hrun in Hpost. destruct Hpost as (sp & evs & Hspec & HA1 & Hpub).
    destruct (IH _ HA1) as (A' & Hmr & HA'). exists A'. split; [|done]. econstructor; [exact Hspec|]. simpl. by rewrite <- Hpub.
  - destruct (sweep_keeps max A (store w) HA) as [HA1 Hpub]. unfold sweep_tick in IH.
    destruct (sweep_cache clock_at (store w)) as [r s]. cbn [store snd] in *. rewrite <- Hpub. by apply IH.
  - destruct (sync_keeps max A io (store w) HA) as [HA1 Hpub]. unfold sync_tick in IH.
    destruct (sync_logs io (store w)) as [r s]. cbn [store snd fst] in *. rewrite <- Hpub. by apply IH.
  - destruct Hth as [Hth|Hth]; [done|]. destruct (reclaim_keeps max A io threshold merges (store w) Hth HA) as [HA1 Hpub].
    unfold reclaim_tick in IH. destruct (reclaim_if_needed io threshold merges (store w)) as [r s].
    cbn [store snd] in *. rewrite <- Hpub. by apply IH.
Qed.
End Rounds.

(** ** What the clients see *)

Section Refines.
Context {crc_impl : CrcFast} {blake : Blake3} `{Mpsc} `{Memchr}.
Context (clock_at instant_at : nat -> Z) (io_at : nat -> faults).
Context (Hclock : forall n, sane (clock_at n)) (Hio : forall n, io_at n = no_faults).
Import ShardStore.

Lemma start_inv data_dir memory_bytes fanout_var threshold_var cs w :
  start data_dir memory_bytes fanout_var threshold_var cs = Some w ->
  open data_dir memory_bytes fanout_var threshold_var cs = Ok (store w) /\ sync_failures w = 0.
Proof. unfold start. destruct (open _ _ _ _ _); [|done]. by intros [= <-]. Qed.

(** C5: Clients cannot tell that the tasks of a worker run.  Take a worker started on
    an empty directory, and any interleaving of requests with rounds of the cache
    sweep, the log sync and the compaction, where syncs and merges fail in any way.
    The replies to the requests, and the events that subscribers get, are those of
    the map of maps on the requests alone; at the end the store has the contents that
    the requests made. *)
Theorem worker_refines_map (memory_per_shard : Z) (fanout_var threshold_var : option Z) (cs : chans)
    (threshold : nat) (w0 w : worker) (tr : list event) (Hmem : 0 <= memory_per_shard)
    (Hstart : start ∅ memory_per_shard fanout_var threshold_var cs = Some w0)
    (Hrun : worker_runs clock_at instant_at io_at threshold w0 tr w) :
  exists A, Runs.map_runs (∅, pub (store w0)) (requests tr) (A, pub (store w)) /\
    store_ok memory_per_shard A (store w).
Proof.
  apply start_inv in Hstart as [Hopen _].
  eapply worker_runs_refine; [exact Hclock|exact Hio|by right|exact Hrun|]. by eapply Runs.open_store_ok.
Qed.
End Refines.

(** ** Syncs *)

Section Syncs.
Context {crc_impl : CrcFast} {blake : Blake3} `{Mpsc} `{Memchr}.
Import ShardStore.

Lemma first_error_Ok {A} (rs : list (eresult A)) : first_error rs = Ok tt -> forall r, r ∈ rs -> is_ok r = true.
Proof.
  induction rs as [|[a|e] rs IH]; cbn [first_error]; intros He r Hr; [by apply elem_of_nil in Hr| |done].
  apply elem_of_cons in Hr as [->|Hr]; [done|by apply IH].
Qed.

Lemma first_error_Err {A} (rs : list (eresult A)) e : first_error rs = Err e -> exists r, r ∈ rs /\ is_ok r = false.
Proof.
  induction rs as [|[a|e'] rs IH]; cbn [first_error]; intros He; [done| |].
  - destruct (IH He) as (r & Hr & Hok). exists r. split; [by right|done].
  - exists (Err e'). split; [left|done].
Qed.

(** The sync of one log. *)
Lemma sync_one io l :
  (is_ok (NsLog.sync io l).1 = true -> NsLog.unsynced_bytes (NsLog.sync io l).2 <= 0) /\
  (is_ok (NsLog.sync io l).1 = false -> (NsLog.sync io l).2 = l /\ NsLog.unsynced_bytes l > 0 /\ f_sync io <> None).
Proof.
  unfold NsLog.sync, NsLog.sync_active, st_get, st_lift, st_modify, mbind, st_mbind, st_bind.
  case_decide as Hu; [destruct (f_sync io)|]; cbn; split; done || lia.
Qed.

(** All logs are synced, and the first error is the result. *)
Lemma sync_logs_each io s : exists rs s', sync_logs io s = (first_error rs, s') /\ same_rest s s' /\
  (forall ns l, namespaces s !! ns = Some l ->
    exists n, (NsLog.sync (io n) l).1 ∈ rs /\ namespaces s' !! ns = Some (NsLog.sync (io n) l).2) /\
  (forall r, r ∈ rs -> exists ns n l, namespaces s !! ns = Some l /\ r = (NsLog.sync (io n) l).1 /\
    namespaces s' !! ns = Some (NsLog.sync (io n) l).2).
Proof.
  destruct (each_ns_done io (fun _ io => NsLog.sync io) (open_names s) s (open_names_NoDup s)
    (fun ns => proj1 (open_names_elem s ns))) as (rs & s' & Hrun & [Hrest Hlen Hnamed _]).
  exists rs, s'. split_and!; [|done| |].
  - unfold sync_logs, mbind, st_mbind, st_bind, st_get, st_lift. by rewrite Hrun.
  - intros ns l Hl. assert (ns ∈ open_names s) as [j Hj]%list_elem_of_lookup by (apply open_names_elem; by exists l).
    destruct (Hnamed j ns Hj) as (n & l0 & Hl0 & Hr & Hl'). rewrite Hl in Hl0. injection Hl0 as <-.
    exists n. split; [by eapply list_elem_of_lookup_2|done].
  - intros r [j Hj]%list_elem_of_lookup.
    destruct (lookup_lt_is_Some_2 (open_names s) j) as [ns Hns]; [rewrite <- Hlen; by eapply lookup_lt_Some|].
    destruct (Hnamed j ns Hns) as (n & l & Hl & Hr & Hl'). exists ns, n, l. split_and!; [done|congruence|done].
Qed.

(** C20: A round of the sync task tells the truth about durability, whatever fails.
    Every open log is synced, also when the sync of another one fails, and nothing but
    the logs changes.  When the round counts as a success, no log has bytes that are
    not synced and the counter of failures in a row is 0.  When it counts as a failure,
    that counter and the metric go up by one, and some log had bytes to sync and is as
    it was, with its garbage not collected. *)
Theorem sync_tick_durable (io : nat -> faults) (w : worker) :
  let w' := sync_tick io w in
  same_rest (store w) (store w') /\
  (forall ns l, namespaces (store w) !! ns = Some l ->
    exists n, namespaces (store w') !! ns = Some (NsLog.sync (io n) l).2) /\
  if is_ok (sync_logs io (store w)).1
  then sync_failures w' = 0 /\ log_sync_failures_total (metrics w') = log_sync_failures_total (metrics w) /\
    forall ns l, namespaces (store w') !! ns = Some l -> NsLog.unsynced_bytes l <= 0
  else sync_failures w' = (sync_failures w + 1) mod 2 ^ 32 /\
    log_sync_failures_total (metrics w') = log_sync_failures_total (metrics w) + 1 /\
    exists ns l, namespaces (store w) !! ns = Some l /\ namespaces (store w') !! ns = Some l /\ NsLog.unsynced_bytes l > 0.
Proof.
  cbv zeta. destruct (sync_logs_each io (store w)) as (rs & s' & Hsync & Hrest & Hall & Hback).
  unfold sync_tick. rewrite Hsync. cbn [fst store sync_failures metrics log_sync_failures_total].
  split; [done|]. split; [intros ns l Hl; destruct (Hall ns l Hl) as (n & _ & ?); by exists n|].
  destruct (first_error rs) as [[]|e] eqn:He; cbn [is_ok after_sync]; (split; [done|]); (split; [done|]).
  - intros ns l' Hl'. destruct (namespaces (store w) !! ns) as [l|] eqn:Hl; cycle 1.
    { apply (proj2 (proj2 (proj2 (proj2 Hrest)))) in Hl. congruence. }
    destruct (Hall ns l Hl) as (n & Hr & Heq). rewrite Hl' in Heq. injection Heq as ->.
    apply sync_one. by apply (first_error_Ok rs).
  - destruct (first_error_Err rs e He) as (r & Hr & Hbad). destruct (Hback r Hr) as (ns & n & l & Hl & -> & Hl').
    destruct (proj2 (sync_one (io n) l) Hbad) as (Hsame & Hu & _). rewrite Hsame in Hl'. by exists ns, l.
Qed.

(** The results of the syncs of a run, and how many have failed since the last success. *)
Definition syncs (tr : list event) : list bool :=
  omap (fun e => match e with Synced ok => Some ok | _ => None end) tr.

Definition last_failures (results : list bool) : nat :=
  default (length results) (fst <$> list_find (fun ok => ok = true) (rev results)).

Lemma last_failures_snoc results ok :
  last_failures (results ++ [ok]) = if ok then 0%nat else S (last_failures results).
Proof.
  unfold last_failures. rewrite rev_app_distr, length_app. cbn [rev app list_find length].
  destruct ok; [by rewrite decide_True|]. rewrite decide_False by done.
  destruct (list_find _ (rev results)) as [[i b]|]; cbn; lia.
Qed.

Lemma last_failures_le results : (last_failures results <= length results)%nat.
Proof.
  induction results as [|ok results IH] using rev_ind; [done|].
  rewrite last_failures_snoc, length_app. destruct ok; cbn; lia.
Qed.

Definition count_sync (n : Z) (ok : bool) : Z := if ok then 0 else (n + 1) mod 2 ^ 32.

Lemma sync_tick_counts io w :
  sync_failures (sync_tick io w) = count_sync (sync_failures w) (is_ok (sync_logs io (store w)).1).
Proof. unfold sync_tick. by destruct (sync_logs io (store w)) as [[] s]. Qed.

Lemma worker_runs_counts clock_at instant_at io_at threshold w tr w' :
  worker_runs clock_at instant_at io_at threshold w tr w' ->
  sync_failures w' = foldl count_sync (sync_failures w) (syncs tr).
Proof.
  induction 1 as [w|w ns o r s1 tr w2 _ _ _ IH|w tr w2 _ IH|w io tr w2 _ IH|w io merges tr w2 _ _ IH]; [done|done| | |].
  - rewrite IH. unfold sweep_tick. by destruct (sweep_cache clock_at (store w)).
  - by rewrite IH, sync_tick_counts.
  - rewrite IH. unfold reclaim_tick. by destruct (reclaim_if_needed io threshold merges (store w)).
Qed.

Lemma count_syncs results : zlen results < 2 ^ 32 -> foldl count_sync 0 results = Z.of_nat (last_failures results).
Proof.
  induction results as [|ok results IH] using rev_ind; intros Hl; [done|].
  rewrite zlen_app in Hl. change (zlen [ok]) with 1 in Hl.
  rewrite foldl_snoc, IH, last_failures_snoc by lia. unfold count_sync. destruct ok; [done|].
  pose proof (last_failures_le results). unfold zlen in Hl. rewrite Z.mod_small; lia.
Qed.

(** The run [tr] of a worker from its start to [w]. *)
Definition ran (tr : list event) (w : worker) : Prop :=
  exists clock_at instant_at io_at threshold w0,
    sync_failures w0 = 0 /\ worker_runs clock_at instant_at io_at threshold w0 tr w.
End Syncs.

Section Readyz.
Context {crc_impl : CrcFast} {blake : Blake3} `{Mpsc} `{Memchr} `{Messages} `{FxHash} `{!HttpLib}.

(** C21: The readiness probe is exact.  In any runs of the workers, with any failing
    syncs, [/readyz] answers 503 when on some shard at least as many syncs in a row
    have failed, up to now, as the threshold says (that is, from the failure on that
    reaches the threshold), and 200 when on none; a success starts the count again.  No
    shard has done 2^32 syncs.  It changes nothing and asks no other shard. *)
Theorem readyz_exact clocks instants ios links merges pkg_version shard_idx n_shards metrics openapi
    (sync_failure_threshold : Z) (req : Request) (body : bytes) (c : list ShardStore.t)
    (trs : list (list event)) (ws : list worker)
    (Hran : Forall2 ran trs ws) (Hfew : Forall (fun tr => zlen (syncs tr) < 2 ^ 32) trs)
    (Hpath : path req = lit "/readyz") :
  let degraded := existsb (fun tr => sync_failure_threshold <=? Z.of_nat (last_failures (syncs tr))) trs in
  Http.route clocks instants ios links merges pkg_version shard_idx n_shards metrics openapi
    (sync_failures <$> ws) sync_failure_threshold req body c
  = (Ok (healthz_json pkg_version (if degraded then 503 else 200) (if degraded then lit "degraded" else lit "ok")), c).
Proof.
  cbv zeta. assert (existsb (fun f => sync_failure_threshold <=? f) (sync_failures <$> ws)
    = existsb (fun tr => sync_failure_threshold <=? Z.of_nat (last_failures (syncs tr))) trs) as Heq.
  { induction Hran as [|tr w trs ws (ck & inst & io & th & w0 & Hzero & Hrun) _ IH]; [done|].
    apply Forall_cons in Hfew as [Htr Hfew]. cbn [existsb fmap list_fmap].
    by rewrite (worker_runs_counts _ _ _ _ _ _ _ Hrun), Hzero, count_syncs, IH. }
  unfold Http.route. rewrite Hpath, Heq. reflexivity.
Qed.
End Readyz.

(** ** Concrete runs *)

Section Exec.
Context {crc_impl : CrcFast} {blake : Blake3} `{Mpsc} `{Memchr} `{!EqDecision json}.
Context (clock_at instant_at : nat -> Z) (io_at : nat -> faults) (threshold : nat).
Import ShardStore.

Inductive round :=
| DoRequest (ns : bytes) (o : op)
| DoSweep
| DoSync (io : nat -> faults)
| DoReclaim (io : nat -> faults) (merges : bytes -> list merge_faults).

(** Runs rounds one after the other while the callers keep to [op_ok]. *)
Fixpoint exec (rounds : list round) (w : worker) : list event * worker :=
  match rounds with
  | [] => ([], w)
  | DoRequest ns o :: rounds =>
      if Runs.op_okb ns o (store w) then
        let '(r, s1) := run_op clock_at instant_at io_at ns o (store w) in
        let '(tr, w2) := exec rounds (set_store s1 w) in
        (Served (Runs.mkStep ns o (clock_at (ticks (store w))) (instant_at (S (ticks (store w)))) r) :: tr, w2)
      else ([], w)
  | DoSweep :: rounds => let '(tr, w2) := exec rounds (sweep_tick clock_at w) in (Swept :: tr, w2)
  | DoSync io :: rounds =>
      let '(tr, w2) := exec rounds (sync_tick io w) in (Synced (is_ok (sync_logs io (store w)).1) :: tr, w2)
  | DoReclaim io merges :: rounds =>
      if decide (threshold = 0)%nat then ([], w) else
      let '(tr, w2) := exec rounds (reclaim_tick threshold io merges w) in (Reclaimed :: tr, w2)
  end.

Lemma exec_worker_runs rounds : forall w,
  worker_runs clock_at instant_at io_at threshold w (exec rounds w).1 (exec rounds w).2.
Proof.
  induction rounds as [|[ns o| |io|io merges] rounds IH]; intros w; cbn [exec]; [constructor|..].
  - destruct (Runs.op_okb ns o (store w)) eqn:Hok; [|constructor].
    destruct (run_op _ _ _ _ _ (store w)) as [r s1] eqn:Hrun. specialize (IH (set_store s1 w)).
    destruct (exec rounds (set_store s1 w)) as [tr w2]. by econstructor; [apply Runs.op_okb_ok|..].
  - specialize (IH (sweep_tick clock_at w)). destruct (exec rounds (sweep_tick clock_at w)). by constructor.
  - specialize (IH (sync_tick io w)). destruct (exec rounds (sync_tick io w)). by constructor.
  - case_decide; [constructor|]. specialize (IH (reclaim_tick threshold io merges w)).
    destruct (exec rounds (reclaim_tick threshold io merges w)). by econstructor.
Qed.
End Exec.

#[local] Existing Instance WatchRegistry.bytes_json.
#[local] Existing Instance WatchRegistry.list_mpsc.

Definition ex_worker : worker :=
  default (mkWorker Runs.ex_shard 0 (mkMetrics 0 0 0 0 0 0 0 0)) (start ∅ 200 None None []).

(** The fsync of the active file fails. *)
Definition fsync_fails (n : nat) : faults := mkFaults None None None None None None (Some (OtherIo "EIO")).

(** Two sets of a key with two failed syncs, a sweep, a sync and a read between and
    after them, and a round of the compaction task. *)
Definition ex_rounds : list round :=
  let set v := DoRequest DEFAULT_NS (OpSet (lit "k") v Runs.no_options) in
  [ set (lit "1"); DoSync fsync_fails; DoSweep; DoSync fsync_fails;
    set (lit "2"); DoSync Runs.ex_io; DoReclaim Runs.ex_io (fun _ => []);
    DoRequest DEFAULT_NS (OpGet (lit "k")); DoSync fsync_fails ].

Definition ex_served := exec Runs.ex_clock Runs.ex_instant Runs.ex_io 1 ex_rounds ex_worker.

(** The syncs that had something to sync and failed are the first two; at the third
    failing fsync there was nothing left to sync. *)
Lemma ex_events :
  syncs ex_served.1 = [false; false; true; true] /\
  Runs.st_reply <$> requests ex_served.1
    = [Ok RUnit; Ok RUnit; Ok (REntry (Some (mkEntry (lit "2") None None 1004)))] /\
  log_sync_failures_total (metrics ex_served.2) = 2.
Proof. vm_compute. repeat split. Qed.

Lemma worker_refines_map_witness :
  start ∅ 200 None None [] = Some ex_worker /\
  exists A, Runs.map_runs (∅, pub (store ex_worker)) (requests ex_served.1) (A, pub (store ex_served.2)) /\
    store_ok 200 A (store ex_served.2).
Proof.
  split; [reflexivity|].
  apply (worker_refines_map Runs.ex_clock Runs.ex_instant Runs.ex_io) with (fanout_var := None) (threshold_var := None)
    (cs := []) (threshold := 1%nat).
  - intros n. unfold sane, Runs.ex_clock. lia.
  - done.
  - lia.
  - reflexivity.
  - apply exec_worker_runs.
Defined.

#[local] Existing Instance sum_hash.
#[local] Existing Instance no_messages.
#[local] Existing Instance plain_http.

(** A shard that has just failed twice, and one that has recovered. *)
Definition ex_failing := exec Runs.ex_clock Runs.ex_instant Runs.ex_io 1 (take 4 ex_rounds) ex_worker.

Lemma readyz_exact_witness :
  Http.route ex_clocks ex_instants ex_ios all_up (fun _ => []) (lit "1") 0 2 [] []
    (sync_failures <$> [ex_served.2; ex_failing.2]) 2 (mkRequest GET (lit "/readyz") [] []) [] []
  = (Ok (healthz_json (lit "1") 503 (lit "degraded")), []).
Proof.
  apply (readyz_exact ex_clocks ex_instants ex_ios all_up (fun _ => []) (lit "1") 0 2 [] [] 2
    (mkRequest GET (lit "/readyz") [] []) [] [] [ex_served.1; ex_failing.1] [ex_served.2; ex_failing.2]).
  - repeat constructor; do 5 eexists; (split; [|apply exec_worker_runs]); reflexivity.
  - repeat constructor; vm_compute; reflexivity.
  - reflexivity.
Defined.
End Worker.
