(* ===== verification/Restart.v ===== *)
(** * From one process to the next

    A worker ends by syncing and sealing its logs ([Worker.exit]); the next process opens
    what is on disk ([Worker.start] on [Worker.on_disk]).  [worker_restart] says that the
    contents are those the requests made.  The journal of each log, which
    [NsRecover] needs, is the provenance that the store carries through the run. *)

From stdpp Require Import base tactics list gmap strings.
From Stdlib Require Import ZArith Lia.
From S2P Require Import Prelude Record Index LogFile ValueStore Recover NsLog NsRepr NsSpec Reclaim NsBatch NsSim NsOk NsContract NsJournal NsRecover Ascii Glob Cache Watch Stream Store StoreInv StoreSpec StoreMany StoreRefine StoreRun StoreEach Worker.

Open Scope Z_scope.

Section Archive.
Context {crc_impl : CrcFast} {blake : Blake3}.

(** A log whose files are those of a log in service since it was created. *)
Definition archived : Provenance.
Proof.
  refine {| prov l := 0 <= NsLog.last_tstamp l /\ journaled [] 0 l |}.
  - intros cfg _. split; [done|apply fresh_journaled].
  - intros c s ns r ns' [Hl Hj] Hs Hok Hc Hrun. split.
    + destruct (simulation _ _ _ _ _ Hs Hok Hrun) as (s' & [Hle _] & Hs').
      rewrite (sim_last _ _ Hs), (sim_last _ _ Hs') in Hle. lia.
    + exact (journal_step [] 0 c s ns r ns' Hs Hj Hok Hc (fun _ => eq_refl) Hl Hrun).
  - intros v ns [Hl Hj]. split; [done|]. by apply (journaled_same [] 0 ns).
Defined.

(** What a restart asks of a log: no deletes or expiry changes in its files, whose
    sizes are 64 bits wide, and a file id left. *)
Record plain (l : NsLog.t) : Prop := {
  pl_sealed : plain_sealed l;
  pl_active : only_puts (NsLog.active l) = true;
  pl_id : LogFile.file_id (NsLog.active l) < u32_max;
}.

Lemma plain_same l l' :
  NsLog.active l' = NsLog.active l -> NsLog.sealed l' = NsLog.sealed l -> plain l -> plain l'.
Proof. intros Ha Hs [Hp Ho Hi]. unfold plain_sealed in *. split; unfold plain_sealed; by rewrite ?Ha, ?Hs. Qed.

Lemma sync_files io l :
  NsLog.active (NsLog.sync io l).2 = NsLog.active l /\ NsLog.sealed (NsLog.sync io l).2 = NsLog.sealed l.
Proof.
  destruct (NsLog.sync io l) as [r l'] eqn:Hl. apply sync_cases in Hl as [[-> ->]|(k & _ & -> & ->)]; [|done].
  unfold synced. cbn. by case_decide.
Qed.

(** The log of a namespace through the end of one process and the start of the next. *)
Lemma log_restarts `{Mpsc} `{Memchr} sp l hook io l1 cfg :
  represents sp l -> prov (Provenance := archived) l -> plain l ->
  NsLog.seal_active_for_shutdown hook io (NsLog.freeze l) = (Ok tt, l1) -> is_u64 (LogFile.size (NsLog.active l1)) ->
  exists l', NsLog.open (NsLog.disk l1) (ValueStore.blobs (NsLog.values l1)) cfg = Ok l' /\
    represents (mkSpace (sp_map sp) (NsLog.last_tstamp l')) l' /\ NsLog.last_tstamp l' <= sp_last sp.
Proof.
  intros ([[x Hx] _ _ _] & Hlast & Hsound) [Hpos HJ] [Hps Hop Hid] Hseal Hu. cbn [as_map] in Hx.
  destruct (HJ Hid) as (hist & rs & Hj & _).
  assert (repr_x x (sp_map sp) (NsLog.freeze l)) as Hx' by (by eapply repr_same).
  assert (NsLog.values l1 = NsLog.values (NsLog.freeze l)) as Hv.
  { destruct hook; [discriminate Hseal|]. apply seal_step in Hseal as [(k & _ & [=] & _)|Hseal].
    unfold NsLog.write_active_footer in Hseal. destruct (LogFile.write_footer _ _ _ _ _) as [rf a].
    injection Hseal as _ <-. cbn. by case_decide. }
  destruct (restart_reopens hist rs x (sp_map sp) (NsLog.freeze l) hook io l1 (ValueStore.blobs (NsLog.values l1)) cfg)
    as (l' & Hopen & Hre); [done..|by rewrite Hv|].
  exists l'. split; [done|]. pose proof Hre as [Hi _ _ Hr _ Hf Hfl Hl]. split; [split_and!|].
  - split; cbn [as_map as_last as_frozen]; [by exists none|done|by rewrite Hf|by rewrite Hfl].
  - done.
  - done.
  - rewrite Hlast. apply (reopened_tstamp x (sp_map sp) (NsLog.freeze l) l'); [done..| |done]. by rewrite Hi.
Qed.
End Archive.

(** ** The directory *)

Section Dirs.
Context {crc_impl : CrcFast} {blake : Blake3} `{Mpsc} `{Memchr}.
Import ShardStore.

Lemma open_dirs_ok config dirs : forall acc,
  NoDup dirs.*1 ->
  (forall name files blobs, (name, (files, blobs)) ∈ dirs -> exists l, NsLog.open files blobs config = Ok l) ->
  exists m, open_dirs config dirs acc = Ok m /\
    (forall name files blobs l, (name, (files, blobs)) ∈ dirs -> NsLog.open files blobs config = Ok l -> m !! name = Some l) /\
    (forall name, name ∉ dirs.*1 -> m !! name = acc !! name).
Proof.
  induction dirs as [|[name [files blobs]] dirs IH]; intros acc Hnd Hall.
  { exists acc. split_and!; [done| |done]. intros ???? Hin. by apply elem_of_nil in Hin. }
  apply NoDup_cons in Hnd as [Hn Hnd]. destruct (Hall name files blobs) as [l Hl]; [left|].
  destruct (IH (<[name := l]> acc) Hnd) as (m & Hm & Hin & Hout).
  { intros n f b Hd. apply (Hall n f b). by right. }
  exists m. cbn [open_dirs]. rewrite Hl. split_and!; [done| |].
  - intros n f b l0 [[= -> -> ->]|Hd]%elem_of_cons Hl0; [|by eapply Hin].
    rewrite Hl in Hl0. injection Hl0 as <-. rewrite Hout by done. apply lookup_insert_eq.
  - intros n Hni. cbn in Hni. rewrite Hout by set_solver. apply lookup_insert_ne. set_solver.
Qed.

(** The directories with valid names of a store that knows them all. *)
Lemma on_disk_valid s ns :
  (forall ns, is_valid_ns_name ns = true -> namespaces s !! ns = None -> data_dir s !! ns = None) ->
  is_valid_ns_name ns = true ->
  Worker.on_disk s !! ns = (fun l => (NsLog.disk l, ValueStore.blobs (NsLog.values l))) <$> namespaces s !! ns.
Proof.
  intros Hd Hv. unfold Worker.on_disk. rewrite lookup_union, lookup_fmap.
  destruct (namespaces s !! ns) as [l|] eqn:Hl; cbn; [by destruct (data_dir s !! ns)|]. by rewrite Hd.
Qed.
End Dirs.

(** ** The end of a process *)

Section Exit.
Context {crc_impl : CrcFast} {blake : Blake3} `{Mpsc} `{Memchr}.
Import ShardStore.

(** A worker that ends without an error has sealed every log. *)
Lemma exit_seals io hook w s1 :
  Worker.exit io hook w = (false, s1) ->
  exists s0, s0 = (sync_logs io (Worker.store w)).2 /\ same_rest s0 s1 /\
    forall ns l, namespaces s0 !! ns = Some l -> exists n l1,
      NsLog.seal_active_for_shutdown (hook ns) (io n) (NsLog.freeze l) = (Ok tt, l1) /\ namespaces s1 !! ns = Some l1.
Proof.
  unfold Worker.exit. destruct (sync_logs io (Worker.store w)) as [r0 s0]. intros He. exists s0. split; [done|].
  unfold seal_all_for_shutdown, mbind, st_mbind, st_bind, st_get in He.
  destruct (each_open io (fun _ _ => st_modify NsLog.freeze) s0 s0) as (rs1 & sf & Hrun1 & Hrest1 & _ & Hfreeze); [done|].
  rewrite Hrun1 in He. pose proof Hrest1 as (_ & _ & _ & _ & Hdom).
  assert (forall ns, ns ∈ open_names s0 -> is_Some (namespaces sf !! ns)) as Hopen.
  { intros ns Hns%open_names_elem. apply not_eq_None_Some. rewrite <- Hdom. by apply not_eq_None_Some. }
  destruct (each_ns_done io (fun ns io => NsLog.seal_active_for_shutdown (hook ns) io) (open_names s0) sf
    (open_names_NoDup s0) Hopen) as (rs2 & s2 & Hrun2 & [Hrest2 _ Hnamed _]).
  rewrite Hrun2 in He. unfold st_lift in He. destruct (first_error rs2) as [[]|e] eqn:Hfe; [|discriminate He].
  injection He as <-. split; [by eapply same_rest_trans|]. intros ns l Hl.
  assert (ns ∈ open_names s0) as [j Hj]%list_elem_of_lookup by (apply open_names_elem; by exists l).
  destruct (Hnamed j ns Hj) as (n & lf & Hlf & Hr & Hl1). destruct (Hfreeze ns l Hl) as [n0 Hf].
  rewrite Hlf in Hf. injection Hf as ->. exists n. eexists. split; [|exact Hl1].
  apply list_elem_of_lookup_2 in Hr. apply (Worker.first_error_Ok rs2 Hfe) in Hr. cbn [st_modify snd] in *.
  destruct (NsLog.seal_active_for_shutdown _ _ _) as [[[]|e] l1]; [done|discriminate Hr].
Qed.

(** The contents that the next process finds: the same maps, with the last revisions
    that are on disk. *)
Definition reopened_contents (A : contents) (m : gmap bytes NsLog.t) : contents :=
  map_imap (fun ns l => Some (mkSpace (sp_map (at_ns A ns)) (NsLog.last_tstamp l))) m.

Lemma at_reopened A m ns :
  at_ns (reopened_contents A m) ns
  = match m !! ns with Some l => mkSpace (sp_map (at_ns A ns)) (NsLog.last_tstamp l) | None => mkSpace ∅ 0 end.
Proof. unfold at_ns at 1, reopened_contents. rewrite map_lookup_imap. by destruct (m !! ns). Qed.

Definition restarts (A : contents) (ns : bytes) (l : NsLog.t) : Prop :=
  represents (mkSpace (sp_map (at_ns A ns)) (NsLog.last_tstamp l)) l /\ NsLog.last_tstamp l <= sp_last (at_ns A ns).

(** Every namespace of [s] opens from its files, and there are no others. *)
Record reopens (config : LogConfig) (A : contents) (s : t) : Prop := {
  rs_disk : forall ns, is_valid_ns_name ns = true -> namespaces s !! ns = None -> data_dir s !! ns = None;
  rs_closed : forall ns, namespaces s !! ns = None -> at_ns A ns = mkSpace ∅ 0;
  rs_valid : forall ns l, namespaces s !! ns = Some l -> is_valid_ns_name ns = true;
  rs_open : forall ns l, namespaces s !! ns = Some l ->
    exists l', NsLog.open (NsLog.disk l) (ValueStore.blobs (NsLog.values l)) config = Ok l' /\ restarts A ns l';
}.

Abbreviation valid_dirs s := (filter (fun d => is_valid_ns_name d.1 = true) (map_to_list (Worker.on_disk s))).

Lemma valid_dirs_elem config A s name d : reopens config A s ->
  (name, d) ∈ valid_dirs s <->
  (fun l => (NsLog.disk l, ValueStore.blobs (NsLog.values l))) <$> namespaces s !! name = Some d.
Proof.
  intros [Hdisk _ Hvalid _]. rewrite list_elem_of_filter, elem_of_map_to_list. cbn. split.
  - intros [Hv Hd]. by rewrite <- on_disk_valid.
  - intros Hd. destruct (namespaces s !! name) as [l|] eqn:Hl; [|done]. pose proof (Hvalid _ _ Hl) as Hv.
    split; [done|]. by rewrite on_disk_valid, Hl.
Qed.

Lemma dirs_reopen config A s : reopens config A s ->
  exists m, open_dirs config (valid_dirs s) ∅ = Ok m /\
    (forall ns, m !! ns = None <-> namespaces s !! ns = None) /\ map_Forall (restarts A) m.
Proof.
  intros Hs. pose proof Hs as [_ _ _ Hopen].
  destruct (open_dirs_ok config (valid_dirs s) ∅) as (m & Hm & Hin & Hout).
  - eapply sublist_NoDup; [apply (NoDup_fst_map_to_list (Worker.on_disk s))|]. apply fmap_sublist, sublist_filter.
  - intros name files blobs Hd%(valid_dirs_elem _ _ _ _ _ Hs). destruct (namespaces s !! name) as [l|] eqn:Hl; [|done].
    injection Hd as <- <-. destruct (Hopen _ _ Hl) as (l' & ? & _). by exists l'.
  - assert (forall ns l, namespaces s !! ns = Some l -> exists l', m !! ns = Some l' /\ restarts A ns l') as Hsome.
    { intros ns l Hl. destruct (Hopen _ _ Hl) as (l' & Hl' & Hr). exists l'. split; [|done].
      eapply Hin; [|exact Hl']. apply (valid_dirs_elem _ _ _ _ _ Hs). by rewrite Hl. }
    assert (forall ns, namespaces s !! ns = None -> m !! ns = None) as Hnone.
    { intros ns Hl. rewrite Hout; [apply lookup_empty|].
      intros ([ns' d] & -> & Hd%(valid_dirs_elem _ _ _ _ _ Hs))%list_elem_of_fmap. cbn in Hl. by rewrite Hl in Hd. }
    exists m. split_and!; [done| |].
    + intros ns. split; [|apply Hnone]. intros Hn. destruct (namespaces s !! ns) as [l|] eqn:Hl; [|done].
      destruct (Hsome ns l Hl) as (l' & ? & _). congruence.
    + intros ns l' Hl'. destruct (namespaces s !! ns) as [l|] eqn:Hl; [|by rewrite (Hnone ns Hl) in Hl'].
      destruct (Hsome ns l Hl) as (l0 & Hl0 & ?). congruence.
Qed.

(** The default namespace is opened when it was not there. *)
Lemma default_reopens (config : LogConfig) (A : contents) (m : gmap bytes NsLog.t) : map_Forall (restarts A) m ->
  (forall ns, m !! ns = None -> at_ns A ns = mkSpace ∅ 0) ->
  exists m', match m !! DEFAULT_NS with
      | Some _ => Ok m
      | None => nslog ← NsLog.open ∅ ∅ config; Ok (<[DEFAULT_NS := nslog]> m)
      end = Ok m' /\ map_Forall (restarts A) m' /\
    (forall ns, m' !! ns = None -> m !! ns = None) /\
    forall ns l, m' !! ns = Some l -> is_Some (m !! ns) \/ ns = DEFAULT_NS.
Proof.
  intros Hm Hclosed. destruct (m !! DEFAULT_NS) as [l|] eqn:Hd; [exists m; split_and!; by eauto|].
  rewrite open_fresh. eexists. split; [reflexivity|]. split_and!.
  - apply map_Forall_insert_2; [|done]. unfold restarts. rewrite (Hclosed _ Hd). split; [apply represents_fresh|done].
  - intros ns [Hn _]%lookup_insert_None. done.
  - intros ns l [[<- _]|[_ Hl]]%lookup_insert_Some; [by right|left; by exists l].
Qed.

(** Opening a directory in which every namespace restarts. *)
Lemma open_reopens A s memory_bytes fanout_var threshold_var cs :
  0 <= memory_bytes -> reopens (config_from_env fanout_var threshold_var) A s ->
  exists s2 A', open (Worker.on_disk s) memory_bytes fanout_var threshold_var cs = Ok s2 /\
    store_ok memory_bytes A' s2 /\
    forall ns, sp_map (at_ns A' ns) = sp_map (at_ns A ns) /\ sp_last (at_ns A' ns) <= sp_last (at_ns A ns).
Proof.
  intros Hmem Hs. unfold open. set (config := config_from_env _ _) in *.
  destruct (dirs_reopen config A s Hs) as (m & Hm & Hdom & Hre). rewrite Hm. cbn [mbind result_bind].
  pose proof Hs as [Hdisk Hclosed Hvalid _].
  destruct (default_reopens config A m Hre) as (m' & Hm' & Hre' & Hnone & Hsome); [intros ns Hn; by apply Hclosed, Hdom|].
  rewrite Hm'. cbn [mbind result_bind]. eexists. exists (reopened_contents A m'). split; [reflexivity|].
  split; [split; [split|]|]; cbn [namespaces data_dir cache config].
  - intros ns l Hl. rewrite at_reopened, Hl. split; [|by apply Hre'].
    destruct (Hsome ns l Hl) as [[l0 Hl0]| ->]; [|done].
    destruct (namespaces s !! ns) as [l1|] eqn:Hl1; [by eapply Hvalid|]. apply Hdom in Hl1. congruence.
  - intros ns Hn. by rewrite at_reopened, Hn.
  - intros ns Hv Hn. rewrite on_disk_valid by done. apply Hnone, Hdom in Hn. by rewrite Hn.
  - done.
  - apply Runs.config_fanout.
  - exists ∅. split; [|by intros ck d]. apply (MemCache.good_after memory_bytes [] Hmem).
  - intros ns. rewrite at_reopened. destruct (m' !! ns) as [l|] eqn:Hl; [split; [done|by apply Hre']|].
    rewrite Hclosed by (by apply Hdom, Hnone). done.
Qed.
End Exit.

(** ** The restart *)

Section Restart.
Context {crc_impl : CrcFast} {blake : Blake3} `{Mpsc} `{Memchr}.
Context (clock_at instant_at : nat -> Z) (io_at : nat -> faults).
Context (Hclock : forall n, sane (clock_at n)) (Hio : forall n, io_at n = no_faults).
Import ShardStore.

(** What was sealed opens again. *)
Lemma exit_reopens max A io hook w s1 config :
  store_ok (logs := archived) max A (Worker.store w) -> Worker.exit io hook w = (false, s1) ->
  (forall ns l, namespaces (Worker.store w) !! ns = Some l -> plain l) ->
  (forall ns l, namespaces s1 !! ns = Some l -> is_u64 (LogFile.size (NsLog.active l))) ->
  reopens config A s1.
Proof.
  intros Hs Hexit Hplain Hu. destruct (exit_seals _ _ _ _ Hexit) as (s0 & Hs0 & (_ & Hdir & _ & _ & Hdom) & Hseal).
  destruct (Worker.sync_keeps (logs := archived) max A io _ Hs) as [[[Ho Hc Hd Hp _] _] _]. rewrite <- Hs0 in *.
  assert (forall ns l, namespaces s0 !! ns = Some l -> plain l) as Hplain0.
  { intros ns l Hl. destruct (Worker.sync_logs_each io (Worker.store w)) as (rs & s' & Hsync & Hrest & Hall & _).
    rewrite Hsync in Hs0. cbn in Hs0. subst s'. destruct Hrest as (_ & _ & _ & _ & Hdom0).
    destruct (namespaces (Worker.store w) !! ns) as [l0|] eqn:Hl0; [|apply Hdom0 in Hl0; congruence].
    destruct (Hall ns l0 Hl0) as (n & _ & Hn). rewrite Hl in Hn. injection Hn as ->.
    destruct (sync_files (io n) l0). eapply plain_same; [done..|by eapply Hplain]. }
  assert (forall ns l1, namespaces s1 !! ns = Some l1 -> exists l n, namespaces s0 !! ns = Some l /\
    NsLog.seal_active_for_shutdown (hook ns) (io n) (NsLog.freeze l) = (Ok tt, l1)) as Hback.
  { intros ns l1 Hl1. destruct (namespaces s0 !! ns) as [l|] eqn:Hl; [|apply Hdom in Hl; congruence].
    destruct (Hseal ns l Hl) as (n & l2 & Hl2 & Heq). exists l, n. split; [done|congruence]. }
  split.
  - intros ns Hv Hn. rewrite Hdir. apply Hd; [done|by apply Hdom].
  - intros ns Hn. by apply Hc, Hdom.
  - intros ns l1 Hl1. destruct (Hback ns l1 Hl1) as (l & n & Hl & _). by eapply Ho.
  - intros ns l1 Hl1. destruct (Hback ns l1 Hl1) as (l & n & Hl & Hse). destruct (Ho ns l Hl) as [_ Hr].
    destruct (log_restarts (at_ns A ns) l (hook ns) (io n) l1 config Hr (Hp ns l Hl) (Hplain0 ns l Hl) Hse (Hu ns l1 Hl1))
      as (l' & ? & ? & ?). by exists l'.
Qed.

(** C8: What clients wrote is there after a restart.  Take a worker started on an
    empty directory, with the compaction task off, any requests that leave no deletes
    and no expiry changes in the files, and any rounds of the sweep and the sync, which
    may fail.  When the worker then ends without an error, the next process opens
    the directory, with any memory and configuration, and its store has in every
    namespace exactly the entries that the requests made, with their values, metadata,
    expiries and revisions, and answers as the map of maps from there. *)
Theorem worker_restart (memory memory' : Z) (fanout_var threshold_var fanout_var' threshold_var' : option Z) (cs cs' : chans)
    (w0 w : Worker.worker) (tr : list Worker.event) (io : nat -> faults) (hook : bytes -> bool) (s1 : t)
    (Hmem : 0 <= memory) (Hmem' : 0 <= memory')
    (Hstart : Worker.start ∅ memory fanout_var threshold_var cs = Some w0)
    (Hrun : Worker.worker_runs clock_at instant_at io_at 0 w0 tr w)
    (Hplain : forall ns l, namespaces (Worker.store w) !! ns = Some l -> plain l)
    (Hexit : Worker.exit io hook w = (false, s1))
    (Hsize : forall ns l, namespaces s1 !! ns = Some l -> is_u64 (LogFile.size (NsLog.active l))) :
  exists A A' w2, Runs.map_runs (∅, pub (Worker.store w0)) (Worker.requests tr) (A, pub (Worker.store w)) /\
    Worker.start (Worker.on_disk s1) memory' fanout_var' threshold_var' cs' = Some w2 /\
    store_ok memory' A' (Worker.store w2) /\
    forall ns, sp_map (at_ns A' ns) = sp_map (at_ns A ns) /\ sp_last (at_ns A' ns) <= sp_last (at_ns A ns).
Proof.
  apply Worker.start_inv in Hstart as [Hopen _].
  destruct (Worker.worker_runs_refine (logs := archived) clock_at instant_at io_at Hclock Hio memory 0 w0 tr w
    (or_introl eq_refl) Hrun ∅) as (A & Hmr & HA); [by eapply Runs.open_store_ok|].
  destruct (open_reopens A s1 memory' fanout_var' threshold_var' cs' Hmem') as (s2 & A' & Hopen2 & HA' & Hsame).
  { by eapply exit_reopens. }
  exists A, A'. unfold Worker.start. rewrite Hopen2. eexists. split; [exact Hmr|]. split; [reflexivity|]. by split.
Qed.
End Restart.

(** ** A concrete restart *)

#[local] Existing Instance WatchRegistry.bytes_json.
#[local] Existing Instance WatchRegistry.list_mpsc.

(** Sets in two namespaces, with an expiry and metadata, a failed sync and a sweep. *)
Definition ex_session : list Worker.round :=
  [ Worker.DoRequest DEFAULT_NS (OpSet (lit "k") (lit "1") Runs.no_options);
    Worker.DoSync Worker.fsync_fails;
    Worker.DoRequest (lit "db1") (OpMset [(lit "a", lit "1"); (lit "b", lit "2")]);
    Worker.DoSweep;
    Worker.DoRequest DEFAULT_NS (OpSet (lit "k") (lit "2") (mkSetOptions (Some 500) (Some (lit "{}")) false)) ].

Definition ex_ended := Worker.exec Runs.ex_clock Runs.ex_instant Runs.ex_io 0 ex_session Worker.ex_worker.

Definition no_hook (ns : bytes) : bool := false.
Definition ex_sealed_shard : ShardStore.t := (Worker.exit Runs.ex_io no_hook ex_ended.2).2.

Definition plainb (l : NsLog.t) : bool :=
  bool_decide (map_Forall (fun _ f => is_u64 (LogFile.size f) /\ only_puts f = true) (NsLog.sealed l) /\
    only_puts (NsLog.active l) = true /\ LogFile.file_id (NsLog.active l) < u32_max).

Lemma plainb_ok l : plainb l = true -> plain l.
Proof. intros (Hs & Ha & Hi)%bool_decide_eq_true. by split. Qed.

Lemma all_logs (P : NsLog.t -> bool) (m : gmap bytes NsLog.t) :
  forallb (fun nl => P nl.2) (map_to_list m) = true -> forall ns l, m !! ns = Some l -> P l = true.
Proof.
  rewrite forallb_forall. intros Hall ns l Hl. apply (Hall (ns, l)).
  by apply list_elem_of_In, elem_of_map_to_list.
Qed.

Lemma worker_restart_witness :
  length (Worker.requests ex_ended.1) = 3%nat /\
  exists A A' w2, Runs.map_runs (∅, pub (Worker.store Worker.ex_worker)) (Worker.requests ex_ended.1) (A, pub (Worker.store ex_ended.2)) /\
    Worker.start (Worker.on_disk ex_sealed_shard) 100 (Some 4) None [] = Some w2 /\
    store_ok 100 A' (Worker.store w2) /\
    forall ns, sp_map (at_ns A' ns) = sp_map (at_ns A ns) /\ sp_last (at_ns A' ns) <= sp_last (at_ns A ns).
Proof.
  split; [vm_compute; reflexivity|].
  apply (worker_restart Runs.ex_clock Runs.ex_instant Runs.ex_io) with (memory := 200) (fanout_var := None)
    (threshold_var := None) (cs := []) (io := Runs.ex_io) (hook := no_hook).
  - intros n. unfold sane, Runs.ex_clock. lia.
  - done.
  - lia.
  - lia.
  - reflexivity.
  - apply Worker.exec_worker_runs.
  - intros ns l Hl. apply plainb_ok. revert ns l Hl. apply all_logs. vm_compute. reflexivity.
  - vm_compute. reflexivity.
  - intros ns l Hl. refine (proj1 (bool_decide_eq_true _) _). revert ns l Hl.
    apply (all_logs (fun l => bool_decide (is_u64 (LogFile.size (NsLog.active l))))). vm_compute. reflexivity.
Defined.
