(* ===== verification/Js.v ===== *)
(** * JavaScript

    What the SDK ([sdk/ts]) uses of the language: numbers, the 32-bit operators,
    strings, property values with strict equality, and [Map].  A number is an IEEE
    double, here [spec_float] with the precision and the exponents of [binary64]; a
    string is its list of UTF-16 code units. *)

From stdpp Require Import base tactics numbers list strings.
From Stdlib Require Import ZArith Lia SpecFloat.
From S2P Require Import Prelude Ascii.

Open Scope Z_scope.

(** ** The 32-bit operators *)

Definition to_uint32 (x : Z) : Z := x mod 2 ^ 32.
Definition to_int32 (x : Z) : Z :=
  let u := x mod 2 ^ 32 in if u <? 2 ^ 31 then u else u - 2 ^ 32.

Definition js_xor (a b : Z) : Z := to_int32 (Z.lxor (to_int32 a) (to_int32 b)).
Definition js_and (a b : Z) : Z := to_int32 (Z.land (to_int32 a) (to_int32 b)).
Definition js_shl (a k : Z) : Z := to_int32 (Z.shiftl (to_int32 a) k).
(** [a >>> k]. *)
Definition js_ushr (a k : Z) : Z := Z.shiftr (to_uint32 a) k.

(** ** Strings *)

Notation js_string := (list Z).
Definition is_units (s : js_string) : Prop := Forall (fun c => 0 <= c < 2 ^ 16) s.

#[export] Instance is_units_dec s : Decision (is_units s).
Proof. unfold is_units. apply _. Defined.

(** ** Numbers *)

Notation number := spec_float.
Definition num (z : Z) : number := binary_normalize 53 1024 z 0 false.
Definition num_ltb (a b : number) : bool := SFltb a b.
Definition num_leb (a b : number) : bool := SFleb a b.
Definition num_eqb (a b : number) : bool := SFeqb a b.
Definition num_add (a b : number) : number := SFadd 53 1024 a b.
Definition num_sub (a b : number) : number := SFsub 53 1024 a b.
Definition num_mul (a b : number) : number := SFmul 53 1024 a b.
Definition num_div (a b : number) : number := SFdiv 53 1024 a b.

(** [Math.floor], [Math.ceil] and [Math.min]. *)
Definition num_floor (a : number) : number :=
  match a with
  | S754_finite s m e => if 0 <=? e then a else num ((if s then Z.neg m else Z.pos m) / 2 ^ (- e))
  | _ => a
  end.

Definition num_ceil (a : number) : number := SFopp (num_floor (SFopp a)).

Definition num_min (a b : number) : number :=
  match a, b with
  | S754_nan, _ | _, S754_nan => S754_nan
  | S754_zero s, S754_zero s' => S754_zero (s || s')
  | _, _ => if num_ltb b a then b else a
  end.

(** ** Values

    A primitive, or a reference to an object: two references are equal when they are
    the same object. *)
Inductive value :=
  | Undefined
  | Null
  | Bool (b : bool)
  | Num (n : number)
  | Str (s : js_string)
  | Ref (object : Z).

(** [===]. *)
Definition strict_equal (a b : value) : bool :=
  match a, b with
  | Undefined, Undefined | Null, Null => true
  | Bool x, Bool y => eqb x y
  | Num x, Num y => num_eqb x y
  | Str x, Str y => x =b y
  | Ref x, Ref y => x =? y
  | _, _ => false
  end.

(** [a ?? b]. *)
Definition nullish (a b : value) : value :=
  match a with Undefined | Null => b | _ => a end.

(** ** [Map], in insertion order *)

Definition js_map (A : Type) : Type := list (js_string * A).

Fixpoint map_get {A} (k : js_string) (m : js_map A) : option A :=
  match m with
  | [] => None
  | (k', v) :: m => if k =b k' then Some v else map_get k m
  end.

(** A key that is present keeps its place. *)
Fixpoint map_set {A} (k : js_string) (v : A) (m : js_map A) : js_map A :=
  match m with
  | [] => [(k, v)]
  | (k', v') :: m => if k =b k' then (k', v) :: m else (k', v') :: map_set k v m
  end.

Fixpoint map_delete {A} (k : js_string) (m : js_map A) : js_map A :=
  match m with
  | [] => []
  | (k', v) :: m => if k =b k' then map_delete k m else (k', v) :: map_delete k m
  end.

Definition map_keys {A} (m : js_map A) : list js_string := m.*1.

(** ** Lemmas *)

Lemma to_int32_mod x : to_int32 x mod 2 ^ 32 = x mod 2 ^ 32.
Proof.
  unfold to_int32. destruct (_ <? _).
  - apply Z.mod_mod. lia.
  - rewrite <- (Z_mod_plus_full (x mod 2 ^ 32 - 2 ^ 32) 1 (2 ^ 32)).
    replace (_ - _ + _) with (x mod 2 ^ 32) by lia. apply Z.mod_mod. lia.
Qed.

Lemma to_int32_small x : 0 <= x < 2 ^ 31 -> to_int32 x = x.
Proof.
  intros H. unfold to_int32. rewrite Z.mod_small by lia.
  destruct (Z.ltb_spec x (2 ^ 31)); lia.
Qed.

Lemma mod_pow2_testbit x n : 0 <= n < 32 -> Z.testbit (x mod 2 ^ 32) n = Z.testbit x n.
Proof. intros. apply Z.mod_pow2_bits_low. lia. Qed.

Lemma lxor_mod a b : Z.lxor a b mod 2 ^ 32 = Z.lxor (a mod 2 ^ 32) (b mod 2 ^ 32).
Proof.
  apply Z.bits_inj'. intros n Hn. rewrite Z.lxor_spec.
  destruct (Z.lt_ge_cases n 32).
  - rewrite !Z.mod_pow2_bits_low by lia. apply Z.lxor_spec.
  - rewrite !Z.mod_pow2_bits_high by lia. done.
Qed.

Lemma js_xor_mod a b : js_xor a b mod 2 ^ 32 = Z.lxor (a mod 2 ^ 32) (b mod 2 ^ 32).
Proof. unfold js_xor. by rewrite to_int32_mod, lxor_mod, !to_int32_mod. Qed.

Lemma js_shl_mod a k : 0 <= k -> js_shl a k mod 2 ^ 32 = (a * 2 ^ k) mod 2 ^ 32.
Proof.
  intros Hk. unfold js_shl. rewrite to_int32_mod, Z.shiftl_mul_pow2 by lia.
  rewrite Zmult_mod, to_int32_mod, <- Zmult_mod. done.
Qed.

Lemma js_shl_split a k : 0 <= k -> exists q, js_shl a k = a * 2 ^ k + q * 2 ^ 32.
Proof.
  intros Hk. exists (js_shl a k / 2 ^ 32 - a * 2 ^ k / 2 ^ 32).
  pose proof (Z.div_mod (js_shl a k) (2 ^ 32)). pose proof (Z.div_mod (a * 2 ^ k) (2 ^ 32)).
  pose proof (js_shl_mod a k Hk). lia.
Qed.

Section Maps.
Context {A : Type}.
Implicit Types (m : js_map A) (k : js_string) (v : A).

Lemma map_get_set k k' v m :
  map_get k (map_set k' v m) = if decide (k = k') then Some v else map_get k m.
Proof.
  induction m as [|[k1 v1] m IH]; simpl.
  - destruct (k =b k') eqn:E, (decide (k = k')); try done;
      [by apply bytes_eqb_spec in E|subst; by rewrite bytes_eqb_refl in E].
  - destruct (k' =b k1) eqn:E1; simpl.
    + apply bytes_eqb_spec in E1 as <-.
      destruct (k =b k') eqn:E; [apply bytes_eqb_spec in E as ->; by rewrite decide_True|].
      rewrite decide_False; [done|]. intros ->. by rewrite bytes_eqb_refl in E.
    + rewrite IH. destruct (k =b k1) eqn:E; [|done].
      apply bytes_eqb_spec in E as ->. rewrite decide_False; [done|].
      intros <-. by rewrite bytes_eqb_refl in E1.
Qed.

Lemma map_get_delete k k' m :
  map_get k (map_delete k' m) = if decide (k = k') then None else map_get k m.
Proof.
  induction m as [|[k1 v1] m IH]; cbn [map_delete map_get]; [by destruct (decide _)|].
  destruct (k' =b k1) eqn:E; cbn [map_get]; rewrite IH.
  - apply bytes_eqb_spec in E as <-. destruct (decide (k = k')) as [|Hn]; [done|].
    destruct (k =b k') eqn:Ek; [by apply bytes_eqb_spec in Ek|done].
  - destruct (k =b k1) eqn:Ek; [|done]. apply bytes_eqb_spec in Ek as ->.
    rewrite decide_False; [done|]. intros ->. by rewrite bytes_eqb_refl in E.
Qed.

Lemma map_get_keys k m : is_Some (map_get k m) <-> k ∈ map_keys m.
Proof.
  induction m as [|[k1 v1] m IH]; cbn [map_get map_keys fmap list_fmap fst].
  - split; [by intros [? ?]|by intros ?%not_elem_of_nil].
  - rewrite elem_of_cons. destruct (k =b k1) eqn:E.
    + apply bytes_eqb_spec in E as ->. split; [by left|by eexists].
    + rewrite IH. split; [by right|]. intros [->|]; [|done]. by rewrite bytes_eqb_refl in E.
Qed.
End Maps.

(** ** Order of numbers

    [<] and [<=] compare, lexicographically, the sign with the class, the exponent and
    the mantissa; a comparison with [NaN] is false. *)

Definition num_key (a : number) : option (Z * Z * Z) :=
  match a with
  | S754_zero _ => Some (0, 0, 0)
  | S754_infinity s => Some (if s then -2 else 2, 0, 0)
  | S754_nan => None
  | S754_finite s m e => Some (if s then (-1, - e, Z.neg m) else (1, e, Z.pos m))
  end.

Definition key_less (x y : Z * Z * Z) : Prop :=
  x.1.1 < y.1.1 \/ x.1.1 = y.1.1 /\ (x.1.2 < y.1.2 \/ x.1.2 = y.1.2 /\ x.2 < y.2).

Lemma num_compare_key a b x y : num_key a = Some x -> num_key b = Some y ->
  exists c, SFcompare a b = Some c /\ (c = Lt <-> key_less x y) /\ (c = Gt <-> key_less y x).
Proof.
  intros Ha Hb. unfold key_less.
  destruct a as [sa|sa| |sa ma ea], b as [sb|sb| |sb mb eb]; try done;
    try destruct sa; try destruct sb; simplify_eq/=; eexists; (split; [reflexivity|]);
    try (change (Pos.compare_cont Eq ma mb) with (Pos.compare ma mb));
    try (destruct (Z.compare_spec ea eb); [destruct (Pos.compare_spec ma mb)|..]);
    cbn [fst snd CompOpp]; split; (split; [done || lia|]); (done || lia).
Qed.

Lemma num_ltb_key a b : num_ltb a b = true <->
  exists x y, num_key a = Some x /\ num_key b = Some y /\ key_less x y.
Proof.
  unfold num_ltb, SFltb. destruct (num_key a) as [x|] eqn:Ea.
  - destruct (num_key b) as [y|] eqn:Eb.
    + destruct (num_compare_key a b x y Ea Eb) as (c & -> & Hl & _).
      rewrite <- Bool.not_false_iff_true. destruct c; naive_solver.
    + destruct b; try done. by destruct a; naive_solver.
  - destruct a; try done. naive_solver.
Qed.

Lemma num_leb_key a b : num_leb a b = true <->
  exists x y, num_key a = Some x /\ num_key b = Some y /\ ~ key_less y x.
Proof.
  unfold num_leb, SFleb. destruct (num_key a) as [x|] eqn:Ea.
  - destruct (num_key b) as [y|] eqn:Eb.
    + destruct (num_compare_key a b x y Ea Eb) as (c & -> & _ & Hg).
      destruct c; naive_solver.
    + destruct b; try done. by destruct a; naive_solver.
  - destruct a; try done. naive_solver.
Qed.

Lemma num_lt_le_trans a b c : num_ltb a b = true -> num_leb b c = true -> num_ltb a c = true.
Proof.
  rewrite !num_ltb_key, num_leb_key. intros (x & y & ? & ? & Hl) (y' & z & ? & ? & Hn).
  simplify_eq. exists x, z. unfold key_less in *. split_and!; [done..|lia].
Qed.

Lemma num_le_lt_trans a b c : num_leb a b = true -> num_ltb b c = true -> num_ltb a c = true.
Proof.
  rewrite !num_ltb_key, num_leb_key. intros (x & y & ? & ? & Hn) (y' & z & ? & ? & Hl).
  simplify_eq. exists x, z. unfold key_less in *. split_and!; [done..|lia].
Qed.

Lemma num_lt_lt_trans a b c : num_ltb a b = true -> num_ltb b c = true -> num_ltb a c = true.
Proof.
  rewrite !num_ltb_key. intros (x & y & ? & ? & Hn) (y' & z & ? & ? & Hl).
  simplify_eq. exists x, z. unfold key_less in *. split_and!; [done..|lia].
Qed.

(** Of two numbers, neither [NaN], one is below the other or not. *)
Lemma num_not_lt_le a b : num_leb a a = true -> num_leb b b = true ->
  num_ltb a b = false -> num_leb b a = true.
Proof.
  rewrite !num_leb_key. intros (x & ? & Ha & _) (y & ? & Hb & _) Hl%not_true_iff_false.
  exists y, x. rewrite num_ltb_key in Hl. naive_solver.
Qed.
