(* ===== verification/Flags.v ===== *)
(** * Feature flags, [sdk/ts/flags/src/eval.ts] and [hash.ts]

    [evaluate] decides the value of a flag: the kill switch, the preference of the
    user, an override in the code, the targeting rules and at last a percentage
    rollout, for which [bucket] hashes the id of the context and the name of the flag.
    The theorems: the hash is 32-bit FNV-1a ([fnv1a32_correct]); who is in a rollout
    depends on the bucket and the percentage only, and nobody leaves it when the
    percentage rises ([rollout_cohort]). *)

From stdpp Require Import base tactics numbers list strings.
From Stdlib Require Import ZArith Lia SpecFloat.
From S2P Require Import Prelude Ascii Js.

Open Scope Z_scope.

(** ** The hash *)

(** [(hash + ((hash << 1) + ...)) >>> 0]: the sum is below 2^53, hence exact. *)
Definition fnv_mul (hash : Z) : Z :=
  js_ushr (hash + (js_shl hash 1 + js_shl hash 4 + js_shl hash 7 + js_shl hash 8 + js_shl hash 24)) 0.

Fixpoint fnv1a32_loop (hash : Z) (input : js_string) : Z :=
  match input with
  | [] => hash
  | code :: input =>
      let hash :=
        if 255 <? code then fnv_mul (js_xor hash (js_and (js_ushr code 8) 255)) else hash in
      fnv1a32_loop (fnv_mul (js_xor hash (js_and code 255))) input
  end.

Definition fnv1a32 (input : js_string) : Z := js_ushr (fnv1a32_loop 2166136261 input) 0.

Definition bucket (id flagName : js_string) : Z :=
  fnv1a32 (id ++ lit ":" ++ flagName) mod 100.

(** ** Flag definitions

    [Constraint] is the value of a property of [when]: one value or any of several. *)
Inductive Constraint :=
  | One (v : value)
  | AnyOf (vs : list value).

Record Rule := { when : js_map Constraint; rule_value : value }.

Record Rollout := { percent : number; rollout_value : value }.

Record FlagDef := { on : bool; rules : option (list Rule); rollout : option Rollout }.

Record FlagContext := { id : js_string; attributes : js_map value }.

Definition UserPrefs : Type := js_map value.

(** A property of the context, [undefined] when it has none of that name. *)
Definition context_get (context : FlagContext) (key : js_string) : value :=
  if key =b lit "id" then Str (id context)
  else default Undefined (map_get key (attributes context)).

Inductive EvalReason :=
  | r_default | r_off | r_user_pref | r_override | r_rule (ruleIndex : nat) | r_rollout | r_no_snapshot.

Record EvalResult := { result_value : value; reason : EvalReason }.

(** ** Evaluation *)

(** One turn of the loop of [matches]. *)
Definition satisfies (context : FlagContext) (c : js_string * Constraint) : bool :=
  let actual := context_get context c.1 in
  match c.2 with
  | One Undefined => true
  | One constraint => strict_equal constraint actual
  | AnyOf constraint => existsb (fun v => strict_equal v actual) constraint
  end.

Definition matches (when : js_map Constraint) (context : FlagContext) : bool :=
  forallb (satisfies context) when.

Definition clamp (n lo hi : number) : number :=
  if num_ltb n lo then lo else if num_ltb hi n then hi else n.

(** The loop over the rules from index [i]. *)
Fixpoint first_match (i : nat) (rules : list Rule) (context : FlagContext) : option EvalResult :=
  match rules with
  | [] => None
  | rule :: rules =>
      if matches (when rule) context
      then Some {| result_value := rule_value rule; reason := r_rule i |}
      else first_match (S i) rules context
  end.

Definition evaluate (name : js_string) (defaultValue : value) (context : FlagContext)
    (state : option FlagDef) (prefs : option UserPrefs)
    (override : option (FlagContext -> value)) : EvalResult :=
  if match state with Some d => negb (on d) | None => false end then
    {| result_value := defaultValue; reason := r_off |}
  else match prefs ≫= map_get name with
  | Some v => {| result_value := v; reason := r_user_pref |}
  | None =>
  match match override with Some f => f context | None => Undefined end with
  | Undefined =>
    match state with
    | None => {| result_value := defaultValue; reason := r_no_snapshot |}
    | Some state =>
      match first_match 0 (default [] (rules state)) context with
      | Some r => r
      | None =>
        match rollout state with
        | Some ro =>
            if num_ltb (num 0) (percent ro)
               && num_ltb (num (bucket (id context) name)) (clamp (percent ro) (num 0) (num 100))
            then {| result_value := nullish (rollout_value ro) (Bool true); reason := r_rollout |}
            else {| result_value := defaultValue; reason := r_default |}
        | None => {| result_value := defaultValue; reason := r_default |}
        end
      end
    end
  | overridden => {| result_value := overridden; reason := r_override |}
  end
  end.

(** ** The hash is FNV-1a *)

(** One step of 32-bit FNV-1a: the byte is combined by exclusive or, and the hash is
    multiplied by the prime. *)
Definition fnv_step (hash byte : Z) : Z := (Z.lxor hash byte * 16777619) mod 2 ^ 32.

(** The bytes of a code unit: its low byte, after its high byte when that is not zero. *)
Definition unit_bytes (code : Z) : bytes :=
  if 255 <? code then [code / 256; code mod 256] else [code].

Lemma fnv_mul_mod h : fnv_mul h = (h * 16777619) mod 2 ^ 32.
Proof.
  unfold fnv_mul, js_ushr, to_uint32. rewrite Z.shiftr_0_r.
  destruct (js_shl_split h 1) as [q1 ->]; [lia|]. destruct (js_shl_split h 4) as [q2 ->]; [lia|].
  destruct (js_shl_split h 7) as [q3 ->]; [lia|]. destruct (js_shl_split h 8) as [q4 ->]; [lia|].
  destruct (js_shl_split h 24) as [q5 ->]; [lia|].
  rewrite <- (Z.mod_add (h * 16777619) (q1 + q2 + q3 + q4 + q5)) by lia. f_equal. lia.
Qed.

Lemma fnv_mul_xor h b : 0 <= h < 2 ^ 32 -> 0 <= b <= 255 -> fnv_mul (js_xor h b) = fnv_step h b.
Proof.
  intros Hh Hb. rewrite fnv_mul_mod. unfold fnv_step.
  by rewrite <- Zmult_mod_idemp_l, js_xor_mod, (Z.mod_small h), (Z.mod_small b) by lia.
Qed.

Lemma js_and_255 x : 0 <= x < 2 ^ 16 -> js_and x 255 = x mod 256.
Proof.
  intros Hx. unfold js_and. rewrite !(to_int32_small x), (to_int32_small 255) by lia.
  change 255 with (Z.ones 8). rewrite Z.land_ones by lia. apply to_int32_small.
  change (x mod 2 ^ 8) with (x mod 256). pose proof (Z.mod_pos_bound x 256). lia.
Qed.

Lemma fnv_step_range h b : 0 <= fnv_step h b < 2 ^ 32.
Proof. apply Z.mod_pos_bound. lia. Qed.

Lemma fnv1a32_loop_correct s : is_units s -> forall h, 0 <= h < 2 ^ 32 ->
  fnv1a32_loop h s = fold_left fnv_step (s ≫= unit_bytes) h.
Proof.
  induction 1 as [|c s Hc _ IH]; intros h Hh; [done|]. cbn [fnv1a32_loop].
  rewrite bind_cons, fold_left_app. unfold unit_bytes.
  pose proof (Z.mod_pos_bound c 256 ltac:(lia)).
  destruct (Z.ltb_spec 255 c) as [Hb|Hb]; cbn [fold_left].
  - unfold js_ushr, to_uint32. rewrite (Z.mod_small c), Z.shiftr_div_pow2 by lia.
    change (2 ^ 8) with 256.
    assert (0 <= c / 256 <= 255) by (split; [apply Z.div_pos; lia|apply Z.lt_succ_r, Z.div_lt_upper_bound; lia]).
    rewrite !js_and_255 by lia. rewrite (Z.mod_small (c / 256)) by lia.
    rewrite (fnv_mul_xor h) by lia. pose proof (fnv_step_range h (c / 256)).
    rewrite fnv_mul_xor by lia. apply IH, fnv_step_range.
  - rewrite js_and_255, (Z.mod_small c) by lia. rewrite fnv_mul_xor by lia. apply IH, fnv_step_range.
Qed.

Lemma fnv_fold_range bs h : 0 <= h < 2 ^ 32 -> 0 <= fold_left fnv_step bs h < 2 ^ 32.
Proof. revert h. induction bs as [|b bs IH]; intros h Hh; [done|]. apply IH, fnv_step_range. Qed.

(** the hash of a string, computed with shifts on signed 32-bit integers, is the
    32-bit FNV-1a hash of the bytes of its code units (offset basis 2166136261, prime
    16777619, arithmetic modulo 2^32). *)
Theorem fnv1a32_correct (s : js_string) :
  is_units s -> fnv1a32 s = fold_left fnv_step (s ≫= unit_bytes) 2166136261.
Proof.
  intros Hs. unfold fnv1a32, js_ushr, to_uint32. rewrite Z.shiftr_0_r.
  rewrite fnv1a32_loop_correct by (done || lia). apply Z.mod_small, fnv_fold_range. lia.
Qed.

Lemma bucket_range i n : 0 <= bucket i n < 100.
Proof. apply Z.mod_pos_bound. lia. Qed.

(** ** Rollouts *)

(** Comparisons of a bucket with integers are those of the integers. *)
Lemma num_small_lt a b : 0 <= a < 100 -> 0 <= b <= 100 -> num_ltb (num a) (num b) = (a <? b).
Proof.
  intros Ha Hb.
  assert (Forall (fun a => Forall (fun b => num_ltb (num a) (num b) = (a <? b)) (seqZ 0 101)) (seqZ 0 100)) as H.
  { apply (bool_decide_unpack _). vm_compute. exact I. }
  rewrite Forall_forall in H. specialize (H a). rewrite elem_of_seqZ, Forall_forall in H.
  apply H; [lia|]. apply elem_of_seqZ. lia.
Qed.

Lemma num_bucket_not_nan i n : num_leb (num (bucket i n)) (num (bucket i n)) = true.
Proof.
  assert (Forall (fun a => num_leb (num a) (num a) = true) (seqZ 0 100)) as H.
  { apply (bool_decide_unpack _). vm_compute. exact I. }
  rewrite Forall_forall in H. apply H, elem_of_seqZ. pose proof (bucket_range i n). lia.
Qed.

Lemma num_bucket_lt_100 i n : num_ltb (num (bucket i n)) (num 100) = true.
Proof.
  pose proof (bucket_range i n). rewrite num_small_lt by lia. apply Z.ltb_lt. lia.
Qed.

Lemma num_bucket_not_neg i n : num_ltb (num (bucket i n)) (num 0) = false.
Proof.
  pose proof (bucket_range i n). rewrite num_small_lt by lia. apply Z.ltb_ge. lia.
Qed.

(** Whether [(id, name)] is in a rollout of [percent]. *)
Definition in_rollout (i n : js_string) (p : number) : bool :=
  num_ltb (num 0) p && num_ltb (num (bucket i n)) (clamp p (num 0) (num 100)).

(** The clamp and the test for a positive percentage make no difference. *)
Lemma in_rollout_lt i n p : in_rollout i n p = num_ltb (num (bucket i n)) p.
Proof.
  unfold in_rollout, clamp. pose proof (num_bucket_lt_100 i n) as H100.
  assert (num_leb (num 0) (num (bucket i n)) = true) as H0.
  { apply num_not_lt_le; [apply num_bucket_not_nan|done|apply num_bucket_not_neg]. }
  destruct (num_ltb (num (bucket i n)) p) eqn:E.
  - rewrite (num_le_lt_trans _ _ _ H0 E). cbn [andb].
    destruct (num_ltb p (num 0)) eqn:En.
    { rewrite (num_lt_lt_trans _ _ _ E En) in *. by pose proof (num_bucket_not_neg i n). }
    by destruct (num_ltb (num 100) p).
  - destruct (num_ltb (num 0) p) eqn:Ep; [|done]. cbn [andb].
    destruct (num_ltb p (num 0)) eqn:En; [apply num_bucket_not_neg|].
    destruct (num_ltb (num 100) p) eqn:Eh; [|done].
    by rewrite (num_lt_lt_trans _ _ _ H100 Eh) in E.
Qed.

Lemma first_match_reason rs ctx : forall i r, first_match i rs ctx = Some r -> exists j, reason r = r_rule j.
Proof.
  induction rs as [|rule rs IH]; intros i r; cbn [first_match]; [done|].
  destruct (matches (when rule) ctx); [|by apply IH]. intros [= <-]. by exists i.
Qed.

(** A flag with its rollout replaced. *)
Definition with_rollout (d : FlagDef) (p : number) (v : value) : FlagDef :=
  {| on := on d; rules := rules d; rollout := Some {| percent := p; rollout_value := v |} |}.

Section Rollout.
Context (name : js_string) (dv : value) (context : FlagContext) (d : FlagDef) (v : value)
  (prefs : option UserPrefs) (override : option (FlagContext -> value)).

Definition decided (p : number) : EvalResult :=
  evaluate name dv context (Some (with_rollout d p v)) prefs override.

(** The decision does not depend on the rollout, or is the one of the rollout. *)
Lemma decided_cases :
  (exists r, (forall p, decided p = r) /\ reason r <> r_rollout /\ reason r <> r_default) \/
  (forall p, decided p =
    if num_ltb (num (bucket (id context) name)) p
    then {| result_value := nullish v (Bool true); reason := r_rollout |}
    else {| result_value := dv; reason := r_default |}).
Proof.
  unfold decided, evaluate, with_rollout. cbn [on rules rollout percent rollout_value].
  destruct (on d); cbn [negb]; [|left; eexists; split; [reflexivity|done]].
  destruct (prefs ≫= map_get name) as [u|]; [left; eexists; split; [reflexivity|done]|].
  destruct (match override with Some f => f context | None => Undefined end);
    try (left; eexists; split; [reflexivity|done]).
  destruct (first_match 0 (default [] (rules d)) context) as [r|] eqn:E.
  - left. exists r. apply first_match_reason in E as [j Hj]. by rewrite Hj.
  - right. intros p. fold (in_rollout (id context) name p). by rewrite in_rollout_lt.
Qed.
End Rollout.

(** C25: With a percentage [p], which may be any number, a context is in the rollout
    exactly when its bucket, an integer below 100 that only its id and the name of the
    flag determine, is below [p], unless an earlier source decides, in which case the
    percentage makes no difference; raising the percentage keeps every decision for the
    rollout, nobody is in it at 0 or below, and nobody falls through to the default at
    100 or above.  The empty id has a bucket like any other. *)
Theorem rollout_cohort (name : js_string) (dv : value) (context : FlagContext) (d : FlagDef)
    (v : value) (prefs : option UserPrefs) (override : option (FlagContext -> value)) :
  let decided := decided name dv context d v prefs override in
  let cohort p := reason (decided p) = r_rollout in
  0 <= bucket (id context) name < 100 /\
  (forall p, cohort p <-> cohort (num 100) /\ num_ltb (num (bucket (id context) name)) p = true) /\
  (forall k, 0 <= k <= 100 -> cohort (num k) <-> cohort (num 100) /\ bucket (id context) name < k) /\
  (forall p q, num_leb p q = true -> cohort p -> decided q = decided p) /\
  (forall p, num_leb p (num 0) = true -> ~ cohort p) /\
  (forall p, num_leb (num 100) p = true -> reason (decided p) <> r_default) /\
  (forall p q, reason (decided p) <> r_rollout -> reason (decided p) <> r_default -> decided q = decided p).
Proof.
  cbv zeta. pose proof (bucket_range (id context) name) as Hb. split; [done|].
  destruct (decided_cases name dv context d v prefs override) as [(r & Hp & Hr & Hd)|Hp].
  { split; [|split; [|split; [|split; [|split]]]]; intros; rewrite ?Hp in *; naive_solver. }
  split; [|split; [|split; [|split; [|split]]]].
  - intros p. rewrite !Hp, num_small_lt by lia. rewrite (proj2 (Z.ltb_lt _ _)) by lia.
    destruct (num_ltb _ p); cbn [reason]; naive_solver.
  - intros k Hk. rewrite !Hp, !num_small_lt by lia.
    destruct (Z.ltb_spec (bucket (id context) name) k), (Z.ltb_spec (bucket (id context) name) 100);
      cbn [reason]; naive_solver lia.
  - intros p q Hpq. rewrite !Hp. destruct (num_ltb _ p) eqn:E; [|done].
    by rewrite (num_lt_le_trans _ _ _ E Hpq).
  - intros p Hle. rewrite Hp. destruct (num_ltb _ p) eqn:E; [|done].
    pose proof (num_bucket_not_neg (id context) name) as Hn.
    by rewrite (num_lt_le_trans _ _ _ E Hle) in Hn.
  - intros p Hle. rewrite Hp.
    by rewrite (num_lt_le_trans _ _ _ (num_bucket_lt_100 (id context) name) Hle).
  - intros p q Hr Hd. rewrite Hp in Hr, Hd. by destruct (num_ltb _ p).
Qed.

Lemma fnv1a32_correct_witness :
  fnv1a32 (lit "user" ++ [8364] ++ lit ":beta")
  = fold_left fnv_step ((lit "user" ++ [8364] ++ lit ":beta") ≫= unit_bytes) 2166136261.
Proof. apply (fnv1a32_correct (lit "user" ++ [8364] ++ lit ":beta")), (bool_decide_unpack _). vm_compute. exact I. Defined.
