(* ===== verification/FlagsSnapshot.v ===== *)
(** * The snapshot of the flags, [sdk/ts/flags/src/snapshot.ts]

    [Snapshot] keeps the flag definitions of a server in memory: it loads them page by
    page, and follows the events of a watch from the highest revision it has seen, or
    loads them again from time to time.  The replies and events of the [KvClient] are
    inputs; the calls of the callbacks are recorded in the state ([notified],
    [reported]).  A load is one step here; [load_entries] and [load_end] are its parts
    between the replies, for the runs in which something happens in between.

    The theorem: a load and the events that follow leave exactly the definitions of
    the server, and announce exactly the changes
    ([snapshot_follows]).  [FlagsSync] connects the snapshot with the replay of a log. *)

From stdpp Require Import base tactics numbers list gmap strings.
From Stdlib Require Import ZArith Lia SpecFloat.
From S2P Require Import Prelude Ascii Js.

Open Scope Z_scope.

Inductive Json :=
  | JNull
  | JBool (b : bool)
  | JNum (n : number)
  | JStr (s : js_string)
  | JArr (l : list Json)
  | JObj (o : js_map Json).

(** [TextDecoder], which decodes UTF-8, and [JSON.parse], which throws a [SyntaxError]
    ([None]). *)
Class JsText := {
  text_decode : bytes -> js_string;
  json_parse : js_string -> option Json;
  text_decode_ascii : forall b, Forall (fun c => 0 <= c < 128) b -> text_decode b = b;
}.

Definition DEF_PREFIX : js_string := lit "flags:def:".

Definition defKey (flagName : js_string) : js_string := DEF_PREFIX ++ flagName.

(** [key.slice(DEF_PREFIX.length)]. *)
Definition flag_name (key : js_string) : js_string := drop (length DEF_PREFIX) key.

Inductive JsError := SyntaxError | FlagError_invalid_state | KvError.

Inductive ErrorSource := src_snapshot | src_watch.

Module Snapshot.
Section Snapshot.
Context `{JsText}.

Definition decodeFlagDef (value : bytes) : result JsError (option Json) :=
  let text := text_decode value in
  if (length text =? 0)%nat then Ok None
  else match json_parse text with
  | None => Err SyntaxError
  | Some (JObj o) =>
      match map_get (lit "on") o with
      | Some (JBool _) => Ok (Some (JObj o))
      | _ => Err FlagError_invalid_state
      end
  | Some _ => Err FlagError_invalid_state
  end.

Record t := {
  state : js_map (Json * bytes);
  isReady : bool;
  closed : bool;
  lastRevision : Z;
  notified : list (list js_string);
  reported : list (ErrorSource * JsError * option js_string);
}.

Definition new : t :=
  {| state := []; isReady := false; closed := false; lastRevision := 0; notified := []; reported := [] |}.

Definition with_state (f : js_map (Json * bytes) -> js_map (Json * bytes)) (self : t) : t :=
  {| state := f (state self); isReady := isReady self; closed := closed self;
     lastRevision := lastRevision self; notified := notified self; reported := reported self |}.

Definition get (name : js_string) (self : t) : option Json := fst <$> map_get name (state self).

Definition reportError (source : ErrorSource) (err : JsError) (name : option js_string) (self : t) : t :=
  {| state := state self; isReady := isReady self; closed := closed self;
     lastRevision := lastRevision self; notified := notified self;
     reported := reported self ++ [(source, err, name)] |}.

Definition notifyChange (names : list js_string) (self : t) : t :=
  if negb (isReady self) || (length names =? 0)%nat then self
  else {| state := state self; isReady := isReady self; closed := closed self;
          lastRevision := lastRevision self; notified := notified self ++ [names];
          reported := reported self |}.

Definition see_revision (revision : Z) (self : t) : t :=
  if lastRevision self <? revision
  then {| state := state self; isReady := isReady self; closed := closed self;
          lastRevision := revision; notified := notified self; reported := reported self |}
  else self.

Definition bytesEqual (a b : bytes) : bool := a =b b.

Definition applyValue (flagName : js_string) (raw : bytes) (self : t) : bool * t :=
  match decodeFlagDef raw with
  | Err err => (false, reportError src_snapshot err (Some flagName) self)
  | Ok None => (false, self)
  | Ok (Some parsed) =>
      if match map_get flagName (state self) with
         | Some prev => bytesEqual prev.2 raw
         | None => false
         end
      then (false, self)
      else (true, with_state (map_set flagName (parsed, raw)) self)
  end.

(** ** Loading *)

(** What a load has gathered so far. *)
Record load := { seen : list js_string; changed : list js_string }.

(** The loop over the names of a page and the entries that [batchGet] returned for
    them, each a value with its revision. *)
Fixpoint load_entries (names : list js_string) (data : list (option (bytes * Z)))
    (l : load) (self : t) : load * t :=
  match names, data with
  | fullKey :: names, Some (value, revision) :: data =>
      let flagName := flag_name fullKey in
      let '(b, self) := applyValue flagName value (see_revision revision self) in
      load_entries names data
        {| seen := flagName :: seen l; changed := if b then changed l ++ [flagName] else changed l |} self
  | _ :: names, None :: data => load_entries names data l self
  | _, _ => (l, self)
  end.

(** The loop over the keys of the map at the end of a load; it deletes the entry it is
    at. *)
Fixpoint drop_unseen (keys : list js_string) (l : load) (self : t) : load * t :=
  match keys with
  | [] => (l, self)
  | name :: keys =>
      if existsb (bytes_eqb name) (seen l) then drop_unseen keys l self
      else drop_unseen keys {| seen := seen l; changed := changed l ++ [name] |}
             (with_state (map_delete name) self)
  end.

Definition load_end (l : load) (self : t) : t :=
  let '(l, self) := drop_unseen (map_keys (state self)) l self in
  notifyChange (changed l) self.

(** The replies to the two requests of a page; [nextCursor] as far as the loop tests
    it. *)
Record page := {
  list_reply : result JsError (list js_string * bool);
  batch_reply : result JsError (list (option (bytes * Z)));
}.

Inductive outcome := Done | Threw (e : JsError) | Waiting.

(** [loadAll] on the pages that arrive; [Waiting] when it asks for one more. *)
Fixpoint loadAll_from (pages : list page) (l : load) (self : t) : outcome * t :=
  match pages with
  | [] => (Waiting, self)
  | p :: pages =>
      match list_reply p with
      | Err e => (Threw e, self)
      | Ok (names, nextCursor) =>
          match (if (0 <? length names)%nat
                 then match batch_reply p with
                      | Err e => inl e
                      | Ok data => inr (load_entries names data l self)
                      end
                 else inr (l, self)) with
          | inl e => (Threw e, self)
          | inr (l, self) =>
              if nextCursor then loadAll_from pages l self else (Done, load_end l self)
          end
      end
  end.

Definition loadAll (pages : list page) (self : t) : outcome * t :=
  loadAll_from pages {| seen := []; changed := [] |} self.

Definition set_ready (self : t) : t :=
  {| state := state self; isReady := true; closed := closed self;
     lastRevision := lastRevision self; notified := notified self; reported := reported self |}.

Definition runInitialLoad (pages : list page) (self : t) : option t :=
  match loadAll pages self with
  | (Waiting, _) => None
  | (Done, self) => Some (set_ready self)
  | (Threw e, self) => Some (set_ready (reportError src_snapshot e None self))
  end.

(** A load of the polling timer. *)
Definition poll (pages : list page) (self : t) : option t :=
  match loadAll pages self with
  | (Waiting, _) => None
  | (Done, self) => Some self
  | (Threw e, self) => Some (reportError src_snapshot e None self)
  end.

(** ** Watching *)

Inductive WatchEvent :=
  | ev_ready
  | ev_set (key : js_string) (value : bytes) (revision : Z)
  | ev_del (key : js_string) (revision : Z).

(** The option [since] of the next watch. *)
Definition watch_since (self : t) : option Z :=
  if 0 <? lastRevision self then Some (lastRevision self) else None.

(** The body of the loop over the events. *)
Definition on_event (self : t) (event : WatchEvent) : t :=
  if closed self then self else
  match event with
  | ev_ready => self
  | ev_set key value revision =>
      let flagName := flag_name key in
      let '(b, self) := applyValue flagName value (see_revision revision self) in
      if b then notifyChange [flagName] self else self
  | ev_del key revision =>
      let flagName := flag_name key in
      let self := see_revision revision self in
      match map_get flagName (state self) with
      | Some _ => notifyChange [flagName] (with_state (map_delete flagName) self)
      | None => self
      end
  end.

(** One session of a watch, and the error it ends with, if any. *)
Definition watch_session (events : list WatchEvent) (err : option JsError) (self : t) : t :=
  let self := foldl on_event self events in
  match err with
  | Some e => if closed self then self else reportError src_watch e None self
  | None => self
  end.

Definition close (self : t) : t :=
  {| state := state self; isReady := isReady self; closed := true;
     lastRevision := lastRevision self; notified := notified self; reported := reported self |}.

(** ** The contents of the server

    The flag definitions of a server, by name. *)
Definition defs : Type := js_string -> option bytes.

Definition valid (raw : bytes) : Prop := exists d, decodeFlagDef raw = Ok (Some d).
Definition all_valid (D : defs) : Prop := forall n raw, D n = Some raw -> valid raw.

Definition decoded (raw : bytes) : option Json :=
  match decodeFlagDef raw with Ok d => d | Err _ => None end.

(** The entry of a flag in the snapshot when the server has [raw]. *)
Definition entry_of (raw : bytes) : option (Json * bytes) := (fun d => (d, raw)) <$> decoded raw.

Definition reflects (D : defs) (self : t) : Prop :=
  forall n, map_get n (state self) = D n ≫= entry_of.

(** What an entry of the snapshot says was decoded from its bytes. *)
Definition coherent (self : t) : Prop :=
  forall n d raw, map_get n (state self) = Some (d, raw) -> decoded raw = Some d.

Definition update (n : js_string) (o : option bytes) (D : defs) : defs :=
  fun k => if decide (k = n) then o else D k.

(** A page of a listing of [D]: the values of its names, in order. *)
Definition shows_page (D : defs) (more : bool) (names : list js_string) (p : page) : Prop :=
  list_reply p = Ok (defKey <$> names, more) /\
  exists data, batch_reply p = Ok data /\ (fmap fst <$> data) = (D <$> names).

(** The pages of a listing that has every name of [D]. *)
Fixpoint shows_from (D : defs) (pages : list page) (rest : js_string -> Prop) : Prop :=
  match pages with
  | [] => False
  | p :: pages => exists names,
      shows_page D (bool_decide (pages <> [])) names p /\
      let rest := fun n => rest n /\ n ∉ names in
      if decide (pages = []) then forall n, ~ rest n else shows_from D pages rest
  end.

Definition shows (D : defs) (pages : list page) : Prop :=
  shows_from D pages (fun n => is_Some (D n)).

Lemma flag_name_defKey n : flag_name (defKey n) = n.
Proof. unfold flag_name, defKey. apply drop_app_length. Qed.

(** ** One value *)

Lemma see_revision_state r s : state (see_revision r s) = state s.
Proof. unfold see_revision. by destruct (_ <? _). Qed.

Lemma see_revision_frame r s :
  isReady (see_revision r s) = isReady s /\ closed (see_revision r s) = closed s /\
  notified (see_revision r s) = notified s /\ reported (see_revision r s) = reported s.
Proof. unfold see_revision. by destruct (_ <? _). Qed.

(** The parts of the state that loads and events keep, apart from announcements. *)
Definition same_frame (s s' : t) : Prop :=
  isReady s' = isReady s /\ closed s' = closed s /\ notified s' = notified s /\ reported s' = reported s.

Lemma same_frame_trans s1 s2 s3 : same_frame s1 s2 -> same_frame s2 s3 -> same_frame s1 s3.
Proof. unfold same_frame. intuition congruence. Qed.

Lemma applyValue_valid n raw s b s' : coherent s -> valid raw -> applyValue n raw s = (b, s') ->
  coherent s' /\ same_frame s s' /\
  (forall k, map_get k (state s') = if decide (k = n) then entry_of raw else map_get k (state s)) /\
  (b = true <-> snd <$> map_get n (state s) <> Some raw).
Proof.
  intros Hc [d Hd]. unfold applyValue. rewrite Hd.
  assert (entry_of raw = Some (d, raw)) as He by (unfold entry_of, decoded; by rewrite Hd).
  rewrite He. destruct (map_get n (state s)) as [[d0 raw0]|] eqn:Hg; cbn [fmap option_fmap option_map snd].
  - unfold bytesEqual. destruct (raw0 =b raw) eqn:E; intros [= <- <-].
    + apply bytes_eqb_spec in E as ->. split; [done|]. split; [done|]. split; [|naive_solver].
      intros k. destruct (decide (k = n)) as [->|]; [|done]. rewrite Hg.
      apply Hc in Hg. unfold decoded in Hg. rewrite Hd in Hg. by injection Hg as ->.
    + split; [|split; [done|split]].
      * intros k d1 raw1. cbn. rewrite map_get_set. destruct (decide _); [|apply Hc].
        intros [= <- <-]. unfold decoded. by rewrite Hd.
      * intros k. cbn. apply map_get_set.
      * split; [|done]. intros _ [= ->]. by rewrite bytes_eqb_refl in E.
  - intros [= <- <-]. split; [|split; [done|split]]; [| |done].
    + intros k d1 raw1. cbn. rewrite map_get_set. destruct (decide _); [|apply Hc].
      intros [= <- <-]. unfold decoded. by rewrite Hd.
    + intros k. cbn. apply map_get_set.
Qed.

(** ** Loads *)

(** The bytes that the snapshot has for a flag. *)
Definition raw_of (s : t) (n : js_string) : option bytes := snd <$> map_get n (state s).

(** A load from [s0] that has read the names [P]. *)
Record load_inv (D : defs) (s0 : t) (P : list js_string) (l : load) (s : t) : Prop := {
  li_coherent : coherent s;
  li_frame : same_frame s0 s;
  li_state : forall k, map_get k (state s)
    = if decide (k ∈ P) then match D k with Some raw => entry_of raw | None => map_get k (state s0) end
      else map_get k (state s0);
  li_seen : forall k, k ∈ seen l <-> k ∈ P /\ is_Some (D k);
  li_changed : forall k, k ∈ changed l <-> k ∈ P /\ is_Some (D k) /\ raw_of s0 k <> D k;
}.

Lemma elem_of_snoc (k n : js_string) (P : list js_string) : k ∈ P ++ [n] <-> k ∈ P \/ k = n.
Proof. by rewrite elem_of_app, list_elem_of_singleton. Qed.

Lemma load_inv_skip D s0 P l s n : load_inv D s0 P l s -> D n = None -> load_inv D s0 (P ++ [n]) l s.
Proof.
  intros [Hc Hf Hs Hse Hch] Hn.
  assert (forall k, is_Some (D k) -> k ∈ P ++ [n] <-> k ∈ P) as Hk.
  { intros k [raw Hd]. rewrite elem_of_snoc. split; [|by left]. intros [?| ->]; [done|congruence]. }
  split; [done..| | |]; intros k.
  - rewrite Hs. destruct (D k) eqn:E.
    + rewrite (decide_ext (k ∈ P ++ [n]) (k ∈ P)); [done|]. apply Hk. by rewrite E.
    + by destruct (decide _), (decide _).
  - rewrite Hse. specialize (Hk k). split; intros [? ?]; (split; [|done]); by apply Hk.
  - rewrite Hch. specialize (Hk k). split; intros (? & ? & ?); (split; [by apply Hk|done]).
Qed.

Lemma entry_of_raw raw : valid raw -> snd <$> entry_of raw = Some raw.
Proof. intros [d Hd]. unfold entry_of, decoded. by rewrite Hd. Qed.

Lemma load_inv_step D s0 P l s n raw r b s' : all_valid D ->
  load_inv D s0 P l s -> D n = Some raw -> applyValue n raw (see_revision r s) = (b, s') ->
  load_inv D s0 (P ++ [n])
    {| seen := n :: seen l; changed := if b then changed l ++ [n] else changed l |} s'.
Proof.
  intros Hv [Hc Hf Hs Hse Hch] Hn Ha. pose proof (Hv _ _ Hn) as Hraw.
  apply applyValue_valid in Ha as (Hc' & Hf' & Hs' & Hb);
    [|intros k d0 raw0; rewrite see_revision_state; apply Hc|done].
  rewrite see_revision_state in Hb. split; [done| | | |].
  - eapply same_frame_trans; [exact Hf|]. eapply same_frame_trans; [|exact Hf']. apply see_revision_frame.
  - intros k. rewrite Hs', see_revision_state, Hs. destruct (decide (k = n)) as [->|Hk].
    + rewrite decide_True by (rewrite elem_of_snoc; by right). by rewrite Hn.
    + rewrite (decide_ext (k ∈ P ++ [n]) (k ∈ P)); [done|]. rewrite elem_of_snoc. naive_solver.
  - intros k. cbn [seen]. rewrite elem_of_cons, Hse, elem_of_snoc. naive_solver.
  - intros k. cbn [changed].
    assert (b = true <-> n ∉ P /\ raw_of s0 n <> D n) as Hb'.
    { rewrite Hb, Hs, Hn. destruct (decide (n ∈ P)); [rewrite entry_of_raw by done|]; naive_solver. }
    rewrite elem_of_snoc. clear Hc Hf Hs Hse Hs' Hb Hv Hraw Hc' Hf'.
    destruct b; [rewrite elem_of_snoc|]; rewrite Hch; [naive_solver|].
    split; [naive_solver|]. intros ([?| ->] & ? & ?); [done|].
    destruct (decide (n ∈ P)); [done|]. by destruct Hb' as [_ Hb']; discriminate Hb'.
Qed.

Lemma load_entries_inv D s0 : all_valid D -> forall ns data P l s l' s',
  load_inv D s0 P l s -> (fmap fst <$> data) = (D <$> ns) ->
  load_entries (defKey <$> ns) data l s = (l', s') -> load_inv D s0 (P ++ ns) l' s'.
Proof.
  intros Hv. induction ns as [|n ns IH]; intros [|x data] P l s l' s' Hi Hd; try discriminate.
  { cbn. rewrite app_nil_r. by intros [= <- <-]. }
  rewrite !fmap_cons in Hd. injection Hd as Hx Hd. rewrite fmap_cons. cbn [load_entries].
  replace (P ++ n :: ns) with ((P ++ [n]) ++ ns) by (by rewrite <- app_assoc).
  destruct x as [[raw r]|]; cbn in Hx.
  - rewrite flag_name_defKey. destruct (applyValue n raw _) as [b s1] eqn:Ha. apply IH; [|done].
    by eapply load_inv_step.
  - apply IH; [|done]. by apply load_inv_skip.
Qed.

Lemma drop_unseen_spec : forall ks l s l' s', drop_unseen ks l s = (l', s') ->
  same_frame s s' /\ (coherent s -> coherent s') /\
  (forall k, k ∈ ks -> k ∉ seen l -> map_get k (state s') = None) /\
  (forall k, k ∉ ks \/ k ∈ seen l -> map_get k (state s') = map_get k (state s)) /\
  (forall k, k ∈ changed l' <-> k ∈ changed l \/ (k ∈ ks /\ k ∉ seen l)).
Proof.
  induction ks as [|n ks IH]; intros l s l' s'; cbn [drop_unseen].
  { intros [= <- <-]. do 2 (split; [done|]). split; [by intros k ?%not_elem_of_nil|]. split; [done|].
    intros k. rewrite elem_of_nil. tauto. }
  assert (existsb (bytes_eqb n) (seen l) = true <-> n ∈ seen l) as Hin.
  { rewrite existsb_exists. setoid_rewrite bytes_eqb_spec. setoid_rewrite <- list_elem_of_In. naive_solver. }
  destruct (existsb (bytes_eqb n) (seen l)) eqn:E.
  - intros (Hf & Hc & Hn & Hs & Hch)%IH. do 2 (split; [done|]). apply proj1 in Hin. specialize (Hin eq_refl).
    split; [|split].
    + intros k [->|?]%elem_of_cons ?; [done|by apply Hn].
    + intros k Hk. apply Hs. rewrite elem_of_cons in Hk. tauto.
    + intros k. rewrite Hch, elem_of_cons. split; [tauto|]. intros [?|[[->|?] ?]]; tauto.
  - assert (n ∉ seen l) by (intros ?%Hin; done).
    intros (Hf & Hc & Hn & Hs & Hch)%IH. cbn [seen changed] in *. split; [done|]. split; [|split; [|split]].
    + intros Hc0. apply Hc. intros k d raw. cbn. rewrite map_get_delete. destruct (decide _); [done|apply Hc0].
    + intros k Hk ?. destruct (decide (k ∈ ks)); [by apply Hn|].
      apply elem_of_cons in Hk as [->|]; [|done]. rewrite Hs by tauto. cbn. rewrite map_get_delete.
      by rewrite decide_True.
    + intros k Hk. rewrite elem_of_cons in Hk. rewrite Hs by tauto. cbn. rewrite map_get_delete.
      rewrite decide_False; [done|]. intros ->. tauto.
    + intros k. rewrite Hch, elem_of_snoc, elem_of_cons. split; [|tauto]. intros [[?| ->]|]; tauto.
Qed.

(** What [onChange] is told when the contents go from [D] to [D']: nothing, or once the
    names of the flags whose bytes differ. *)
Definition announced (D D' : defs) (told : list (list js_string)) : Prop :=
  (told = [] /\ forall k, D k = D' k) \/
  exists names, told = [names] /\ names <> [] /\ forall k, k ∈ names <-> D k <> D' k.

(** [s'] has the contents [D], and the change from [s] was announced. *)
Record settled (D : defs) (s s' : t) : Prop := {
  st_coherent : coherent s';
  st_state : reflects D s';
  st_ready : isReady s' = isReady s;
  st_closed : closed s' = closed s;
  st_reported : reported s' = reported s;
  st_notified : exists told, notified s' = notified s ++ told /\
    if isReady s then announced (raw_of s) D told else told = [];
}.

Lemma drop_unseen_load D s0 P l s l' s' : (forall n, is_Some (D n) -> n ∈ P) ->
  load_inv D s0 P l s -> drop_unseen (map_keys (state s)) l s = (l', s') ->
  same_frame s0 s' /\ coherent s' /\ reflects D s' /\ forall k, k ∈ changed l' <-> raw_of s0 k <> D k.
Proof.
  intros HP [Hc Hf Hs Hse Hch] (Hf' & Hc' & Hn' & Hs' & Hch')%drop_unseen_spec.
  pose proof (same_frame_trans _ _ _ Hf Hf').
  assert (forall k, D k = None -> k ∉ seen l) as Hunseen.
  { intros k Hk [_ Hd]%Hse. rewrite Hk in Hd. by destruct Hd. }
  assert (forall k, D k = None -> map_get k (state s) = map_get k (state s0)) as Hkeep.
  { intros k Hk. rewrite Hs, Hk. by destruct (decide _). }
  split; [done|]. split; [by apply Hc'|]. split.
  - intros k. destruct (D k) as [raw|] eqn:Ek.
    + assert (k ∈ P) as Hk by (apply HP; by rewrite Ek).
      rewrite Hs' by (right; apply Hse; by rewrite Ek). by rewrite Hs, decide_True, Ek by done.
    + destruct (decide (k ∈ map_keys (state s))) as [Hk|Hk]; [by apply Hn'; [|apply Hunseen]|].
      rewrite Hs' by by left. rewrite <- map_get_keys in Hk. by apply eq_None_not_Some.
  - intros k. rewrite Hch', Hch. unfold raw_of. destruct (D k) as [raw|] eqn:Ek.
    + assert (k ∈ P) as Hk by (apply HP; by rewrite Ek).
      assert (k ∈ seen l) by (apply Hse; by rewrite Ek). naive_solver.
    + specialize (Hunseen k Ek). rewrite <- map_get_keys, (Hkeep k Ek).
      destruct (map_get k (state s0)); cbn; split; try done.
      * intros _. right. by split; [eexists|].
      * intros [(_ & [? ?] & _)|[[? ?] _]]; done.
Qed.

Lemma load_end_settled D s0 P l s : (forall n, is_Some (D n) -> n ∈ P) ->
  load_inv D s0 P l s -> settled D s0 (load_end l s).
Proof.
  intros HP Hi. unfold load_end. destruct (drop_unseen _ l s) as [l' s'] eqn:E.
  destruct (drop_unseen_load _ _ _ _ _ _ _ HP Hi E) as ((Hr & Hcl & Hno & Hre) & Hc & Hrefl & Hdiff).
  unfold notifyChange. rewrite Hr. destruct (isReady s0) eqn:Er; cbn [negb orb].
  - destruct (changed l') as [|c cs] eqn:Ec; cbn [length Nat.eqb].
    + split; [exact Hc|exact Hrefl|cbn; congruence..|]. exists []. rewrite app_nil_r, Er. split; [done|]. left.
      split; [done|]. intros k. destruct (decide (raw_of s0 k = D k)) as [|Hn%Hdiff]; [done|set_solver].
    + split; [exact Hc|exact Hrefl|cbn; congruence..|]. exists [c :: cs]. rewrite Er. cbn [notified]. rewrite Hno. split; [done|].
      right. by exists (c :: cs).
  - split; [exact Hc|exact Hrefl|cbn; congruence..|]. exists []. by rewrite app_nil_r, Er.
Qed.

Lemma loadAll_settled D s0 : all_valid D -> forall pages rest P l s,
  load_inv D s0 P l s -> (forall n, is_Some (D n) -> n ∈ P \/ rest n) -> shows_from D pages rest ->
  exists s', loadAll_from pages l s = (Done, s') /\ settled D s0 s'.
Proof.
  intros Hv. induction pages as [|p pages IH]; intros rest P l s Hi Hrest; cbn [shows_from]; [done|].
  intros (names & [Hl (data & Hb & Hd)] & Hs). cbn [loadAll_from]. rewrite Hl, Hb, length_fmap.
  destruct (load_entries (defKey <$> names) data l s) as [l1 s1] eqn:El.
  pose proof (load_entries_inv D s0 Hv _ _ _ _ _ _ _ Hi Hd El) as Hi1.
  assert ((if (0 <? length names)%nat then inr (l1, s1) else inr (l, s)) = (inr (l1, s1) : JsError + load * t)) as ->.
  { destruct names; [|done]. destruct data; [|done]. cbn in El. by injection El as -> ->. }
  assert (forall n, is_Some (D n) -> n ∈ P ++ names \/ (rest n /\ n ∉ names)) as Hrest1.
  { intros n [?|?]%Hrest; rewrite elem_of_app; [tauto|]. destruct (decide (n ∈ names)); tauto. }
  case_decide as Hp.
  - rewrite bool_decide_eq_false_2 by tauto. eexists. split; [done|].
    apply (load_end_settled D s0 (P ++ names)); [|done].
    intros n [?|?]%Hrest1; [done|]. by destruct (Hs n).
  - rewrite bool_decide_eq_true_2 by done.
    exact (IH _ _ _ _ Hi1 Hrest1 Hs).
Qed.

Lemma loadAll_shows D pages s : coherent s -> all_valid D -> shows D pages ->
  exists s', loadAll pages s = (Done, s') /\ settled D s s'.
Proof.
  intros Hc Hv Hs.
  apply (loadAll_settled D s Hv pages (fun n => is_Some (D n)) []); [|intros n ?; by right|exact Hs].
  split; [done|done|done| |]; intros k; cbn [seen changed]; rewrite !elem_of_nil; tauto.
Qed.

(** ** Events *)

Lemma raw_of_reflects D s n : reflects D s -> all_valid D -> raw_of s n = D n.
Proof.
  intros Hr Hv. unfold raw_of. rewrite Hr. destruct (D n) as [raw|] eqn:E; [|done].
  apply entry_of_raw. by eapply Hv.
Qed.

Lemma notify_one D D' s n (b : bool) :
  (b = true <-> D n <> D' n) -> (forall k, k <> n -> D k = D' k) ->
  exists told, notified (if b then notifyChange [n] s else s) = notified s ++ told /\
    if isReady s then announced D D' told else told = [].
Proof.
  intros Hb Hk. destruct b.
  - unfold notifyChange. destruct (isReady s); cbn [negb orb length Nat.eqb].
    + exists [[n]]. split; [done|]. right. exists [n]. split; [done|]. split; [done|]. intros k.
      rewrite list_elem_of_singleton. split; [intros ->; by apply Hb|].
      intros Hn. destruct (decide (k = n)); [done|]. by destruct Hn; apply Hk.
    + exists []. by rewrite app_nil_r.
  - exists []. rewrite app_nil_r. split; [done|]. destruct (isReady s); [|done]. left. split; [done|].
    intros k. destruct (decide (k = n)) as [->|?]; [|by apply Hk].
    destruct (decide (D n = D' n)) as [|Hn]; [done|]. by apply Hb in Hn.
Qed.

Lemma notify_frame (b : bool) ns s : let s' := if b then notifyChange ns s else s in
  state s' = state s /\ isReady s' = isReady s /\ closed s' = closed s /\ reported s' = reported s.
Proof. cbv zeta. destruct b; [|done]. unfold notifyChange. by destruct (_ || _). Qed.

Lemma settled_intro D D' s s1 n (b : bool) :
  same_frame s s1 -> coherent s1 -> reflects D' s1 ->
  (forall k, raw_of s k = D k) -> (b = true <-> D n <> D' n) -> (forall k, k <> n -> D k = D' k) ->
  settled D' s (if b then notifyChange [n] s1 else s1).
Proof.
  intros (Hr & Hc & Hn & He) Hco Hre Hraw Hb Hk.
  destruct (notify_frame b [n] s1) as (Hs' & Hr' & Hc' & He').
  cbv zeta in *. destruct (notify_one D D' s1 n b Hb Hk) as (told & Ht & Ha).
  split; [| |congruence..|].
  - intros k d raw. rewrite Hs'. apply Hco.
  - intros k. rewrite Hs'. apply Hre.
  - exists told. rewrite Ht, Hn. split; [done|]. rewrite Hr in Ha. destruct (isReady s); [|done].
    destruct Ha as [[? Ha]|(names & ? & ? & Ha)].
    + left. split; [done|]. intros k. by rewrite Hraw.
    + right. exists names. split_and!; [done..|]. intros k. by rewrite Ha, Hraw.
Qed.

Definition event_effect (D : defs) (e : WatchEvent) : defs :=
  match e with
  | ev_ready => D
  | ev_set key value _ => update (flag_name key) (Some value) D
  | ev_del key _ => update (flag_name key) None D
  end.

Lemma on_event_settled D s e : coherent s -> reflects D s -> closed s = false ->
  all_valid D -> all_valid (event_effect D e) -> settled (event_effect D e) s (on_event s e).
Proof.
  intros Hc Hr Hcl Hv Hv'. unfold on_event. rewrite Hcl.
  pose proof (fun k => raw_of_reflects D s k Hr Hv) as Hraw.
  destruct e as [|key raw r|key r]; cbn [event_effect] in *.
  - by apply (settled_intro D D s s [] false).
  - assert (valid raw) as Hval.
    { apply (Hv' (flag_name key)). unfold update. by rewrite decide_True. }
    destruct (applyValue _ raw (see_revision r s)) as [b s1] eqn:Ha.
    apply applyValue_valid in Ha as (Hc1 & Hf1 & Hs1 & Hb);
      [|intros k d0 raw0; rewrite see_revision_state; apply Hc|done].
    rewrite see_revision_state in Hb. fold (raw_of s (flag_name key)) in Hb. rewrite Hraw in Hb.
    apply (settled_intro D).
    + eapply same_frame_trans; [apply see_revision_frame|done].
    + done.
    + intros k. rewrite Hs1, see_revision_state. unfold update. by destruct (decide _).
    + done.
    + unfold update. by rewrite decide_True.
    + intros k Hk. unfold update. by rewrite decide_False.
  - rewrite see_revision_state.
    set (s1 := with_state (map_delete (flag_name key)) (see_revision r s)).
    assert (reflects (update (flag_name key) None D) s1) as Hre.
    { intros k. unfold s1, update. cbn. rewrite map_get_delete, see_revision_state. by destruct (decide _). }
    pose proof (Hraw (flag_name key)) as Hn. unfold raw_of in Hn.
    destruct (map_get (flag_name key) (state s)) as [x|] eqn:Eg;
      cbn [fmap option_fmap option_map] in Hn.
    + apply (settled_intro D _ s s1 (flag_name key) true); [apply see_revision_frame| |done..| |].
      * intros k d raw. unfold s1. cbn. rewrite map_get_delete, see_revision_state.
        destruct (decide _); [done|apply Hc].
      * unfold update. rewrite decide_True, <- Hn by done. done.
      * intros k Hk. unfold update. by rewrite decide_False.
    + apply (settled_intro D _ s _ (flag_name key) false); [apply see_revision_frame| | |done| |].
      * intros k d raw. rewrite see_revision_state. apply Hc.
      * intros k. rewrite see_revision_state, Hr. unfold update.
        destruct (decide _) as [->|]; [by rewrite <- Hn|done].
      * unfold update. rewrite decide_True, <- Hn by done. done.
      * intros k Hk. unfold update. by rewrite decide_False.
Qed.

(** ** Histories

    What happens to a snapshot after its initial load: an event of the watch, or a
    load of the polling timer. *)
Inductive happening :=
  | Event (e : WatchEvent)
  | Poll (pages : list page).

Definition apply (h : happening) (s : t) : option t :=
  match h with
  | Event e => Some (on_event s e)
  | Poll pages => poll pages s
  end.

(** The contents [D'] of the server after [h] when they were [D] before: those that
    the event makes of them, or any that the load then shows. *)
Definition becomes (D : defs) (h : happening) (D' : defs) : Prop :=
  all_valid D' /\
  match h with
  | Event e => D' = event_effect D e
  | Poll pages => shows D' pages
  end.

(** The history [l] with the contents of the server after each step. *)
Fixpoint history (D : defs) (l : list (happening * defs)) : Prop :=
  match l with
  | [] => True
  | (h, D') :: l => becomes D h D' /\ history D' l
  end.

(** Through a history the snapshot has the definitions of the server and announces the
    changes. *)
Fixpoint tracks (D : defs) (s : t) (l : list (happening * defs)) : Prop :=
  match l with
  | [] => True
  | (h, D') :: l => exists s' told, apply h s = Some s' /\
      (forall n, get n s' = D' n ≫= decoded) /\
      notified s' = notified s ++ told /\ announced D D' told /\ reported s' = reported s /\
      tracks D' s' l
  end.

Lemma get_reflects D s n : reflects D s -> get n s = D n ≫= decoded.
Proof.
  intros Hr. unfold get. rewrite Hr. destruct (D n) as [raw|]; [|done]. cbn. unfold entry_of.
  by destruct (decoded raw).
Qed.

Lemma apply_settled D s h D' : coherent s -> reflects D s -> closed s = false -> all_valid D ->
  becomes D h D' -> exists s', apply h s = Some s' /\ settled D' s s'.
Proof.
  intros Hc Hr Hcl Hv [Hv' Hb]. destruct h as [e|pages]; cbn in *.
  - subst D'. eexists. split; [done|]. by apply on_event_settled.
  - destruct (loadAll_shows D' pages s Hc Hv' Hb) as (s' & Hl & Hs). unfold poll. rewrite Hl. eauto.
Qed.

Lemma tracks_history D l : forall s, coherent s -> reflects D s -> closed s = false ->
  isReady s = true -> all_valid D -> history D l -> tracks D s l.
Proof.
  revert D. induction l as [|[h D'] l IH]; intros D s Hc Hr Hcl Hre Hv; [done|].
  intros [Hb Hl]. destruct (apply_settled _ _ _ _ Hc Hr Hcl Hv Hb) as (s' & Ha & [Hc' Hr' Hre' Hcl' Hrep' Hn']).
  destruct Hn' as (told & Hn & Ht). rewrite Hre in Ht. cbn [tracks]. exists s', told. split_and!; try done.
  - intros n. by apply get_reflects.
  - destruct Ht as [[? Ht]|(names & ? & ? & Ht)].
    + left. split; [done|]. intros k. by rewrite <- Ht, (raw_of_reflects D).
    + right. exists names. split_and!; [done..|]. intros k. by rewrite Ht, (raw_of_reflects D).
  - apply IH; [done|done|congruence|congruence|by destruct Hb|done].
Qed.

(** C23: Take definitions that are valid at all times, and loads whose pages all show one
    state of the server.  After an initial load of the definitions, and through any
    sequence of watch events and of loads by the polling timer, whatever changed before
    each load, the snapshot has for every flag exactly the decoded definition that the
    server has, the callback [onChange] is called at most once for each event or load,
    with exactly the names of the flags whose bytes are different from before, never
    for the initial load, and no error is reported. *)
Theorem snapshot_follows (D : defs) (pages : list page) (l : list (happening * defs)) :
  all_valid D -> shows D pages -> history D l ->
  exists s, runInitialLoad pages new = Some s /\ isReady s = true /\
    (forall n, get n s = D n ≫= decoded) /\ notified s = [] /\ reported s = [] /\ tracks D s l.
Proof.
  intros Hv Hs Hl. destruct (loadAll_shows D pages new) as (s & Ha & [Hc Hr Hre Hcl Hrep (told & Hn & Ht)]); [done..|].
  unfold runInitialLoad. rewrite Ha. exists (set_ready s). cbn in Ht. subst told. split_and!; try done.
  - intros n. by apply (get_reflects D (set_ready s)).
  - by apply tracks_history.
Qed.

End Snapshot.
End Snapshot.

(** ** Witnesses *)

Module SnapshotExamples.
Import Snapshot.

(** Definitions are texts that begin with [t] or [f]. *)
#[local] Instance toy_text : JsText := {
  text_decode := fun b => b;
  json_parse := fun s => match s with
    | [] => None
    | c :: _ => Some (JObj [(lit "on", JBool (c =? 116))])
    end;
  text_decode_ascii := fun b _ => eq_refl;
}.

Definition ex_defs0 : defs := update (lit "a") (Some (lit "t1")) (fun _ => None).
Definition ex_defs1 : defs := update (lit "b") (Some (lit "f2")) ex_defs0.
Definition ex_defs2 : defs := update (lit "b") (Some (lit "t3")) (fun _ => None).

Definition ex_page (l : list (js_string * (bytes * Z))) (more : bool) : page :=
  {| list_reply := Ok (defKey <$> l.*1, more); batch_reply := Ok (Some <$> l.*2) |}.

(** A load with one flag; a second one is added; a load in which the first is gone and
    the second has changed. *)
Definition ex_first : list page := [ex_page [(lit "a", (lit "t1", 10))] true; ex_page [] false].
Definition ex_second : list page := [ex_page [(lit "b", (lit "t3", 14))] false].
Definition ex_history : list (happening * defs) :=
  [(Event (ev_set (defKey (lit "b")) (lit "f2") 11), ex_defs1); (Poll ex_second, ex_defs2)].

Lemma update_valid D n raw : all_valid D -> valid raw -> all_valid (update n (Some raw) D).
Proof. intros Hv Hr k raw'. unfold update. destruct (decide _); [by intros [= <-]|apply Hv]. Qed.

Lemma snapshot_follows_witness :
  exists s, runInitialLoad ex_first new = Some s /\ isReady s = true /\
    (forall n, get n s = ex_defs0 n ≫= decoded) /\ notified s = [] /\ reported s = [] /\
    tracks ex_defs0 s ex_history.
Proof.
  assert (all_valid ex_defs0) as H0 by (apply update_valid; [done|by eexists]).
  refine (snapshot_follows ex_defs0 ex_first ex_history H0 _ _).
  - exists [lit "a"]. split; [split; [done|by eexists]|]. exists []. split; [split; [done|by eexists]|].
    cbn. intros n [[[raw Hn] Ha] _]. unfold ex_defs0, update in Hn.
    destruct (decide _) as [->|]; [|done]. by destruct Ha; left.
  - cbn [history ex_history]. split; [split; [by apply update_valid; [|eexists]|done]|].
    split; [|done]. split; [by apply update_valid; [done|eexists]|].
    exists [lit "b"]. split; [split; [done|by eexists]|].
    cbn. intros n [[raw Hn] Hb]. unfold ex_defs2, update in Hn.
    destruct (decide _) as [->|]; [|done]. by destruct Hb; left.
Defined.

(** The callbacks of that run: the flag that was added, then the two that changed. *)
Lemma ex_announcements : exists s s' s'', runInitialLoad ex_first new = Some s /\
  apply (Event (ev_set (defKey (lit "b")) (lit "f2") 11)) s = Some s' /\ apply (Poll ex_second) s' = Some s'' /\
  notified s'' = [[lit "b"]; [lit "b"; lit "a"]].
Proof. do 3 eexists. split; [vm_compute; reflexivity|]. split; [vm_compute; reflexivity|].
  split; vm_compute; reflexivity. Qed.
End SnapshotExamples.
