(* ===== verification/FlagsSync.v ===== *)
(** * Flags that follow a server

    The snapshot of the flags of a client ([FlagsSnapshot]) fed by the replay of a
    namespace log of the server ([Stream]).  A client that was disconnected asks for the
    changes since the highest revision it has seen; [snapshot_catches_up] shows that it
    then has the present definitions.  The last part are runs in which the revision is
    not that of a moment whose state the client had, and a change is lost. *)

From stdpp Require Import base tactics numbers list gmap sorting strings.
From Stdlib Require Import ZArith Lia.
From S2P Require Import Prelude Record Index LogFile ValueStore NsLog NsRepr NsSpec Reclaim NsBatch NsSim NsContract NsJournal Watch Stream Ascii Js FlagsSnapshot.

Open Scope Z_scope.

Section Sync.
Context {crc_impl : CrcFast} {blake : Blake3} {serde : SerdeJson} {js : JsText}.

(** An event of the server as the client sees it. *)
Definition sdk_event (ev : WatchEvent) : Snapshot.WatchEvent :=
  match ev with
  | EvSet k v _ _ r => Snapshot.ev_set (text_decode k) v r
  | EvDel k r => Snapshot.ev_del (text_decode k) r
  end.

(** The flag definitions in a namespace log. *)
Definition flag_defs (ns : NsLog.t) : Snapshot.defs :=
  fun n => (fun v => v.1.1) <$> Stream.view ns (DEF_PREFIX ++ n).

Definition is_ascii (b : bytes) : Prop := Forall (fun c => 0 <= c < 128) b.

(** A definition of a flag with an ASCII name, or its removal. *)
Definition proper_event (ev : WatchEvent) : Prop :=
  is_ascii (Stream.event_key ev) /\
  match ev with EvSet _ v _ _ _ => Snapshot.valid v | EvDel _ _ => True end.

(** Keys that the watch of the client matches. *)
Lemma prefixed k : filter_matches (Prefix DEF_PREFIX) k = true -> exists n, k = DEF_PREFIX ++ n.
Proof.
  cbn [filter_matches]. unfold starts_with. intros Hk%bool_decide_eq_true.
  exists (drop (length DEF_PREFIX) k). rewrite <- Hk at 1. by rewrite take_drop.
Qed.

Lemma event_effect_follow (D : Snapshot.defs) cur ev n :
  D n = (fun v : bytes * option json * Z => v.1.1) <$> cur ->
  filter_matches (Prefix DEF_PREFIX) (Stream.event_key ev) = true -> proper_event ev ->
  Snapshot.event_effect D (sdk_event ev) n
  = (fun v => v.1.1) <$> Stream.follow (DEF_PREFIX ++ n) cur ev.
Proof.
  intros HD [m Hm]%prefixed [Ha _].
  assert (flag_name (text_decode (Stream.event_key ev)) = m) as Hname.
  { rewrite text_decode_ascii by done. rewrite Hm. apply Snapshot.flag_name_defKey. }
  assert (forall k, k = DEF_PREFIX ++ m -> (k = DEF_PREFIX ++ n <-> n = m)) as Hk.
  { intros k ->. split; [by intros ->%app_inv_head|by intros ->]. }
  destruct ev as [k v mt exp r|k r]; cbn in *; unfold Snapshot.update; rewrite Hname;
    rewrite (decide_ext _ _ _ _ (Hk _ Hm)); by destruct (decide (n = m)).
Qed.

Lemma event_effect_valid D ev :
  Snapshot.all_valid D -> proper_event ev -> Snapshot.all_valid (Snapshot.event_effect D (sdk_event ev)).
Proof.
  intros Hv [_ He] n raw. destruct ev as [k v mt exp r|k r]; cbn; unfold Snapshot.update;
    destruct (decide _); try apply Hv; [by intros [= <-]|done].
Qed.

Lemma follow_events events : forall D s (cur : js_string -> option (bytes * option json * Z)),
  (forall n, D n = (fun v => v.1.1) <$> cur n) ->
  Snapshot.coherent s -> Snapshot.reflects D s -> Snapshot.closed s = false -> Snapshot.all_valid D ->
  (forall ev, ev ∈ events -> filter_matches (Prefix DEF_PREFIX) (Stream.event_key ev) = true) ->
  Forall proper_event events ->
  forall n, Snapshot.get n (foldl Snapshot.on_event s (sdk_event <$> events))
  = ((fun v => v.1.1) <$> foldl (Stream.follow (DEF_PREFIX ++ n)) (cur n) events) ≫= Snapshot.decoded.
Proof.
  induction events as [|ev events IH]; intros D s cur HD Hc Hr Hcl Hv Hm Hp n.
  { cbn. rewrite (Snapshot.get_reflects D s n Hr). by rewrite HD. }
  apply Forall_cons in Hp as [Hev Hp].
  assert (filter_matches (Prefix DEF_PREFIX) (Stream.event_key ev) = true) as Hmev by (apply Hm; left).
  pose proof (event_effect_valid D ev Hv Hev) as Hv'.
  destruct (Snapshot.on_event_settled D s (sdk_event ev) Hc Hr Hcl Hv Hv') as [Hc' Hr' _ Hcl' _ _].
  rewrite fmap_cons. cbn [foldl].
  rewrite (IH (Snapshot.event_effect D (sdk_event ev)) (Snapshot.on_event s (sdk_event ev))
    (fun n => Stream.follow (DEF_PREFIX ++ n) (cur n) ev)); try done; try congruence.
  - intros k. by apply event_effect_follow.
  - intros ev' ?. apply Hm. by right.
Qed.

(** C15: A client whose snapshot had the definitions of a namespace at the moment of the
    highest revision it has seen, and which was then disconnected, has the present ones
    after it has applied what a watch from that revision replays: every flag that was
    added, changed or removed is.  In between the server did any writes, batches,
    deletes, expiry changes, syncs and rotations, ones with failing writes included, but
    no flush, compaction, shutdown or reopening, and no rotation that failed in the
    fsync of the footer or in the opening of the next file.  The definitions at the
    start are valid, no record of the log has an empty key, its active file is not
    poisoned and does not end like a footer, and file ids are left. *)
Theorem snapshot_catches_up cfg tr0 ns0 tr ns (s : Snapshot.t) :
  runs (fresh cfg) tr0 ns0 -> forallb (fun p => in_service p.1) tr0 = true ->
  runs ns0 tr ns -> forallb (fun p => in_service p.1 && negb (is_flush p.1))%bool tr = true ->
  LogFile.file_id (NsLog.active ns0) < u32_max -> LogFile.file_id (NsLog.active ns) < u32_max ->
  LogFile.poisoned (NsLog.active ns0) = false -> Stream.scannable ns ->
  Snapshot.coherent s -> Snapshot.reflects (flag_defs ns0) s -> Snapshot.closed s = false ->
  Snapshot.all_valid (flag_defs ns0) ->
  Snapshot.watch_since s = Some (NsLog.last_revision ns0) ->
  exists since events, Snapshot.watch_since s = Some since /\
    Stream.scan_since ns (Prefix DEF_PREFIX) since = Ok events /\
    (Forall proper_event events -> forall n,
      Snapshot.get n (foldl Snapshot.on_event s (sdk_event <$> events)) = flag_defs ns n ≫= Snapshot.decoded).
Proof.
  intros Hr0 Hin0 Hr Hin Hid0 Hid Hp0 Hsc Hc Hre Hcl Hv Hsince.
  destruct (Stream.replay_complete cfg tr0 ns0 tr ns (Prefix DEF_PREFIX)) as (events & Hs & _ & Hm & Hf); [done..|].
  exists (NsLog.last_revision ns0), events. split; [done|]. split; [done|]. intros Hp n.
  rewrite (follow_events events (flag_defs ns0) s (fun n => Stream.view ns0 (DEF_PREFIX ++ n))); try done.
  - rewrite Hf; [done|]. cbn [filter_matches]. unfold starts_with. apply bool_decide_eq_true. by rewrite take_app_length.
  - intros ev ?. by apply Hm.
Qed.
End Sync.

(** ** Concrete runs *)

Module SyncExamples.
#[local] Existing Instance WatchRegistry.bytes_json.

#[local] Existing Instance SnapshotExamples.toy_text.

Definition def_a : bytes := defKey (lit "a").
Definition def_b : bytes := defKey (lit "b").

Definition ex_defs : list call := [ Put def_a (lit "t1") [] None 1000 no_faults ].
Definition ex_start : NsLog.t := final ex_cfg ex_defs.

(** The flag [a] is switched off, [b] is added and removed again, another key is
    written. *)
Definition ex_changes : list call :=
  [ Put def_a (lit "f2") [] None 2000 no_faults; Put def_b (lit "t3") [] None 2001 no_faults;
    Tombstone def_b 2002 no_faults; Put (lit "other") [1] [] None 2003 no_faults ].
Definition ex_after : list (call * eresult out) * NsLog.t :=
  match exec ex_changes ex_start with Some p => p | None => ([], ex_start) end.

(** The client has loaded the flags of [ex_start]. *)
Definition ex_snapshot : Snapshot.t :=
  foldl Snapshot.on_event (Snapshot.set_ready Snapshot.new) [Snapshot.ev_set def_a (lit "t1") 1000].

Lemma ex_after_runs : runs ex_start ex_after.1 ex_after.2.
Proof.
  unfold ex_after. destruct (exec ex_changes ex_start) as [[tr ns]|] eqn:He; [|constructor].
  exact (exec_runs _ _ _ _ He).
Qed.

Lemma ex_after_scannable : Stream.scannable ex_after.2.
Proof.
  assert (map_Forall (fun _ f => is_u64 (LogFile.size f) /\ Stream.keyed f = true) (NsLog.sealed ex_after.2)) as Hall.
  { apply (bool_decide_unpack _). vm_compute. exact I. }
  split; [exact Hall|vm_compute; reflexivity..].
Qed.

Lemma ex_start_defs n : flag_defs ex_start n = if decide (n = lit "a") then Some (lit "t1") else None.
Proof.
  unfold flag_defs, Stream.view, observe, NsIndex.get.
  set (e := NsIndex.map (NsLog.index ex_start) !! def_a).
  assert (NsIndex.map (NsLog.index ex_start) = match e with Some e => {[ def_a := e ]} | None => ∅ end) as Hm.
  { vm_compute. reflexivity. }
  destruct (decide (n = lit "a")) as [->|Hn]; [vm_compute; reflexivity|].
  assert (NsIndex.map (NsLog.index ex_start) !! (DEF_PREFIX ++ n) = None) as ->; [|done].
  rewrite Hm. destruct e; [|done]. apply lookup_singleton_ne. unfold def_a, defKey.
  by intros ?%app_inv_head.
Qed.

Lemma ex_snapshot_reflects : Snapshot.reflects (flag_defs ex_start) ex_snapshot.
Proof.
  intros n. rewrite ex_start_defs.
  replace (Snapshot.state ex_snapshot) with [(lit "a", (JObj [(lit "on", JBool true)], lit "t1"))]
    by (vm_compute; reflexivity).
  cbn [map_get]. destruct (decide (n = lit "a")) as [->|Hn]; [by rewrite bytes_eqb_refl|].
  destruct (n =b lit "a") eqn:E; [by apply bytes_eqb_spec in E|done].
Qed.

Lemma ex_snapshot_coherent : Snapshot.coherent ex_snapshot.
Proof.
  intros n d raw.
  replace (Snapshot.state ex_snapshot) with [(lit "a", (JObj [(lit "on", JBool true)], lit "t1"))]
    by (vm_compute; reflexivity).
  cbn [map_get]. destruct (n =b lit "a"); [|done]. by intros [= <- <-].
Qed.

Lemma snapshot_catches_up_witness :
  exists since events, Snapshot.watch_since ex_snapshot = Some since /\
    Stream.scan_since ex_after.2 (Prefix DEF_PREFIX) since = Ok events /\
    (Forall proper_event events -> forall n,
      Snapshot.get n (foldl Snapshot.on_event ex_snapshot (sdk_event <$> events))
      = flag_defs ex_after.2 n ≫= Snapshot.decoded).
Proof.
  refine (snapshot_catches_up ex_cfg (trace ex_cfg ex_defs) ex_start ex_after.1 ex_after.2 ex_snapshot
    (final_runs _ _) _ ex_after_runs _ _ _ _ ex_after_scannable ex_snapshot_coherent ex_snapshot_reflects _ _ _).
  - vm_compute. reflexivity.
  - vm_compute. reflexivity.
  - apply (bool_decide_unpack _). vm_compute. exact I.
  - apply (bool_decide_unpack _). vm_compute. exact I.
  - vm_compute. reflexivity.
  - vm_compute. reflexivity.
  - intros n raw. rewrite ex_start_defs. destruct (decide _); [|done]. intros [= <-]. by eexists.
  - vm_compute. reflexivity.
Defined.

(** The events of that replay. *)
Lemma ex_sync_replay :
  Stream.scan_since ex_after.2 (Prefix DEF_PREFIX) 1000
  = Ok [ EvSet def_a (lit "f2") None None 2000; EvSet def_b (lit "t3") None None 2001; EvDel def_b 2002 ].
Proof. vm_compute. reflexivity. Qed.

(** A page of the keys [names] with the values that the log has for them. *)
Definition page_of (ns : NsLog.t) (names : list bytes) (more : bool) : Snapshot.page :=
  {| Snapshot.list_reply := Ok (names, more);
     Snapshot.batch_reply := Ok ((fun k => (fun v => (v.1.1, v.2)) <$> Stream.view ns k) <$> names) |}.

Definition ex_between : list call :=
  [ Put def_a (lit "f2") [] None 1001 no_faults; Put def_b (lit "t3") [] None 1002 no_faults ].

(** A change that is made while the flags are loaded can be lost.  The client reads the
    flag [a]; then [a] is switched off, at revision 1001, and [b] added, at 1002; the
    client reads [b].  It has now seen the revision 1002 and watches from there: the
    replay does not have the change of [a], and no later event brings it. *)
Theorem load_misses_change :
  let before := final ex_cfg ex_defs in
  let ns := final ex_cfg (ex_defs ++ ex_between) in
  exists s, Snapshot.runInitialLoad [page_of before [def_a] true; page_of ns [def_b] false] Snapshot.new = Some s /\
    Snapshot.reported s = [] /\ Snapshot.watch_since s = Some 1002 /\
    Stream.scan_since ns (Prefix DEF_PREFIX) 1002 = Ok [] /\
    Snapshot.get (lit "a") s = Some (JObj [(lit "on", JBool true)]) /\
    (flag_defs ns (lit "a") ≫= Snapshot.decoded) = Some (JObj [(lit "on", JBool false)]).
Proof. cbv zeta. eexists. split; [vm_compute; reflexivity|]. split_and!; vm_compute; reflexivity. Qed.

(** The second of two pages fails. *)
Definition failed_page : Snapshot.page :=
  {| Snapshot.list_reply := Err KvError; Snapshot.batch_reply := Err KvError |}.

Definition ex_older : list call :=
  [ Put def_b (lit "t3") [] None 1000 no_faults; Put def_a (lit "t1") [] None 1001 no_faults ].

(** A load that fails after its first page leaves a gap.  The client has read the page
    with [a], written at revision 1001, when the request for the next page fails; it
    then watches from 1001, and is never sent the flag [b], which was written before. *)
Theorem failed_load_leaves_gap :
  let ns := final ex_cfg ex_older in
  exists s, Snapshot.runInitialLoad [page_of ns [def_a] true; failed_page] Snapshot.new = Some s /\
    Snapshot.isReady s = true /\ Snapshot.watch_since s = Some 1001 /\
    Stream.scan_since ns (Prefix DEF_PREFIX) 1001 = Ok [] /\
    Snapshot.get (lit "b") s = None /\
    (flag_defs ns (lit "b") ≫= Snapshot.decoded) = Some (JObj [(lit "on", JBool true)]).
Proof. cbv zeta. eexists. split; [vm_compute; reflexivity|]. split_and!; vm_compute; reflexivity. Qed.
End SyncExamples.
