(* ===== verification/Clients.v ===== *)
(** * Clients of a server

    Code of the SDK that makes several requests is a program: it reads the clock, calls
    the server and waits for the reply, waits for the deletion of a key, or runs code of
    its caller.  Programs of many clients run side by side on one namespace of a server,
    and every step of one of them may be followed by a step of any other ([step]).  What
    a call does is the specification of the operation ([spec_op]), which the store and
    the HTTP interface implement ([StoreRun], [HttpRefine]).  The clients and the server
    read the same clock. *)

From stdpp Require Import base tactics numbers list gmap strings.
From Stdlib Require Import ZArith Lia.
From S2P Require Import Prelude Ascii NsRepr Watch Store StoreInv StoreSpec StoreRefine.

Open Scope Z_scope.

Section Clients.
Context {serde : SerdeJson}.

(** [Kv o f] calls the server and goes on with the reply; [Watch k p] subscribes to the
    key [k], [Watching k p] waits for an event of its deletion and goes on with [p];
    [Work f] runs code of the caller, which returns ([true]) or throws. *)
Inductive prog (A : Type) : Type :=
  | Ret (a : A)
  | Now (f : Z -> prog A)
  | Kv (o : op) (f : eresult reply -> prog A)
  | Watch (k : bytes) (p : prog A)
  | Watching (k : bytes) (p : prog A)
  | Work (f : bool -> prog A).

Arguments Ret {A} a.
Arguments Now {A} f.
Arguments Kv {A} o f.
Arguments Watch {A} k p.
Arguments Watching {A} k p.
Arguments Work {A} f.

(** Continues where a program returns. *)
Fixpoint bind {A B} (p : prog A) (g : A -> prog B) : prog B :=
  match p with
  | Ret a => g a
  | Now f => Now (fun t => bind (f t) g)
  | Kv o f => Kv o (fun r => bind (f r) g)
  | Watch k p => Watch k (bind p g)
  | Watching k p => Watching k (bind p g)
  | Work f => Work (fun b => bind (f b) g)
  end.

(** Whether the deletion of [k] is among the events. *)
Definition deletes (k : bytes) (evs : list (bytes * WatchEvent)) : bool :=
  existsb (fun e => match e.2 with EvDel k' _ => bool_decide (k' = k) | _ => false end) evs.

Definition wake {A} (evs : list (bytes * WatchEvent)) (p : prog A) : prog A :=
  match p with
  | Watching k p' => if deletes k evs then p' else p
  | _ => p
  end.

(** The clock, the namespace, the programs, and the calls that were made: when, by
    which program, with which reply. *)
Record world (A : Type) := mkWorld {
  clock : Z;
  server : space;
  pool : list (prog A);
  calls : list (Z * nat * op * eresult reply);
}.

Arguments mkWorld {A} clock server pool calls.
Arguments clock {A}.
Arguments server {A}.
Arguments pool {A}.
Arguments calls {A}.

(** What others do to a namespace, who leave the key [K] alone; they may find out that
    it has expired. *)
Definition elsewhere (K : bytes) (now : Z) (sp sp' : space) : Prop :=
  sp_last sp <= sp_last sp' /\
  (sp_map sp' !! K = sp_map sp !! K \/ find now (sp_map sp) K = None /\ sp_map sp' !! K = None).

Section Steps.
Context {A : Type} (client : nat -> prog A) (K : bytes).

(** A watch also ends by a timeout or by an error of the connection ([step_disturb]). *)
Inductive step (w : world A) : world A -> Prop :=
  | step_tick c : clock w <= c -> step w (mkWorld c (server w) (pool w) (calls w))
  | step_spawn : step w (mkWorld (clock w) (server w) (pool w ++ [client (length (pool w))]) (calls w))
  | step_now i f : pool w !! i = Some (Now f) ->
      step w (mkWorld (clock w) (server w) (<[i := f (clock w)]> (pool w)) (calls w))
  | step_kv i o f inst r sp' evs : pool w !! i = Some (Kv o f) ->
      spec_op o (clock w) inst (server w) r sp' evs ->
      step w (mkWorld (clock w) sp' (wake evs <$> <[i := f r]> (pool w)) (calls w ++ [(clock w, i, o, r)]))
  | step_watch i k p : pool w !! i = Some (Watch k p) ->
      step w (mkWorld (clock w) (server w) (<[i := Watching k p]> (pool w)) (calls w))
  | step_disturb i k p : pool w !! i = Some (Watching k p) ->
      step w (mkWorld (clock w) (server w) (<[i := p]> (pool w)) (calls w))
  | step_work i f b : pool w !! i = Some (Work f) ->
      step w (mkWorld (clock w) (server w) (<[i := f b]> (pool w)) (calls w))
  | step_env sp' evs : elsewhere K (clock w) (server w) sp' -> deletes K evs = false ->
      step w (mkWorld (clock w) sp' (wake evs <$> pool w) (calls w)).

Inductive steps (w : world A) : world A -> Prop :=
  | steps_refl : steps w w
  | steps_snoc w1 w2 : steps w w1 -> step w1 w2 -> steps w w2.

(** A world before the first client, in which the key [K] does not exist. *)
Definition starts (w : world A) : Prop :=
  pool w = [] /\ calls w = [] /\ sp_map (server w) !! K = None.

Lemma steps_inv (P : world A -> Prop) w w' :
  P w -> (forall w1 w2, P w1 -> step w1 w2 -> P w2) -> steps w w' -> P w'.
Proof. intros H0 HS Hw. induction Hw as [|w1 w2 _ IH Hs]; [done|]. by eapply HS. Qed.

Lemma steps_cons w w1 w2 : step w w1 -> steps w1 w2 -> steps w w2.
Proof.
  intros Hs Hw. induction Hw as [|w2 w3 _ IH Hs2]; [|by eapply steps_snoc].
  eapply steps_snoc; [constructor|done].
Qed.

(** ** Phases

    An invariant says of each program in which of its phases it is. *)
Context {Phase : Type} (prog_of : nat -> Phase -> prog A).

Definition labelled (ps : list (prog A)) (phs : nat -> Phase) : Prop :=
  forall i p, ps !! i = Some p -> p = prog_of i (phs i).

Definition upd (i : nat) (ph : Phase) (phs : nat -> Phase) : nat -> Phase :=
  fun j => if decide (j = i) then ph else phs j.

Lemma upd_eq i ph phs : upd i ph phs i = ph.
Proof. unfold upd. by rewrite decide_True. Qed.

Lemma upd_ne i j ph phs : j <> i -> upd i ph phs j = phs j.
Proof. intros. unfold upd. by rewrite decide_False. Qed.

Lemma labelled_insert ps phs i ph p : labelled ps phs -> p = prog_of i ph ->
  labelled (<[i := p]> ps) (upd i ph phs).
Proof.
  intros Hl -> j q. destruct (decide (j = i)) as [->|Hj].
  - rewrite upd_eq. intros Hq. destruct (ps !! i) eqn:E.
    + rewrite list_lookup_insert_eq in Hq by (by eapply lookup_lt_Some). by injection Hq.
    + rewrite list_insert_ge in Hq by (by apply lookup_ge_None). congruence.
  - rewrite upd_ne, list_lookup_insert_ne by done. apply Hl.
Qed.

Lemma labelled_spawn ps phs ph : labelled ps phs -> client (length ps) = prog_of (length ps) ph ->
  labelled (ps ++ [client (length ps)]) (upd (length ps) ph phs).
Proof.
  intros Hl Hc j q. rewrite lookup_app_Some. intros [Hq|[Hj Hq]].
  - rewrite upd_ne; [by apply Hl|]. apply lookup_lt_Some in Hq. lia.
  - apply list_lookup_singleton_Some in Hq as [? <-]. replace j with (length ps) by lia. by rewrite upd_eq.
Qed.

Lemma labelled_wake ps phs evs (wk : Phase -> Phase) : labelled ps phs ->
  (forall i ph, wake evs (prog_of i ph) = prog_of i (wk ph)) ->
  labelled (wake evs <$> ps) (fun i => wk (phs i)).
Proof.
  intros Hl Hw j q. rewrite list_lookup_fmap. destruct (ps !! j) as [p|] eqn:E; [|done].
  intros [= <-]. rewrite (Hl _ _ E). apply Hw.
Qed.
End Steps.

(** ** Calls of [KvClient]

    The results of the HTTP backend: a condition that does not hold is the error with
    the status 409, a key without a value that with 404. *)
Inductive KvError := Conflict409 | NotFound404 | Failed (e : EngineError).

Definition KvResult (A : Type) : Type := result KvError A.

Definition kv_failed {A} (r : eresult reply) : KvResult A :=
  match r with Err e => Err (Failed e) | Ok _ => Err Conflict409 end.

Definition kv_get {A} (k : bytes) (f : KvResult (option Entry) -> prog A) : prog A :=
  Kv (OpGet k) (fun r => f match r with Ok (REntry e) => Ok e | r => kv_failed r end).

(** [set(k, v, { ifAbsent: true, ttl })]; the expiry in milliseconds. *)
Definition kv_set_absent {A} (k v : bytes) (ttl : option Z) (f : KvResult unit -> prog A) : prog A :=
  Kv (OpSetnx k v (mkSetOptions ttl None false)) (fun r =>
    f match r with Ok (RBool true) => Ok () | r => kv_failed r end).

(** [cas(k, v, rev)]. *)
Definition kv_cas {A} (k v : bytes) (rev : Z) (f : KvResult Z -> prog A) : prog A :=
  Kv (OpSetrev k v (mkSetOptions None None false) rev) (fun r =>
    f match r with Ok (RRev (Some n)) => Ok n | r => kv_failed r end).

(** [delete(k, { ifMatch: rev })]. *)
Definition kv_delete_match {A} (k : bytes) (rev : Z) (f : KvResult unit -> prog A) : prog A :=
  Kv (OpDelrev k rev) (fun r => f match r with Ok (RBool true) => Ok () | r => kv_failed r end).

Definition kv_incr {A} (k : bytes) (delta : Z) (f : KvResult Z -> prog A) : prog A :=
  Kv (OpIncr k delta) (fun r => f match r with Ok (RCount n) => Ok n | r => kv_failed r end).

(** [expire(k, { ttlMs })]. *)
Definition kv_expire {A} (k : bytes) (ttlMs : Z) (f : KvResult unit -> prog A) : prog A :=
  Kv (OpExpire k ttlMs) (fun r =>
    f match r with Ok (RBool true) => Ok () | Ok _ => Err NotFound404 | r => kv_failed r end).
End Clients.

Arguments Ret {serde A} a.
Arguments Now {serde A} f.
Arguments Kv {serde A} o f.
Arguments Watch {serde A} k p.
Arguments Watching {serde A} k p.
Arguments Work {serde A} f.
Arguments mkWorld {serde A} clock server pool calls.
Arguments clock {serde A}.
Arguments server {serde A}.
Arguments pool {serde A}.
Arguments calls {serde A}.
