(* ===== verification/Lock.v ===== *)
(** * Locks, [createLockMethods] of [sdk/ts/kv/src/client.ts]

    A lock is a key that holds a random token and expires.  [tryLock] writes the key if
    it is absent, [release] deletes it if it still has the token, [lock] waits for the
    deletion of the key and tries again.  [lock_mutual_exclusion]: whatever the clients
    do, at most one of those whose time has not run out is in its critical section, over
    the HTTP backend, whose deletes are conditional on the revision.  The runs at the
    end show why that condition is needed, and two ways in which [lock] waits for ever
    for a lock that is free. *)

From stdpp Require Import base tactics numbers list gmap strings.
From Stdlib Require Import ZArith Lia.
From S2P Require Import Prelude Ascii NsRepr Watch Store StoreInv StoreSpec StoreMany StoreRefine Clients.

Open Scope Z_scope.

Inductive LockOutcome :=
  | LData
  | LFnError
  | LTimeout
  | LError (e : KvError)
  | LUnfinished.

Section Lock.
Context {serde : SerdeJson}.

(** The delete of [release]: conditional on the revision over HTTP; the RESP backend
    ignores the condition. *)
Definition delete_lock {A} (http : bool) (key : bytes) (rev : Z) (p : prog A) : prog A :=
  if http then kv_delete_match key rev (fun _ => p) else Kv (OpDel [key]) (fun _ => p).

(** [release], whose result its callers ignore, and then [p]. *)
Definition release {A} (http : bool) (key token : bytes) (p : prog A) : prog A :=
  kv_get key (fun getResult =>
    match getResult with
    | Err _ => p
    | Ok None => p
    | Ok (Some entry) => if e_value entry =b token then delete_lock http key (e_revision entry) p else p
    end).

(** [tryLock] with a token and a time to live in seconds: whether the caller has the
    lock now. *)
Definition tryLock {A} (key token : bytes) (ttl : Z) (f : KvResult bool -> prog A) : prog A :=
  kv_set_absent key token (Some (ttl * 1000)) (fun result =>
    match result with
    | Ok _ => f (Ok true)
    | Err Conflict409 => f (Ok false)
    | Err e => f (Err e)
    end).

Record LockOptions := { ttl : Z; timeout : option Z }.

(** One turn of the loop of [lock] after its check of the deadline; [next] is the next
    turn. *)
Definition lock_turn (http : bool) (key token : bytes) (opts : LockOptions) (deadline : option Z)
    (next : prog LockOutcome) : prog LockOutcome :=
  tryLock key token (ttl opts) (fun acquired =>
    match acquired with
    | Err e => Ret (LError e)
    | Ok true => Work (fun returned => release http key token (Ret (if returned then LData else LFnError)))
    | Ok false =>
        match deadline with
        | Some d => Now (fun now => if d - now <=? 0 then next else Watch key next)
        | None => Watch key next
        end
    end).

(** The loop of [lock].  Each turn draws a new token; the loop is cut after [turns]
    turns. *)
Fixpoint lock_loop (http : bool) (key : bytes) (token : nat -> bytes) (opts : LockOptions)
    (deadline : option Z) (turns : nat) : prog LockOutcome :=
  match turns with
  | O => Ret LUnfinished
  | S turns =>
      let turn := lock_turn http key (token turns) opts deadline
                    (lock_loop http key token opts deadline turns) in
      match deadline with
      | Some d => Now (fun now => if d <=? now then Ret LTimeout else turn)
      | None => turn
      end
  end.

Definition lock (http : bool) (key : bytes) (token : nat -> bytes) (opts : LockOptions) (turns : nat)
    : prog LockOutcome :=
  match timeout opts with
  | Some t => Now (fun now => lock_loop http key token opts (Some (now + t)) turns)
  | None => lock_loop http key token opts None turns
  end.

(** ** Leases *)

Definition grants (i : nat) (c : Z * nat * op * eresult reply) : option Z :=
  match c with
  | (t, j, OpSetnx _ _ _, Ok (RBool true)) => if decide (j = i) then Some t else None
  | _ => None
  end.

(** When client [i] was last granted the lock. *)
Definition granted (i : nat) (cs : list (Z * nat * op * eresult reply)) : option Z :=
  last (omap (grants i) cs).

Section Clients.
Context (http : bool) (K : bytes) (token : nat -> nat -> bytes) (opts : nat -> LockOptions) (turns : nat -> nat).

Definition locker (i : nat) : prog LockOutcome := lock http K (token i) (opts i) (turns i).

(** Client [i] has the lock and its time has not run out. *)
Definition leased (w : world LockOutcome) (i : nat) : Prop :=
  exists t, granted i (calls w) = Some t /\ clock w < t + ttl (opts i) * 1000.

Definition in_section (w : world LockOutcome) (i : nat) : Prop := exists f, pool w !! i = Some (Work f).

Inductive phase :=
  | Fresh
  | Looping (d : option Z) (n : nat)
  | Trying (d : option Z) (n : nat)
  | Deciding (d : Z) (n : nat)
  | ToWatch (d : option Z) (n : nat)
  | Waiting (d : option Z) (n : nat)
  | Holding (n : nat)
  | Checking (n : nat) (o : LockOutcome)
  | Removing (n : nat) (o : LockOutcome) (rev : Z)
  | Ended (o : LockOutcome).

Definition prog_of (i : nat) (ph : phase) : prog LockOutcome :=
  let loop d n := lock_loop http K (token i) (opts i) d n in
  match ph with
  | Fresh => locker i
  | Looping d n => loop d n
  | Trying d n => lock_turn http K (token i n) (opts i) d (loop d n)
  | Deciding d n => Now (fun now => if d - now <=? 0 then loop (Some d) n else Watch K (loop (Some d) n))
  | ToWatch d n => Watch K (loop d n)
  | Waiting d n => Watching K (loop d n)
  | Holding n => Work (fun b => release http K (token i n) (Ret (if b then LData else LFnError)))
  | Checking n o => release http K (token i n) (Ret o)
  | Removing n o rev => delete_lock http K rev (Ret o)
  | Ended o => Ret o
  end.

Definition wake_phase (evs : list (bytes * WatchEvent)) (ph : phase) : phase :=
  match ph with
  | Waiting d n => if deletes K evs then Looping d n else ph
  | _ => ph
  end.

Lemma wake_prog evs i ph : wake evs (prog_of i ph) = prog_of i (wake_phase evs ph).
Proof.
  destruct ph as [|d n|d n|d n|d n|d n|n|n o|n o rev|o]; try done; cbn.
  - unfold locker, lock. destruct (timeout (opts i)); [done|]. by destruct (turns i).
  - destruct n; [done|]. by destruct d.
  - by destruct (deletes K evs).
  - unfold delete_lock. by destruct http.
Qed.
(** A phase whose program begins with what its name says. *)
Definition settle (i : nat) (ph : phase) : phase :=
  let looping d n :=
    match n with
    | O => Ended LUnfinished
    | S n' => match d with Some _ => Looping d n | None => Trying None n' end
    end in
  match ph with
  | Fresh => match timeout (opts i) with Some _ => Fresh | None => looping None (turns i) end
  | Looping d n => looping d n
  | _ => ph
  end.

Lemma settle_prog i ph : prog_of i (settle i ph) = prog_of i ph.
Proof.
  destruct ph as [|d n| | | | | | | |]; try done; cbn.
  - unfold locker, lock. destruct (timeout (opts i)) eqn:E; cbn; [unfold locker, lock; by rewrite E|].
    by destruct (turns i).
  - destruct n; [done|]. by destruct d.
Qed.

Definition active {A} (p : prog A) : bool :=
  match p with Watch _ _ | Watching _ _ | Work _ => true | _ => false end.

Lemma active_prog i ph :
  active (prog_of i ph) = match ph with ToWatch _ _ | Waiting _ _ | Holding _ => true | _ => false end.
Proof.
  destruct ph as [|d n| | | | | | | |]; try done; cbn.
  - unfold locker, lock. destruct (timeout (opts i)); [done|]. by destruct (turns i).
  - destruct n; [done|]. by destruct d.
  - unfold delete_lock. by destruct http.
Qed.

(** The phases of a program that watches, waits or works. *)
Lemma active_cases i ph p : p = prog_of i ph -> active p = true ->
  (exists d n, ph = ToWatch d n) \/ (exists d n, ph = Waiting d n) \/ exists n, ph = Holding n.
Proof. intros -> Ha. rewrite active_prog in Ha. destruct ph; naive_solver. Qed.

(** ** The invariant *)

Definition entry (w : world LockOutcome) : option aentry := sp_map (server w) !! K.

Definition held (w : world LockOutcome) (i n : nat) : Prop :=
  exists t, granted i (calls w) = Some t /\
    (clock w < t + ttl (opts i) * 1000 -> exists a, entry w = Some a /\
      a_value a = token i n /\ a_expires a = Some (t + ttl (opts i) * 1000)).

Definition good (w : world LockOutcome) (i : nat) (ph : phase) : Prop :=
  match ph with
  | Holding n | Checking n _ => held w i n
  | Removing n _ rev => held w i n /\ rev <= sp_last (server w) /\
      forall a, entry w = Some a -> a_rev a = rev -> a_value a = token i n
  | _ => True
  end.

Record lock_inv (w : world LockOutcome) (phs : nat -> phase) : Prop := {
  lk_pool : labelled prog_of (pool w) phs;
  lk_good : forall i, good w i (phs i);
  lk_rev : forall a, entry w = Some a -> a_rev a <= sp_last (server w);
}.

(** Steps that do not write the key, and remove it only when it has expired. *)
Record keeps (w w' : world LockOutcome) : Prop := {
  kp_clock : clock w <= clock w';
  kp_last : sp_last (server w) <= sp_last (server w');
  kp_entry : forall a, entry w = Some a -> past (a_expires a) (clock w') = false -> entry w' = Some a;
  kp_old : forall a, entry w' = Some a -> entry w = Some a;
}.

Lemma held_keeps w w' i n : keeps w w' -> granted i (calls w') = granted i (calls w) ->
  held w i n -> held w' i n.
Proof.
  intros [Hc _ He _] Hg (t & Ht & Hh). exists t. rewrite Hg. split; [done|]. intros Hlt.
  destruct Hh as (a & Ha & Hv & Hx); [lia|]. exists a. split; [|done]. apply He; [done|].
  rewrite Hx. cbn. apply Z.leb_gt. lia.
Qed.

Lemma good_keeps w w' i ph : keeps w w' -> granted i (calls w') = granted i (calls w) ->
  good w i ph -> good w' i ph.
Proof.
  intros Hk Hg. destruct ph; cbn; try done; try (by apply held_keeps).
  intros (Hh & Hr & Ha). pose proof (kp_last _ _ Hk). split; [by eapply held_keeps|]. split; [lia|].
  intros a Hw. by apply Ha, (kp_old _ _ Hk).
Qed.

(** Such a step of client [i] to a phase that is good. *)
Lemma inv_keeps w w' phs i ph : lock_inv w phs -> keeps w w' ->
  (forall j, j <> i -> granted j (calls w') = granted j (calls w)) ->
  labelled prog_of (pool w') (upd i ph phs) -> good w' i ph -> lock_inv w' (upd i ph phs).
Proof.
  intros [_ Hg Hr] Hk Hc Hl Hgi. split; [done| |].
  - intros j. destruct (decide (j = i)) as [->|Hj]; [by rewrite upd_eq|]. rewrite upd_ne by done.
    apply (good_keeps w); auto.
  - intros a Ha. apply (kp_old _ _ Hk), Hr in Ha. pose proof (kp_last _ _ Hk). lia.
Qed.

Lemma inv_wake w phs evs : lock_inv w phs ->
  lock_inv (mkWorld (clock w) (server w) (wake evs <$> pool w) (calls w)) (fun i => wake_phase evs (phs i)).
Proof.
  intros [Hl Hg Hr]. split; [|intros i|done].
  - apply labelled_wake; [done|]. intros i ph. apply wake_prog.
  - specialize (Hg i). destruct (phs i); try done. cbn. by destruct (deletes K evs).
Qed.

Lemma granted_snoc j cs t i o r :
  granted j (cs ++ [(t, i, o, r)])
  = match grants j (t, i, o, r) with Some t => Some t | None => granted j cs end.
Proof.
  unfold granted. rewrite omap_app. cbn [omap list_omap].
  destruct (grants j (t, i, o, r)) as [x|]; cbn; [apply last_snoc|by rewrite app_nil_r].
Qed.

Lemma granted_other j cs t i o r : j <> i -> granted j (cs ++ [(t, i, o, r)]) = granted j cs.
Proof.
  intros Hj. rewrite granted_snoc. cbn. destruct o; try done. destruct r as [[]|]; try done.
  destruct b; [|done]. by rewrite decide_False.
Qed.
(** ** Calls *)

Definition lock_opts (i : nat) : SetOptions := mkSetOptions (Some (ttl (opts i) * 1000)) None false.

(** The outcomes of the conditional write of [tryLock]. *)
Lemma spec_setnx k v i now inst sp r sp' evs :
  spec_op (OpSetnx k v (lock_opts i)) now inst sp r sp' evs ->
  (exists e, r = Err e /\ sp' = sp) \/ (r = Ok (RBool false) /\ sp' = sp) \/
  exists ts, r = Ok (RBool true) /\ find now (sp_map sp) k = None /\ sp_last sp < ts /\
    sp' = mkSpace (<[k := mkA v [] (Some (now + ttl (opts i) * 1000)) ts]> (sp_map sp)) ts.
Proof.
  cbn [spec_op]. unfold spec_set, planned, lock_opts, validate_opt_ttl. cbn [o_ttl o_metadata o_keep_ttl].
  destruct (validate_ttl (ttl (opts i) * 1000) now) as [ms|e] eqn:E;
    cbn [mbind result_bind meta_to_bytes]; [|intros (-> & -> & _); left; by eexists].
  unfold validate_ttl in E. repeat case_decide; try done. injection E as <-.
  destruct (find now (sp_map sp) k) as [a|]; cbn.
  - intros (-> & -> & _). right. by left.
  - intros (ts & Hts & -> & -> & _). right. right. by exists ts.
Qed.

Lemma find_unexpired now m k a x : m !! k = Some a -> a_expires a = Some x -> now < x -> find now m k = Some a.
Proof.
  intros Hm Hx Hlt. unfold find. rewrite Hm. cbn. rewrite Hx. cbn.
  destruct (Z.leb_spec x now); [lia|done].
Qed.

Lemma keeps_refl w w' : clock w' = clock w -> server w' = server w -> keeps w w'.
Proof.
  intros Hc Hs. split; rewrite ?Hc, ?Hs; try lia; unfold entry; rewrite Hs; done.
Qed.

Lemma try_inv w phs i d n f inst r sp' evs : lock_inv w phs ->
  prog_of i (Trying d n) = Kv (OpSetnx K (token i n) (lock_opts i)) f ->
  spec_op (OpSetnx K (token i n) (lock_opts i)) (clock w) inst (server w) r sp' evs ->
  exists ph, lock_inv (mkWorld (clock w) sp' (<[i := f r]> (pool w))
    (calls w ++ [(clock w, i, OpSetnx K (token i n) (lock_opts i), r)])) (upd i ph phs).
Proof.
  intros Hi [= <-] Hs. pose proof Hi as [Hl Hg Hr].
  apply spec_setnx in Hs as [(e & -> & ->)|[(-> & ->)|(ts & -> & Hf & Hts & ->)]].
  - exists (Ended (LError (Failed e))). apply (inv_keeps w); [done|by apply keeps_refl| | |done].
    + intros j Hj. by apply granted_other.
    + by apply labelled_insert.
  - exists (match d with Some d => Deciding d n | None => ToWatch None n end).
    apply (inv_keeps w); [done|by apply keeps_refl| | |by destruct d].
    + intros j Hj. by apply granted_other.
    + apply labelled_insert; [done|]. by destruct d.
  - exists (Holding n). split; [by apply labelled_insert| |].
    + intros j. destruct (decide (j = i)) as [->|Hj].
      * rewrite upd_eq. exists (clock w). cbn [calls]. rewrite granted_snoc. cbn. rewrite decide_True by done.
        split; [done|]. intros _. unfold entry. cbn. rewrite lookup_insert_eq. by eexists.
      * rewrite upd_ne by done. specialize (Hg j).
        assert (forall n', held w j n' -> held (mkWorld (clock w) (mkSpace (<[K := mkA (token i n) []
            (Some (clock w + ttl (opts i) * 1000)) ts]> (sp_map (server w))) ts)
          (<[i := Work (fun b => release http K (token i n) (Ret (if b then LData else LFnError)))]> (pool w))
          (calls w ++ [(clock w, i, OpSetnx K (token i n) (lock_opts i), Ok (RBool true))])) j n') as Hheld.
        { intros n' (t & Ht & Hh). exists t. cbn [calls clock]. rewrite granted_other by done. split; [done|].
          intros Hlt. destruct (Hh Hlt) as (a & Ha & _ & Hx).
          by rewrite (find_unexpired _ _ _ _ _ Ha Hx Hlt) in Hf. }
        destruct (phs j); try done; try (by apply Hheld).
        destruct Hg as (Hh & Hrev & _). split; [by apply Hheld|]. cbn. split; [lia|].
        unfold entry. cbn. rewrite lookup_insert_eq. intros a [= <-]. cbn. lia.
    + unfold entry. cbn. rewrite lookup_insert_eq. intros a [= <-]. cbn. lia.
Qed.
Lemma purge_keeps now m k a : m !! k = Some a -> past (a_expires a) now = false -> purge now k m !! k = Some a.
Proof. intros Hm Hp. unfold purge. by rewrite Hm, Hp. Qed.

Lemma purge_old now m k a : purge now k m !! k = Some a -> m !! k = Some a.
Proof.
  unfold purge. destruct (m !! k) as [b|] eqn:E; [|congruence].
  destruct (past _ _); [by rewrite lookup_delete_eq|congruence].
Qed.

Lemma check_inv w phs i n o f inst r sp' evs : lock_inv w phs -> phs i = Checking n o ->
  prog_of i (Checking n o) = Kv (OpGet K) f ->
  spec_op (OpGet K) (clock w) inst (server w) r sp' evs ->
  exists ph, lock_inv (mkWorld (clock w) sp' (<[i := f r]> (pool w))
    (calls w ++ [(clock w, i, OpGet K, r)])) (upd i ph phs).
Proof.
  intros Hi Hph Hp (-> & Hm & Hlast & _). pose proof Hi as [Hl Hg Hr]. set (w' := mkWorld _ _ _ _).
  assert (keeps w w') as Hk.
  { split; cbn; [lia|done| |]; unfold entry; cbn; rewrite Hm; intros a; [apply purge_keeps|apply purge_old]. }
  specialize (Hg i). rewrite Hph in Hg. cbn in Hg.
  assert (held w' i n) as Hh.
  { apply (held_keeps w); [done| |done]. cbn. by rewrite granted_snoc. }
  assert (exists ph, f (Ok (REntry (StoreSpec.entry_of (clock w) inst <$> find (clock w) (sp_map (server w)) K)))
    = prog_of i ph /\ good w' i ph) as (ph & Hfr & Hgood).
  { injection Hp as <-. clearbody w'. unfold find, entry in *.
    destruct (sp_map (server w) !! K) as [a|] eqn:Ea; [|by exists (Ended o)].
    cbn. destruct (past _ _); cbn; [by exists (Ended o)|].
    destruct (a_value a =b token i n) eqn:Ev; [|by exists (Ended o)]. apply bytes_eqb_spec in Ev.
    exists (Removing n o (a_rev a)). split; [done|]. split; [done|].
    pose proof (kp_last _ _ Hk). specialize (Hr a eq_refl). split; [lia|].
    intros a' Ha' _. apply (kp_old _ _ Hk) in Ha'. unfold entry in Ha'. congruence. }
  exists ph. apply (inv_keeps w); [done|done| |by apply labelled_insert|done].
  intros j Hj. by apply granted_other.
Qed.

Context (Http : http = true) (token_inj : forall i n j m, token i n = token j m -> i = j).

Lemma remove_inv w phs i n o rev f inst r sp' evs : lock_inv w phs -> phs i = Removing n o rev ->
  prog_of i (Removing n o rev) = Kv (OpDelrev K rev) f ->
  spec_op (OpDelrev K rev) (clock w) inst (server w) r sp' evs ->
  lock_inv (mkWorld (clock w) sp' (<[i := f r]> (pool w)) (calls w ++ [(clock w, i, OpDelrev K rev, r)]))
    (upd i (Ended o) phs).
Proof.
  intros Hi Hph Hp Hs. pose proof Hi as [Hl Hg Hr].
  assert (f = fun _ => Ret o) as ->.
  { cbn in Hp. unfold delete_lock in Hp. rewrite Http in Hp. by injection Hp. }
  cbn in Hs. case_decide as Hd.
  2: { destruct Hs as (-> & -> & _). apply (inv_keeps w); [done|by apply keeps_refl| |by apply labelled_insert|done].
       intros j Hj. by apply granted_other. }
  destruct Hs as (ts & Hts & -> & -> & _). split; [by apply labelled_insert| |].
  2: { unfold entry. cbn. by rewrite lookup_delete_eq. }
  intros j. destruct (decide (j = i)) as [->|Hj]; [by rewrite upd_eq|]. rewrite upd_ne by done.
  pose proof (Hg i) as Hgi. rewrite Hph in Hgi. destruct Hgi as (_ & _ & Hown). specialize (Hg j).
  set (w' := mkWorld _ _ _ _).
  assert (forall n', held w j n' -> held w' j n') as Hheld.
  { intros n' (t & Ht & Hh). exists t. cbn [calls clock w']. rewrite granted_other by done. split; [done|].
    intros Hlt. destruct (Hh Hlt) as (a & Ha & Hv & Hx).
    rewrite (find_unexpired _ _ _ _ _ Ha Hx Hlt) in Hd. injection Hd as Hd.
    pose proof (Hown _ Ha Hd) as Hv'. rewrite Hv in Hv'. by apply token_inj in Hv'. }
  destruct (phs j); try done; try (by apply Hheld).
  destruct Hg as (Hh & Hrev & _). split; [by apply Hheld|]. cbn. split; [lia|].
  unfold entry. cbn. by rewrite lookup_delete_eq.
Qed.
(** A call of a client, and the events it causes. *)
Lemma call_inv w phs i o f inst r sp' evs : lock_inv w phs -> pool w !! i = Some (Kv o f) ->
  spec_op o (clock w) inst (server w) r sp' evs ->
  exists phs', lock_inv (mkWorld (clock w) sp' (<[i := f r]> (pool w)) (calls w ++ [(clock w, i, o, r)])) phs'.
Proof.
  intros Hi Hp Hs. pose proof (lk_pool _ _ Hi i _ Hp) as Hpi. rewrite <- settle_prog in Hpi.
  destruct (settle i (phs i)) as [|d n|d n|d n|d n|d n|n|n o'|n o' rev|o'] eqn:Eph; try discriminate Hpi.
  - exfalso. cbn in Hpi. unfold locker, lock in Hpi. destruct (timeout (opts i)) eqn:Et; [discriminate|].
    destruct (phs i); cbn in Eph; try discriminate; rewrite ?Et in Eph; 
      repeat (case_match; try discriminate).
  - exfalso. destruct d as [d|]; [by destruct n|]. 
    destruct (phs i); cbn in Eph; repeat (case_match; try discriminate); by simplify_eq.
  - cbn in Hpi. injection Hpi as -> ->. destruct (try_inv w phs i d n _ inst r sp' evs Hi eq_refl Hs) as [ph Hph].
    eauto.
  - assert (phs i = Checking n o') as Hph by (destruct (phs i); cbn in Eph; repeat (case_match; try discriminate); done).
    symmetry in Hpi. pose proof Hpi as Hop. cbn in Hop. injection Hop as <- _.
    destruct (check_inv w phs i n o' _ inst r sp' evs Hi Hph Hpi Hs) as [ph Hinv]. eauto.
  - assert (phs i = Removing n o' rev) as Hph by (destruct (phs i); cbn in Eph; repeat (case_match; try discriminate); done).
    symmetry in Hpi. pose proof Hpi as Hop. cbn in Hop. unfold delete_lock in Hop. rewrite Http in Hop.
    injection Hop as <- _. eexists. by eapply remove_inv.
Qed.

(** A step of client [i] that does not touch the server. *)
Lemma local_inv w phs i ph p : lock_inv w phs -> p = prog_of i ph -> good w i ph ->
  lock_inv (mkWorld (clock w) (server w) (<[i := p]> (pool w)) (calls w)) (upd i ph phs).
Proof.
  intros Hi -> Hg. apply (inv_keeps w); [done|by apply keeps_refl|done| |].
  - apply labelled_insert; [|done]. apply Hi.
  - by apply (good_keeps w); [apply keeps_refl|..].
Qed.

Lemma good_settle w i ph : good w i (settle i ph) <-> good w i ph.
Proof. destruct ph; cbn; repeat case_match; done. Qed.

Lemma now_inv w phs i f : lock_inv w phs -> pool w !! i = Some (Now f) ->
  exists ph, lock_inv (mkWorld (clock w) (server w) (<[i := f (clock w)]> (pool w)) (calls w)) (upd i ph phs).
Proof.
  intros Hi Hp. pose proof (lk_pool _ _ Hi _ _ Hp) as Hpi. rewrite <- settle_prog in Hpi.
  assert (exists ph, f (clock w) = prog_of i ph /\ good w i ph) as (ph & Hf & Hg);
    [|exists ph; by apply local_inv].
  destruct (settle i (phs i)) as [|d n|d n|d n| | | | |n o rev|]; try discriminate Hpi; cbn in Hpi.
  - unfold locker, lock in Hpi. destruct (timeout (opts i)) as [t|]; [|by destruct (turns i)].
    injection Hpi as ->. by exists (Looping (Some (clock w + t)) (turns i)).
  - destruct n; [done|]. destruct d as [d|]; [|done]. injection Hpi as ->.
    destruct (d <=? clock w); [by exists (Ended LTimeout)|by exists (Trying (Some d) n)].
  - injection Hpi as ->.
    destruct (d - clock w <=? 0); [by exists (Looping (Some d) n)|by exists (ToWatch (Some d) n)].
  - unfold delete_lock in Hpi. by destruct http.
Qed.

(** The clock goes on, or others change the namespace. *)
Lemma env_inv w phs c sp' : lock_inv w phs -> clock w <= c -> elsewhere K (clock w) (server w) sp' ->
  lock_inv (mkWorld c sp' (pool w) (calls w)) phs.
Proof.
  intros Hi Hc [Hlast Hk]. set (w1 := mkWorld _ _ _ _).
  assert (keeps w w1) as Hkeep.
  { split; cbn; [done|done| |]; unfold entry; cbn; intros a Ha.
    - intros Hx. destruct Hk as [->|[Hf _]]; [done|]. unfold find in Hf. rewrite Ha in Hf. cbn in Hf.
      destruct (past (a_expires a) (clock w)) eqn:E; [|done]. destruct (a_expires a) as [x|]; [|done].
      cbn in *. apply Z.leb_le in E. apply Z.leb_gt in Hx. lia.
    - destruct Hk as [<-|[_ Hn]]; [done|congruence]. }
  split; [apply Hi| |].
  - intros j. apply (good_keeps w); [done|done|apply Hi].
  - intros a Ha. apply (kp_old _ _ Hkeep) in Ha. apply Hi in Ha. cbn. lia.
Qed.

Lemma lock_step_inv w phs w' : lock_inv w phs -> step locker K w w' -> exists phs', lock_inv w' phs'.
Proof.
  intros Hi Hs. assert (forall i p, pool w !! i = Some p ->
    p = prog_of i (settle i (phs i)) /\ good w i (settle i (phs i))) as Hpg.
  { intros i p Hp. rewrite settle_prog, good_settle. split; [by apply Hi|apply Hi]. }
  destruct Hs as [c Hc| |i f Hp|i o f inst r sp' evs Hp Hs|i k p Hp|i k p Hp|i f b Hp|sp' evs Hk _].
  - exists phs. apply env_inv; [done|done|]. split; [lia|by left].
  - exists (upd (length (pool w)) Fresh phs). apply (inv_keeps w); [done|by apply keeps_refl|done| |done].
    apply labelled_spawn; [apply Hi|done].
  - destruct (now_inv w phs i f Hi Hp) as [ph Hi']. eauto.
  - destruct (call_inv w phs i o f inst r sp' evs Hi Hp Hs) as [phs' Hi']. eexists. exact (inv_wake _ _ evs Hi').
  - destruct (Hpg i _ Hp) as [Hpi _].
    destruct (active_cases _ _ _ Hpi eq_refl) as [(d & n & E)|[(d & n & E)|[n E]]]; rewrite E in Hpi; try discriminate Hpi.
    injection Hpi as -> ->. exists (upd i (Waiting d n) phs). by apply local_inv.
  - destruct (Hpg i _ Hp) as [Hpi _].
    destruct (active_cases _ _ _ Hpi eq_refl) as [(d & n & E)|[(d & n & E)|[n E]]]; rewrite E in Hpi; try discriminate Hpi.
    injection Hpi as -> ->. exists (upd i (Looping d n) phs). by apply local_inv.
  - destruct (Hpg i _ Hp) as [Hpi Hg].
    destruct (active_cases _ _ _ Hpi eq_refl) as [(d & n & E)|[(d & n & E)|[n E]]]; rewrite E in Hpi, Hg; try discriminate Hpi.
    injection Hpi as ->. exists (upd i (Checking n (if b then LData else LFnError)) phs). by apply local_inv.
  - eexists. exact (inv_wake _ _ evs (env_inv w phs (clock w) sp' Hi (Z.le_refl _) Hk)).
Qed.

(** C14: Any number of clients call [lock] on a key, each with its own time to live and
    timeout, wait, run their critical sections for as long as they like, return or
    throw, and release, in any interleaving, while others use the rest of the
    namespace.  Two clients whose locks were granted and have not run out are never in
    their critical sections at the same time, and the key holds the token of the one
    that is. *)
Theorem lock_mutual_exclusion w0 w :
  starts K w0 -> steps locker K w0 w ->
  (forall i j, in_section w i -> in_section w j -> leased w i -> leased w j -> i = j) /\
  (forall i, in_section w i -> leased w i ->
     exists a n, find (clock w) (sp_map (server w)) K = Some a /\ a_value a = token i n).
Proof.
  intros (Hp & Hc & HK) Hs. assert (exists phs, lock_inv w phs) as [phs Hi].
  { revert Hs. apply (steps_inv locker K (fun w => exists phs, lock_inv w phs)).
    - exists (fun _ => Fresh). split; [|done|]; unfold entry; [intros i p; by rewrite Hp|by rewrite HK].
    - intros w1 w2 [phs1 H1] H2. exact (lock_step_inv _ _ _ H1 H2). }
  assert (forall i, in_section w i -> leased w i -> exists a n,
    find (clock w) (sp_map (server w)) K = Some a /\ a_value a = token i n) as Hone.
  { intros i [f Hf] (t & Ht & Hlt). pose proof (lk_good _ _ Hi i) as Hg. apply (lk_pool _ _ Hi) in Hf.
    destruct (active_cases _ _ _ Hf eq_refl) as [(d & n & E)|[(d & n & E)|[n E]]]; rewrite E in Hf, Hg; try discriminate Hf.
    destruct Hg as (t' & Ht' & Hg). rewrite Ht in Ht'. injection Ht' as <-.
    destruct (Hg Hlt) as (a & Ha & Hv & Hx). exists a, n. split; [|done]. by eapply find_unexpired. }
  split; [|done]. intros i j Hi1 Hj1 Hi2 Hj2.
  destruct (Hone i Hi1 Hi2) as (a & n & Hf & Hv), (Hone j Hj1 Hj2) as (a' & n' & Hf' & Hv').
  rewrite Hf in Hf'. injection Hf' as <-. rewrite Hv in Hv'. by apply token_inj in Hv'.
Qed.
End Clients.
End Lock.

(** ** Concrete runs *)

Module LockExamples.
#[local] Existing Instance WatchRegistry.bytes_json.

Definition K : bytes := lit "job".
Definition token (i n : nat) : bytes := [Z.of_nat i; Z.of_nat n].
Definition opts (i : nat) : LockOptions := {| ttl := 1; timeout := None |}.
Definition turns (i : nat) : nat := 3.

Definition empty_world : world LockOutcome := mkWorld 0 (mkSpace ∅ 0) [] [].

Lemma empty_starts : starts K empty_world.
Proof. done. Qed.

(** The steps of a client in such a world. *)
Section Runs.
Context (http : bool).
Let locker := locker http K token opts turns.

Lemma wake_others (evs : list (bytes * WatchEvent)) (ps : list (prog LockOutcome)) :
  deletes K evs = false -> forallb (fun p => match p with Watching k _ => bool_decide (k = K) | _ => true end) ps = true ->
  wake evs <$> ps = ps.
Proof.
  intros He. induction ps as [|p ps IH]; [done|]. cbn [forallb].
  intros [Hp Hps]%andb_prop. rewrite fmap_cons, IH by done. f_equal.
  destruct p; try done. apply bool_decide_eq_true in Hp as ->. cbn [wake]. by rewrite He.
Qed.

(** Every waiting client waits for the lock. *)
Definition waits_for_lock (ps : list (prog LockOutcome)) : bool :=
  forallb (fun p => match p with Watching k _ => bool_decide (k = K) | _ => true end) ps.

Lemma grant_step w i n f ts ps : pool w !! i = Some (Kv (OpSetnx K (token i n) (lock_opts opts i)) f) ->
  find (clock w) (sp_map (server w)) K = None -> sp_last (server w) < ts -> clock w + 1000 <= u64_max ->
  ps = <[i := f (Ok (RBool true))]> (pool w) -> waits_for_lock ps = true ->
  step locker K w (mkWorld (clock w)
    (mkSpace (<[K := mkA (token i n) [] (Some (clock w + 1000)) ts]> (sp_map (server w))) ts) ps
    (calls w ++ [(clock w, i, OpSetnx K (token i n) (lock_opts opts i), Ok (RBool true))])).
Proof.
  intros Hp Hf Hts Hc -> Hw. rewrite <- (wake_others [(K, EvSet K (token i n) None (Some (clock w + 1000)) ts)] _ eq_refl Hw).
  eapply (step_kv _ _ _ i _ _ 0); [exact Hp|]. cbn [spec_op].
  unfold spec_set, planned, validate_opt_ttl, validate_ttl, lock_opts. cbn [o_ttl o_metadata o_keep_ttl ttl opts].
  rewrite decide_False by (vm_compute; discriminate). change (1 * 1000) with 1000. rewrite decide_False by lia.
  cbn [mbind result_bind meta_to_bytes]. rewrite Hf. cbn [present negb]. by exists ts.
Qed.

Lemma refuse_step w i n f a ps : pool w !! i = Some (Kv (OpSetnx K (token i n) (lock_opts opts i)) f) ->
  find (clock w) (sp_map (server w)) K = Some a -> clock w + 1000 <= u64_max ->
  ps = <[i := f (Ok (RBool false))]> (pool w) -> waits_for_lock ps = true ->
  step locker K w (mkWorld (clock w) (server w) ps
    (calls w ++ [(clock w, i, OpSetnx K (token i n) (lock_opts opts i), Ok (RBool false))])).
Proof.
  intros Hp Hf Hc -> Hw. rewrite <- (wake_others [] _ eq_refl Hw).
  eapply (step_kv _ _ _ i _ _ 0); [exact Hp|]. cbn [spec_op].
  unfold spec_set, planned, validate_opt_ttl, validate_ttl, lock_opts. cbn [o_ttl o_metadata o_keep_ttl ttl opts].
  rewrite decide_False by (vm_compute; discriminate). change (1 * 1000) with 1000. rewrite decide_False by lia.
  cbn [mbind result_bind meta_to_bytes]. rewrite Hf. done.
Qed.

Lemma get_step w i f a ps : pool w !! i = Some (Kv (OpGet K) f) ->
  sp_map (server w) !! K = Some a -> past (a_expires a) (clock w) = false ->
  ps = <[i := f (Ok (REntry (Some (StoreSpec.entry_of (clock w) 0 a))))]> (pool w) -> waits_for_lock ps = true ->
  step locker K w (mkWorld (clock w) (server w) ps
    (calls w ++ [(clock w, i, OpGet K, Ok (REntry (Some (StoreSpec.entry_of (clock w) 0 a))))])).
Proof.
  intros Hp Ha Hx -> Hw. rewrite <- (wake_others [] _ eq_refl Hw).
  eapply (step_kv _ _ _ i _ _ 0); [exact Hp|]. cbn [spec_op]. unfold read_only, find, purge.
  rewrite Ha. cbn [mbind option_bind]. rewrite Hx. cbn. split_and!; [done..|lia|done].
Qed.

Lemma delrev_step w i rev f a ts ps : pool w !! i = Some (Kv (OpDelrev K rev) f) ->
  sp_map (server w) !! K = Some a -> past (a_expires a) (clock w) = false -> a_rev a = rev ->
  sp_last (server w) < ts -> ps = wake [(K, EvDel K ts)] <$> <[i := f (Ok (RBool true))]> (pool w) ->
  step locker K w (mkWorld (clock w) (mkSpace (delete K (sp_map (server w))) ts) ps
    (calls w ++ [(clock w, i, OpDelrev K rev, Ok (RBool true))])).
Proof.
  intros Hp Ha Hx Hr Hts ->. eapply (step_kv _ _ _ i _ _ 0); [exact Hp|]. cbn [spec_op]. unfold find.
  rewrite Ha. cbn [mbind option_bind]. rewrite Hx. cbn. rewrite decide_True by congruence. by exists ts.
Qed.

Lemma del_step w i f a ts ps : pool w !! i = Some (Kv (OpDel [K]) f) ->
  sp_map (server w) !! K = Some a -> past (a_expires a) (clock w) = false ->
  sp_last (server w) < ts -> ps = wake [(K, EvDel K ts)] <$> <[i := f (Ok (RCount 1))]> (pool w) ->
  step locker K w (mkWorld (clock w) (mkSpace (delete K (sp_map (server w))) ts) ps
    (calls w ++ [(clock w, i, OpDel [K], Ok (RCount 1))])).
Proof.
  intros Hp Ha Hx Hts ->. eapply (step_kv _ _ _ i _ _ 0); [exact Hp|]. cbn [spec_op].
  assert (removed (clock w) (sp_map (server w)) [K] = [K]) as Hrem.
  { cbn [removed]. unfold find at 1. rewrite Ha. cbn [mbind option_bind]. by rewrite Hx. }
  rewrite Hrem. exists [ts]. split_and!; try done; [by constructor| |cbn; lia]. cbn. by rewrite delete_all_cons, delete_all_nil.
Qed.
End Runs.

Ltac side := first [reflexivity | vm_compute; reflexivity | vm_compute; discriminate].
Ltac do_spawn := eapply steps_cons; [apply step_spawn|]; cbn [clock server pool calls app length].
Ltac do_grant http i ts := eapply steps_cons; [eapply (grant_step http _ i 2 _ ts); side|]; cbn [clock server pool calls].
Ltac do_refuse http i := eapply steps_cons; [eapply (refuse_step http _ i 2); side|]; cbn [clock server pool calls].
Ltac do_get http i := eapply steps_cons; [eapply (get_step http _ i); side|]; cbn [clock server pool calls].
Ltac do_work i := eapply steps_cons; [eapply (step_work _ _ _ i _ true); side|]; cbn [clock server pool calls].
Ltac do_watch i := eapply steps_cons; [eapply (step_watch _ _ _ i); side|]; cbn [clock server pool calls].
Ltac do_tick c := eapply steps_cons; [apply (step_tick _ _ _ c); side|]; cbn [clock server pool calls].

(** One client is in its critical section, another one waits. *)
Definition ex_locked : world LockOutcome :=
  mkWorld 500 (mkSpace {[ K := mkA (token 0 2) [] (Some 1000) 1 ]} 1)
    [ prog_of true K token opts turns 0 (Holding 2); prog_of true K token opts turns 1 (Waiting None 2) ]
    [ (0, 0%nat, OpSetnx K (token 0 2) (lock_opts opts 0), Ok (RBool true));
      (0, 1%nat, OpSetnx K (token 1 2) (lock_opts opts 1), Ok (RBool false)) ].

Lemma ex_locked_reached : steps (locker true K token opts turns) K empty_world ex_locked.
Proof.
  do_spawn. do_grant true 0%nat 1. do_spawn. do_refuse true 1%nat. do_watch 1%nat. do_tick 500. apply steps_refl.
Qed.

Lemma token_inj i n j m : token i n = token j m -> i = j.
Proof. unfold token. intros [= ? ?]. lia. Qed.

Lemma lock_mutual_exclusion_witness :
  (forall i j, in_section ex_locked i -> in_section ex_locked j ->
     leased opts ex_locked i -> leased opts ex_locked j -> i = j) /\
  (forall i, in_section ex_locked i -> leased opts ex_locked i ->
     exists a n, find (clock ex_locked) (sp_map (server ex_locked)) K = Some a /\ a_value a = token i n).
Proof.
  exact (lock_mutual_exclusion true K token opts turns eq_refl token_inj empty_world ex_locked
    empty_starts ex_locked_reached).
Defined.

Lemma ex_locked_held : in_section ex_locked 0 /\ leased opts ex_locked 0.
Proof. split; [by eexists|]. exists 0. by split. Qed.

(** Over RESP the delete of [release] is not conditional.  A client reads its token,
    its time runs out, a second client gets the lock, the first one deletes it, and a
    third client gets it too: two clients whose locks have not run out are in their
    critical sections. *)
Theorem resp_release_breaks_lock :
  exists w, steps (locker false K token opts turns) K empty_world w /\
    in_section w 1 /\ leased opts w 1 /\ in_section w 2 /\ leased opts w 2.
Proof.
  eexists. split.
  - do_spawn. do_grant false 0%nat 1. do_work 0%nat. do_get false 0%nat. do_tick 1000.
    do_spawn. do_grant false 1%nat 2.
    eapply steps_cons; [eapply (del_step false _ 0 _ _ 3); side|]. cbn [clock server pool calls].
    do_spawn. do_grant false 2%nat 4. apply steps_refl.
  - split; [by eexists|]. split; [exists 1000; by split|]. split; [by eexists|]. exists 1000. by split.
Qed.

(** [lock] can miss the release of the lock.  A client is refused; before its watch has
    begun the holder deletes the key.  The client then waits for an event that has been,
    while the lock is free and nobody else is there. *)
Theorem lock_misses_release :
  exists w, steps (locker true K token opts turns) K empty_world w /\
    sp_map (server w) = ∅ /\
    pool w = [Ret LData; Watching K (lock_loop true K (token 1) (opts 1) None 2)].
Proof.
  eexists. split; [|split].
  - do_spawn. do_grant true 0%nat 1. do_spawn. do_refuse true 1%nat. do_work 0%nat. do_get true 0%nat.
    eapply steps_cons; [eapply (delrev_step true _ 0 _ _ _ 2); side|]. cbn [clock server pool calls].
    do_watch 1%nat. apply steps_refl.
  - vm_compute. reflexivity.
  - reflexivity.
Qed.

(** [lock] does not notice that a lock expires.  The holder does not come back; its
    time runs out, which causes no event, and the client still waits for one. *)
Theorem lock_misses_expiry :
  exists w, steps (locker true K token opts turns) K empty_world w /\
    find (clock w) (sp_map (server w)) K = None /\ in_section w 0 /\
    pool w !! 1%nat = Some (Watching K (lock_loop true K (token 1) (opts 1) None 2)).
Proof.
  eexists. split; [|split; [|split]].
  - do_spawn. do_grant true 0%nat 1. do_spawn. do_refuse true 1%nat. do_watch 1%nat. do_tick 100000. apply steps_refl.
  - vm_compute. reflexivity.
  - by eexists.
  - reflexivity.
Qed.
End LockExamples.
