(* ===== verification/RateLimit.v ===== *)
(** * Rate limits, [sdk/ts/rate-limit/src/algorithms]

    A limiter decides whether a request is allowed, with its state on the server.  The
    fixed window counts the requests of each window in a counter; the token bucket keeps
    the tokens left and the time of the last refill, and replaces them by
    compare-and-swap.  Both are programs of [Clients], so requests of many clients
    interleave at every call.  The theorems: a window allows exactly as many requests as
    its limit ([fixed_window_exact]); the states of a bucket form one chain, in which
    every allowed request took its token from the state that the one before it left
    ([token_bucket_serial]). *)

From stdpp Require Import base tactics numbers list gmap strings.
From Stdlib Require Import ZArith Lia SpecFloat.
From S2P Require Import Prelude Ascii Js NsRepr Watch Store StoreInv StoreSpec StoreMany StoreRefine Clients.

Open Scope Z_scope.

(** The numbers of an answer are integers for the fixed window, doubles for the token
    bucket. *)
Record RateLimitInfo (N : Type) := {
  allowed : bool;
  remaining : N;
  limit : N;
  reset : N;
  retryAfter : option N;
}.

Arguments Build_RateLimitInfo {N}.
Arguments allowed {N}.
Arguments remaining {N}.
Arguments limit {N}.
Arguments reset {N}.
Arguments retryAfter {N}.

(** A rejected promise: an error of the client, a value that does not parse, or too many
    attempts. *)
Inductive LimitError := FromKv (e : KvError) | BadState | CasFailed.

Notation limited := (result LimitError (RateLimitInfo Z)).

Section RateLimit.
Context {serde : SerdeJson}.

(** ** Fixed window *)

Record FixedWindowParams := { fw_limit : Z; fw_window : Z; fw_prefix : bytes }.

Definition fw_key (p : FixedWindowParams) (key : bytes) (bucket : Z) : bytes :=
  fw_prefix p ++ lit ":fw:" ++ key ++ lit ":" ++ show_i64 bucket.

Definition fw_info (p : FixedWindowParams) (now count : Z) : RateLimitInfo Z :=
  let reset := (now / fw_window p + 1) * fw_window p in
  let allowed := count <=? fw_limit p in
  {| allowed := allowed; remaining := Z.max 0 (fw_limit p - count); limit := fw_limit p; reset := reset;
     retryAfter := if allowed then None else Some (reset - now) |}.

(** The parameters and times are integers below 2^53, for which the quotient of two
    doubles rounds to the right window. *)
Definition limitFixedWindow (key : bytes) (p : FixedWindowParams) : prog limited :=
  Now (fun now =>
    let kvKey := fw_key p key (now / fw_window p) in
    kv_incr kvKey 1 (fun incrResult =>
      match incrResult with
      | Err e => Ret (Err (FromKv e))
      | Ok count =>
          if count =? 1 then
            kv_expire kvKey (fw_window p) (fun expireResult =>
              match expireResult with
              | Err e => Ret (Err (FromKv e))
              | Ok _ => Ret (Ok (fw_info p now count))
              end)
          else Ret (Ok (fw_info p now count))
      end)).

(** ** Token bucket *)

Record TokenBucketParams := { capacity : number; refillRate : number; tb_prefix : bytes }.

Record BucketState := { tokens : number; lastRefill : number }.

(** [JSON.stringify] of a state, and the state that a stored text is read as. *)
Class BucketJson := {
  print_state : BucketState -> bytes;
  parse_state : bytes -> option BucketState;
}.

Context {bucket_json : BucketJson}.

Definition MAX_CAS_RETRIES : nat := 10.

Definition tb_key (p : TokenBucketParams) (key : bytes) : bytes := tb_prefix p ++ lit ":tb:" ++ key.

(** The tokens at the time [now]. *)
Definition refilled (p : TokenBucketParams) (now : Z) (raw : BucketState) : number :=
  let elapsed := num_div (num_sub (num now) (lastRefill raw)) (num 1000) in
  num_min (capacity p) (num_add (tokens raw) (num_mul elapsed (refillRate p))).

Definition tb_allowed (p : TokenBucketParams) (now : Z) (remaining : number) : RateLimitInfo number :=
  {| allowed := true; remaining := remaining; limit := capacity p;
     reset := num_add (num now) (num_ceil (num_div (num 1000) (refillRate p))); retryAfter := None |}.

Definition tb_denied (p : TokenBucketParams) (now : Z) (tokens : number) : RateLimitInfo number :=
  let retryAfter := num_ceil (num_mul (num_div (num_sub (num 1) tokens) (refillRate p)) (num 1000)) in
  {| allowed := false; remaining := num 0; limit := capacity p;
     reset := num_add (num now) retryAfter; retryAfter := Some retryAfter |}.

Definition initial (p : TokenBucketParams) (now : Z) : BucketState :=
  {| tokens := num_sub (capacity p) (num 1); lastRefill := num now |}.

Definition drawn (p : TokenBucketParams) (now : Z) (raw : BucketState) : BucketState :=
  {| tokens := num_sub (refilled p now raw) (num 1); lastRefill := num now |}.

Notation bucketed := (result LimitError (RateLimitInfo number)).

(** The loop over the attempts that are left. *)
Fixpoint tb_loop (key : bytes) (p : TokenBucketParams) (attempts : nat) : prog bucketed :=
  match attempts with
  | O => Ret (Err CasFailed)
  | S attempts =>
      Now (fun now =>
        kv_get (tb_key p key) (fun getResult =>
          match getResult with
          | Err e => Ret (Err (FromKv e))
          | Ok None =>
              kv_set_absent (tb_key p key) (print_state (initial p now)) None (fun setResult =>
                match setResult with
                | Err Conflict409 => tb_loop key p attempts
                | Err e => Ret (Err (FromKv e))
                | Ok _ => Ret (Ok (tb_allowed p now (num_sub (capacity p) (num 1))))
                end)
          | Ok (Some data) =>
              match parse_state (e_value data) with
              | None => Ret (Err BadState)
              | Some raw =>
                  if num_ltb (refilled p now raw) (num 1)
                  then Ret (Ok (tb_denied p now (refilled p now raw)))
                  else
                    kv_cas (tb_key p key) (print_state (drawn p now raw)) (e_revision data) (fun casResult =>
                      match casResult with
                      | Err Conflict409 => tb_loop key p attempts
                      | Err e => Ret (Err (FromKv e))
                      | Ok _ => Ret (Ok (tb_allowed p now (num_floor (num_sub (refilled p now raw) (num 1)))))
                      end)
              end
          end))
  end.

Definition limitTokenBucket (key : bytes) (p : TokenBucketParams) : prog bucketed :=
  tb_loop key p (S MAX_CAS_RETRIES).

(** ** Counting *)

Fixpoint total (g : nat -> Z) (n : nat) : Z :=
  match n with O => 0 | S n => total g n + g n end.

Lemma total_ext g h n : (forall i, (i < n)%nat -> g i = h i) -> total g n = total h n.
Proof. induction n as [|n IH]; intros He; [done|]. cbn. rewrite IH, He by auto with lia. done. Qed.

Lemma total_upd {Ph} (g : nat -> Ph -> Z) phs i ph n : (i < n)%nat ->
  total (fun j => g j (upd i ph phs j)) n = total (fun j => g j (phs j)) n - g i (phs i) + g i ph.
Proof.
  induction n as [|n IH]; [lia|]. intros Hi. cbn. destruct (decide (i = n)) as [->|Hn].
  - rewrite upd_eq, (total_ext _ (fun j => g j (phs j))); [lia|].
    intros j Hj. cbv beta. rewrite upd_ne; [done|lia].
  - rewrite IH by lia. rewrite upd_ne; [lia|done].
Qed.

Lemma total_spawn {Ph} (g : nat -> Ph -> Z) phs ph n :
  total (fun j => g j (upd n ph phs j)) (S n) = total (fun j => g j (phs j)) n + g n ph.
Proof.
  cbn. rewrite upd_eq, (total_ext _ (fun j => g j (phs j))); [done|].
  intros j Hj. cbv beta. rewrite upd_ne; [done|lia].
Qed.

Lemma total_le g h n : (forall i, (i < n)%nat -> g i <= h i) -> total g n <= total h n.
Proof.
  induction n as [|n IH]; intros He; [done|]. cbn. pose proof (He n ltac:(lia)).
  assert (total g n <= total h n) by (apply IH; auto with lia). lia.
Qed.

Definition sum_of {A} (f : A -> Z) (l : list A) : Z := foldr (fun x n => f x + n) 0 l.

Lemma sum_of_app {A} (f : A -> Z) l l' : sum_of f (l ++ l') = sum_of f l + sum_of f l'.
Proof. unfold sum_of in *. induction l as [|x l IH]; [done|]. cbn [app foldr]. lia. Qed.

Lemma sum_of_total {A Ph} (pf : nat -> Ph -> prog A) f ps phs : labelled pf ps phs ->
  sum_of f ps = total (fun i => f (pf i (phs i))) (length ps).
Proof.
  induction ps as [|p ps IH] using rev_ind; intros Hl; [done|].
  rewrite sum_of_app, length_app, IH.
  - cbn. rewrite Nat.add_1_r. cbn. rewrite <- (Hl (length ps) p); [lia|]. by rewrite list_lookup_middle.
  - intros i q Hq. apply Hl. by apply lookup_app_l_Some.
Qed.
(** ** Decimal counters *)

Lemma show_i64_nonneg n : 0 <= n <= i64_max -> show_i64 n <> [] /\ Forall is_digit (show_i64 n) /\ dec_val (show_i64 n) = n.
Proof.
  intros Hn. unfold show_i64. destruct (Z.ltb_spec n 0); [lia|]. apply show_u64_spec. unfold is_u64. unfold_ints. lia.
Qed.

Lemma show_i64_inj n m : 0 <= n <= i64_max -> 0 <= m <= i64_max -> show_i64 n = show_i64 m -> n = m.
Proof.
  intros Hn Hm He. destruct (show_i64_nonneg n Hn) as (_ & _ & <-). rewrite He. by apply show_i64_nonneg.
Qed.

Lemma parse_show n : 0 <= n <= i64_max -> Store.parse_i64 (show_i64 n) = Some n.
Proof.
  intros Hn. destruct (show_i64_nonneg n Hn) as (Hne & Hd & Hv). set (b := show_i64 n) in *.
  assert (parse_digits b = Some n) as Hp.
  { unfold parse_digits. rewrite decide_False by done.
    assert (forallb (fun c => (48 <=? c) && (c <=? 57)) b = true) as ->; [|by rewrite Hv].
    apply forallb_forall. intros c Hc%list_elem_of_In. rewrite Forall_forall in Hd. specialize (Hd c Hc).
    unfold is_digit in Hd. lia. }
  unfold Store.parse_i64. destruct b as [|c b]; [done|]. apply Forall_cons in Hd as [Hc _]. unfold is_digit in Hc.
  assert (match c :: b with 45 :: b => Z.opp <$> parse_digits b | 43 :: b => parse_digits b | _ => parse_digits (c :: b) end
    = parse_digits (c :: b)) as Hm.
  { destruct (decide (c = 45)); [lia|]. destruct (decide (c = 43)); [lia|].
    destruct c as [|q|q]; try done. do 6 (destruct q as [q|q|]; try done). }
  rewrite Hm, Hp. cbn. rewrite decide_True; [done|]. unfold is_i64. unfold_ints. lia.
Qed.

(** ** Calls on counters *)

Lemma purge_ne now k K m : k <> K -> purge now k m !! K = m !! K.
Proof. intros Hk. unfold purge. repeat case_match; try done. by rewrite lookup_delete_ne. Qed.

Lemma spec_incr_frame k d now inst sp r sp' evs K : k <> K ->
  spec_op (OpIncr k d) now inst sp r sp' evs -> sp_map sp' !! K = sp_map sp !! K.
Proof.
  intros Hk. cbn [spec_op]. destruct (ShardStore.incr_value _ d) as [n|e].
  - intros (ts & _ & _ & -> & _). cbn. by rewrite lookup_insert_ne.
  - intros (_ & -> & _ & _). by apply purge_ne.
Qed.

Lemma spec_expire_frame k d now inst sp r sp' evs K : k <> K ->
  spec_op (OpExpire k d) now inst sp r sp' evs -> sp_map sp' !! K = sp_map sp !! K.
Proof.
  intros Hk. cbn [spec_op]. destruct (find now (sp_map sp) k); [|by intros (_ & -> & _)].
  destruct (validate_ttl d now); [|by intros (_ & -> & _)].
  intros (ts & _ & _ & -> & _). cbn. by rewrite lookup_insert_ne.
Qed.

Lemma find_same now m m' k : m' !! k = m !! k -> find now m' k = find now m k.
Proof. intros He. unfold find. by rewrite He. Qed.

Lemma find_later now now' m k : now <= now' -> find now m k = None -> find now' m k = None.
Proof.
  unfold find. destruct (m !! k) as [a|]; [|done]. cbn. intros Hn.
  destruct (a_expires a) as [x|]; cbn; [|done].
  destruct (Z.leb_spec x now); [|done]. intros _. destruct (Z.leb_spec x now'); [done|lia].
Qed.
(** ** The requests of one window *)

Section FixedWindow.
Context (key : bytes) (p : FixedWindowParams) (b : Z).
Context (Hwindow : 0 < fw_window p) (Hlimit : 0 <= fw_limit p) (Hb : (b + 1) * fw_window p <= i64_max).

Definition window_key : bytes := fw_key p key b.
Definition window_end : Z := (b + 1) * fw_window p.

Inductive fphase :=
  | FStart
  | FClocked (now : Z)
  | FExpiring (now count : Z)
  | FDone (now count : Z)
  | FDropped (now count : Z) (e : KvError)
  | FFailed (e : KvError).

Definition fprog (i : nat) (ph : fphase) : prog limited :=
  match ph with
  | FStart => limitFixedWindow key p
  | FClocked now =>
      kv_incr (fw_key p key (now / fw_window p)) 1 (fun incrResult =>
        match incrResult with
        | Err e => Ret (Err (FromKv e))
        | Ok count =>
            if count =? 1 then
              kv_expire (fw_key p key (now / fw_window p)) (fw_window p) (fun expireResult =>
                match expireResult with
                | Err e => Ret (Err (FromKv e))
                | Ok _ => Ret (Ok (fw_info p now count))
                end)
            else Ret (Ok (fw_info p now count))
        end)
  | FExpiring now count =>
      kv_expire (fw_key p key (now / fw_window p)) (fw_window p) (fun expireResult =>
        match expireResult with
        | Err e => Ret (Err (FromKv e))
        | Ok _ => Ret (Ok (fw_info p now count))
        end)
  | FDone now count => Ret (Ok (fw_info p now count))
  | FDropped now count e => Ret (Err (FromKv e))
  | FFailed e => Ret (Err (FromKv e))
  end.

(** Whether a request has incremented the counter of the window, and the number it got. *)
Definition got (ph : fphase) : option Z :=
  match ph with
  | FExpiring now count | FDone now count | FDropped now count _ =>
      if now / fw_window p =? b then Some count else None
  | _ => None
  end.

Definition counted (i : nat) (ph : fphase) : Z := if got ph then 1 else 0.
Definition admitted (i : nat) (ph : fphase) : Z :=
  match got ph with Some count => if count <=? fw_limit p then 1 else 0 | None => 0 end.

Definition clocked (c : Z) (ph : fphase) : Prop :=
  match ph with
  | FClocked now | FExpiring now _ | FDone now _ | FDropped now _ _ => 0 <= now <= c
  | _ => True
  end.

Definition count_in (w : world limited) (phs : nat -> fphase) : Z :=
  total (fun i => counted i (phs i)) (length (pool w)).

(** The counter of the window after [c] increments. *)
Definition counter (sp : space) (now c : Z) : Prop :=
  (c = 0 /\ find now (sp_map sp) window_key = None) \/
  (0 < c <= i64_max /\ exists a, sp_map sp !! window_key = Some a /\ a_value a = show_i64 c /\
     match a_expires a with Some x => window_end <= x | None => True end).

Record window_inv (w : world limited) (phs : nat -> fphase) : Prop := {
  fw_pool : labelled fprog (pool w) phs;
  fw_clock : 0 <= clock w;
  fw_times : forall i, clocked (clock w) (phs i);
  fw_counter : counter (server w) (clock w) (count_in w phs);
  fw_admitted : total (fun i => admitted i (phs i)) (length (pool w)) = Z.min (count_in w phs) (fw_limit p);
}.

Lemma wake_fprog evs i ph : wake evs (fprog i ph) = fprog i ph.
Proof. by destruct ph. Qed.

Lemma window_key_other now : 0 <= now < window_end -> now / fw_window p <> b ->
  fw_key p key (now / fw_window p) <> window_key.
Proof.
  intros Hnow Hne Heq. apply Hne. unfold window_key, fw_key in Heq.
  apply app_inv_head, app_inv_head, app_inv_head, app_inv_head in Heq. unfold window_end in *.
  assert (0 <= now / fw_window p <= now).
  { split; [by apply Z.div_pos; lia|]. apply Z.div_le_upper_bound; nia. }
  apply show_i64_inj; [nia| |done]. nia.
Qed.

Lemma counter_same sp sp' now c : sp_map sp' !! window_key = sp_map sp !! window_key ->
  counter sp now c -> counter sp' now c.
Proof.
  intros He [[-> Hf]|(Hc & a & Ha & Hv)]; [left|right].
  - split; [done|]. by rewrite (find_same _ (sp_map sp)).
  - split; [done|]. exists a. by rewrite He.
Qed.

Lemma counter_live sp now c : now < window_end -> counter sp now c ->
  (a_value <$> find now (sp_map sp) window_key) = (if decide (c = 0) then None else Some (show_i64 c)).
Proof.
  intros Hn [[-> Hf]|(Hc & a & Ha & Hv & Hx)]; [by rewrite Hf|].
  rewrite decide_False by lia. unfold find. rewrite Ha. cbn.
  destruct (a_expires a) as [x|]; cbn; [|by rewrite Hv]. destruct (Z.leb_spec x now); [lia|]. cbn. by rewrite Hv.
Qed.

(** The increment returns the next number, or fails and changes nothing. *)
Lemma counter_incr sp now inst r sp' evs c : now < window_end -> 0 <= c <= i64_max -> counter sp now c ->
  spec_op (OpIncr window_key 1) now inst sp r sp' evs ->
  (r = Ok (RCount (c + 1)) /\ counter sp' now (c + 1)) \/ (exists e, r = Err e /\ counter sp' now c).
Proof.
  intros Hn Hc Hct. cbn [spec_op]. rewrite (counter_live sp now c) by done. unfold ShardStore.incr_value.
  assert (match (if decide (c = 0) then None else Some (show_i64 c)) with
    | Some v => ok_or (Store.parse_i64 v) (InvalidInput "value is not an integer or out of range")
    | None => Ok 0 end = Ok c) as ->.
  { destruct (decide (c = 0)) as [->|]; [done|]. by rewrite parse_show by lia. }
  cbn [mbind result_bind]. unfold checked_add_i64. case_decide as Hfit; cbn [ok_or].
  - intros (ts & _ & -> & -> & _). left. split; [done|]. right. unfold is_i64 in Hfit.
    split; [lia|]. eexists. cbn. rewrite lookup_insert_eq. split; [done|]. cbn. split; [done|].
    destruct Hct as [[_ Hf]|(_ & a & Ha & _ & Hx)]; [by rewrite Hf|]. unfold find. rewrite Ha. cbn.
    by destruct (past (a_expires a) now).
  - intros (-> & Hm & _ & _). right. eexists. split; [done|].
    destruct Hct as [[-> Hf]|(Hc' & a & Ha & Hv & Hx)]; [left|right].
    + split; [done|]. rewrite Hm. unfold purge, find in *. destruct (sp_map sp !! window_key) as [a|] eqn:E; rewrite ?E.
      * cbn in Hf. destruct (past (a_expires a) now) eqn:Ep; [by rewrite lookup_delete_eq|done].
      * done.
    + split; [done|]. exists a. rewrite Hm. unfold purge. rewrite Ha.
      destruct (a_expires a) as [x|] ; cbn; [|done].
      by destruct (Z.leb_spec x now); [lia|].
Qed.

Lemma counter_expire sp now inst r sp' evs c : b * fw_window p <= now -> counter sp now c ->
  spec_op (OpExpire window_key (fw_window p)) now inst sp r sp' evs -> counter sp' now c.
Proof.
  intros Hn Hct. cbn [spec_op]. destruct (find now (sp_map sp) window_key) as [a|] eqn:Hf;
    [|by intros (_ & -> & _)].
  destruct (validate_ttl (fw_window p) now) as [ms|e] eqn:Ev; [|by intros (_ & -> & _)].
  unfold validate_ttl in Ev. repeat case_decide; try done. injection Ev as <-.
  intros (ts & _ & _ & -> & _). destruct Hct as [[_ Hf']|(Hc & a' & Ha & Hv & Hx)]; [congruence|]. right.
  unfold find in Hf. rewrite Ha in Hf. cbn in Hf. destruct (past _ _); [done|]. injection Hf as ->.
  split; [done|]. eexists. cbn. rewrite lookup_insert_eq. split; [done|]. cbn. split; [done|].
  unfold window_end. lia.
Qed.
Lemma wake_fpool ps phs evs : labelled fprog ps phs -> wake evs <$> ps = ps.
Proof.
  intros Hl. apply list_eq. intros i. rewrite list_lookup_fmap. destruct (ps !! i) as [q|] eqn:E; [|done].
  cbn. rewrite (Hl _ _ E). by rewrite wake_fprog.
Qed.

Lemma count_in_upd w phs i ph : (i < length (pool w))%nat ->
  count_in w (upd i ph phs) = count_in w phs - counted i (phs i) + counted i ph.
Proof. apply (total_upd counted). Qed.

(** A request goes to another phase and the counter with it. *)
Lemma window_upd w phs i q ph sp' cs : window_inv w phs -> pool w !! i = Some q -> clocked (clock w) ph ->
  counter sp' (clock w) (count_in w (upd i ph phs)) ->
  admitted i ph - admitted i (phs i)
  = Z.min (count_in w (upd i ph phs)) (fw_limit p) - Z.min (count_in w phs) (fw_limit p) ->
  window_inv (mkWorld (clock w) sp' (<[i := fprog i ph]> (pool w)) cs) (upd i ph phs).
Proof.
  intros [Hl Hc Ht Hct Ha] Hi Hcl Hct' Hadm. apply lookup_lt_Some in Hi.
  split; unfold count_in in *; cbn [pool clock server] in *; rewrite ?length_insert; try done.
  - by apply labelled_insert.
  - intros j. destruct (decide (j = i)) as [->|]; [by rewrite upd_eq|]. by rewrite upd_ne.
  - rewrite (total_upd admitted) by done. lia.
Qed.

(** A step that leaves the counter alone, from a phase that is counted or not to one
    that is likewise. *)
Lemma window_keep w phs i q ph sp' cs : window_inv w phs -> pool w !! i = Some q -> clocked (clock w) ph ->
  got ph = got (phs i) -> counter sp' (clock w) (count_in w phs) ->
  window_inv (mkWorld (clock w) sp' (<[i := fprog i ph]> (pool w)) cs) (upd i ph phs).
Proof.
  intros Hi Hq Hcl Hg Hct. assert (count_in w (upd i ph phs) = count_in w phs) as Hc.
  { rewrite count_in_upd by (by eapply lookup_lt_Some). unfold counted. rewrite Hg. lia. }
  refine (window_upd _ _ _ _ _ _ _ Hi Hq Hcl _ _); rewrite Hc; [exact Hct|]. unfold admitted. rewrite Hg. lia.
Qed.

Definition after_incr (now : Z) (r : eresult reply) : fphase :=
  match r with
  | Ok (RCount n) => if n =? 1 then FExpiring now n else FDone now n
  | Ok _ => FFailed Conflict409
  | Err e => FFailed (Failed e)
  end.

Lemma window_incr w phs i f now inst r sp' evs cs : window_inv w phs -> clock w < window_end ->
  phs i = FClocked now -> pool w !! i = Some (Kv (OpIncr (fw_key p key (now / fw_window p)) 1) f) ->
  spec_op (OpIncr (fw_key p key (now / fw_window p)) 1) (clock w) inst (server w) r sp' evs ->
  exists phs', window_inv (mkWorld (clock w) sp' (<[i := f r]> (pool w)) cs) phs'.
Proof.
  intros Hi Hend Hph Hp Hs. pose proof Hi as [Hl Hc Ht Hct Ha].
  pose proof (Ht i) as Hnow. rewrite Hph in Hnow. cbn in Hnow.
  assert (f r = fprog i (after_incr now r)) as ->.
  { pose proof (Hl _ _ Hp) as Hf. rewrite Hph in Hf. injection Hf as ->. unfold after_incr.
    destruct r as [[]|]; try done. by destruct (n =? 1). }
  exists (upd i (after_incr now r) phs).
  assert (clocked (clock w) (after_incr now r)) as Hcl.
  { unfold after_incr. repeat case_match; done. }
  destruct (decide (now / fw_window p = b)) as [Heq|Hne].
  - assert (0 <= count_in w phs <= i64_max) as Hcr.
    { destruct Hct as [[-> _]|[? _]]; [unfold_ints; lia|lia]. }
    rewrite Heq in Hs. fold window_key in Hs.
    apply (counter_incr _ _ _ _ _ _ _ Hend Hcr Hct) in Hs as [(-> & Hct')|(e & -> & Hct')].
    + assert (got (after_incr now (Ok (RCount (count_in w phs + 1)))) = Some (count_in w phs + 1)) as Hg.
      { unfold after_incr. case_match; cbn; by rewrite Heq, Z.eqb_refl. }
      assert (count_in w (upd i (after_incr now (Ok (RCount (count_in w phs + 1)))) phs) = count_in w phs + 1) as Hc1.
      { rewrite count_in_upd by (by eapply lookup_lt_Some). unfold counted. rewrite Hg, Hph. cbn. lia. }
      refine (window_upd _ _ _ _ _ _ _ Hi Hp Hcl _ _); rewrite Hc1; [exact Hct'|]. unfold admitted. rewrite Hg, Hph. cbn [got].
      destruct (Z.leb_spec (count_in w phs + 1) (fw_limit p)); lia.
    + eapply window_keep; try done. by rewrite Hph.
  - assert (counter sp' (clock w) (count_in w phs)) as Hct'.
    { eapply counter_same; [|done]. eapply spec_incr_frame; [|done]. apply window_key_other; [lia|done]. }
    eapply window_keep; try done. rewrite Hph. unfold after_incr.
    assert ((now / fw_window p =? b) = false) as Hneb by (by apply Z.eqb_neq).
    repeat case_match; cbn; by rewrite ?Hneb.
Qed.

Lemma window_expire w phs i f now n inst r sp' evs cs : window_inv w phs -> clock w < window_end ->
  phs i = FExpiring now n -> pool w !! i = Some (Kv (OpExpire (fw_key p key (now / fw_window p)) (fw_window p)) f) ->
  spec_op (OpExpire (fw_key p key (now / fw_window p)) (fw_window p)) (clock w) inst (server w) r sp' evs ->
  exists phs', window_inv (mkWorld (clock w) sp' (<[i := f r]> (pool w)) cs) phs'.
Proof.
  intros Hi Hend Hph Hp Hs. pose proof Hi as [Hl Hc Ht Hct Ha].
  pose proof (Ht i) as Hnow. rewrite Hph in Hnow. cbn in Hnow.
  assert (exists ph, f r = fprog i ph /\ got ph = got (phs i) /\ clocked (clock w) ph) as (ph & Hf & Hg & Hcl).
  { pose proof (Hl _ _ Hp) as Hf. rewrite Hph in Hf |- *. injection Hf as ->. 
    destruct r as [[]|e]; try (by exists (FDropped now n NotFound404)); [|by exists (FDropped now n (Failed e))].
    destruct b0; [by exists (FDone now n)|by exists (FDropped now n NotFound404)]. }
  rewrite Hf. exists (upd i ph phs). eapply window_keep; try done.
  destruct (decide (now / fw_window p = b)) as [Heq|Hne].
  - rewrite Heq in Hs. eapply counter_expire; [|done|exact Hs].
    pose proof (Z.mul_div_le now (fw_window p)). nia.
  - eapply counter_same; [|done]. eapply spec_expire_frame; [|done]. apply window_key_other; [lia|done].
Qed.
Definition request (i : nat) : prog limited := limitFixedWindow key p.

Lemma counter_elsewhere sp now c sp' : now < window_end -> counter sp now c ->
  elsewhere window_key now sp sp' -> counter sp' now c.
Proof.
  intros Hn Hct [_ [He|[Hf He]]]; [by eapply counter_same|].
  pose proof (counter_live _ _ _ Hn Hct) as Hl. rewrite Hf in Hl. case_decide; [|done]. subst c. left.
  split; [done|]. unfold find. by rewrite He.
Qed.

Lemma counter_later sp now now' c : now <= now' -> counter sp now c -> counter sp now' c.
Proof.
  intros Hn [[-> Hf]|Hc]; [left|by right]. split; [done|]. by eapply find_later.
Qed.

Lemma window_inv_step w phs w' : window_inv w phs -> step request window_key w w' -> clock w' < window_end ->
  exists phs', window_inv w' phs'.
Proof.
  intros Hi Hs Hend. pose proof Hi as [Hl Hc Ht Hct Ha].
  destruct Hs as [c Hle| |i f Hp|i o f inst r sp' evs Hp Hs|i k q Hp|i k q Hp|i f r Hp|sp' evs He _];
    cbn [clock] in Hend.
  - exists phs. split; cbn; try done; [lia| |by eapply counter_later].
    intros i. specialize (Ht i). destruct (phs i); cbn in *; lia.
  - exists (upd (length (pool w)) FStart phs).
    assert (length (pool w ++ [request (length (pool w))]) = S (length (pool w))) as Hlen by (rewrite length_app; cbn; lia).
    split; unfold count_in in *; cbn [pool clock server] in *; rewrite ?Hlen, ?total_spawn; cbn [counted admitted got];
      rewrite ?Z.add_0_r; try done.
    + by apply labelled_spawn.
    + intros i. destruct (decide (i = length (pool w))) as [->|]; [by rewrite upd_eq|]. by rewrite upd_ne.
  - pose proof (Hl _ _ Hp) as Hf. destruct (phs i) eqn:Eph; try discriminate Hf. injection Hf as ->.
    exists (upd i (FClocked (clock w)) phs).
    apply (window_keep w phs i _ (FClocked (clock w)) (server w) (calls w) Hi Hp); rewrite ?Eph; cbn; [lia|done..].
  - assert (exists phs', window_inv (mkWorld (clock w) sp' (<[i := f r]> (pool w)) (calls w ++ [(clock w, i, o, r)])) phs')
      as [phs' Hi'].
    { pose proof (Hl _ _ Hp) as Hf. destruct (phs i) eqn:Eph; try discriminate Hf; pose proof Hf as Ho;
        cbn in Ho; injection Ho as -> _; [by eapply window_incr|by eapply window_expire]. }
    exists phs'. pose proof (wake_fpool _ _ evs (fw_pool _ _ Hi')) as Hw. cbn [pool] in Hw. by rewrite Hw.
  - pose proof (Hl _ _ Hp) as Hf. by destruct (phs i).
  - pose proof (Hl _ _ Hp) as Hf. by destruct (phs i).
  - pose proof (Hl _ _ Hp) as Hf. by destruct (phs i).
  - exists phs. rewrite (wake_fpool _ _ evs Hl). split; try done. by eapply counter_elsewhere.
Qed.

Lemma window_inv_steps w0 w : starts window_key w0 -> 0 <= clock w0 -> steps request window_key w0 w ->
  clock w < window_end -> exists phs, window_inv w phs.
Proof.
  intros (Hp & _ & HK) H0 Hs. induction Hs as [|w1 w2 _ IH Hs]; intros Hend.
  - exists (fun _ => FStart). split; unfold count_in; rewrite ?Hp; try done; [|cbn; lia].
    left. split; [done|]. unfold find. by rewrite HK.
  - assert (clock w1 <= clock w2) by (destruct Hs; cbn; lia).
    destruct IH as [phs Hi]; [lia|]. by eapply window_inv_step.
Qed.

(** Requests that have been answered in the window, and those of them that were allowed. *)
Definition answered (q : prog limited) : Z :=
  match q with Ret (Ok info) => if reset info =? window_end then 1 else 0 | _ => 0 end.
Definition passed (q : prog limited) : Z :=
  match q with Ret (Ok info) => if (reset info =? window_end) && allowed info then 1 else 0 | _ => 0 end.

Lemma reset_window now n : (reset (fw_info p now n) =? window_end) = (now / fw_window p =? b).
Proof.
  cbn. unfold window_end. destruct (Z.eqb_spec (now / fw_window p) b) as [->|Hne]; [apply Z.eqb_refl|].
  apply Z.eqb_neq. intros He. apply Hne. apply Z.mul_reg_r in He; lia.
Qed.

Lemma passed_admitted i ph : passed (fprog i ph) <= admitted i ph.
Proof.
  destruct ph as [|now|now n|now n|now n e|e]; cbn [passed fprog kv_incr kv_expire]; unfold admitted; cbn [got]; try done.
  - repeat case_match; lia.
  - rewrite reset_window. cbn [allowed fw_info]. destruct (now / fw_window p =? b); cbn; [|done].
    by destruct (n <=? fw_limit p).
  - repeat case_match; lia.
Qed.

(** A request that was answered counts for what it was answered. *)
Lemma answered_exact i ph info : fprog i ph = Ret (Ok info) ->
  passed (fprog i ph) = admitted i ph /\ answered (fprog i ph) = counted i ph.
Proof.
  destruct ph as [|now|now n|now n|now n e|e]; cbn [fprog]; try discriminate. intros _.
  cbn [passed answered]. rewrite reset_window. unfold admitted, counted. cbn [got allowed fw_info].
  destruct (now / fw_window p =? b); cbn; [|done]. by destruct (n <=? fw_limit p).
Qed.
End FixedWindow.

(** C16: However the requests of any number of clients on a key interleave, call by
    call, and whatever others do to the rest of the namespace, until the end of a window
    at most [limit] requests are allowed in it; and when all requests have been answered
    exactly the smaller one of [limit] and their number is. *)
Theorem fixed_window_exact key p b w0 w :
  0 < fw_window p -> 0 <= fw_limit p -> (b + 1) * fw_window p <= i64_max ->
  starts (window_key key p b) w0 -> 0 <= clock w0 ->
  steps (request key p) (window_key key p b) w0 w -> clock w < window_end p b ->
  sum_of (passed p b) (pool w) <= fw_limit p /\
  ((forall q, q ∈ pool w -> exists info, q = Ret (Ok info)) ->
   sum_of (passed p b) (pool w) = Z.min (sum_of (answered p b) (pool w)) (fw_limit p)).
Proof.
  intros Hw Hlim Hb Hst H0 Hs Hend.
  destruct (window_inv_steps key p b Hw Hlim Hb w0 w Hst H0 Hs Hend) as [phs Hi].
  destruct Hi as [Hl _ _ Hct Ha]. rewrite !(sum_of_total (fprog key p) _ _ _ Hl). split.
  - assert (total (fun i => passed p b (fprog key p i (phs i))) (length (pool w))
      <= total (fun i => admitted p b i (phs i)) (length (pool w))) by (apply total_le; intros; by apply passed_admitted).
    lia.
  - intros Hall. unfold count_in in Ha.
    assert (forall i, (i < length (pool w))%nat -> exists info, fprog key p i (phs i) = Ret (Ok info)) as Hret.
    { intros i Hi. destruct (lookup_lt_is_Some_2 _ _ Hi) as [q Hq].
      destruct (Hall q) as [info Hinfo]; [by eapply list_elem_of_lookup_2|]. exists info.
      rewrite <- Hinfo. symmetry. by apply Hl. }
    rewrite (total_ext _ (fun i => admitted p b i (phs i))), Ha; [f_equal; apply total_ext|]; 
      intros i Hi; destruct (Hret i Hi) as [info Hinfo]; by destruct (answered_exact key p b Hw i _ _ Hinfo).
Qed.

(** ** The states of a bucket *)

(** The state [v] is what a request at the time [now] makes of the state before it. *)
Definition taken (p : TokenBucketParams) (before : option bytes) (now : Z) (v : bytes) : Prop :=
  match before with
  | None => v = print_state (initial p now)
  | Some raw => exists st, parse_state raw = Some st /\ num_ltb (refilled p now st) (num 1) = false /\
      v = print_state (drawn p now st)
  end.

(** The states that a bucket has had. *)
Inductive bucket_history (p : TokenBucketParams) : list bytes -> Prop :=
  | history_nil : bucket_history p []
  | history_snoc l now v : bucket_history p l -> taken p (last l) now v -> bucket_history p (l ++ [v]).

Section TokenBucket.
#[local] Arguments num : simpl never.
Context (key : bytes) (p : TokenBucketParams).

Definition bucket_key : bytes := tb_key p key.

Definition draw (i : nat) : prog bucketed := limitTokenBucket key p.

Inductive tphase :=
  | TLoop (n : nat)
  | TGet (n : nat) (now : Z)
  | TInit (n : nat) (now : Z)
  | TCas (n : nat) (now : Z) (raw : bytes) (st : BucketState) (rev : Z)
  | TEnd (r : bucketed).

Definition after_init (n : nat) (now : Z) (setResult : KvResult unit) : prog bucketed :=
  match setResult with
  | Err Conflict409 => tb_loop key p n
  | Err e => Ret (Err (FromKv e))
  | Ok _ => Ret (Ok (tb_allowed p now (num_sub (capacity p) (num 1))))
  end.

Definition after_cas (n : nat) (now : Z) (st : BucketState) (casResult : KvResult Z) : prog bucketed :=
  match casResult with
  | Err Conflict409 => tb_loop key p n
  | Err e => Ret (Err (FromKv e))
  | Ok _ => Ret (Ok (tb_allowed p now (num_floor (num_sub (refilled p now st) (num 1)))))
  end.

Definition after_get (n : nat) (now : Z) (getResult : KvResult (option Entry)) : prog bucketed :=
  match getResult with
  | Err e => Ret (Err (FromKv e))
  | Ok None => kv_set_absent bucket_key (print_state (initial p now)) None (after_init n now)
  | Ok (Some data) =>
      match parse_state (e_value data) with
      | None => Ret (Err BadState)
      | Some raw =>
          if num_ltb (refilled p now raw) (num 1)
          then Ret (Ok (tb_denied p now (refilled p now raw)))
          else kv_cas bucket_key (print_state (drawn p now raw)) (e_revision data) (after_cas n now raw)
      end
  end.

Definition tprog (i : nat) (ph : tphase) : prog bucketed :=
  match ph with
  | TLoop n => tb_loop key p n
  | TGet n now => kv_get bucket_key (after_get n now)
  | TInit n now => kv_set_absent bucket_key (print_state (initial p now)) None (after_init n now)
  | TCas n now raw st rev => kv_cas bucket_key (print_state (drawn p now st)) rev (after_cas n now st)
  | TEnd r => Ret r
  end.

Lemma tb_loop_tprog n : tb_loop key p (S n) = Now (fun now => tprog 0 (TGet n now)).
Proof. reflexivity. Qed.

Lemma wake_tprog evs i ph : wake evs (tprog i ph) = tprog i ph.
Proof. destruct ph as [n| | | |]; try done. by destruct n. Qed.

Definition took (q : prog bucketed) : Z :=
  match q with Ret (Ok info) => if allowed info then 1 else 0 | _ => 0 end.

Definition stored_entry (w : world bucketed) : option aentry := sp_map (server w) !! bucket_key.

(** A request that is about to swap has a state with a token left, and if the revision
    it has seen is still there so is that state. *)
Definition sound (w : world bucketed) (ph : tphase) : Prop :=
  match ph with
  | TCas n now raw st rev =>
      parse_state raw = Some st /\ num_ltb (refilled p now st) (num 1) = false /\ rev <= sp_last (server w) /\
      forall a, stored_entry w = Some a -> a_rev a = rev -> a_value a = raw
  | _ => True
  end.

Record bucket_inv (w : world bucketed) (phs : nat -> tphase) (l : list bytes) : Prop := {
  tb_pool : labelled tprog (pool w) phs;
  tb_sound : forall i, sound w (phs i);
  tb_history : bucket_history p l;
  tb_value : (a_value <$> stored_entry w) = last l;
  tb_forever : forall a, stored_entry w = Some a -> a_expires a = None;
  tb_rev : forall a, stored_entry w = Some a -> a_rev a <= sp_last (server w);
  tb_count : total (fun i => took (tprog i (phs i))) (length (pool w)) = zlen l;
}.

(** The calls that do not write the state. *)
Lemma bucket_keep w phs l i q ph sp' cs : bucket_inv w phs l -> pool w !! i = Some q ->
  took q = 0 -> took (tprog i ph) = 0 ->
  sp_last (server w) <= sp_last sp' -> sp_map sp' !! bucket_key = sp_map (server w) !! bucket_key ->
  sound (mkWorld (clock w) sp' (pool w) cs) ph ->
  bucket_inv (mkWorld (clock w) sp' (<[i := tprog i ph]> (pool w)) cs) (upd i ph phs) l.
Proof.
  intros [Hl Hs Hh Hv Hf Hr Hc] Hq Hq0 Hp0 Hlast Hm Hsound. unfold stored_entry in *.
  split; unfold stored_entry; cbn [pool clock server] in *; rewrite ?length_insert, ?Hm; try done.
  - by apply labelled_insert.
  - intros j. destruct (decide (j = i)) as [->|]; [by rewrite upd_eq|]. rewrite upd_ne by done. specialize (Hs j).
    destruct (phs j); try done. destruct Hs as (? & ? & ? & Ha). split_and!; [done..|cbn; lia|].
    unfold stored_entry. cbn. by rewrite Hm.
  - intros a Ha. specialize (Hr a Ha). lia.
  - rewrite (total_upd (fun j ph => took (tprog j ph))) by (by eapply lookup_lt_Some).
    rewrite <- (Hl _ _ Hq), Hp0, Hq0. lia.
Qed.

(** A call that writes the next state, and allows the request. *)
Lemma bucket_write w phs l i q now v ts cs info : bucket_inv w phs l -> pool w !! i = Some q ->
  took q = 0 -> allowed info = true -> sp_last (server w) < ts -> taken p (last l) now v ->
  bucket_inv (mkWorld (clock w) (mkSpace (<[bucket_key := mkA v [] None ts]> (sp_map (server w))) ts)
    (<[i := Ret (Ok info)]> (pool w)) cs) (upd i (TEnd (Ok info)) phs) (l ++ [v]).
Proof.
  intros [Hl Hs Hh Hv Hf Hr Hc] Hq Hq0 Hal Hts Ht.
  split; unfold stored_entry; cbn [pool clock server sp_map sp_last]; rewrite ?length_insert, ?lookup_insert_eq; try done.
  - by apply labelled_insert.
  - intros j. destruct (decide (j = i)) as [->|]; [by rewrite upd_eq|]. rewrite upd_ne by done. specialize (Hs j).
    destruct (phs j); try done. destruct Hs as (? & ? & ? & Ha). split_and!; [done..|cbn; lia|].
    unfold stored_entry. cbn. rewrite lookup_insert_eq. intros a [= <-]. cbn. lia.
  - by eapply history_snoc.
  - by rewrite last_snoc.
  - by intros a [= <-].
  - intros a [= <-]. cbn. lia.
  - rewrite (total_upd (fun j ph => took (tprog j ph))) by (by eapply lookup_lt_Some).
    rewrite <- (Hl _ _ Hq), Hq0, Hc. cbn. rewrite Hal, zlen_app. change (zlen [v]) with 1. lia.
Qed.

Lemma took_loop n : took (tb_loop key p n) = 0.
Proof. by destruct n. Qed.

(** The state never expires. *)
Lemma bucket_find w phs l now : bucket_inv w phs l -> find now (sp_map (server w)) bucket_key = stored_entry w.
Proof.
  intros Hi. unfold find. fold (stored_entry w). destruct (stored_entry w) as [a|] eqn:E; [|done].
  cbn. by rewrite (tb_forever _ _ _ Hi a E).
Qed.

Lemma bucket_get w phs l i n now f inst r sp' evs cs : bucket_inv w phs l -> phs i = TGet n now ->
  pool w !! i = Some (Kv (OpGet bucket_key) f) ->
  spec_op (OpGet bucket_key) (clock w) inst (server w) r sp' evs ->
  exists phs', bucket_inv (mkWorld (clock w) sp' (<[i := f r]> (pool w)) cs) phs' l.
Proof.
  intros Hi Hph Hp (-> & Hm & Hlast & _). rewrite (bucket_find _ _ _ _ Hi).
  assert (sp_map sp' !! bucket_key = stored_entry w) as Hsame.
  { rewrite Hm. unfold purge. fold (stored_entry w). destruct (stored_entry w) as [a|] eqn:E; [|done].
    rewrite (tb_forever _ _ _ Hi a E). done. }
  assert (exists ph, f (Ok (REntry (StoreSpec.entry_of (clock w) inst <$> stored_entry w))) = tprog i ph /\
    took (tprog i ph) = 0 /\ sound (mkWorld (clock w) sp' (pool w) cs) ph) as (ph & -> & H0 & Hs).
  { pose proof (tb_pool _ _ _ Hi _ _ Hp) as Hf. rewrite Hph in Hf. injection Hf as ->.
    destruct (stored_entry w) as [a|] eqn:Ea; cbn; [|by exists (TInit n now)].
    destruct (parse_state (a_value a)) as [st|] eqn:Est; [|by exists (TEnd (Err BadState))].
    destruct (num_ltb (refilled p now st) (num 1)) eqn:El; [by eexists (TEnd (Ok _))|].
    exists (TCas n now (a_value a) st (a_rev a)). split; [done|]. split; [done|]. split_and!; [done..| |].
    - pose proof (tb_rev _ _ _ Hi a Ea). cbn. lia.
    - unfold stored_entry. cbn. rewrite Hsame. by intros a' [= <-]. }
  exists (upd i ph phs). eapply bucket_keep; try done.
Qed.

Definition plain_opts : SetOptions := mkSetOptions None None false.

Lemma bucket_init w phs l i n now f inst r sp' evs cs : bucket_inv w phs l -> phs i = TInit n now ->
  pool w !! i = Some (Kv (OpSetnx bucket_key (print_state (initial p now)) plain_opts) f) ->
  spec_op (OpSetnx bucket_key (print_state (initial p now)) plain_opts) (clock w) inst (server w) r sp' evs ->
  exists phs' l', bucket_inv (mkWorld (clock w) sp' (<[i := f r]> (pool w)) cs) phs' l'.
Proof.
  intros Hi Hph Hp Hs. pose proof (tb_pool _ _ _ Hi _ _ Hp) as Hf. rewrite Hph in Hf. injection Hf as ->.
  cbn [spec_op] in Hs. unfold spec_set, planned, plain_opts in Hs.
  cbn [o_ttl o_metadata o_keep_ttl validate_opt_ttl meta_to_bytes] in Hs.
  rewrite (bucket_find _ _ _ _ Hi) in Hs. destruct (stored_entry w) as [a|] eqn:Ea; cbn [present negb] in Hs.
  - destruct Hs as (-> & -> & _). exists (upd i (TLoop n) phs), l.
    refine (bucket_keep _ _ _ _ _ (TLoop n) _ _ Hi Hp eq_refl (took_loop n) _ eq_refl I). lia.
  - destruct Hs as (ts & Hts & -> & -> & _). do 2 eexists. eapply bucket_write; try done.
    rewrite <- (tb_value _ _ _ Hi), Ea. done.
Qed.

Lemma bucket_cas w phs l i n now raw st rev f inst r sp' evs cs : bucket_inv w phs l -> phs i = TCas n now raw st rev ->
  pool w !! i = Some (Kv (OpSetrev bucket_key (print_state (drawn p now st)) plain_opts rev) f) ->
  spec_op (OpSetrev bucket_key (print_state (drawn p now st)) plain_opts rev) (clock w) inst (server w) r sp' evs ->
  exists phs' l', bucket_inv (mkWorld (clock w) sp' (<[i := f r]> (pool w)) cs) phs' l'.
Proof.
  intros Hi Hph Hp Hs. pose proof (tb_pool _ _ _ Hi _ _ Hp) as Hf. rewrite Hph in Hf. injection Hf as ->.
  pose proof (tb_sound _ _ _ Hi i) as Hso. rewrite Hph in Hso. destruct Hso as (Hpa & Hlt & _ & Hraw).
  cbn [spec_op] in Hs. unfold spec_set, planned, plain_opts in Hs.
  cbn [o_ttl o_metadata o_keep_ttl validate_opt_ttl meta_to_bytes] in Hs.
  rewrite (bucket_find _ _ _ _ Hi) in Hs. case_bool_decide as Hrev.
  - destruct Hs as (ts & Hts & -> & -> & _). do 2 eexists. eapply bucket_write; try done.
    destruct (stored_entry w) as [a|] eqn:Ea; [|done]. injection Hrev as Hrev.
    rewrite <- (tb_value _ _ _ Hi), Ea. cbn. rewrite (Hraw a eq_refl Hrev). by exists st.
  - destruct Hs as (-> & -> & _). exists (upd i (TLoop n) phs), l.
    refine (bucket_keep _ _ _ _ _ (TLoop n) _ _ Hi Hp eq_refl (took_loop n) _ eq_refl I). lia.
Qed.

Lemma wake_tpool ps phs evs : labelled tprog ps phs -> wake evs <$> ps = ps.
Proof.
  intros Hl. apply list_eq. intros i. rewrite list_lookup_fmap. destruct (ps !! i) as [q|] eqn:E; [|done].
  cbn. rewrite (Hl _ _ E). by rewrite wake_tprog.
Qed.

(** Nothing happens to the state. *)
Lemma bucket_frame w phs l c sp' ps phs' cs : bucket_inv w phs l ->
  sp_last (server w) <= sp_last sp' -> sp_map sp' !! bucket_key = sp_map (server w) !! bucket_key ->
  labelled tprog ps phs' -> (forall i, phs' i = phs i \/ exists n, phs' i = TLoop n) ->
  total (fun i => took (tprog i (phs' i))) (length ps) = total (fun i => took (tprog i (phs i))) (length (pool w)) ->
  bucket_inv (mkWorld c sp' ps cs) phs' l.
Proof.
  intros [Hl Hs Hh Hv Hf Hr Hc] Hlast Hm Hl' Hph Ht. unfold stored_entry in *.
  split; unfold stored_entry; cbn [pool server]; rewrite ?Hm; try done; [| |by rewrite Ht].
  - intros i. destruct (Hph i) as [->|[n ->]]; [|done]. specialize (Hs i). destruct (phs i); try done.
    destruct Hs as (? & ? & ? & Ha). split_and!; [done..|cbn; lia|]. unfold stored_entry. cbn. by rewrite Hm.
  - intros a Ha. specialize (Hr a Ha). lia.
Qed.

Lemma bucket_inv_step w phs l w' : bucket_inv w phs l -> step draw bucket_key w w' ->
  exists phs' l', bucket_inv w' phs' l'.
Proof.
  intros Hi Hs. pose proof (tb_pool _ _ _ Hi) as Hl.
  destruct Hs as [c Hle| |i f Hp|i o f inst r sp' evs Hp Hs|i k q Hp|i k q Hp|i f r Hp|sp' evs [Hlast He] _].
  - exists phs, l. eapply bucket_frame; try done. by left.
  - exists (upd (length (pool w)) (TLoop (S MAX_CAS_RETRIES)) phs), l. eapply bucket_frame; try done.
    + by apply labelled_spawn.
    + intros i. unfold upd. case_decide; eauto.
    + rewrite length_app, Nat.add_1_r, (total_spawn (fun j ph => took (tprog j ph))). cbn. lia.
  - pose proof (Hl _ _ Hp) as Hf. destruct (phs i) as [[|n]| | | |] eqn:Eph; try discriminate Hf.
    cbn in Hf. injection Hf as ->. exists (upd i (TGet n (clock w)) phs), l.
    refine (bucket_keep w phs l i _ (TGet n (clock w)) _ _ Hi Hp eq_refl eq_refl _ eq_refl I). lia.
  - assert (exists phs' l', bucket_inv (mkWorld (clock w) sp' (<[i := f r]> (pool w)) (calls w ++ [(clock w, i, o, r)])) phs' l')
      as (phs' & l' & Hi').
    { pose proof (Hl _ _ Hp) as Hf. destruct (phs i) as [[|n]| | | |] eqn:Eph; try discriminate Hf; pose proof Hf as Ho;
        cbn in Ho; injection Ho as -> _.
      - destruct (bucket_get w phs l i n now f inst r sp' evs (calls w ++ [(clock w, i, OpGet bucket_key, r)]))
          as [phs' ?]; [done..|]. by exists phs', l.
      - by eapply bucket_init.
      - by eapply bucket_cas. }
    exists phs', l'. pose proof (wake_tpool _ _ evs (tb_pool _ _ _ Hi')) as Hw. cbn [pool] in Hw. by rewrite Hw.
  - pose proof (Hl _ _ Hp) as Hf. by destruct (phs i) as [[|n]| | | |].
  - pose proof (Hl _ _ Hp) as Hf. by destruct (phs i) as [[|n]| | | |].
  - pose proof (Hl _ _ Hp) as Hf. by destruct (phs i) as [[|n]| | | |].
  - exists phs, l. rewrite (wake_tpool _ _ evs Hl). eapply bucket_frame; try done; [|by left].
    destruct He as [He|[Hf He]]; [done|]. rewrite (bucket_find _ _ _ _ Hi) in Hf. by rewrite He, <- Hf.
Qed.
End TokenBucket.

(** C17: However the requests of any number of clients on a bucket interleave, call by
    call, the states that the bucket has had form one chain: the first is the full
    bucket less one token, and each later one was made from the state right before it,
    which had a token left at the time of the request.  The stored state is the last of
    the chain, and exactly as many requests were allowed as states were stored: no token
    is drawn twice and none is lost. *)
Theorem token_bucket_serial key p w0 w :
  starts (bucket_key key p) w0 -> steps (draw key p) (bucket_key key p) w0 w ->
  exists l, bucket_history p l /\
    (a_value <$> sp_map (server w) !! bucket_key key p) = last l /\
    sum_of took (pool w) = zlen l.
Proof.
  intros (Hp & _ & HK) Hs. assert (exists phs l, bucket_inv key p w phs l) as (phs & l & Hi).
  { revert Hs. apply (steps_inv (draw key p) (bucket_key key p) (fun w => exists phs l, bucket_inv key p w phs l)).
    - exists (fun _ => TLoop 0), []. split; unfold stored_entry; rewrite ?HK, ?Hp; try done. constructor.
    - intros w1 w2 (phs1 & l1 & H1) H2. exact (bucket_inv_step _ _ _ _ _ _ H1 H2). }
  exists l. split; [apply Hi|]. split; [apply (tb_value _ _ _ _ _ Hi)|].
  rewrite (sum_of_total (tprog key p) _ _ _ (tb_pool _ _ _ _ _ Hi)). apply Hi.
Qed.
End RateLimit.

(** ** Witnesses *)

Module RateLimitExamples.
#[local] Existing Instance WatchRegistry.bytes_json.

(** The calls of the limiters with their outcomes. *)
Lemma incr_spec k d now sp n ts :
  ShardStore.incr_value (a_value <$> find now (sp_map sp) k) d = Ok n -> sp_last sp < ts ->
  spec_op (OpIncr k d) now 0 sp (Ok (RCount n))
    (mkSpace (<[k := mkA (show_i64 n) [] (a ← find now (sp_map sp) k; a_expires a) ts]> (sp_map sp)) ts)
    [(k, EvSet k (show_i64 n) None (a ← find now (sp_map sp) k; a_expires a) ts)].
Proof. intros Hn Hts. cbn [spec_op]. rewrite Hn. by exists ts. Qed.

Lemma expire_spec k d now sp a ts :
  find now (sp_map sp) k = Some a -> validate_ttl d now = Ok (now + d) -> sp_last sp < ts ->
  spec_op (OpExpire k d) now 0 sp (Ok (RBool true))
    (mkSpace (<[k := with_expiry (Some (now + d)) a]> (sp_map sp)) ts)
    [(k, EvSet k (a_value a) (meta_of a) (Some (now + d)) ts)].
Proof. intros Hf Hv Hts. cbn [spec_op]. rewrite Hf, Hv. by exists ts. Qed.

Lemma get_spec k now sp :
  spec_op (OpGet k) now 0 sp (Ok (REntry (StoreSpec.entry_of now 0 <$> find now (sp_map sp) k)))
    (mkSpace (purge now k (sp_map sp)) (sp_last sp)) [].
Proof. cbn [spec_op]. unfold read_only. cbn. split_and!; [done..|lia|done]. Qed.

Lemma setnx_spec k v now sp ts : find now (sp_map sp) k = None -> sp_last sp < ts ->
  spec_op (OpSetnx k v plain_opts) now 0 sp (Ok (RBool true))
    (mkSpace (<[k := mkA v [] None ts]> (sp_map sp)) ts) [(k, EvSet k v None None ts)].
Proof. intros Hf Hts. cbn [spec_op]. unfold spec_set, planned. cbn. rewrite Hf. by exists ts. Qed.

Lemma setrev_spec k v rev now sp ts : (a_rev <$> find now (sp_map sp) k) = Some rev -> sp_last sp < ts ->
  spec_op (OpSetrev k v plain_opts rev) now 0 sp (Ok (RRev (Some ts)))
    (mkSpace (<[k := mkA v [] None ts]> (sp_map sp)) ts) [(k, EvSet k v None None ts)].
Proof.
  intros Hf Hts. cbn [spec_op]. unfold spec_set, planned. cbn. rewrite bool_decide_eq_true_2 by done. by exists ts.
Qed.

Ltac side := first [reflexivity | vm_compute; reflexivity].
Ltac spawned := eapply steps_cons; [apply step_spawn|]; cbn [clock server pool calls app length].
Ltac clock_read i := eapply steps_cons; [eapply (step_now _ _ _ i); side|]; cbn [clock server pool calls].
Tactic Notation "called" constr(i) uconstr(H) :=
  eapply steps_cons; [eapply (step_kv _ _ _ i); [side|eapply H; side]|]; cbn [clock server pool calls].

Definition ex_window : FixedWindowParams := {| fw_limit := 1; fw_window := 1000; fw_prefix := lit "rl" |}.

Definition nothing {A} : world A := mkWorld 5 (mkSpace ∅ 0) [] [].

(** Two requests in the first window, the first one of which is allowed. *)
Lemma ex_window_run : exists w,
  steps (request (lit "u") ex_window) (window_key (lit "u") ex_window 0) nothing w /\
  pool w = [Ret (Ok (fw_info ex_window 5 1)); Ret (Ok (fw_info ex_window 5 2))] /\ clock w = 5.
Proof.
  eexists. split.
  - spawned. spawned. clock_read 0%nat. clock_read 1%nat.
    called 0%nat (incr_spec (fw_key ex_window (lit "u") 0) 1 5 (mkSpace ∅ 0) 1 1).
    called 1%nat (incr_spec (fw_key ex_window (lit "u") 0) 1 5 _ 2 2).
    called 0%nat (expire_spec (fw_key ex_window (lit "u") 0) 1000 5 _ _ 3).
    apply steps_refl.
  - split; reflexivity.
Qed.

Lemma fixed_window_exact_witness : exists w,
  steps (request (lit "u") ex_window) (window_key (lit "u") ex_window 0) nothing w /\ length (pool w) = 2%nat /\
  sum_of (passed ex_window 0) (pool w) <= 1 /\
  ((forall q, q ∈ pool w -> exists info, q = Ret (Ok info)) ->
   sum_of (passed ex_window 0) (pool w) = Z.min (sum_of (answered ex_window 0) (pool w)) 1).
Proof.
  destruct ex_window_run as (w & Hs & Hp & Hc). exists w. split; [exact Hs|]. split; [rewrite Hp; reflexivity|].
  refine (fixed_window_exact (lit "u") ex_window 0 nothing w _ _ _ _ _ Hs _).
  - vm_compute. reflexivity.
  - vm_compute. discriminate.
  - vm_compute. discriminate.
  - split; [reflexivity|]. split; reflexivity.
  - vm_compute. discriminate.
  - rewrite Hc. vm_compute. reflexivity.
Defined.

(** States are written as whether a token is left. *)
#[local] Instance toy_bucket_json : BucketJson := {
  print_state := fun st => if num_ltb (tokens st) (num 1) then [0] else [1];
  parse_state := fun v => match v with [x] => Some {| tokens := num x; lastRefill := num 5 |} | _ => None end;
}.

Definition ex_bucket : TokenBucketParams := {| capacity := num 2; refillRate := num 1; tb_prefix := lit "rl" |}.

(** Three requests at the same time on a bucket of two tokens. *)
Lemma ex_bucket_run : exists w,
  steps (draw (lit "u") ex_bucket) (bucket_key (lit "u") ex_bucket) nothing w /\
  took <$> pool w = [1; 1; 0].
Proof.
  eexists. split.
  - spawned. spawned. spawned. clock_read 0%nat. clock_read 1%nat. clock_read 2%nat.
    called 0%nat get_spec.
    called 0%nat (setnx_spec (bucket_key (lit "u") ex_bucket) (print_state (initial ex_bucket 5)) 5 _ 1).
    called 1%nat get_spec.
    called 1%nat (setrev_spec (bucket_key (lit "u") ex_bucket) [0] 1 5 _ 2).
    called 2%nat get_spec. apply steps_refl.
  - vm_compute. reflexivity.
Qed.

Lemma token_bucket_serial_witness : exists w,
  steps (draw (lit "u") ex_bucket) (bucket_key (lit "u") ex_bucket) nothing w /\ took <$> pool w = [1; 1; 0] /\
  exists l, bucket_history ex_bucket l /\
    (a_value <$> sp_map (server w) !! bucket_key (lit "u") ex_bucket) = last l /\
    sum_of took (pool w) = zlen l.
Proof.
  destruct ex_bucket_run as (w & Hs & Hp). exists w. split; [exact Hs|]. split; [exact Hp|].
  refine (token_bucket_serial (lit "u") ex_bucket nothing w _ Hs). split; [reflexivity|]. split; reflexivity.
Defined.
End RateLimitExamples.
