(* ===== verification/Bench.v ===== *)
(** * The load generator, [crates/bench/src]

    The keys of a run ([keyspace.rs]), the operations that a worker draws
    ([workload.rs]), the operations that fill the server before a run and the counting of
    results ([driver.rs], [metrics.rs]).  The generator has its own copy of the routing of
    the server; [bench_populates] says that they agree: the shards' parts of the key
    space are filled completely, each key once, and every operation of a worker of a
    shard is for keys of that shard which were filled. *)

From stdpp Require Import base tactics list strings sorting.
From Stdlib Require Import ZArith Lia.
From S2P Require Import Prelude Ascii Messages Routing.

Open Scope Z_scope.

(** Crates [rand] and [rand_distr]: a draw from [0..n], and a Zipf distribution, whose
    samples are the numbers from 1 to its size. *)
Class Rand := {
  float : Type;
  rng : Type;
  zipf : Type;
  gen_range : Z -> rng -> Z * rng;
  zipf_new : Z -> float -> option zipf;
  zipf_sample : zipf -> rng -> Z * rng;
  gen_range_lt : forall n r, 0 < n -> 0 <= (gen_range n r).1 < n;
  zipf_sample_le : forall n theta z r, 0 < n -> zipf_new n theta = Some z -> 1 <= (zipf_sample z r).1 <= n;
}.

(** Crate [hdrhistogram]: values are recorded, or refused when they are out of range, and
    histograms of the same bounds are added. *)
Class Histogram := {
  hist : Type;
  new_histogram : hist;
  hist_record : hist -> Z -> hist;
  hist_add : hist -> hist -> hist;
}.

Module Bench.

(** ** Keys *)

(** The last [n] hexadecimal digits. *)
Fixpoint hex_digits (n : nat) (i : Z) : bytes :=
  match n with
  | O => []
  | S n => hex_digits n (i / 16) ++ [hex_digit (i mod 16)]
  end.

Definition format_key (idx : Z) : bytes := lit "k:" ++ hex_digits 16 idx.

Section Keyspace.
Context `{FxHash} `{Rand}.

Inductive KeyDist := Uniform | Zipfian (theta : float).

Record Keyspace := mkKeyspace {
  size : Z;
  dist : KeyDist;
  ks_zipf : option zipf;
  indices : option (list Z);
}.

(** The errors are told apart by their texts only. *)
Definition new_sharded (total_keys : Z) (dist : KeyDist) (shard_index num_shards : nat) : option Keyspace :=
  if decide (total_keys > 0 /\ (0 < num_shards)%nat /\ (shard_index < num_shards)%nat) then
    let indices :=
      if decide (num_shards = 1)%nat then None
      else Some (filter (fun i => Z.to_nat (fx_hash (format_key i) mod Z.of_nat num_shards) = shard_index) (seqZ 0 total_keys)) in
    if decide (indices = Some []) then None else
    let size := from_option zlen total_keys indices in
    match dist with
    | Zipfian theta => z ← zipf_new size theta; Some (mkKeyspace size dist (Some z) indices)
    | Uniform => Some (mkKeyspace size dist None indices)
    end
  else None.

(** An index that is out of range panics in the code; [bench_populates] shows that
    none is. *)
Definition at_pos (v : list Z) (pos : Z) : Z := default 0 (v !! Z.to_nat pos).

Definition sample (self : Keyspace) (r : rng) : bytes * rng :=
  let '(pos, r) :=
    match dist self, ks_zipf self with
    | Zipfian _, Some z => let '(x, r) := zipf_sample z r in (x - 1, r)
    | _, _ => gen_range (size self) r
    end in
  (format_key (from_option (fun v => at_pos v pos) pos (indices self)), r).

Definition nth (self : Keyspace) (i : Z) : bytes :=
  format_key (match indices self with
              | Some v => at_pos v (i mod zlen v)
              | None => i mod size self
              end).

(** ** Operations *)

Inductive Op :=
| Get (key : bytes)
| Set_ (key value : bytes)
| Del (key : bytes)
| MGet (keys : list bytes)
| MSet (pairs : list (bytes * bytes)).

Definition op_keys (o : Op) : Z :=
  match o with Get _ | Set_ _ _ | Del _ => 1 | MGet keys => zlen keys | MSet pairs => zlen pairs end.

(** [OpKind], as the index of its histograms. *)
Definition kind (o : Op) : nat :=
  match o with Get _ => 0 | Set_ _ _ => 1 | Del _ => 2 | MGet _ => 3 | MSet _ => 4 end.

Inductive OpMix := GetOnly | SetOnly | Mixed (read_pct : Z).

Record Workload := mkWorkload { keyspace : Keyspace; mix : OpMix; value : bytes; batch : nat }.

Definition workload_new (keyspace : Keyspace) (mix : OpMix) (value_size batch : nat) : Workload :=
  mkWorkload keyspace mix ((fun i => (Z.of_nat i + 32) mod 256) <$> seq 0 value_size) (Nat.max batch 1).

Fixpoint samples (self : Keyspace) (n : nat) (r : rng) : list bytes * rng :=
  match n with
  | O => ([], r)
  | S n => let '(key, r) := sample self r in let '(keys, r) := samples self n r in (key :: keys, r)
  end.

Definition next (self : Workload) (r : rng) : Op * rng :=
  let '(pick_read, r) :=
    match mix self with
    | GetOnly => (true, r)
    | SetOnly => (false, r)
    | Mixed read_pct => let '(x, r) := gen_range 100 r in (x <? read_pct, r)
    end in
  if decide (batch self = 1)%nat then
    let '(key, r) := sample (keyspace self) r in
    (if pick_read : bool then Get key else Set_ key (value self), r)
  else
    let '(keys, r) := samples (keyspace self) (batch self) r in
    (if pick_read : bool then MGet keys else MSet ((fun k => (k, value self)) <$> keys), r).

(** ** Filling the server *)

(** The sets of each connection, in 64-bit arithmetic that wraps around. *)
Definition populate (workload : Workload) (concurrency : nat) : list (list Op) :=
  let n := size (keyspace workload) in
  let bound w := (Z.of_nat w * n) mod 2 ^ 64 / Z.of_nat concurrency in
  (fun w => (fun idx => Set_ (nth (keyspace workload) idx) (value workload)) <$> seqZ (bound w) (bound (S w) - bound w))
    <$> seq 0 concurrency.

(** The sets of [prepare], by workload and connection. *)
Definition prepare (workloads : list Workload) (concurrency : nat) : list (list (list Op)) :=
  let workers_per_shard := Nat.max (concurrency / length workloads) 1 in
  (fun w => populate w workers_per_shard) <$> workloads.
End Keyspace.

(** ** Results *)

Section Stats.
Context `{FxHash} `{Rand} `{Histogram}.

Record KindStats := mkKind { service : hist; response : hist; completed : Z; kind_keys : Z }.
Definition kind_new : KindStats := mkKind new_histogram new_histogram 0 0.

Definition kind_record (self : KindStats) (service_us response_us keys : Z) : KindStats :=
  mkKind (hist_record (service self) service_us) (hist_record (response self) response_us)
    (completed self + 1) (kind_keys self + keys).

Definition merge_into (self into : KindStats) : KindStats :=
  mkKind (hist_add (service into) (service self)) (hist_add (response into) (response self))
    (completed into + completed self) (kind_keys into + kind_keys self).

Record WorkerStats := mkStats { by_kind : list KindStats; errors : Z }.
Definition stats_new : WorkerStats := mkStats (replicate 5 kind_new) 0.

(** One call: its operation and, when it succeeded, the two durations. *)
Definition execute_one (stats : WorkerStats) (call : Op * option (Z * Z)) : WorkerStats :=
  match call.2 with
  | Some (service_us, response_us) =>
      mkStats (alter (fun k => kind_record k service_us response_us (op_keys call.1)) (kind call.1) (by_kind stats)) (errors stats)
  | None => mkStats (by_kind stats) (errors stats + 1)
  end.

Definition run_worker (calls : list (Op * option (Z * Z))) : WorkerStats := foldl execute_one stats_new calls.

(** The merged numbers of a report: by kind, over all kinds, and the errors. *)
Definition from_workers (workers : list WorkerStats) : list KindStats * KindStats * Z :=
  let merged := foldl (fun m w => zip_with merge_into (by_kind w) m) (replicate 5 kind_new) workers in
  let errors := foldl (fun e w => e + errors w) 0 workers in
  (merged, foldl (fun overall k => merge_into k overall) kind_new merged, errors).
End Stats.

(** ** Keys are different *)

Lemma hex_digit_inj a b : 0 <= a < 16 -> 0 <= b < 16 -> hex_digit a = hex_digit b -> a = b.
Proof. unfold hex_digit. intros Ha Hb. destruct (Z.ltb_spec a 10), (Z.ltb_spec b 10); lia. Qed.

Lemma hex_digits_inj n : forall i j,
  0 <= i < 16 ^ Z.of_nat n -> 0 <= j < 16 ^ Z.of_nat n -> hex_digits n i = hex_digits n j -> i = j.
Proof.
  induction n as [|n IH]; intros i j Hi Hj; cbn [hex_digits]; [simpl in *; lia|].
  intros [Hd [= Hm]]%app_inj_tail_iff. rewrite Nat2Z.inj_succ, Z.pow_succ_r in Hi, Hj by lia.
  apply hex_digit_inj in Hm; [|apply Z.mod_pos_bound; lia..].
  assert (forall k, 0 <= k < 16 * 16 ^ Z.of_nat n -> 0 <= k / 16 < 16 ^ Z.of_nat n) as Hdiv.
  { intros k Hk. split; [apply Z.div_pos; lia|apply Z.div_lt_upper_bound; lia]. }
  apply IH in Hd; [|by apply Hdiv..]. rewrite (Z.div_mod i 16), (Z.div_mod j 16) by lia. congruence.
Qed.

Lemma format_key_inj i j : is_u64 i -> is_u64 j -> format_key i = format_key j -> i = j.
Proof.
  intros Hi Hj Heq%app_inv_head. apply (hex_digits_inj 16) in Heq; [done|..];
    change (16 ^ Z.of_nat 16) with (2 ^ 64); zlia.
Qed.

(** ** The parts of the key space *)

Section Parts.
Context `{FxHash} `{Rand}.

(** The numbers of the keys of a shard. *)
Definition part (total : Z) (n s : nat) : list Z :=
  filter (fun i => shard_for_key (format_key i) n = s) (seqZ 0 total).

Definition ks_indices (ks : Keyspace) : list Z := default (seqZ 0 (size ks)) (indices ks).

(** A key space of a shard has the keys that the server routes there, and its
    distribution draws positions in it. *)
Record is_part (total : Z) (n s : nat) (ks : Keyspace) : Prop := {
  ip_indices : ks_indices ks = part total n s;
  ip_size : size ks = zlen (ks_indices ks);
  ip_pos : 0 < size ks;
  ip_zipf : forall theta z, dist ks = Zipfian theta -> ks_zipf ks = Some z -> zipf_new (size ks) theta = Some z;
}.

Lemma zlen_seqZ m n : 0 <= n -> zlen (seqZ m n) = n.
Proof. intros Hn. unfold zlen. rewrite length_seqZ. lia. Qed.

Lemma at_pos_seqZ n i : 0 <= i < n -> at_pos (seqZ 0 n) i = i.
Proof. intros Hi. unfold at_pos. rewrite lookup_seqZ_lt by lia. cbn [default from_option id]. lia. Qed.

Lemma part_one total s : s = 0%nat -> part total 1 s = seqZ 0 total.
Proof.
  intros ->. unfold part. induction (seqZ 0 total) as [|i l IH]; [done|].
  rewrite filter_cons_True, IH; [done|]. unfold shard_for_key. by rewrite Z.mod_1_r.
Qed.

Lemma new_sharded_part total d s n ks : new_sharded total d s n = Some ks -> is_part total n s ks.
Proof.
  unfold new_sharded. case_decide as Hc; [|done]. destruct Hc as (Ht & Hn & Hs).
  set (ix := if decide (n = 1)%nat then _ else _). destruct (decide (ix = Some [])) as [|He]; [done|]. intros Hks.
  assert (size ks = from_option zlen total ix /\ indices ks = ix /\
    forall theta z, dist ks = Zipfian theta -> ks_zipf ks = Some z -> zipf_new (size ks) theta = Some z) as (Hsz & Hix & Hz).
  { destruct d; [injection Hks as <-; by split_and!|].
    destruct (zipf_new _ theta) as [z|] eqn:Hzn; [|done]. injection Hks as <-. split_and!; [done..|]. cbn. by intros ? ? [= <-] [= <-]. }
  assert (ks_indices ks = part total n s) as Hpart.
  { unfold ks_indices. rewrite Hix, Hsz. subst ix. case_decide as H1; cbn; [|done].
    subst n. symmetry. apply part_one. lia. }
  assert (size ks = zlen (ks_indices ks)) as Hlen.
  { unfold ks_indices. rewrite Hix, Hsz. destruct ix; cbn; [done|]. rewrite zlen_seqZ; lia. }
  split; [done|done| |done]. rewrite Hsz. destruct ix as [[|i v]|] eqn:Heq; cbn; [done|unfold zlen; cbn; lia|lia].
Qed.

Lemma nth_part total n s ks i : is_part total n s ks -> 0 <= i < size ks ->
  nth ks i = format_key (at_pos (ks_indices ks) i).
Proof.
  intros [_ Hsz _ _] Hi. unfold nth, ks_indices in *. destruct (indices ks) as [v|]; cbn [default from_option id] in *.
  - rewrite Z.mod_small by lia. done.
  - by rewrite Z.mod_small, at_pos_seqZ.
Qed.

Lemma at_pos_elem v i : 0 <= i < zlen v -> at_pos v i ∈ v.
Proof.
  intros Hi. unfold at_pos. destruct (lookup_lt_is_Some_2 v (Z.to_nat i)) as [x Hx]; [unfold zlen in Hi; lia|].
  rewrite Hx. by eapply list_elem_of_lookup_2.
Qed.

Lemma sample_part total n s ks r : is_part total n s ks ->
  exists i, i ∈ part total n s /\ (sample ks r).1 = format_key i.
Proof.
  intros [Hix Hsz Hpos Hz]. unfold sample. set (draw := match dist ks with Uniform => _ | _ => _ end).
  assert (0 <= draw.1 < size ks) as Hd.
  { subst draw. destruct (dist ks) as [|theta]; [by apply gen_range_lt|]. destruct (ks_zipf ks) as [z|] eqn:Hk; [|by apply gen_range_lt].
    pose proof (zipf_sample_le _ _ _ r Hpos (Hz theta z eq_refl eq_refl)) as Hle. destruct (zipf_sample z r). cbn in *. lia. }
  destruct draw as [pos r']. cbn [fst] in *. exists (at_pos (ks_indices ks) pos).
  split; [rewrite <- Hix; apply at_pos_elem; lia|]. f_equal. unfold ks_indices. destruct (indices ks); cbn [default from_option id]; [done|].
  by rewrite at_pos_seqZ.
Qed.

Lemma samples_part total n s ks m : is_part total n s ks -> forall r k, k ∈ (samples ks m r).1 ->
  exists i, i ∈ part total n s /\ k = format_key i.
Proof.
  intros Hp. induction m as [|m IH]; intros r k; cbn [samples]; [by intros ?%elem_of_nil|].
  destruct (sample_part total n s ks r Hp) as (i & Hi & Hk). destruct (sample ks r) as [key r1]. specialize (IH r1).
  destruct (samples ks m r1) as [keys r2]. cbn in *. intros [->|Hin]%elem_of_cons; [by exists i|by apply IH].
Qed.

(** ** The slices of the connections *)

Lemma slices (f : nat -> Z) c : f 0%nat = 0 -> (forall w, (w < c)%nat -> f w <= f (S w)) ->
  0 <= f c /\ concat ((fun w => seqZ (f w) (f (S w) - f w)) <$> seq 0 c) = seqZ 0 (f c).
Proof.
  intros Hz Hmono. induction c as [|c IH]; [by rewrite Hz|].
  destruct IH as [Hc IH]; [intros; apply Hmono; lia|]. pose proof (Hmono c ltac:(lia)). split; [lia|].
  rewrite seq_S, fmap_app, concat_app, IH. cbn. rewrite app_nil_r.
  replace (f (S c)) with (f c + (f (S c) - f c)) at 2 by lia. rewrite seqZ_app by lia. done.
Qed.

Lemma concat_fmap {A B C} (g : B -> C) (h : A -> list B) (l : list A) :
  concat ((fun a => g <$> h a) <$> l) = g <$> concat (h <$> l).
Proof. induction l as [|a l IH]; [done|]. cbn. by rewrite fmap_app, IH. Qed.

Lemma populate_all wl c : (0 < c)%nat -> 0 <= size (keyspace wl) -> Z.of_nat c * size (keyspace wl) < 2 ^ 64 ->
  concat (populate wl c) = (fun i => Set_ (nth (keyspace wl) i) (value wl)) <$> seqZ 0 (size (keyspace wl)).
Proof.
  intros Hc Hn Hov. unfold populate. set (n := size (keyspace wl)) in *. set (g := fun i => Set_ _ _).
  set (f := fun w : nat => (Z.of_nat w * n) mod 2 ^ 64 / Z.of_nat c).
  assert (forall w, (w <= c)%nat -> f w = Z.of_nat w * n / Z.of_nat c) as Hf.
  { intros w Hw. unfold f. rewrite Z.mod_small; [done|]. split; [lia|]. eapply Z.le_lt_trans; [|exact Hov]. nia. }
  destruct (slices f c) as [_ Hs]; [done| |].
  { intros w Hw. rewrite !Hf by lia. apply Z.div_le_mono; nia. }
  rewrite Hf, Z.mul_comm, Z.div_mul in Hs by lia. rewrite <- Hs. apply (concat_fmap g).
Qed.

(** ** Filling and measuring *)

(** The key spaces of all shards. *)
Definition sharded (total : Z) (n : nat) (wls : list Workload) : Prop :=
  length wls = n /\ forall s wl, wls !! s = Some wl -> exists d, new_sharded total d s n = Some (keyspace wl).

Definition keys_of (o : Op) : list bytes :=
  match o with Get k | Set_ k _ | Del k => [k] | MGet ks => ks | MSet ps => ps.*1 end.

Lemma populate_part total n s wl c :
  is_part total n s (keyspace wl) -> (0 < c)%nat -> Z.of_nat c * total < 2 ^ 64 -> 0 <= total ->
  concat (populate wl c) = (fun i => Set_ (format_key i) (value wl)) <$> part total n s.
Proof.
  intros Hp Hc Hov Ht. pose proof Hp as [Hix Hsz Hpos _].
  assert (size (keyspace wl) <= total) as Hle.
  { rewrite Hsz, Hix. unfold part, zlen. pose proof (length_filter (fun i => shard_for_key (format_key i) n = s) (seqZ 0 total)) as Hl.
    rewrite length_seqZ in Hl. lia. }
  rewrite populate_all by nia. rewrite <- Hix.
  assert (ks_indices (keyspace wl) = at_pos (ks_indices (keyspace wl)) <$> seqZ 0 (size (keyspace wl))) as Hall.
  { apply list_eq_same_length with (length (ks_indices (keyspace wl))); [|done|].
    - rewrite length_fmap, length_seqZ, Hsz. unfold zlen. lia.
    - intros i x y Hi Hx Hy. rewrite list_lookup_fmap in Hy.
      rewrite lookup_seqZ_lt in Hy by (rewrite Hsz; unfold zlen; lia). cbn in Hy. injection Hy as <-.
      unfold at_pos. by rewrite Z.add_0_l, Nat2Z.id, Hx. }
  rewrite Hall at 1. rewrite <- list_fmap_compose. apply list_fmap_ext. intros j i Hi%list_elem_of_lookup_2%elem_of_seqZ.
  unfold compose. by rewrite (nth_part total n s) by (done || lia).
Qed.

Lemma filter_below (f : Z -> nat) n l :
  filter (fun i => f i < S n)%nat l ≡ₚ filter (fun i => f i < n)%nat l ++ filter (fun i => f i = n) l.
Proof.
  induction l as [|i l IH]; [done|]. rewrite !filter_cons.
  destruct (decide (f i < S n)%nat), (decide (f i < n)%nat), (decide (f i = n)); try lia; cbn; rewrite IH; try done.
  by apply Permutation_middle.
Qed.

Lemma filter_parts (f : Z -> nat) n l :
  concat ((fun s => filter (fun i => f i = s) l) <$> seq 0 n) ≡ₚ filter (fun i => f i < n)%nat l.
Proof.
  induction n as [|n IH]; [cbn; induction l as [|i l IHl]; [done|]; rewrite filter_cons_False; [done|lia]|].
  rewrite seq_S, fmap_app, concat_app, IH, filter_below. cbn. by rewrite app_nil_r.
Qed.

(** Every key is in the part of one shard. *)
Lemma parts_all total n : (0 < n)%nat -> concat (part total n <$> seq 0 n) ≡ₚ seqZ 0 total.
Proof.
  intros Hn. unfold part. rewrite filter_parts. induction (seqZ 0 total) as [|i l IH]; [done|].
  rewrite filter_cons_True by (by apply shard_for_key_lt). by rewrite IH.
Qed.

Lemma sharded_part total n wls s wl : sharded total n wls -> wls !! s = Some wl -> is_part total n s (keyspace wl).
Proof. intros [_ Hw] Hs. destruct (Hw s wl Hs) as [d Hd]. by eapply new_sharded_part. Qed.

Lemma next_part total n s wl r k : is_part total n s (keyspace wl) -> k ∈ keys_of (next wl r).1 ->
  exists i, i ∈ part total n s /\ k = format_key i.
Proof.
  intros Hp. unfold next. set (pick := match mix wl with GetOnly => _ | _ => _ end). destruct pick as [b r1].
  case_decide.
  - destruct (sample_part total n s _ r1 Hp) as (i & Hi & Hk). destruct (sample (keyspace wl) r1) as [key r2]. cbn in Hk.
    destruct b; cbn; intros ->%list_elem_of_singleton; by exists i.
  - pose proof (samples_part total n s _ (batch wl) Hp r1 k) as Hk. destruct (samples (keyspace wl) (batch wl) r1) as [keys r2].
    destruct b; cbn in *; [done|]. rewrite <- list_fmap_compose, list_fmap_id. done.
Qed.

Lemma concat_keys (L : list (list Op)) : concat (keys_of <$> concat L) = concat ((fun l => concat (keys_of <$> l)) <$> L).
Proof. induction L as [|l L IH]; [done|]. cbn. by rewrite fmap_app, concat_app, IH. Qed.

Lemma concat_keys_fmap {A} (l : list A) (P : A -> list (list Op)) :
  concat ((fun l => concat (keys_of <$> l)) <$> concat (P <$> l)) = concat ((fun a => concat (keys_of <$> concat (P a))) <$> l).
Proof. induction l as [|a l IH]; [done|]. cbn. by rewrite fmap_app, concat_app, IH, concat_keys. Qed.

Lemma keys_of_sets v l : concat (keys_of <$> ((fun i => Set_ (format_key i) v) <$> l)) = format_key <$> l.
Proof. induction l as [|i l IH]; [done|]. cbn in *. by rewrite IH. Qed.

Lemma fmap_indexed {A B} (l : list A) (F : A -> B) (G : nat -> B) :
  (forall s a, l !! s = Some a -> F a = G s) -> F <$> l = G <$> seq 0 (length l).
Proof.
  intros Heq. apply list_eq. intros s. rewrite !list_lookup_fmap. destruct (l !! s) as [a|] eqn:Ha.
  - rewrite lookup_seq_lt by (by eapply lookup_lt_Some). cbn. f_equal. by apply Heq.
  - rewrite lookup_seq_ge by (by apply lookup_ge_None). done.
Qed.

(** C33: The load generator fills and uses the shards as the server routes.  With one key
    space per shard of a server, and a number of keys and connections whose product is
    below 2^64, the sets of [prepare] over all connections are one set for each of the
    keys, which are different, and the sets of a shard are for keys that the server
    routes to it.  Every operation that a worker of a shard draws afterwards, under any
    distribution, mix and batch size, is for keys that were set and that the server
    routes to the shard of the worker. *)
Theorem bench_populates (total : Z) (n concurrency : nat) (wls : list Workload)
    (Hn : (0 < n)%nat) (Htotal : 0 < total) (Hsharded : sharded total n wls)
    (Hov : Z.of_nat (Nat.max (concurrency / n) 1) * total < 2 ^ 64) :
  let sets := prepare wls concurrency in
  concat (keys_of <$> concat (concat sets)) ≡ₚ format_key <$> seqZ 0 total /\
  NoDup (format_key <$> seqZ 0 total) /\
  forall s wl, wls !! s = Some wl ->
    exists mine, sets !! s = Some mine /\
      (forall o, o ∈ concat mine -> exists k, o = Set_ k (value wl) /\ shard_for_key k n = s) /\
      forall r k, k ∈ keys_of (next wl r).1 ->
        shard_for_key k n = s /\ Set_ k (value wl) ∈ concat mine.
Proof.
  cbv zeta. pose proof Hsharded as [Hlen _]. set (c := Nat.max (concurrency / n) 1) in *.
  assert (forall s wl, wls !! s = Some wl ->
    concat (populate wl c) = (fun i => Set_ (format_key i) (value wl)) <$> part total n s) as Hpop.
  { intros s wl Hs. apply populate_part; [by eapply sharded_part|lia|done|lia]. }
  assert (prepare wls concurrency = (fun w => populate w c) <$> wls) as Hprep by (unfold prepare; by rewrite Hlen).
  rewrite Hprep. split_and!.
  - rewrite <- (parts_all total n Hn), <- (concat_fmap format_key (part total n)), <- Hlen, concat_keys, (concat_keys_fmap wls).
    rewrite (fmap_indexed wls _ (fun s => format_key <$> part total n s)); [by rewrite Hlen|].
    intros s wl Hs. by rewrite (Hpop s wl Hs), keys_of_sets.
  - assert (total < 2 ^ 64) as Hu by (assert (1 <= Z.of_nat c) by lia; nia). apply NoDup_fmap_2_strong; [|apply NoDup_seqZ]. intros i j Hi%elem_of_seqZ Hj%elem_of_seqZ. apply format_key_inj; zlia.
  - intros s wl Hs. exists (populate wl c). rewrite list_lookup_fmap, Hs, (Hpop s wl Hs). split_and!; [done| |].
    + intros o (i & -> & [Hi _]%list_elem_of_filter)%list_elem_of_fmap. by eexists.
    + intros r k Hk. destruct (next_part total n s wl r k (sharded_part _ _ _ _ _ Hsharded Hs) Hk) as (i & Hi & ->).
      split; [by apply list_elem_of_filter in Hi as [? _]|]. by apply (list_elem_of_fmap_2 (fun i => Set_ (format_key i) (value wl))).
Qed.
End Parts.

(** ** Counting *)

Section Counts.
Context `{FxHash} `{Rand} `{Histogram}.
Abbreviation call := (Op * option (Z * Z))%type.

(** The successful calls of a kind. *)
Definition succeeded (k : nat) (calls : list call) : Z := zlen (filter (fun c => is_Some c.2 /\ kind c.1 = k) calls).
Definition failed (calls : list call) : Z := zlen (filter (fun c => c.2 = None) calls).

(** [f] of a kind is its number of completed calls, in five places. *)
Definition counted (f : nat -> Z) (ks : list KindStats) : Prop := completed <$> ks = f <$> seq 0 5.

Lemma counted_lookup f ks k st : counted f ks -> ks !! k = Some st -> completed st = f k.
Proof.
  intros Hc Hk. assert ((completed <$> ks) !! k = Some (completed st)) as Hl by (by rewrite list_lookup_fmap, Hk).
  rewrite Hc, list_lookup_fmap in Hl. destruct (seq 0 5 !! k) as [k'|] eqn:Hs; [|done].
  apply lookup_seq in Hs as [-> _]. by injection Hl.
Qed.

Lemma zlen_snoc_filter {A} (P : A -> Prop) `{!forall x, Decision (P x)} l x :
  zlen (filter P (l ++ [x])) = zlen (filter P l) + (if decide (P x) then 1 else 0).
Proof. rewrite filter_app, zlen_app, filter_cons. by case_decide. Qed.

Lemma succeeded_snoc k calls o r :
  succeeded k (calls ++ [(o, r)]) = succeeded k calls + (if decide (is_Some r /\ kind o = k) then 1 else 0).
Proof. unfold succeeded. by rewrite zlen_snoc_filter. Qed.

Lemma counted_inv f ks : counted f ks -> exists k0 k1 k2 k3 k4, ks = [k0; k1; k2; k3; k4] /\
  completed k0 = f 0%nat /\ completed k1 = f 1%nat /\ completed k2 = f 2%nat /\ completed k3 = f 3%nat /\ completed k4 = f 4%nat.
Proof.
  unfold counted. destruct ks as [|k0 [|k1 [|k2 [|k3 [|k4 [|]]]]]]; intros [=]. by exists k0, k1, k2, k3, k4.
Qed.

Lemma run_worker_counts calls :
  counted (fun k => succeeded k calls) (by_kind (run_worker calls)) /\ errors (run_worker calls) = failed calls.
Proof.
  induction calls as [|[o r] calls [Hc He]] using rev_ind; [done|].
  unfold run_worker, failed in *. rewrite foldl_snoc, zlen_snoc_filter. fold (run_worker calls) in *.
  apply counted_inv in Hc as (k0 & k1 & k2 & k3 & k4 & Hk & H0' & H1' & H2' & H3' & H4').
  unfold execute_one. cbn [snd fst]. rewrite Hk. unfold counted. cbn [fmap list_fmap seq]. rewrite !succeeded_snoc.
  destruct r as [[a b]|]; cbn [by_kind errors].
  - split; [|by rewrite decide_False, Z.add_0_r].
    destruct o; cbn [kind]; repeat first [rewrite decide_True by eauto | rewrite decide_False by (by intros [_ ?])];
      cbn -[succeeded Z.add]; by rewrite H0', H1', H2', H3', H4', ?Z.add_0_r.
  - split; [|rewrite decide_True by done; lia]. rewrite !decide_False by (by intros [[? ?] _]).
    cbn -[succeeded Z.add]. by rewrite H0', H1', H2', H3', H4', !Z.add_0_r.
Qed.

(** Merging adds the counts. *)
Lemma merged_counts workers : forall m f,
  counted f m -> counted (fun k => f k + succeeded k (concat workers))
    (foldl (fun m w => zip_with merge_into (by_kind w) m) m (run_worker <$> workers)).
Proof.
  induction workers as [|w workers IH]; intros m f Hm.
  { unfold counted in *. cbn [fmap list_fmap foldl concat]. rewrite Hm. apply list_fmap_ext. intros i k _.
    by rewrite Z.add_0_r. }
  cbn [fmap list_fmap foldl concat].
  assert (counted (fun k => f k + succeeded k w) (zip_with merge_into (by_kind (run_worker w)) m)) as H1'.
  { destruct (run_worker_counts w) as [Hw _]. apply counted_inv in Hw as (? & ? & ? & ? & ? & -> & ? & ? & ? & ? & ?).
    apply counted_inv in Hm as (? & ? & ? & ? & ? & -> & ? & ? & ? & ? & ?). unfold counted.
    cbn -[succeeded Z.add]. congruence. }
  specialize (IH _ _ H1'). unfold counted in *. rewrite IH. apply list_fmap_ext. intros i k _.
  unfold succeeded. rewrite filter_app, zlen_app. lia.
Qed.

Lemma merged_errors workers : forall e, foldl (fun e w => e + errors w) e (run_worker <$> workers) = e + failed (concat workers).
Proof.
  induction workers as [|w workers IH]; intros e; cbn [fmap list_fmap foldl concat]; [by rewrite Z.add_0_r|].
  rewrite IH, (proj2 (run_worker_counts w)). unfold failed. rewrite filter_app, zlen_app. lia.
Qed.

Lemma all_calls calls :
  succeeded 0 calls + succeeded 1 calls + succeeded 2 calls + succeeded 3 calls + succeeded 4 calls + failed calls = zlen calls.
Proof.
  induction calls as [|[o r] calls IH] using rev_ind; [done|]. rewrite zlen_app. change (zlen [(o, r)]) with 1.
  rewrite !succeeded_snoc. unfold failed in *. rewrite zlen_snoc_filter. cbn [snd].
  destruct r as [x|].
  - rewrite (decide_False (P := Some x = None)) by done.
    destruct o; cbn [kind]; repeat first [rewrite decide_True by eauto | rewrite decide_False by (by intros [_ ?])]; lia.
  - rewrite !(decide_False (P := is_Some None /\ _)) by (by intros [[? ?] _]). rewrite decide_True by done. lia.
Qed.

(** The report counts every call once, however the calls were spread over the workers:
    each kind has its successful calls, and the completed calls and the errors are all
    calls. *)
Theorem report_exact (workers : list (list call)) :
  let '(merged, overall, errs) := from_workers (run_worker <$> workers) in
  (forall k st, merged !! k = Some st -> completed st = succeeded k (concat workers)) /\
  errs = failed (concat workers) /\ completed overall + errs = zlen (concat workers).
Proof.
  unfold from_workers. pose proof (merged_counts workers (replicate 5 kind_new) (fun _ => 0) eq_refl) as Hm.
  rewrite merged_errors. set (merged := foldl _ _ _) in *. clearbody merged. split_and!.
  - intros k st Hk. by rewrite (counted_lookup _ _ _ _ Hm Hk).
  - done.
  - apply counted_inv in Hm as (? & ? & ? & ? & ? & -> & ? & ? & ? & ? & ?). pose proof (all_calls (concat workers)).
    cbn -[succeeded failed]. lia.
Qed.
End Counts.

(** ** A concrete run *)

#[local] Existing Instance sum_hash.

(** Draws the number of the draw; its Zipf distributions give 1. *)
Definition counting : Rand.
Proof.
  refine {| float := unit; rng := Z; zipf := unit; gen_range n r := (r mod n, r + 1);
            zipf_new _ _ := Some tt; zipf_sample _ r := (1, r) |}.
  - intros n r Hn. cbn. by apply Z.mod_pos_bound.
  - intros n theta z r Hn _. cbn. lia.
Defined.
#[local] Existing Instance counting.

Definition ex_dist (s : nat) : KeyDist := match s with O => Uniform | S _ => Zipfian tt end.

Definition ex_workload (s : nat) : Workload :=
  workload_new (default (mkKeyspace 0 Uniform None None) (new_sharded 20 (ex_dist s) s 2)) (Mixed 50) 3 2.

Lemma bench_populates_witness :
  let sets := prepare [ex_workload 0; ex_workload 1] 5 in
  concat (keys_of <$> concat (concat sets)) ≡ₚ format_key <$> seqZ 0 20 /\
  NoDup (format_key <$> seqZ 0 20) /\
  forall s wl, [ex_workload 0; ex_workload 1] !! s = Some wl ->
    exists mine, sets !! s = Some mine /\
      (forall o, o ∈ concat mine -> exists k, o = Set_ k (value wl) /\ shard_for_key k 2 = s) /\
      forall r k, k ∈ keys_of (next wl r).1 -> shard_for_key k 2 = s /\ Set_ k (value wl) ∈ concat mine.
Proof.
  apply (bench_populates 20 2 5 [ex_workload 0; ex_workload 1]).
  - lia.
  - lia.
  - split; [done|]. intros [|[|s]] wl [= <-]; [exists (ex_dist 0)|exists (ex_dist 1)]; vm_compute; reflexivity.
  - vm_compute. reflexivity.
Defined.
End Bench.
